(* ===== verification/_CoqProject ===== *)
-Q . S2P
Prelude.v
Fairness.v
Errors.v
Buffer.v
Utf8.v
Codec.v
Frame.v
Command.v
HandshakeCommands.v
LifecycleCommands.v
Allocation.v
Commands.v
Config.v
Dispatcher.v
Socket.v
Concurrency.v
Dialogue.v
Handshake.v
Client.v
ClientInvariant.v
ClientThreads.v
ClientProperties.v
ClientTypes.v
ClientEnd.v
ThreadProperties.v
Liveness.v
Delivery.v
LostConnection.v
Wire.v
RelaxedFlag.v
Peer.v
Destructor.v
Lifetime.v
GettingStarted.v
UnitTests.v
IntegrationTests.v
