(* ===== verification/Prelude.v ===== *)
(** * A RabbitMQ Stream client in C++, verified

    This development models the C++ client library of the repository,
    [src/cpp_rabbitmq_client_stream]: its byte codec, its command set, its
    dispatcher of responses, its sockets, its handshake and the client built on
    them.  Each definition is a translation of the source, function by function
    and under the source's names, and is executable; the theorems state what
    makes the function correct.

    ** The program and its model

    A client ([client.cpp]) opens a TCP connection ([socket.cpp]), runs a
    five-step handshake on it ([handshake.cpp]), then starts a thread that reads
    frames and one that sends heartbeats.  Callers' threads write requests; the
    reading thread hands each response to the dispatcher ([dispatcher.cpp]), which
    satisfies the promise the caller waits on.  Requests and responses are structs
    ([commands/handshake.hpp], [commands/lifecycle.hpp]) encoded with a primitive
    codec ([codec.cpp], [utf8.cpp]) on byte buffers ([buffer.hpp]), inside
    size-prefixed frames ([frame.cpp]).

    The files, from the bottom up ([include/stream/] and [src/] are left out of the
    source names):

    - [Prelude]: machine integers ([wrap], [swrap]: a cast to the unsigned or signed
      type of a width), byte strings, the reference big-endian encoding, tactics and
      hint databases.  [Fairness]: infinite runs of a step relation under a fair
      scheduler.
    - [Errors]: [errors.hpp], [errors.cpp] and [expected_like.hpp]; [Result] is the
      sum type of [ExpectedLike], with its monad.
    - [Buffer]: [buffer.hpp]; the writer, the bounds-checked reader, the decoder
      monad, and the two program logics of decoders: [parses] (an encoding is read
      back) and [dspec] (what holds on every input).
    - [Utf8]: [utf8.cpp].  [Codec]: [codec.cpp].  [Frame]: [frame.hpp], [frame.cpp].
    - [Command]: the interface the templates of the source expect of a command (the
      class [Command]), and the laws a command promises to its users (the class
      [CommandLaws], relative to a reference wire form, [Wire]).
      [HandshakeCommands] and [LifecycleCommands]: one module per struct, with its
      instances.  [Commands]: what holds of all of them.  [Allocation]: what the
      decoders of arrays reserve before they read.
    - [Config]: [config.hpp], [logger.hpp], [close_reason.hpp].
    - [Dispatcher]: [dispatcher.hpp], [dispatcher.cpp].  A promise is shared between
      an entry and a future, so promises are cells of a store, and
      [std::promise::set_value] on a satisfied one is an exception ([None]).
    - [Socket]: [socket.hpp], [socket.cpp].  The module [Sock] has the ownership of
      descriptors; the answers of system calls are inputs of the model.
    - [Concurrency]: the critical sections of [Dispatcher] and of
      [SocketWriter::write_all] interleaved by any schedule.
    - [Dialogue]: a logic for sequential users of a socket ([performs]: succeeds
      exactly on the exchanges of a relation; [rejects]: fails with a given error).
    - [Handshake]: [handshake.hpp], [handshake.cpp], with the relations
      [x_handshake] and [x_refused] that describe accepted and refused dialogues.
    - [Client]: [client.hpp], [client.cpp].  [ClientInvariant]: the invariant
      [client_ok] and the steps other threads may take ([activity]).
      [ClientProperties]: the theorems about the client's operations.
      [ClientTypes]: the C++ types of its members.  [ClientEnd]: the end of the I/O
      loop, and the destructor.
    - [ClientThreads]: the same client shared by threads.  Each thread is a state (a
      point of its code between two accesses to shared members) and a step relation;
      [sys_step] interleaves any number of callers, the I/O thread, the heartbeat
      thread, a thread in [close] and the network.  [ThreadProperties]: what holds
      of every interleaving.  [Liveness]: what happens in infinite runs under a fair
      scheduler; [Delivery]: the way of a response to its caller; [LostConnection]:
      the end of a connection that nobody closes.  [RelaxedFlag]: the same threads
      when their loads of the stop flag may be stale.  [Wire]: the bytes the threads
      send; [Peer]: how the server reads them.  [Destructor]: the destructor next to
      the background threads.
    - [Lifetime]: the whole life of a client, from its constructor through [connect],
      the threads and [close] to its destructor.
    - [GettingStarted]: [docs/examples/getting_started/getting_started.cpp], the
      program that uses the client from end to end.
    - [UnitTests], [IntegrationTests]: the tests of [tests/unit] and
      [tests/integration], evaluated on the model; the latter against the bytes a
      broker answers.

    ** What the theorems show

    - Bytes: every integer, string and command is read back from its encoding, the
      encoders produce the reference encoding, and every decoder, on arbitrary
      bytes, stays in the buffer and either returns a value whose wire form it has
      consumed or fails with the error of its kind.  A decoded array is no larger
      than its bytes, but the room for it is reserved before they are looked at
      ([decoding_memory]).  The UTF-8 validator accepts
      exactly the encodings of Unicode scalar values.
    - Sockets: reading a frame gives the same result however the stream is cut into
      segments and interrupted by signals; frames come out in order and whole; a
      timeout is only reported between frames; writes leave in order without holes;
      connecting tries the addresses in order and leaks no descriptor.
    - Dispatcher: it refines a table of requests; every future is resolved at most
      once, by its response, its deadline or the end of the connection; and every
      interleaving of threads is equivalent to a sequential run (also for the
      writer: frames of concurrent callers never mix).
    - Handshake: it succeeds exactly on complete accepted dialogues, it succeeds
      whenever the server plays its part, and when the server refuses a step it
      fails with the error of that step and sends nothing more.
    - Client: connecting and closing reach the states and release the resources
      they promise; a request returns what its response says; the loop of the
      reading thread dispatches the whole stream, lets no exception escape, resolves
      every pending request when it ends, ends when the peer closes, and notifies an
      unexpected close at most once; heartbeats are sent and missed heartbeats
      detected; every operation keeps the members within their types.
    - Threads: over all interleavings, a caller only receives the response to its own
      correlation id ([no_crosstalk]); a shutdown goes through its phases in order
      ([shutdown_protocol]); no thread waits for anything but a system call or, in
      [close], a join ([threads_progress]); under a fair scheduler a shutdown
      completes ([shutdown_completes]), a response that has arrived is returned by its
      caller unless its deadline passes first ([arrived_response_returned]), and once
      dispatched it always is ([dispatched_response_returned]); the bytes sent are the
      frames of the writers one after the other, whole unless a write failed
      ([wire_is_frames]);
      the server reads them back one by one ([server_reads_frames]);
      the unexpected-close callback runs at most once ([callback_once]), and exactly
      once when the connection is lost, after which a late request can only time out
      ([lost_connection]).  Responses, shutdown, wire and callback stay safe when the
      relaxed stop flag becomes visible late, and a shutdown completes once it is
      visible ([relaxed_flag_safe]).  The
      destructor releases the descriptor after both threads have ended
      ([destructor_protocol]), and returns unless one of them is held up in a system
      call ([destructor_returns]).  [operations_are_runs] ties the steps to
      the operations of [Client], and [connect_opens] shows that a successful [connect]
      is where the threads start.  Over a whole life, the state follows the state
      machine of [client.hpp] and a closed client never opens again; a destroyed
      client has left no thread and no descriptor behind ([lifetime_safe]).
    - Program: [main] returns 0 only after a graceful close ([main_outcome]), and a
      whole session runs against a model broker by evaluation.

    Where the source departs from its own documents, the theorem states what the
    source does (long strings are truncated, [negotiation_spec], [read_failure],
    [oversized_request], ...).

    ** Modelling choices

    - Integers are [Z], with the casts of the source written out; sizes are 64-bit
      ([size_t]), and buffers are assumed shorter than [2^63] bytes ([reader_wf]).
    - Time is in nanoseconds; an operation that reads the clock takes the reading as
      an argument (one for the readings of a turn of a loop).
    - A blocking operation returns [None] when it waits forever: the inbound side of
      a connection is a finite list of events ([Data], [Eof], [RecvFail]), the
      outbound side a finite list of answers of [send].  Loops over [recv] and
      [send] recurse on those lists.
    - Loops with a counter recurse on it.  [utf8_loop] has the number of bytes as
      fuel ([is_valid_utf8_correct] shows it is enough); the SASL challenge loop has
      the number of bytes the peer sends, plus one ([sasl_loop_terminates]).
    - The iteration order of [std::unordered_map] is that of the model's map;
      [settle_all_perm] shows that it does not matter.
    - In [Client], while a caller waits or joins threads, the other threads are a
      function on the client, in the theorems any sequence of [activity] steps.  In
      [ClientThreads] they are interleaved instead, at the grain of the mutexes and
      atomics of the client; an operation of the dispatcher or of the writer is one
      step there, which [dispatcher_linearizable] and [writes_serialise] justify.
      One thread at a time gets past the guard of [close]; the others are refused
      (the steps [lf_close_early] and [lf_close_again] of [Lifetime]).
    - The stop flag is read with its last value in [ClientThreads].  [RelaxedFlag]
      adds the loads that return the value before; that they end after finitely many
      is what C++ says of atomic stores, and a hypothesis there.
    - A step of the network adds inbound events, or answers of [send], at any time;
      so what [recv] and [send] answer once the socket is closed is not fixed.
    - Correlation ids are drawn while the 32-bit counter has not wrapped around
      (four billion requests on one connection); theorems say so where they need it.

    ** Not modelled

    The failure of an allocation (only the amounts the array decoders reserve are
    modelled), data races on members without a lock (the descriptor in [Socket],
    which [close] changes while other threads use it), thread creation failure,
    signals such as SIGPIPE, the resolver ([getaddrinfo] is a parameter), TLS beyond
    the scaffold the source has ([Socket.TlsSocket]), the live broker of the
    integration tests, and build files.  What is left of the headers are
    declarations, whose definitions are modelled where they are given. *)

From Stdlib Require Export ZArith Lia.
From stdpp Require Export base tactics option list numbers gmap strings pretty.

#[export] Set Default Goal Selector "!".

Local Open Scope Z_scope.

(** ** Machine integers

    An unsigned [w]-bit C++ integer is a [Z] in [[0, 2^w)], a signed one a [Z]
    in [[-2^(w-1), 2^(w-1))].  [wrap w] is [static_cast] to the unsigned type of
    width [w], [swrap w] is [static_cast] to the signed one. *)

Definition wrap (w z : Z) : Z := z mod 2 ^ w.

Definition swrap (w z : Z) : Z :=
  if wrap w z <? 2 ^ (w - 1) then wrap w z else wrap w z - 2 ^ w.

Definition in_u (w z : Z) : Prop := 0 <= z < 2 ^ w.

Definition in_s (w z : Z) : Prop := - 2 ^ (w - 1) <= z < 2 ^ (w - 1).

#[export] Instance in_u_dec w z : Decision (in_u w z).
Proof. unfold in_u. apply _. Defined.

#[export] Instance in_s_dec w z : Decision (in_s w z).
Proof. unfold in_s. apply _. Defined.

(** Bytes: [std::vector<std::uint8_t>] and [std::string] are lists of 8-bit
    integers. *)
Abbreviation bytes := (list Z) (only parsing).
Abbreviation std_string := (list Z) (only parsing).

Definition is_bytes (bs : bytes) : Prop := Forall (in_u 8) bs.

#[export] Instance is_bytes_dec bs : Decision (is_bytes bs).
Proof. unfold is_bytes. apply _. Defined.

(** A string literal of the source, as the bytes of its characters. *)
Definition lit (s : String.string) : bytes :=
  map (fun a => Z.of_N (Ascii.N_of_ascii a)) (String.list_ascii_of_string s).

(** [std::to_string] of an unsigned integer. *)
Definition to_string_u (z : Z) : bytes := lit (pretty (Z.to_N z)).

(** [size()] of a vector or string. *)
Definition zlen {A} (l : list A) : Z := Z.of_nat (length l).

(** [data[i]], in range at every use of the source. *)
Definition byte_at (data : bytes) (i : nat) : Z := default 0 (data !! i).

(** ** Tactics *)

(** Unfold range predicates and close by arithmetic. *)
Ltac range := unfold in_u, in_s in *; lia.

(** Close a decidable closed goal by evaluation. *)
Ltac decided :=
  match goal with |- ?P => refine (bool_decide_unpack P _); vm_compute; exact I end.

(** Case analysis on the innermost [match] of the goal, keeping the equation. *)
Ltac split_match :=
  repeat case_match; simplify_eq/=; try done.

(** ** Hint databases

    [wf] closes range and well-formedness side conditions; [mach] rewrites
    machine-integer casts whose argument is in range. *)
Create HintDb wf.
Create HintDb mach.
Create Rewrite HintDb zlen.

Lemma wrap_range w z : 0 <= w -> in_u w (wrap w z).
Proof. intros. apply Z.mod_pos_bound. lia. Qed.

Lemma wrap_small w z : in_u w z -> wrap w z = z.
Proof. apply Z.mod_small. Qed.

Lemma wrap_wrap w z : 0 <= w -> wrap w (wrap w z) = wrap w z.
Proof. intros. apply wrap_small, wrap_range. done. Qed.

Lemma pow2_half w : 0 < w -> 2 ^ w = 2 * 2 ^ (w - 1).
Proof. intros. rewrite <- Z.pow_succ_r by lia. f_equal. lia. Qed.

Lemma swrap_range w z : 0 < w -> in_s w (swrap w z).
Proof.
  intros Hw. pose proof (wrap_range w z ltac:(lia)) as Hr.
  pose proof (pow2_half w Hw). pose proof (Z.pow_pos_nonneg 2 (w - 1)).
  unfold in_u, in_s, swrap in *. destruct (Z.ltb_spec (wrap w z) (2 ^ (w - 1))); lia.
Qed.

(** Casting a signed value to unsigned and back is the identity. *)
Lemma swrap_wrap w z : 0 < w -> in_s w z -> swrap w (wrap w z) = z.
Proof.
  intros Hw Hz. unfold swrap. rewrite wrap_wrap by lia.
  pose proof (pow2_half w Hw) as Hp. unfold in_s in Hz. unfold wrap.
  destruct (Z.ltb_spec (z mod 2 ^ w) (2 ^ (w - 1))) as [Hlt|Hge];
    destruct (Z.le_gt_cases 0 z).
  - rewrite Z.mod_small; lia.
  - rewrite <- (Z.mod_add z 1), Z.mul_1_l, Z.mod_small in Hlt by lia. lia.
  - rewrite Z.mod_small in Hge by lia. lia.
  - rewrite <- (Z.mod_add z 1), Z.mul_1_l, Z.mod_small by lia. lia.
Qed.

(** Casting an unsigned value to signed and back is the identity. *)
Lemma wrap_swrap w z : 0 < w -> in_u w z -> wrap w (swrap w z) = z.
Proof.
  intros Hw Hz. unfold swrap. rewrite (wrap_small w z) by done.
  destruct (Z.ltb_spec z (2 ^ (w - 1))); [by apply wrap_small|].
  unfold wrap. rewrite <- (Z.mod_add (z - 2 ^ w) 1) by (unfold in_u in *; lia).
  rewrite Z.mul_1_l. replace (z - 2 ^ w + 2 ^ w) with z by lia. by apply Z.mod_small.
Qed.

Lemma swrap_small w z : 0 <= z < 2 ^ (w - 1) -> 0 < w -> swrap w z = z.
Proof.
  intros Hz Hw. pose proof (pow2_half w Hw).
  unfold swrap. rewrite wrap_small by (unfold in_u; lia).
  destruct (Z.ltb_spec z (2 ^ (w - 1))); lia.
Qed.

(** ** Bit operations on bytes *)

(** [(a << k) | b] with [b < 2^k] is a sum. *)
Lemma lor_shiftl_add a b k :
  0 <= k -> in_u k b -> Z.lor (Z.shiftl a k) b = a * 2 ^ k + b.
Proof.
  intros Hk Hb. rewrite <- Z.add_nocarry_lor.
  - by rewrite Z.shiftl_mul_pow2.
  - apply Z.bits_inj'. intros i Hi. rewrite Z.land_spec, Z.bits_0.
    destruct (Z.le_gt_cases k i).
    + rewrite <- (wrap_small k b) by done. unfold wrap.
      rewrite Z.mod_pow2_bits_high by lia. apply andb_false_r.
    + rewrite Z.shiftl_spec_low by lia. done.
Qed.

(** [x & (2^k - 1)] keeps the low [k] bits. *)
Lemma land_ones_wrap x k m : 0 <= k -> m = Z.ones k -> Z.land x m = wrap k x.
Proof. intros Hk ->. by apply Z.land_ones. Qed.

(** ** Big-endian byte strings: the reference meaning of the wire integers *)

Fixpoint be_encode (n : nat) (v : Z) : bytes :=
  match n with
  | O => []
  | S m => wrap 8 (v / 2 ^ (8 * Z.of_nat m)) :: be_encode m v
  end.

Fixpoint be_decode (bs : bytes) : Z :=
  match bs with
  | [] => 0
  | b :: bs => b * 2 ^ (8 * zlen bs) + be_decode bs
  end.

Lemma zlen_nil {A} : zlen (@nil A) = 0.
Proof. done. Qed.

Lemma zlen_cons {A} (x : A) l : zlen (x :: l) = zlen l + 1.
Proof. unfold zlen. cbn [length]. lia. Qed.

Lemma zlen_app {A} (l k : list A) : zlen (l ++ k) = zlen l + zlen k.
Proof. unfold zlen. rewrite length_app. lia. Qed.

Lemma zlen_nonneg {A} (l : list A) : 0 <= zlen l.
Proof. unfold zlen. lia. Qed.

Lemma zlen_to_nat {A} (l : list A) : Z.to_nat (zlen l) = length l.
Proof. unfold zlen. lia. Qed.

Lemma zlen_be_encode n v : zlen (be_encode n v) = Z.of_nat n.
Proof. induction n; cbn [be_encode]; rewrite ?zlen_cons, ?zlen_nil; lia. Qed.

#[export] Hint Rewrite @zlen_nil @zlen_cons @zlen_app zlen_be_encode : zlen.

(** Solve arithmetic about lengths. *)
Ltac zlen := autorewrite with zlen in *; try lia.

Lemma be_encode_bytes n v : is_bytes (be_encode n v).
Proof. induction n; cbn [be_encode]; constructor; [by apply wrap_range|done]. Qed.

Lemma be_encode_wrap n v : be_decode (be_encode n v) = wrap (8 * Z.of_nat n) v.
Proof.
  induction n as [|n IH]; cbn [be_encode be_decode].
  - unfold wrap. by rewrite Z.mod_1_r.
  - rewrite IH, zlen_be_encode. unfold wrap.
    replace (8 * Z.of_nat (S n)) with (8 * Z.of_nat n + 8) by lia.
    rewrite Z.pow_add_r, Z.rem_mul_r by lia. lia.
Qed.

Lemma be_decode_encode n v : in_u (8 * Z.of_nat n) v -> be_decode (be_encode n v) = v.
Proof. intros. rewrite be_encode_wrap. by apply wrap_small. Qed.

Lemma be_decode_range bs : is_bytes bs -> in_u (8 * zlen bs) (be_decode bs).
Proof.
  unfold in_u. induction 1 as [|b bs Hb _ IH]; cbn [be_decode]; [done|].
  rewrite zlen_cons. replace (8 * (zlen bs + 1)) with (8 * zlen bs + 8) by lia.
  pose proof (zlen_nonneg bs). rewrite Z.pow_add_r by lia.
  unfold in_u in Hb. nia.
Qed.

Lemma be_encode_mod n v w :
  8 * Z.of_nat n <= w -> be_encode n (wrap w v) = be_encode n v.
Proof.
  induction n as [|n IH]; intros Hw; cbn [be_encode]; [done|].
  rewrite IH by lia. f_equal. unfold wrap.
  rewrite <- !Z.shiftr_div_pow2 by lia. rewrite <- !Z.land_ones by lia.
  apply Z.bits_inj'. intros i Hi.
  rewrite !Z.land_spec, !Z.shiftr_spec, !Z.land_spec by lia.
  destruct (Z.lt_ge_cases i 8).
  - rewrite (Z.ones_spec_low w) by lia. by rewrite andb_true_r.
  - rewrite (Z.ones_spec_high 8) by lia. by rewrite !andb_false_r.
Qed.

Lemma be_encode_decode bs n : is_bytes bs -> length bs = n -> be_encode n (be_decode bs) = bs.
Proof.
  intros Hb <-. induction Hb as [|b bs Hb Hbs IH]; [done|].
  cbn [length be_encode be_decode]. fold (zlen bs).
  pose proof (be_decode_range bs Hbs) as Hr. pose proof (zlen_nonneg bs).
  unfold in_u in *. f_equal.
  - rewrite Z.div_add_l, Z.div_small, Z.add_0_r by lia. by apply wrap_small.
  - etransitivity; [|exact IH].
    transitivity (be_encode (length bs) (wrap (8 * zlen bs) (be_decode bs))).
    + rewrite <- (be_encode_mod _ (b * _ + _) (8 * zlen bs)) by (unfold zlen; lia).
      f_equal. unfold wrap. by rewrite Z.add_comm, Z.mod_add by lia.
    + apply be_encode_mod. unfold zlen. lia.
Qed.

Lemma be_encode_1 v : be_encode 1 v = [wrap 8 v].
Proof. cbn [be_encode]. by rewrite Z.div_1_r. Qed.

(** Lengths and encodings are rewritten with their lemmas, not unfolded. *)
#[global] Arguments be_encode : simpl never.
#[global] Arguments zlen : simpl never.
#[global] Arguments wrap : simpl never.
#[global] Arguments swrap : simpl never.

(** ** Byte-string facts *)

Lemma is_bytes_nil : is_bytes [].
Proof. constructor. Qed.

Lemma is_bytes_app l k : is_bytes (l ++ k) <-> is_bytes l /\ is_bytes k.
Proof. apply Forall_app. Qed.

Lemma is_bytes_take n l : is_bytes l -> is_bytes (take n l).
Proof. apply Forall_take. Qed.

Lemma is_bytes_drop n l : is_bytes l -> is_bytes (drop n l).
Proof. apply Forall_drop. Qed.

Lemma is_bytes_at data i : is_bytes data -> in_u 8 (byte_at data i).
Proof.
  intros Hb. unfold byte_at. destruct (data !! i) eqn:Hi; [by eapply Forall_lookup_1|].
  cbn. range.
Qed.

Lemma byte_at_O b l : byte_at (b :: l) 0 = b.
Proof. done. Qed.

Lemma byte_at_S b l i : byte_at (b :: l) (S i) = byte_at l i.
Proof. done. Qed.

Lemma byte_at_app pre l j : byte_at (pre ++ l) (length pre + j) = byte_at l j.
Proof. unfold byte_at. by rewrite lookup_app_r, Nat.add_comm, Nat.add_sub by lia. Qed.

Lemma byte_at_app0 pre l : byte_at (pre ++ l) (length pre) = byte_at l 0.
Proof. rewrite <- (Nat.add_0_r (length pre)). apply byte_at_app. Qed.

Lemma lit_bytes s : is_bytes (lit s).
Proof.
  unfold lit, is_bytes. apply Forall_forall. intros z Hz.
  apply list_elem_of_In, in_map_iff in Hz as (a & <- & _).
  pose proof (Ascii.N_ascii_bounded a). unfold in_u. lia.
Qed.

#[export] Hint Resolve wrap_range swrap_range is_bytes_nil is_bytes_take is_bytes_drop
  be_encode_bytes lit_bytes zlen_nonneg : wf.
#[export] Hint Extern 1 (_ <= _) => lia : wf.
#[export] Hint Extern 1 (_ < _) => lia : wf.
