(* ===== verification/Fairness.v ===== *)
(** * Infinite runs under a fair scheduler

    A step relation with an amount of work that no step increases: in an infinite
    run whose scheduler does not ignore for ever the steps that decrease it, no work
    is left in the end, unless the system is stuck. *)

From S2P Require Import Prelude.

Section fairness.
Context {State : Type} (step : State -> State -> Prop) (work : State -> nat).

Definition infinite_run (run : nat -> State) : Prop := forall i, step (run i) (run (S i)).

(** A step that decreases the work exists; the [i]-th step decreases it. *)
Definition can_progress (s : State) : Prop := exists s', step s s' /\ (work s' < work s)%nat.
Definition progresses (run : nat -> State) (i : nat) : Prop := (work (run (S i)) < work (run i))%nat.

(** Weak fairness: it is not the case that from some point on progress is possible
    and none is made. *)
Definition fair (run : nat -> State) : Prop :=
  forall i, exists j, (i <= j)%nat /\ (progresses run j \/ ~ can_progress (run j)).

Lemma run_reaches run i j : infinite_run run -> (i <= j)%nat -> rtc step (run i) (run j).
Proof.
  intros Hrun. induction 1 as [|j _ IH]; [done|]. eapply rtc_r; [exact IH|apply Hrun].
Qed.

(** What is left of a run after its first [n] steps. *)
Definition after (n : nat) (run : nat -> State) (i : nat) : State := run (n + i)%nat.

Lemma after_run n run : (forall i, (n <= i)%nat -> step (run i) (run (S i))) -> infinite_run (after n run).
Proof. intros H i. unfold after. rewrite Nat.add_succ_r. apply H. lia. Qed.

Lemma after_fair n run : fair run -> fair (after n run).
Proof.
  intros H i. destruct (H (n + i)%nat) as (j & Hj & Hm). exists (j - n)%nat. split; [lia|].
  unfold progresses, after in *. rewrite Nat.add_succ_r. by replace (n + (j - n))%nat with j by lia.
Qed.

(** A finite run whose last state can stay as it is goes on for ever. *)
Lemma rtc_infinite a b :
  rtc step a b -> step b b ->
  exists run, infinite_run run /\ run 0%nat = a /\ exists N, forall i, (N <= i)%nat -> run i = b.
Proof.
  intros Hab Hb. induction Hab as [x|x y z Hxy _ IH]; [exists (fun _ => x); split_and!; [by intros i|done|by exists 0%nat]|].
  destruct (IH Hb) as (run & Hrun & H0 & N & HN).
  exists (fun i => match i with O => x | S i => run i end). split; [|split; [done|]].
  - intros [|i]; [by rewrite H0|apply Hrun].
  - exists (S N). intros [|i] Hi; [lia|]. apply HN. lia.
Qed.

Section ending.
Context (I stuck : State -> Prop) (run : nat -> State).
Hypothesis Hstep : forall s s', I s -> step s s' -> I s' /\ (work s' <= work s)%nat.
Hypothesis Hprogress : forall s, I s -> work s = 0%nat \/ stuck s \/ can_progress s.
Hypothesis Hrun : infinite_run run.
Hypothesis Hstart : I (run 0%nat).

Lemma run_invariant i : I (run i).
Proof. induction i as [|i IH]; [done|]. by eapply Hstep. Qed.

Lemma run_work i j : (i <= j)%nat -> (work (run j) <= work (run i))%nat.
Proof.
  induction 1 as [|j _ IH]; [done|]. destruct (Hstep _ _ (run_invariant j) (Hrun j)). lia.
Qed.

(** What is stuck may come loose while no work is done: it is enough that this does
    not last for ever. *)
Lemma fair_run_ends :
  fair run ->
  (forall i, exists K, forall j, (K <= j)%nat -> (i <= j)%nat -> work (run j) = work (run i) -> ~ stuck (run j)) ->
  exists N, forall i, (N <= i)%nat -> work (run i) = 0%nat.
Proof.
  intros Hfair Hfree.
  assert (H : forall n i, (work (run i) <= n)%nat -> exists N, work (run N) = 0%nat).
  { induction n as [|n IH]; intros i Hw; [exists i; lia|].
    destruct (Hfree i) as [K HK]. destruct (Hfair (K `max` i)%nat) as (j & Hj & Hm).
    pose proof (run_work i j ltac:(lia)) as Hle.
    destruct (decide (work (run j) = work (run i))) as [He|Hne]; [|apply (IH j); lia]. destruct Hm as [Hm|Hm].
    - apply (IH (S j)). unfold progresses in Hm. lia.
    - destruct (Hprogress (run j) (run_invariant j)) as [Hz|[Hb|Hc]]; [by exists j| |done].
      by destruct (HK j ltac:(lia) ltac:(lia) He). }
  destruct (H (work (run 0%nat)) 0%nat) as [N HN]; [done|]. exists N. intros i Hi.
  pose proof (run_work N i Hi). lia.
Qed.
End ending.
End fairness.
