(* ===== verification/Errors.v ===== *)
(** * Errors and results: [errors.hpp], [errors.cpp], [result.hpp] and
    [expected_like.hpp]

    The closed error taxonomy of the client and the value-or-error type every
    fallible function returns. *)

From S2P Require Import Prelude.

Local Open Scope Z_scope.

(** ** [StreamError] *)

Module Kind.

(** [StreamError::Kind]. *)
Inductive t :=
  | ConfigurationError
  | ConnectFailed
  | AuthenticationFailed
  | SaslMechanismNotSupported
  | VirtualHostAccessDenied
  | ProtocolViolation
  | RequestTimeout
  | ConnectionNotOpen
  | ConnectionClosed
  | StreamAlreadyExists
  | StreamDoesNotExist
  | ReferenceTooLong
  | IoError
  | DecodeError
  | EncodeError
  | ServerError.

#[global] Instance eq_dec : EqDecision t.
Proof. solve_decision. Defined.

(** [to_string(StreamError::Kind)]; the [switch] covers every enumerator. *)
Definition to_string (k : t) : bytes :=
  match k with
  | ConfigurationError => lit "ConfigurationError"
  | ConnectFailed => lit "ConnectFailed"
  | AuthenticationFailed => lit "AuthenticationFailed"
  | SaslMechanismNotSupported => lit "SaslMechanismNotSupported"
  | VirtualHostAccessDenied => lit "VirtualHostAccessDenied"
  | ProtocolViolation => lit "ProtocolViolation"
  | RequestTimeout => lit "RequestTimeout"
  | ConnectionNotOpen => lit "ConnectionNotOpen"
  | ConnectionClosed => lit "ConnectionClosed"
  | StreamAlreadyExists => lit "StreamAlreadyExists"
  | StreamDoesNotExist => lit "StreamDoesNotExist"
  | ReferenceTooLong => lit "ReferenceTooLong"
  | IoError => lit "IoError"
  | DecodeError => lit "DecodeError"
  | EncodeError => lit "EncodeError"
  | ServerError => lit "ServerError"
  end.

End Kind.

(** [struct StreamError]. *)
Record StreamError := MkStreamError {
  kind : Kind.t;
  message : std_string;
  server_code : option Z
}.

#[export] Instance StreamError_eq_dec : EqDecision StreamError.
Proof. solve_decision. Defined.

(** [StreamError(Kind, std::string)]. *)
Definition mk_error (k : Kind.t) (msg : bytes) : StreamError :=
  MkStreamError k msg None.

(** [StreamError(Kind, std::string, std::uint16_t)]. *)
Definition mk_error_code (k : Kind.t) (msg : bytes) (code : Z) : StreamError :=
  MkStreamError k msg (Some code).

(** ** [Result<T>], i.e. [ExpectedLike<T, StreamError>] *)

Inductive Result (T : Type) :=
  | ok (value : T)
  | err (error : StreamError).
Arguments ok {T} value.
Arguments err {T} error.

#[export] Instance Result_eq_dec `{EqDecision T} : EqDecision (Result T).
Proof. solve_decision. Defined.

Definition is_ok {T} (r : Result T) : bool :=
  match r with ok _ => true | err _ => false end.

Definition is_err {T} (r : Result T) : bool :=
  match r with ok _ => false | err _ => true end.

(** The early-return idiom [if (!r) return Result<U>::err(r.error());]. *)
#[export] Instance result_ret : MRet Result := fun _ x => ok x.
#[export] Instance result_bind : MBind Result := fun A B k r =>
  match r with ok x => k x | err e => err e end.

(** The error of a result has this kind. *)
Definition fails_with {T} (k : Kind.t) (r : Result T) : Prop :=
  exists e, r = err e /\ kind e = k.

Lemma to_string_inj k1 k2 : Kind.to_string k1 = Kind.to_string k2 -> k1 = k2.
Proof. destruct k1, k2; vm_compute; congruence. Qed.

Lemma is_err_negb {T} (r : Result T) : is_err r = negb (is_ok r).
Proof. by destruct r. Qed.
