(* ===== verification/Buffer.v ===== *)
(** * Byte buffers: [buffer.hpp]

    The append-only [BufferWriter], the bounds-checked [BufferReader] cursor,
    the state-and-error monad of the decoding functions, and the two program
    logics used for decoders: [parses] (an encoding is read back) and [dspec]
    (what holds on every input, success or failure). *)

From S2P Require Import Prelude Errors.

Local Open Scope Z_scope.

(** ** [BufferWriter]: its only member [data_] *)

Abbreviation BufferWriter := (list Z) (only parsing).

Module Writer.

Definition empty : BufferWriter := [].

(** [write_raw(src, n)] appends [src[0..n)]. *)
Definition write_raw (w : BufferWriter) (src : bytes) (n : Z) : BufferWriter :=
  w ++ take (Z.to_nat n) src.

Definition write_byte (w : BufferWriter) (b : Z) : BufferWriter := w ++ [b].

Definition size (w : BufferWriter) : Z := zlen w.

(** [take() &&] moves the contents out. *)
Definition take_data (w : BufferWriter) : bytes := w.

End Writer.

(** ** [BufferReader] *)

Record BufferReader := MkReader {
  data_ : bytes;
  size_ : Z;
  pos_ : Z
}.

(** [BufferReader(const std::vector<std::uint8_t>&)]. *)
Definition reader_of (v : bytes) : BufferReader := MkReader v (zlen v) 0.

(** A method of the reader: it may move the cursor, and may fail. *)
Definition Decoder (A : Type) : Type := BufferReader -> Result A * BufferReader.

#[export] Instance decoder_ret : MRet Decoder := fun _ x r => (ok x, r).
#[export] Instance decoder_bind : MBind Decoder := fun A B k d r =>
  match d r with
  | (ok x, r') => k x r'
  | (err e, r') => (err e, r')
  end.

Definition dec_fail {A} (e : StreamError) : Decoder A := fun r => (err e, r).

Module Reader.

Definition remaining (r : BufferReader) : Z := wrap 64 (size_ r - pos_ r).

Definition pos (r : BufferReader) : Z := pos_ r.

Definition empty (r : BufferReader) : bool := remaining r =? 0.

Definition require (n : Z) (r : BufferReader) : Result unit :=
  if n >? remaining r then err (mk_error Kind.DecodeError (lit "truncated input"))
  else ok tt.

(** [pos_ += n]. *)
Definition advance (n : Z) (r : BufferReader) : BufferReader :=
  MkReader (data_ r) (size_ r) (wrap 64 (pos_ r + n)).

(** The [n] bytes at the cursor. *)
Definition window (n : Z) (r : BufferReader) : bytes :=
  take (Z.to_nat n) (drop (Z.to_nat (pos_ r)) (data_ r)).

(** [read_raw(dst, n)]: the result is what [memcpy] leaves in [dst[0..n)]. *)
Definition read_raw (n : Z) : Decoder bytes := fun r =>
  match require n r with
  | err e => (err e, r)
  | ok _ => (ok (window n r), advance n r)
  end.

Definition read_byte : Decoder Z := fun r =>
  match require 1 r with
  | err e => (err e, r)
  | ok _ => (ok (default 0 (data_ r !! Z.to_nat (pos_ r))), advance 1 r)
  end.

(** [borrow(n)]: the bytes the returned pointer gives access to. *)
Definition borrow (n : Z) : Decoder bytes := fun r =>
  match require n r with
  | err e => (err e, r)
  | ok _ => (ok (window n r), advance n r)
  end.

End Reader.

(** Lift a read-only method. *)
Definition inspect {A} (f : BufferReader -> A) : Decoder A := fun r => (ok (f r), r).

Lemma decoder_bind_assoc {A B C} (d : Decoder A) (k : A -> Decoder B) (h : B -> Decoder C) r :
  ((d ≫= k) ≫= h) r = (d ≫= (fun x => k x ≫= h)) r.
Proof. unfold mbind, decoder_bind. by destruct (d r) as [[x|e] r']. Qed.

(** ** [for (int i = 0; i < count; ++i)] with early return on error

    The recursion follows the binary digits of [count], so that a huge declared
    count that fails on its first element is cheap to evaluate;
    [for_loop_nat] shows it is the plain iteration. *)

Fixpoint pos_loop {St} (p : positive) (body : St -> Decoder St) (s : St) : Decoder St :=
  match p with
  | xH => body s
  | xO q => s1 ← pos_loop q body s; pos_loop q body s1
  | xI q => s0 ← body s; s1 ← pos_loop q body s0; pos_loop q body s1
  end.

Definition for_loop {St} (count : Z) (body : St -> Decoder St) (s : St) : Decoder St :=
  match count with
  | Zpos p => pos_loop p body s
  | _ => mret s
  end.

Fixpoint nat_loop {St} (n : nat) (body : St -> Decoder St) (s : St) : Decoder St :=
  match n with
  | O => mret s
  | S m => s1 ← body s; nat_loop m body s1
  end.

Lemma nat_loop_add {St} (body : St -> Decoder St) n m s r :
  nat_loop (n + m) body s r = (s1 ← nat_loop n body s; nat_loop m body s1) r.
Proof.
  revert s r. induction n as [|n IH]; intros s r; [done|].
  cbn [nat_loop Nat.add]. unfold mbind, decoder_bind.
  destruct (body s r) as [[s1|e] r1]; [|done]. apply IH.
Qed.

Lemma pos_loop_nat {St} (body : St -> Decoder St) p s r :
  pos_loop p body s r = nat_loop (Pos.to_nat p) body s r.
Proof.
  revert s r.
  assert (Hdouble : forall q s r,
    (forall s r, pos_loop q body s r = nat_loop (Pos.to_nat q) body s r) ->
    (s1 ← pos_loop q body s; pos_loop q body s1) r
    = nat_loop (Pos.to_nat q + Pos.to_nat q) body s r).
  { intros q s r IH. rewrite nat_loop_add. unfold mbind, decoder_bind. rewrite IH.
    destruct (nat_loop _ body s r) as [[s1|e] r1]; [apply IH|done]. }
  induction p as [q IH|q IH|]; intros s r.
  - replace (Pos.to_nat q~1) with (1 + (Pos.to_nat q + Pos.to_nat q))%nat by lia.
    cbn [pos_loop nat_loop Nat.add]. unfold mbind at 1, decoder_bind at 1.
    unfold mbind at 2, decoder_bind at 2.
    destruct (body s r) as [[s1|e] r1]; [by apply Hdouble|done].
  - replace (Pos.to_nat q~0) with (Pos.to_nat q + Pos.to_nat q)%nat by lia.
    by apply Hdouble.
  - change (Pos.to_nat 1) with 1%nat. cbn [pos_loop nat_loop].
    unfold mbind, decoder_bind, mret, decoder_ret.
    by destruct (body s r) as [[s1|e] r1].
Qed.

Lemma for_loop_nat {St} (body : St -> Decoder St) count s r :
  for_loop count body s r = nat_loop (Z.to_nat count) body s r.
Proof. destruct count; [done| |done]. apply pos_loop_nat. Qed.

(** ** Well-formed readers *)

Definition reader_wf (r : BufferReader) : Prop :=
  size_ r = zlen (data_ r) /\ in_u 64 (size_ r) /\ 0 <= pos_ r <= size_ r /\
  is_bytes (data_ r).

Lemma reader_of_wf v : is_bytes v -> in_u 64 (zlen v) -> reader_wf (reader_of v).
Proof.
  intros. split; [done|]. split; [done|]. split; [|done]. cbn. pose proof (zlen_nonneg v). lia.
Qed.

Lemma remaining_wf r : reader_wf r -> Reader.remaining r = size_ r - pos_ r.
Proof. intros (? & ? & ? & ?). apply wrap_small. range. Qed.

(** What the cursor passed over between two states of one reader. *)
Definition consumed (r r' : BufferReader) : bytes := Reader.window (pos_ r' - pos_ r) r.

(** [later r r']: the same buffer, with the cursor at or after. *)
Definition later (r r' : BufferReader) : Prop :=
  reader_wf r' /\ data_ r' = data_ r /\ size_ r' = size_ r /\ pos_ r <= pos_ r'.

Lemma later_refl r : reader_wf r -> later r r.
Proof. repeat split; try apply H; lia. Qed.

Lemma later_trans r1 r2 r3 : later r1 r2 -> later r2 r3 -> later r1 r3.
Proof.
  intros (? & ? & ? & ?) (? & ? & ? & ?). split; [done|]. repeat split; congruence || lia.
Qed.

Lemma later_advance r n :
  reader_wf r -> 0 <= n <= size_ r - pos_ r -> later r (Reader.advance n r).
Proof.
  intros (Hs & Hu & Hp & Hb) Hn.
  assert (wrap 64 (pos_ r + n) = pos_ r + n) as Hw by (apply wrap_small; range).
  split; [|cbn; rewrite Hw; repeat split; lia].
  split; [done|]. split; [done|]. split; [|done]. cbn. lia.
Qed.

Lemma consumed_advance r n :
  reader_wf r -> 0 <= n <= size_ r - pos_ r ->
  consumed r (Reader.advance n r) = Reader.window n r.
Proof.
  intros (Hs & Hu & Hp & Hb) Hn. unfold consumed. cbn [Reader.advance pos_].
  rewrite wrap_small by range. do 2 f_equal. lia.
Qed.

Lemma consumed_refl r : consumed r r = [].
Proof. unfold consumed, Reader.window. by replace (pos_ r - pos_ r) with 0 by lia. Qed.

Lemma consumed_trans r1 r2 r3 :
  reader_wf r1 -> later r1 r2 -> later r2 r3 ->
  consumed r1 r3 = consumed r1 r2 ++ consumed r2 r3.
Proof.
  intros (_ & _ & ? & _) (_ & Hd & _ & ?) (_ & _ & _ & ?).
  unfold consumed, Reader.window. rewrite Hd.
  replace (Z.to_nat (pos_ r3 - pos_ r1))
    with (Z.to_nat (pos_ r2 - pos_ r1) + Z.to_nat (pos_ r3 - pos_ r2))%nat by lia.
  rewrite <- take_take_drop, drop_drop. do 3 f_equal. lia.
Qed.

Lemma window_length r n :
  reader_wf r -> 0 <= n <= size_ r - pos_ r -> zlen (Reader.window n r) = n.
Proof.
  intros (Hs & _ & ? & _) ?. unfold zlen, Reader.window in *.
  rewrite length_take, length_drop. lia.
Qed.

Lemma window_bytes r n : reader_wf r -> is_bytes (Reader.window n r).
Proof. intros (_ & _ & _ & ?). unfold Reader.window. auto with wf. Qed.

(** ** [dspec]: what a decoder does on every well-formed reader

    [P bs x] describes a success that consumed [bs] and returned [x], [E e] a
    failure.  In both cases the buffer is untouched and the cursor stays inside
    it and never moves back. *)
Definition dspec {A} (d : Decoder A) (P : bytes -> A -> Prop) (E : StreamError -> Prop) : Prop :=
  forall r, reader_wf r ->
    later r (snd (d r)) /\
    match fst (d r) with
    | ok x => P (consumed r (snd (d r))) x
    | err e => E e
    end.

(** The error kind of a malformed or truncated body. *)
Definition decode_error (e : StreamError) : Prop := kind e = Kind.DecodeError.

Lemma dspec_conseq {A} (d : Decoder A) (P Q : bytes -> A -> Prop) (E F : StreamError -> Prop) :
  dspec d P E -> (forall bs x, P bs x -> Q bs x) -> (forall e, E e -> F e) -> dspec d Q F.
Proof.
  intros Hd HPQ HEF r Hr. destruct (Hd r Hr) as [Hl Hres]. split; [done|].
  destruct (d r) as [[x|e] r']; cbn in *; auto.
Qed.

Lemma dspec_ret {A} (x : A) E : dspec (mret x) (fun bs y => bs = [] /\ y = x) E.
Proof.
  intros r Hr. cbn. split; [by apply later_refl|]. by rewrite consumed_refl.
Qed.

Lemma dspec_fail {A} (e : StreamError) (P : bytes -> A -> Prop) (E : StreamError -> Prop) :
  E e -> dspec (dec_fail e) P E.
Proof. intros He r Hr. cbn. split; [by apply later_refl|done]. Qed.

Lemma dspec_bind {A B} (d : Decoder A) (k : A -> Decoder B) P Q E :
  dspec d P E ->
  (forall bs x, P bs x -> dspec (k x) (fun bs' y => Q (bs ++ bs') y) E) ->
  dspec (d ≫= k) Q E.
Proof.
  intros Hd Hk r Hr. destruct (Hd r Hr) as [Hl Hres].
  unfold mbind, decoder_bind. destruct (d r) as [[x|e] r']; cbn in *; [|done].
  destruct (Hk _ _ Hres r' (proj1 Hl)) as [Hl' Hres'].
  split; [by eapply later_trans|].
  destruct (k x r') as [[y|e] r'']; cbn in *; [|done].
  by rewrite (consumed_trans r r').
Qed.

(** The last step of a decoder returns a function of what it read. *)
Lemma dspec_map {A B} (d : Decoder A) (f : A -> B) P (Q : bytes -> B -> Prop) E :
  dspec d P E -> (forall bs x, P bs x -> Q bs (f x)) -> dspec (x ← d; mret (f x)) Q E.
Proof.
  intros Hd HPQ. eapply dspec_bind; [apply Hd|]. intros bs x Hx.
  eapply dspec_conseq; [apply dspec_ret| |done]. intros bs' y [-> ->].
  rewrite app_nil_r. auto.
Qed.

Lemma dspec_ext {A} (d d' : Decoder A) P E :
  (forall r, d r = d' r) -> dspec d P E -> dspec d' P E.
Proof. intros Heq Hd r Hr. rewrite <- Heq. by apply Hd. Qed.

Lemma dspec_assoc {A B C} (d : Decoder A) (k : A -> Decoder B) (h : B -> Decoder C) P E :
  dspec ((d ≫= k) ≫= h) P E -> dspec (d ≫= (fun x => k x ≫= h)) P E.
Proof. apply dspec_ext, decoder_bind_assoc. Qed.

Lemma dspec_inspect {A} (f : BufferReader -> A) E :
  dspec (inspect f) (fun bs _ => bs = []) E.
Proof.
  intros r Hr. cbn. split; [by apply later_refl|]. by rewrite consumed_refl.
Qed.

(** The number of bytes between two cursor positions is what was consumed. *)
Lemma consumed_length r r' : later r r' -> reader_wf r -> zlen (consumed r r') = pos_ r' - pos_ r.
Proof.
  intros (Hwf & Hd & Hs & Hp) Hr. apply window_length; [done|].
  destruct Hwf as (_ & _ & ? & _). lia.
Qed.

(** The idiom [start = r.pos(); ...; consumed = r.pos() - start]. *)
Lemma dspec_measured {A B} (d : Decoder A) (k : Z -> A -> Decoder B) P Q E :
  dspec d P E ->
  (forall bs x, P bs x -> dspec (k (zlen bs) x) (fun bs' y => Q (bs ++ bs') y) E) ->
  dspec (start ← inspect Reader.pos; x ← d; stop ← inspect Reader.pos;
         k (wrap 64 (stop - start)) x) Q E.
Proof.
  intros Hd Hk r Hr. destruct (Hd r Hr) as [Hl Hres].
  unfold mbind, decoder_bind, inspect. destruct (d r) as [[x|e] r']; cbn in *; [|done].
  destruct (Hk _ _ Hres r' (proj1 Hl)) as [Hl' Hres'].
  rewrite consumed_length in Hl', Hres' by done.
  unfold Reader.pos. rewrite wrap_small.
  - split; [by eapply later_trans|].
    destruct (k _ x r') as [[y|e] r'']; cbn in *; [|done].
    by rewrite (consumed_trans r r').
  - destruct Hl as ((_ & Hu & ? & _) & _ & Hs & ?), Hr as (_ & _ & ? & _). range.
Qed.

(** What is consumed fits the address space. *)
Lemma dspec_bounded {A} (d : Decoder A) P E :
  dspec d P E -> dspec d (fun bs x => P bs x /\ zlen bs < 2 ^ 64) E.
Proof.
  intros Hd r Hr. destruct (Hd r Hr) as [Hl Hres]. split; [done|].
  destruct (d r) as [[x|e] r'] eqn:Hdr; cbn in *; [|done]. split; [done|].
  rewrite consumed_length by done.
  destruct Hl as ((_ & Hu & ? & _) & _ & Hs & ?), Hr as (_ & _ & ? & _). range.
Qed.

Lemma require_spec n r :
  reader_wf r ->
  match Reader.require n r with
  | ok _ => n <= size_ r - pos_ r
  | err e => decode_error e /\ size_ r - pos_ r < n
  end.
Proof.
  intros Hr. unfold Reader.require. rewrite remaining_wf by done.
  rewrite Z.gtb_ltb. destruct (Z.ltb_spec (size_ r - pos_ r) n); done.
Qed.

Lemma dspec_read_raw n :
  0 <= n -> dspec (Reader.read_raw n) (fun bs x => bs = x /\ zlen x = n /\ is_bytes x) decode_error.
Proof.
  intros Hn r Hr. unfold Reader.read_raw. pose proof (require_spec n r Hr) as Hq.
  destruct (Reader.require n r); cbn.
  - split; [by apply later_advance|].
    rewrite consumed_advance by done. by auto using window_length, window_bytes.
  - split; [by apply later_refl|apply Hq].
Qed.

Lemma dspec_borrow n :
  0 <= n -> dspec (Reader.borrow n) (fun bs x => bs = x /\ zlen x = n /\ is_bytes x) decode_error.
Proof. apply dspec_read_raw. Qed.

Lemma dspec_read_byte :
  dspec Reader.read_byte (fun bs x => bs = [x] /\ in_u 8 x) decode_error.
Proof.
  intros r Hr. unfold Reader.read_byte. pose proof (require_spec 1 r Hr) as Hq.
  destruct (Reader.require 1 r); cbn; [|split; [by apply later_refl|apply Hq]].
  split; [by apply later_advance|]. rewrite consumed_advance by done.
  destruct Hr as (Hs & Hu & Hp & Hb). unfold zlen in Hs.
  destruct (data_ r !! Z.to_nat (pos_ r)) as [b|] eqn:Hl.
  - split; [|by eapply Forall_lookup_1].
    unfold Reader.window. by erewrite drop_S.
  - apply lookup_ge_None_1 in Hl. lia.
Qed.

(** A loop body that appends one element described by [P] makes a loop that
    appends [count] of them. *)
Lemma dspec_for_loop {A} (elem : Decoder A) (P : bytes -> A -> Prop) E count acc :
  dspec elem P E ->
  dspec (for_loop count (fun out => x ← elem; mret (out ++ [x])) acc)
    (fun bs ys => exists xs bss, ys = acc ++ xs /\ bs = concat bss /\
       length xs = Z.to_nat count /\ Forall2 P bss xs) E.
Proof.
  intros He. eapply dspec_ext; [intros r; symmetry; apply for_loop_nat|].
  generalize (Z.to_nat count) as n. intros n. revert acc.
  induction n as [|n IH]; intros acc; cbn [nat_loop].
  - eapply dspec_conseq; [apply dspec_ret| |done].
    intros bs ys [-> ->]. exists [], []. by rewrite app_nil_r.
  - eapply dspec_bind.
    { apply (dspec_bind _ _ P (fun bs y => exists x, P bs x /\ y = acc ++ [x])); [apply He|].
      intros bs x Hx. eapply dspec_conseq; [apply dspec_ret| |done].
      intros bs' y [-> ->]. rewrite app_nil_r. eauto. }
    intros bs y (x & Hx & ->). eapply dspec_conseq; [apply IH| |done].
    intros bs' ys (xs & bss & -> & -> & <- & HF).
    eexists (_ :: xs), (_ :: bss). rewrite <- app_assoc. cbn [concat length].
    split; [done|]. split; [done|]. split; [done|]. by constructor.
Qed.

(** ** [parses]: an encoding is read back

    [at_ pre rest] is a reader whose cursor stands between [pre] and [rest];
    [parses d bs x]: wherever [bs] lies in a buffer, [d] returns [x] and leaves
    the cursor right after [bs]. *)

Definition at_ (pre rest : bytes) : BufferReader :=
  MkReader (pre ++ rest) (zlen (pre ++ rest)) (zlen pre).

Definition parses {A} (d : Decoder A) (bs : bytes) (x : A) : Prop :=
  forall pre post, zlen (pre ++ bs ++ post) < 2 ^ 64 ->
    d (at_ pre (bs ++ post)) = (ok x, at_ (pre ++ bs) post).

(** Like [parses] where the encoding ends the buffer. *)
Definition parses_last {A} (d : Decoder A) (bs : bytes) (x : A) : Prop :=
  forall pre, zlen (pre ++ bs) < 2 ^ 64 -> d (at_ pre bs) = (ok x, at_ (pre ++ bs) []).

Lemma at_start v : at_ [] v = reader_of v.
Proof. done. Qed.

Lemma parses_is_last {A} (d : Decoder A) bs x : parses d bs x -> parses_last d bs x.
Proof.
  intros Hd pre Hsz. specialize (Hd pre []). rewrite !app_nil_r in Hd. auto.
Qed.

Lemma remaining_at pre rest :
  zlen (pre ++ rest) < 2 ^ 64 -> Reader.remaining (at_ pre rest) = zlen rest.
Proof.
  intros. unfold Reader.remaining, at_. cbn [size_ pos_]. zlen.
  rewrite wrap_small; [lia|]. pose proof (zlen_nonneg pre). pose proof (zlen_nonneg rest). range.
Qed.

Lemma window_at pre bs post : Reader.window (zlen bs) (at_ pre (bs ++ post)) = bs.
Proof.
  unfold Reader.window, at_. cbn [data_ pos_]. rewrite !zlen_to_nat.
  by rewrite drop_app_length, take_app_length.
Qed.

Lemma advance_at pre bs post :
  zlen (pre ++ bs ++ post) < 2 ^ 64 ->
  Reader.advance (zlen bs) (at_ pre (bs ++ post)) = at_ (pre ++ bs) post.
Proof.
  intros H. unfold Reader.advance, at_. cbn [data_ size_ pos_]. zlen.
  pose proof (zlen_nonneg pre). pose proof (zlen_nonneg bs). pose proof (zlen_nonneg post).
  rewrite wrap_small by range. rewrite <- app_assoc. f_equal. lia.
Qed.

Lemma parses_ret {A} (x : A) : parses (mret x) [] x.
Proof. intros pre post _. by rewrite app_nil_r. Qed.

Lemma parses_bind {A B} (d : Decoder A) (k : A -> Decoder B) bs1 bs2 x y :
  parses d bs1 x -> parses (k x) bs2 y -> parses (d ≫= k) (bs1 ++ bs2) y.
Proof.
  intros Hd Hk pre post Hsz. rewrite <- app_assoc in *.
  unfold mbind, decoder_bind. rewrite Hd by done.
  rewrite Hk by (by rewrite <- app_assoc). by rewrite app_assoc.
Qed.

Lemma parses_last_bind {A B} (d : Decoder A) (k : A -> Decoder B) bs1 bs2 x y :
  parses d bs1 x -> parses_last (k x) bs2 y -> parses_last (d ≫= k) (bs1 ++ bs2) y.
Proof.
  intros Hd Hk pre Hsz. unfold mbind, decoder_bind. rewrite Hd by done.
  rewrite Hk by (by rewrite <- app_assoc). by rewrite app_assoc.
Qed.

(** A step after which nothing more is read. *)
Lemma parses_then {A B} (d : Decoder A) (k : A -> Decoder B) bs x y :
  parses d bs x -> parses (k x) [] y -> parses (d ≫= k) bs y.
Proof. intros. rewrite <- (app_nil_r bs). by eapply parses_bind. Qed.

(** The last step of a decoder returns what it built. *)
Lemma parses_map {A B} (d : Decoder A) (f : A -> B) bs x y :
  parses d bs x -> f x = y -> parses (x ← d; mret (f x)) bs y.
Proof.
  intros Hd <-. eapply parses_then; [done|]. apply parses_ret.
Qed.

Lemma parses_ext {A} (d d' : Decoder A) bs x :
  (forall r, d r = d' r) -> parses d bs x -> parses d' bs x.
Proof. intros Heq Hd pre post Hsz. rewrite <- Heq. by apply Hd. Qed.

Lemma parses_assoc {A B C} (d : Decoder A) (k : A -> Decoder B) (h : B -> Decoder C) bs x :
  parses ((d ≫= k) ≫= h) bs x -> parses (d ≫= (fun x => k x ≫= h)) bs x.
Proof. apply parses_ext, decoder_bind_assoc. Qed.

Lemma parses_borrow bs n : n = zlen bs -> parses (Reader.borrow n) bs bs.
Proof.
  intros -> pre post Hsz. unfold Reader.borrow, Reader.require.
  rewrite remaining_at by done. pose proof (zlen_nonneg post).
  destruct (Z.gtb_spec (zlen bs) (zlen (bs ++ post))); [zlen|].
  by rewrite window_at, advance_at.
Qed.

Lemma parses_read_raw bs n : n = zlen bs -> parses (Reader.read_raw n) bs bs.
Proof. apply parses_borrow. Qed.

Lemma parses_read_byte b : parses Reader.read_byte [b] b.
Proof.
  intros pre post Hsz. unfold Reader.read_byte, Reader.require.
  rewrite remaining_at by done. pose proof (zlen_nonneg post).
  destruct (Z.gtb_spec 1 (zlen ([b] ++ post))); [zlen|].
  rewrite <- (advance_at pre [b] post) by done. do 2 f_equal.
  unfold at_. cbn [data_ pos_ app]. by rewrite zlen_to_nat, list_lookup_middle.
Qed.

(** A test for the end of the buffer, before at least one more byte. *)
Lemma parses_not_empty {A} (d1 d2 : Decoder A) bs x :
  bs <> [] -> parses d2 bs x ->
  parses (b ← inspect Reader.empty; if b : bool then d1 else d2) bs x.
Proof.
  intros Hne Hd pre post Hsz. unfold mbind, decoder_bind, inspect, Reader.empty.
  rewrite remaining_at by done. destruct bs as [|b bs]; [done|].
  pose proof (zlen_nonneg bs). pose proof (zlen_nonneg post).
  destruct (Z.eqb_spec (zlen ((b :: bs) ++ post)) 0); [zlen|]. by apply Hd.
Qed.

(** The same test at the end of the buffer. *)
Lemma parses_last_empty {A} (d1 d2 : Decoder A) x :
  parses_last d1 [] x ->
  parses_last (b ← inspect Reader.empty; if b : bool then d1 else d2) [] x.
Proof.
  intros Hd pre Hsz. unfold mbind, decoder_bind, inspect, Reader.empty.
  rewrite remaining_at by done. by apply Hd.
Qed.

(** A test on the number of bytes left, which covers the encoding. *)
Lemma parses_remaining {A} (k : Z -> Decoder A) bs x :
  (forall rem, zlen bs <= rem -> parses (k rem) bs x) ->
  parses (rem ← inspect Reader.remaining; k rem) bs x.
Proof.
  intros Hk pre post Hsz. unfold mbind, decoder_bind, inspect.
  rewrite remaining_at by done. pose proof (zlen_nonneg post). apply Hk; [zlen|done].
Qed.

(** [parses] of the idiom [consumed = r.pos() - start]. *)
Lemma parses_measured {A B} (d : Decoder A) (k : Z -> A -> Decoder B) bs1 bs2 x y :
  parses d bs1 x -> parses (k (zlen bs1) x) bs2 y ->
  parses (start ← inspect Reader.pos; x ← d; stop ← inspect Reader.pos;
          k (wrap 64 (stop - start)) x) (bs1 ++ bs2) y.
Proof.
  intros Hd Hk pre post Hsz. rewrite <- app_assoc in *.
  pose proof (parses_bind d (fun x => k (zlen bs1) x) bs1 bs2 x y Hd Hk pre post) as Hb.
  rewrite <- app_assoc in Hb. rewrite <- Hb by done. clear Hb.
  unfold mbind, decoder_bind, inspect. rewrite Hd by done.
  unfold at_, Reader.pos. cbn [pos_]. do 2 f_equal. zlen.
  pose proof (zlen_nonneg pre). pose proof (zlen_nonneg bs1). pose proof (zlen_nonneg bs2).
  pose proof (zlen_nonneg post). rewrite wrap_small by range. lia.
Qed.

Lemma parses_for_loop {A} (elem : Decoder A) (enc : A -> bytes) xs count acc :
  count = zlen xs -> Forall (fun x => parses elem (enc x) x) xs ->
  parses (for_loop count (fun out => x ← elem; mret (out ++ [x])) acc)
    (concat (map enc xs)) (acc ++ xs).
Proof.
  intros -> Hxs. eapply parses_ext; [intros r; symmetry; apply for_loop_nat|].
  rewrite zlen_to_nat. revert acc. induction Hxs as [|x xs Hx _ IH]; intros acc.
  - cbn. rewrite app_nil_r. apply parses_ret.
  - cbn [length nat_loop map concat]. eapply parses_bind; [by eapply parses_map|].
    specialize (IH (acc ++ [x])). by rewrite <- app_assoc in IH.
Qed.

Create HintDb parses.
#[export] Hint Resolve parses_ret parses_read_byte parses_borrow parses_read_raw : parses.
