(* ===== verification/Utf8.v ===== *)
(** * UTF-8 validation: [utf8.hpp] and [utf8.cpp]

    [is_valid_utf8] is the index loop of the source; the reference is the
    encoding of sequences of Unicode scalar values. *)

From Stdlib Require Import ZifyBool.
From S2P Require Import Prelude.

Local Open Scope Z_scope.

(** ** The validator *)

(** [(b & 0xC0) != 0x80] negated: a continuation byte. *)
Definition is_continuation (b : Z) : bool := Z.land b 0xC0 =? 0x80.

(** One turn of the [while] loop at index [i < n]: the next index, or [None] for
    [return false]. *)
Definition utf8_turn (data : bytes) (n i : nat) : option nat :=
  let b0 := byte_at data i in
  if b0 <? 0x80 then Some (i + 1)%nat
  else if Z.land b0 0xE0 =? 0xC0 then
    if (n <=? i + 1)%nat then None
    else
      let b1 := byte_at data (i + 1) in
      if negb (is_continuation b1) then None
      else
        let cp := Z.lor (Z.shiftl (Z.land b0 0x1F) 6) (Z.land b1 0x3F) in
        if cp <? 0x80 then None else Some (i + 2)%nat
  else if Z.land b0 0xF0 =? 0xE0 then
    if (n <=? i + 2)%nat then None
    else
      let b1 := byte_at data (i + 1) in
      let b2 := byte_at data (i + 2) in
      if negb (is_continuation b1) || negb (is_continuation b2) then None
      else
        let cp := Z.lor (Z.lor (Z.shiftl (Z.land b0 0x0F) 12) (Z.shiftl (Z.land b1 0x3F) 6))
                    (Z.land b2 0x3F) in
        if cp <? 0x800 then None
        else if (0xD800 <=? cp) && (cp <=? 0xDFFF) then None
        else Some (i + 3)%nat
  else if Z.land b0 0xF8 =? 0xF0 then
    if (n <=? i + 3)%nat then None
    else
      let b1 := byte_at data (i + 1) in
      let b2 := byte_at data (i + 2) in
      let b3 := byte_at data (i + 3) in
      if negb (is_continuation b1) || negb (is_continuation b2) || negb (is_continuation b3)
      then None
      else
        let cp := Z.lor (Z.lor (Z.lor (Z.shiftl (Z.land b0 0x07) 18)
                                      (Z.shiftl (Z.land b1 0x3F) 12))
                               (Z.shiftl (Z.land b2 0x3F) 6))
                    (Z.land b3 0x3F) in
        if cp <? 0x10000 then None
        else if 0x10FFFF <? cp then None
        else Some (i + 4)%nat
  else None.

(** The loop; [None] only when the fuel runs out. *)
Fixpoint utf8_loop (fuel : nat) (data : bytes) (n i : nat) : option bool :=
  if (i <? n)%nat then
    match fuel with
    | O => None
    | S fuel =>
        match utf8_turn data n i with
        | None => Some false
        | Some i' => utf8_loop fuel data n i'
        end
    end
  else Some true.

(** [is_valid_utf8(data, n)]: [n] turns are enough, since each one advances. *)
Definition is_valid_utf8 (data : bytes) (n : nat) : bool :=
  default false (utf8_loop n data n 0).

(** ** Reference: Unicode scalar values and their encoding *)

Definition scalar_value (cp : Z) : Prop :=
  0 <= cp < 0xD800 \/ 0xE000 <= cp <= 0x10FFFF.

Definition utf8_encode (cp : Z) : bytes :=
  if cp <? 0x80 then [cp]
  else if cp <? 0x800 then [0xC0 + cp / 64; 0x80 + cp mod 64]
  else if cp <? 0x10000 then [0xE0 + cp / 4096; 0x80 + cp / 64 mod 64; 0x80 + cp mod 64]
  else [0xF0 + cp / 262144; 0x80 + cp / 4096 mod 64; 0x80 + cp / 64 mod 64; 0x80 + cp mod 64].

(** A byte string that encodes some sequence of scalar values. *)
Definition utf8_text (bs : bytes) : Prop :=
  exists cps, Forall scalar_value cps /\ bs = concat (map utf8_encode cps).

(** ** Masks on bytes, by exhaustion *)

Lemma byte_exhaust (f : Z -> bool) :
  forallb f (seqZ 0 256) = true -> forall b, in_u 8 b -> f b = true.
Proof.
  intros Hf b Hb. rewrite forallb_forall in Hf. apply Hf.
  apply list_elem_of_In, elem_of_seqZ. range.
Qed.

Ltac exhaust_byte :=
  match goal with
  | Hb : in_u 8 ?b |- ?l = ?r :> bool =>
      apply eqb_prop; revert b Hb; apply byte_exhaust; vm_compute; reflexivity
  | Hb : in_u 8 ?b |- ?l = ?r :> Z =>
      apply Z.eqb_eq; revert b Hb; apply byte_exhaust; vm_compute; reflexivity
  end.

Lemma lead2_mask b : in_u 8 b -> (Z.land b 0xE0 =? 0xC0) = (0xC0 <=? b) && (b <? 0xE0).
Proof. intros Hb. exhaust_byte. Qed.

Lemma lead3_mask b : in_u 8 b -> (Z.land b 0xF0 =? 0xE0) = (0xE0 <=? b) && (b <? 0xF0).
Proof. intros Hb. exhaust_byte. Qed.

Lemma lead4_mask b : in_u 8 b -> (Z.land b 0xF8 =? 0xF0) = (0xF0 <=? b) && (b <? 0xF8).
Proof. intros Hb. exhaust_byte. Qed.

Lemma continuation_mask b : in_u 8 b -> is_continuation b = (0x80 <=? b) && (b <? 0xC0).
Proof. intros Hb. exhaust_byte. Qed.

Lemma low_mask b k m : 0 <= k -> m = Z.ones k -> Z.land b m = b mod 2 ^ k.
Proof. apply land_ones_wrap. Qed.

Lemma lor2 a b : in_u 6 b -> Z.lor (Z.shiftl a 6) b = a * 64 + b.
Proof. intros. by rewrite lor_shiftl_add. Qed.

Lemma lor3 a b c :
  in_u 6 b -> in_u 6 c ->
  Z.lor (Z.lor (Z.shiftl a 12) (Z.shiftl b 6)) c = a * 4096 + b * 64 + c.
Proof.
  intros. rewrite <- Z.lor_assoc, lor2, lor_shiftl_add by range. lia.
Qed.

Lemma lor4 a b c d :
  in_u 6 b -> in_u 6 c -> in_u 6 d ->
  Z.lor (Z.lor (Z.lor (Z.shiftl a 18) (Z.shiftl b 12)) (Z.shiftl c 6)) d
  = a * 262144 + b * 4096 + c * 64 + d.
Proof.
  intros. rewrite <- !Z.lor_assoc, (Z.lor_assoc (Z.shiftl b 12)).
  rewrite lor3, lor_shiftl_add by range. lia.
Qed.

(** ** The turn on the remaining text *)

Lemma in_u6_mod x : in_u 6 (x mod 2 ^ 6).
Proof. apply wrap_range. lia. Qed.

#[export] Hint Resolve in_u6_mod : wf.

(** Replace the masks of a turn by comparisons and sums. *)
Ltac unmask :=
  repeat match goal with
  | Hb : in_u 8 ?b |- context [is_continuation ?b] => rewrite (continuation_mask b Hb)
  | Hb : in_u 8 ?b |- context [Z.land ?b 0xE0 =? 0xC0] => rewrite (lead2_mask b Hb)
  | Hb : in_u 8 ?b |- context [Z.land ?b 0xF0 =? 0xE0] => rewrite (lead3_mask b Hb)
  | Hb : in_u 8 ?b |- context [Z.land ?b 0xF8 =? 0xF0] => rewrite (lead4_mask b Hb)
  | |- context [Z.land ?b 0x3F] => rewrite (low_mask b 6 0x3F) by done
  | |- context [Z.land ?b 0x1F] => rewrite (low_mask b 5 0x1F) by done
  | |- context [Z.land ?b 0x0F] => rewrite (low_mask b 4 0x0F) by done
  | |- context [Z.land ?b 0x07] => rewrite (low_mask b 3 0x07) by done
  end;
  rewrite ?lor4, ?lor3, ?lor2 by auto with wf.

Lemma drop_byte_at data i :
  (i < length data)%nat -> drop i data = byte_at data i :: drop (i + 1) data.
Proof.
  intros Hi. unfold byte_at. destruct (lookup_lt_is_Some_2 data i Hi) as [b Hb].
  rewrite Hb. cbn. rewrite (drop_S _ b) by done. by rewrite Nat.add_1_r.
Qed.

(** The four shapes of [utf8_encode]. *)
Lemma utf8_encode1 cp : cp < 0x80 -> utf8_encode cp = [cp].
Proof. intros. unfold utf8_encode. by destruct (Z.ltb_spec cp 0x80); [|lia]. Qed.

Lemma utf8_encode2 a b :
  2 <= a < 32 -> 0 <= b < 64 -> utf8_encode (a * 64 + b) = [0xC0 + a; 0x80 + b].
Proof.
  intros. unfold utf8_encode. repeat case_match; try lia.
  repeat f_equal; Z.to_euclidean_division_equations; lia.
Qed.

Lemma utf8_encode3 a b c :
  0 <= a < 16 -> 0 <= b < 64 -> 0 <= c < 64 -> 0x800 <= a * 4096 + b * 64 + c ->
  utf8_encode (a * 4096 + b * 64 + c) = [0xE0 + a; 0x80 + b; 0x80 + c].
Proof.
  intros. unfold utf8_encode. repeat case_match; try lia.
  repeat f_equal; Z.to_euclidean_division_equations; lia.
Qed.

Lemma utf8_encode4 a b c d :
  0 <= a < 8 -> 0 <= b < 64 -> 0 <= c < 64 -> 0 <= d < 64 ->
  0x10000 <= a * 262144 + b * 4096 + c * 64 + d ->
  utf8_encode (a * 262144 + b * 4096 + c * 64 + d)
  = [0xF0 + a; 0x80 + b; 0x80 + c; 0x80 + d].
Proof.
  intros. unfold utf8_encode. repeat case_match; try lia.
  repeat f_equal; Z.to_euclidean_division_equations; lia.
Qed.

Lemma mod_sub b k m : 0 <= k -> m mod 2 ^ k = 0 -> m <= b < m + 2 ^ k -> b mod 2 ^ k = b - m.
Proof.
  intros Hk Hm Hb. replace b with (b - m + m / 2 ^ k * 2 ^ k) at 1.
  - rewrite Z.mod_add by lia. apply Z.mod_small. lia.
  - pose proof (Z.div_mod m (2 ^ k)). lia.
Qed.

(** Replace [b mod 2^k] everywhere, when [m] is the multiple of [2^k] below [b]. *)
Ltac use_mod_sub b k m :=
  let E := fresh in
  assert (b mod 2 ^ k = b - m) as E by (apply mod_sub; [lia|reflexivity|lia]);
  rewrite E in *; clear E.

(** A turn that continues has passed over the encoding of one scalar value. *)
Lemma utf8_turn_sound data i i' :
  is_bytes data -> (i < length data)%nat -> utf8_turn data (length data) i = Some i' ->
  (i < i')%nat /\ exists cp, scalar_value cp /\ drop i data = utf8_encode cp ++ drop i' data.
Proof.
  intros Hb Hi. unfold utf8_turn.
  pose proof (is_bytes_at data i Hb) as H0.
  pose proof (is_bytes_at data (i + 1) Hb) as H1.
  pose proof (is_bytes_at data (i + 2) Hb) as H2.
  pose proof (is_bytes_at data (i + 3) Hb) as H3.
  pose proof (drop_byte_at data i Hi) as Hd0.
  pose proof (drop_byte_at data (i + 1)) as Hd1.
  pose proof (drop_byte_at data (i + 2)) as Hd2.
  pose proof (drop_byte_at data (i + 3)) as Hd3.
  rewrite <- !Nat.add_assoc in Hd1, Hd2, Hd3. cbn [Nat.add] in Hd1, Hd2, Hd3.
  unmask.
  revert H0 H1 H2 H3 Hd0 Hd1 Hd2 Hd3.
  generalize (byte_at data i) (byte_at data (i + 1)) (byte_at data (i + 2)) (byte_at data (i + 3)).
  intros b0 b1 b2 b3 H0 H1 H2 H3 Hd0 Hd1 Hd2 Hd3. unfold in_u in *.
  repeat case_match; try discriminate; intros [= <-]; (split; [lia|]).
  - exists b0. split; [left; lia|]. by rewrite Hd0, utf8_encode1 by lia.
  - use_mod_sub b0 5 0xC0. use_mod_sub b1 6 0x80.
    exists ((b0 - 0xC0) * 64 + (b1 - 0x80)). split; [left; lia|].
    rewrite Hd0, Hd1, utf8_encode2 by lia. cbn. repeat f_equal; lia.
  - use_mod_sub b0 4 0xE0. use_mod_sub b1 6 0x80. use_mod_sub b2 6 0x80.
    exists ((b0 - 0xE0) * 4096 + (b1 - 0x80) * 64 + (b2 - 0x80)).
    split; [unfold scalar_value; lia|].
    rewrite Hd0, Hd1, Hd2, utf8_encode3 by lia. cbn. repeat f_equal; lia.
  - use_mod_sub b0 3 0xF0. use_mod_sub b1 6 0x80. use_mod_sub b2 6 0x80. use_mod_sub b3 6 0x80.
    exists ((b0 - 0xF0) * 262144 + (b1 - 0x80) * 4096 + (b2 - 0x80) * 64 + (b3 - 0x80)).
    split; [unfold scalar_value; lia|].
    rewrite Hd0, Hd1, Hd2, Hd3, utf8_encode4 by lia. cbn. repeat f_equal; lia.
Qed.

(** A scalar value in one of the four shapes. *)
Lemma scalar_value_cases cp :
  scalar_value cp ->
  0 <= cp < 0x80 \/
  (exists a b, cp = a * 64 + b /\ 2 <= a < 32 /\ 0 <= b < 64) \/
  (exists a b c, cp = a * 4096 + b * 64 + c /\ 0 <= a < 16 /\ 0 <= b < 64 /\ 0 <= c < 64 /\
     0x800 <= cp) \/
  (exists a b c d, cp = a * 262144 + b * 4096 + c * 64 + d /\ 0 <= a < 5 /\ 0 <= b < 64 /\
     0 <= c < 64 /\ 0 <= d < 64 /\ 0x10000 <= cp).
Proof.
  unfold scalar_value. intros Hcp.
  destruct (Z.lt_ge_cases cp 0x80); [left; lia|right].
  destruct (Z.lt_ge_cases cp 0x800); [left|right; destruct (Z.lt_ge_cases cp 0x10000); [left|right]].
  - exists (cp / 64), (cp mod 64). Z.to_euclidean_division_equations; lia.
  - exists (cp / 4096), (cp / 64 mod 64), (cp mod 64). Z.to_euclidean_division_equations; lia.
  - exists (cp / 262144), (cp / 4096 mod 64), (cp / 64 mod 64), (cp mod 64).
    Z.to_euclidean_division_equations; lia.
Qed.

(** Name one byte of an encoding, with its range. *)
Ltac name_byte e x :=
  let Hx := fresh "H" x in
  let Hr := fresh "Hr" x in
  assert (in_u 8 e) as Hr by range; remember e as x eqn:Hx.

(** The turn on an encoded scalar value passes over it. *)
Lemma utf8_turn_complete pre cp post :
  scalar_value cp ->
  utf8_turn (pre ++ utf8_encode cp ++ post) (length (pre ++ utf8_encode cp ++ post)) (length pre)
  = Some (length pre + length (utf8_encode cp))%nat.
Proof.
  intros Hcp. unfold utf8_turn. rewrite !byte_at_app, !length_app.
  rewrite byte_at_app0.
  pose proof Hcp as Hsv. unfold scalar_value in Hsv.
  destruct (scalar_value_cases cp Hcp)
    as [?|[(a&b&->&?&?)|[(a&b&c&->&?&?&?&?)|(a&b&c&d&->&?&?&?&?&?)]]].
  - rewrite utf8_encode1 by lia. cbn. case_match; [done|lia].
  - rewrite utf8_encode2 by lia. name_byte (0xC0 + a) x0. name_byte (0x80 + b) x1. cbn.
    unmask. use_mod_sub x0 5 0xC0. use_mod_sub x1 6 0x80. repeat case_match; try done; lia.
  - rewrite utf8_encode3 by lia. name_byte (0xE0 + a) x0. name_byte (0x80 + b) x1.
    name_byte (0x80 + c) x2. cbn.
    unmask. use_mod_sub x0 4 0xE0. use_mod_sub x1 6 0x80. use_mod_sub x2 6 0x80.
    repeat case_match; try done; lia.
  - rewrite utf8_encode4 by lia. name_byte (0xF0 + a) x0. name_byte (0x80 + b) x1.
    name_byte (0x80 + c) x2. name_byte (0x80 + d) x3. cbn.
    unmask. use_mod_sub x0 3 0xF0. use_mod_sub x1 6 0x80. use_mod_sub x2 6 0x80.
    use_mod_sub x3 6 0x80. repeat case_match; try done; lia.
Qed.

(** ** The loop *)

Lemma utf8_turn_advance data n i i' : utf8_turn data n i = Some i' -> (i < i')%nat.
Proof. unfold utf8_turn. repeat case_match; intros; simplify_eq; lia. Qed.

Lemma utf8_loop_total fuel data n i : (n - i <= fuel)%nat -> is_Some (utf8_loop fuel data n i).
Proof.
  revert i. induction fuel as [|fuel IH]; intros i Hf; cbn [utf8_loop];
    (destruct (Nat.ltb_spec i n); [|by eexists]); [lia|].
  destruct (utf8_turn data n i) as [i'|] eqn:Ht; [|by eexists].
  apply utf8_turn_advance in Ht. apply IH. lia.
Qed.

Lemma is_valid_utf8_loop data n b : is_valid_utf8 data n = b <-> utf8_loop n data n 0 = Some b.
Proof.
  unfold is_valid_utf8. destruct (utf8_loop_total n data n 0 ltac:(lia)) as [b' ->].
  cbn. split; congruence.
Qed.

Lemma utf8_text_nil : utf8_text [].
Proof. by exists []. Qed.

Lemma utf8_text_cons cp bs : scalar_value cp -> utf8_text bs -> utf8_text (utf8_encode cp ++ bs).
Proof. intros Hcp (cps & Hcps & ->). exists (cp :: cps). split; [by constructor|done]. Qed.

Lemma utf8_text_app bs1 bs2 : utf8_text bs1 -> utf8_text bs2 -> utf8_text (bs1 ++ bs2).
Proof.
  intros (c1 & H1 & ->) (c2 & H2 & ->). exists (c1 ++ c2).
  by rewrite map_app, concat_app, Forall_app.
Qed.

Lemma utf8_loop_sound fuel data i :
  is_bytes data -> utf8_loop fuel data (length data) i = Some true -> utf8_text (drop i data).
Proof.
  intros Hb. revert i. induction fuel as [|fuel IH]; intros i; cbn [utf8_loop];
    destruct (Nat.ltb_spec i (length data)); intros Hl; try done.
  - rewrite drop_ge by done. apply utf8_text_nil.
  - destruct (utf8_turn data (length data) i) as [i'|] eqn:Ht; [|done].
    apply utf8_turn_sound in Ht as (_ & cp & Hcp & ->); [|done..].
    apply utf8_text_cons; [done|]. by apply IH.
  - rewrite drop_ge by done. apply utf8_text_nil.
Qed.

Lemma utf8_loop_complete fuel pre cps :
  Forall scalar_value cps ->
  let data := pre ++ concat (map utf8_encode cps) in
  utf8_loop fuel data (length data) (length pre) <> Some false.
Proof.
  intros Hcps. revert fuel pre. induction Hcps as [|cp cps Hcp _ IH]; intros fuel pre data.
  - subst data. cbn. rewrite app_nil_r.
    destruct fuel; cbn [utf8_loop]; by rewrite Nat.ltb_irrefl.
  - subst data. cbn [map concat]. destruct fuel as [|fuel]; cbn [utf8_loop]; [by case_match|].
    case_match; [|done]. rewrite utf8_turn_complete by done.
    specialize (IH fuel (pre ++ utf8_encode cp)). rewrite <- app_assoc, length_app in IH.
    exact IH.
Qed.

Lemma is_valid_utf8_iff bs : is_bytes bs -> is_valid_utf8 bs (length bs) = true <-> utf8_text bs.
Proof.
  intros Hb. split.
  - rewrite is_valid_utf8_loop. by apply utf8_loop_sound.
  - intros (cps & Hcps & ->). destruct (is_valid_utf8 _ _) eqn:Hv; [done|].
    apply is_valid_utf8_loop in Hv. by apply (utf8_loop_complete _ []) in Hv.
Qed.

(** The loop walks over a prefix of ASCII characters. *)
Lemma utf8_loop_ascii pre l fuel k :
  Forall (in_u 7) pre ->
  let data := pre ++ l in
  (k <= length pre)%nat -> (length data <= fuel + k)%nat -> (length pre < length data)%nat ->
  utf8_loop fuel data (length data) k = utf8_loop (fuel + k - length pre) data (length data) (length pre).
Proof.
  intros Hpre data Hk Hf Hl. remember (length pre - k)%nat as m eqn:Hm.
  revert k fuel Hk Hf Hm. induction m as [|m IH]; intros k fuel Hk Hf Hm.
  - replace k with (length pre) by lia. f_equal. lia.
  - destruct fuel as [|fuel]; [lia|]. cbn [utf8_loop].
    destruct (Nat.ltb_spec k (length data)); [|lia].
    assert (Ht : utf8_turn data (length data) k = Some (k + 1)%nat).
    { unfold utf8_turn, byte_at. subst data. rewrite lookup_app_l by lia.
      destruct (lookup_lt_is_Some_2 pre k) as [b Hb]; [lia|]. rewrite Hb. cbn.
      eapply Forall_lookup_1 in Hb; [|done]. unfold in_u in Hb. case_match; [done|lia]. }
    rewrite Ht, IH by lia. f_equal. lia.
Qed.

(** A leading byte of a longer form at the very end is not valid. *)
Lemma utf8_truncated_tail pre b :
  Forall (in_u 7) pre -> 0xC0 <= b < 0x100 -> is_valid_utf8 (pre ++ [b]) (length (pre ++ [b])) = false.
Proof.
  intros Hpre Hb. apply is_valid_utf8_loop. rewrite utf8_loop_ascii by (done || rewrite ?length_app; cbn; lia).
  rewrite length_app. cbn [length].
  replace (length pre + 1 + 0 - length pre)%nat with 1%nat by lia. cbn [utf8_loop].
  destruct (Nat.ltb_spec (length pre) (length pre + 1)); [|lia].
  assert (in_u 8 b) by range. unfold utf8_turn. rewrite byte_at_app0, byte_at_O. unmask.
  repeat case_match; simplify_eq; lia || done.
Qed.

Lemma utf8_text_ascii pre : Forall (in_u 7) pre -> utf8_text pre.
Proof.
  induction 1 as [|b pre Hb _ IH]; [apply utf8_text_nil|]. unfold in_u in Hb.
  change (utf8_text ([b] ++ pre)). rewrite <- (utf8_encode1 b) by lia.
  apply utf8_text_cons; [left; lia|done].
Qed.

(** ** Properties *)

(** C29.  The validator accepts exactly the encodings of sequences of Unicode
    scalar values: no overlong form, no surrogate, nothing above U+10FFFF, no
    truncated or stray byte. *)
Theorem is_valid_utf8_correct (bs : bytes) (Hbs : is_bytes bs) :
  is_valid_utf8 bs (length bs) = true <->
  exists cps, Forall scalar_value cps /\ bs = concat (map utf8_encode cps).
Proof. exact (is_valid_utf8_iff bs Hbs). Qed.

Lemma is_valid_utf8_correct_witness :
  is_bytes [0xE2; 0x82; 0xAC; 0x24] /\
  is_valid_utf8 [0xE2; 0x82; 0xAC; 0x24] 4 = true /\
  exists cps, Forall scalar_value cps /\ [0xE2; 0x82; 0xAC; 0x24] = concat (map utf8_encode cps).
Proof.
  assert (H : is_bytes [0xE2; 0x82; 0xAC; 0x24]) by decided.
  split; [exact H|]. split; [reflexivity|].
  apply (is_valid_utf8_correct [0xE2; 0x82; 0xAC; 0x24] H). reflexivity.
Defined.

(** Boundary cases of the validator. *)
Example utf8_overlong : is_valid_utf8 [0xC0; 0x80] 2 = false.
Proof. reflexivity. Qed.

Example utf8_surrogate : is_valid_utf8 [0xED; 0xA0; 0x80] 3 = false.
Proof. reflexivity. Qed.

Example utf8_max : is_valid_utf8 [0xF4; 0x8F; 0xBF; 0xBF] 4 = true.
Proof. reflexivity. Qed.

Example utf8_above_max : is_valid_utf8 [0xF4; 0x90; 0x80; 0x80] 4 = false.
Proof. reflexivity. Qed.
