(* ===== verification/Codec.v ===== *)
(** * Primitive codec: [codec.hpp] and [codec.cpp]

    Big-endian integers, length-prefixed strings and byte strings, array
    prefixes.  Each writer is shown to append a reference encoding
    ([be_encode], [enc_string], ...), each reader to invert it ([parses]) and to
    accept nothing else ([dspec]). *)

From S2P Require Import Prelude Errors Buffer Utf8.

Local Open Scope Z_scope.

(** [decode_err(msg)]. *)
Definition decode_err (msg : bytes) : StreamError := mk_error Kind.DecodeError msg.

(** [std::numeric_limits<std::int16_t>::max()]. *)
Definition INT16_MAX : Z := 32767.

(** ** Encode *)

(** [static_cast<std::uint8_t>((v >> k) & 0xFF)]. *)
Definition byte_of (v k : Z) : Z := wrap 8 (Z.land (Z.shiftr v k) 0xFF).

Definition write_u8 (w : BufferWriter) (v : Z) : BufferWriter := Writer.write_byte w v.

Definition write_i8 (w : BufferWriter) (v : Z) : BufferWriter := Writer.write_byte w (wrap 8 v).

Definition write_u16 (w : BufferWriter) (v : Z) : BufferWriter :=
  let w := Writer.write_byte w (byte_of v 8) in
  Writer.write_byte w (byte_of v 0).

Definition write_i16 (w : BufferWriter) (v : Z) : BufferWriter := write_u16 w (wrap 16 v).

Definition write_u32 (w : BufferWriter) (v : Z) : BufferWriter :=
  let w := Writer.write_byte w (byte_of v 24) in
  let w := Writer.write_byte w (byte_of v 16) in
  let w := Writer.write_byte w (byte_of v 8) in
  Writer.write_byte w (byte_of v 0).

Definition write_i32 (w : BufferWriter) (v : Z) : BufferWriter := write_u32 w (wrap 32 v).

(** [for (int i = 7; i >= 0; --i)]. *)
Definition write_u64 (w : BufferWriter) (v : Z) : BufferWriter :=
  fold_left (fun w i => Writer.write_byte w (byte_of v (i * 8))) [7; 6; 5; 4; 3; 2; 1; 0] w.

Definition write_i64 (w : BufferWriter) (v : Z) : BufferWriter := write_u64 w (wrap 64 v).

(** [write_string(w, const std::string&)]. *)
Definition write_string (w : BufferWriter) (s : std_string) : BufferWriter :=
  if zlen s >? INT16_MAX then
    let w := write_i16 w INT16_MAX in
    Writer.write_raw w s INT16_MAX
  else
    let w := write_i16 w (swrap 16 (zlen s)) in
    if negb (zlen s =? 0) then Writer.write_raw w s (zlen s) else w.

(** [write_string(w, const std::optional<std::string>&)]. *)
Definition write_string_opt (w : BufferWriter) (s : option std_string) : BufferWriter :=
  match s with
  | None => write_i16 w (-1)
  | Some s => write_string w s
  end.

Definition write_bytes_raw (w : BufferWriter) (data : bytes) (n : Z) : BufferWriter :=
  let w := write_i32 w (swrap 32 n) in
  if n >? 0 then Writer.write_raw w data n else w.

Definition write_bytes (w : BufferWriter) (b : option bytes) : BufferWriter :=
  match b with
  | None => write_i32 w (-1)
  | Some b => write_bytes_raw w b (zlen b)
  end.

Definition write_array_prefix (w : BufferWriter) (count : Z) : BufferWriter := write_i32 w count.

(** ** Decode *)

Definition read_u8 : Decoder Z := Reader.read_byte.

Definition read_i8 : Decoder Z :=
  b ← Reader.read_byte;
  mret (swrap 8 b).

Definition read_u16 : Decoder Z :=
  buf ← Reader.read_raw 2;
  mret (wrap 16 (Z.lor (Z.shiftl (byte_at buf 0) 8) (byte_at buf 1))).

Definition read_i16 : Decoder Z :=
  v ← read_u16;
  mret (swrap 16 v).

Definition read_u32 : Decoder Z :=
  buf ← Reader.read_raw 4;
  mret (Z.lor (Z.lor (Z.lor (wrap 32 (Z.shiftl (byte_at buf 0) 24))
                            (wrap 32 (Z.shiftl (byte_at buf 1) 16)))
                     (wrap 32 (Z.shiftl (byte_at buf 2) 8)))
          (byte_at buf 3)).

Definition read_i32 : Decoder Z :=
  v ← read_u32;
  mret (swrap 32 v).

(** [for (int i = 0; i < 8; ++i) v = (v << 8) | buf[i];]. *)
Definition read_u64 : Decoder Z :=
  buf ← Reader.read_raw 8;
  mret (fold_left (fun v i => Z.lor (wrap 64 (Z.shiftl v 8)) (byte_at buf i))
          [0; 1; 2; 3; 4; 5; 6; 7]%nat 0).

Definition read_i64 : Decoder Z :=
  v ← read_u64;
  mret (swrap 64 v).

Definition read_string : Decoder (option std_string) :=
  len ← read_i16;
  if len =? -1 then mret None
  else if len <? 0 then dec_fail (decode_err (lit "string length out of range"))
  else
    let sz := wrap 64 len in
    p ← Reader.borrow sz;
    if (sz >? 0) && negb (is_valid_utf8 p (Z.to_nat sz))
    then dec_fail (decode_err (lit "invalid UTF-8 in string"))
    else mret (Some p).

Definition read_string_required : Decoder std_string :=
  s ← read_string;
  match s with
  | None => dec_fail (decode_err (lit "expected non-null string"))
  | Some s => mret s
  end.

Definition read_bytes : Decoder (option bytes) :=
  len ← read_i32;
  if len =? -1 then mret None
  else if len <? 0 then dec_fail (decode_err (lit "bytes length out of range"))
  else
    let sz := wrap 64 len in
    p ← Reader.borrow sz;
    mret (Some p).

Definition read_array_prefix : Decoder Z :=
  len ← read_i32;
  if len <? 0 then dec_fail (decode_err (lit "negative array count"))
  else mret len.

(** ** Reference encodings of strings and byte strings *)

(** A string the wire format can carry. *)
Definition string_ok (s : std_string) : Prop :=
  is_bytes s /\ zlen s <= INT16_MAX /\ is_valid_utf8 s (length s) = true.

Definition enc_string (s : std_string) : bytes := be_encode 2 (zlen s) ++ s.

(** The null marker of strings and of byte strings. *)
Definition enc_null_string : bytes := [0xFF; 0xFF].
Definition enc_null_bytes : bytes := [0xFF; 0xFF; 0xFF; 0xFF].

Definition bytes_ok (b : bytes) : Prop := is_bytes b /\ zlen b < 2 ^ 31.

Definition enc_bytes (b : bytes) : bytes := be_encode 4 (zlen b) ++ b.

#[export] Instance string_ok_dec s : Decision (string_ok s).
Proof. unfold string_ok. apply _. Defined.

#[export] Instance bytes_ok_dec b : Decision (bytes_ok b).
Proof. unfold bytes_ok. apply _. Defined.

(** ** Writers append the reference encodings *)

Lemma byte_of_spec v k : 0 <= k -> byte_of v k = wrap 8 (v / 2 ^ k).
Proof.
  intros. unfold byte_of. rewrite (land_ones_wrap _ 8 0xFF) by done.
  by rewrite wrap_wrap, Z.shiftr_div_pow2.
Qed.

(** Casting to the unsigned type before encoding changes nothing. *)
Lemma be_encode_cast n v : be_encode n (wrap (8 * Z.of_nat n) v) = be_encode n v.
Proof. apply be_encode_mod. lia. Qed.

Lemma write_u8_enc w v : in_u 8 v -> write_u8 w v = w ++ be_encode 1 v.
Proof.
  intros. unfold write_u8, Writer.write_byte. 
  by rewrite be_encode_1, wrap_small.
Qed.

Lemma write_i8_enc w v : write_i8 w v = w ++ be_encode 1 v.
Proof. unfold write_i8, Writer.write_byte. by rewrite be_encode_1. Qed.

Lemma write_u16_enc w v : write_u16 w v = w ++ be_encode 2 v.
Proof.
  unfold write_u16, Writer.write_byte. by rewrite !byte_of_spec, <- !app_assoc by lia.
Qed.

Lemma write_i16_enc w v : write_i16 w v = w ++ be_encode 2 v.
Proof. unfold write_i16. by rewrite write_u16_enc, (be_encode_cast 2). Qed.

Lemma write_u32_enc w v : write_u32 w v = w ++ be_encode 4 v.
Proof.
  unfold write_u32, Writer.write_byte. by rewrite !byte_of_spec, <- !app_assoc by lia.
Qed.

Lemma write_i32_enc w v : write_i32 w v = w ++ be_encode 4 v.
Proof. unfold write_i32. by rewrite write_u32_enc, (be_encode_cast 4). Qed.

Lemma write_u64_enc w v : write_u64 w v = w ++ be_encode 8 v.
Proof.
  unfold write_u64, Writer.write_byte. cbn [fold_left].
  by rewrite !byte_of_spec, <- !app_assoc by lia.
Qed.

Lemma write_i64_enc w v : write_i64 w v = w ++ be_encode 8 v.
Proof. unfold write_i64. by rewrite write_u64_enc, (be_encode_cast 8). Qed.

Lemma write_raw_all w s : Writer.write_raw w s (zlen s) = w ++ s.
Proof. unfold Writer.write_raw. by rewrite zlen_to_nat, firstn_all. Qed.

Lemma zlen_0 {A} (l : list A) : zlen l = 0 -> l = [].
Proof. destruct l; [done|]. rewrite zlen_cons. pose proof (zlen_nonneg l). lia. Qed.

Lemma write_string_enc w s : zlen s <= INT16_MAX -> write_string w s = w ++ enc_string s.
Proof.
  intros Hs. unfold write_string, enc_string. pose proof (zlen_nonneg s). unfold INT16_MAX in *.
  destruct (Z.gtb_spec (zlen s) 32767); [lia|].
  rewrite swrap_small, write_i16_enc by lia.
  destruct (Z.eqb_spec (zlen s) 0) as [Hz|]; cbn [negb].
  - by rewrite (zlen_0 s Hz).
  - by rewrite write_raw_all, <- app_assoc.
Qed.

(** Longer strings are cut to the longest length the prefix can express. *)
Lemma write_string_long w s :
  INT16_MAX < zlen s -> write_string w s = w ++ enc_string (take (Z.to_nat INT16_MAX) s).
Proof.
  intros Hs. unfold write_string, enc_string, INT16_MAX in *.
  destruct (Z.gtb_spec (zlen s) 32767); [|lia].
  rewrite write_i16_enc. unfold Writer.write_raw. rewrite <- app_assoc. do 2 f_equal.
  f_equal. unfold zlen in *. rewrite length_take. lia.
Qed.

Lemma write_string_opt_none w : write_string_opt w None = w ++ enc_null_string.
Proof. unfold write_string_opt. by rewrite write_i16_enc. Qed.

Lemma write_bytes_raw_enc w b :
  zlen b < 2 ^ 31 -> write_bytes_raw w b (zlen b) = w ++ enc_bytes b.
Proof.
  intros Hb. unfold write_bytes_raw, enc_bytes. pose proof (zlen_nonneg b).
  rewrite swrap_small, write_i32_enc by lia.
  destruct (Z.gtb_spec (zlen b) 0).
  - by rewrite write_raw_all, <- app_assoc.
  - rewrite (zlen_0 b) by lia. by rewrite app_nil_r.
Qed.

Lemma write_bytes_none w : write_bytes w None = w ++ enc_null_bytes.
Proof. unfold write_bytes. by rewrite write_i32_enc. Qed.

Lemma write_array_prefix_enc w n : write_array_prefix w n = w ++ be_encode 4 n.
Proof. apply write_i32_enc. Qed.

Create Rewrite HintDb enc.
#[export] Hint Rewrite write_u16_enc write_i16_enc write_u32_enc write_i32_enc
  write_u64_enc write_i64_enc write_array_prefix_enc write_bytes_none : enc.

(** ** Integer readers *)

Lemma parses_be n (f : bytes -> Z) v :
  (forall buf, is_bytes buf -> length buf = n -> f buf = be_decode buf) ->
  in_u (8 * Z.of_nat n) v ->
  parses (buf ← Reader.read_raw (Z.of_nat n); mret (f buf)) (be_encode n v) v.
Proof.
  intros Hf Hv. eapply parses_map.
  - apply parses_read_raw. by rewrite zlen_be_encode.
  - rewrite Hf; [by apply be_decode_encode|apply be_encode_bytes|].
    pose proof (zlen_be_encode n v). unfold zlen in *. lia.
Qed.

Lemma dspec_be n (f : bytes -> Z) :
  (forall buf, is_bytes buf -> length buf = n -> f buf = be_decode buf) ->
  dspec (buf ← Reader.read_raw (Z.of_nat n); mret (f buf))
    (fun bs v => bs = be_encode n v /\ in_u (8 * Z.of_nat n) v) decode_error.
Proof.
  intros Hf. eapply dspec_map; [apply dspec_read_raw; lia|].
  intros bs x (-> & Hl & Hb). unfold zlen in Hl.
  rewrite Hf by (done || lia). split; [symmetry; apply be_encode_decode; (done || lia)|].
  rewrite <- Hl. by apply be_decode_range.
Qed.

(** A signed reader is the unsigned one followed by a cast. *)
Lemma parses_signed d n v :
  (0 < n)%nat -> in_s (8 * Z.of_nat n) v ->
  parses d (be_encode n (wrap (8 * Z.of_nat n) v)) (wrap (8 * Z.of_nat n) v) ->
  parses (x ← d; mret (swrap (8 * Z.of_nat n) x)) (be_encode n v) v.
Proof.
  intros Hn Hv Hd. rewrite be_encode_cast in Hd. eapply parses_map; [done|].
  apply swrap_wrap; [lia|done].
Qed.

Lemma dspec_signed d n :
  (0 < n)%nat ->
  dspec d (fun bs v => bs = be_encode n v /\ in_u (8 * Z.of_nat n) v) decode_error ->
  dspec (x ← d; mret (swrap (8 * Z.of_nat n) x))
    (fun bs v => bs = be_encode n v /\ in_s (8 * Z.of_nat n) v) decode_error.
Proof.
  intros Hn Hd. eapply dspec_map; [apply Hd|]. intros bs x [-> Hx]. split.
  - rewrite <- (be_encode_cast n (swrap _ _)), wrap_swrap by (done || lia). done.
  - apply swrap_range. lia.
Qed.

(** Name the bytes of a buffer of known length. *)
Ltac destruct_buf :=
  repeat match goal with
  | H : length ?b = O |- _ => apply nil_length_inv in H; subst b
  | H : length ?b = S _ |- _ => destruct b; [done|]; cbn [length] in H; apply Nat.succ_inj in H
  | H : is_bytes (_ :: _) |- _ => apply Forall_cons in H as [? H]
  | H : Forall (in_u 8) (_ :: _) |- _ => apply Forall_cons in H as [? H]
  end;
  rewrite ?byte_at_S, ?byte_at_O; cbn [be_decode];
  autorewrite with zlen; rewrite ?Z.add_0_l.

Lemma u16_value buf :
  is_bytes buf -> length buf = 2%nat ->
  wrap 16 (Z.lor (Z.shiftl (byte_at buf 0) 8) (byte_at buf 1)) = be_decode buf.
Proof.
  intros Hb Hl. destruct_buf.
  rewrite lor_shiftl_add by done. rewrite wrap_small by range. range.
Qed.

Lemma u32_value buf :
  is_bytes buf -> length buf = 4%nat ->
  Z.lor (Z.lor (Z.lor (wrap 32 (Z.shiftl (byte_at buf 0) 24))
                      (wrap 32 (Z.shiftl (byte_at buf 1) 16)))
               (wrap 32 (Z.shiftl (byte_at buf 2) 8)))
        (byte_at buf 3) = be_decode buf.
Proof.
  intros Hb Hl. destruct_buf.
  rewrite !wrap_small by (rewrite Z.shiftl_mul_pow2 by lia; range).
  rewrite <- !Z.lor_assoc, (lor_shiftl_add _ _ 8) by range.
  rewrite (lor_shiftl_add _ _ 16) by range. rewrite lor_shiftl_add by range. lia.
Qed.

(** One turn of the 64-bit loop shifts a value of [k] bytes in [k + 1]. *)
Lemma u64_turn v b k :
  0 <= k <= 56 -> in_u k v -> in_u 8 b ->
  Z.lor (wrap 64 (Z.shiftl v 8)) b = v * 256 + b /\ in_u (k + 8) (v * 256 + b).
Proof.
  intros Hk Hv Hb. pose proof (Z.pow_le_mono_r 2 k 56 ltac:(lia) ltac:(lia)).
  rewrite wrap_small by (rewrite Z.shiftl_mul_pow2 by lia; range).
  rewrite lor_shiftl_add by done. split; [done|].
  unfold in_u in *. rewrite Z.pow_add_r by lia. lia.
Qed.

Lemma u64_fold buf k v :
  is_bytes buf -> 0 <= k -> k + 8 * zlen buf <= 64 -> in_u k v ->
  fold_left (fun v b => Z.lor (wrap 64 (Z.shiftl v 8)) b) buf v
  = v * 2 ^ (8 * zlen buf) + be_decode buf.
Proof.
  intros Hb. revert k v. induction Hb as [|b buf Hb _ IH]; intros k v Hk Hn Hv; cbn [fold_left be_decode].
  - change (zlen (@nil Z)) with 0. lia.
  - rewrite zlen_cons in *. pose proof (zlen_nonneg buf).
    destruct (u64_turn v b k) as [-> Hr]; [lia|done|done|].
    rewrite (IH (k + 8)) by (done || lia).
    replace (8 * (zlen buf + 1)) with (8 + 8 * zlen buf) by lia.
    rewrite Z.pow_add_r by lia. lia.
Qed.

Lemma u64_value buf :
  is_bytes buf -> length buf = 8%nat ->
  fold_left (fun v i => Z.lor (wrap 64 (Z.shiftl v 8)) (byte_at buf i))
    [0; 1; 2; 3; 4; 5; 6; 7]%nat 0 = be_decode buf.
Proof.
  intros Hb Hl. rewrite <- (Z.add_0_l (be_decode buf)).
  rewrite <- (Z.mul_0_l (2 ^ (8 * zlen buf))).
  rewrite <- (u64_fold buf 0 0) by (done || (unfold zlen; rewrite Hl; lia)).
  clear Hb. destruct_buf. cbn [fold_left]. by rewrite !byte_at_S, !byte_at_O.
Qed.

(** ** The readers invert the encodings, and accept nothing else *)

Lemma parses_u8 v : in_u 8 v -> parses read_u8 (be_encode 1 v) v.
Proof.
  intros Hv. rewrite be_encode_1, wrap_small by done. apply parses_read_byte.
Qed.

Lemma parses_u16 v : in_u 16 v -> parses read_u16 (be_encode 2 v) v.
Proof. apply (parses_be 2), u16_value. Qed.

Lemma parses_u32 v : in_u 32 v -> parses read_u32 (be_encode 4 v) v.
Proof. apply (parses_be 4), u32_value. Qed.

Lemma parses_u64 v : in_u 64 v -> parses read_u64 (be_encode 8 v) v.
Proof. apply (parses_be 8), u64_value. Qed.

Lemma parses_i8 v : in_s 8 v -> parses read_i8 (be_encode 1 v) v.
Proof. intros. apply (parses_signed read_u8 1); [lia|done|]. by apply parses_u8, wrap_range. Qed.

Lemma parses_i16 v : in_s 16 v -> parses read_i16 (be_encode 2 v) v.
Proof. intros. apply (parses_signed read_u16 2); [lia|done|]. by apply parses_u16, wrap_range. Qed.

Lemma parses_i32 v : in_s 32 v -> parses read_i32 (be_encode 4 v) v.
Proof. intros. apply (parses_signed read_u32 4); [lia|done|]. by apply parses_u32, wrap_range. Qed.

Lemma parses_i64 v : in_s 64 v -> parses read_i64 (be_encode 8 v) v.
Proof. intros. apply (parses_signed read_u64 8); [lia|done|]. by apply parses_u64, wrap_range. Qed.

(** What a reader of [n]-byte integers accepts. *)
Definition accepts_u (n : nat) (bs : bytes) (v : Z) : Prop :=
  bs = be_encode n v /\ in_u (8 * Z.of_nat n) v.
Definition accepts_s (n : nat) (bs : bytes) (v : Z) : Prop :=
  bs = be_encode n v /\ in_s (8 * Z.of_nat n) v.

Lemma dspec_u8 : dspec read_u8 (accepts_u 1) decode_error.
Proof.
  eapply dspec_conseq; [apply dspec_read_byte| |done]. intros bs v [-> Hv].
  split; [|done]. by rewrite be_encode_1, wrap_small.
Qed.

Lemma dspec_u16 : dspec read_u16 (accepts_u 2) decode_error.
Proof. apply (dspec_be 2), u16_value. Qed.

Lemma dspec_u32 : dspec read_u32 (accepts_u 4) decode_error.
Proof. apply (dspec_be 4), u32_value. Qed.

Lemma dspec_u64 : dspec read_u64 (accepts_u 8) decode_error.
Proof. apply (dspec_be 8), u64_value. Qed.

Lemma dspec_i8 : dspec read_i8 (accepts_s 1) decode_error.
Proof. apply (dspec_signed read_u8 1); [lia|]. apply dspec_u8. Qed.

Lemma dspec_i16 : dspec read_i16 (accepts_s 2) decode_error.
Proof. apply (dspec_signed read_u16 2); [lia|]. apply dspec_u16. Qed.

Lemma dspec_i32 : dspec read_i32 (accepts_s 4) decode_error.
Proof. apply (dspec_signed read_u32 4); [lia|]. apply dspec_u32. Qed.

Lemma dspec_i64 : dspec read_i64 (accepts_s 8) decode_error.
Proof. apply (dspec_signed read_u64 8); [lia|]. apply dspec_u64. Qed.

(** What the readers of strings, byte strings and array prefixes accept. *)
Definition accepts_string (bs : bytes) (s : std_string) : Prop :=
  bs = enc_string s /\ string_ok s.
Definition accepts_string_opt (bs : bytes) (s : option std_string) : Prop :=
  match s with
  | None => bs = enc_null_string
  | Some s => accepts_string bs s
  end.
Definition accepts_bytes (bs : bytes) (b : option bytes) : Prop :=
  match b with
  | None => bs = enc_null_bytes
  | Some b => bs = enc_bytes b /\ bytes_ok b
  end.
Definition accepts_count (bs : bytes) (n : Z) : Prop :=
  bs = be_encode 4 n /\ 0 <= n < 2 ^ 31.

Lemma parses_string s : string_ok s -> parses read_string (enc_string s) (Some s).
Proof.
  intros (Hb & Hl & Hv). pose proof (zlen_nonneg s). unfold INT16_MAX in *.
  eapply parses_bind; [apply parses_i16; range|].
  destruct (Z.eqb_spec (zlen s) (-1)); [lia|]. destruct (Z.ltb_spec (zlen s) 0); [lia|].
  rewrite wrap_small by range. eapply parses_then; [by apply parses_borrow|].
  rewrite zlen_to_nat, Hv, andb_false_r. apply parses_ret.
Qed.

Lemma parses_string_null : parses read_string enc_null_string None.
Proof.
  change enc_null_string with (be_encode 2 (-1)).
  eapply parses_then; [apply parses_i16; range|]. apply parses_ret.
Qed.

Lemma parses_string_required s : string_ok s -> parses read_string_required (enc_string s) s.
Proof.
  intros Hs. eapply parses_then; [by apply parses_string|]. apply parses_ret.
Qed.

Lemma parses_bytes b : bytes_ok b -> parses read_bytes (enc_bytes b) (Some b).
Proof.
  intros (Hb & Hl). pose proof (zlen_nonneg b).
  eapply parses_bind; [apply parses_i32; range|].
  destruct (Z.eqb_spec (zlen b) (-1)); [lia|]. destruct (Z.ltb_spec (zlen b) 0); [lia|].
  rewrite wrap_small by range. eapply parses_map; [by apply parses_borrow|done].
Qed.

Lemma parses_bytes_null : parses read_bytes enc_null_bytes None.
Proof.
  change enc_null_bytes with (be_encode 4 (-1)).
  eapply parses_then; [apply parses_i32; range|]. apply parses_ret.
Qed.

Lemma parses_array_prefix n : 0 <= n < 2 ^ 31 -> parses read_array_prefix (be_encode 4 n) n.
Proof.
  intros Hn. eapply parses_then; [apply parses_i32; range|].
  destruct (Z.ltb_spec n 0); [lia|]. apply parses_ret.
Qed.

Lemma read_string_invalid s :
  zlen s <= INT16_MAX -> is_valid_utf8 s (length s) = false ->
  fst (read_string (reader_of (enc_string s))) = err (decode_err (lit "invalid UTF-8 in string")).
Proof.
  intros Hl Hv. pose proof (zlen_nonneg s). unfold INT16_MAX in Hl. 
  unfold read_string, enc_string, mbind, decoder_bind.
  rewrite <- at_start, (parses_i16 (zlen s)) by (zlen; range).
  destruct (Z.eqb_spec (zlen s) (-1)); [lia|]. destruct (Z.ltb_spec (zlen s) 0); [lia|].
  rewrite wrap_small by range.
  pose proof (parses_is_last _ _ _ (parses_borrow s (zlen s) eq_refl)) as Hb.
  rewrite Hb by (zlen; range).
  rewrite zlen_to_nat, Hv. destruct (Z.gtb_spec (zlen s) 0); [done|].
  by rewrite (zlen_0 s) in Hv by lia.
Qed.

Lemma dspec_string : dspec read_string accepts_string_opt decode_error.
Proof.
  eapply dspec_bind; [apply dspec_i16|]. intros bs len [-> Hlen].
  destruct (Z.eqb_spec len (-1)) as [->|].
  { eapply dspec_conseq; [apply dspec_ret| |done]. by intros bs' x [-> ->]. }
  destruct (Z.ltb_spec len 0); [by apply dspec_fail|].
  rewrite wrap_small by range.
  eapply dspec_bind; [by apply dspec_borrow|]. intros bs' p (-> & Hp & Hb).
  rewrite <- Hp, zlen_to_nat.
  assert (Hok : (zlen p >? 0) && negb (is_valid_utf8 p (length p)) = false ->
    accepts_string (be_encode 2 (zlen p) ++ p) p).
  { intros Hv. split; [done|]. split; [done|]. split; [unfold INT16_MAX; range|].
    destruct (Z.gtb_spec (zlen p) 0); [by apply negb_false_iff in Hv|].
    by rewrite (zlen_0 p) by lia. }
  destruct (_ && _) eqn:Hv; [by apply dspec_fail|].
  eapply dspec_conseq; [apply dspec_ret| |done].
  intros bs' x [-> ->]. rewrite app_nil_r. by apply Hok.
Qed.

Lemma dspec_string_required : dspec read_string_required accepts_string decode_error.
Proof.
  eapply dspec_bind; [apply dspec_string|]. intros bs [s|] Hs; [|by apply dspec_fail].
  eapply dspec_conseq; [apply dspec_ret| |done]. intros bs' x [-> ->]. by rewrite app_nil_r.
Qed.

Lemma dspec_bytes : dspec read_bytes accepts_bytes decode_error.
Proof.
  eapply dspec_bind; [apply dspec_i32|]. intros bs len [-> Hlen].
  destruct (Z.eqb_spec len (-1)) as [->|].
  { eapply dspec_conseq; [apply dspec_ret| |done]. by intros bs' x [-> ->]. }
  destruct (Z.ltb_spec len 0); [by apply dspec_fail|].
  rewrite wrap_small by range.
  eapply dspec_map; [by apply dspec_borrow|]. intros bs p (-> & <- & Hb).
  split; [done|]. split; [done|range].
Qed.

Lemma dspec_array_prefix : dspec read_array_prefix accepts_count decode_error.
Proof.
  eapply dspec_bind; [apply dspec_i32|]. intros bs n [-> Hn].
  destruct (Z.ltb_spec n 0); [by apply dspec_fail|].
  eapply dspec_conseq; [apply dspec_ret| |done]. intros bs x [-> ->].
  rewrite app_nil_r. split; [done|range].
Qed.

#[export] Hint Resolve parses_u8 parses_u16 parses_u32 parses_u64 parses_i8 parses_i16
  parses_i32 parses_i64 parses_string parses_string_null parses_string_required
  parses_bytes parses_bytes_null parses_array_prefix : parses.

Create HintDb dspec.
#[export] Hint Resolve dspec_u8 dspec_u16 dspec_u32 dspec_u64 dspec_i8 dspec_i16 dspec_i32
  dspec_i64 dspec_string dspec_string_required dspec_bytes dspec_array_prefix : dspec.

(** ** Properties *)

(** [write] then [read] at the place written: the reader returns the value and
    its cursor stops right after it, whatever precedes and follows. *)
Definition roundtrips {A} (write : BufferWriter -> A -> BufferWriter) (read : Decoder A) (x : A)
  : Prop :=
  forall w post, zlen (write w x ++ post) < 2 ^ 64 ->
    let buf := write w x ++ post in
    read (MkReader buf (zlen buf) (zlen w)) = (ok x, MkReader buf (zlen buf) (zlen (write w x))).

Lemma roundtrips_enc {A} (write : BufferWriter -> A -> BufferWriter) (read : Decoder A) enc x :
  (forall w, write w x = w ++ enc) -> parses read enc x -> roundtrips write read x.
Proof.
  intros Hw Hp w post Hsz. cbn zeta. rewrite Hw in *. rewrite <- app_assoc in *.
  specialize (Hp w post Hsz). unfold at_ in Hp. rewrite <- app_assoc in Hp. exact Hp.
Qed.

(** Every fixed-width integer of the wire format is written as exactly its
    big-endian bytes and read back unchanged, over its whole range. *)
Lemma integers_roundtrip :
  (forall v, in_u 8 v -> roundtrips write_u8 read_u8 v) /\
  (forall v, in_s 8 v -> roundtrips write_i8 read_i8 v) /\
  (forall v, in_u 16 v -> roundtrips write_u16 read_u16 v) /\
  (forall v, in_s 16 v -> roundtrips write_i16 read_i16 v) /\
  (forall v, in_u 32 v -> roundtrips write_u32 read_u32 v) /\
  (forall v, in_s 32 v -> roundtrips write_i32 read_i32 v) /\
  (forall v, in_u 64 v -> roundtrips write_u64 read_u64 v) /\
  (forall v, in_s 64 v -> roundtrips write_i64 read_i64 v) /\
  (forall w v, write_u16 w v = w ++ be_encode 2 v /\ write_u32 w v = w ++ be_encode 4 v /\
     write_u64 w v = w ++ be_encode 8 v).
Proof.
  repeat split; intros; try solve [eapply roundtrips_enc; [|auto with parses]; intros;
    auto using write_u8_enc, write_i8_enc, write_u16_enc, write_i16_enc, write_u32_enc,
      write_i32_enc, write_u64_enc, write_i64_enc];
  auto using write_u16_enc, write_u32_enc, write_u64_enc.
Qed.

(** Strings (null or valid UTF-8 of at most 32767 bytes) and byte strings
    (null or shorter than 2^31) are read back unchanged. *)
Lemma strings_roundtrip :
  (forall s, string_ok s -> roundtrips write_string read_string_required s) /\
  (forall s, from_option string_ok True s -> roundtrips write_string_opt read_string s) /\
  (forall b, from_option bytes_ok True b -> roundtrips write_bytes read_bytes b) /\
  (forall n, 0 <= n < 2 ^ 31 -> roundtrips write_array_prefix read_array_prefix n).
Proof.
  split; [|split; [|split]].
  - intros s Hs. eapply roundtrips_enc; [|auto with parses]. intros. apply write_string_enc, Hs.
  - intros [s|] Hs; (eapply roundtrips_enc; [|auto with parses]); intros.
    + apply write_string_enc, Hs.
    + apply write_string_opt_none.
  - intros [b|] Hb; (eapply roundtrips_enc; [|auto with parses]); intros.
    + apply write_bytes_raw_enc, Hb.
    + apply write_bytes_none.
  - intros n Hn. eapply roundtrips_enc; [|auto with parses]. intros. apply write_array_prefix_enc.
Qed.

(** On any buffer, the string reader either consumes exactly the bytes the
    writer emits for the string it returns, which is valid UTF-8, or fails with
    [DecodeError]; its cursor never goes back nor past the end. *)
Lemma read_string_exact (r : BufferReader) (Hr : reader_wf r) :
  let (res, r') := read_string_required r in
  data_ r' = data_ r /\ pos_ r <= pos_ r' <= size_ r /\
  match res with
  | ok s => is_valid_utf8 s (length s) = true /\
      write_string (take (Z.to_nat (pos_ r)) (data_ r)) s = take (Z.to_nat (pos_ r')) (data_ r)
  | err e => kind e = Kind.DecodeError
  end.
Proof.
  destruct (dspec_string_required r Hr) as [(Hwf & Hd & Hs & Hp) Hres].
  destruct (read_string_required r) as [res r']. cbn in *.
  destruct Hwf as (_ & _ & Hle & _). split; [done|]. split; [lia|].
  destruct res as [s|e]; [|done]. destruct Hres as [Hc Hok]. split; [apply Hok|].
  rewrite write_string_enc, <- Hc by apply Hok. unfold consumed, Reader.window.
  destruct Hr as (_ & _ & ? & _). rewrite take_take_drop. f_equal. lia.
Qed.

Definition string_sample : BufferReader := reader_of [0x00; 0x02; 0x68; 0x69; 0x2A].

Lemma read_string_exact_witness :
  read_string_required string_sample = (ok (lit "hi"), MkReader (data_ string_sample) 5 4) /\
  is_valid_utf8 (lit "hi") 2 = true /\
  write_string [] (lit "hi") = [0x00; 0x02; 0x68; 0x69].
Proof.
  assert (Hr : reader_wf string_sample) by (apply reader_of_wf; decided).
  pose proof (read_string_exact string_sample Hr) as H.
  split; [reflexivity|]. destruct H as (_ & _ & Hv & Hw). split; [exact Hv|exact Hw].
Defined.

(** C38.  A string longer than 32767 bytes is not rejected: it is cut at 32767
    bytes without an error, so that two different strings have one encoding, and
    a cut inside a character makes the encoding of a valid text unreadable. *)
Theorem write_string_truncates :
  (forall w s, INT16_MAX < zlen s ->
     write_string w s = write_string w (take (Z.to_nat INT16_MAX) s)) /\
  (exists s, is_valid_utf8 s (length s) = true /\
     fails_with Kind.DecodeError (fst (read_string (reader_of (write_string [] s))))).
Proof.
  split.
  - intros w s Hs. rewrite write_string_long by done. rewrite write_string_enc; [done|].
    unfold zlen, INT16_MAX in *. rewrite length_take. lia.
  - assert (exists pre, Forall (in_u 7) pre /\ length pre = Z.to_nat 32766) as (pre & Hpre & Hlen).
    { exists (repeat 0x61 (Z.to_nat 32766)). split; [|apply repeat_length].
      apply Forall_forall. intros x ->%list_elem_of_In%repeat_spec. range. }
    assert (Hz : zlen pre = 32766) by (unfold zlen; rewrite Hlen; apply Z2Nat.id; lia).
    exists (pre ++ [0xC3; 0xA9]). split.
    + apply is_valid_utf8_iff.
      * apply is_bytes_app. split; [|decided]. eapply Forall_impl; [done|]. unfold in_u. lia.
      * apply utf8_text_app; [by apply utf8_text_ascii|]. exists [0xE9]. split; [|done].
        constructor; [left; lia|constructor].
    + rewrite write_string_long by (unfold INT16_MAX; zlen).
      change [0xC3; 0xA9] with ([0xC3] ++ [0xA9]). rewrite (app_assoc pre).
      rewrite take_app_length' by (unfold INT16_MAX, zlen in *; rewrite length_app; cbn [length]; lia).
      rewrite app_nil_l, read_string_invalid; [by eexists|unfold INT16_MAX; zlen|].
      apply utf8_truncated_tail; [done|lia].
Qed.
