(* ===== verification/Frame.v ===== *)
(** * Frame layer: [frame.hpp] and [frame.cpp]

    Command keys, response codes, the size-prefixed envelope of outbound frames,
    the parser of inbound frames and the outbound size limit. *)

From S2P Require Import Prelude Errors Buffer Codec.

Local Open Scope Z_scope.

(** ** Keys and response codes *)

Module key.

Definition QueryPublisherSequence : Z := 0x0005.
Definition StoreOffset : Z := 0x000A.
Definition QueryOffset : Z := 0x000B.
Definition Create : Z := 0x000D.
Definition Delete : Z := 0x000E.
Definition PeerProperties : Z := 0x0011.
Definition SaslHandshake : Z := 0x0012.
Definition SaslAuthenticate : Z := 0x0013.
Definition Tune : Z := 0x0014.
Definition Open : Z := 0x0015.
Definition Close : Z := 0x0016.
Definition Heartbeat : Z := 0x0017.
Definition MetadataUpdate : Z := 0x0010.

Definition kResponseBit : Z := 0x8000.
Definition kKeyMask : Z := 0x7FFF.

Definition response_of (request_key : Z) : Z := wrap 16 (Z.lor request_key kResponseBit).
Definition request_of (any_key : Z) : Z := wrap 16 (Z.land any_key kKeyMask).
Definition is_response (any_key : Z) : bool := negb (Z.land any_key kResponseBit =? 0).

End key.

Module response_code.

Definition Ok : Z := 0x01.
Definition StreamDoesNotExist : Z := 0x02.
Definition SubscriptionIdAlreadyExists : Z := 0x03.
Definition SubscriptionIdDoesNotExist : Z := 0x04.
Definition StreamAlreadyExists : Z := 0x05.
Definition StreamNotAvailable : Z := 0x06.
Definition SaslMechanismNotSupported : Z := 0x07.
Definition AuthenticationFailure : Z := 0x08.
Definition SaslError : Z := 0x09.
Definition SaslChallenge : Z := 0x0A.
Definition SaslAuthenticationFailureLoopback : Z := 0x0B.
Definition VirtualHostAccessFailure : Z := 0x0C.
Definition UnknownFrame : Z := 0x0D.
Definition FrameTooLarge : Z := 0x0E.
Definition InternalError : Z := 0x0F.
Definition AccessRefused : Z := 0x10.
Definition PreconditionFailed : Z := 0x11.
Definition PublisherDoesNotExist : Z := 0x12.
Definition NoOffset : Z := 0x13.

End response_code.

(** ** Outbound frames *)

Definition encode_request_frame (key version correlation_id : Z) (body : bytes) : bytes :=
  let w := Writer.write_raw Writer.empty [] 0 in
  let inner := Writer.empty in
  let inner := write_u16 inner key in
  let inner := write_u16 inner version in
  let inner := write_u32 inner correlation_id in
  let inner := if negb (zlen body =? 0) then Writer.write_raw inner body (zlen body) else inner in
  let inner_bytes := Writer.take_data inner in
  let w := write_u32 w (wrap 32 (zlen inner_bytes)) in
  let w := Writer.write_raw w inner_bytes (zlen inner_bytes) in
  Writer.take_data w.

Definition encode_oneway_frame (key version : Z) (body : bytes) : bytes :=
  let inner := Writer.empty in
  let inner := write_u16 inner key in
  let inner := write_u16 inner version in
  let inner := if negb (zlen body =? 0) then Writer.write_raw inner body (zlen body) else inner in
  let inner_bytes := Writer.take_data inner in
  let w := Writer.empty in
  let w := write_u32 w (wrap 32 (zlen inner_bytes)) in
  let w := Writer.write_raw w inner_bytes (zlen inner_bytes) in
  Writer.take_data w.

(** ** Inbound frames *)

(** [struct IncomingFrame]. *)
Record IncomingFrame := MkFrame {
  f_key : Z;
  f_version : Z;
  f_body : bytes;
  f_correlation_id : option Z
}.

#[export] Instance IncomingFrame_eq_dec : EqDecision IncomingFrame.
Proof. solve_decision. Defined.

(** Key, version and, when the response bit is set, the correlation id. *)
Definition read_frame_header : Decoder (Z * Z * option Z) :=
  k ← read_u16;
  ver ← read_u16;
  cid ← (if key.is_response k then (c ← read_u32; mret (Some c)) else mret None);
  mret (k, ver, cid).

Definition read_frame_auto : Decoder IncomingFrame :=
  declared ← read_u32;
  if declared <? 4 then dec_fail (mk_error Kind.ProtocolViolation (lit "frame Size < 4"))
  else
    rem ← inspect Reader.remaining;
    if declared >? rem then dec_fail (mk_error Kind.DecodeError (lit "frame body truncated"))
    else
      start ← inspect Reader.pos;
      header ← read_frame_header;
      stop ← inspect Reader.pos;
      let body_len := wrap 64 (declared - wrap 64 (stop - start)) in
      body_p ← Reader.borrow body_len;
      let '(k, ver, cid) := header in
      mret (MkFrame k ver body_p cid).

(** ** Outbound size limit *)

Definition check_outbound_frame_size (body_size frame_max : Z) : Result unit :=
  if frame_max =? 0 then ok tt
  else if body_size >? frame_max then
    err (mk_error Kind.ProtocolViolation (lit "outbound frame exceeds negotiated FrameMax"))
  else ok tt.

(** ** Reference wire form *)

Definition enc_header (k ver : Z) (cid : option Z) : bytes :=
  be_encode 2 k ++ be_encode 2 ver ++ from_option (be_encode 4) [] cid.

Definition enc_frame (f : IncomingFrame) : bytes :=
  let payload := enc_header (f_key f) (f_version f) (f_correlation_id f) ++ f_body f in
  be_encode 4 (zlen payload) ++ payload.

(** The frames the envelope can carry: a correlation id exactly when the
    response bit is set. *)
Definition header_ok (k ver : Z) (cid : option Z) : Prop :=
  in_u 16 k /\ in_u 16 ver /\
  match cid with
  | Some c => key.is_response k = true /\ in_u 32 c
  | None => key.is_response k = false
  end.

Definition frame_ok (f : IncomingFrame) : Prop :=
  header_ok (f_key f) (f_version f) (f_correlation_id f) /\ is_bytes (f_body f) /\
  zlen (enc_header (f_key f) (f_version f) (f_correlation_id f) ++ f_body f) < 2 ^ 32.

#[export] Instance header_ok_dec k ver cid : Decision (header_ok k ver cid).
Proof. unfold header_ok. destruct cid; apply _. Defined.

#[export] Instance frame_ok_dec f : Decision (frame_ok f).
Proof. unfold frame_ok. apply _. Defined.

Lemma enc_frame_bytes f : frame_ok f -> is_bytes (enc_frame f).
Proof.
  intros (_ & Hb & _). unfold enc_frame, enc_header. rewrite !is_bytes_app.
  destruct (f_correlation_id f); cbn; auto 10 with wf.
Qed.

Lemma enc_frames_bytes fs : Forall frame_ok fs -> is_bytes (concat (map enc_frame fs)).
Proof.
  induction 1 as [|f fs Hf _ IH]; cbn; [constructor|]. apply is_bytes_app. split; [|done].
  by apply enc_frame_bytes.
Qed.

#[global] Arguments enc_header : simpl never.

Lemma zlen_enc_header k ver cid :
  zlen (enc_header k ver cid) = match cid with Some _ => 8 | None => 4 end.
Proof. unfold enc_header. destruct cid; cbn [from_option]; zlen. Qed.

#[export] Hint Rewrite zlen_enc_header : zlen.

Lemma write_body inner body :
  (if negb (zlen body =? 0) then Writer.write_raw inner body (zlen body) else inner) = inner ++ body.
Proof.
  destruct (Z.eqb_spec (zlen body) 0) as [Hz|]; cbn [negb].
  - by rewrite (zlen_0 body Hz), app_nil_r.
  - apply write_raw_all.
Qed.

Lemma encode_request_frame_enc k ver cid body :
  zlen body < 2 ^ 32 - 8 ->
  encode_request_frame k ver cid body = enc_frame (MkFrame k ver body (Some cid)).
Proof.
  intros Hl. unfold encode_request_frame, enc_frame, Writer.take_data, Writer.empty.
  rewrite write_body, write_raw_all. autorewrite with enc. cbn [f_key f_version f_body f_correlation_id].
  unfold enc_header. cbn [from_option app]. rewrite <- !app_assoc.
  pose proof (zlen_nonneg body). rewrite wrap_small; [done|]. zlen. range.
Qed.

Lemma encode_oneway_frame_enc k ver body :
  zlen body < 2 ^ 32 - 4 ->
  encode_oneway_frame k ver body = enc_frame (MkFrame k ver body None).
Proof.
  intros Hl. unfold encode_oneway_frame, enc_frame, Writer.take_data, Writer.empty.
  rewrite write_body, write_raw_all. autorewrite with enc. cbn [f_key f_version f_body f_correlation_id].
  unfold enc_header. cbn [from_option app]. rewrite <- !app_assoc.
  pose proof (zlen_nonneg body). rewrite wrap_small; [done|]. zlen. range.
Qed.

(** A request frame read without the response bit. *)
Lemma request_frame_read k ver cid body :
  enc_frame (MkFrame k ver body (Some cid)) = enc_frame (MkFrame k ver (be_encode 4 cid ++ body) None).
Proof. unfold enc_frame, enc_header. cbn. by rewrite app_nil_r, <- !app_assoc. Qed.

Lemma request_frame_ok k ver cid body :
  in_u 16 k -> key.is_response k = false -> in_u 16 ver -> is_bytes body -> zlen body < 2 ^ 32 - 8 ->
  frame_ok (MkFrame k ver (be_encode 4 cid ++ body) None).
Proof.
  intros Hk Hr Hv Hb Hl. split; [by split_and!|]. split; cbn.
  - apply is_bytes_app. split; [apply be_encode_bytes|done].
  - zlen.
Qed.

(** ** The inbound parser inverts the wire form, and accepts nothing else *)

Lemma parses_header k ver cid :
  header_ok k ver cid -> parses read_frame_header (enc_header k ver cid) (k, ver, cid).
Proof.
  intros (Hk & Hv & Hc). unfold enc_header.
  eapply parses_bind; [by apply parses_u16|]. eapply parses_bind; [by apply parses_u16|].
  destruct cid as [c|]; cbn [from_option].
  - destruct Hc as [-> Hc]. eapply parses_then; [|apply parses_ret].
    by eapply parses_map; [apply parses_u32|].
  - rewrite Hc. eapply parses_then; apply parses_ret.
Qed.

Lemma parses_frame f : frame_ok f -> parses read_frame_auto (enc_frame f) f.
Proof.
  destruct f as [k ver body cid]. intros (Hh & Hb & Hl). cbn in Hh, Hl. unfold enc_frame. cbn.
  set (payload := enc_header k ver cid ++ body) in *.
  assert (Hp : zlen payload = zlen (enc_header k ver cid) + zlen body) by (subst payload; zlen).
  rewrite zlen_enc_header in Hp. pose proof (zlen_nonneg body).
  assert (4 <= zlen payload) by (destruct cid; lia).
  eapply parses_bind; [apply parses_u32; range|].
  destruct (Z.ltb_spec (zlen payload) 4); [lia|].
  apply parses_remaining. intros rem Hrem.
  destruct (Z.gtb_spec (zlen payload) rem); [lia|].
  apply (parses_measured read_frame_header
    (fun n h => body_p ← Reader.borrow (wrap 64 (zlen payload - n));
                let '(k, ver, cid) := h in mret (MkFrame k ver body_p cid)) _ _ (k, ver, cid)).
  - by apply parses_header.
  - rewrite Hp, zlen_enc_header, wrap_small by (destruct cid; range).
    apply (parses_map _ (fun b => MkFrame k ver b cid) _ body); [|done].
    apply parses_borrow. destruct cid; lia.
Qed.

Lemma dspec_header :
  dspec read_frame_header
    (fun bs h => let '(k, ver, cid) := h in bs = enc_header k ver cid /\ header_ok k ver cid)
    decode_error.
Proof.
  eapply dspec_bind; [apply dspec_u16|]. intros bs1 k [-> Hk].
  eapply dspec_bind; [apply dspec_u16|]. intros bs2 ver [-> Hv].
  destruct (key.is_response k) eqn:Hr.
  - eapply dspec_bind.
    { eapply dspec_map; [apply dspec_u32|]. intros bs c Hc.
      instantiate (1 := fun bs cid => exists c, cid = Some c /\ accepts_u 4 bs c). by exists c. }
    intros bs3 cid (c & -> & -> & Hc).
    eapply dspec_conseq; [apply dspec_ret| |done]. intros bs h [-> ->]. by rewrite app_nil_r.
  - eapply dspec_bind; [apply dspec_ret|]. intros bs3 cid [-> ->].
    eapply dspec_conseq; [apply dspec_ret| |done]. intros bs h [-> ->]. by rewrite !app_nil_r.
Qed.

(** Failures of the parser: truncated input, or a declared size below four. *)
Definition frame_error (e : StreamError) : Prop :=
  kind e = Kind.DecodeError \/ kind e = Kind.ProtocolViolation.

Lemma dspec_frame : dspec read_frame_auto (fun bs f => bs = enc_frame f /\ frame_ok f) frame_error.
Proof.
  eapply dspec_conseq; [apply dspec_bounded| |done].
  - eapply dspec_bind; [eapply dspec_conseq; [apply dspec_u32|done|by left]|].
    intros bs0 declared [-> Hd].
    destruct (Z.ltb_spec declared 4); [by apply dspec_fail; right|].
    eapply dspec_bind; [apply dspec_inspect|]. intros bs1 rem ->.
    destruct (_ >? rem); [by apply dspec_fail; left|].
    eapply (dspec_measured read_frame_header
      (fun n h => body_p ← Reader.borrow (wrap 64 (declared - n));
                  let '(k, ver, cid) := h in mret (MkFrame k ver body_p cid))).
    + eapply dspec_conseq; [apply dspec_header|done|by left].
    + intros bs2 [[k ver] cid] [-> Hh].
      eapply dspec_map.
      * eapply dspec_conseq; [apply dspec_borrow; apply wrap_range; lia| |by left].
        intros bs b Hb. exact Hb.
      * intros bs b (-> & Hl & Hb).
        instantiate (1 := fun bs f => exists declared, 4 <= declared < 2 ^ 32 /\
          header_ok (f_key f) (f_version f) (f_correlation_id f) /\ is_bytes (f_body f) /\
          zlen (f_body f) = wrap 64 (declared
            - zlen (enc_header (f_key f) (f_version f) (f_correlation_id f))) /\
          bs = be_encode 4 declared ++ [] ++ enc_header (f_key f) (f_version f)
            (f_correlation_id f) ++ f_body f).
        exists declared. cbn. split; [range|]. auto.
  - intros bs [k ver b cid] [(declared & Hd & Hh & Hb & Hl & ->) Hsz]. cbn in *.
    rewrite zlen_enc_header in Hl. pose proof (zlen_nonneg b).
    (* a declared size below the header makes the subtraction wrap around *)
    assert (zlen b = declared - match cid with Some _ => 8 | None => 4 end) as Hlen.
    { destruct (Z.le_gt_cases (match cid with Some _ => 8 | None => 4 end) declared).
      - rewrite Hl. apply wrap_small. destruct cid; range.
      - exfalso. destruct cid; [|lia]. revert Hsz. zlen. rewrite Hl. unfold wrap.
        rewrite <- (Z.mod_add _ 1), Z.mod_small; lia. }
    assert (zlen (enc_header k ver cid ++ b) = declared) as Hp.
    { zlen. }
    split; [unfold enc_frame; cbn; by rewrite Hp|]. split; [done|]. split; [done|]. cbn. lia.
Qed.

(** ** Key arithmetic *)

Lemma is_response_high k : in_u 16 k -> key.is_response k = (0x8000 <=? k).
Proof.
  intros Hk. unfold key.is_response, key.kResponseBit.
  assert (Hl : Z.land k 0x8000 = if 0x8000 <=? k then 0x8000 else 0).
  { apply Z.bits_inj'. intros i Hi. change 0x8000 with (2 ^ 15) at 1.
    rewrite Z.land_spec, Z.pow2_bits_eqb by lia.
    destruct (Z.eqb_spec 15 i) as [<-|Hne].
    - rewrite andb_true_r, Z.testbit_eqb by lia.
      destruct (Z.leb_spec 0x8000 k).
      + replace (k / 2 ^ 15) with 1; [done|]. apply (Z.div_unique_pos _ _ _ (k - 2 ^ 15)); range.
      + rewrite Z.div_small by range. done.
    - rewrite andb_false_r. destruct (_ <=? _); [|by rewrite Z.bits_0].
      change 0x8000 with (2 ^ 15). rewrite Z.pow2_bits_eqb by lia.
      by destruct (Z.eqb_spec 15 i). }
  rewrite Hl. by destruct (Z.leb_spec 0x8000 k).
Qed.

Lemma request_of_mod k : key.request_of k = k mod 0x8000.
Proof.
  unfold key.request_of, key.kKeyMask. rewrite (land_ones_wrap _ 15) by done.
  change (k mod 0x8000) with (wrap 15 k). apply wrap_small.
  pose proof (wrap_range 15 k ltac:(lia)). range.
Qed.

Lemma response_of_add k : in_u 15 k -> key.response_of k = k + 0x8000.
Proof.
  intros Hk. unfold key.response_of, key.kResponseBit. rewrite Z.lor_comm.
  change 0x8000 with (Z.shiftl 1 15) at 1. rewrite lor_shiftl_add by done.
  rewrite wrap_small by range. lia.
Qed.

(** ** Properties *)

(** A frame written by the encoders is read back with its key, version,
    correlation id and body, wherever it stands in the input, and the cursor
    stops exactly at its end; response keys carry a correlation id, one-way keys
    do not. *)
Lemma frame_roundtrip (k ver cid : Z) (body pre post : bytes)
  (Hk : in_u 16 k) (Hv : in_u 16 ver) (Hc : in_u 32 cid) (Hb : is_bytes body)
  (Hl : zlen body < 2 ^ 32 - 8) (Hsz : zlen pre + zlen body + zlen post < 2 ^ 63) :
  let req := encode_request_frame k ver cid body in
  let one := encode_oneway_frame k ver body in
  if key.is_response k then
    read_frame_auto (at_ pre (req ++ post))
    = (ok (MkFrame k ver body (Some cid)), at_ (pre ++ req) post)
  else
    read_frame_auto (at_ pre (one ++ post))
    = (ok (MkFrame k ver body None), at_ (pre ++ one) post).
Proof.
  pose proof (zlen_nonneg body). cbn zeta.
  rewrite encode_request_frame_enc, encode_oneway_frame_enc by lia.
  destruct (key.is_response k) eqn:Hr; apply parses_frame;
    unfold frame_ok, enc_frame, header_ok; cbn; rewrite ?Hr; zlen; auto with lia.
Qed.

Lemma frame_roundtrip_witness :
  in_u 16 0x8011 /\ in_u 32 1 /\ is_bytes [0; 1] /\
  encode_request_frame 0x8011 1 1 [0; 1] = [0; 0; 0; 10; 128; 17; 0; 1; 0; 0; 0; 1; 0; 1] /\
  read_frame_auto (at_ [7] (encode_request_frame 0x8011 1 1 [0; 1] ++ [9]))
  = (ok (MkFrame 0x8011 1 [0; 1] (Some 1)), at_ ([7] ++ encode_request_frame 0x8011 1 1 [0; 1]) [9]).
Proof.
  split; [decided|]. split; [decided|]. split; [decided|]. split; [reflexivity|].
  apply (frame_roundtrip 0x8011 1 1 [0; 1] [7] [9]); first [decided|reflexivity].
Defined.

(** C28.  On any input, the frame parser either consumes exactly one envelope,
    the four size bytes and as many bytes as they declare, and returns its
    contents, or fails with [DecodeError] or [ProtocolViolation]; the cursor
    never goes back nor past the end.  In particular a declared size smaller
    than the header, which makes the unsigned subtraction wrap around, is
    rejected. *)
Theorem read_frame_exact (r : BufferReader) (Hr : reader_wf r) :
  let (res, r') := read_frame_auto r in
  data_ r' = data_ r /\ pos_ r <= pos_ r' <= size_ r /\
  match res with
  | ok f => frame_ok f /\
      take (Z.to_nat (pos_ r')) (data_ r) = take (Z.to_nat (pos_ r)) (data_ r) ++ enc_frame f
  | err e => kind e = Kind.DecodeError \/ kind e = Kind.ProtocolViolation
  end.
Proof.
  destruct (dspec_frame r Hr) as [(Hwf & Hd & Hs & Hp) Hres].
  destruct (read_frame_auto r) as [res r']. cbn in *.
  destruct Hwf as (_ & _ & Hle & _). split; [done|]. split; [lia|].
  destruct res as [f|e]; [|done]. destruct Hres as [Hc Hok]. split; [done|].
  rewrite <- Hc. unfold consumed, Reader.window.
  destruct Hr as (_ & _ & ? & _). rewrite take_take_drop. f_equal. lia.
Qed.

(** A response frame that declares five bytes, in front of more input. *)
Definition short_response : BufferReader :=
  reader_of [0; 0; 0; 5; 128; 17; 0; 1; 0; 0; 0; 1; 0; 1; 0; 0; 0].

Lemma read_frame_exact_witness :
  reader_wf short_response /\
  exists e, fst (read_frame_auto short_response) = err e /\
    (kind e = Kind.DecodeError \/ kind e = Kind.ProtocolViolation).
Proof.
  assert (Hr : reader_wf short_response) by (apply reader_of_wf; decided).
  split; [exact Hr|]. pose proof (read_frame_exact short_response Hr) as H.
  destruct (read_frame_auto short_response) as [[f|e] r'] eqn:E.
  - vm_compute in E. discriminate E.
  - exists e. split; [reflexivity|]. apply H.
Defined.

(** The high bit of a 16-bit key separates responses from requests:
    [response_of] sets it, [request_of] clears it, [is_response] tests it. *)
Lemma key_bits (k : Z) (Hk : in_u 16 k) :
  key.is_response k = (0x8000 <=? k) /\
  key.request_of k = k mod 0x8000 /\ key.is_response (key.request_of k) = false /\
  (key.is_response k = false -> key.response_of k = k + 0x8000 /\
     key.is_response (key.response_of k) = true /\ key.request_of (key.response_of k) = k).
Proof.
  pose proof (Z.mod_pos_bound k 0x8000 ltac:(lia)) as Hm.
  rewrite is_response_high, !request_of_mod by done.
  split; [done|]. split; [done|]. split.
  { rewrite is_response_high by range. destruct (Z.leb_spec 0x8000 (k mod 0x8000)); [lia|done]. }
  intros Hlt%Z.leb_gt. rewrite response_of_add by range. split; [done|].
  rewrite is_response_high by range. split; [apply Z.leb_le; range|].
  rewrite <- (Z.mul_1_l 0x8000) at 1. rewrite Z.mod_add by done. apply Z.mod_small. range.
Qed.

(** The outbound limit: a zero limit accepts every frame, a non-zero limit
    accepts exactly the bodies that do not exceed it, and a rejection is a
    [ProtocolViolation]. *)
Lemma check_outbound_frame_size_spec :
  forall body_size frame_max,
    (check_outbound_frame_size body_size frame_max = ok tt <->
       frame_max = 0 \/ body_size <= frame_max) /\
    (is_err (check_outbound_frame_size body_size frame_max) = true ->
       fails_with Kind.ProtocolViolation (check_outbound_frame_size body_size frame_max)).
Proof.
  intros n m. unfold check_outbound_frame_size, fails_with.
  destruct (Z.eqb_spec m 0) as [->|]; [split; [tauto|done]|].
  destruct (Z.gtb_spec n m); (split; [split; intros; (done || lia)|eauto]).
  done.
Qed.

(** The envelope of the protocol description. *)
Example frame_sasl_handshake :
  encode_request_frame 0x0012 1 42 []
  = [0x00; 0x00; 0x00; 0x08; 0x00; 0x12; 0x00; 0x01; 0x00; 0x00; 0x00; 0x2A].
Proof. reflexivity. Qed.
