(* ===== verification/Command.v ===== *)
(** * The command interface, and arrays of key/value pairs

    Every protocol command is a struct with constants [kKey] and [kVersion], an
    [encode_body] and a [decode_body]; the templates of the handshake use any
    such struct.  [Command] is that interface, [CommandLaws] what a command
    promises to the code that sends and receives it.  The helpers of
    [commands/handshake.hpp] for arrays of key/value pairs are here too. *)

From S2P Require Import Prelude Errors Buffer Codec Frame.

Local Open Scope Z_scope.

(** ** The interface *)

Class Command (C : Type) := {
  kKey : Z;
  kVersion : Z;
  encode_body : C -> BufferWriter -> BufferWriter;
  decode_body : Decoder C
}.
Arguments kKey C {_}.
Arguments kVersion C {_}.

(** [BufferWriter body; cmd.encode_body(body); std::move(body).take()]. *)
Definition body_of {C} `{Command C} (c : C) : bytes :=
  Writer.take_data (encode_body c Writer.empty).

(** The wire form of a command: the values it can carry ([valid]), their
    reference encoding, and the other bodies the decoder tolerates. *)
Class Wire (C : Type) := {
  valid : C -> Prop;
  enc_body : C -> bytes;
  variant : bytes -> C -> Prop
}.

(** What a command promises: encoding a valid value appends its wire form, which
    decodes back to the value; decoding any bytes yields a valid value, from its
    wire form or a tolerated variant of it, or fails with [DecodeError]. *)
Class CommandLaws (C : Type) `{Command C, Wire C} : Prop := {
  kKey_range : in_u 16 (kKey C);
  kVersion_range : in_u 16 (kVersion C);
  enc_body_bytes (c : C) : valid c -> is_bytes (enc_body c);
  encode_body_enc (c : C) w : valid c -> encode_body c w = w ++ enc_body c;
  decode_body_enc (c : C) : valid c -> parses decode_body (enc_body c) c;
  decode_body_spec :
    dspec decode_body (fun bs (c : C) => valid c /\ (bs = enc_body c \/ variant bs c)) decode_error
}.

Section laws.
Context {C : Type} `{CommandLaws C}.

Lemma body_of_enc (c : C) : valid c -> body_of c = enc_body c.
Proof. intros. unfold body_of, Writer.take_data, Writer.empty. by rewrite encode_body_enc. Qed.

Lemma decode_body_reader (c : C) :
  valid c -> zlen (enc_body c) < 2 ^ 64 ->
  fst (decode_body (reader_of (body_of c))) = ok c.
Proof.
  intros Hv Hl. rewrite body_of_enc by done. rewrite <- at_start.
  pose proof (decode_body_enc c Hv) as Hp%parses_is_last. by rewrite Hp.
Qed.
End laws.

(** ** Arrays of key/value pairs *)

Abbreviation KeyValue := (list Z * list Z)%type (only parsing).

Definition encode_kv_array (w : BufferWriter) (kvs : list KeyValue) : BufferWriter :=
  let w := write_array_prefix w (swrap 32 (zlen kvs)) in
  fold_left (fun w kv => let w := write_string w kv.1 in write_string w kv.2) kvs w.

(** The body of the loop of [decode_kv_array]. *)
Definition decode_kv : Decoder KeyValue :=
  k ← read_string_required;
  v ← read_string_required;
  mret (k, v).

Definition decode_kv_array : Decoder (list KeyValue) :=
  count ← read_array_prefix;
  for_loop count (fun out => kv ← decode_kv; mret (out ++ [kv])) [].

(** ** Reference encodings of arrays *)

Definition kv_ok (kv : KeyValue) : Prop := string_ok kv.1 /\ string_ok kv.2.
Definition enc_kv (kv : KeyValue) : bytes := enc_string kv.1 ++ enc_string kv.2.

(** An array of [A]: its count, then its elements. *)
Definition array_ok {A} (ok : A -> Prop) (xs : list A) : Prop := Forall ok xs /\ zlen xs < 2 ^ 31.
Definition enc_array {A} (enc : A -> bytes) (xs : list A) : bytes :=
  be_encode 4 (zlen xs) ++ concat (map enc xs).

#[export] Instance kv_ok_dec kv : Decision (kv_ok kv).
Proof. unfold kv_ok. apply _. Defined.

#[export] Instance array_ok_dec {A} (ok : A -> Prop) `{forall x, Decision (ok x)} xs :
  Decision (array_ok ok xs).
Proof. unfold array_ok. apply _. Defined.

#[global] Arguments enc_array : simpl never.
#[global] Arguments enc_string : simpl never.
#[global] Arguments enc_bytes : simpl never.

(** A loop that writes elements one after the other. *)
Lemma fold_write {A} (write : BufferWriter -> A -> BufferWriter) (enc : A -> bytes) xs w :
  Forall (fun x => forall w, write w x = w ++ enc x) xs ->
  fold_left write xs w = w ++ concat (map enc xs).
Proof.
  intros Hxs. revert w. induction Hxs as [|x xs Hx _ IH]; intros w; cbn [fold_left map concat].
  - by rewrite app_nil_r.
  - by rewrite Hx, IH, app_assoc.
Qed.

(** A count followed by a loop of writers. *)
Lemma write_array_enc {A} (write : BufferWriter -> A -> BufferWriter) ok (enc : A -> bytes) xs w :
  (forall x w, ok x -> write w x = w ++ enc x) -> array_ok ok xs ->
  fold_left write xs (write_array_prefix w (swrap 32 (zlen xs))) = w ++ enc_array enc xs.
Proof.
  intros Hw [Hxs Hl]. pose proof (zlen_nonneg xs).
  rewrite (fold_write write enc) by (eapply Forall_impl; [done|]; auto).
  rewrite swrap_small by lia. by rewrite write_array_prefix_enc, <- app_assoc.
Qed.

Lemma parses_array {A} (elem : Decoder A) ok (enc : A -> bytes) xs :
  (forall x, ok x -> parses elem (enc x) x) -> array_ok ok xs ->
  parses (count ← read_array_prefix;
          for_loop count (fun out => x ← elem; mret (out ++ [x])) []) (enc_array enc xs) xs.
Proof.
  intros He [Hxs Hl]. pose proof (zlen_nonneg xs).
  eapply parses_bind; [by apply parses_array_prefix|].
  apply (parses_for_loop elem enc xs _ []); [done|]. eapply Forall_impl; [done|]. auto.
Qed.

Lemma dspec_array {A} (elem : Decoder A) ok (enc : A -> bytes) :
  dspec elem (fun bs x => bs = enc x /\ ok x) decode_error ->
  dspec (count ← read_array_prefix;
         for_loop count (fun out => x ← elem; mret (out ++ [x])) [])
    (fun bs xs => bs = enc_array enc xs /\ array_ok ok xs) decode_error.
Proof.
  intros He. eapply dspec_bind; [apply dspec_array_prefix|]. intros bs n [-> Hn].
  eapply dspec_conseq; [by apply dspec_for_loop| |done].
  intros bs ys (xs & bss & -> & -> & Hl & HF). cbn [app].
  assert (Hz : zlen xs = n) by (unfold zlen; lia). unfold enc_array, array_ok. rewrite Hz.
  split; [|split; [|lia]].
  - do 2 f_equal. clear - HF. induction HF as [|b x bss xs [-> _] _ IH]; [done|]. cbn. by f_equal.
  - clear - HF. by induction HF as [|b x bss xs [_ ?] _ IH]; constructor.
Qed.

Lemma enc_string_bytes s : string_ok s -> is_bytes (enc_string s).
Proof. intros [Hs _]. apply is_bytes_app. auto with wf. Qed.

Lemma enc_bytes_bytes b : bytes_ok b -> is_bytes (enc_bytes b).
Proof. intros [Hb _]. apply is_bytes_app. auto with wf. Qed.

Lemma enc_kv_bytes kv : kv_ok kv -> is_bytes (enc_kv kv).
Proof. intros [Hk Hv]. apply is_bytes_app. auto using enc_string_bytes. Qed.

Lemma enc_array_bytes {A} ok (enc : A -> bytes) xs :
  (forall x, ok x -> is_bytes (enc x)) -> array_ok ok xs -> is_bytes (enc_array enc xs).
Proof.
  intros He [Hxs _]. apply is_bytes_app. split; [auto with wf|].
  induction Hxs; cbn; [constructor|]. apply is_bytes_app. auto.
Qed.

Lemma parses_kv kv : kv_ok kv -> parses decode_kv (enc_kv kv) kv.
Proof.
  destruct kv as [k v]. intros [Hk Hv]. eapply parses_bind; [by apply parses_string_required|].
  eapply parses_map; [by apply parses_string_required|done].
Qed.

Lemma dspec_kv : dspec decode_kv (fun bs kv => bs = enc_kv kv /\ kv_ok kv) decode_error.
Proof.
  eapply dspec_bind; [apply dspec_string_required|]. intros bs1 k [-> Hk].
  eapply dspec_map; [apply dspec_string_required|]. by intros bs2 v [-> Hv].
Qed.

Lemma encode_kv_array_enc w kvs :
  array_ok kv_ok kvs -> encode_kv_array w kvs = w ++ enc_array enc_kv kvs.
Proof.
  apply (write_array_enc (fun w (kv : KeyValue) => write_string (write_string w kv.1) kv.2)).
  intros kv w' [[_ [Hk _]] [_ [Hv _]]]. rewrite !write_string_enc by done.
  unfold enc_kv. by rewrite app_assoc.
Qed.

Lemma parses_kv_array kvs : array_ok kv_ok kvs -> parses decode_kv_array (enc_array enc_kv kvs) kvs.
Proof. apply parses_array, parses_kv. Qed.

Lemma dspec_kv_array :
  dspec decode_kv_array (fun bs kvs => bs = enc_array enc_kv kvs /\ array_ok kv_ok kvs) decode_error.
Proof. apply dspec_array, dspec_kv. Qed.

#[export] Hint Resolve parses_kv_array parses_kv : parses.
#[export] Hint Resolve dspec_kv_array dspec_kv : dspec.
#[export] Hint Resolve enc_string_bytes enc_bytes_bytes enc_kv_bytes : wf.
#[export] Hint Extern 2 (is_bytes (enc_array _ _)) =>
  (eapply enc_array_bytes; [|eassumption]; auto with wf) : wf.
#[export] Hint Extern 2 (is_bytes (_ ++ _)) => (apply is_bytes_app; split) : wf.

(** ** Automation for command bodies *)

Lemma write_string_ok w s : string_ok s -> write_string w s = w ++ enc_string s.
Proof. intros Hs. apply write_string_enc, Hs. Qed.

(** Writers and readers are rewritten with their lemmas, not unfolded. *)
#[global] Arguments write_u16 : simpl never.
#[global] Arguments write_u32 : simpl never.
#[global] Arguments write_u64 : simpl never.
#[global] Arguments write_string : simpl never.
#[global] Arguments write_bytes : simpl never.
#[global] Arguments write_bytes_raw : simpl never.
#[global] Arguments write_array_prefix : simpl never.
#[global] Arguments encode_kv_array : simpl never.
#[global] Arguments read_u16 : simpl never.
#[global] Arguments read_u32 : simpl never.
#[global] Arguments read_u64 : simpl never.
#[global] Arguments read_string_required : simpl never.
#[global] Arguments read_bytes : simpl never.
#[global] Arguments read_array_prefix : simpl never.
#[global] Arguments decode_kv_array : simpl never.

(** Prove a [parses] goal step by step along a right-nested encoding. *)
Ltac solve_parses :=
  first
    [ solve [eauto with parses]
    | eapply parses_map; [solve [eauto with parses]|reflexivity]
    | eapply parses_bind; [solve [eauto with parses]|cbn beta; solve_parses] ].

(** Run a decoder whose steps have specifications in [dspec]; what is left is
    the relation between the consumed bytes and the result. *)
Ltac step_dspec :=
  eapply dspec_bind; [solve [eauto with dspec]|];
  let bs := fresh "bs" in let x := fresh "x" in let H := fresh "Hacc" in
  intros bs x H; cbn beta in H.
Ltac ret_dspec :=
  eapply dspec_conseq; [apply dspec_ret| |done];
  let bs := fresh "bs" in let x := fresh "x" in intros bs x [-> ->];
  rewrite ?app_nil_r; unfold accepts_u, accepts_string in *; destruct_and?; subst.

(** Open the struct's own encoder or decoder behind the interface. *)
Ltac head_of t := lazymatch t with ?f _ => head_of f | _ => t end.
Ltac open_body :=
  cbn;
  lazymatch goal with
  | |- parses ?d _ _ => unfold d
  | |- dspec ?d _ _ => unfold d
  | |- ?l = _ => let h := head_of l in unfold h; cbn
  end.

Ltac laws_bytes := intros []; cbn; intros; destruct_and?; solve [eauto 6 with wf].
Ltac laws_encode :=
  intros [] w; cbn [valid]; intros Hv; open_body; cbn in Hv; destruct_and?;
  rewrite ?encode_kv_array_enc, ?write_string_ok by done; autorewrite with enc;
  by rewrite <- ?app_assoc, ?app_nil_r.
Ltac laws_parse := intros [] Hv; open_body; cbn in Hv; destruct_and?; solve_parses.
Ltac laws_ret := ret_dspec; cbn; split; [tauto|left; reflexivity].
Ltac laws_spec := open_body; first [solve [laws_ret] | repeat step_dspec; laws_ret].

(** The laws of a command whose decoder is a sequence of [dspec] steps and which
    tolerates no variant. *)
Ltac command_laws :=
  constructor; [decided|decided|laws_bytes|laws_encode|laws_parse|laws_spec].
