(* ===== verification/HandshakeCommands.v ===== *)
(** * Handshake and connection commands: [commands/handshake.hpp]

    One module per struct, with the struct's fields, constants, encoder and
    decoder, then its [Command] instance and its [CommandLaws]. *)

From S2P Require Import Prelude Errors Buffer Codec Frame Command.

Local Open Scope Z_scope.

Module PeerPropertiesRequest.

Record t := Mk { properties : list KeyValue }.

Definition kKey : Z := key.PeerProperties.
Definition kVersion : Z := 1.

Definition encode_body (c : t) (w : BufferWriter) : BufferWriter :=
  encode_kv_array w (properties c).

Definition decode_body : Decoder t :=
  kvs ← decode_kv_array;
  mret (Mk kvs).

#[global] Instance command : Command t := {|
  Command.kKey := kKey; Command.kVersion := kVersion;
  Command.encode_body := encode_body; Command.decode_body := decode_body
|}.

#[global] Instance wire : Wire t := {|
  valid c := array_ok kv_ok (properties c);
  enc_body c := enc_array enc_kv (properties c);
  variant := fun _ _ => False
|}.

End PeerPropertiesRequest.

Module PeerPropertiesResponse.

Record t := Mk { response_code : Z; properties : list KeyValue }.

Definition kKey : Z := key.response_of key.PeerProperties.
Definition kVersion : Z := 1.

Definition encode_body (c : t) (w : BufferWriter) : BufferWriter :=
  let w := write_u16 w (response_code c) in
  encode_kv_array w (properties c).

Definition decode_body : Decoder t :=
  rc ← read_u16;
  kvs ← decode_kv_array;
  mret (Mk rc kvs).

#[global] Instance command : Command t := {|
  Command.kKey := kKey; Command.kVersion := kVersion;
  Command.encode_body := encode_body; Command.decode_body := decode_body
|}.

#[global] Instance wire : Wire t := {|
  valid c := in_u 16 (response_code c) /\ array_ok kv_ok (properties c);
  enc_body c := be_encode 2 (response_code c) ++ enc_array enc_kv (properties c);
  variant := fun _ _ => False
|}.

End PeerPropertiesResponse.

Module SaslHandshakeRequest.

Record t := Mk { }.

Definition kKey : Z := key.SaslHandshake.
Definition kVersion : Z := 1.

Definition encode_body (c : t) (w : BufferWriter) : BufferWriter := w.

Definition decode_body : Decoder t := mret Mk.

#[global] Instance command : Command t := {|
  Command.kKey := kKey; Command.kVersion := kVersion;
  Command.encode_body := encode_body; Command.decode_body := decode_body
|}.

#[global] Instance wire : Wire t := {|
  valid c := True;
  enc_body c := [];
  variant := fun _ _ => False
|}.

End SaslHandshakeRequest.

Module SaslHandshakeResponse.

Record t := Mk { response_code : Z; mechanisms : list std_string }.

Definition kKey : Z := key.response_of key.SaslHandshake.
Definition kVersion : Z := 1.

Definition encode_body (c : t) (w : BufferWriter) : BufferWriter :=
  let w := write_u16 w (response_code c) in
  let w := write_array_prefix w (swrap 32 (zlen (mechanisms c))) in
  fold_left (fun w m => write_string w m) (mechanisms c) w.

Definition decode_body : Decoder t :=
  rc ← read_u16;
  count ← read_array_prefix;
  mechanisms ← for_loop count (fun out => s ← read_string_required; mret (out ++ [s])) [];
  mret (Mk rc mechanisms).

#[global] Instance command : Command t := {|
  Command.kKey := kKey; Command.kVersion := kVersion;
  Command.encode_body := encode_body; Command.decode_body := decode_body
|}.

#[global] Instance wire : Wire t := {|
  valid c := in_u 16 (response_code c) /\ array_ok string_ok (mechanisms c);
  enc_body c := be_encode 2 (response_code c) ++ enc_array enc_string (mechanisms c);
  variant := fun _ _ => False
|}.

End SaslHandshakeResponse.

Module SaslAuthenticateRequest.

Record t := Mk { mechanism : std_string; sasl_opaque_data : bytes }.

Definition kKey : Z := key.SaslAuthenticate.
Definition kVersion : Z := 1.

Definition encode_body (c : t) (w : BufferWriter) : BufferWriter :=
  let w := write_string w (mechanism c) in
  write_bytes_raw w (sasl_opaque_data c) (zlen (sasl_opaque_data c)).

(** A null [bytes] leaves the field empty. *)
Definition decode_body : Decoder t :=
  mech ← read_string_required;
  data ← read_bytes;
  mret (Mk mech (default [] data)).

#[global] Instance command : Command t := {|
  Command.kKey := kKey; Command.kVersion := kVersion;
  Command.encode_body := encode_body; Command.decode_body := decode_body
|}.

#[global] Instance wire : Wire t := {|
  valid c := string_ok (mechanism c) /\ bytes_ok (sasl_opaque_data c);
  enc_body c := enc_string (mechanism c) ++ enc_bytes (sasl_opaque_data c);
  variant := fun bs c => sasl_opaque_data c = [] /\ bs = enc_string (mechanism c) ++ enc_null_bytes
|}.

End SaslAuthenticateRequest.

Module SaslAuthenticateResponse.

Record t := Mk { response_code : Z; sasl_opaque_data : option bytes }.

Definition kKey : Z := key.response_of key.SaslAuthenticate.
Definition kVersion : Z := 1.

Definition encode_body (c : t) (w : BufferWriter) : BufferWriter :=
  let w := write_u16 w (response_code c) in
  write_bytes w (sasl_opaque_data c).

(** The opaque data is only read when bytes are left in the frame. *)
Definition decode_body : Decoder t :=
  rc ← read_u16;
  e ← inspect Reader.empty;
  if e : bool then mret (Mk rc None)
  else
    data ← read_bytes;
    mret (Mk rc data).

#[global] Instance command : Command t := {|
  Command.kKey := kKey; Command.kVersion := kVersion;
  Command.encode_body := encode_body; Command.decode_body := decode_body
|}.

#[global] Instance wire : Wire t := {|
  valid c := in_u 16 (response_code c) /\ from_option bytes_ok True (sasl_opaque_data c);
  enc_body c := be_encode 2 (response_code c) ++ from_option enc_bytes enc_null_bytes (sasl_opaque_data c);
  variant := fun bs c => sasl_opaque_data c = None /\ bs = be_encode 2 (response_code c)
|}.

End SaslAuthenticateResponse.

Module Tune.

Record t := Mk { frame_max : Z; heartbeat : Z }.

Definition kKey : Z := key.Tune.
Definition kVersion : Z := 1.

Definition encode_body (c : t) (w : BufferWriter) : BufferWriter :=
  let w := write_u32 w (frame_max c) in
  write_u32 w (heartbeat c).

Definition decode_body : Decoder t :=
  fm ← read_u32;
  hb ← read_u32;
  mret (Mk fm hb).

#[global] Instance command : Command t := {|
  Command.kKey := kKey; Command.kVersion := kVersion;
  Command.encode_body := encode_body; Command.decode_body := decode_body
|}.

#[global] Instance wire : Wire t := {|
  valid c := in_u 32 (frame_max c) /\ in_u 32 (heartbeat c);
  enc_body c := be_encode 4 (frame_max c) ++ be_encode 4 (heartbeat c);
  variant := fun _ _ => False
|}.

End Tune.

Module OpenRequest.

Record t := Mk { virtual_host : std_string }.

Definition kKey : Z := key.Open.
Definition kVersion : Z := 1.

Definition encode_body (c : t) (w : BufferWriter) : BufferWriter :=
  write_string w (virtual_host c).

Definition decode_body : Decoder t :=
  v ← read_string_required;
  mret (Mk v).

#[global] Instance command : Command t := {|
  Command.kKey := kKey; Command.kVersion := kVersion;
  Command.encode_body := encode_body; Command.decode_body := decode_body
|}.

#[global] Instance wire : Wire t := {|
  valid c := string_ok (virtual_host c);
  enc_body c := enc_string (virtual_host c);
  variant := fun _ _ => False
|}.

End OpenRequest.

Module OpenResponse.

Record t := Mk { response_code : Z; connection_properties : list KeyValue }.

Definition kKey : Z := key.response_of key.Open.
Definition kVersion : Z := 1.

Definition encode_body (c : t) (w : BufferWriter) : BufferWriter :=
  let w := write_u16 w (response_code c) in
  encode_kv_array w (connection_properties c).

(** The properties may be missing, as some brokers omit them on failure. *)
Definition decode_body : Decoder t :=
  rc ← read_u16;
  e ← inspect Reader.empty;
  if e : bool then mret (Mk rc [])
  else
    kvs ← decode_kv_array;
    mret (Mk rc kvs).

#[global] Instance command : Command t := {|
  Command.kKey := kKey; Command.kVersion := kVersion;
  Command.encode_body := encode_body; Command.decode_body := decode_body
|}.

#[global] Instance wire : Wire t := {|
  valid c := in_u 16 (response_code c) /\ array_ok kv_ok (connection_properties c);
  enc_body c := be_encode 2 (response_code c) ++ enc_array enc_kv (connection_properties c);
  variant := fun bs c => connection_properties c = [] /\ bs = be_encode 2 (response_code c)
|}.

End OpenResponse.

Module CloseRequest.

Record t := Mk { closing_code : Z; closing_reason : std_string }.

Definition kKey : Z := key.Close.
Definition kVersion : Z := 1.

Definition encode_body (c : t) (w : BufferWriter) : BufferWriter :=
  let w := write_u16 w (closing_code c) in
  write_string w (closing_reason c).

Definition decode_body : Decoder t :=
  rc ← read_u16;
  reason ← read_string_required;
  mret (Mk rc reason).

#[global] Instance command : Command t := {|
  Command.kKey := kKey; Command.kVersion := kVersion;
  Command.encode_body := encode_body; Command.decode_body := decode_body
|}.

#[global] Instance wire : Wire t := {|
  valid c := in_u 16 (closing_code c) /\ string_ok (closing_reason c);
  enc_body c := be_encode 2 (closing_code c) ++ enc_string (closing_reason c);
  variant := fun _ _ => False
|}.

End CloseRequest.

Module CloseResponse.

Record t := Mk { response_code : Z }.

Definition kKey : Z := key.response_of key.Close.
Definition kVersion : Z := 1.

Definition encode_body (c : t) (w : BufferWriter) : BufferWriter :=
  write_u16 w (response_code c).

Definition decode_body : Decoder t :=
  rc ← read_u16;
  mret (Mk rc).

#[global] Instance command : Command t := {|
  Command.kKey := kKey; Command.kVersion := kVersion;
  Command.encode_body := encode_body; Command.decode_body := decode_body
|}.

#[global] Instance wire : Wire t := {|
  valid c := in_u 16 (response_code c);
  enc_body c := be_encode 2 (response_code c);
  variant := fun _ _ => False
|}.

End CloseResponse.

Module Heartbeat.

Record t := Mk { }.

Definition kKey : Z := key.Heartbeat.
Definition kVersion : Z := 1.

Definition encode_body (c : t) (w : BufferWriter) : BufferWriter := w.

Definition decode_body : Decoder t := mret Mk.

#[global] Instance command : Command t := {|
  Command.kKey := kKey; Command.kVersion := kVersion;
  Command.encode_body := encode_body; Command.decode_body := decode_body
|}.

#[global] Instance wire : Wire t := {|
  valid c := True;
  enc_body c := [];
  variant := fun _ _ => False
|}.

End Heartbeat.

(** ** The laws of the commands *)

#[export] Instance peer_properties_request_laws : CommandLaws PeerPropertiesRequest.t.
Proof. command_laws. Qed.

#[export] Instance peer_properties_response_laws : CommandLaws PeerPropertiesResponse.t.
Proof. command_laws. Qed.

#[export] Instance sasl_handshake_request_laws : CommandLaws SaslHandshakeRequest.t.
Proof. command_laws. Qed.

#[export] Instance tune_laws : CommandLaws Tune.t.
Proof. command_laws. Qed.

#[export] Instance open_request_laws : CommandLaws OpenRequest.t.
Proof. command_laws. Qed.

#[export] Instance close_request_laws : CommandLaws CloseRequest.t.
Proof. command_laws. Qed.

#[export] Instance close_response_laws : CommandLaws CloseResponse.t.
Proof. command_laws. Qed.

#[export] Instance heartbeat_laws : CommandLaws Heartbeat.t.
Proof. command_laws. Qed.

#[export] Instance sasl_handshake_response_laws : CommandLaws SaslHandshakeResponse.t.
Proof.
  constructor; [decided|decided|laws_bytes| | | ].
  - intros [rc ms] w [Hrc Hms]. open_body.
    etransitivity; [apply (write_array_enc _ string_ok enc_string); auto using write_string_ok|].
    autorewrite with enc. by rewrite <- app_assoc.
  - intros [rc ms] [Hrc Hms]. open_body. cbn in *.
    eapply parses_bind; [by apply parses_u16|]. apply parses_assoc.
    eapply parses_map; [|done]. apply (parses_array _ string_ok); auto with parses.
  - open_body. step_dspec. apply dspec_assoc.
    eapply dspec_map; [apply (dspec_array _ string_ok), dspec_string_required|].
    intros bs' ms [-> Hms]. destruct Hacc as [-> Hrc]. auto.
Qed.

#[export] Instance sasl_authenticate_request_laws : CommandLaws SaslAuthenticateRequest.t.
Proof.
  constructor; [decided|decided|laws_bytes| | | ].
  - intros [m data] w [Hm Hd]. open_body. cbn in *.
    rewrite write_string_ok, write_bytes_raw_enc, app_assoc by (done || apply Hd). done.
  - intros [m data] [Hm Hd]. open_body. cbn in *.
    eapply parses_bind; [by apply parses_string_required|].
    eapply parses_map; [by apply parses_bytes|done].
  - open_body. step_dspec. eapply dspec_map; [apply dspec_bytes|]. cbn.
    destruct Hacc as [-> Hm]. intros bs' [data|] Hd; cbn in *.
    + destruct Hd as [-> Hd]. auto.
    + subst bs'. split; [split; [done|decided]|]. by right.
Qed.

#[export] Instance sasl_authenticate_response_laws : CommandLaws SaslAuthenticateResponse.t.
Proof.
  constructor; [decided|decided| | | | ].
  - intros [rc [data|]] [Hrc Hd]; cbn in *; apply is_bytes_app; split; auto with wf. decided.
  - intros [rc [data|]] w [Hrc Hd]; open_body; cbn in *; autorewrite with enc.
    + unfold write_bytes. rewrite write_bytes_raw_enc, <- app_assoc by apply Hd. done.
    + by rewrite <- app_assoc.
  - intros [rc data] [Hrc Hd]. open_body. cbn in *.
    eapply parses_bind; [by apply parses_u16|].
    destruct data as [data|]; cbn in *.
    + apply parses_not_empty; [by destruct (enc_bytes data) eqn:E|].
      eapply parses_map; [by apply parses_bytes|done].
    + apply parses_not_empty; [done|]. eapply parses_map; [apply parses_bytes_null|done].
  - open_body. step_dspec. destruct Hacc as [-> Hrc].
    eapply dspec_bind; [apply dspec_inspect|]. intros bs' e ->. destruct e.
    + eapply dspec_conseq; [apply dspec_ret| |done]. intros ? ? [-> ->]. cbn.
      rewrite app_nil_r. auto.
    + eapply dspec_map; [apply dspec_bytes|]. cbn. intros bs [data|] Hd; cbn in *.
      * destruct Hd as [-> Hd]. auto.
      * subst bs. auto.
Qed.

#[export] Instance open_response_laws : CommandLaws OpenResponse.t.
Proof.
  constructor; [decided|decided|laws_bytes|laws_encode| | ].
  - intros [rc kvs] [Hrc Hkv]. open_body. cbn in *.
    eapply parses_bind; [by apply parses_u16|].
    apply parses_not_empty; [done|]. eapply parses_map; [by apply parses_kv_array|done].
  - open_body. step_dspec. destruct Hacc as [-> Hrc].
    eapply dspec_bind; [apply dspec_inspect|]. intros bs' e ->. destruct e.
    + eapply dspec_conseq; [apply dspec_ret| |done]. intros ? ? [-> ->]. cbn.
      rewrite app_nil_r. split; [split; [done|decided]|]. by right.
    + eapply dspec_map; [apply dspec_kv_array|]. cbn. intros bs kvs [-> Hkv]. auto.
Qed.
