(* ===== verification/LifecycleCommands.v ===== *)
(** * Stream lifecycle commands: [commands/lifecycle.hpp]

    One module per struct, as in [HandshakeCommands]. *)

From S2P Require Import Prelude Errors Buffer Codec Frame Command.

Local Open Scope Z_scope.

Abbreviation Argument := (list Z * list Z)%type (only parsing).

Module CreateRequest.

Record t := Mk { stream : std_string; arguments : list Argument }.

Definition kKey : Z := key.Create.
Definition kVersion : Z := 1.

Definition encode_body (c : t) (w : BufferWriter) : BufferWriter :=
  let w := write_string w (stream c) in
  let w := write_array_prefix w (swrap 32 (zlen (arguments c))) in
  fold_left (fun w (a : Argument) => let w := write_string w a.1 in write_string w a.2)
    (arguments c) w.

(** The body of the loop over the arguments. *)
Definition decode_argument : Decoder Argument :=
  k ← read_string_required;
  v ← read_string_required;
  mret (k, v).

Definition decode_body : Decoder t :=
  s ← read_string_required;
  count ← read_array_prefix;
  arguments ← for_loop count (fun out => a ← decode_argument; mret (out ++ [a])) [];
  mret (Mk s arguments).

#[global] Instance command : Command t := {|
  Command.kKey := kKey; Command.kVersion := kVersion;
  Command.encode_body := encode_body; Command.decode_body := decode_body
|}.

#[global] Instance wire : Wire t := {|
  valid c := string_ok (stream c) /\ array_ok kv_ok (arguments c);
  enc_body c := enc_string (stream c) ++ enc_array enc_kv (arguments c);
  variant := fun _ _ => False
|}.

End CreateRequest.

Module CreateResponse.

Record t := Mk { response_code : Z }.

Definition kKey : Z := key.response_of key.Create.
Definition kVersion : Z := 1.

Definition encode_body (c : t) (w : BufferWriter) : BufferWriter :=
  write_u16 w (response_code c).

Definition decode_body : Decoder t :=
  rc ← read_u16;
  mret (Mk rc).

#[global] Instance command : Command t := {|
  Command.kKey := kKey; Command.kVersion := kVersion;
  Command.encode_body := encode_body; Command.decode_body := decode_body
|}.

#[global] Instance wire : Wire t := {|
  valid c := in_u 16 (response_code c);
  enc_body c := be_encode 2 (response_code c);
  variant := fun _ _ => False
|}.

End CreateResponse.

Module DeleteRequest.

Record t := Mk { stream : std_string }.

Definition kKey : Z := key.Delete.
Definition kVersion : Z := 1.

Definition encode_body (c : t) (w : BufferWriter) : BufferWriter :=
  write_string w (stream c).

Definition decode_body : Decoder t :=
  s ← read_string_required;
  mret (Mk s).

#[global] Instance command : Command t := {|
  Command.kKey := kKey; Command.kVersion := kVersion;
  Command.encode_body := encode_body; Command.decode_body := decode_body
|}.

#[global] Instance wire : Wire t := {|
  valid c := string_ok (stream c);
  enc_body c := enc_string (stream c);
  variant := fun _ _ => False
|}.

End DeleteRequest.

Module DeleteResponse.

Record t := Mk { response_code : Z }.

Definition kKey : Z := key.response_of key.Delete.
Definition kVersion : Z := 1.

Definition encode_body (c : t) (w : BufferWriter) : BufferWriter :=
  write_u16 w (response_code c).

Definition decode_body : Decoder t :=
  rc ← read_u16;
  mret (Mk rc).

#[global] Instance command : Command t := {|
  Command.kKey := kKey; Command.kVersion := kVersion;
  Command.encode_body := encode_body; Command.decode_body := decode_body
|}.

#[global] Instance wire : Wire t := {|
  valid c := in_u 16 (response_code c);
  enc_body c := be_encode 2 (response_code c);
  variant := fun _ _ => False
|}.

End DeleteResponse.

Module StoreOffset.

Record t := Mk { reference : std_string; stream : std_string; offset : Z }.

Definition kKey : Z := key.StoreOffset.
Definition kVersion : Z := 1.

Definition encode_body (c : t) (w : BufferWriter) : BufferWriter :=
  let w := write_string w (reference c) in
  let w := write_string w (stream c) in
  write_u64 w (offset c).

Definition decode_body : Decoder t :=
  ref ← read_string_required;
  str ← read_string_required;
  off ← read_u64;
  mret (Mk ref str off).

#[global] Instance command : Command t := {|
  Command.kKey := kKey; Command.kVersion := kVersion;
  Command.encode_body := encode_body; Command.decode_body := decode_body
|}.

#[global] Instance wire : Wire t := {|
  valid c := string_ok (reference c) /\ string_ok (stream c) /\ in_u 64 (offset c);
  enc_body c := enc_string (reference c) ++ enc_string (stream c) ++ be_encode 8 (offset c);
  variant := fun _ _ => False
|}.

End StoreOffset.

Module QueryOffsetRequest.

Record t := Mk { reference : std_string; stream : std_string }.

Definition kKey : Z := key.QueryOffset.
Definition kVersion : Z := 1.

Definition encode_body (c : t) (w : BufferWriter) : BufferWriter :=
  let w := write_string w (reference c) in
  write_string w (stream c).

Definition decode_body : Decoder t :=
  ref ← read_string_required;
  str ← read_string_required;
  mret (Mk ref str).

#[global] Instance command : Command t := {|
  Command.kKey := kKey; Command.kVersion := kVersion;
  Command.encode_body := encode_body; Command.decode_body := decode_body
|}.

#[global] Instance wire : Wire t := {|
  valid c := string_ok (reference c) /\ string_ok (stream c);
  enc_body c := enc_string (reference c) ++ enc_string (stream c);
  variant := fun _ _ => False
|}.

End QueryOffsetRequest.

Module QueryOffsetResponse.

Record t := Mk { response_code : Z; offset : Z }.

Definition kKey : Z := key.response_of key.QueryOffset.
Definition kVersion : Z := 1.

Definition encode_body (c : t) (w : BufferWriter) : BufferWriter :=
  let w := write_u16 w (response_code c) in
  write_u64 w (offset c).

Definition decode_body : Decoder t :=
  rc ← read_u16;
  off ← read_u64;
  mret (Mk rc off).

#[global] Instance command : Command t := {|
  Command.kKey := kKey; Command.kVersion := kVersion;
  Command.encode_body := encode_body; Command.decode_body := decode_body
|}.

#[global] Instance wire : Wire t := {|
  valid c := in_u 16 (response_code c) /\ in_u 64 (offset c);
  enc_body c := be_encode 2 (response_code c) ++ be_encode 8 (offset c);
  variant := fun _ _ => False
|}.

End QueryOffsetResponse.

Module QueryPublisherRequest.

Record t := Mk { publisher_reference : std_string; stream : std_string }.

Definition kKey : Z := key.QueryPublisherSequence.
Definition kVersion : Z := 1.

Definition encode_body (c : t) (w : BufferWriter) : BufferWriter :=
  let w := write_string w (publisher_reference c) in
  write_string w (stream c).

Definition decode_body : Decoder t :=
  ref ← read_string_required;
  str ← read_string_required;
  mret (Mk ref str).

#[global] Instance command : Command t := {|
  Command.kKey := kKey; Command.kVersion := kVersion;
  Command.encode_body := encode_body; Command.decode_body := decode_body
|}.

#[global] Instance wire : Wire t := {|
  valid c := string_ok (publisher_reference c) /\ string_ok (stream c);
  enc_body c := enc_string (publisher_reference c) ++ enc_string (stream c);
  variant := fun _ _ => False
|}.

End QueryPublisherRequest.

Module QueryPublisherResponse.

Record t := Mk { response_code : Z; sequence : Z }.

Definition kKey : Z := key.response_of key.QueryPublisherSequence.
Definition kVersion : Z := 1.

Definition encode_body (c : t) (w : BufferWriter) : BufferWriter :=
  let w := write_u16 w (response_code c) in
  write_u64 w (sequence c).

Definition decode_body : Decoder t :=
  rc ← read_u16;
  seq ← read_u64;
  mret (Mk rc seq).

#[global] Instance command : Command t := {|
  Command.kKey := kKey; Command.kVersion := kVersion;
  Command.encode_body := encode_body; Command.decode_body := decode_body
|}.

#[global] Instance wire : Wire t := {|
  valid c := in_u 16 (response_code c) /\ in_u 64 (sequence c);
  enc_body c := be_encode 2 (response_code c) ++ be_encode 8 (sequence c);
  variant := fun _ _ => False
|}.

End QueryPublisherResponse.

(** ** The laws of the commands *)

#[export] Instance create_request_laws : CommandLaws CreateRequest.t.
Proof.
  constructor; [decided|decided|laws_bytes| | | ].
  - intros [s args] w [Hs Hargs]. change (encode_kv_array (write_string w s) args
      = w ++ enc_string s ++ enc_array enc_kv args).
    by rewrite encode_kv_array_enc, write_string_ok, <- app_assoc.
  - intros [s args] [Hs Hargs]. open_body. cbn in *.
    eapply parses_bind; [by apply parses_string_required|]. apply parses_assoc.
    eapply parses_map; [|done]. by apply parses_kv_array.
  - open_body. step_dspec. apply dspec_assoc. destruct Hacc as [-> Hs].
    eapply dspec_map; [apply dspec_kv_array|]. intros bs' args [-> Hargs]. auto.
Qed.

#[export] Instance create_response_laws : CommandLaws CreateResponse.t.
Proof. command_laws. Qed.

#[export] Instance delete_request_laws : CommandLaws DeleteRequest.t.
Proof. command_laws. Qed.

#[export] Instance delete_response_laws : CommandLaws DeleteResponse.t.
Proof. command_laws. Qed.

#[export] Instance store_offset_laws : CommandLaws StoreOffset.t.
Proof. command_laws. Qed.

#[export] Instance query_offset_request_laws : CommandLaws QueryOffsetRequest.t.
Proof. command_laws. Qed.

#[export] Instance query_offset_response_laws : CommandLaws QueryOffsetResponse.t.
Proof. command_laws. Qed.

#[export] Instance query_publisher_request_laws : CommandLaws QueryPublisherRequest.t.
Proof. command_laws. Qed.

#[export] Instance query_publisher_response_laws : CommandLaws QueryPublisherResponse.t.
Proof. command_laws. Qed.
