(* ===== verification/Allocation.v ===== *)
(** * How much memory a decoder asks for

    The decoders of arrays [reserve] room for the count in front of the array before
    they read an element.  Here they are once more, with that step: [reserve] throws
    [std::bad_alloc] when the allocator does not grant the room, which no caller in
    the library catches.  The allocations of single strings, of at most 32767 bytes
    each, are taken to succeed. *)

From S2P Require Import Prelude Errors Buffer Codec Frame Command HandshakeCommands LifecycleCommands.

Local Open Scope Z_scope.

(** ** Decoders that allocate *)

(** A call returns a result, or throws [std::bad_alloc] in a [reserve] of so many
    elements. *)
Inductive Outcome (A : Type) :=
  | Returned (r : Result A)
  | BadAlloc (count : Z).
Arguments Returned {A}.
Arguments BadAlloc {A}.

Definition Allocating (A : Type) : Type := BufferReader -> Outcome A * BufferReader.

#[export] Instance allocating_ret : MRet Allocating := fun A x r => (Returned (ok x), r).
#[export] Instance allocating_bind : MBind Allocating := fun A B k d r =>
  match d r with
  | (Returned (ok x), r) => k x r
  | (Returned (err e), r) => (Returned (err e), r)
  | (BadAlloc n, r) => (BadAlloc n, r)
  end.

(** A part of a decoder that reserves nothing. *)
Definition reading {A} (d : Decoder A) : Allocating A := fun r => (Returned (fst (d r)), snd (d r)).

Section decoders.

(** Does the allocator grant room for so many elements? *)
Variable grants : Z -> bool.

(** [reserve(static_cast<std::size_t>(count))]; the count is below 2^31, so that
    [max_size] is not exceeded. *)
Definition reserve (count : Z) : Allocating unit := fun r =>
  if grants (wrap 64 count) then (Returned (ok tt), r) else (BadAlloc (wrap 64 count), r).

(** [decode_kv_array]. *)
Definition reserving_kv_array : Allocating (list KeyValue) :=
  count ← reading read_array_prefix;
  _ ← reserve count;
  reading (for_loop count (fun out => kv ← decode_kv; mret (out ++ [kv])) []).

(** [SaslHandshakeResponse::decode_body]. *)
Definition reserving_sasl_handshake_response : Allocating SaslHandshakeResponse.t :=
  rc ← reading read_u16;
  count ← reading read_array_prefix;
  _ ← reserve count;
  mechanisms ← reading (for_loop count (fun out => s ← read_string_required; mret (out ++ [s])) []);
  mret (SaslHandshakeResponse.Mk rc mechanisms).

(** [CreateRequest::decode_body]. *)
Definition reserving_create_request : Allocating CreateRequest.t :=
  s ← reading read_string_required;
  count ← reading read_array_prefix;
  _ ← reserve count;
  arguments ← reading (for_loop count (fun out => a ← CreateRequest.decode_argument; mret (out ++ [a])) []);
  mret (CreateRequest.Mk s arguments).

(** ** What they do

    The decoder [a] is [d], of the other files, but for its [reserve] of the [count]
    elements that the buffer declares, once it has read that count.  When [d]
    succeeds its elements are as many as were reserved, and each took at least [per]
    bytes of the buffer, after at least [header] bytes. *)
Definition reserves {A} (a : Allocating A) (d : Decoder A) (count : Decoder Z) (elements : A -> Z)
  (header per : Z) (r : BufferReader) : Prop :=
  fst (a r) =
    match fst (count r) with
    | ok n => if grants n then Returned (fst (d r)) else BadAlloc n
    | err _ => Returned (fst (d r))
    end /\
  (forall n, fst (count r) = ok n -> 0 <= n < 2 ^ 31) /\
  (forall x, fst (d r) = ok x ->
     fst (count r) = ok (elements x) /\ header + per * elements x <= Reader.remaining r).

Section arrays.
Context {A B C : Type} (pre : Decoder A) (loop : Z -> Decoder (list B)) (k : A -> list B -> C) (elements : C -> Z).
Context (Ppre : bytes -> A -> Prop) (P : bytes -> B -> Prop) (header per : Z).
Hypothesis Hpre : dspec pre Ppre decode_error.
Hypothesis Hheader : forall bs x, Ppre bs x -> header <= zlen bs.
Hypothesis Hloop : forall count,
  dspec (loop count)
    (fun bs xs => exists bss, bs = concat bss /\ length xs = Z.to_nat count /\ Forall2 P bss xs) decode_error.
Hypothesis Hper : forall bs x, P bs x -> per <= zlen bs.
Hypothesis Hk : forall x xs, elements (k x xs) = zlen xs.

Lemma elements_size bss xs : Forall2 P bss xs -> per * zlen xs <= zlen (concat bss).
Proof.
  induction 1 as [|bs x bss xs H _ IH]; [unfold zlen; cbn; lia|]. apply Hper in H. cbn [concat]. zlen.
Qed.

Lemma array_reserves r :
  reader_wf r ->
  reserves (x ← reading pre; count ← reading read_array_prefix; _ ← reserve count;
            xs ← reading (loop count); mret (k x xs))
    (x ← pre; count ← read_array_prefix; xs ← loop count; mret (k x xs))
    (_ ← pre; read_array_prefix) elements (header + 4) per r.
Proof.
  intros Hr. unfold reserves, mbind, allocating_bind, decoder_bind, reading, mret, allocating_ret, decoder_ret, reserve.
  destruct (Hpre r Hr) as [Hl1 H1]. destruct (pre r) as [[x|e] r1]; cbn [fst snd] in *; [|naive_solver].
  apply Hheader in H1. destruct (dspec_array_prefix r1 (proj1 Hl1)) as [Hl2 H2].
  destruct (read_array_prefix r1) as [[n|e] r2]; cbn [fst snd] in *; [|naive_solver]. destruct H2 as [H2 Hn].
  rewrite wrap_small by range.
  destruct (Hloop n r2 (proj1 Hl2)) as [Hl3 H3].
  destruct (loop n r2) as [[xs|e] r3] eqn:E; cbn [fst snd] in *;
    (split; [destruct (grants n); [cbn; by rewrite E|done]|]; split; [by intros ? [= <-]|]); [|done].
  intros y [= <-]. rewrite Hk. destruct H3 as (bss & Hb & Hlen & HF).
  replace (zlen xs) with n by (unfold zlen; lia). split; [done|].
  apply elements_size in HF. rewrite <- Hb in HF.
  pose proof (consumed_length _ _ Hl1 Hr) as L1. pose proof (consumed_length _ _ Hl2 (proj1 Hl1)) as L2.
  pose proof (consumed_length _ _ Hl3 (proj1 Hl2)) as L3. rewrite H2, zlen_be_encode in L2.
  assert (Hz : zlen xs = n) by (unfold zlen; lia). rewrite Hz in HF. rewrite remaining_wf by done.
  destruct Hl1 as (_ & _ & S1 & _), Hl2 as (_ & _ & S2 & _), Hl3 as ((_ & _ & S3 & _) & _ & S3' & _). lia.
Qed.
End arrays.

Lemma loop_spec {B} (elem : Decoder B) P count :
  dspec elem P decode_error ->
  dspec (for_loop count (fun out => x ← elem; mret (out ++ [x])) [])
    (fun bs xs => exists bss, bs = concat bss /\ length xs = Z.to_nat count /\ Forall2 P bss xs) decode_error.
Proof.
  intros He. eapply dspec_conseq; [by apply dspec_for_loop| |done].
  intros bs ys (xs & bss & -> & H). by exists bss.
Qed.

(** [reserves] looks at the results only. *)
Lemma reserves_ext {A} (a a' : Allocating A) d d' count count' elements header per r :
  fst (a' r) = fst (a r) -> fst (d' r) = fst (d r) -> fst (count' r) = fst (count r) ->
  reserves a d count elements header per r -> reserves a' d' count' elements header per r.
Proof. unfold reserves. by intros -> -> ->. Qed.

Lemma enc_string_size s : 2 <= zlen (enc_string s).
Proof. unfold enc_string. pose proof (zlen_nonneg s). zlen. Qed.

Lemma enc_kv_size kv : 4 <= zlen (enc_kv kv).
Proof. pose proof (enc_string_size kv.1). pose proof (enc_string_size kv.2). unfold enc_kv. zlen. Qed.

Lemma kv_array_reserves r :
  reader_wf r -> reserves reserving_kv_array decode_kv_array read_array_prefix zlen 4 4 r.
Proof.
  intros Hr. eapply reserves_ext;
    [..|apply (array_reserves (mret tt) (fun n => for_loop n (fun out => kv ← decode_kv; mret (out ++ [kv])) []) (fun _ xs => xs) zlen (fun bs x => bs = [] /\ x = tt)
           (fun bs kv => bs = enc_kv kv /\ kv_ok kv) 0 4)]; try done.
  - unfold reserving_kv_array, mbind, allocating_bind, reading, mret, allocating_ret, decoder_ret, reserve. cbn [fst snd].
    destruct (read_array_prefix r) as [[n|e] r1]; [|done]. cbn [fst snd]. destruct (grants _); [|done].
    by destruct (for_loop _ _ _ r1) as [[xs|e] r2].
  - unfold decode_kv_array, mbind, decoder_bind, mret, decoder_ret.
    destruct (read_array_prefix r) as [[n|e] r1]; [|done]. by destruct (for_loop _ _ _ r1) as [[xs|e] r2].
  - apply dspec_ret.
  - by intros bs x [-> _].
  - intros n. apply loop_spec, dspec_kv.
  - intros bs kv [-> _]. apply enc_kv_size.
Qed.

Lemma sasl_handshake_response_reserves r :
  reader_wf r ->
  reserves reserving_sasl_handshake_response SaslHandshakeResponse.decode_body
    (_ ← read_u16; read_array_prefix) (fun resp => zlen (SaslHandshakeResponse.mechanisms resp)) 6 2 r.
Proof.
  apply (array_reserves read_u16 (fun n => for_loop n (fun out => s ← read_string_required; mret (out ++ [s])) [])
     SaslHandshakeResponse.Mk _ (accepts_u 2) accepts_string 2 2);
    [apply dspec_u16|intros bs x [-> _]; by rewrite zlen_be_encode|intros n; apply loop_spec, dspec_string_required| |done].
  intros bs s [-> _]. apply enc_string_size.
Qed.

Lemma create_request_reserves r :
  reader_wf r ->
  reserves reserving_create_request CreateRequest.decode_body
    (_ ← read_string_required; read_array_prefix) (fun req => zlen (CreateRequest.arguments req)) 6 4 r.
Proof.
  apply (array_reserves read_string_required
    (fun n => for_loop n (fun out => a ← CreateRequest.decode_argument; mret (out ++ [a])) [])
    CreateRequest.Mk _ accepts_string
    (fun bs kv => bs = enc_kv kv /\ kv_ok kv) 2 4);
    [apply dspec_string_required|intros bs s [-> _]; apply enc_string_size|intros n; apply loop_spec, dspec_kv| |done].
  intros bs kv [-> _]. apply enc_kv_size.
Qed.
End decoders.

(** ** A body that ends after the count *)

(** What a decoder does that has read a count and has nothing left. *)
Definition asks_then_fails {A} (grants : Z -> bool) (n : Z) (o : Outcome A) : Prop :=
  if grants n then exists e, o = Returned (err e) /\ kind e = Kind.DecodeError else o = BadAlloc n.

Lemma count_only_asks {A} grants (a : Allocating A) d count elements header per n bs P :
  reserves grants a d count elements header per (reader_of bs) -> dspec d P decode_error ->
  is_bytes bs -> zlen bs <= header < 2 ^ 32 ->
  fst (count (reader_of bs)) = ok n -> 0 < n -> 0 < per -> asks_then_fails grants n (fst (a (reader_of bs))).
Proof.
  intros (-> & _ & Hok) Hd Hb Hlen Hc Hn Hper. unfold asks_then_fails. rewrite Hc. destruct (grants n); [|done].
  assert (Hr : reader_wf (reader_of bs)) by (apply reader_of_wf; [done|pose proof (zlen_nonneg bs); range]).
  destruct (Hd _ Hr) as [_ Herr]. destruct (fst (d _)) as [x|e] eqn:E; [|by exists e].
  destruct (Hok x eq_refl) as (Hc' & Hl). rewrite Hc in Hc'. injection Hc' as ->.
  rewrite <- at_start, remaining_at in Hl; rewrite ?app_nil_l in *; nia.
Qed.

Lemma sasl_handshake_response_spec :
  dspec SaslHandshakeResponse.decode_body
    (fun bs c => valid c /\ (bs = enc_body c \/ variant bs c)) decode_error.
Proof. exact (decode_body_spec (C := SaslHandshakeResponse.t)). Qed.

Lemma count_read {A} (pre : Decoder A) bs x n :
  parses pre bs x -> zlen bs < 2 ^ 32 -> 0 <= n < 2 ^ 31 ->
  fst ((_ ← pre; read_array_prefix) (reader_of (bs ++ be_encode 4 n))) = ok n.
Proof.
  intros Hp Hl Hn. assert (Hc : parses (_ ← pre; read_array_prefix) (bs ++ be_encode 4 n) n).
  { eapply parses_bind; [exact Hp|]. by apply parses_array_prefix. }
  apply parses_is_last in Hc. specialize (Hc []). rewrite at_start in Hc. rewrite Hc; [done|].
  rewrite app_nil_l. pose proof (zlen_nonneg bs). rewrite zlen_app, zlen_be_encode. lia.
Qed.

(** ** Properties *)

(** C35.  The memory for an array.  Each of the three decoders of arrays (key/value
    pairs, mechanisms, the arguments of a stream) reads the declared count, reserves
    that many elements, and is otherwise the decoder of the other theorems: it
    throws [std::bad_alloc] just if the reservation is not granted.  When the array
    is decoded, the number that was reserved is the number of elements read, and
    each took at least four (for mechanisms two) bytes of the buffer.  But the
    reservation comes first: for every count above zero and below 2^31, a body that
    consists of the count alone (for mechanisms, after a response code) makes the
    decoder ask for that many elements; if they are granted it then fails with a
    [DecodeError], else it throws. *)
Theorem decoding_memory (grants : Z -> bool) (r : BufferReader) (n rc : Z)
  (Hr : reader_wf r) (Hn : 0 < n < 2 ^ 31) (Hrc : in_u 16 rc) :
  reserves grants (reserving_kv_array grants) decode_kv_array read_array_prefix zlen 4 4 r /\
  reserves grants (reserving_sasl_handshake_response grants) SaslHandshakeResponse.decode_body
    (_ ← read_u16; read_array_prefix) (fun resp => zlen (SaslHandshakeResponse.mechanisms resp)) 6 2 r /\
  reserves grants (reserving_create_request grants) CreateRequest.decode_body
    (_ ← read_string_required; read_array_prefix) (fun req => zlen (CreateRequest.arguments req)) 6 4 r /\
  asks_then_fails grants n (fst (reserving_kv_array grants (reader_of (be_encode 4 n)))) /\
  asks_then_fails grants n
    (fst (reserving_sasl_handshake_response grants (reader_of (be_encode 2 rc ++ be_encode 4 n)))).
Proof.
  split; [by apply kv_array_reserves|]. split; [by apply sasl_handshake_response_reserves|].
  split; [by apply create_request_reserves|]. split.
  - eapply count_only_asks; [apply kv_array_reserves|apply dspec_kv_array|apply be_encode_bytes|..|lia|lia].
    + apply reader_of_wf; [apply be_encode_bytes|rewrite zlen_be_encode; range].
    + rewrite zlen_be_encode. lia.
    + refine (count_read (mret tt) [] tt n (parses_ret tt) _ _); [unfold zlen; cbn|]; lia.
  - eapply count_only_asks; [apply sasl_handshake_response_reserves|exact sasl_handshake_response_spec
      |apply is_bytes_app; split; apply be_encode_bytes|..|lia|lia].
    + apply reader_of_wf; [apply is_bytes_app; split; apply be_encode_bytes|rewrite zlen_app, !zlen_be_encode; range].
    + rewrite zlen_app, !zlen_be_encode. lia.
    + apply (count_read read_u16 _ rc); [by apply parses_u16|rewrite zlen_be_encode; lia|lia].
Qed.

(** An allocator with room for a million elements, and the largest count; and a body
    of one pair. *)
Lemma decoding_memory_witness :
  let grants := fun n => n <=? 1000000 in
  let body := enc_array enc_kv [(lit "version", lit "3.13.1")] in
  fst (reserving_kv_array grants (reader_of body)) = Returned (ok [(lit "version", lit "3.13.1")]) /\
  fst (reserving_kv_array grants (reader_of (be_encode 4 2147483647))) = BadAlloc 2147483647 /\
  fst (reserving_sasl_handshake_response grants (reader_of (be_encode 2 1 ++ be_encode 4 2147483647)))
  = BadAlloc 2147483647.
Proof.
  cbn zeta. set (r := reader_of _). assert (Hr : reader_wf r) by (apply reader_of_wf; decided).
  destruct (decoding_memory (fun n => n <=? 1000000) r 2147483647 1 Hr ltac:(lia) ltac:(range))
    as ((H1 & _) & _ & _ & H2 & H3).
  split; [rewrite H1; vm_compute; reflexivity|]. split; [exact H2|exact H3].
Defined.
