(* ===== verification/Commands.v ===== *)
(** * The command set: what holds of every command of the client

    The commands of [HandshakeCommands] and [LifecycleCommands], as one list, and
    the two properties all of them share: what is encoded is decoded, alone and
    inside a frame, and decoding is total on arbitrary bytes. *)

From S2P Require Import Prelude Errors Buffer Codec Frame Command HandshakeCommands.
From S2P Require Import LifecycleCommands.

Local Open Scope Z_scope.

(** A command type, with its constants, its codec and its wire form. *)
Record AnyCommand := MkAnyCommand {
  any_type : Type;
  any_command :: Command any_type;
  any_wire :: Wire any_type
}.
Abbreviation any C := (MkAnyCommand C _ _) (only parsing).

Definition all_commands : list AnyCommand := [
  any PeerPropertiesRequest.t; any PeerPropertiesResponse.t;
  any SaslHandshakeRequest.t; any SaslHandshakeResponse.t;
  any SaslAuthenticateRequest.t; any SaslAuthenticateResponse.t;
  any Tune.t; any OpenRequest.t; any OpenResponse.t;
  any CloseRequest.t; any CloseResponse.t; any Heartbeat.t;
  any CreateRequest.t; any CreateResponse.t; any DeleteRequest.t; any DeleteResponse.t;
  any StoreOffset.t; any QueryOffsetRequest.t; any QueryOffsetResponse.t;
  any QueryPublisherRequest.t; any QueryPublisherResponse.t
].

Lemma all_commands_laws : Forall (fun a => CommandLaws (any_type a)) all_commands.
Proof. repeat (apply Forall_cons; split; [apply _|]). by apply Forall_nil. Qed.

(** How a command crosses the wire: as a response, with the correlation id of its
    request; without an id; or as a request, whose id stands before its body. *)
Inductive Direction := Response | OneWay | Request.

Definition direction (k : Z) : Direction :=
  if key.is_response k then Response
  else if bool_decide (k ∈ [key.Tune; key.StoreOffset; key.Heartbeat]) then OneWay
  else Request.

(** What the receiver of a request reads in the body of its frame. *)
Definition read_request (C : Type) `{Command C} : Decoder (Z * C) :=
  cid ← read_u32; c ← decode_body; mret (cid, c).

(** A value, put by the encoder into the frame of its direction and read by the frame
    parser, is the value the decoder makes of the frame's body. *)
Definition travels (a : AnyCommand) : Prop :=
  forall (c : any_type a) (cid : Z),
    valid c -> in_u 32 cid -> zlen (body_of c) < 2 ^ 32 - 8 ->
    let k := kKey (any_type a) in
    let v := kVersion (any_type a) in
    let received frame := fst (read_frame_auto (reader_of frame)) in
    fst (decode_body (reader_of (body_of c))) = ok c /\
    match direction k with
    | Response => received (encode_request_frame k v cid (body_of c)) = ok (MkFrame k v (body_of c) (Some cid))
    | OneWay => received (encode_oneway_frame k v (body_of c)) = ok (MkFrame k v (body_of c) None)
    | Request =>
        exists body, received (encode_request_frame k v cid (body_of c)) = ok (MkFrame k v body None) /\
          fst (read_request (any_type a) (reader_of body)) = ok (cid, c)
    end.

(** On arbitrary bytes the decoder returns a valid value and has consumed
    exactly its wire form (or a tolerated variant), or fails with [DecodeError]. *)
Definition decodes_safely (a : AnyCommand) : Prop :=
  forall r, reader_wf r ->
    let (res, r') := @decode_body (any_type a) _ r in
    data_ r' = data_ r /\ pos_ r <= pos_ r' <= size_ r /\
    match res with
    | ok c => valid c /\ (consumed r r' = enc_body c \/ variant (consumed r r') c)
    | err e => kind e = Kind.DecodeError
    end.

Lemma parses_whole {A} (d : Decoder A) bs x :
  parses d bs x -> zlen bs < 2 ^ 64 -> fst (d (reader_of bs)) = ok x.
Proof. intros Hp%parses_is_last Hl. rewrite <- at_start. by rewrite Hp. Qed.

(** A frame is parsed into itself. *)
Lemma frame_received f : frame_ok f -> fst (read_frame_auto (reader_of (enc_frame f))) = ok f.
Proof.
  intros Hf. apply parses_whole; [by apply parses_frame|]. destruct f as [k ver body cid], Hf as (_ & _ & Hl).
  unfold enc_frame in *. destruct cid; cbn in *; zlen.
Qed.

Lemma read_request_enc {C} `{CommandLaws C} (c : C) cid :
  valid c -> in_u 32 cid -> parses (read_request C) (be_encode 4 cid ++ enc_body c) (cid, c).
Proof.
  intros Hv Hc. eapply parses_bind; [by apply parses_u32|]. rewrite <- (app_nil_r (enc_body c)).
  eapply parses_bind; [by apply decode_body_enc|apply parses_ret].
Qed.

Lemma laws_travel a : CommandLaws (any_type a) -> travels a.
Proof.
  intros L c cid Hv Hc Hl k v received. split.
  { apply decode_body_reader; [done|]. rewrite <- body_of_enc by done. lia. }
  pose proof (body_of_enc c Hv) as Hb. rewrite Hb in *. pose proof (zlen_nonneg (enc_body c)).
  pose proof (enc_body_bytes c Hv) as Hbytes. unfold received.
  pose proof (kKey_range (C := any_type a)) as Hk. pose proof (kVersion_range (C := any_type a)) as Hver.
  unfold direction. destruct (key.is_response k) eqn:Hr; [|case_bool_decide].
  - rewrite encode_request_frame_enc by lia. apply frame_received. by split_and!; cbn; [split_and!|..|zlen].
  - rewrite encode_oneway_frame_enc by lia. apply frame_received. by split_and!; cbn; [split_and!|..|zlen].
  - exists (be_encode 4 cid ++ enc_body c). split.
    + rewrite encode_request_frame_enc, request_frame_read by lia. apply frame_received. by apply request_frame_ok.
    + apply parses_whole; [by apply read_request_enc|zlen].
Qed.

Lemma laws_safe a : CommandLaws (any_type a) -> decodes_safely a.
Proof.
  intros L r Hr. destruct (decode_body_spec r Hr) as [(Hwf & Hd & Hs & Hp) Hres].
  destruct (decode_body r) as [res r']. cbn in *.
  destruct Hwf as (_ & _ & ? & _). split; [done|]. split; [lia|].
  destruct res as [c|e]; [|done]. destruct Hres as [? [-> | ?]]; auto.
Qed.

(** ** Properties *)

(** C25.  Every command of the client survives the wire.  Encoding any value it can
    carry and decoding the bytes gives the value back; and so does the frame the
    command travels in.  The frame of a response is parsed into its key and version,
    the correlation id and that very body; that of Tune, StoreOffset and Heartbeat,
    which carry no id, into key, version and body; and that of a request (whose key
    does not tell the parser to expect an id) into key, version and a body from which
    its receiver reads the correlation id and then the value. *)
Theorem commands_roundtrip : Forall travels all_commands.
Proof. eapply Forall_impl; [apply all_commands_laws|]. apply laws_travel. Qed.

(** C26.  Every command decoder is total and safe on arbitrary bytes from the
    peer: it never moves past the end of the frame, what it accepts is exactly the
    wire form of the value it returns (or, for the two responses a broker may
    truncate and for null byte strings, the tolerated variant), and every failure
    is a [DecodeError]. *)
Theorem commands_decode_safely : Forall decodes_safely all_commands.
Proof. eapply Forall_impl; [apply all_commands_laws|]. apply laws_safe. Qed.

(** The bodies of the protocol description's handshake. *)
Example tune_body : body_of (Tune.Mk 1048576 60) = [0x00; 0x10; 0x00; 0x00; 0x00; 0x00; 0x00; 0x3C].
Proof. reflexivity. Qed.

Example sasl_authenticate_truncated :
  fst (SaslAuthenticateResponse.decode_body (reader_of [0; 1]))
  = ok (SaslAuthenticateResponse.Mk 1 None).
Proof. reflexivity. Qed.

Example store_offset_body :
  body_of (StoreOffset.Mk (lit "r") (lit "s") 258)
  = [0; 1; 114; 0; 1; 115; 0; 0; 0; 0; 0; 0; 1; 2].
Proof. reflexivity. Qed.
