(* ===== verification/Config.v ===== *)
(** * Connection configuration: [config.hpp], [logger.hpp], [close_reason.hpp]

    The settings of a connection with their defaults, the log events they
    receive, and the validation that precedes any I/O. *)

From S2P Require Import Prelude Errors.

Local Open Scope Z_scope.

(** [enum class LogLevel]; a log sink only observes the events. *)
Inductive LogLevel := Debug | Info | Warn | Error.

(** A call of [cfg.log]. *)
Abbreviation LogEvent := (LogLevel * list Z)%type (only parsing).

(** [enum class CloseReason] and [struct UnexpectedClose]. *)
Module CloseReason.
Inductive t := PeerClosedSocket | HeartbeatTimeout | ProtocolViolation | IoError.
#[global] Instance eq_dec : EqDecision t.
Proof. solve_decision. Defined.
End CloseReason.

Record UnexpectedClose := MkUnexpectedClose {
  reason : CloseReason.t;
  close_message : std_string;
  during_handshake : bool
}.

(** [struct ConnectionConfig]; durations are milliseconds. *)
Record ConnectionConfig := MkConfig {
  host : std_string;
  port : Z;
  virtual_host : std_string;
  username : std_string;
  password : std_string;
  connection_name : std_string;
  tls : bool;
  requested_heartbeat_seconds : Z;
  requested_frame_max_bytes : Z;
  connect_timeout : Z;
  request_timeout : Z
}.

(** The member initialisers. *)
Definition default_config : ConnectionConfig :=
  MkConfig (lit "localhost") 5552 (lit "/") (lit "guest") (lit "guest") [] false
    60 1048576 30000 10000.

(** [ConnectionConfig::validate]. *)
Definition validate (c : ConnectionConfig) : Result unit :=
  if zlen (host c) =? 0 then
    err (mk_error Kind.ConfigurationError (lit "host must not be empty"))
  else if port c =? 0 then
    err (mk_error Kind.ConfigurationError (lit "port must be non-zero"))
  else if zlen (virtual_host c) =? 0 then
    err (mk_error Kind.ConfigurationError (lit "virtual_host must not be empty"))
  else ok tt.

(** What validation promises: the three fields a connection cannot do without. *)
Definition config_ok (c : ConnectionConfig) : Prop :=
  host c <> [] /\ port c <> 0 /\ virtual_host c <> [].

Lemma zlen_eqb_nil {A} (l : list A) : (zlen l =? 0) = bool_decide (l = []).
Proof. destruct l; [done|]. rewrite zlen_cons. pose proof (zlen_nonneg l). by apply Z.eqb_neq; lia. Qed.

Lemma validate_ok c : validate c = ok tt <-> config_ok c.
Proof.
  unfold validate, config_ok. rewrite !zlen_eqb_nil.
  repeat case_bool_decide; destruct (Z.eqb_spec (port c) 0); naive_solver.
Qed.

Lemma validate_err c e : validate c = err e -> kind e = Kind.ConfigurationError.
Proof. unfold validate. intros H. repeat case_match; by simplify_eq/=. Qed.

Example default_config_valid : validate default_config = ok tt.
Proof. reflexivity. Qed.
