(* ===== verification/Dispatcher.v ===== *)
(** * The dispatcher: [dispatcher.hpp], [dispatcher.cpp]

    The correlation-id counter, the table of pending requests and the routing of
    inbound frames.  A [std::promise] is shared between the entry that owns it and
    the future returned to the caller, so promises live in a store: a list of
    cells, indexed by the order of creation; a future is an index into it.
    [std::promise::set_value] on a satisfied promise throws: operations return an
    option, [None] when an exception escapes. *)

From S2P Require Import Prelude Errors Buffer Codec Frame.

Local Open Scope Z_scope.

(** ** Promises *)

(** The shared state of a promise: not satisfied yet, holding a value, or
    abandoned (its owner was destroyed, [std::future_errc::broken_promise]). *)
Inductive PromiseState :=
  | Unset
  | Satisfied (r : Result IncomingFrame)
  | Broken.

Abbreviation Promises := (list PromiseState) (only parsing).

(** [std::promise::set_value]. *)
Definition set_value (n : nat) (r : Result IncomingFrame) (ps : Promises) : option Promises :=
  match ps !! n with
  | Some Unset => Some (<[n := Satisfied r]> ps)
  | _ => None
  end.

(** ** State *)

(** [struct PendingEntry]: the promise it owns, and its deadline. *)
Record PendingEntry := MkEntry { promise : nat; deadline : Z }.

(** [OnewayHandler]: a callback of the client, of which only the calls matter. *)
Abbreviation OnewayHandler := nat (only parsing).

(** [class Dispatcher], with the promise store and the calls of the handlers. *)
Record Dispatcher := MkDispatcher {
  next_id_ : Z;
  pending_ : gmap Z PendingEntry;
  on_heartbeat_ : option OnewayHandler;
  on_metadata_update_ : option OnewayHandler;
  promises : Promises;
  calls : list (OnewayHandler * IncomingFrame)
}.

(** [Dispatcher() = default]. *)
Definition new_dispatcher : Dispatcher := MkDispatcher 1 ∅ None None [] [].

Definition with_pending (st : Dispatcher) (m : gmap Z PendingEntry) (ps : Promises) : Dispatcher :=
  MkDispatcher (next_id_ st) m (on_heartbeat_ st) (on_metadata_update_ st) ps (calls st).

Definition with_call (st : Dispatcher) (h : OnewayHandler) (f : IncomingFrame) : Dispatcher :=
  MkDispatcher (next_id_ st) (pending_ st) (on_heartbeat_ st) (on_metadata_update_ st)
    (promises st) (calls st ++ [(h, f)]).

(** ** Operations *)

(** [next_correlation_id]: [fetch_add] on a 32-bit counter. *)
Definition next_correlation_id (st : Dispatcher) : Z * Dispatcher :=
  (next_id_ st,
   MkDispatcher (wrap 32 (next_id_ st + 1)) (pending_ st) (on_heartbeat_ st)
     (on_metadata_update_ st) (promises st) (calls st)).

(** [register_pending]: [emplace] does not replace an entry; the new entry is
    then destroyed with its promise. *)
Definition register_pending (correlation_id deadline : Z) (st : Dispatcher) : nat * Dispatcher :=
  let n := length (promises st) in
  (n,
   match pending_ st !! correlation_id with
   | None =>
       with_pending st (<[correlation_id := MkEntry n deadline]> (pending_ st)) (promises st ++ [Unset])
   | Some _ => with_pending st (pending_ st) (promises st ++ [Broken])
   end).

(** Satisfy the promises of entries taken out of the table, one after the other. *)
Fixpoint settle_all (es : list PendingEntry) (r : Result IncomingFrame) (ps : Promises) : option Promises :=
  match es with
  | [] => Some ps
  | e :: es => ps ← set_value (promise e) r ps; settle_all es r ps
  end.

(** The end of [dispatch]: one-way frames. *)
Definition dispatch_oneway (frame : IncomingFrame) (st : Dispatcher) : bool * Dispatcher :=
  let kind := key.request_of (f_key frame) in
  match kind =? key.Heartbeat, on_heartbeat_ st with
  | true, Some h => (true, with_call st h frame)
  | _, _ =>
      match kind =? key.MetadataUpdate, on_metadata_update_ st with
      | true, Some h => (true, with_call st h frame)
      | _, _ => (false, st)
      end
  end.

(** [dispatch]. *)
Definition dispatch (frame : IncomingFrame) (st : Dispatcher) : option (bool * Dispatcher) :=
  if key.is_response (f_key frame) then
    match f_correlation_id frame with
    | None => Some (false, st)
    | Some cid =>
        match pending_ st !! cid with
        | None => Some (false, st)
        | Some entry =>
            ps ← set_value (promise entry) (ok frame) (promises st);
            Some (true, with_pending st (delete cid (pending_ st)) ps)
        end
    end
  else Some (dispatch_oneway frame st).

(** The entries of a table in an order of iteration; the container leaves the
    order open, and [settle_all_perm] shows it does not matter. *)
Definition entries (m : gmap Z PendingEntry) : list PendingEntry := (map_to_list m).*2.

(** [fail_all_pending]. *)
Definition fail_all_pending (e : StreamError) (st : Dispatcher) : option Dispatcher :=
  let taken := pending_ st in
  ps ← settle_all (entries taken) (err e) (promises st);
  Some (with_pending st ∅ ps).

Definition request_timed_out : StreamError := mk_error Kind.RequestTimeout (lit "request timed out").

(** [now >= it->second->deadline]. *)
Definition is_expired (now : Z) (e : PendingEntry) : bool := now >=? deadline e.

(** [reap_expired]: split the table, then satisfy the expired entries. *)
Definition reap_expired (now : Z) (st : Dispatcher) : option (Z * Dispatcher) :=
  let expired := filter (fun kv => is_expired now kv.2 = true) (pending_ st) in
  let kept := filter (fun kv => is_expired now kv.2 = false) (pending_ st) in
  ps ← settle_all (entries expired) (err request_timed_out) (promises st);
  Some (zlen (entries expired), with_pending st kept ps).

(** [on_heartbeat], [on_metadata_update]. *)
Definition on_heartbeat (h : OnewayHandler) (st : Dispatcher) : Dispatcher :=
  MkDispatcher (next_id_ st) (pending_ st) (Some h) (on_metadata_update_ st) (promises st) (calls st).
Definition on_metadata_update (h : OnewayHandler) (st : Dispatcher) : Dispatcher :=
  MkDispatcher (next_id_ st) (pending_ st) (on_heartbeat_ st) (Some h) (promises st) (calls st).

(** ** The request table: what the dispatcher promises

    Seen from outside, the dispatcher keeps one request per future handed out:
    waiting for the response to a correlation id until a deadline, done with a
    result, or lost because its correlation id was in use.  Every operation is a
    pointwise change of that table. *)

Inductive Request :=
  | Waiting (cid deadline : Z)
  | Done (r : Result IncomingFrame)
  | Lost.

(** Every waiting request that satisfies [P] is done with [r]. *)
Definition complete_if (P : Z -> Z -> bool) (r : Result IncomingFrame) (q : Request) : Request :=
  match q with
  | Waiting c d => if P c d then Done r else q
  | _ => q
  end.

Definition waits_for (cid : Z) (q : Request) : bool :=
  match q with Waiting c _ => c =? cid | _ => false end.

Definition expires (now : Z) (q : Request) : bool :=
  match q with Waiting _ d => now >=? d | _ => false end.

Definition spec_register (cid d : Z) (l : list Request) : list Request :=
  l ++ [if existsb (waits_for cid) l then Lost else Waiting cid d].

Definition spec_respond (cid : Z) (f : IncomingFrame) (l : list Request) : list Request :=
  complete_if (fun c _ => c =? cid) (ok f) <$> l.

Definition spec_fail (e : StreamError) (l : list Request) : list Request :=
  complete_if (fun _ _ => true) (err e) <$> l.

Definition spec_reap (now : Z) (l : list Request) : list Request :=
  complete_if (fun _ d => now >=? d) (err request_timed_out) <$> l.

(** The state of a promise agrees with its request; a waiting request is the
    table's entry for its correlation id, and every entry is a waiting request. *)
Definition agrees (p : PromiseState) (q : Request) : Prop :=
  match q with
  | Waiting _ _ => p = Unset
  | Done r => p = Satisfied r
  | Lost => p = Broken
  end.

Definition represents (m : gmap Z PendingEntry) (ps : Promises) (l : list Request) : Prop :=
  Forall2 agrees ps l /\
  forall c n d, m !! c = Some (MkEntry n d) <-> l !! n = Some (Waiting c d).

Definition refines (st : Dispatcher) (l : list Request) : Prop :=
  represents (pending_ st) (promises st) l.

(** ** Satisfying a set of promises *)

Definition settled (ns : list nat) (r : Result IncomingFrame) (ps : Promises) : Promises :=
  imap (fun n p => if decide (n ∈ ns) then Satisfied r else p) ps.

Lemma settled_nil r ps : settled [] r ps = ps.
Proof.
  apply list_eq. intros i. unfold settled. rewrite list_lookup_imap.
  destruct (ps !! i); cbn; [|done]. by rewrite decide_False by set_solver.
Qed.

Lemma settled_cons n ns r ps : settled ns r (<[n := Satisfied r]> ps) = settled (n :: ns) r ps.
Proof.
  apply list_eq. intros i. unfold settled. rewrite !list_lookup_imap.
  destruct (decide (i = n)) as [->|Hne].
  - destruct (decide (n < length ps)%nat) as [Hlt|Hge].
    + rewrite list_lookup_insert_eq by done. destruct (lookup_lt_is_Some_2 ps n Hlt) as [p ->]. cbn.
      rewrite (decide_True (P := n ∈ n :: ns)) by set_solver. by destruct (decide _).
    + by rewrite list_insert_ge by lia; rewrite lookup_ge_None_2 by lia.
  - rewrite list_lookup_insert_ne by done. destruct (ps !! i); cbn; [|done].
    apply (f_equal Some), decide_ext. set_solver.
Qed.

(** Distinct unset promises can be satisfied one after the other. *)
Lemma settle_all_settled es r ps :
  NoDup (promise <$> es) -> Forall (fun e => ps !! promise e = Some Unset) es ->
  settle_all es r ps = Some (settled (promise <$> es) r ps).
Proof.
  revert ps. induction es as [|e es IH]; intros ps Hnd Hall; cbn [settle_all fmap list_fmap].
  - by rewrite settled_nil.
  - apply NoDup_cons in Hnd as [Hn Hnd]. apply Forall_cons in Hall as [He Hall].
    unfold set_value. rewrite He. cbn. rewrite IH; [by rewrite settled_cons|done|].
    eapply Forall_impl; [apply Forall_and; split; [apply Hall|]|].
    { apply Forall_forall. intros x Hx. exact (list_elem_of_fmap_2 promise es x Hx). }
    cbn. intros x [Hx Hin]. rewrite list_lookup_insert_ne; [done|]. intros Heq. by rewrite Heq in Hn.
Qed.

(** The order in which entries are taken out of the table does not matter. *)
Lemma settle_all_perm es es' r ps :
  es ≡ₚ es' -> NoDup (promise <$> es) -> Forall (fun e => ps !! promise e = Some Unset) es ->
  settle_all es r ps = settle_all es' r ps.
Proof.
  intros Hp Hnd Hall. rewrite !settle_all_settled; [|by rewrite <- Hp..|done|done].
  f_equal. apply imap_ext. intros i p _. apply decide_ext. by rewrite Hp.
Qed.

(** ** The table after an operation *)

Lemma elem_of_entries m e : e ∈ entries m <-> exists c, m !! c = Some e.
Proof.
  unfold entries. rewrite list_elem_of_fmap. split.
  - intros ([c e'] & -> & H%elem_of_map_to_list). by exists c.
  - intros [c H]. exists (c, e). split; [done|]. by apply elem_of_map_to_list.
Qed.

Section table.
Context (m : gmap Z PendingEntry) (ps : Promises) (l : list Request).
Hypothesis Hrep : represents m ps l.

Lemma represents_unset c e : m !! c = Some e -> ps !! promise e = Some Unset.
Proof.
  destruct e as [n d]. intros Hm%(proj2 Hrep). cbn.
  destruct (Forall2_lookup_r _ _ _ _ _ (proj1 Hrep) Hm) as (p & Hp & Ha). by rewrite Hp, Ha.
Qed.

(** No promise has two entries. *)
Lemma represents_inj c1 c2 e1 e2 :
  m !! c1 = Some e1 -> m !! c2 = Some e2 -> promise e1 = promise e2 -> c1 = c2 /\ e1 = e2.
Proof.
  destruct e1 as [n1 d1], e2 as [n2 d2]. cbn. intros H1%(proj2 Hrep) H2%(proj2 Hrep) ->.
  by simplify_eq.
Qed.

Lemma entries_nodup m' : m' ⊆ m -> NoDup (promise <$> entries m').
Proof.
  intros Hs. unfold entries. rewrite <- list_fmap_compose. apply NoDup_fmap_2_strong.
  - intros [c1 e1] [c2 e2] H1%elem_of_map_to_list H2%elem_of_map_to_list Heq. cbn in *.
    destruct (represents_inj c1 c2 e1 e2) as [-> ->]; [by eapply lookup_weaken..|done|done].
  - apply NoDup_map_to_list.
Qed.

Lemma entries_unset m' : m' ⊆ m -> Forall (fun e => ps !! promise e = Some Unset) (entries m').
Proof.
  intros Hs. apply Forall_forall. intros e [c Hc]%elem_of_entries.
  by eapply represents_unset, lookup_weaken.
Qed.

(** Taking out the entries that satisfy [P] and satisfying their promises
    completes the requests that satisfy [P]. *)
Lemma represents_complete (P : Z -> Z -> bool) r taken kept :
  (forall c e, taken !! c = Some e <-> m !! c = Some e /\ P c (deadline e) = true) ->
  (forall c e, kept !! c = Some e <-> m !! c = Some e /\ P c (deadline e) = false) ->
  exists ps', settle_all (entries taken) r ps = Some ps' /\
    represents kept ps' (complete_if P r <$> l).
Proof.
  intros Ht Hk.
  assert (Hs : taken ⊆ m) by (apply map_subseteq_spec; intros c e H; by apply Ht).
  eexists. split; [apply settle_all_settled; [by apply entries_nodup|by apply entries_unset]|].
  assert (Hin : forall n c d, l !! n = Some (Waiting c d) ->
                n ∈ promise <$> entries taken <-> P c d = true).
  { intros n c d Hl. pose proof Hl as Hm%(proj2 Hrep). rewrite list_elem_of_fmap. split.
    - intros ([n' d'] & -> & [c' [H HP]%Ht]%elem_of_entries). cbn in *.
      apply (proj2 Hrep) in H. by simplify_eq.
    - intros HP. exists (MkEntry n d). split; [done|]. apply elem_of_entries. exists c. by apply Ht. }
  assert (Hwait : forall n, n ∈ promise <$> entries taken -> exists c d, l !! n = Some (Waiting c d)).
  { intros n ([n' d] & -> & [c [H _]%Ht]%elem_of_entries)%list_elem_of_fmap. exists c, d. by apply Hrep. }
  split.
  - apply Forall2_same_length_lookup_2.
    { unfold settled. rewrite length_imap, length_fmap. eapply Forall2_length, Hrep. }
    intros n p' q'. unfold settled. rewrite list_lookup_imap, list_lookup_fmap.
    intros (p & Hp & ->)%fmap_Some (q & Hq & ->)%fmap_Some.
    pose proof (Forall2_lookup_lr _ _ _ _ _ _ (proj1 Hrep) Hp Hq) as Ha.
    destruct q as [c d|r'|]; cbn in *; subst p; case_decide as Hn.
    + by rewrite (proj1 (Hin n c d Hq) Hn).
    + destruct (P c d) eqn:HP; [|done]. by apply (Hin n c d Hq) in HP.
    + destruct (Hwait n Hn) as (? & ? & ?). congruence.
    + done.
    + destruct (Hwait n Hn) as (? & ? & ?). congruence.
    + done.
  - intros c n d. rewrite Hk, list_lookup_fmap. cbn. rewrite (proj2 Hrep). split.
    + intros [-> HP]. cbn. by rewrite HP.
    + intros ([c' d'|r'|] & Hl & Heq)%fmap_Some; cbn in Heq; [|done..].
      destruct (P c' d') eqn:HP; [done|]. by simplify_eq.
Qed.
End table.

(** ** Operations as steps *)

Inductive Op :=
  | NextCorrelationId
  | RegisterPending (cid deadline : Z)
  | Dispatch (f : IncomingFrame)
  | FailAllPending (e : StreamError)
  | ReapExpired (now : Z)
  | OnHeartbeat (h : OnewayHandler)
  | OnMetadataUpdate (h : OnewayHandler).

(** What an operation returns. *)
Inductive Out := OutUnit | OutId (cid : Z) | OutFuture (n : nat) | OutBool (b : bool) | OutCount (n : Z).

Definition step (op : Op) (st : Dispatcher) : option (Out * Dispatcher) :=
  match op with
  | NextCorrelationId => let '(c, st) := next_correlation_id st in Some (OutId c, st)
  | RegisterPending cid d => let '(n, st) := register_pending cid d st in Some (OutFuture n, st)
  | Dispatch f => '(b, st) ← dispatch f st; Some (OutBool b, st)
  | FailAllPending e => st ← fail_all_pending e st; Some (OutUnit, st)
  | ReapExpired now => '(n, st) ← reap_expired now st; Some (OutCount n, st)
  | OnHeartbeat h => Some (OutUnit, on_heartbeat h st)
  | OnMetadataUpdate h => Some (OutUnit, on_metadata_update h st)
  end.

Fixpoint run (ops : list Op) (st : Dispatcher) : option (list Out * Dispatcher) :=
  match ops with
  | [] => Some ([], st)
  | op :: ops => '(o, st) ← step op st; '(os, st) ← run ops st; Some (o :: os, st)
  end.

(** The same operations on the request table. *)
Definition response_to (f : IncomingFrame) : option Z :=
  if key.is_response (f_key f) then f_correlation_id f else None.

Definition spec_step (op : Op) (l : list Request) : list Request :=
  match op with
  | RegisterPending cid d => spec_register cid d l
  | Dispatch f => match response_to f with Some cid => spec_respond cid f l | None => l end
  | FailAllPending e => spec_fail e l
  | ReapExpired now => spec_reap now l
  | NextCorrelationId | OnHeartbeat _ | OnMetadataUpdate _ => l
  end.

(** The results the table determines. *)
Definition spec_out (op : Op) (l : list Request) : option Out :=
  match op with
  | RegisterPending _ _ => Some (OutFuture (length l))
  | Dispatch f => (fun cid => OutBool (existsb (waits_for cid) l)) <$> response_to f
  | ReapExpired now => Some (OutCount (zlen (filter (fun q => expires now q = true) l)))
  | _ => None
  end.

Definition spec_run (ops : list Op) (l : list Request) : list Request :=
  fold_left (fun l op => spec_step op l) ops l.

(** ** The simulation *)

Lemma existsb_waits m ps l cid :
  represents m ps l -> existsb (waits_for cid) l = true <-> is_Some (m !! cid).
Proof.
  intros Hr. rewrite existsb_exists. split.
  - intros ([c d|r|] & Hin%list_elem_of_In & Hw); cbn in Hw; [|done..].
    apply Z.eqb_eq in Hw as ->. apply list_elem_of_lookup_1 in Hin as [n Hn].
    exists (MkEntry n d). by apply Hr.
  - intros [[n d] Hm%(proj2 Hr)]. exists (Waiting cid d). split; [|cbn; apply Z.eqb_refl].
    apply list_elem_of_In. by eapply list_elem_of_lookup_2.
Qed.

Lemma existsb_waits_none m ps l cid :
  represents m ps l -> m !! cid = None -> existsb (waits_for cid) l = false.
Proof.
  intros Hr Hm. apply not_true_iff_false. rewrite existsb_waits by done. rewrite Hm. by intros [].
Qed.

Lemma represents_length m ps l : represents m ps l -> length ps = length l.
Proof. intros [Hf _]. by eapply Forall2_length. Qed.

Lemma represents_respond_none m ps l cid f :
  represents m ps l -> m !! cid = None -> spec_respond cid f l = l.
Proof.
  intros Hr Hm. unfold spec_respond. rewrite <- (list_fmap_id l) at 2. apply list_fmap_ext.
  intros n [c d|r|] Hl; cbn; try done. destruct (Z.eqb_spec c cid) as [->|]; [|done].
  apply (proj2 Hr) in Hl. congruence.
Qed.

Lemma represents_respond m ps l cid e f :
  represents m ps l -> m !! cid = Some e ->
  exists ps', set_value (promise e) (ok f) ps = Some ps' /\
    represents (delete cid m) ps' (spec_respond cid f l).
Proof.
  intros Hr Hm.
  destruct (represents_complete m ps l Hr (fun c _ => c =? cid) (ok f) {[cid := e]} (delete cid m))
    as (ps' & Hs & Hr').
  - intros c e'. rewrite lookup_singleton_Some, Z.eqb_eq. naive_solver.
  - intros c e'. rewrite lookup_delete_Some, Z.eqb_neq. naive_solver.
  - exists ps'. split; [|done]. revert Hs. unfold entries. rewrite map_to_list_singleton. cbn.
    by destruct (set_value _ _ _).
Qed.

Lemma represents_register m ps l cid d :
  represents m ps l ->
  represents (match m !! cid with None => <[cid := MkEntry (length ps) d]> m | Some _ => m end)
    (ps ++ [match m !! cid with None => Unset | Some _ => Broken end]) (spec_register cid d l).
Proof.
  intros Hr. pose proof (represents_length _ _ _ Hr) as Hlen. unfold spec_register.
  destruct (m !! cid) as [e|] eqn:Hm.
  - assert (existsb (waits_for cid) l = true) as -> by (eapply existsb_waits; [done|by rewrite Hm]).
    split; [apply Forall2_app; [apply Hr|by repeat constructor]|].
    intros c n d'. rewrite (proj2 Hr), lookup_snoc_Some. naive_solver eauto using lookup_lt_Some.
  - rewrite (existsb_waits_none m ps) by done.
    split; [apply Forall2_app; [apply Hr|by repeat constructor]|].
    intros c n d'. rewrite lookup_insert_Some, lookup_snoc_Some, (proj2 Hr). split.
    + intros [[-> ?]|[Hne Hl]]; simplify_eq; [by right|]. left. eauto using lookup_lt_Some.
    + intros [[? Hl]|[-> ?]]; simplify_eq; [|left; by rewrite Hlen]. right.
      split; [|done]. intros ->. apply (proj2 Hr) in Hl. congruence.
Qed.

(** The positions of a list where [P] holds. *)
Definition positions {A} (P : A -> bool) (l : list A) : list nat :=
  (filter (fun nx => P nx.2 = true) (imap pair l)).*1.

Lemma elem_of_positions {A} (P : A -> bool) l n :
  n ∈ positions P l <-> exists x, l !! n = Some x /\ P x = true.
Proof.
  unfold positions. rewrite list_elem_of_fmap. split.
  - intros ([n' x] & -> & [HP Hin]%list_elem_of_filter). cbn in *. exists x. split; [|done].
    apply list_elem_of_lookup_1 in Hin as [i Hi]. rewrite list_lookup_imap in Hi.
    destruct (l !! i) eqn:E; cbn in Hi; by simplify_eq.
  - intros (x & Hl & HP). exists (n, x). split; [done|]. apply list_elem_of_filter. split; [done|].
    apply (list_elem_of_lookup_2 _ n). by rewrite list_lookup_imap, Hl.
Qed.

Lemma positions_nodup {A} (P : A -> bool) (l : list A) : NoDup (positions P l).
Proof.
  assert (Hp : forall i n x, imap pair l !! i = Some (n, x) -> n = i /\ l !! i = Some x).
  { intros i n x. rewrite list_lookup_imap. destruct (l !! i) eqn:E; cbn; [|done]. by intros [= -> ->]. }
  unfold positions. apply NoDup_fmap_2_strong.
  - intros [n1 x1] [n2 x2] [_ H1]%list_elem_of_filter [_ H2]%list_elem_of_filter Heq. cbn in Heq. subst n2.
    apply list_elem_of_lookup_1 in H1 as [i Hi%Hp]. apply list_elem_of_lookup_1 in H2 as [j Hj%Hp].
    destruct Hi as [-> Hi], Hj as [-> Hj]. congruence.
  - apply NoDup_filter, NoDup_alt. intros i j [n x] [-> _]%Hp [-> _]%Hp. done.
Qed.

Lemma positions_length {A} (P : A -> bool) (l : list A) :
  length (positions P l) = length (filter (fun x => P x = true) l).
Proof.
  unfold positions. rewrite length_fmap. change (imap pair l) with (imap (fun n (x : A) => (id n, x)) l).
  generalize (@id nat) as g. induction l as [|x l IH]; intros g; [done|].
  rewrite imap_cons, !filter_cons. cbn. specialize (IH (g ∘ S)). by case_decide; cbn; f_equal.
Qed.

Lemma represents_expired_count m ps l now :
  represents m ps l ->
  zlen (entries (filter (fun kv => is_expired now kv.2 = true) m))
  = zlen (filter (fun q => expires now q = true) l).
Proof.
  intros Hr. unfold zlen. f_equal. rewrite <- positions_length.
  rewrite <- (length_fmap promise). apply Permutation_length, NoDup_Permutation.
  - eapply entries_nodup; [done|]. apply map_filter_subseteq.
  - apply positions_nodup.
  - intros n. rewrite elem_of_positions, list_elem_of_fmap. split.
    + intros ([n' d] & -> & [c [H He]%map_lookup_filter_Some]%elem_of_entries).
      exists (Waiting c d). split; [by apply Hr|done].
    + intros ([c d|r|] & Hl & He); cbn in He; [|done..].
      exists (MkEntry n d). split; [done|]. apply elem_of_entries. exists c.
      apply map_lookup_filter_Some. split; [by apply Hr|done].
Qed.

Lemma fail_all_refines st l e :
  refines st l -> exists st', fail_all_pending e st = Some st' /\ refines st' (spec_fail e l).
Proof.
  intros Hr. destruct (represents_complete _ _ _ Hr (fun _ _ => true) (err e) (pending_ st) ∅)
    as (ps' & Hs & Hr').
  - naive_solver.
  - intros c e'. rewrite lookup_empty. naive_solver.
  - unfold fail_all_pending. rewrite Hs. cbn. by eexists.
Qed.

Lemma fail_all_pending_map st e st' :
  fail_all_pending e st = Some st' -> pending_ st' = ∅.
Proof. unfold fail_all_pending. destruct (settle_all _ _ _); by intros; simplify_eq/=. Qed.

(** The promises after a failure of all requests. *)
Lemma fail_all_promises st l e st' :
  refines st l -> fail_all_pending e st = Some st' ->
  promises st' = (fun p => match p with Unset => Satisfied (err e) | _ => p end) <$> promises st.
Proof.
  intros Hr Hs. destruct (fail_all_refines st l e Hr) as (st'' & Hs' & Hr').
  rewrite Hs in Hs'. injection Hs' as <-.
  destruct Hr as [Hf _], Hr' as [Hf' _]. apply list_eq. intros n. rewrite list_lookup_fmap.
  unfold spec_fail in Hf'. rewrite Forall2_fmap_r in Hf'.
  destruct (l !! n) as [q|] eqn:Hl.
  - destruct (Forall2_lookup_r _ _ _ _ _ Hf Hl) as (p & -> & Ha).
    destruct (Forall2_lookup_r _ _ _ _ _ Hf' Hl) as (p' & -> & Ha').
    destruct q; cbn in *; by subst.
  - apply lookup_ge_None in Hl. rewrite !lookup_ge_None_2; [done|..].
    + by rewrite (Forall2_length _ _ _ Hf).
    + by rewrite (Forall2_length _ _ _ Hf').
Qed.

Lemma reap_refines st l now :
  refines st l ->
  exists st', reap_expired now st = Some (zlen (filter (fun q => expires now q = true) l), st') /\
    refines st' (spec_reap now l).
Proof.
  intros Hr. unfold reap_expired. rewrite (represents_expired_count _ _ _ now Hr).
  destruct (represents_complete _ _ _ Hr (fun _ d => now >=? d) (err request_timed_out)
    (filter (fun kv => is_expired now kv.2 = true) (pending_ st))
    (filter (fun kv => is_expired now kv.2 = false) (pending_ st))) as (ps' & Hs & Hr').
  - intros c e. by rewrite map_lookup_filter_Some.
  - intros c e. by rewrite map_lookup_filter_Some.
  - rewrite Hs. cbn. by eexists.
Qed.

Lemma register_refines st l cid d :
  refines st l ->
  (register_pending cid d st).1 = length l /\
  refines (register_pending cid d st).2 (spec_register cid d l).
Proof.
  intros Hr. split; [by eapply represents_length|].
  pose proof (represents_register _ _ _ cid d Hr) as H.
  unfold refines, register_pending, with_pending in *. cbn.
  by destruct (pending_ st !! cid).
Qed.

Lemma dispatch_refines st l f :
  refines st l ->
  exists b st', dispatch f st = Some (b, st') /\
    refines st' (match response_to f with Some cid => spec_respond cid f l | None => l end) /\
    (forall cid, response_to f = Some cid -> b = existsb (waits_for cid) l).
Proof.
  intros Hr. unfold dispatch, response_to. destruct (key.is_response (f_key f)).
  - destruct (f_correlation_id f) as [cid|]; [|by do 2 eexists].
    destruct (pending_ st !! cid) as [e|] eqn:Hm.
    + destruct (represents_respond _ _ _ _ _ f Hr Hm) as (ps' & Hs & Hr'). rewrite Hs. cbn.
      do 2 eexists. split; [done|]. split; [done|]. intros ? [= <-]. symmetry.
      eapply existsb_waits; [done|by rewrite Hm].
    + do 2 eexists. split; [done|]. split; [by erewrite represents_respond_none|].
      intros ? [= <-]. symmetry. by eapply existsb_waits_none.
  - destruct (dispatch_oneway f st) as [b st'] eqn:E. do 2 eexists. split; [done|]. split; [|done].
    revert E. unfold dispatch_oneway. intros E. repeat case_match; by simplify_eq/=.
Qed.

Lemma step_refines st l op :
  refines st l ->
  exists out st', step op st = Some (out, st') /\ refines st' (spec_step op l) /\
    (forall o, spec_out op l = Some o -> out = o).
Proof.
  intros Hr. destruct op as [|cid d|f|e|now|h|h]; cbn [step spec_step spec_out].
  - by do 2 eexists.
  - destruct (register_refines st l cid d Hr) as [Ho Hr'].
    destruct (register_pending cid d st) as [n st']. cbn in Ho, Hr'. subst n.
    do 2 eexists. split; [done|]. split; [done|]. by intros ? [= <-].
  - destruct (dispatch_refines st l f Hr) as (b & st' & -> & Hr' & Hb). cbn.
    do 2 eexists. split; [done|]. split; [done|].
    intros o (cid & Hc & ->)%fmap_Some. by rewrite (Hb _ Hc).
  - destruct (fail_all_refines st l e Hr) as (st' & -> & Hr'). cbn. by do 2 eexists.
  - destruct (reap_refines st l now Hr) as (st' & -> & Hr'). cbn.
    do 2 eexists. split; [done|]. split; [done|]. by intros ? [= <-].
  - by do 2 eexists.
  - by do 2 eexists.
Qed.

Lemma new_refines : refines new_dispatcher [].
Proof. split; [constructor|]. intros c n d. cbn. by rewrite lookup_empty. Qed.

Lemma run_refines ops st l :
  refines st l -> exists outs st', run ops st = Some (outs, st') /\ refines st' (spec_run ops l).
Proof.
  revert st l. induction ops as [|op ops IH]; intros st l Hr; cbn [run].
  - by do 2 eexists.
  - destruct (step_refines st l op Hr) as (o & st1 & -> & Hr1 & _). cbn.
    destruct (IH _ _ Hr1) as (os & st2 & -> & Hr2). cbn. by do 2 eexists.
Qed.

(** ** Reachable dispatchers *)

Definition reachable (st : Dispatcher) : Prop :=
  exists ops outs, run ops new_dispatcher = Some (outs, st).

Lemma reachable_refines st : reachable st -> exists l, refines st l.
Proof.
  intros (ops & outs & Hrun). destruct (run_refines ops _ _ new_refines) as (? & ? & Hrun' & Hr).
  rewrite Hrun in Hrun'. simplify_eq. eauto.
Qed.

(** A response whose request is pending resolves it. *)
Lemma dispatch_hit st l f cid e :
  refines st l -> response_to f = Some cid -> pending_ st !! cid = Some e ->
  promises st !! promise e = Some Unset /\
  dispatch f st
  = Some (true, with_pending st (delete cid (pending_ st)) (<[promise e := Satisfied (ok f)]> (promises st))).
Proof.
  intros Hr Hf Hm. pose proof (represents_unset _ _ _ Hr _ _ Hm) as Hu. split; [done|].
  revert Hf. unfold response_to, dispatch, set_value. destruct (key.is_response (f_key f)); [|done].
  intros ->. by rewrite Hm, Hu.
Qed.

Lemma dispatch_miss st f cid :
  response_to f = Some cid -> pending_ st !! cid = None -> dispatch f st = Some (false, st).
Proof.
  unfold response_to, dispatch. destruct (key.is_response (f_key f)); [|done]. intros -> Hm. by rewrite Hm.
Qed.

(** A completed request is never touched again. *)
Lemma spec_step_done op l n r :
  l !! n = Some (Done r) -> spec_step op l !! n = Some (Done r).
Proof.
  intros Hl. destruct op; cbn; try done.
  - unfold spec_register. by apply lookup_app_l_Some.
  - case_match; [|done]. unfold spec_respond. by rewrite list_lookup_fmap, Hl.
  - unfold spec_fail. by rewrite list_lookup_fmap, Hl.
  - unfold spec_reap. by rewrite list_lookup_fmap, Hl.
Qed.

Lemma spec_run_done ops l n r :
  l !! n = Some (Done r) -> spec_run ops l !! n = Some (Done r).
Proof.
  revert l. induction ops as [|op ops IH]; intros l Hl; [done|]. cbn. by apply IH, spec_step_done.
Qed.

Lemma refines_satisfied st l n r :
  refines st l -> promises st !! n = Some (Satisfied r) <-> l !! n = Some (Done r).
Proof.
  intros [Hf _]. split; intros H.
  - destruct (Forall2_lookup_l _ _ _ _ _ Hf H) as ([] & ? & ?); cbn in *; congruence.
  - destruct (Forall2_lookup_r _ _ _ _ _ Hf H) as (? & ? & ?); cbn in *; congruence.
Qed.

(** [n] correlation ids drawn one after the other. *)
Fixpoint draw_ids (n : nat) (st : Dispatcher) : list Z :=
  match n with
  | O => []
  | S n => let '(c, st) := next_correlation_id st in c :: draw_ids n st
  end.

Lemma draw_ids_lookup n st i c :
  in_u 32 (next_id_ st) -> draw_ids n st !! i = Some c -> c = wrap 32 (next_id_ st + Z.of_nat i).
Proof.
  revert st i. induction n as [|n IH]; intros st i Hst; cbn [draw_ids next_correlation_id]; [done|].
  destruct i as [|i]; cbn [lookup list_lookup].
  - intros [= <-]. rewrite wrap_small; range.
  - intros H. apply IH in H as ->; cbn; [|by apply wrap_range].
    unfold wrap. rewrite Z.add_mod_idemp_l by done. f_equal. lia.
Qed.

Lemma wrap_inj_near w a b : wrap w a = wrap w b -> Z.abs (a - b) < 2 ^ w -> a = b.
Proof.
  unfold wrap. generalize (2 ^ w) as p. intros p Hm Hab.
  assert (Hp : p <> 0) by (pose proof (Z.abs_nonneg (a - b)); clear Hm; lia).
  pose proof (Z.div_mod a _ Hp) as Ha. pose proof (Z.div_mod b _ Hp) as Hb. rewrite Hm in Ha.
  revert Ha Hb. generalize (a / p) (b / p) (b mod p). clear Hm. intros x y r Ha Hb.
  assert (x = y) as -> by (destruct (Z.lt_trichotomy x y) as [|[|]]; nia). lia.
Qed.

(** ** Properties *)

(** C17.  The dispatcher implements its request table.  From a state that
    represents a table, every operation (allocating an id, registering a request,
    dispatching a frame, failing all requests, reaping, installing handlers)
    succeeds without an exception, reaches a state that represents the table after
    the abstract operation, and returns what the table determines: the future of a
    new request, whether a response found its request, the number of requests
    that expired. *)
Theorem dispatcher_refines (st : Dispatcher) (l : list Request) (op : Op) (Hr : refines st l) :
  exists out st', step op st = Some (out, st') /\ refines st' (spec_step op l) /\
    (forall o, spec_out op l = Some o -> out = o).
Proof. by apply step_refines. Qed.

Lemma dispatcher_refines_witness :
  refines new_dispatcher [] /\
  exists out st', step (RegisterPending 7 100) new_dispatcher = Some (out, st') /\
    refines st' [Waiting 7 100] /\ out = OutFuture 0.
Proof.
  split; [apply new_refines|].
  destruct (dispatcher_refines new_dispatcher [] (RegisterPending 7 100) new_refines)
    as (out & st' & H1 & H2 & H3).
  exists out, st'. split; [exact H1|]. split; [exact H2|]. apply H3. reflexivity.
Defined.

(** Exactly-once resolution.  Any sequence of operations from a new
    dispatcher runs without a promise being satisfied twice (no exception
    escapes), and once a future holds a result no later operation changes it. *)
Lemma resolved_once (ops1 ops2 : list Op) :
  exists outs1 st1 outs2 st2,
    run ops1 new_dispatcher = Some (outs1, st1) /\ run ops2 st1 = Some (outs2, st2) /\
    refines st2 (spec_run (ops1 ++ ops2) []) /\
    forall n r, promises st1 !! n = Some (Satisfied r) -> promises st2 !! n = Some (Satisfied r).
Proof.
  destruct (run_refines ops1 _ _ new_refines) as (outs1 & st1 & H1 & Hr1).
  destruct (run_refines ops2 _ _ Hr1) as (outs2 & st2 & H2 & Hr2).
  exists outs1, st1, outs2, st2. split; [done|]. split; [done|].
  split; [unfold spec_run in *; by rewrite fold_left_app|].
  intros n r Hn. rewrite (refines_satisfied _ _ _ _ Hr2). apply spec_run_done.
  by rewrite <- (refines_satisfied _ _ _ _ Hr1).
Qed.

(** Routing of responses.  In a reachable dispatcher a response frame with
    correlation id [cid] is accepted exactly when a request with that id is
    pending; it then resolves that request's promise and no other, with that very
    frame, and the request leaves the table, so a second response with the same
    id is dropped.  An unmatched (late or unknown) response changes nothing. *)
Lemma response_routing (st : Dispatcher) (f : IncomingFrame) (cid : Z)
  (Hst : reachable st) (Hf : response_to f = Some cid) :
  match pending_ st !! cid with
  | Some e =>
      promises st !! promise e = Some Unset /\
      dispatch f st
      = Some (true, with_pending st (delete cid (pending_ st)) (<[promise e := Satisfied (ok f)]> (promises st))) /\
      forall st', dispatch f st = Some (true, st') -> dispatch f st' = Some (false, st')
  | None => dispatch f st = Some (false, st)
  end.
Proof.
  apply reachable_refines in Hst as [l Hr]. destruct (pending_ st !! cid) as [e|] eqn:Hm.
  - destruct (dispatch_hit st l f cid e Hr Hf Hm) as [Hu Hd]. split; [done|]. split; [done|].
    intros st'. rewrite Hd. intros [= <-]. eapply dispatch_miss; [done|]. apply lookup_delete_eq.
  - by eapply dispatch_miss.
Qed.

(** A dispatcher with two requests in flight, and the response to the second. *)
Definition two_pending : Dispatcher :=
  (register_pending 101 50 (register_pending 100 40 new_dispatcher).2).2.
Definition response_101 : IncomingFrame := MkFrame 0x800D 1 [0; 1] (Some 101).

Lemma two_pending_reachable : reachable two_pending.
Proof. by exists [RegisterPending 100 40; RegisterPending 101 50]; eexists. Qed.

Lemma response_routing_witness :
  reachable two_pending /\ response_to response_101 = Some 101 /\
  exists st', dispatch response_101 two_pending = Some (true, st') /\
    promises st' = [Unset; Satisfied (ok response_101)] /\
    dispatch response_101 st' = Some (false, st').
Proof.
  assert (Hf : response_to response_101 = Some 101) by reflexivity.
  split; [apply two_pending_reachable|]. split; [exact Hf|].
  pose proof (response_routing two_pending response_101 101 two_pending_reachable Hf) as H.
  replace (pending_ two_pending !! 101) with (Some (MkEntry 1 50)) in H by reflexivity.
  destruct H as (_ & H1 & H2). eexists. split; [exact H1|]. split; [reflexivity|]. exact (H2 _ H1).
Defined.

(** When the connection ends no caller is left waiting: failing all pending
    requests empties the table, every promise that was unresolved now holds the
    error, and every other promise keeps its result. *)
Lemma fail_all_resolves (st : Dispatcher) (e : StreamError) (Hst : reachable st) :
  exists st', fail_all_pending e st = Some st' /\ pending_ st' = ∅ /\
    promises st'
    = (fun p => match p with Unset => Satisfied (err e) | _ => p end) <$> promises st.
Proof.
  apply reachable_refines in Hst as [l Hr].
  destruct (fail_all_refines st l e Hr) as (st' & Hs & Hr'). exists st'. split; [done|].
  split; [by eapply fail_all_pending_map|by eapply fail_all_promises].
Qed.

Lemma fail_all_resolves_witness :
  reachable two_pending /\
  exists st', fail_all_pending request_timed_out two_pending = Some st' /\
    promises st' = [Satisfied (err request_timed_out); Satisfied (err request_timed_out)].
Proof.
  split; [apply two_pending_reachable|].
  destruct (fail_all_resolves two_pending request_timed_out two_pending_reachable) as (st' & H1 & _ & H2).
  exists st'. split; [exact H1|]. exact H2.
Defined.

(** What [reap_expired] does to the promises. *)
Lemma reap_promises st l now n st' :
  refines st l -> reap_expired now st = Some (n, st') ->
  (forall cid e, pending_ st !! cid = Some e ->
     promises st' !! promise e = Some (if now >=? deadline e then Satisfied (err request_timed_out) else Unset)) /\
  (forall m, (forall cid e, pending_ st !! cid = Some e -> promise e = m -> now < deadline e) ->
     promises st' !! m = promises st !! m).
Proof.
  intros Hr Hs. destruct (reap_refines st l now Hr) as (st1 & Hs' & Hr'). rewrite Hs in Hs'. injection Hs' as _ <-.
  assert (Hl' : forall m, spec_reap now l !! m
    = complete_if (fun _ d => now >=? d) (err request_timed_out) <$> l !! m)
    by (intros m; unfold spec_reap; by rewrite list_lookup_fmap).
  split.
  - intros cid [m d] Hm. pose proof Hm as Hl%(proj2 Hr). specialize (Hl' m). rewrite Hl in Hl'. cbn [promise deadline].
    destruct (Forall2_lookup_r _ _ _ _ _ (proj1 Hr') Hl') as (p & -> & Ha).
    cbn in Ha. destruct (now >=? d); cbn in Ha; by rewrite Ha.
  - intros m Hm. specialize (Hl' m). destruct (l !! m) as [q|] eqn:Hl.
    + destruct (Forall2_lookup_r _ _ _ _ _ (proj1 Hr) Hl) as (p & -> & Ha).
      destruct (Forall2_lookup_r _ _ _ _ _ (proj1 Hr') Hl') as (p' & -> & Ha').
      destruct q as [cid d|r|]; cbn in *; [|congruence..].
      pose proof (Hm cid (MkEntry m d) (proj2 (proj2 Hr cid m d) Hl) eq_refl) as Hd. cbn in Hd.
      destruct (Z.geb_spec now d); [lia|]. cbn in Ha'. congruence.
    + apply lookup_ge_None in Hl. rewrite !(proj2 (lookup_ge_None _ _)); [done|..].
      * by rewrite (represents_length _ _ _ Hr).
      * rewrite (represents_length _ _ _ Hr'). unfold spec_reap. by rewrite length_fmap.
Qed.

(** The reaper.  It resolves with [RequestTimeout] exactly the requests whose
    deadline has been reached, removes exactly those from the table, and returns
    how many they are. *)
Lemma reap_exact (st : Dispatcher) (now : Z) (Hst : reachable st) :
  exists n st', reap_expired now st = Some (n, st') /\
    (forall cid, pending_ st' !! cid =
       match pending_ st !! cid with
       | Some e => if now >=? deadline e then None else Some e
       | None => None
       end) /\
    (forall cid e, pending_ st !! cid = Some e ->
       promises st' !! promise e
       = Some (if now >=? deadline e then Satisfied (err request_timed_out) else Unset)) /\
    n = Z.of_nat (size (filter (fun kv => is_expired now kv.2 = true) (pending_ st))).
Proof.
  apply reachable_refines in Hst as [l Hr].
  destruct (reap_refines st l now Hr) as (st' & Hs & _). do 2 eexists. split; [exact Hs|].
  assert (Hp : pending_ st' = filter (fun kv => is_expired now kv.2 = false) (pending_ st)).
  { revert Hs. unfold reap_expired. destruct (settle_all _ _ _); by intros; simplify_eq/=. }
  split; [|split].
  - intros cid. rewrite Hp. destruct (pending_ st !! cid) as [e|] eqn:Hm.
    + destruct (now >=? deadline e) eqn:He.
      * apply map_lookup_filter_None. right. intros ? ?. simplify_eq. unfold is_expired. cbn. by rewrite He.
      * by apply map_lookup_filter_Some.
    + by apply map_lookup_filter_None; left.
  - apply (reap_promises _ _ _ _ _ Hr Hs).
  - rewrite <- (represents_expired_count _ _ _ now Hr). unfold zlen, entries.
    by rewrite length_fmap, length_map_to_list.
Qed.

Lemma reap_exact_witness :
  reachable two_pending /\
  exists n st', reap_expired 45 two_pending = Some (n, st') /\ pending_ st' !! 100 = None /\
    promises st' !! 0%nat = Some (Satisfied (err request_timed_out)) /\
    promises st' !! 1%nat = Some Unset.
Proof.
  split; [apply two_pending_reachable|].
  destruct (reap_exact two_pending 45 two_pending_reachable) as (n & st' & H1 & H2 & H3 & _).
  exists n, st'. split; [exact H1|]. split; [exact (H2 100)|].
  split; [exact (H3 100 (MkEntry 0 40) eq_refl)|exact (H3 101 (MkEntry 1 50) eq_refl)].
Defined.

(** One-way frames never touch the request table: a frame without the
    response bit is handed to the heartbeat handler or to the metadata-update
    handler according to its key, if that handler is installed, and is otherwise
    reported as unhandled; a response frame calls no handler. *)
Lemma oneway_routing (st : Dispatcher) (f : IncomingFrame) :
  (key.is_response (f_key f) = false ->
     dispatch f st =
       let kind := key.request_of (f_key f) in
       let h := if decide (kind = key.Heartbeat) then on_heartbeat_ st
                else if decide (kind = key.MetadataUpdate) then on_metadata_update_ st else None in
       Some (match h with Some h => (true, with_call st h f) | None => (false, st) end)) /\
  (key.is_response (f_key f) = true -> forall b st', dispatch f st = Some (b, st') -> calls st' = calls st).
Proof.
  unfold dispatch, dispatch_oneway. destruct (key.is_response (f_key f)); (split; [|try done]); [done| |].
  - intros _ b st'. destruct (f_correlation_id f) as [cid|]; [|by intros; simplify_eq].
    destruct (pending_ st !! cid); [|by intros; simplify_eq].
    destruct (set_value _ _ _); by intros; simplify_eq/=.
  - intros _. cbn zeta. repeat case_decide.
    + replace (_ =? key.Heartbeat) with true by (symmetry; by apply Z.eqb_eq).
      destruct (on_heartbeat_ st); [done|].
      replace (_ =? key.MetadataUpdate) with false; [done|]. symmetry. apply Z.eqb_neq.
      rewrite H. done.
    + replace (_ =? key.Heartbeat) with false by (symmetry; by apply Z.eqb_neq).
      replace (_ =? key.MetadataUpdate) with true by (symmetry; by apply Z.eqb_eq).
      by destruct (on_metadata_update_ st).
    + replace (_ =? key.Heartbeat) with false by (symmetry; by apply Z.eqb_neq).
      by replace (_ =? key.MetadataUpdate) with false by (symmetry; by apply Z.eqb_neq).
Qed.

(** Correlation ids drawn from one dispatcher are distinct as long as at
    most [2^32] are drawn; the counter then wraps around and repeats. *)
Lemma correlation_ids_distinct (n : nat) (Hn : Z.of_nat n <= 2 ^ 32) :
  NoDup (draw_ids n new_dispatcher).
Proof.
  apply NoDup_alt. intros i j c Hi Hj.
  pose proof (lookup_lt_Some _ _ _ Hi) as Li. pose proof (lookup_lt_Some _ _ _ Hj) as Lj.
  assert (Hlen : forall n st, length (draw_ids n st) = n).
  { clear. induction n as [|n IH]; intros st; [done|]. cbn. by rewrite IH. }
  rewrite Hlen in Li, Lj.
  apply draw_ids_lookup in Hi; [|done]. apply draw_ids_lookup in Hj; [|done]. subst c. cbn in Hj.
  apply wrap_inj_near in Hj; lia.
Qed.

Lemma correlation_ids_distinct_witness :
  draw_ids 3 new_dispatcher = [1; 2; 3] /\ NoDup (draw_ids 3 new_dispatcher).
Proof. split; [reflexivity|]. apply (correlation_ids_distinct 3). lia. Defined.
