(* ===== verification/Socket.v ===== *)
(** * Sockets: [socket.hpp], [socket.cpp]

    Descriptor ownership, the connection loop, and the blocking reader and writer
    of a connected socket.  System calls are the environment: their answers are
    inputs of the model (an [Attempt] per address, a script of [send] answers, a
    queue of [recv] events), and everything the code does with an answer is
    modelled.  A call that would wait forever gives [None]. *)

From S2P Require Import Prelude Errors Buffer Codec Frame Config.

Local Open Scope Z_scope.

(** ** The platform *)

(** The values of [errno] the code tells apart. *)
Inductive Errno := EINTR | EAGAIN | EWOULDBLOCK | EINPROGRESS | EOther (n : Z).

#[export] Instance Errno_eq_dec : EqDecision Errno.
Proof. solve_decision. Defined.

(** What the code takes from the C library without looking into it. *)
Class Platform := {
  strerror : Errno -> std_string;
  gai_strerror : Z -> std_string;
  O_NONBLOCK : Z
}.

(** ** Descriptors *)

Definition kInvalidFd : Z := -1.
Definition INT_MAX : Z := 2147483647.

(** [class Socket]. *)
Record Socket := MkSocket { fd_ : Z }.

(** The open descriptors of the process, with their status flags. *)
Abbreviation Fds := (gmap Z Z) (only parsing).

Module Sock.

(** [Socket()]. *)
Definition empty : Socket := MkSocket kInvalidFd.

Definition valid (s : Socket) : bool := negb (fd_ s =? kInvalidFd).

(** [release]: the descriptor, and the socket without it. *)
Definition release (s : Socket) : Z * Socket := (fd_ s, MkSocket kInvalidFd).

(** [Socket::close]; also the destructor. *)
Definition close (s : Socket) (fds : Fds) : Socket * Fds :=
  if negb (fd_ s =? kInvalidFd) then (MkSocket kInvalidFd, delete (fd_ s) fds) else (s, fds).

(** [Socket(Socket&& other)]: the new socket, and what is left of [other]. *)
Definition move (other : Socket) : Socket * Socket :=
  let '(f, other) := release other in (MkSocket f, other).

(** [operator=(Socket&& other)] on two distinct objects: the destination, the
    source, the descriptors. *)
Definition assign (this other : Socket) (fds : Fds) : Socket * Socket * Fds :=
  let '(_, fds) := close this fds in
  let '(f, other) := release other in
  (MkSocket f, other, fds).

(** [set_recv_timeout]: the [timeval] it passes to [setsockopt]. *)
Definition recv_timeval (ms : Z) : Z * Z :=
  (swrap 64 (Z.quot ms 1000), swrap 32 (Z.rem ms 1000 * 1000)).

End Sock.

(** ** Resolver *)

(** [struct ResolvedAddr]. *)
Record ResolvedAddr := MkAddr {
  family : Z;
  socktype : Z;
  protocol : Z;
  sockaddr : bytes
}.

(** [HostResolver]. *)
Abbreviation HostResolver := (list Z -> Z -> Result (list ResolvedAddr)) (only parsing).

Section connect.
Context `{Hplat : Platform}.

(** The answer of [getaddrinfo]: an error code, or the list of addresses. *)
Variable getaddrinfo : std_string -> std_string -> Z + list ResolvedAddr.

(** [default_resolve_host]. *)
Definition default_resolve_host (host : std_string) (port : Z) : Result (list ResolvedAddr) :=
  let port_str := to_string_u port in
  match getaddrinfo host port_str with
  | inl rc => err (mk_error Kind.ConnectFailed (lit "getaddrinfo: " ++ gai_strerror rc))
  | inr res =>
      let out := fold_left (fun out p => out ++ [p]) res [] in
      if zlen out =? 0 then
        err (mk_error Kind.ConnectFailed (lit "no addresses resolved for " ++ host))
      else ok out
  end.

(** The system calls of one connection attempt, with their answers: [socket],
    [fcntl(F_GETFL)], [fcntl(F_SETFL)] with [O_NONBLOCK], [connect] and its
    [errno], [poll] (given its timeout), [getsockopt(SO_ERROR)] and the error it
    reports, and the [fcntl] that restores the flags. *)
Record Attempt := MkAttempt {
  a_socket : Z;
  a_getfl : Z;
  a_setfl : Z;
  a_connect : Z;
  a_errno : Errno;
  a_poll : Z -> Z;
  a_getsockopt : Z;
  a_so_err : Z;
  a_restore : Z
}.

(** [fcntl(fd, F_SETFL, flags)] with the given answer. *)
Definition set_flags (answer fd flags : Z) (fds : Fds) : Fds :=
  if answer <? 0 then fds else <[fd := flags]> fds.

(** How an iteration of the loop ends: [continue], or [return]. *)
Inductive Iteration := Continue | Return (r : Result Socket).

Definition poll_ms (timeout : Z) : Z := swrap 32 (Z.min timeout INT_MAX).

(** The body of the loop of [connect_with_timeout]. *)
Definition connect_attempt (host : std_string) (timeout : Z) (a : Attempt) (fds : Fds)
  : Iteration * Fds :=
  let fd := a_socket a in
  if fd <? 0 then (Continue, fds)
  else
    let flags := a_getfl a in
    let fds := <[fd := flags]> fds in
    if (flags <? 0) || (a_setfl a <? 0) then (Continue, delete fd fds)
    else
      let fds := set_flags (a_setfl a) fd (Z.lor flags O_NONBLOCK) fds in
      if a_connect a =? 0 then
        (Return (ok (MkSocket fd)), set_flags (a_restore a) fd flags fds)
      else if negb (bool_decide (a_errno a = EINPROGRESS)) then (Continue, delete fd fds)
      else
        let pr := a_poll a (poll_ms timeout) in
        if pr <=? 0 then
          if pr =? 0 then
            (Return (err (mk_error Kind.ConnectFailed (lit "connect timed out to " ++ host))),
             delete fd fds)
          else (Continue, delete fd fds)
        else if (a_getsockopt a <? 0) || negb (a_so_err a =? 0) then (Continue, delete fd fds)
        else (Return (ok (MkSocket fd)), set_flags (a_restore a) fd flags fds).

Definition could_not_connect (host : std_string) (port : Z) : StreamError :=
  mk_error Kind.ConnectFailed
    (lit "could not connect to " ++ host ++ lit ":" ++ to_string_u port).

(** The loop over the resolved addresses; [answers] gives the system calls'
    answers for each address. *)
Fixpoint connect_loop (host : std_string) (port timeout : Z) (answers : ResolvedAddr -> Attempt)
  (addrs : list ResolvedAddr) (fds : Fds) : Result Socket * Fds :=
  match addrs with
  | [] => (err (could_not_connect host port), fds)
  | addr :: addrs =>
      match connect_attempt host timeout (answers addr) fds with
      | (Return r, fds) => (r, fds)
      | (Continue, fds) => connect_loop host port timeout answers addrs fds
      end
  end.

Definition connect_with_timeout (host : std_string) (port timeout : Z)
  (resolver : HostResolver) (answers : ResolvedAddr -> Attempt) (fds : Fds) : Result Socket * Fds :=
  match resolver host port with
  | err e => (err e, fds)
  | ok addrs => connect_loop host port timeout answers addrs fds
  end.
End connect.

(** [class TlsSocket], a scaffold: it never holds a descriptor. *)
Module TlsSocket.

Record t := Mk { sock_ : Socket }.

(** The member initialiser. *)
Definition empty : t := Mk Sock.empty.

Definition connect (this : t) (host : std_string) (port timeout : Z) : Result unit * t :=
  (err (mk_error Kind.ConnectFailed (lit "TLS not yet implemented; use plain TCP (port 5552)")), this).

Definition take_socket (this : t) : Socket * t :=
  let '(s, other) := Sock.move (sock_ this) in (s, Mk other).

End TlsSocket.

(** ** A connected socket *)

(** What [recv] meets next: a segment of the stream (possibly longer than asked
    for), the end of the stream, or a failure. *)
Inductive InEvent :=
  | Data (bs : bytes)
  | Eof
  | RecvFail (e : Errno).

(** What [send] answers: bytes accepted (at most those offered), or a failure. *)
Inductive SendEvent :=
  | Sent (n : nat)
  | SendFail (e : Errno).

(** The connection seen by the client: the events of the inbound side, the
    answers of the outbound side, the bytes handed to the kernel so far, and the
    log events emitted so far. *)
Record World := MkWorld {
  inbox : list InEvent;
  sends : list SendEvent;
  outbox : bytes;
  logs : list LogEvent
}.

Definition with_inbox (q : list InEvent) (w : World) : World :=
  MkWorld q (sends w) (outbox w) (logs w).

(** A blocking operation: [None] when it waits forever, otherwise a result and
    the connection after it. *)
Definition IO (A : Type) : Type := World -> option (Result A * World).

#[export] Instance io_ret : MRet IO := fun A x w => Some (ok x, w).
#[export] Instance io_bind : MBind IO := fun A B k m w =>
  match m w with
  | None => None
  | Some (ok x, w) => k x w
  | Some (err e, w) => Some (err e, w)
  end.

(** Return an error; use a result computed without I/O; emit a log event. *)
Definition io_fail {A} (e : StreamError) : IO A := fun w => Some (err e, w).
Definition io_lift {A} (r : Result A) : IO A := fun w => Some (r, w).
Definition io_log (e : LogEvent) : IO unit := fun w =>
  Some (ok tt, MkWorld (inbox w) (sends w) (outbox w) (logs w ++ [e])).

Section io.
Context `{Hplat : Platform}.

(** The loop of [SocketWriter::write_all]: [data] is what is left to send. *)
Fixpoint write_loop (data : bytes) (sends : list SendEvent) (out : bytes)
  : option (Result unit * list SendEvent * bytes) :=
  match data with
  | [] => Some (ok tt, sends, out)
  | _ =>
      match sends with
      | [] => None
      | SendFail e :: sends =>
          if bool_decide (e = EINTR) then write_loop data sends out
          else Some (err (mk_error Kind.IoError (lit "send: " ++ strerror e)), sends, out)
      | Sent k :: sends =>
          let n := Nat.min k (length data) in
          if (n =? 0)%nat then
            Some (err (mk_error Kind.ConnectionClosed (lit "connection closed during send")), sends, out)
          else write_loop (drop n data) sends (out ++ take n data)
      end
  end.

(** [SocketWriter::write_all]. *)
Definition write_all (data : bytes) : IO unit := fun w =>
  '(r, s, out) ← write_loop data (sends w) (outbox w);
  Some (r, MkWorld (inbox w) s out (logs w)).

(** [SocketReader::TimeoutMode]. *)
Inductive TimeoutMode := ReturnTimeout | TreatAsError.

Definition is_again (e : Errno) : bool := bool_decide (e = EAGAIN) || bool_decide (e = EWOULDBLOCK).

(** The loop of [SocketReader::read_exact], along the inbound events: [received]
    is what [dst] holds so far.  [recv] takes from a segment at most the bytes
    asked for, and leaves the rest of it; the end of the stream stays. *)
Fixpoint read_loop (n : nat) (mode : TimeoutMode) (received : bytes) (q : list InEvent)
  : option (Result bytes * list InEvent) :=
  if (n <=? length received)%nat then Some (ok received, q)
  else
    match q with
    | [] => None
    | Data bs :: q =>
        let want := (n - length received)%nat in
        if (length bs <=? want)%nat then read_loop n mode (received ++ bs) q
        else Some (ok (received ++ take want bs), Data (drop want bs) :: q)
    | Eof :: q =>
        Some (err (mk_error Kind.ConnectionClosed (lit "peer closed connection")), Eof :: q)
    | RecvFail e :: q =>
        if bool_decide (e = EINTR) then read_loop n mode received q
        else if is_again e && (match mode with ReturnTimeout => true | TreatAsError => false end)
             && (length received =? 0)%nat
        then Some (err (mk_error Kind.RequestTimeout (lit "recv timeout")), q)
        else Some (err (mk_error Kind.IoError (lit "recv: " ++ strerror e)), q)
    end.

(** [SocketReader::read_exact]; the bytes read are its result. *)
Definition read_exact (n : Z) (mode : TimeoutMode) : IO bytes := fun w =>
  '(r, q) ← read_loop (Z.to_nat n) mode [] (inbox w);
  Some (r, with_inbox q w).

(** [SocketReader::read_frame]. *)
Definition read_frame : IO IncomingFrame :=
  size_buf ← read_exact 4 ReturnTimeout;
  let declared :=
    Z.lor (Z.lor (Z.lor (wrap 32 (Z.shiftl (byte_at size_buf 0) 24))
                        (wrap 32 (Z.shiftl (byte_at size_buf 1) 16)))
                 (wrap 32 (Z.shiftl (byte_at size_buf 2) 8)))
          (byte_at size_buf 3) in
  if declared <? 4 then io_fail (mk_error Kind.ProtocolViolation (lit "frame Size < 4"))
  else
    body ← read_exact declared TreatAsError;
    let full_frame := (([] ++ size_buf) ++ body) in
    io_lift (fst (read_frame_auto (reader_of full_frame))).
End io.

(** ** The inbound side as a stream

    Segment boundaries and interrupted calls are invisible to the reader: it
    sees the bytes up to the next interruption, and that interruption. *)

Inductive Interruption :=
  | Closed (q : list InEvent)
  | Failed (e : Errno) (q : list InEvent).

Abbreviation Stream := (list Z * option Interruption)%type (only parsing).

Fixpoint stream (q : list InEvent) : Stream :=
  match q with
  | [] => ([], None)
  | Data bs :: q => let '(d, t) := stream q in (bs ++ d, t)
  | Eof :: q => ([], Some (Closed q))
  | RecvFail e :: q => if bool_decide (e = EINTR) then stream q else ([], Some (Failed e q))
  end.

Section spec.
Context `{Hplat : Platform}.

Definition peer_closed : StreamError :=
  mk_error Kind.ConnectionClosed (lit "peer closed connection").

(** Reading [n] bytes of a stream. *)
Definition spec_exact (n : nat) (mode : TimeoutMode) (s : Stream) : option (Result bytes * Stream) :=
  let '(d, t) := s in
  if (n <=? length d)%nat then Some (ok (take n d), (drop n d, t))
  else
    match t with
    | None => None
    | Some (Closed q) => Some (err peer_closed, ([], t))
    | Some (Failed e q) =>
        Some (match mode with
              | ReturnTimeout =>
                  if is_again e && (length d =? 0)%nat then
                    err (mk_error Kind.RequestTimeout (lit "recv timeout"))
                  else err (mk_error Kind.IoError (lit "recv: " ++ strerror e))
              | TreatAsError => err (mk_error Kind.IoError (lit "recv: " ++ strerror e))
              end, stream q)
    end.

(** Reading one frame of a stream: the declared size, then as many bytes. *)
Definition spec_frame (s : Stream) : option (Result IncomingFrame * Stream) :=
  match spec_exact 4 ReturnTimeout s with
  | None => None
  | Some (err e, s) => Some (err e, s)
  | Some (ok header, s) =>
      let declared := be_decode header in
      if declared <? 4 then Some (err (mk_error Kind.ProtocolViolation (lit "frame Size < 4")), s)
      else
        match spec_exact (Z.to_nat declared) TreatAsError s with
        | None => None
        | Some (err e, s) => Some (err e, s)
        | Some (ok body, s) => Some (fst (read_frame_auto (reader_of (header ++ body))), s)
        end
  end.

(** The abstraction: forget how the bytes are segmented. *)
Definition abs_queue {A} (x : A * list InEvent) : A * Stream := (x.1, stream x.2).
Definition abs_world {A} (x : A * World) : A * Stream := (x.1, stream (inbox x.2)).

Lemma read_loop_spec n mode q received :
  (length received <= n)%nat ->
  abs_queue <$> read_loop n mode received q
  = spec_exact n mode (received ++ (stream q).1, (stream q).2).
Proof.
  assert (Hdone : forall q received, length received = n ->
    abs_queue <$> Some (ok received, q) = spec_exact n mode (received ++ (stream q).1, (stream q).2)).
  { intros q' received' <-. cbn. rewrite leb_correct by (rewrite length_app; lia).
    unfold abs_queue. cbn. rewrite take_app_length, drop_app_length. by destruct (stream q'). }
  revert received. induction q as [|ev q IH]; intros received Hle; cbn [read_loop];
    destruct (Nat.leb_spec n (length received)) as [Hn|Hn];
    [by apply Hdone; lia| |by apply Hdone; lia|].
  - cbn. rewrite app_nil_r. by rewrite leb_correct_conv by lia.
  - destruct ev as [bs| |e]; cbn [stream].
    + destruct (Nat.leb_spec (length bs) (n - length received)) as [Hbs|Hbs].
      * rewrite IH by (rewrite length_app; lia). destruct (stream q) as [d t]. cbn [fst snd].
        by rewrite app_assoc.
      * cbn. destruct (stream q) as [d t] eqn:Hq. cbn.
        rewrite leb_correct by (rewrite !length_app; lia). unfold abs_queue. cbn. rewrite Hq.
        rewrite app_assoc, take_app_le, drop_app_le by (rewrite length_app; lia).
        rewrite take_app_ge, drop_app_ge by lia. done.
    + cbn. rewrite app_nil_r. by rewrite leb_correct_conv by lia.
    + case_bool_decide as He; [by apply IH|]. cbn. rewrite app_nil_r.
      rewrite leb_correct_conv by lia.
      destruct mode; rewrite ?andb_true_r, ?andb_false_r; cbn; [|done].
      by destruct (is_again e && _).
Qed.

Lemma read_exact_spec n mode w :
  abs_world <$> read_exact n mode w = spec_exact (Z.to_nat n) mode (stream (inbox w)).
Proof.
  unfold read_exact. pose proof (read_loop_spec (Z.to_nat n) mode (inbox w) []) as H.
  cbn [app] in H. rewrite <- surjective_pairing in H. rewrite <- H by (cbn; lia).
  by destruct (read_loop _ _ _ _) as [[r q]|].
Qed.

Lemma read_exact_inv n mode w r w' :
  read_exact n mode w = Some (r, w') ->
  spec_exact (Z.to_nat n) mode (stream (inbox w)) = Some (r, stream (inbox w')) /\
  w' = with_inbox (inbox w') w.
Proof.
  intros Hr. split; [by rewrite <- read_exact_spec, Hr|].
  revert Hr. unfold read_exact. destruct (read_loop _ _ _ _) as [[r' q]|]; [|done]. cbn.
  by intros [= <- <-].
Qed.

Lemma spec_exact_ok n mode d t bs s :
  spec_exact n mode (d, t) = Some (ok bs, s) ->
  (n <= length d)%nat /\ bs = take n d /\ s = (drop n d, t).
Proof.
  cbn. destruct (Nat.leb_spec n (length d)); [by intros [= <- <-]|].
  destruct t as [[q|e q]|]; [done| |done]. by destruct mode, (is_again e), (length d =? 0)%nat.
Qed.

(** The bytes of a stream before the first interruption. *)
Definition inbox_ok (w : World) : Prop := is_bytes (stream (inbox w)).1.

Lemma read_frame_spec w :
  inbox_ok w -> abs_world <$> read_frame w = spec_frame (stream (inbox w)).
Proof.
  intros Hb. unfold inbox_ok in Hb. unfold read_frame, spec_frame.
  pose proof (read_exact_spec 4 ReturnTimeout w) as Hx. change (Z.to_nat 4) with 4%nat in Hx.
  rewrite <- Hx. unfold mbind, io_bind at 1.
  destruct (read_exact 4 ReturnTimeout w) as [[[header|e] w1]|]; [|done..]. cbn in Hx |- *.
  destruct (stream (inbox w)) as [d t].
  symmetry in Hx. apply spec_exact_ok in Hx as (Hl & -> & Hs).
  rewrite u32_value by (auto using is_bytes_take; rewrite length_take; lia).
  set (declared := be_decode _). destruct (declared <? 4); [done|].
  pose proof (read_exact_spec declared TreatAsError w1) as Hx. rewrite <- Hx.
  unfold mbind, io_bind. by destruct (read_exact declared TreatAsError w1) as [[[body|e] w2]|].
Qed.
End spec.

(** ** Frames over a stream *)

Section frames.
Context `{Hplat : Platform}.

Lemma zlen_enc_frame f :
  zlen (enc_frame f)
  = 4 + zlen (enc_header (f_key f) (f_version f) (f_correlation_id f) ++ f_body f).
Proof. unfold enc_frame. cbn. zlen. Qed.

(** One frame at the head of the stream is read and leaves the rest. *)
Lemma spec_frame_enc f rest t :
  frame_ok f -> spec_frame (enc_frame f ++ rest, t) = Some (ok f, (rest, t)).
Proof.
  intros Hf. pose proof Hf as (_ & _ & Hl). pose proof (zlen_enc_frame f) as Hz.
  revert Hz. unfold enc_frame. cbn zeta.
  set (payload := enc_header _ _ _ ++ _) in *. intros _.
  assert (Hp : 4 <= zlen payload).
  { subst payload. rewrite zlen_app, zlen_enc_header. pose proof (zlen_nonneg (f_body f)).
    destruct (f_correlation_id f); lia. }
  assert (H4 : length (be_encode 4 (zlen payload)) = 4%nat)
    by (apply Nat2Z.inj; apply zlen_be_encode).
  unfold spec_frame, spec_exact at 1. rewrite leb_correct by (rewrite !length_app; lia).
  rewrite <- app_assoc, take_app_length', drop_app_length' by done.
  rewrite be_decode_encode by (cbn; range).
  destruct (Z.ltb_spec (zlen payload) 4); [lia|].
  unfold spec_exact. rewrite zlen_to_nat, leb_correct by (rewrite length_app; lia).
  rewrite take_app_length, drop_app_length. do 2 f_equal.
  change (be_encode 4 (zlen payload) ++ payload) with (enc_frame f).
  pose proof (parses_is_last _ _ _ (parses_frame f Hf)) as Hpf.
  rewrite <- at_start, Hpf; [done|]. unfold enc_frame. cbn zeta. fold payload. zlen.
Qed.

(** [n] frames, one after the other. *)
Fixpoint read_frames (n : nat) : IO (list IncomingFrame) :=
  match n with
  | O => mret []
  | S n => f ← read_frame; fs ← read_frames n; mret (f :: fs)
  end.

Lemma read_frame_inbox_ok w r w' :
  inbox_ok w -> read_frame w = Some (ok r, w') -> inbox_ok w'.
Proof.
  unfold inbox_ok. intros Hb Hr. pose proof (read_frame_spec w Hb) as Hs. rewrite Hr in Hs. cbn in Hs.
  unfold abs_world in Hs. cbn in Hs. symmetry in Hs. revert Hs. unfold spec_frame.
  destruct (stream (inbox w)) as [d t]. cbn in Hb.
  destruct (spec_exact 4 _ _) as [[[header|e] [d1 t1]]|] eqn:E1; [|done..].
  apply spec_exact_ok in E1 as (_ & -> & [= -> ->]).
  destruct (_ <? 4); [done|].
  destruct (spec_exact _ TreatAsError _) as [[[body|e] [d2 t2]]|] eqn:E2; [|done..].
  apply spec_exact_ok in E2 as (_ & -> & [= -> ->]). intros [= _ <-].
  cbn. auto with wf.
Qed.

Lemma read_frame_frame w r w' : read_frame w = Some (r, w') -> w' = with_inbox (inbox w') w.
Proof.
  unfold read_frame, mbind, io_bind.
  destruct (read_exact 4 _ w) as [[[h|e] w1]|] eqn:E1; [| |done].
  - apply read_exact_inv in E1 as [_ E1]. destruct (_ <? 4).
    + by intros [= <- <-].
    + destruct (read_exact _ TreatAsError w1) as [[[b|e] w2]|] eqn:E2; [| |done].
      * apply read_exact_inv in E2 as [_ E2]. intros [= _ <-]. by rewrite E2, E1.
      * apply read_exact_inv in E2 as [_ E2]. intros [= _ <-]. by rewrite E2, E1.
  - apply read_exact_inv in E1 as [_ E1]. by intros [= _ <-].
Qed.

(** What arrives later does not change what has been read. *)
Lemma read_loop_more n mode received q r q' more :
  read_loop n mode received q = Some (r, q') ->
  read_loop n mode received (q ++ more) = Some (r, q' ++ more).
Proof.
  revert received. induction q as [|ev q IH]; intros received; rewrite ?app_nil_l; cbn [app].
  - destruct more; cbn [read_loop]; destruct (n <=? length received)%nat; try done; by intros [= <- <-].
  - cbn [read_loop]. destruct (n <=? length received)%nat; [by intros [= <- <-]|].
    destruct ev as [bs| |e]; [|by intros [= <- <-]|].
    + destruct (length bs <=? n - length received)%nat; [apply IH|by intros [= <- <-]].
    + case_bool_decide; [apply IH|]. destruct (_ && _); by intros [= <- <-].
Qed.

Lemma read_exact_more n mode w w2 r w' more :
  read_exact n mode w = Some (r, w') -> inbox w2 = inbox w ++ more ->
  exists w2', read_exact n mode w2 = Some (r, w2') /\ inbox w2' = inbox w' ++ more.
Proof.
  unfold read_exact. intros H Hq. rewrite Hq.
  destruct (read_loop _ mode [] (inbox w)) as [[r1 q]|] eqn:E; [|done]. injection H as <- <-.
  rewrite (read_loop_more _ _ _ _ _ _ more E). by eexists.
Qed.

Lemma read_frame_more w w2 r w' more :
  read_frame w = Some (r, w') -> inbox w2 = inbox w ++ more -> 
  exists w2', read_frame w2 = Some (r, w2') /\ inbox w2' = inbox w' ++ more.
Proof.
  unfold read_frame, mbind, io_bind. intros H Hq.
  destruct (read_exact 4 _ w) as [[r1 w1]|] eqn:E1; [|done].
  destruct (read_exact_more _ _ _ _ _ _ _ E1 Hq) as (w3 & -> & Hq1).
  destruct r1 as [h|e]; [|injection H as <- <-; by eexists]. destruct (_ <? 4); [injection H as <- <-; by eexists|].
  destruct (read_exact _ TreatAsError w1) as [[r2 w4]|] eqn:E2; [|done].
  destruct (read_exact_more _ _ _ _ _ _ _ E2 Hq1) as (w5 & -> & Hq2).
  destruct r2 as [b|e]; injection H as <- <-; by eexists.
Qed.

(** A complete frame at the head of the inbox is returned. *)
Lemma read_frame_enc w f rest t :
  frame_ok f -> is_bytes rest -> stream (inbox w) = (enc_frame f ++ rest, t) ->
  exists w', read_frame w = Some (ok f, w') /\ stream (inbox w') = (rest, t) /\
    w' = with_inbox (inbox w') w.
Proof.
  intros Hf Hrest Hs. assert (Hok : inbox_ok w).
  { unfold inbox_ok. rewrite Hs. apply is_bytes_app. split; [by apply enc_frame_bytes|done]. }
  pose proof (read_frame_spec w Hok) as Hr. rewrite Hs, spec_frame_enc in Hr by done.
  destruct (read_frame w) as [[r w']|] eqn:E; [|done]. cbn in Hr. unfold abs_world in Hr.
  cbn in Hr. simplify_eq. exists w'. split; [done|]. split; [done|]. by eapply read_frame_frame.
Qed.

(** What the reader returns was at the head of the inbox. *)
Lemma read_frame_sound w f w' :
  inbox_ok w -> read_frame w = Some (ok f, w') ->
  exists rest t, stream (inbox w) = (enc_frame f ++ rest, t) /\ stream (inbox w') = (rest, t) /\
    frame_ok f.
Proof.
  intros Hb Hr. pose proof (read_frame_spec w Hb) as Hs. rewrite Hr in Hs.
  unfold abs_world in Hs. cbn in Hs. symmetry in Hs. unfold inbox_ok in Hb.
  destruct (stream (inbox w)) as [d t]. cbn in Hb. revert Hs. unfold spec_frame.
  destruct (spec_exact 4 _ _) as [[[header|e] [d1 t1]]|] eqn:E1; [|done..].
  apply spec_exact_ok in E1 as (Hl1 & -> & [= -> ->]).
  set (declared := be_decode (take 4 d)). destruct (declared <? 4); [done|].
  destruct (spec_exact _ TreatAsError _) as [[[body|e] [d2 t2]]|] eqn:E2; [|done..].
  apply spec_exact_ok in E2 as (Hl2 & -> & [= -> ->]). intros [= Hf Hs].
  set (n := Z.to_nat declared) in *.
  assert (Hd : in_u 32 declared).
  { pose proof (be_decode_range (take 4 d) (is_bytes_take _ _ Hb)) as Hd. revert Hd.
    unfold zlen. rewrite length_take, Nat.min_l by lia. done. }
  assert (Hlen : zlen (take 4 d ++ take n (drop 4 d)) = 4 + declared).
  { subst n. unfold zlen. rewrite length_app, !length_take. range. }
  assert (Hx : exists tail, take 4 d ++ take n (drop 4 d) = enc_frame f ++ tail /\ frame_ok f).
  { destruct (dspec_frame (reader_of (take 4 d ++ take n (drop 4 d)))) as [Hlater Hres].
    { apply reader_of_wf; [apply is_bytes_app; auto using is_bytes_take, is_bytes_drop|].
      rewrite Hlen. range. }
    destruct (read_frame_auto _) as [[f'|e] r']; cbn in Hf; [|done]. injection Hf as ->.
    destruct Hres as [Hc Hok]. cbn in Hc. unfold consumed, Reader.window in Hc. cbn in Hc.
    rewrite <- Hc. eexists. split; [|done]. by rewrite take_drop. }
  destruct Hx as (tail & Hx & Hok).
  assert (tail = []) as ->.
  { apply (f_equal (take 4)) in Hx as H4. apply (f_equal zlen) in Hx as Hz.
    rewrite take_app_length' in H4 by (rewrite length_take; lia).
    rewrite take_app_le in H4 by (pose proof (zlen_enc_frame f) as He; pose proof (zlen_nonneg
      (enc_header (f_key f) (f_version f) (f_correlation_id f) ++ f_body f)); unfold zlen in He; lia).
    unfold enc_frame in H4. cbn zeta in H4.
    rewrite take_app_length' in H4 by (apply Nat2Z.inj; symmetry; apply zlen_be_encode).
    apply (f_equal be_decode) in H4. destruct Hok as (_ & _ & Hok).
    rewrite be_decode_encode in H4 by (cbn; pose proof (zlen_nonneg
      (enc_header (f_key f) (f_version f) (f_correlation_id f) ++ f_body f)); range).
    rewrite Hlen, zlen_app, zlen_enc_frame, <- H4 in Hz. fold declared in Hz.
    by apply zlen_0; lia. }
  rewrite app_nil_r in Hx. exists (drop n (drop 4 d)), t. split; [|by rewrite Hs].
  rewrite <- Hx, <- app_assoc, take_drop, take_drop. done.
Qed.

(** Errors of the parser are never timeouts. *)
Lemma read_frame_auto_error bs e :
  is_bytes bs -> in_u 64 (zlen bs) -> fst (read_frame_auto (reader_of bs)) = err e -> frame_error e.
Proof.
  intros Hb Hl. destruct (dspec_frame (reader_of bs) (reader_of_wf bs Hb Hl)) as [_ H].
  destruct (read_frame_auto _) as [[f|e'] r]; cbn in *; [done|]. by intros [= <-].
Qed.

Lemma spec_exact_err n mode d t e s :
  spec_exact n mode (d, t) = Some (err e, s) ->
  (kind e = Kind.ConnectionClosed \/ kind e = Kind.IoError) \/
  mode = ReturnTimeout /\ kind e = Kind.RequestTimeout /\ d = [] /\
    exists e0 q, is_again e0 = true /\ t = Some (Failed e0 q) /\ s = stream q.
Proof.
  cbn. destruct (_ <=? _)%nat; [done|]. destruct t as [[q|e0 q]|]; [| |done].
  - intros [= <- <-]. by left; left.
  - destruct mode; [|by intros [= <- <-]; left; right].
    destruct (is_again e0) eqn:Ha; cbn; [|by intros [= <- <-]; left; right].
    destruct d; cbn; [|by intros [= <- <-]; left; right].
    intros [= <- <-]. right. eauto 10.
Qed.
End frames.

(** ** The outbound side *)

(** A [send] that makes progress, or one that was interrupted. *)
Definition send_proceeds (ev : SendEvent) : Prop :=
  match ev with Sent k => (0 < k)%nat | SendFail e => e = EINTR end.

Definition is_sent (ev : SendEvent) : bool := match ev with Sent _ => true | SendFail _ => false end.

#[export] Instance send_proceeds_dec ev : Decision (send_proceeds ev).
Proof. destruct ev; cbn; apply _. Defined.

Section send.
Context `{Hplat : Platform}.

Lemma write_loop_spec data sends out r s out' :
  write_loop data sends out = Some (r, s, out') ->
  exists sent rest, data = sent ++ rest /\ out' = out ++ sent /\
    match r with
    | ok _ => rest = []
    | err e => rest <> [] /\ (kind e = Kind.IoError \/ kind e = Kind.ConnectionClosed)
    end.
Proof.
  revert data out. induction sends as [|[k|e] sends IH]; intros data out;
    (destruct data as [|b data]; cbn [write_loop];
     [intros [= <- <- <-]; exists [], []; by rewrite !app_nil_r|]); [done| |].
  - destruct (Nat.eqb_spec (k `min` length (b :: data)) 0) as [Hz|Hnz].
    + intros [= <- <- <-]. exists [], (b :: data). rewrite app_nil_r. auto.
    + intros (sent & rest & Heq & -> & Hr)%IH.
      exists (take (k `min` length (b :: data)) (b :: data) ++ sent), rest.
      rewrite <- !app_assoc, <- Heq, take_drop. auto.
  - case_bool_decide; [by intros ?%IH|]. intros [= <- <- <-].
    exists [], (b :: data). rewrite app_nil_r. cbn. auto.
Qed.

(** As long as the answers proceed the buffer is sent, and each byte costs at
    most one answer. *)
Lemma write_loop_progress data sends out :
  Forall send_proceeds sends -> (length data <= length (List.filter is_sent sends))%nat ->
  exists s out', write_loop data sends out = Some (ok tt, s, out') /\ Forall send_proceeds s /\
    (length (List.filter is_sent sends) <= length data + length (List.filter is_sent s))%nat.
Proof.
  intros Hp. revert data out. induction Hp as [|[k|e] sends Hk Hp IH]; intros data out Hl;
    (destruct data as [|b data]; cbn [write_loop]; [by do 2 eexists; repeat split; auto|]);
    cbn in Hl; [lia| |].
  - destruct (Nat.eqb_spec (k `min` length (b :: data)) 0) as [|Hnz]; [cbn in *; lia|].
    destruct (IH (drop (k `min` length (b :: data)) (b :: data))
      (out ++ take (k `min` length (b :: data)) (b :: data))) as (s & out' & -> & Hs & Hc).
    { rewrite length_drop. cbn in *. lia. }
    do 2 eexists. split; [done|]. split; [done|]. rewrite length_drop in Hc. cbn in *. lia.
  - cbn in Hk. subst e. by apply IH.
Qed.
End send.

(** ** The connection loop *)

Section connecting.
Context `{Hplat : Platform}.

(** How an attempt ends, read off its answers. *)
Definition usable (a : Attempt) : bool :=
  (0 <=? a_socket a) && (0 <=? a_getfl a) && (0 <=? a_setfl a).
Definition in_progress (a : Attempt) : bool :=
  negb (a_connect a =? 0) && bool_decide (a_errno a = EINPROGRESS).
Definition succeeded (timeout : Z) (a : Attempt) : bool :=
  usable a &&
  ((a_connect a =? 0) ||
   in_progress a && (0 <? a_poll a (poll_ms timeout)) && (0 <=? a_getsockopt a) && (a_so_err a =? 0)).
Definition timed_out (timeout : Z) (a : Attempt) : bool :=
  usable a && in_progress a && (a_poll a (poll_ms timeout) =? 0).

(** The flags of the descriptor handed out: those it was created with, unless
    restoring them failed. *)
Definition final_flags (a : Attempt) : Z :=
  if a_restore a <? 0 then Z.lor (a_getfl a) O_NONBLOCK else a_getfl a.

Definition connect_timed_out (host : std_string) : StreamError :=
  mk_error Kind.ConnectFailed (lit "connect timed out to " ++ host).

Lemma connect_attempt_spec host timeout a fds :
  fds !! a_socket a = None ->
  connect_attempt host timeout a fds =
    if succeeded timeout a then
      (Return (ok (MkSocket (a_socket a))), <[a_socket a := final_flags a]> fds)
    else if timed_out timeout a then (Return (err (connect_timed_out host)), fds)
    else (Continue, fds).
Proof.
  intros Hf. unfold connect_attempt, succeeded, timed_out, usable, in_progress, final_flags, set_flags.
  rewrite !Z.leb_antisym.
  destruct (a_socket a <? 0); cbn; [done|].
  destruct (a_getfl a <? 0); cbn; [by rewrite delete_insert_id|].
  destruct (a_setfl a <? 0); cbn; [by rewrite delete_insert_id|]. rewrite insert_insert_eq.
  destruct (a_connect a =? 0); cbn.
  { destruct (a_restore a <? 0); by rewrite ?insert_insert_eq. }
  case_bool_decide; cbn; [|by rewrite delete_insert_id].
  set (p := a_poll a _). rewrite (Z.ltb_antisym p 0).
  destruct (Z.leb_spec p 0); cbn.
  { destruct (p =? 0); by rewrite delete_insert_id. }
  replace (p =? 0) with false by (symmetry; apply Z.eqb_neq; lia).
  destruct (a_getsockopt a <? 0); cbn; [by rewrite delete_insert_id|].
  destruct (a_so_err a =? 0); cbn; [|by rewrite delete_insert_id].
  destruct (a_restore a <? 0); by rewrite ?insert_insert_eq.
Qed.

Lemma connect_loop_spec host port timeout answers addrs fds :
  Forall (fun addr => fds !! a_socket (answers addr) = None) addrs ->
  connect_loop host port timeout answers addrs fds =
    match List.find (fun a => succeeded timeout a || timed_out timeout a) (answers <$> addrs) with
    | None => (err (could_not_connect host port), fds)
    | Some a =>
        if succeeded timeout a then
          (ok (MkSocket (a_socket a)), <[a_socket a := final_flags a]> fds)
        else (err (connect_timed_out host), fds)
    end.
Proof.
  induction 1 as [|addr addrs Hf _ IH]; cbn [connect_loop fmap list_fmap List.find]; [done|].
  rewrite connect_attempt_spec by done.
  destruct (succeeded timeout (answers addr)) eqn:Hs; cbn [orb]; [by rewrite Hs|].
  destruct (timed_out timeout (answers addr)); [by rewrite Hs|done].
Qed.

(** What connecting does to the open descriptors. *)
Lemma connect_with_timeout_fds host port timeout resolver answers fds r os :
  (forall addr, fds !! a_socket (answers addr) = None) ->
  connect_with_timeout host port timeout resolver answers fds = (r, os) ->
  match r with
  | ok s => fds !! fd_ s = None /\ 0 <= fd_ s /\ exists flags, os = <[fd_ s := flags]> fds
  | err _ => os = fds
  end.
Proof.
  intros Hf. unfold connect_with_timeout. destruct (resolver host port) as [addrs|e]; [|by intros [= <- <-]].
  rewrite connect_loop_spec by (by apply Forall_forall).
  destruct (List.find _ _) as [a|] eqn:Hfind; [|by intros [= <- <-]].
  apply List.find_some in Hfind as [Hin _]. apply list_elem_of_In, list_elem_of_fmap in Hin as (addr & -> & _).
  destruct (succeeded timeout (answers addr)) eqn:Hs; intros [= <- <-]; [|done].
  split; [apply Hf|]. split; [|by eexists]. cbn.
  unfold succeeded, usable in Hs. by repeat apply andb_true_iff in Hs as [Hs%Z.leb_le ?] || apply andb_true_iff in Hs as [Hs ?].
Qed.
End connecting.

(** ** Descriptor ownership *)

(** The socket objects of the program and the open descriptors. *)
Abbreviation Sockets := (list Socket) (only parsing).

(** The descriptor held by the [i]-th object. *)
Definition holds (ss : Sockets) (i : nat) : option Z :=
  s ← ss !! i; if Sock.valid s then Some (fd_ s) else None.

(** Every open descriptor is held by exactly one socket object, and a descriptor
    that is held is open. *)
Definition owns (ss : Sockets) (fds : Fds) : Prop :=
  (forall i j fd, holds ss i = Some fd -> holds ss j = Some fd -> i = j) /\
  (forall fd, is_Some (fds !! fd) <-> exists i, holds ss i = Some fd).

(** What the program does with socket objects: adopt a new descriptor, close or
    destroy one, move one into a new object, assign one to another. *)
Inductive SockOp := Adopt (fd flags : Z) | Close (i : nat) | Move (j : nat) | Assign (i j : nat).

Definition sock_step (op : SockOp) (ss : Sockets) (fds : Fds) : option (Sockets * Fds) :=
  match op with
  | Adopt fd flags =>
      if bool_decide (fds !! fd = None /\ 0 <= fd)
      then Some (ss ++ [MkSocket fd], <[fd := flags]> fds) else None
  | Close i =>
      s ← ss !! i;
      let '(s, fds) := Sock.close s fds in Some (<[i := s]> ss, fds)
  | Move j =>
      s ← ss !! j;
      let '(new, old) := Sock.move s in Some (<[j := old]> ss ++ [new], fds)
  | Assign i j =>
      this ← ss !! i; other ← ss !! j;
      if decide (i = j) then Some (ss, fds)
      else
        let '(this, other, fds) := Sock.assign this other fds in
        Some (<[j := other]> (<[i := this]> ss), fds)
  end.

Fixpoint sock_run (ops : list SockOp) (ss : Sockets) (fds : Fds) : option (Sockets * Fds) :=
  match ops with
  | [] => Some (ss, fds)
  | op :: ops => '(ss, fds) ← sock_step op ss fds; sock_run ops ss fds
  end.

Lemma holds_update ss i s s0 k :
  ss !! i = Some s0 ->
  holds (<[i := s]> ss) k
  = if decide (k = i) then (if Sock.valid s then Some (fd_ s) else None) else holds ss k.
Proof.
  intros Hi. unfold holds. case_decide; [subst|by rewrite list_lookup_insert_ne].
  by rewrite list_lookup_insert_eq by (by eapply lookup_lt_Some).
Qed.

Lemma holds_snoc ss s k :
  holds (ss ++ [s]) k
  = if decide (k = length ss) then (if Sock.valid s then Some (fd_ s) else None) else holds ss k.
Proof.
  unfold holds. case_decide; [subst; by rewrite list_lookup_middle|].
  destruct (decide (k < length ss)%nat).
  - by rewrite lookup_app_l.
  - rewrite !lookup_ge_None_2; [done|lia|]. rewrite length_app. cbn. lia.
Qed.

Lemma holds_some ss i s : ss !! i = Some s -> holds ss i = if Sock.valid s then Some (fd_ s) else None.
Proof. unfold holds. by intros ->. Qed.

(** Closing an object closes exactly the descriptor it holds. *)
Lemma close_fds ss i s fds fd :
  ss !! i = Some s -> is_Some ((Sock.close s fds).2 !! fd) <-> is_Some (fds !! fd) /\ holds ss i <> Some fd.
Proof.
  intros Hi. rewrite (holds_some _ _ _ Hi). unfold Sock.close, Sock.valid.
  destruct (fd_ s =? kInvalidFd); cbn; [naive_solver|].
  destruct (decide (fd_ s = fd)) as [<-|].
  - rewrite lookup_delete_eq, is_Some_alt. naive_solver.
  - rewrite lookup_delete_ne by done. naive_solver.
Qed.

Lemma close_socket s fds : (Sock.close s fds).1 = Sock.empty.
Proof.
  unfold Sock.close. destruct (Z.eqb_spec (fd_ s) kInvalidFd) as [He|]; [|done].
  destruct s. cbn in *. by subst.
Qed.

(** The objects hold as before, except that one descriptor moved. *)
Lemma owns_moved ss ss' fds i j :
  owns ss fds -> holds ss i = None ->
  (forall k, holds ss' k = if decide (k = j) then None else if decide (k = i) then holds ss j else holds ss k) ->
  i <> j -> owns ss' fds.
Proof.
  intros [Hinj Hopen] Hi Hss' Hne. split.
  - intros k1 k2 fd. rewrite !Hss'. repeat case_decide; subst; naive_solver.
  - intros fd. rewrite Hopen. split; intros [k Hk].
    + destruct (decide (k = j)) as [->|]; [exists i|exists k]; rewrite Hss'; repeat case_decide; congruence.
    + rewrite Hss' in Hk. repeat case_decide; naive_solver.
Qed.

Lemma owns_close ss fds i s :
  owns ss fds -> ss !! i = Some s -> owns (<[i := Sock.empty]> ss) (Sock.close s fds).2.
Proof.
  intros [Hinj Hopen] Hi. split.
  - intros k1 k2 fd. rewrite !(holds_update _ _ _ _ _ Hi). repeat case_decide; naive_solver.
  - intros fd. rewrite (close_fds _ _ _ _ _ Hi), Hopen. split.
    + intros [[k Hk] Hn]. exists k. rewrite (holds_update _ _ _ _ _ Hi). case_decide; congruence.
    + intros [k Hk]. rewrite (holds_update _ _ _ _ _ Hi) in Hk. case_decide; [done|].
      split; [eauto|]. intros ?. naive_solver.
Qed.

Lemma owns_step op ss fds ss' fds' :
  owns ss fds -> sock_step op ss fds = Some (ss', fds') -> owns ss' fds'.
Proof.
  intros Ho. destruct op as [fd flags|i|j|i j]; cbn.
  - case_bool_decide as Hfd; [|done]. intros [= <- <-]. destruct Hfd as [Hfd Hpos], Ho as [Hinj Hopen].
    assert (Hv : Sock.valid (MkSocket fd) = true)
      by (unfold Sock.valid, kInvalidFd; cbn; destruct (Z.eqb_spec fd (-1)); [lia|done]).
    assert (Hnew : forall k, holds ss k <> Some fd).
    { intros k Hk. assert (is_Some (fds !! fd)) as [? ?] by (apply Hopen; eauto). congruence. }
    split.
    + intros k1 k2 fd'. rewrite !holds_snoc, Hv. repeat case_decide; naive_solver.
    + intros fd'. rewrite lookup_insert_is_Some, Hopen. split.
      * intros [<-|[Hne [k Hk]]]; [exists (length ss)|exists k]; rewrite holds_snoc, Hv; case_decide; try done.
        subst k. unfold holds in Hk. by rewrite lookup_ge_None_2 in Hk by done.
      * intros [k Hk]. rewrite holds_snoc, Hv in Hk. case_decide; [naive_solver|].
        destruct (decide (fd = fd')); eauto.
  - destruct (ss !! i) as [s|] eqn:Hi; [|done]. cbn. pose proof (owns_close _ _ _ _ Ho Hi) as Hc.
    pose proof (close_socket s fds) as He. destruct (Sock.close s fds). cbn in *. subst.
    by intros [= <- <-].
  - destruct (ss !! j) as [s|] eqn:Hj; [|done]. cbn. intros [= <- <-].
    assert (Hout : holds ss (length ss) = None) by (unfold holds; by rewrite lookup_ge_None_2).
    eapply (owns_moved ss _ _ (length ss) j); [done|done| |].
    + intros k. rewrite holds_snoc, length_insert, (holds_update _ _ _ _ _ Hj), (holds_some _ _ _ Hj).
      pose proof (lookup_lt_Some _ _ _ Hj). repeat case_decide; (done || lia).
    + pose proof (lookup_lt_Some _ _ _ Hj). lia.
  - destruct (ss !! i) as [s|] eqn:Hi; [|done]. cbn. destruct (ss !! j) as [s'|] eqn:Hj; [|done]. cbn.
    destruct (decide (i = j)); [by intros [= <- <-]|].
    pose proof (owns_close _ _ _ _ Ho Hi) as Hc. unfold Sock.assign. destruct (Sock.close s fds) as [s1 fds1].
    cbn in *. intros [= <- <-].
    assert (Hj' : <[i := MkSocket (fd_ s')]> ss !! j = Some s') by (by rewrite list_lookup_insert_ne).
    eapply (owns_moved _ _ _ i j); [done| | |done].
    + rewrite (holds_update _ _ _ _ _ Hi). by rewrite decide_True.
    + intros k. rewrite (holds_update _ _ _ _ _ Hj'), !(holds_update _ _ _ _ _ Hi).
      rewrite (decide_False (P := j = i)) by done. rewrite (holds_some _ _ _ Hj).
      repeat case_decide; done.
Qed.

Lemma owns_run ops ss fds ss' fds' :
  owns ss fds -> sock_run ops ss fds = Some (ss', fds') -> owns ss' fds'.
Proof.
  revert ss fds. induction ops as [|op ops IH]; intros ss fds Ho; cbn; [by intros [= <- <-]|].
  destruct (sock_step op ss fds) as [[ss1 fds1]|] eqn:E; [|done]. cbn. by apply IH, (owns_step op ss fds).
Qed.

Lemma owns_new : owns [] ∅.
Proof.
  split; [done|]. intros fd. rewrite lookup_empty. split; [by intros []|]. by intros [i ?].
Qed.

(** ** Properties *)

#[export] Instance InEvent_eq_dec : EqDecision InEvent.
Proof. solve_decision. Defined.

(** A platform for the concrete examples. *)
Definition sample_platform : Platform :=
  {| strerror _ := lit "failure"; gai_strerror _ := lit "unknown"; O_NONBLOCK := 2048 |}.

(** C23.  The reader does not depend on how the network cuts the stream.  Reading
    a frame from any sequence of segments, interruptions by signals, timeouts and
    closes gives what [spec_frame] gives on the underlying byte stream, whether it
    returns a frame, an error, or waits; it never touches the outbound side. *)
Theorem read_frame_segmentation {P : Platform} (w : World) (Hw : inbox_ok w) :
  abs_world <$> read_frame w = spec_frame (stream (inbox w)) /\
  (forall r w', read_frame w = Some (r, w') -> w' = with_inbox (inbox w') w).
Proof. split; [by apply read_frame_spec|]. intros r w'. apply read_frame_frame. Qed.

(** A heartbeat cut into three segments, with an interrupted call in between. *)
Definition cut_heartbeat : World :=
  MkWorld [Data [0; 0]; RecvFail EINTR; Data [0; 4; 0]; Data [0x17; 0; 1; 0; 0]] [] [] [].

Lemma read_frame_segmentation_witness :
  inbox_ok cut_heartbeat /\
  spec_frame (Hplat := sample_platform) (stream (inbox cut_heartbeat))
  = Some (ok (MkFrame 0x17 1 [] None), ([0; 0], None)) /\
  abs_world <$> read_frame (Hplat := sample_platform) cut_heartbeat
  = Some (ok (MkFrame 0x17 1 [] None), ([0; 0], None)).
Proof.
  assert (Hw : inbox_ok cut_heartbeat) by (unfold inbox_ok; decided).
  split; [exact Hw|]. split; [vm_compute; reflexivity|].
  rewrite (proj1 (read_frame_segmentation (P := sample_platform) cut_heartbeat Hw)).
  vm_compute. reflexivity.
Defined.

(** Frames are delivered in order, whole and exactly once.  When the
    underlying stream starts with the wire forms of a sequence of frames, however
    it is segmented, reading as many frames returns exactly that sequence and
    leaves the bytes that follow. *)
Lemma frames_delivered {P : Platform} (fs : list IncomingFrame) (rest : bytes) t (w : World)
  (Hfs : Forall frame_ok fs) (Hrest : is_bytes rest)
  (Hw : stream (inbox w) = (concat (map enc_frame fs) ++ rest, t)) :
  exists w', read_frames (length fs) w = Some (ok fs, w') /\ stream (inbox w') = (rest, t).
Proof.
  revert w Hw. induction Hfs as [|f fs Hf Hfs IH]; intros w Hw; [by exists w|].
  cbn in Hw. rewrite <- app_assoc in Hw. apply read_frame_enc in Hw as (w1 & Hr & Hw1 & _); [|done|].
  - destruct (IH w1 Hw1) as (w2 & Hr2 & Hw2). exists w2. split; [|done].
    cbn [read_frames length]. unfold mbind, io_bind, mret, io_ret. by rewrite Hr, Hr2.
  - apply is_bytes_app. split; [by apply enc_frames_bytes|done].
Qed.

Lemma frames_delivered_witness :
  let hb := MkFrame 0x17 1 [] None in
  let close := MkFrame 0x8016 1 [0; 1] (Some 9) in
  exists w', read_frames (Hplat := sample_platform) 2
      (MkWorld [Data [0; 0; 0; 4; 0; 0x17; 0]; Data [1; 0; 0]; RecvFail EINTR;
                Data [0; 10; 0x80; 0x16; 0; 1; 0; 0; 0; 9; 0; 1; 77]; Eof] [] [] [])
    = Some (ok [hb; close], w') /\ stream (inbox w') = ([77], Some (Closed [])).
Proof.
  cbn zeta. refine (frames_delivered (P := sample_platform) [_; _] [77] (Some (Closed [])) _ _ _ _).
  - decided.
  - decided.
  - vm_compute. reflexivity.
Defined.

(** A receive timeout is only reported between frames.  [read_frame]
    returns [RequestTimeout] only when the timeout fires before the first byte of
    a frame, and then nothing is consumed but the timeout; a timeout, close or
    failure inside a frame is a [ConnectionClosed] or [IoError], and malformed
    bytes are a [DecodeError] or [ProtocolViolation]. *)
Lemma timeout_between_frames {P : Platform} (w w' : World) (e : StreamError)
  (Hw : inbox_ok w) (Hr : read_frame w = Some (err e, w')) :
  (kind e = Kind.RequestTimeout /\
     exists e0 q, is_again e0 = true /\ stream (inbox w) = ([], Some (Failed e0 q)) /\
       stream (inbox w') = stream q) \/
  kind e = Kind.ConnectionClosed \/ kind e = Kind.IoError \/
  kind e = Kind.DecodeError \/ kind e = Kind.ProtocolViolation.
Proof.
  pose proof (read_frame_spec w Hw) as Hs. rewrite Hr in Hs. unfold abs_world in Hs. cbn in Hs.
  symmetry in Hs. unfold inbox_ok in Hw. destruct (stream (inbox w)) as [d t]. cbn in Hw.
  revert Hs. unfold spec_frame.
  destruct (spec_exact 4 _ _) as [[[header|e1] [d1 t1]]|] eqn:E1; [| |done].
  - apply spec_exact_ok in E1 as (Hl & -> & [= -> ->]).
    destruct (_ <? 4) eqn:E4; [intros [= <- _]; cbn; tauto|].
    destruct (spec_exact _ TreatAsError _) as [[[body|e2] [d2 t2]]|] eqn:E2; [| |done].
    + apply spec_exact_ok in E2 as (Hl2 & -> & _). intros [= He _].
      apply read_frame_auto_error in He as [|]; [tauto|tauto| |].
      { apply is_bytes_app. by auto using is_bytes_take, is_bytes_drop. }
      assert (Hd : in_u 32 (be_decode (take 4 d))).
      { pose proof (be_decode_range (take 4 d) (is_bytes_take _ _ Hw)) as Hd. revert Hd.
        unfold zlen. rewrite length_take, Nat.min_l by lia. done. }
      revert Hl2. unfold zlen. rewrite !length_app, !length_take, !length_drop. range.
    + intros [= <- _]. apply spec_exact_err in E2 as [[|]|(? & _)]; [tauto|tauto|done].
  - intros [= <- Hs]. apply spec_exact_err in E1 as [[|]|(_ & Hk & -> & e0 & q & Ha & -> & Hq)];
      [tauto|tauto|]. left. split; [done|]. exists e0, q. split; [done|]. split; [done|]. by rewrite <- Hs.
Qed.

Lemma timeout_between_frames_witness :
  let w := MkWorld [RecvFail EINTR; RecvFail EAGAIN; Data [1; 2]] [] [] [] in
  inbox_ok w /\ exists e w', read_frame (Hplat := sample_platform) w = Some (err e, w') /\
    kind e = Kind.RequestTimeout /\
    ((kind e = Kind.RequestTimeout /\
       exists e0 q, is_again e0 = true /\ stream (inbox w) = ([], Some (Failed e0 q)) /\
         stream (inbox w') = stream q) \/
     kind e = Kind.ConnectionClosed \/ kind e = Kind.IoError \/
     kind e = Kind.DecodeError \/ kind e = Kind.ProtocolViolation).
Proof.
  cbn zeta. assert (Hw : inbox_ok (MkWorld [RecvFail EINTR; RecvFail EAGAIN; Data [1; 2]] [] [] []))
    by (unfold inbox_ok; decided).
  split; [exact Hw|].
  eexists _, _. split; [vm_compute; reflexivity|]. split; [reflexivity|].
  exact (timeout_between_frames (P := sample_platform) _ _ _ Hw eq_refl).
Defined.

(** The writer sends the bytes of the buffer in order and without holes.
    The bytes handed to the kernel are always a prefix of the buffer, all of it
    exactly when the call succeeds; a failure is an [IoError] or a
    [ConnectionClosed]; and as long as every [send] makes progress or is
    interrupted by a signal the call succeeds, however short the writes are. *)
Lemma write_all_spec {P : Platform} (data : bytes) (w : World) :
  (forall r w', write_all data w = Some (r, w') ->
     inbox w' = inbox w /\ logs w' = logs w /\
     exists sent rest, data = sent ++ rest /\ outbox w' = outbox w ++ sent /\
       match r with
       | ok _ => rest = []
       | err e => rest <> [] /\ (kind e = Kind.IoError \/ kind e = Kind.ConnectionClosed)
       end) /\
  (Forall send_proceeds (sends w) ->
   (length data <= length (List.filter is_sent (sends w)))%nat ->
   exists w', write_all data w = Some (ok tt, w') /\ outbox w' = outbox w ++ data).
Proof.
  unfold write_all. split.
  - intros r w'. destruct (write_loop _ _ _) as [[[r' s] out]|] eqn:E; [|done].
    apply write_loop_spec in E. cbn. intros [= <- <-]. auto.
  - intros Hp Hl. destruct (write_loop_progress data _ (outbox w) Hp Hl) as (s & out & Hs & _).
    rewrite Hs. eexists. split; [done|]. cbn.
    apply write_loop_spec in Hs as (sent & rest & -> & -> & ->). by rewrite app_nil_r.
Qed.

Lemma write_all_spec_witness :
  let w := MkWorld [] [Sent 1; SendFail EINTR; Sent 5; Sent 1; Sent 1] [9] [] in
  exists w', write_all (Hplat := sample_platform) [1; 2; 3] w = Some (ok tt, w') /\
    outbox w' = [9; 1; 2; 3].
Proof.
  cbn zeta. set (w := MkWorld _ _ _ _).
  destruct (proj2 (write_all_spec (P := sample_platform) [1; 2; 3] w)) as (w' & H1 & H2).
  - decided.
  - cbn. lia.
  - exists w'. split; [exact H1|exact H2].
Defined.

(** C31.  Connecting.  The addresses of the resolver are tried in order; the first
    one whose attempt succeeds or runs into the timeout decides the result: a
    socket on that attempt's descriptor, or [ConnectFailed].  The socket has its
    original (blocking) flags back if the last [fcntl] succeeds; if that one fails,
    the source ignores it, and the socket that is handed out keeps [O_NONBLOCK].
    If no attempt decides, or the resolver fails, the error is reported.  Whatever
    the system calls answer, no descriptor leaks: apart from the one handed out, the
    open descriptors are those open before. *)
Theorem connect_with_timeout_spec {P : Platform} (host : std_string) (port timeout : Z)
  (resolver : HostResolver) (answers : ResolvedAddr -> Attempt) (fds : Fds)
  (Hfresh : forall addr, fds !! a_socket (answers addr) = None) :
  connect_with_timeout host port timeout resolver answers fds =
    match resolver host port with
    | err e => (err e, fds)
    | ok addrs =>
        match List.find (fun a => succeeded timeout a || timed_out timeout a) (answers <$> addrs) with
        | Some a =>
            if succeeded timeout a then
              (ok (MkSocket (a_socket a)), <[a_socket a := final_flags a]> fds)
            else (err (connect_timed_out host), fds)
        | None => (err (could_not_connect host port), fds)
        end
    end.
Proof.
  unfold connect_with_timeout. destruct (resolver host port) as [addrs|e]; [|done].
  apply connect_loop_spec. by apply Forall_forall.
Qed.

(** Two addresses: the first is refused, the second connects in the background. *)
Definition refused : Attempt := MkAttempt 5 2 0 (-1) (EOther 111) (fun _ => 1) 0 0 0.
Definition pending_connect : Attempt := MkAttempt 6 2 0 (-1) EINPROGRESS (fun ms => if ms =? 1000 then 1 else 0) 0 0 0.

(** The same, but its flags cannot be restored. *)
Definition unrestored : Attempt := MkAttempt 6 2 0 (-1) EINPROGRESS (fun ms => if ms =? 1000 then 1 else 0) 0 0 (-1).

Lemma connect_with_timeout_spec_witness :
  let addr f := MkAddr f 1 6 [] in
  let answers a := if family a =? 2 then refused else pending_connect in
  (forall a, (∅ : Fds) !! a_socket (answers a) = None) /\
  connect_with_timeout (Hplat := sample_platform) (lit "h") 5552 1000 (fun _ _ => ok [addr 2; addr 10]) answers ∅
  = (ok (MkSocket 6), {[6 := 2]}) /\
  connect_with_timeout (Hplat := sample_platform) (lit "h") 5552 1000 (fun _ _ => ok [addr 10]) (fun _ => unrestored) ∅
  = (ok (MkSocket 6), {[6 := 2 + O_NONBLOCK (Platform := sample_platform)]}).
Proof.
  cbn zeta. assert (Hf : forall a, (∅ : Fds) !! a_socket (if family a =? 2 then refused else pending_connect) = None)
    by (intros a; apply lookup_empty).
  split; [exact Hf|]. split.
  2: { rewrite (connect_with_timeout_spec (P := sample_platform) (lit "h") 5552 1000
         (fun _ _ => ok [MkAddr 10 1 6 []]) (fun _ => unrestored) ∅ (fun _ => lookup_empty _)).
       vm_compute. reflexivity. }
  rewrite (connect_with_timeout_spec (P := sample_platform) (lit "h") 5552 1000
    (fun _ _ => ok [MkAddr 2 1 6 []; MkAddr 10 1 6 []]) _ ∅ Hf).
  vm_compute. reflexivity.
Defined.

(** Descriptors have one owner.  Starting from no sockets, any sequence of
    adopting descriptors, closing, moving and assigning socket objects keeps every
    open descriptor in exactly one object and never leaves an object with a closed
    descriptor: nothing leaks and nothing is closed twice. *)
Lemma sockets_own_descriptors (ops : list SockOp) (ss : Sockets) (fds : Fds)
  (Hrun : sock_run ops [] ∅ = Some (ss, fds)) : owns ss fds.
Proof. eapply owns_run; [apply owns_new|done]. Qed.

Lemma sockets_own_descriptors_witness :
  let ops := [Adopt 5 0; Adopt 6 0; Move 0; Assign 1 2; Close 0] in
  sock_run ops [] ∅ = Some ([MkSocket (-1); MkSocket 5; MkSocket (-1)], {[5 := 0]}) /\
  owns [MkSocket (-1); MkSocket 5; MkSocket (-1)] {[5 := 0]}.
Proof.
  cbn zeta.
  assert (H : sock_run [Adopt 5 0; Adopt 6 0; Move 0; Assign 1 2; Close 0] [] ∅
              = Some ([MkSocket (-1); MkSocket 5; MkSocket (-1)], {[5 := 0]})) by (vm_compute; reflexivity).
  split; [exact H|]. exact (sockets_own_descriptors _ _ _ H).
Defined.

(** The TLS scaffold: connecting fails, and the socket that can be taken from it has
    no descriptor. *)
Lemma tls_never_connects (host : std_string) (port timeout : Z) :
  let '(r, this) := TlsSocket.connect TlsSocket.empty host port timeout in
  (exists e, r = err e /\ kind e = Kind.ConnectFailed) /\ Sock.valid (TlsSocket.take_socket this).1 = false.
Proof. split; [by eexists|done]. Qed.

Example recv_timeval_30s : Sock.recv_timeval 30500 = (30, 500000).
Proof. reflexivity. Qed.
