(* ===== verification/Concurrency.v ===== *)
(** * Concurrency: the locks of the dispatcher and of the writer

    [Dispatcher] and [SocketWriter] are shared by the callers, the I/O thread and
    the heartbeat thread.  Here their operations are interleaved at the grain of
    the source: a critical section under the mutex is one step, and so is each
    [set_value] or [send] outside of it.  Every schedule is shown to be equivalent
    to running the operations one after the other, in the order of their critical
    sections, which is what the other files reason about. *)

From S2P Require Import Prelude Errors Buffer Codec Frame Config Dispatcher Socket.

Local Open Scope Z_scope.

(** ** Schedules *)

(** A schedule is the list of the threads that take a step. *)
Section schedule.
Context {Config : Type} (thread_step : nat -> Config -> option Config).

Fixpoint run_schedule (sched : list nat) (cfg : Config) : option Config :=
  match sched with
  | [] => Some cfg
  | i :: sched => cfg ← thread_step i cfg; run_schedule sched cfg
  end.

Lemma run_schedule_invariant (I : Config -> Prop) sched cfg cfg' :
  (forall i cfg cfg', I cfg -> thread_step i cfg = Some cfg' -> I cfg') ->
  I cfg -> run_schedule sched cfg = Some cfg' -> I cfg'.
Proof.
  intros Hstep. revert cfg. induction sched as [|i sched IH]; intros cfg HI; cbn; [by intros [= <-]|].
  destruct (thread_step i cfg) as [cfg1|] eqn:E; [|done]. cbn. apply IH. by eapply Hstep.
Qed.
End schedule.

(** Changing one thread changes its share of what all threads hold. *)
Lemma concat_insert {A B} (f : A -> list B) (ts : list A) i t :
  ts !! i = Some t ->
  exists rest, concat (f <$> ts) ≡ₚ f t ++ rest /\
    forall t', concat (f <$> <[i := t']> ts) ≡ₚ f t' ++ rest.
Proof.
  intros Hi. exists (concat (f <$> take i ts) ++ concat (f <$> drop (S i) ts)).
  assert (Hp : forall t', concat (f <$> (take i ts ++ t' :: drop (S i) ts))
    ≡ₚ f t' ++ concat (f <$> take i ts) ++ concat (f <$> drop (S i) ts)).
  { intros t'. rewrite fmap_app, fmap_cons, concat_app, concat_cons.
    rewrite !app_assoc. by rewrite (Permutation_app_comm (concat _) (f t')). }
  split; [by rewrite <- Hp, take_drop_middle|]. intros t'.
  rewrite insert_take_drop by by eapply lookup_lt_Some. apply Hp.
Qed.

(** The elements of thread [i] in a history. *)
Definition of_thread {A} (i : nat) (hist : list (nat * A)) : list A :=
  (filter (fun x => x.1 = i) hist).*2.

Lemma of_thread_snoc {A} i j (x : A) hist :
  of_thread i (hist ++ [(j, x)]) = of_thread i hist ++ (if decide (j = i) then [x] else []).
Proof.
  unfold of_thread. rewrite filter_app, fmap_app. f_equal. rewrite filter_cons, filter_nil. cbn.
  by case_decide.
Qed.

(** ** The dispatcher *)

(** A promise to satisfy, and with what. *)
Abbreviation Todo := (nat * Result IncomingFrame)%type (only parsing).

(** The part of an operation under [mu_]: what it returns, the promises it has
    taken out of the table and satisfies after releasing the lock, and the state. *)
Definition critical (op : Op) (st : Dispatcher) : Out * list Todo * Dispatcher :=
  match op with
  | NextCorrelationId => let '(c, st) := next_correlation_id st in (OutId c, [], st)
  | RegisterPending cid d => let '(n, st) := register_pending cid d st in (OutFuture n, [], st)
  | Dispatch f =>
      if key.is_response (f_key f) then
        match f_correlation_id f with
        | None => (OutBool false, [], st)
        | Some cid =>
            match pending_ st !! cid with
            | None => (OutBool false, [], st)
            | Some e =>
                (OutBool true, [(promise e, ok f)],
                 with_pending st (delete cid (pending_ st)) (promises st))
            end
        end
      else let '(b, st) := dispatch_oneway f st in (OutBool b, [], st)
  | FailAllPending e =>
      (OutUnit, (fun x => (promise x, err e)) <$> entries (pending_ st), with_pending st ∅ (promises st))
  | ReapExpired now =>
      let expired := filter (fun kv => is_expired now kv.2 = true) (pending_ st) in
      let kept := filter (fun kv => is_expired now kv.2 = false) (pending_ st) in
      (OutCount (zlen (entries expired)),
       (fun x => (promise x, err request_timed_out)) <$> entries expired,
       with_pending st kept (promises st))
  | OnHeartbeat h => (OutUnit, [], on_heartbeat h st)
  | OnMetadataUpdate h => (OutUnit, [], on_metadata_update h st)
  end.

(** The rest of an operation: satisfy the promises it has taken. *)
Fixpoint settle_todo (todo : list Todo) (ps : Promises) : option Promises :=
  match todo with
  | [] => Some ps
  | (n, r) :: todo => ps ← set_value n r ps; settle_todo todo ps
  end.

(** A thread: the promises it still has to satisfy for the operation it is in, and
    the operations it has not started. *)
Record Thread := MkThread { to_set : list Todo; program : list Op }.

(** The threads, the shared dispatcher, and the critical sections so far. *)
Record Threads := MkThreads {
  threads : list Thread;
  shared : Dispatcher;
  history : list (nat * (Op * Out))
}.

(** One step of thread [i]: satisfy a promise, or enter the next operation.  No
    step when the thread has finished, or when [set_value] throws. *)
Definition thread_step (i : nat) (cfg : Threads) : option Threads :=
  t ← threads cfg !! i;
  match to_set t with
  | (n, r) :: todo =>
      ps ← set_value n r (promises (shared cfg));
      Some (MkThreads (<[i := MkThread todo (program t)]> (threads cfg))
              (with_pending (shared cfg) (pending_ (shared cfg)) ps) (history cfg))
  | [] =>
      match program t with
      | [] => None
      | op :: ops =>
          let '(out, todo, st) := critical op (shared cfg) in
          Some (MkThreads (<[i := MkThread todo ops]> (threads cfg)) st
                  (history cfg ++ [(i, (op, out))]))
      end
  end.

Definition start (progs : list (list Op)) : Threads :=
  MkThreads (MkThread [] <$> progs) new_dispatcher [].

(** All the promises taken out of the table and not satisfied yet. *)
Definition in_flight (cfg : Threads) : list Todo := concat (to_set <$> threads cfg).

(** The operations in the order of their critical sections. *)
Definition ops_of (cfg : Threads) : list Op := (history cfg).*2.*1.
Definition outs_of (cfg : Threads) : list Out := (history cfg).*2.*2.

(** An operation run alone is its critical section, then its [set_value]s. *)
Lemma settle_all_todo es r ps :
  settle_todo ((fun e => (promise e, r)) <$> es) ps = settle_all es r ps.
Proof.
  revert ps. induction es as [|e es IH]; intros ps; cbn; [done|].
  destruct (set_value _ _ _); cbn; [apply IH|done].
Qed.

Lemma step_critical op st :
  step op st =
    let '(out, todo, st') := critical op st in
    ps ← settle_todo todo (promises st'); Some (out, with_pending st' (pending_ st') ps).
Proof.
  assert (Hid : forall st, with_pending st (pending_ st) (promises st) = st) by by intros [].
  destruct op as [|cid d|f|e|now|h|h]; cbn [step critical].
  - done.
  - unfold register_pending. by destruct (pending_ st !! cid).
  - unfold dispatch. destruct (key.is_response _).
    + destruct (f_correlation_id f) as [cid|]; [|cbn; by rewrite Hid].
      destruct (pending_ st !! cid) as [e|]; [|cbn; by rewrite Hid]. cbn.
      by destruct (set_value _ _ _).
    + destruct (dispatch_oneway f st) as [b st']. cbn. by rewrite Hid.
  - cbn. rewrite settle_all_todo. unfold fail_all_pending. by destruct (settle_all _ _ _).
  - cbn. rewrite settle_all_todo. unfold reap_expired. by destruct (settle_all _ _ _).
  - done.
  - done.
Qed.

(** ** Promises in flight *)

(** [ps'] is [ps] with the promises of [todo], all different, satisfied. *)
Definition lag (todo : list Todo) (ps ps' : Promises) : Prop :=
  length ps = length ps' /\ NoDup todo.*1 /\
  (forall n r, (n, r) ∈ todo -> ps !! n = Some Unset /\ ps' !! n = Some (Satisfied r)) /\
  (forall n, n ∉ todo.*1 -> ps !! n = ps' !! n).

Lemma lag_nil ps ps' : lag [] ps ps' <-> ps = ps'.
Proof.
  split.
  - intros (_ & _ & _ & H). apply list_eq. intros n. apply H. set_solver.
  - intros ->. split; [done|]. split; [constructor|]. split; [set_solver|done].
Qed.

Lemma lag_perm todo todo' ps ps' : todo ≡ₚ todo' -> lag todo ps ps' -> lag todo' ps ps'.
Proof.
  intros Hp (Hl & Hnd & Ht & Hn). split; [done|]. split; [by rewrite <- Hp|].
  split; [intros n r; rewrite <- Hp; apply Ht|intros n; rewrite <- Hp; apply Hn].
Qed.

(** Satisfying the next promise catches up. *)
Lemma lag_cons n r todo ps ps' :
  lag ((n, r) :: todo) ps ps' <->
  exists ps1, set_value n r ps = Some ps1 /\ lag todo ps1 ps'.
Proof.
  unfold set_value. split.
  - intros (Hl & Hnd & Ht & Hn). cbn in Hnd. apply NoDup_cons in Hnd as [Hnin Hnd].
    destruct (Ht n r ltac:(set_solver)) as [Hu Hs]. rewrite Hu. eexists. split; [done|].
    split; [by rewrite length_insert|]. split; [done|]. split.
    + intros n' r' Hin. assert (n <> n') by (intros ->; apply Hnin; by apply (list_elem_of_fmap_2 fst _ (n', r'))).
      rewrite list_lookup_insert_ne by done. apply Ht. set_solver.
    + intros n' Hn'. destruct (decide (n = n')) as [<-|Hne].
      * rewrite list_lookup_insert_eq; [done|]. by eapply lookup_lt_Some.
      * rewrite list_lookup_insert_ne by done. apply Hn. cbn. set_solver.
  - intros (ps1 & Hs & Hl & Hnd & Ht & Hn). destruct (ps !! n) as [[]|] eqn:Hu; [|done..].
    injection Hs as <-. rewrite length_insert in Hl.
    assert (Hlt : (n < length ps)%nat) by by eapply lookup_lt_Some.
    assert (Hnin : n ∉ todo.*1).
    { intros ([n' r'] & -> & Hin)%list_elem_of_fmap. destruct (Ht _ _ Hin) as [Hx _]. cbn in *.
      by rewrite list_lookup_insert_eq in Hx. }
    split; [done|]. split; [cbn; by apply NoDup_cons|]. split.
    + intros n' r' [[= -> ->]|Hin]%elem_of_cons.
      * split; [done|]. rewrite <- (Hn n Hnin). by apply list_lookup_insert_eq.
      * destruct (Ht _ _ Hin) as [H1 H2]. split; [|done]. rewrite list_lookup_insert_ne in H1; [done|].
        intros ->. apply Hnin. by apply (list_elem_of_fmap_2 fst _ (n', r')).
    + cbn. intros n' Hn'. rewrite <- (Hn n') by set_solver.
      rewrite list_lookup_insert_ne; [done|]. set_solver.
Qed.

Lemma settle_todo_lag todo ps ps' : settle_todo todo ps = Some ps' <-> lag todo ps ps'.
Proof.
  revert ps. induction todo as [|[n r] todo IH]; intros ps; cbn.
  - rewrite lag_nil. split; [by intros [= ->]|by intros ->].
  - rewrite lag_cons. destruct (set_value n r ps) as [ps1|]; cbn.
    + rewrite IH. split; [by exists ps1|]. by intros (? & [= <-] & ?).
    + split; [done|]. by intros (? & ? & ?).
Qed.

Lemma lag_app todo1 todo2 ps1 ps2 ps3 :
  lag todo1 ps1 ps2 -> lag todo2 ps2 ps3 -> lag (todo2 ++ todo1) ps1 ps3.
Proof.
  intros H1 H2. apply (lag_perm (todo1 ++ todo2)); [apply Permutation_app_comm|].
  apply settle_todo_lag. apply settle_todo_lag in H1, H2. revert ps1 H1.
  induction todo1 as [|[n r] todo1 IH]; intros ps1; cbn; [by intros [= ->]|].
  destruct (set_value n r ps1); cbn; [apply IH|done].
Qed.

(** New promises do not matter to those in flight. *)
Lemma lag_grow todo ps ps' new : lag todo ps ps' -> lag todo (ps ++ new) (ps' ++ new).
Proof.
  intros (Hl & Hnd & Ht & Hn). split; [rewrite !length_app; lia|]. split; [done|]. split.
  - intros n r Hin. destruct (Ht n r Hin). split; by apply lookup_app_l_Some.
  - intros n Hnin. destruct (decide (n < length ps)%nat).
    + rewrite !lookup_app_l by lia. by apply Hn.
    + rewrite !lookup_app_r by lia. by rewrite Hl.
Qed.

(** ** Critical sections do not look at promises *)

Definition with_promises (st : Dispatcher) (ps : Promises) : Dispatcher :=
  with_pending st (pending_ st) ps.

Lemma with_promises_id st : with_promises st (promises st) = st.
Proof. by destruct st. Qed.

Lemma critical_promises op st out todo st' :
  critical op st = (out, todo, st') ->
  exists new, promises st' = promises st ++ new /\
    forall ps, length ps = length (promises st) ->
      critical op (with_promises st ps) = (out, todo, with_promises st' (ps ++ new)).
Proof.
  assert (Hsame : forall (st st' : Dispatcher), promises st' = promises st ->
    (forall ps, length ps = length (promises st) ->
      critical op (with_promises st ps) = (out, todo, with_promises st' ps)) ->
    exists new, promises st' = promises st ++ new /\
    forall ps, length ps = length (promises st) ->
      critical op (with_promises st ps) = (out, todo, with_promises st' (ps ++ new))).
  { intros s s' Hp H. exists []. rewrite app_nil_r. split; [done|]. intros ps. rewrite app_nil_r. apply H. }
  destruct op as [|cid d|f|e|now|h|h]; intros Hc; cbn [critical] in Hc.
  - injection Hc as <- <- <-. by apply Hsame.
  - unfold register_pending in Hc. injection Hc as <- <- <-. cbn. unfold register_pending. cbn.
    destruct (pending_ st !! cid); eexists; (split; [done|]); intros ps ->; reflexivity.
  - destruct (key.is_response _) eqn:Ek.
    + destruct (f_correlation_id f) as [cid|] eqn:Ec; [destruct (pending_ st !! cid) as [e|] eqn:Ee|];
        injection Hc as <- <- <-; (apply Hsame; [done|]); intros ps _; cbn; by rewrite Ek, Ec, ?Ee.
    + unfold dispatch_oneway in Hc.
      assert (Hp : promises st' = promises st) by (repeat case_match; by simplify_eq/=).
      apply Hsame; [done|]. intros ps _. cbn. rewrite Ek. unfold dispatch_oneway. cbn.
      repeat case_match; by simplify_eq/=.
  - injection Hc as <- <- <-. by apply Hsame.
  - injection Hc as <- <- <-. by apply Hsame.
  - injection Hc as <- <- <-. by apply Hsame.
  - injection Hc as <- <- <-. by apply Hsame.
Qed.

(** ** Every schedule follows the sequential dispatcher *)

Lemma run_snoc ops op st outs st1 out st2 :
  run ops st = Some (outs, st1) -> step op st1 = Some (out, st2) ->
  run (ops ++ [op]) st = Some (outs ++ [out], st2).
Proof.
  revert st outs. induction ops as [|op' ops IH]; intros st outs; cbn [app run].
  - intros [= <- <-] ->. done.
  - destruct (step op' st) as [[o st']|]; [|done]. cbn [mbind option_bind].
    destruct (run ops st') as [[os st'']|] eqn:E; [|done]. cbn. intros [= <- <-] Hs.
    by rewrite (IH st' os E Hs).
Qed.

(** The sequential dispatcher has done everything the shared one has in flight. *)
Definition follows (cfg : Threads) (seq : Dispatcher) : Prop :=
  run (ops_of cfg) new_dispatcher = Some (outs_of cfg, seq) /\
  lag (in_flight cfg) (promises (shared cfg)) (promises seq) /\
  with_promises (shared cfg) (promises seq) = seq.

Definition in_program_order (progs : list (list Op)) (cfg : Threads) : Prop :=
  forall i, (of_thread i (history cfg)).*1 ++ from_option program [] (threads cfg !! i)
            = default [] (progs !! i).

(** Entering an operation, on the shared and on the sequential dispatcher. *)
Lemma critical_follows op st seq l out todo st' done_ :
  refines seq l -> lag done_ (promises st) (promises seq) -> with_promises st (promises seq) = seq ->
  critical op st = (out, todo, st') ->
  exists seq', step op seq = Some (out, seq') /\
    lag (todo ++ done_) (promises st') (promises seq') /\ with_promises st' (promises seq') = seq'.
Proof.
  intros Hr Hlag Hsame Hc. destruct (critical_promises _ _ _ _ _ Hc) as (new & Hnew & Hps).
  pose proof (Hps (promises seq) (eq_sym (proj1 Hlag))) as Hc'. rewrite Hsame in Hc'.
  destruct (step_refines seq l op Hr) as (out' & seq' & Hs & _).
  pose proof Hs as Hs'. rewrite step_critical, Hc' in Hs'. cbn in Hs'.
  destruct (settle_todo _ _) as [ps|] eqn:E; [|done]. cbn in Hs'. injection Hs' as <- <-.
  eexists. split; [exact Hs|]. split; [|done]. cbn. rewrite Hnew.
  eapply lag_app; [by apply lag_grow|]. by apply settle_todo_lag.
Qed.

Lemma in_flight_step cfg i t :
  threads cfg !! i = Some t ->
  exists rest, in_flight cfg ≡ₚ to_set t ++ rest /\
    forall t' st h, in_flight (MkThreads (<[i := t']> (threads cfg)) st h) ≡ₚ to_set t' ++ rest.
Proof.
  intros Hi. destruct (concat_insert to_set _ _ _ Hi) as (rest & H1 & H2).
  exists rest. split; [done|]. intros t' st h. apply H2.
Qed.

Lemma thread_step_follows i cfg cfg' seq :
  follows cfg seq -> thread_step i cfg = Some cfg' -> exists seq', follows cfg' seq'.
Proof.
  intros (Hrun & Hlag & Hsame). unfold thread_step.
  destruct (threads cfg !! i) as [t|] eqn:Hi; [|done]. cbn [mbind option_bind].
  destruct (in_flight_step cfg i t Hi) as (rest & Hp & Hp').
  destruct (to_set t) as [|[n r] todo] eqn:Ht.
  - destruct (program t) as [|op ops]; [done|].
    destruct (critical op (shared cfg)) as [[out todo] st] eqn:Hc. intros [= <-].
    destruct (run_refines (ops_of cfg) _ _ new_refines) as (? & ? & Hrun' & Hr).
    rewrite Hrun in Hrun'. injection Hrun' as <- <-.
    destruct (critical_follows _ _ _ _ _ _ _ _ Hr Hlag Hsame Hc) as (seq' & Hs & Hlag' & Hsame').
    exists seq'. split; [|split; [|done]].
    + unfold ops_of, outs_of in *. cbn. rewrite !fmap_app. by eapply run_snoc.
    + eapply lag_perm; [|exact Hlag']. rewrite Hp'. cbn. by rewrite Hp.
  - apply (lag_perm _ _ _ _ Hp), lag_cons in Hlag as (ps1 & Hs & Hlag). rewrite Hs. cbn.
    intros [= <-]. exists seq. split; [done|]. split; [|done].
    eapply lag_perm; [symmetry; apply Hp'|]. done.
Qed.

Lemma thread_step_order progs i cfg cfg' :
  in_program_order progs cfg -> thread_step i cfg = Some cfg' -> in_program_order progs cfg'.
Proof.
  intros Hord. unfold thread_step. destruct (threads cfg !! i) as [t|] eqn:Hi; [|done].
  cbn [mbind option_bind]. pose proof (lookup_lt_Some _ _ _ Hi) as Hlt.
  assert (Hset : forall t' (hist : list (nat * (Op * Out))) st, (of_thread i hist).*1 ++ program t' = (of_thread i (history cfg)).*1 ++ program t ->
    (forall j, j <> i -> of_thread j hist = of_thread j (history cfg)) ->
    in_program_order progs (MkThreads (<[i := t']> (threads cfg)) st hist)).
  { intros t' hist st Ho Hj j. cbn [threads history]. destruct (decide (j = i)) as [->|Hne].
    - rewrite list_lookup_insert_eq by done. etransitivity; [exact Ho|]. rewrite <- Hord, Hi. done.
    - rewrite list_lookup_insert_ne by done. rewrite Hj by done. apply Hord. }
  destruct (to_set t) as [|[n r] todo].
  - destruct (program t) as [|op ops] eqn:Hprog; [done|].
    destruct (critical op (shared cfg)) as [[out todo] st]. intros [= <-]. apply Hset.
    + rewrite of_thread_snoc, decide_True by done. rewrite fmap_app, <- app_assoc. cbn. done.
    + intros j Hne. rewrite of_thread_snoc, decide_False by done. by rewrite app_nil_r.
  - destruct (set_value n r _); [|done]. cbn. intros [= <-]. by apply Hset.
Qed.

(** Nobody waits for anybody, and no [set_value] throws. *)
Lemma follows_progress cfg seq i t :
  follows cfg seq -> threads cfg !! i = Some t ->
  (to_set t = [] /\ program t = []) \/ is_Some (thread_step i cfg).
Proof.
  intros (_ & Hlag & _) Hi. destruct (in_flight_step cfg i t Hi) as (rest & Hp & _).
  unfold thread_step. rewrite Hi. cbn [mbind option_bind].
  destruct (to_set t) as [|[n r] todo].
  - destruct (program t) as [|op ops]; [by left|]. right.
    destruct (critical op (shared cfg)) as [[out todo] st]. by eexists.
  - right. apply (lag_perm _ _ _ _ Hp), lag_cons in Hlag as (ps1 & -> & _). by eexists.
Qed.

Lemma start_follows progs : follows (start progs) new_dispatcher.
Proof.
  assert (Hnil : in_flight (start progs) = []) by (unfold in_flight; cbn; by induction progs).
  split; [done|]. split; [|done]. rewrite Hnil. by apply lag_nil.
Qed.

Lemma start_order progs : in_program_order progs (start progs).
Proof. intros i. cbn. rewrite list_lookup_fmap. by destruct (progs !! i). Qed.

(** ** The writer *)

(** What an answer of [send] does to the call in progress: the call returns, or
    goes on with what is left to send. *)
Definition send_turn `{Platform} (data : bytes) (ev : SendEvent) (out : bytes)
  : Result unit * bytes + bytes * bytes :=
  match ev with
  | SendFail e =>
      if bool_decide (e = EINTR) then inr (data, out)
      else inl (err (mk_error Kind.IoError (lit "send: " ++ strerror e)), out)
  | Sent k =>
      let n := Nat.min k (length data) in
      if (n =? 0)%nat then
        inl (err (mk_error Kind.ConnectionClosed (lit "connection closed during send")), out)
      else inr (drop n data, out ++ take n data)
  end.

Lemma write_loop_turn `{Platform} data ev evs out :
  data <> [] ->
  write_loop data (ev :: evs) out =
    match send_turn data ev out with
    | inl (r, out) => Some (r, evs, out)
    | inr (data, out) => write_loop data evs out
    end.
Proof.
  intros Hd. destruct data as [|b data]; [done|]. cbn [write_loop]. unfold send_turn.
  destruct ev as [k|e]; [by destruct (_ =? 0)%nat|by case_bool_decide].
Qed.

Section writer.
Context `{Hplat : Platform}.

(** A thread of the writer: the buffers it still has to write, and what its calls
    of [write_all] have returned. *)
Record Writer := MkWriter { to_write : list bytes; returned : list (Result unit) }.

(** The threads, the mutex of the writer (free, or held by a thread with so much
    left to send), the connection, and the calls in the order in which they took
    the mutex. *)
Record Writers := MkWriters {
  writers : list Writer;
  holder : option (nat * bytes);
  conn : World;
  calls_made : list (nat * bytes)
}.

Definition with_out (s : list SendEvent) (out : bytes) (w : World) : World :=
  MkWorld (inbox w) s out (logs w).

Definition return_to (i : nat) (r : Result unit) (ws : list Writer) : list Writer :=
  alter (fun t => MkWriter (to_write t) (returned t ++ [r])) i ws.

(** One step of thread [i]: take the mutex, [send] once, or return (which releases
    the mutex).  No step while another thread holds the mutex, or while [send]
    blocks. *)
Definition writer_step (i : nat) (cfg : Writers) : option Writers :=
  match holder cfg with
  | None =>
      t ← writers cfg !! i;
      match to_write t with
      | [] => None
      | data :: rest =>
          Some (MkWriters (<[i := MkWriter rest (returned t)]> (writers cfg)) (Some (i, data))
                  (conn cfg) (calls_made cfg ++ [(i, data)]))
      end
  | Some (j, data) =>
      if decide (i = j) then
        match data with
        | [] => Some (MkWriters (return_to i (ok tt) (writers cfg)) None (conn cfg) (calls_made cfg))
        | _ =>
            match sends (conn cfg) with
            | [] => None
            | ev :: evs =>
                match send_turn data ev (outbox (conn cfg)) with
                | inl (r, out) =>
                    Some (MkWriters (return_to i r (writers cfg)) None
                            (with_out evs out (conn cfg)) (calls_made cfg))
                | inr (data, out) =>
                    Some (MkWriters (writers cfg) (Some (i, data))
                            (with_out evs out (conn cfg)) (calls_made cfg))
                end
            end
        end
      else None
  end.

Definition start_writers (progs : list (list bytes)) (w : World) : Writers :=
  MkWriters ((fun p => MkWriter p []) <$> progs) None w [].

(** The calls of [write_all] one after the other. *)
Fixpoint write_seq (bufs : list bytes) (w : World) : option (list (Result unit) * World) :=
  match bufs with
  | [] => Some ([], w)
  | data :: bufs =>
      '(r, w) ← write_all data w;
      '(rs, w) ← write_seq bufs w;
      Some (r :: rs, w)
  end.

Lemma write_seq_snoc bufs data w rs w1 r w2 :
  write_seq bufs w = Some (rs, w1) -> write_all data w1 = Some (r, w2) ->
  write_seq (bufs ++ [data]) w = Some (rs ++ [r], w2).
Proof.
  revert w rs. induction bufs as [|b bufs IH]; intros w rs; cbn [app write_seq].
  - intros [= <- <-] ->. done.
  - destruct (write_all b w) as [[r' w']|]; [|done]. cbn [mbind option_bind].
    destruct (write_seq bufs w') as [[rs' w'']|] eqn:E; [|done]. cbn. intros [= <- <-] Hw.
    by rewrite (IH w' rs' E Hw).
Qed.

(** The results of the calls, each with its thread. *)
Definition results_match (cfg : Writers) (hist : list (nat * bytes)) (rs : list (Result unit)) : Prop :=
  length rs = length hist /\
  forall i t, writers cfg !! i = Some t ->
    returned t = of_thread i (zip hist.*1 rs).

(** The mutex is free and the calls so far are sequential; or thread [j] holds it,
    and its call goes on from [data]. *)
Definition serial (w0 : World) (cfg : Writers) : Prop :=
  match holder cfg with
  | None =>
      exists rs, write_seq (calls_made cfg).*2 w0 = Some (rs, conn cfg) /\
        results_match cfg (calls_made cfg) rs
  | Some (j, data) =>
      exists hist data0 rs w1 sent, calls_made cfg = hist ++ [(j, data0)] /\
        write_seq hist.*2 w0 = Some (rs, w1) /\ results_match cfg hist rs /\
        (j < length (writers cfg))%nat /\
        data0 = sent ++ data /\ conn cfg = with_out (sends (conn cfg)) (outbox w1 ++ sent) w1 /\
        write_loop data0 (sends w1) (outbox w1) = write_loop data (sends (conn cfg)) (outbox (conn cfg))
  end.

Lemma results_match_snoc cfg hist rs j data r cfg' :
  results_match cfg hist rs -> writers cfg' = return_to j r (writers cfg) ->
  results_match cfg' (hist ++ [(j, data)]) (rs ++ [r]).
Proof.
  intros [Hl Hm] Hw. split; [rewrite !length_app, Hl; done|].
  intros i t. rewrite Hw. unfold return_to. rewrite fmap_app, zip_with_app by by rewrite length_fmap.
  cbn [fmap list_fmap fst zip_with]. rewrite of_thread_snoc. destruct (decide (j = i)) as [->|Hne].
  - rewrite list_lookup_alter_eq. intros (t0 & Ht0 & ->)%fmap_Some. cbn. f_equal. by apply Hm.
  - rewrite list_lookup_alter_ne by done. rewrite app_nil_r. apply Hm.
Qed.

(** The call in progress returns. *)
Lemma serial_return w0 cfg j data r evs out :
  serial w0 cfg -> holder cfg = Some (j, data) ->
  write_loop data (sends (conn cfg)) (outbox (conn cfg)) = Some (r, evs, out) ->
  serial w0 (MkWriters (return_to j r (writers cfg)) None (with_out evs out (conn cfg)) (calls_made cfg)).
Proof.
  unfold serial. intros Hs Hh Hw. rewrite Hh in Hs.
  destruct Hs as (hist & data0 & rs & w1 & sent & Hcalls & Hseq & Hm & _ & _ & Hconn & Hloop). cbn.
  exists (rs ++ [r]). rewrite Hcalls, fmap_app. split.
  - eapply write_seq_snoc; [exact Hseq|]. unfold write_all. cbn [snd]. rewrite Hloop, Hw, Hconn. done.
  - by eapply results_match_snoc.
Qed.

Lemma writer_step_serial w0 i cfg cfg' :
  serial w0 cfg -> writer_step i cfg = Some cfg' -> serial w0 cfg'.
Proof.
  intros Hs. unfold writer_step. destruct (holder cfg) as [[j data]|] eqn:Hh.
  - case_decide as Hij; [subst j|done]. destruct data as [|b data'].
    + intros [= <-].
      replace (conn cfg) with (with_out (sends (conn cfg)) (outbox (conn cfg)) (conn cfg)) at 1
        by by destruct (conn cfg).
      eapply serial_return; [done..|]. by destruct (sends (conn cfg)).
    + set (data := b :: data') in *.
      destruct (sends (conn cfg)) as [|ev evs] eqn:Hev; [done|].
      pose proof (write_loop_turn data ev evs (outbox (conn cfg)) ltac:(done)) as Hturn.
      destruct (send_turn data ev (outbox (conn cfg))) as [[r out]|[data1 out]] eqn:Et; intros [= <-].
      * eapply serial_return; [done..|]. by rewrite Hev.
      * unfold serial in Hs. rewrite Hh in Hs.
        destruct Hs as (hist & data0 & rs & w1 & sent & Hcalls & Hseq & Hm & Hlt & Hd & Hconn & Hloop).
        assert (Hsplit : exists more, data = more ++ data1 /\ out = outbox (conn cfg) ++ more).
        { revert Et. unfold send_turn. destruct ev as [k|e].
          - destruct (_ =? 0)%nat; [done|]. intros [= <- <-]. eexists. split; [|done].
            by rewrite take_drop.
          - case_bool_decide; [|done]. intros [= <- <-]. exists []. by rewrite app_nil_r. }
        destruct Hsplit as (more & Hmore & Hout).
        exists hist, data0, rs, w1, (sent ++ more). cbn. split; [done|]. split; [done|].
        split; [done|]. split; [done|]. split; [by rewrite Hd, Hmore, app_assoc|]. split.
        -- rewrite Hout, Hconn. cbn. by rewrite app_assoc.
        -- by rewrite Hloop, Hev, Hturn.
  - destruct (writers cfg !! i) as [t|] eqn:Hi; [|done]. cbn [mbind option_bind].
    destruct (to_write t) as [|data rest]; [done|]. intros [= <-].
    unfold serial in *. rewrite Hh in Hs. destruct Hs as (rs & Hseq & Hl & Hm). cbn.
    exists (calls_made cfg), data, rs, (conn cfg), []. split; [done|]. split; [done|].
    pose proof (lookup_lt_Some _ _ _ Hi) as Hlt. split.
    { split; [done|]. intros j t'. cbn. destruct (decide (i = j)) as [<-|Hne].
      - rewrite list_lookup_insert_eq by done. intros [= <-]. cbn. by apply Hm.
      - rewrite list_lookup_insert_ne by done. apply Hm. }
    split; [by rewrite length_insert|]. split; [done|]. split; [|done].
    rewrite app_nil_r. by destruct (conn cfg).
Qed.

Definition writes_in_order (progs : list (list bytes)) (cfg : Writers) : Prop :=
  forall i, of_thread i (calls_made cfg) ++ from_option to_write [] (writers cfg !! i) = default [] (progs !! i).

Lemma return_to_order progs cfg j r w :
  writes_in_order progs cfg ->
  writes_in_order progs (MkWriters (return_to j r (writers cfg)) None w (calls_made cfg)).
Proof.
  intros Ho i. rewrite <- (Ho i). cbn [calls_made writers]. f_equal. unfold return_to.
  destruct (decide (j = i)) as [->|Hne].
  - rewrite list_lookup_alter_eq. by destruct (writers cfg !! i).
  - by rewrite list_lookup_alter_ne.
Qed.

Lemma writer_step_order progs i cfg cfg' :
  writes_in_order progs cfg -> writer_step i cfg = Some cfg' -> writes_in_order progs cfg'.
Proof.
  intros Ho. unfold writer_step. destruct (holder cfg) as [[j data]|].
  - case_decide; [|done]. destruct data as [|b data]; [intros [= <-]; by apply return_to_order|].
    destruct (sends (conn cfg)) as [|ev evs]; [done|].
    destruct (send_turn _ _ _) as [[r out]|[data1 out]]; intros [= <-]; [by apply return_to_order|done].
  - destruct (writers cfg !! i) as [t|] eqn:Hi; [|done]. cbn [mbind option_bind].
    destruct (to_write t) as [|data rest] eqn:Ht; [done|]. intros [= <-] k.
    rewrite <- (Ho k). cbn [calls_made writers]. rewrite of_thread_snoc. case_decide as Hk.
    + subst k. rewrite list_lookup_insert_eq by by eapply lookup_lt_Some.
      rewrite Hi, <- app_assoc. cbn. by rewrite Ht.
    + by rewrite list_lookup_insert_ne, app_nil_r.
Qed.

(** What the calls send: all of a buffer when the call succeeds, a prefix of it
    otherwise. *)
Definition sent_of (buf sent : bytes) (r : Result unit) : Prop :=
  exists rest, buf = sent ++ rest /\ (r = ok tt -> rest = []).

Lemma write_seq_sent bufs w rs w' :
  write_seq bufs w = Some (rs, w') ->
  exists sents, Forall3 sent_of bufs sents rs /\ outbox w' = outbox w ++ concat sents.
Proof.
  revert w rs. induction bufs as [|b bufs IH]; intros w rs; cbn [write_seq].
  - intros [= <- <-]. exists []. split; [constructor|]. by rewrite app_nil_r.
  - unfold write_all. destruct (write_loop _ _ _) as [[[r s] out]|] eqn:Ew; [|done]. cbn [mbind option_bind].
    destruct (write_seq bufs _) as [[rs' w'']|] eqn:E; [|done]. cbn. intros [= <- <-].
    destruct (IH _ _ E) as (sents & Hs & Ho). apply write_loop_spec in Ew as (sent & rest & Hb & Hout & Hr).
    exists (sent :: sents). split.
    + constructor; [|done]. exists rest. split; [done|]. intros ->. exact Hr.
    + rewrite Ho. cbn. by rewrite Hout, <- app_assoc.
Qed.
End writer.

(** ** Properties *)

(** C16.  The dispatcher is linearizable.  However the critical sections and the
    [set_value]s of any number of threads interleave, the operations return what
    they return when run one after the other in the order of their critical
    sections, which respects each thread's program order; the state is that of the
    sequential run once the promises in flight are satisfied; no [set_value]
    throws, and a thread that has not finished can always go on. *)
Theorem dispatcher_linearizable (progs : list (list Op)) (sched : list nat) (cfg : Threads)
  (Hrun : run_schedule thread_step sched (start progs) = Some cfg) :
  in_program_order progs cfg /\
  (exists seq, run (ops_of cfg) new_dispatcher = Some (outs_of cfg, seq) /\
     settle_todo (in_flight cfg) (promises (shared cfg)) = Some (promises seq) /\
     with_promises (shared cfg) (promises seq) = seq /\
     (in_flight cfg = [] -> shared cfg = seq)) /\
  (forall i t, threads cfg !! i = Some t ->
     (to_set t = [] /\ program t = []) \/ is_Some (thread_step i cfg)).
Proof.
  split; [|assert (exists seq, follows cfg seq) as [seq Hf]].
  - eapply run_schedule_invariant; [|apply start_order|exact Hrun]. intros *. apply thread_step_order.
  - eapply (run_schedule_invariant thread_step (fun c => exists seq, follows c seq)); [| |exact Hrun].
    + intros i c c' [s Hs]. by apply thread_step_follows with s.
    + exists new_dispatcher. apply start_follows.
  - split; [|intros i t; by apply follows_progress with seq].
    destruct Hf as (H1 & H2 & H3). exists seq. split; [done|].
    split; [by apply settle_todo_lag|]. split; [done|]. intros Hn. rewrite Hn in H2.
    apply lag_nil in H2. by rewrite <- H3, <- H2, with_promises_id.
Qed.

(** A response and the end of the connection race for two requests. *)
Definition race : list (list Op) :=
  [[RegisterPending 100 40; RegisterPending 101 50]; [Dispatch response_101];
   [FailAllPending request_timed_out]].

Lemma dispatcher_linearizable_witness :
  exists cfg, run_schedule thread_step [0; 0; 1; 2; 2; 1]%nat (start race) = Some cfg /\
    promises (shared cfg) = [Satisfied (err request_timed_out); Satisfied (ok response_101)] /\
    in_program_order race cfg /\
    exists seq, run (ops_of cfg) new_dispatcher = Some (outs_of cfg, seq) /\ shared cfg = seq.
Proof.
  destruct (run_schedule thread_step [0; 0; 1; 2; 2; 1]%nat (start race)) as [cfg|] eqn:E;
    [|vm_compute in E; discriminate E].
  destruct (dispatcher_linearizable race _ cfg E) as (H1 & (seq & H2 & _ & _ & H3) & _).
  assert (Hv : in_flight cfg = [] /\
    promises (shared cfg) = [Satisfied (err request_timed_out); Satisfied (ok response_101)])
    by (vm_compute in E; injection E as <-; split; reflexivity).
  destruct Hv as [Hv1 Hv2]. exists cfg. split; [reflexivity|]. split; [exact Hv2|]. split; [exact H1|].
  exists seq. split; [exact H2|]. exact (H3 Hv1).
Defined.

(** C24.  Writes do not interleave.  However the [send]s of any number of threads
    interleave, the bytes handed to the kernel are, at every moment, what each call
    of [write_all] that has returned has sent, one after the other in the order in
    which they took the mutex (all of the buffer when the call succeeded, a prefix
    of it when it failed), followed by the part already sent of the buffer of the
    thread that holds the mutex.  The order respects the program order of each
    thread, and when the mutex is free the connection and the results are those of
    the calls run one after the other. *)
Theorem writes_serialise {P : Platform} (progs : list (list bytes)) (w0 : World) (sched : list nat)
  (cfg : Writers) (Hrun : run_schedule writer_step sched (start_writers progs w0) = Some cfg) :
  writes_in_order progs cfg /\
  match holder cfg with
  | None =>
      exists rs sents, write_seq (calls_made cfg).*2 w0 = Some (rs, conn cfg) /\
        results_match cfg (calls_made cfg) rs /\
        Forall3 sent_of (calls_made cfg).*2 sents rs /\
        outbox (conn cfg) = outbox w0 ++ concat sents
  | Some (j, data) =>
      exists hist buf rs sents sent, calls_made cfg = hist ++ [(j, buf)] /\
        results_match cfg hist rs /\ Forall3 sent_of hist.*2 sents rs /\
        buf = sent ++ data /\ outbox (conn cfg) = (outbox w0 ++ concat sents) ++ sent
  end.
Proof.
  split.
  - eapply run_schedule_invariant; [|  |exact Hrun]; [intros *; apply writer_step_order|].
    intros i. cbn. rewrite list_lookup_fmap. by destruct (progs !! i).
  - assert (Hs : serial w0 cfg).
    { eapply run_schedule_invariant; [intros *; apply writer_step_serial| |exact Hrun].
      exists []. split; [done|]. split; [done|]. intros i t. cbn. rewrite list_lookup_fmap.
      destruct (progs !! i); cbn; [|done]. by intros [= <-]. }
    unfold serial in Hs. destruct (holder cfg) as [[j data]|].
    + destruct Hs as (hist & buf & rs & w1 & sent & Hc & Hseq & Hm & _ & Hb & Hconn & _).
      destruct (write_seq_sent _ _ _ _ Hseq) as (sents & Hf & Ho).
      exists hist, buf, rs, sents, sent. split; [done|]. split; [done|]. split; [done|]. split; [done|].
      by rewrite Hconn, <- Ho.
    + destruct Hs as (rs & Hseq & Hm). destruct (write_seq_sent _ _ _ _ Hseq) as (sents & Hf & Ho).
      by exists rs, sents.
Qed.

(** Two threads that write one buffer each, in several pieces. *)
Definition two_writers : list (list bytes) := [[[1; 2; 3]]; [[4; 5]]].
Definition slow_connection : World := MkWorld [] [Sent 2; SendFail EINTR; Sent 1; Sent 1; Sent 5] [] [].
#[local] Existing Instance sample_platform.

Lemma writes_serialise_witness :
  exists cfg, run_schedule writer_step [1; 1; 1; 0; 0; 0; 0; 0; 0]%nat (start_writers two_writers slow_connection) = Some cfg /\
    outbox (conn cfg) = [4; 5; 1; 2; 3] /\ writes_in_order two_writers cfg /\
    exists rs, write_seq [[4; 5]; [1; 2; 3]] slow_connection = Some (rs, conn cfg).
Proof.
  destruct (run_schedule writer_step [1; 1; 1; 0; 0; 0; 0; 0; 0]%nat (start_writers two_writers slow_connection)) as [cfg|] eqn:E;
    [|vm_compute in E; discriminate E].
  destruct (writes_serialise two_writers slow_connection _ cfg E) as [H1 H2].
  assert (Hv : holder cfg = None /\ (calls_made cfg).*2 = [[4; 5]; [1; 2; 3]] /\
    outbox (conn cfg) = [4; 5; 1; 2; 3])
    by (vm_compute in E; injection E as <-; split; [|split]; reflexivity).
  destruct Hv as (Hv1 & Hv2 & Hv3). rewrite Hv1 in H2. destruct H2 as (rs & sents & H2 & _).
  rewrite Hv2 in H2.
  exists cfg. split; [reflexivity|]. split; [exact Hv3|]. split; [exact H1|]. exists rs. exact H2.
Defined.
