(* ===== verification/Dialogue.v ===== *)
(** * Dialogues: what an I/O operation exchanges with the peer

    A program logic for the sequential users of a connected socket.  An operation
    is described by the bytes it takes from the inbound stream, the bytes it sends
    and its result; [performs] says that the operation succeeds exactly on such
    exchanges, [rejects] that an exchange makes it fail with a given error. *)

From S2P Require Import Prelude Errors Buffer Codec Frame Config Socket.

Local Open Scope Z_scope.

(** The bytes received, the bytes sent, the result. *)
Abbreviation Exchange A := (list Z -> list Z -> A -> Prop) (only parsing).

(** The outbound side lets [n] more bytes through. *)
Definition ready (w : World) (n : nat) : Prop :=
  Forall send_proceeds (sends w) /\ (n <= length (List.filter is_sent (sends w)))%nat.

#[export] Instance ready_dec w n : Decision (ready w n).
Proof. unfold ready. apply _. Defined.

(** From [w] to [w'] the operation consumed [inb], sent [outb] and kept the
    outbound side as ready as can be. *)
Definition exchanged (w w' : World) (inb outb : bytes) : Prop :=
  (exists rest t, stream (inbox w) = (inb ++ rest, t) /\ stream (inbox w') = (rest, t)) /\
  outbox w' = outbox w ++ outb.

Definition succeeds {A} (m : IO A) (inb outb : bytes) (x : A) : Prop :=
  forall w rest t, is_bytes rest -> stream (inbox w) = (inb ++ rest, t) -> ready w (length outb) ->
  exists w', m w = Some (ok x, w') /\ stream (inbox w') = (rest, t) /\ outbox w' = outbox w ++ outb /\
    forall k, ready w (length outb + k) -> ready w' k.

(** Every successful run is such an exchange. *)
Definition sound {A} (m : IO A) (D : Exchange A) : Prop :=
  forall w w' x, inbox_ok w -> m w = Some (ok x, w') ->
  exists inb outb, D inb outb x /\ exchanged w w' inb outb.

(** The operation succeeds exactly on the exchanges of [D]. *)
Class performs {A} (m : IO A) (D : Exchange A) : Prop := {
  performs_sound : sound m D;
  performs_succeeds inb outb x : is_bytes inb -> D inb outb x -> succeeds m inb outb x
}.

(** The exchange makes the operation fail, with nothing sent beyond [outb]. *)
Definition rejects {A} (m : IO A) (inb outb : bytes) (e : StreamError) : Prop :=
  forall w rest t, is_bytes rest -> stream (inbox w) = (inb ++ rest, t) -> ready w (length outb) ->
  exists w', m w = Some (err e, w') /\ stream (inbox w') = (rest, t) /\ outbox w' = outbox w ++ outb.

(** ** Exchanges of composed operations *)

Definition x_ret {A} (x : A) : Exchange A := fun i o y => i = [] /\ o = [] /\ y = x.
Definition x_sent (bs : bytes) : Exchange unit := fun i o _ => i = [] /\ o = bs.
Definition x_seq {A B} (D : Exchange A) (E : A -> Exchange B) : Exchange B := fun i o y =>
  exists x i1 o1 i2 o2, i = i1 ++ i2 /\ o = o1 ++ o2 /\ D i1 o1 x /\ E x i2 o2 y.
(** The exchange goes on only under a condition. *)
Definition x_when {A} (P : Prop) (D : Exchange A) : Exchange A := fun i o y => P /\ D i o y.

Lemma exchanged_refl w : exchanged w w [] [].
Proof. split; [|by rewrite app_nil_r]. destruct (stream (inbox w)) as [d t]. by exists d, t. Qed.

Lemma exchanged_trans w1 w2 w3 i1 o1 i2 o2 :
  exchanged w1 w2 i1 o1 -> exchanged w2 w3 i2 o2 -> exchanged w1 w3 (i1 ++ i2) (o1 ++ o2).
Proof.
  intros [(r1 & t1 & H1 & H1') Ho1] [(r2 & t2 & H2 & H2') Ho2]. split.
  - rewrite H1' in H2. injection H2 as -> ->. exists r2, t2. by rewrite H1, app_assoc.
  - by rewrite Ho2, Ho1, app_assoc.
Qed.

Lemma exchanged_inbox_ok w w' i o : inbox_ok w -> exchanged w w' i o -> inbox_ok w' /\ is_bytes i.
Proof.
  unfold inbox_ok. intros Hok [(r & t & H & H') _]. rewrite H in Hok. rewrite H'. cbn in *.
  apply is_bytes_app in Hok. tauto.
Qed.

Lemma ready_le w n m : ready w n -> (m <= n)%nat -> ready w m.
Proof. unfold ready. intros [? ?]. split; [done|lia]. Qed.

(** ** Rules *)

#[global] Typeclasses Opaque IO io_ret io_bind io_fail io_lift io_log write_all read_frame mbind mret.

Lemma succeeds_ret {A} (x : A) : succeeds (mret x) [] [] x.
Proof. intros w rest t _ Hs _. exists w. rewrite app_nil_r. auto. Qed.

Lemma succeeds_bind {A B} (m : IO A) (k : A -> IO B) i1 o1 i2 o2 x y :
  is_bytes i2 -> succeeds m i1 o1 x -> succeeds (k x) i2 o2 y ->
  succeeds (m ≫= k) (i1 ++ i2) (o1 ++ o2) y.
Proof.
  intros Hi2 Hm Hk w rest t Hr Hs Hready. rewrite <- app_assoc in Hs. rewrite length_app in Hready.
  destruct (Hm w (i2 ++ rest) t) as (w1 & Hm1 & Hs1 & Ho1 & Hr1);
    [by apply is_bytes_app|done|by eapply ready_le; [done|lia]|].
  destruct (Hk w1 rest t) as (w2 & Hk2 & Hs2 & Ho2 & Hr2); [done|done|by apply Hr1|].
  exists w2. unfold mbind, io_bind. rewrite Hm1. split; [done|]. split; [done|].
  split; [by rewrite Ho2, Ho1, app_assoc|]. intros n Hn. apply Hr2, Hr1.
  rewrite length_app in Hn. eapply ready_le; [done|lia].
Qed.

Lemma rejects_bind {A B} (m : IO A) (k : A -> IO B) i o e :
  rejects m i o e -> rejects (m ≫= k) i o e.
Proof.
  intros Hm w rest t Hr Hs Hready. destruct (Hm w rest t) as (w' & Hm' & ? & ?); [done..|].
  exists w'. unfold mbind, io_bind. by rewrite Hm'.
Qed.

Lemma rejects_after {A B} (m : IO A) (k : A -> IO B) i1 o1 i2 o2 x e :
  is_bytes i2 -> succeeds m i1 o1 x -> rejects (k x) i2 o2 e -> rejects (m ≫= k) (i1 ++ i2) (o1 ++ o2) e.
Proof.
  intros Hi2 Hm Hk w rest t Hr Hs Hready. rewrite <- app_assoc in Hs. rewrite length_app in Hready.
  destruct (Hm w (i2 ++ rest) t) as (w1 & Hm1 & Hs1 & Ho1 & Hr1);
    [by apply is_bytes_app|done|by eapply ready_le; [done|lia]|].
  destruct (Hk w1 rest t) as (w2 & Hk2 & Hs2 & Ho2); [done|done|by apply Hr1|].
  exists w2. unfold mbind, io_bind. rewrite Hm1. split; [done|]. split; [done|].
  by rewrite Ho2, Ho1, app_assoc.
Qed.

Lemma rejects_fail {A} e : rejects (@io_fail A e) [] [] e.
Proof. intros w rest t _ Hs _. exists w. by rewrite app_nil_r. Qed.

#[export] Instance performs_ret {A} (x : A) : performs (mret x) (x_ret x).
Proof.
  split.
  - intros w w' y _ [= <- <-]. exists [], []. split; [done|]. apply exchanged_refl.
  - intros i o y _ (-> & -> & ->). apply succeeds_ret.
Qed.

#[export] Instance performs_fail {A} e : performs (@io_fail A e) (fun _ _ _ => False).
Proof. by split. Qed.

#[export] Instance performs_bind {A B} (m : IO A) (k : A -> IO B) D E :
  performs m D -> (forall x, performs (k x) (E x)) -> performs (m ≫= k) (x_seq D E).
Proof.
  intros Hm Hk. split.
  - intros w w' y Hok. unfold mbind, io_bind.
    destruct (m w) as [[[x|e] w1]|] eqn:Em; [|done..]. intros Ek.
    destruct (performs_sound w w1 x Hok Em) as (i1 & o1 & HD & Hx1).
    destruct (exchanged_inbox_ok _ _ _ _ Hok Hx1) as [Hok1 _].
    destruct (performs_sound w1 w' y Hok1 Ek) as (i2 & o2 & HE & Hx2).
    exists (i1 ++ i2), (o1 ++ o2). split; [|by eapply exchanged_trans]. by exists x, i1, o1, i2, o2.
  - intros i o y Hi (x & i1 & o1 & i2 & o2 & -> & -> & HD & HE). apply is_bytes_app in Hi as [Hi1 Hi2].
    eapply succeeds_bind; [done| |]; by apply performs_succeeds.
Qed.

Lemma performs_iff {A} (m : IO A) (D D' : Exchange A) :
  performs m D -> (forall i o x, D i o x <-> D' i o x) -> performs m D'.
Proof.
  intros Hm HD. split.
  - intros w w' x Hok Hr. destruct (performs_sound w w' x Hok Hr) as (i & o & Hx & ?).
    exists i, o. split; [by apply HD|done].
  - intros i o x Hi Hx%HD. by apply performs_succeeds.
Qed.

#[export] Instance performs_log ev : performs (io_log ev) (x_ret tt).
Proof.
  split.
  - intros w w' [] _ [= <-]. exists [], []. split; [done|].
    split; [|cbn; by rewrite app_nil_r]. cbn. destruct (stream (inbox w)) as [d t]. by exists d, t.
  - intros i o [] _ (-> & -> & _) w rest t _ Hs _. eexists. split; [done|]. cbn.
    rewrite app_nil_r. auto.
Qed.

(** A result computed without I/O. *)
#[export] Instance performs_lift {A} (r : Result A) :
  performs (io_lift r) (fun i o x => i = [] /\ o = [] /\ r = ok x).
Proof.
  split.
  - intros w w' x _ [= -> <-]. exists [], []. split; [done|]. apply exchanged_refl.
  - intros i o x _ (-> & -> & ->). apply succeeds_ret.
Qed.

(** A branch on a boolean. *)
#[export] Instance performs_if {A} (b : bool) (m1 m2 : IO A) D1 D2 :
  performs m1 D1 -> performs m2 D2 ->
  performs (if b then m1 else m2) (fun i o x => if b then D1 i o x else D2 i o x).
Proof. by destruct b. Qed.

Section io.
Context `{Hplat : Platform}.

#[export] Instance performs_write_all data : performs (write_all data) (x_sent data).
Proof.
  unfold write_all. split.
  - intros w w' [] Hok. destruct (write_loop _ _ _) as [[[r s] out]|] eqn:E; [|done]. cbn.
    intros [= -> <-]. apply write_loop_spec in E as (sent & rest & -> & -> & ->).
    exists [], (sent ++ []). split; [done|]. split; [|cbn; by rewrite app_nil_r].
    cbn. destruct (stream (inbox w)) as [d t]. by exists d, t.
  - intros i o [] _ [-> ->] w rest t Hr Hs [Hp Hl].
    destruct (write_loop_progress data _ (outbox w) Hp Hl) as (s & out & Hw & Hps & Hc).
    rewrite Hw. eexists. split; [done|]. split; [done|].
    apply write_loop_spec in Hw as (sent & rest' & -> & -> & ->). cbn.
    split; [by rewrite app_nil_r|]. intros k [_ Hk]. split; [done|]. cbn. lia.
Qed.

(** One frame from the peer. *)
#[export] Instance performs_read_frame :
  performs read_frame (fun i o f => o = [] /\ i = enc_frame f /\ frame_ok f).
Proof.
  split.
  - intros w w' f Hok Hr. pose proof (read_frame_frame _ _ _ Hr) as Hw.
    apply read_frame_sound in Hr as (rest & t & Hs & Hs' & Hf); [|done].
    exists (enc_frame f), []. split; [done|]. split; [by exists rest, t|].
    rewrite Hw. cbn. by rewrite app_nil_r.
  - intros i o f Hi (-> & -> & Hf) w rest t Hr Hs Hready.
    destruct (read_frame_enc w f rest t Hf Hr Hs) as (w' & Hrf & Hs' & Hw).
    exists w'. split; [done|]. split; [done|]. rewrite Hw. cbn. by rewrite app_nil_r.
Qed.
End io.
