(* ===== verification/Handshake.v ===== *)
(** * The handshake: [handshake.hpp], [handshake.cpp]

    The five-step authentication sequence over a connected socket: peer
    properties, SASL mechanisms, SASL PLAIN authentication (with its challenge
    loop), tune, and open.  Requests and responses are handled by the same
    templates for every command, over the [Command] interface. *)

From S2P Require Import Prelude Errors Buffer Codec Frame Command HandshakeCommands Config Socket.
From S2P Require Import Dialogue.

Local Open Scope Z_scope.

(** [struct HandshakeResult]. *)
Record HandshakeResult := MkHandshake {
  negotiated_frame_max : Z;
  negotiated_heartbeat : Z;
  server_properties : list KeyValue;
  hs_connection_properties : list KeyValue
}.

(** [map_response_code]. *)
Definition map_response_code (code : Z) (context : std_string) : StreamError :=
  if (code =? response_code.AuthenticationFailure)
     || (code =? response_code.SaslAuthenticationFailureLoopback) then
    mk_error Kind.AuthenticationFailed (lit "authentication failed: " ++ context)
  else if code =? response_code.SaslMechanismNotSupported then
    mk_error Kind.SaslMechanismNotSupported (lit "no supported SASL mechanism: " ++ context)
  else if (code =? response_code.VirtualHostAccessFailure)
          || (code =? response_code.AccessRefused) then
    mk_error Kind.VirtualHostAccessDenied (lit "virtual host access denied: " ++ context)
  else mk_error_code Kind.ServerError (lit "server error " ++ context) code.

(** The lambda [log] of [run_handshake]. *)
Definition log (msg : std_string) : IO unit := io_log (Debug, lit "[handshake] " ++ msg).

(** Run [h] when [m] fails, and fail with the same error. *)
Definition on_error {A} (m : IO A) (h : StreamError -> IO unit) : IO A := fun w =>
  match m w with
  | Some (err e, w) =>
      match h e w with
      | Some (_, w) => Some (err e, w)
      | None => None
      end
  | r => r
  end.

Definition log_failure {A} (step : std_string) (m : IO A) : IO A :=
  on_error m (fun e => log (step ++ lit " failed: " ++ message e)).

Section handshake.
Context `{Hplat : Platform}.

(** [send_request]. *)
Definition send_request {C} `{Command C} (cmd : C) (cid frame_max : Z) : IO unit :=
  let body := encode_body cmd Writer.empty in
  let frame := encode_request_frame (kKey C) (kVersion C) cid (Writer.take_data body) in
  _ ← io_lift (check_outbound_frame_size (wrap 64 (zlen frame - 4)) frame_max);
  write_all frame.

(** [send_oneway]. *)
Definition send_oneway {C} `{Command C} (cmd : C) (frame_max : Z) : IO unit :=
  let body := encode_body cmd Writer.empty in
  let frame := encode_oneway_frame (kKey C) (kVersion C) (Writer.take_data body) in
  _ ← io_lift (check_outbound_frame_size (wrap 64 (zlen frame - 4)) frame_max);
  write_all frame.

Definition unexpected_key : StreamError :=
  mk_error Kind.ProtocolViolation (lit "unexpected frame key during handshake").
Definition cid_mismatch : StreamError :=
  mk_error Kind.ProtocolViolation (lit "correlation id mismatch").

(** [recv_response]: an expected id of zero disables the check. *)
Definition recv_response (Resp : Type) `{Command Resp} (expected_cid : Z) : IO Resp :=
  fr ← read_frame;
  if negb (f_key fr =? kKey Resp) then io_fail unexpected_key
  else if negb (expected_cid =? 0)
          && negb (bool_decide (f_correlation_id fr = Some expected_cid)) then
    io_fail cid_mismatch
  else io_lift (fst (decode_body (reader_of (f_body fr)))).

(** [recv_oneway]. *)
Definition recv_oneway (Frame : Type) `{Command Frame} : IO Frame :=
  fr ← read_frame;
  if negb (f_key fr =? kKey Frame) then io_fail unexpected_key
  else io_lift (fst (decode_body (reader_of (f_body fr)))).

(** [cid++] on a 32-bit counter. *)
Definition next_cid (cid : Z) : Z := wrap 32 (cid + 1).

(** Step 1: the client's properties. *)
Definition client_properties (cfg : ConnectionConfig) : list KeyValue :=
  [(lit "product", lit "rabbitmq-stream-cpp-client");
   (lit "version", lit "0.1.0");
   (lit "platform", lit "C++17/POSIX")]
  ++ (if negb (zlen (connection_name cfg) =? 0)
      then [(lit "connection_name", connection_name cfg)] else []).

Definition step_peer_properties (cfg : ConnectionConfig) (cid frame_max : Z) : IO (list KeyValue) :=
  _ ← log (lit "step 1: PeerProperties");
  _ ← send_request (PeerPropertiesRequest.Mk (client_properties cfg)) cid frame_max;
  pp_resp ← log_failure (lit "step 1") (recv_response PeerPropertiesResponse.t cid);
  if negb (PeerPropertiesResponse.response_code pp_resp =? response_code.Ok) then
    io_fail (map_response_code (PeerPropertiesResponse.response_code pp_resp) (lit "PeerProperties"))
  else
    _ ← log (lit "step 1 ok");
    mret (PeerPropertiesResponse.properties pp_resp).

(** Step 2: the server must offer PLAIN. *)
Definition plain_supported (mechanisms : list std_string) : bool :=
  existsb (fun m => bool_decide (m = lit "PLAIN")) mechanisms.

Definition offered (mechanisms : list std_string) : std_string :=
  fold_left (fun s m => s ++ (m ++ lit " ")) mechanisms [].

Definition step_sasl_handshake (cid frame_max : Z) : IO unit :=
  _ ← log (lit "step 2: SaslHandshake");
  _ ← send_request SaslHandshakeRequest.Mk cid frame_max;
  sh_resp ← log_failure (lit "step 2") (recv_response SaslHandshakeResponse.t cid);
  if negb (SaslHandshakeResponse.response_code sh_resp =? response_code.Ok) then
    io_fail (map_response_code (SaslHandshakeResponse.response_code sh_resp) (lit "SaslHandshake"))
  else if negb (plain_supported (SaslHandshakeResponse.mechanisms sh_resp)) then
    io_fail (mk_error Kind.SaslMechanismNotSupported
      (lit "server does not offer PLAIN; offered: " ++ offered (SaslHandshakeResponse.mechanisms sh_resp)))
  else log (lit "step 2 ok").

(** Step 3: the PLAIN payload, and the loop that answers challenges. *)
Definition sasl_request (cfg : ConnectionConfig) : SaslAuthenticateRequest.t :=
  SaslAuthenticateRequest.Mk (lit "PLAIN") ([0x00] ++ username cfg ++ [0x00] ++ password cfg).

Fixpoint sasl_loop (fuel : nat) (sa_req : SaslAuthenticateRequest.t) (cid frame_max : Z) : IO Z :=
  match fuel with
  | O => fun _ => None
  | S fuel =>
      _ ← send_request sa_req cid frame_max;
      sa_resp ← log_failure (lit "step 3") (recv_response SaslAuthenticateResponse.t cid);
      let cid := next_cid cid in
      let code := SaslAuthenticateResponse.response_code sa_resp in
      if code =? response_code.Ok then mret cid
      else if code =? response_code.SaslChallenge then sasl_loop fuel sa_req cid frame_max
      else io_fail (map_response_code code (lit "SaslAuthenticate"))
  end.

(** Bytes the peer has sent or will send: a bound on the turns of the loop. *)
Fixpoint in_bytes (q : list InEvent) : nat :=
  match q with
  | [] => 0
  | Data bs :: q => length bs + in_bytes q
  | _ :: q => in_bytes q
  end.

Definition step_sasl_authenticate (cfg : ConnectionConfig) (cid frame_max : Z) : IO Z :=
  _ ← log (lit "step 3: SaslAuthenticate");
  cid ← (fun w => sasl_loop (S (in_bytes (inbox w))) (sasl_request cfg) cid frame_max w);
  _ ← log (lit "step 3 ok");
  mret cid.

(** Step 4: negotiate the limits, and tell the server. *)
Definition negotiate_frame_max (server requested : Z) : Z :=
  if negb (requested =? 0) then
    if server =? 0 then requested else Z.min server requested
  else server.

Definition negotiate_heartbeat (server requested : Z) : Z :=
  if negb (requested =? 0) then Z.min server requested else server.

Definition step_tune (cfg : ConnectionConfig) : IO (Z * Z) :=
  _ ← log (lit "step 4: Tune");
  tune ← log_failure (lit "step 4") (recv_oneway Tune.t);
  let neg_fm := negotiate_frame_max (Tune.frame_max tune) (requested_frame_max_bytes cfg) in
  let neg_hb := negotiate_heartbeat (Tune.heartbeat tune) (requested_heartbeat_seconds cfg) in
  _ ← log (lit "step 4 ok: frame_max=" ++ to_string_u neg_fm ++ lit " heartbeat=" ++ to_string_u neg_hb);
  _ ← send_oneway (Tune.Mk neg_fm neg_hb) 0;
  mret (neg_fm, neg_hb).

(** Step 5: open the virtual host. *)
Definition step_open (cfg : ConnectionConfig) (cid frame_max : Z) : IO (list KeyValue) :=
  _ ← log (lit "step 5: Open vhost=" ++ virtual_host cfg);
  _ ← send_request (OpenRequest.Mk (virtual_host cfg)) cid frame_max;
  open_resp ← log_failure (lit "step 5") (recv_response OpenResponse.t cid);
  if negb (OpenResponse.response_code open_resp =? response_code.Ok) then
    io_fail (map_response_code (OpenResponse.response_code open_resp)
      (lit "Open/" ++ virtual_host cfg))
  else
    _ ← log (lit "step 5 ok");
    mret (OpenResponse.connection_properties open_resp).

(** [run_handshake]. *)
Definition run_handshake (cfg : ConnectionConfig) : IO HandshakeResult :=
  let frame_max := 0 in
  let cid := 1 in
  server_props ← step_peer_properties cfg cid frame_max;
  let cid := next_cid cid in
  _ ← step_sasl_handshake cid frame_max;
  let cid := next_cid cid in
  cid ← step_sasl_authenticate cfg cid frame_max;
  limits ← step_tune cfg;
  let neg_fm := limits.1 in
  let neg_hb := limits.2 in
  let frame_max := neg_fm in
  conn_props ← step_open cfg cid frame_max;
  mret (MkHandshake neg_fm neg_hb server_props conn_props).
End handshake.

(** ** What the handshake exchanges *)

(** The bytes are one frame of the peer whose body decodes to [resp]: a response
    to the correlation id, or a one-way frame. *)
Definition response {C} `{Command C} (cid : Z) (bs : bytes) (resp : C) : Prop :=
  exists f, bs = enc_frame f /\ frame_ok f /\ f_key f = kKey C /\
    (cid <> 0 -> f_correlation_id f = Some cid) /\
    fst (decode_body (reader_of (f_body f))) = ok resp.

Definition oneway {C} `{Command C} (bs : bytes) (c : C) : Prop :=
  exists f, bs = enc_frame f /\ frame_ok f /\ f_key f = kKey C /\
    fst (decode_body (reader_of (f_body f))) = ok c.

(** The bytes of a request or one-way frame of the client. *)
Definition request {C} `{Command C} (c : C) (cid : Z) : bytes :=
  encode_request_frame (kKey C) (kVersion C) cid (body_of c).
Definition oneway_frame {C} `{Command C} (c : C) : bytes :=
  encode_oneway_frame (kKey C) (kVersion C) (body_of c).

Definition fits (frame : bytes) (frame_max : Z) : Prop :=
  check_outbound_frame_size (wrap 64 (zlen frame - 4)) frame_max = ok tt.

#[global] Typeclasses Opaque on_error log_failure log send_request send_oneway recv_response recv_oneway.

Section templates.
Context `{Hplat : Platform} {C : Type} `{Hcmd : Command C}.

#[export] Instance performs_on_error {A} (m : IO A) h D : performs m D -> performs (on_error m h) D.
Proof.
  intros Hm. split.
  - intros w w' x Hok. unfold on_error. destruct (m w) as [[[y|e] w1]|] eqn:E; [| |done].
    + intros [= -> ->]. by apply performs_sound.
    + by destruct (h e w1) as [[]|].
  - intros i o x Hi Hx w rest t Hr Hs Hready.
    destruct (performs_succeeds i o x Hi Hx w rest t Hr Hs Hready) as (w' & Hw & ?).
    exists w'. unfold on_error. by rewrite Hw.
Qed.

#[export] Instance performs_log_failure {A} step (m : IO A) D : performs m D -> performs (log_failure step m) D.
Proof. unfold log_failure. apply _. Qed.

Lemma rejects_log_failure {A} step (m : IO A) i o e :
  rejects m i o e -> rejects (log_failure step m) i o e.
Proof.
  intros Hm w rest t Hr Hs Hready. destruct (Hm w rest t) as (w' & Hw & Hs' & Ho); [done..|].
  eexists. unfold log_failure, on_error. rewrite Hw. cbn. by split.
Qed.

#[export] Instance performs_log_msg msg : performs (log msg) (x_ret tt).
Proof. unfold log. apply _. Qed.

#[export] Instance performs_send_request (c : C) cid fm :
  performs (send_request c cid fm) (x_when (fits (request c cid) fm) (x_sent (request c cid))).
Proof.
  eapply performs_iff; [unfold send_request; apply _|]. intros i o []. split.
  - intros ([] & i1 & o1 & i2 & o2 & -> & -> & (-> & -> & Hf) & -> & ->). done.
  - intros (Hf & -> & ->). exists tt, [], [], [], (request c cid). done.
Qed.

#[export] Instance performs_send_oneway (c : C) fm :
  performs (send_oneway c fm) (x_when (fits (oneway_frame c) fm) (x_sent (oneway_frame c))).
Proof.
  eapply performs_iff; [unfold send_oneway; apply _|]. intros i o []. split.
  - intros ([] & i1 & o1 & i2 & o2 & -> & -> & (-> & -> & Hf) & -> & ->). done.
  - intros (Hf & -> & ->). exists tt, [], [], [], (oneway_frame c). done.
Qed.

#[export] Instance performs_recv_response cid :
  performs (recv_response C cid) (fun i o x => o = [] /\ response cid i x).
Proof.
  eapply performs_iff; [unfold recv_response; apply _|]. intros i o x. split.
  - intros (f & i1 & o1 & i2 & o2 & -> & -> & (-> & -> & Hf) & Hx).
    destruct (Z.eqb_spec (f_key f) (kKey C)) as [Hk|]; cbn [negb] in Hx; [|done].
    destruct (_ && _) eqn:Hc in Hx; [done|]. destruct Hx as (-> & -> & Hd).
    split; [done|]. exists f. rewrite app_nil_r. repeat split; try done; try apply Hf.
    intros Hz. apply andb_false_iff in Hc as [Hc%negb_false_iff|Hc%negb_false_iff].
    + by apply Z.eqb_eq in Hc.
    + by apply bool_decide_eq_true in Hc.
  - intros (-> & f & -> & Hf & Hk & Hc & Hd). exists f, (enc_frame f), [], [], [].
    rewrite app_nil_r. repeat split; try done; try apply Hf.
    rewrite Hk, Z.eqb_refl. cbn [negb].
    destruct (Z.eqb_spec cid 0) as [->|Hz]; cbn [negb andb]; [done|].
    by rewrite (bool_decide_eq_true_2 _ (Hc Hz)).
Qed.

#[export] Instance performs_recv_oneway :
  performs (recv_oneway C) (fun i o x => o = [] /\ oneway i x).
Proof.
  eapply performs_iff; [unfold recv_oneway; apply _|]. intros i o x. split.
  - intros (f & i1 & o1 & i2 & o2 & -> & -> & (-> & -> & Hf) & Hx).
    destruct (Z.eqb_spec (f_key f) (kKey C)) as [Hk|]; cbn [negb] in Hx; [|done].
    destruct Hx as (-> & -> & Hd).
    split; [done|]. exists f. rewrite app_nil_r. repeat split; try done; try apply Hf.
  - intros (-> & f & -> & Hf & Hk & Hd). exists f, (enc_frame f), [], [], [].
    rewrite app_nil_r. repeat split; try done; try apply Hf.
    by rewrite Hk, Z.eqb_refl.
Qed.
End templates.

(** ** The exchanges of the five steps *)

Definition x_peer_properties (cfg : ConnectionConfig) (cid frame_max : Z) : Exchange (list KeyValue) :=
  fun i o props =>
    let req := PeerPropertiesRequest.Mk (client_properties cfg) in
    fits (request req cid) frame_max /\ o = request req cid /\
    exists pp, response cid i pp /\
      PeerPropertiesResponse.response_code pp = response_code.Ok /\
      props = PeerPropertiesResponse.properties pp.

Definition x_sasl_handshake (cid frame_max : Z) : Exchange unit :=
  fun i o _ =>
    let req := SaslHandshakeRequest.Mk in
    fits (request req cid) frame_max /\ o = request req cid /\
    exists sh, response cid i sh /\
      SaslHandshakeResponse.response_code sh = response_code.Ok /\
      lit "PLAIN" ∈ SaslHandshakeResponse.mechanisms sh.

(** Challenges, each answered by the same request under the next correlation id,
    and the acceptance that ends them. *)
Inductive x_authenticate (req : SaslAuthenticateRequest.t) (frame_max : Z) : Z -> Exchange Z :=
  | x_accepted cid i sa :
      fits (request req cid) frame_max -> response cid i sa ->
      SaslAuthenticateResponse.response_code sa = response_code.Ok ->
      x_authenticate req frame_max cid i (request req cid) (next_cid cid)
  | x_challenge cid i sa i' o' cid' :
      fits (request req cid) frame_max -> response cid i sa ->
      SaslAuthenticateResponse.response_code sa = response_code.SaslChallenge ->
      x_authenticate req frame_max (next_cid cid) i' o' cid' ->
      x_authenticate req frame_max cid (i ++ i') (request req cid ++ o') cid'.

Definition x_tune (cfg : ConnectionConfig) : Exchange (Z * Z) :=
  fun i o limits =>
    exists tune, oneway i tune /\
      limits = (negotiate_frame_max (Tune.frame_max tune) (requested_frame_max_bytes cfg),
                negotiate_heartbeat (Tune.heartbeat tune) (requested_heartbeat_seconds cfg)) /\
      o = oneway_frame (Tune.Mk limits.1 limits.2).

Definition x_open (cfg : ConnectionConfig) (cid frame_max : Z) : Exchange (list KeyValue) :=
  fun i o props =>
    let req := OpenRequest.Mk (virtual_host cfg) in
    fits (request req cid) frame_max /\ o = request req cid /\
    exists op, response cid i op /\ OpenResponse.response_code op = response_code.Ok /\
      props = OpenResponse.connection_properties op.

(** The whole handshake. *)
Inductive x_handshake (cfg : ConnectionConfig) : Exchange HandshakeResult :=
  | x_steps i1 o1 sp i2 o2 i3 o3 cid i4 o4 fm hb i5 o5 cp :
      x_peer_properties cfg 1 0 i1 o1 sp ->
      x_sasl_handshake 2 0 i2 o2 tt ->
      x_authenticate (sasl_request cfg) 0 3 i3 o3 cid ->
      x_tune cfg i4 o4 (fm, hb) ->
      x_open cfg cid fm i5 o5 cp ->
      x_handshake cfg (i1 ++ i2 ++ i3 ++ i4 ++ i5) (o1 ++ o2 ++ o3 ++ o4 ++ o5)
        (MkHandshake fm hb sp cp).

Section steps.
Context `{Hplat : Platform}.

Lemma performs_log_then {A} msg (k : IO A) D : performs k D -> performs (_ ← log msg; k) D.
Proof.
  intros Hk. eapply performs_iff; [apply _|]. intros i o x. split.
  - by intros ([] & i1 & o1 & i2 & o2 & -> & -> & (-> & -> & _) & Hd).
  - intros Hd. by exists tt, [], [], i, o.
Qed.

Lemma performs_send_then {A C} `{Command C} (c : C) cid fm (k : IO A) D :
  performs k D ->
  performs (_ ← send_request c cid fm; k)
    (fun i o x => fits (request c cid) fm /\ exists o', o = request c cid ++ o' /\ D i o' x).
Proof.
  intros Hk. eapply performs_iff; [apply _|]. intros i o x. split.
  - intros ([] & i1 & o1 & i2 & o2 & -> & -> & (Hf & -> & ->) & Hd). eauto.
  - intros (Hf & o' & -> & Hd). by exists tt, [], (request c cid), i, o'.
Qed.

Lemma performs_recv_then {A} (R : Type) `{Command R} cid step (k : R -> IO A) D :
  (forall r, performs (k r) (D r)) ->
  performs (r ← log_failure step (recv_response R cid); k r)
    (fun i o x => exists r i1 i2, i = i1 ++ i2 /\ response cid i1 r /\ D r i2 o x).
Proof.
  intros Hk. eapply performs_iff; [apply _|]. intros i o x. split.
  - intros (r & i1 & o1 & i2 & o2 & -> & -> & (-> & Hr) & Hd). by exists r, i1, i2.
  - intros (r & i1 & i2 & -> & Hr & Hd). by exists r, i1, [], i2, o.
Qed.

Lemma plain_supported_spec ms : plain_supported ms = true <-> lit "PLAIN" ∈ ms.
Proof.
  unfold plain_supported. rewrite existsb_exists. split.
  - intros (m & Hm & ->%bool_decide_eq_true). by apply list_elem_of_In.
  - intros Hm. eexists. split; [by apply list_elem_of_In|]. by apply bool_decide_eq_true.
Qed.

Lemma performs_peer_properties cfg cid fm :
  performs (step_peer_properties cfg cid fm) (x_peer_properties cfg cid fm).
Proof.
  eapply performs_iff.
  { apply performs_log_then, performs_send_then, performs_recv_then. intros r.
    apply performs_if; [apply _|apply performs_log_then, _]. }
  intros i o x. unfold x_peer_properties. split.
  - intros (Hf & o' & -> & r & i1 & i2 & -> & Hr & Hd).
    destruct (Z.eqb_spec (PeerPropertiesResponse.response_code r) response_code.Ok); [|done].
    destruct Hd as (-> & -> & ->). rewrite !app_nil_r. eauto 10.
  - intros (Hf & -> & r & Hr & Hok & ->). split; [done|]. exists []. rewrite app_nil_r.
    split; [done|]. exists r, i, []. rewrite app_nil_r, Hok, Z.eqb_refl. done.
Qed.

Lemma performs_sasl_handshake cid fm :
  performs (step_sasl_handshake cid fm) (x_sasl_handshake cid fm).
Proof.
  eapply performs_iff.
  { apply performs_log_then, performs_send_then, performs_recv_then. intros r.
    apply performs_if; [apply _|]. apply performs_if; apply _. }
  intros i o []. unfold x_sasl_handshake. split.
  - intros (Hf & o' & -> & r & i1 & i2 & -> & Hr & Hd).
    destruct (Z.eqb_spec (SaslHandshakeResponse.response_code r) response_code.Ok); [|done].
    cbn [negb] in Hd. destruct (plain_supported _) eqn:Hp; [|done].
    destruct Hd as (-> & -> & _). rewrite !app_nil_r. apply plain_supported_spec in Hp. eauto 10.
  - intros (Hf & -> & r & Hr & Hok & Hp%plain_supported_spec). split; [done|]. exists [].
    rewrite app_nil_r. split; [done|]. exists r, i, []. by rewrite app_nil_r, Hok, Z.eqb_refl, Hp.
Qed.

Lemma performs_open cfg cid fm : performs (step_open cfg cid fm) (x_open cfg cid fm).
Proof.
  eapply performs_iff.
  { apply performs_log_then, performs_send_then, performs_recv_then. intros r.
    apply performs_if; [apply _|apply performs_log_then, _]. }
  intros i o x. unfold x_open. split.
  - intros (Hf & o' & -> & r & i1 & i2 & -> & Hr & Hd).
    destruct (Z.eqb_spec (OpenResponse.response_code r) response_code.Ok); [|done].
    destruct Hd as (-> & -> & ->). rewrite !app_nil_r. eauto 10.
  - intros (Hf & -> & r & Hr & Hok & ->). split; [done|]. exists []. rewrite app_nil_r.
    split; [done|]. exists r, i, []. rewrite app_nil_r, Hok, Z.eqb_refl. done.
Qed.

Lemma performs_tune cfg : performs (step_tune cfg) (x_tune cfg).
Proof.
  eapply performs_iff.
  { apply performs_log_then. apply performs_bind; [apply _|]. intros r.
    apply performs_log_then. apply _. }
  intros i o [fm hb]. unfold x_tune. split.
  - intros (r & i1 & o1 & i2 & o2 & -> & -> & (-> & Hr) & [] & i3 & o3 & i4 & o4 & -> & -> &
      (_ & -> & ->) & -> & -> & Heq).
    rewrite !app_nil_r. exists r. by rewrite Heq.
  - intros (r & Hr & [= -> ->] & ->). eexists r, i, [], [], _. rewrite app_nil_r.
    split; [done|]. split; [done|]. split; [done|].
    eexists tt, [], _, [], []. split; [done|]. rewrite app_nil_r.
    split; [done|]. split; [|done]. by split.
Qed.
End steps.

(** ** The challenge loop *)

Lemma enc_frame_nonempty f : (1 <= length (enc_frame f))%nat.
Proof.
  pose proof (zlen_enc_frame f) as H.
  pose proof (zlen_nonneg (enc_header (f_key f) (f_version f) (f_correlation_id f) ++ f_body f)).
  unfold zlen in *. lia.
Qed.

Lemma stream_in_bytes q : (length (stream q).1 <= in_bytes q)%nat.
Proof.
  induction q as [|[bs| |e] q IH]; cbn; [lia| |lia|].
  - destruct (stream q). cbn in *. rewrite length_app. lia.
  - case_bool_decide; cbn; lia.
Qed.

Section sasl.
Context `{Hplat : Platform} (req : SaslAuthenticateRequest.t) (fm : Z).

(** The exchanges of at most [n] turns. *)
Fixpoint x_loop (n : nat) (cid : Z) : Exchange Z :=
  match n with
  | O => fun _ _ _ => False
  | S n => fun i o x =>
      fits (request req cid) fm /\ exists o', o = request req cid ++ o' /\
      exists r i1 i2, i = i1 ++ i2 /\ response cid i1 r /\
      let code := SaslAuthenticateResponse.response_code r in
      if code =? response_code.Ok then x_ret (next_cid cid) i2 o' x
      else if code =? response_code.SaslChallenge then x_loop n (next_cid cid) i2 o' x
      else False
  end.

Lemma performs_sasl_loop n cid : performs (sasl_loop n req cid fm) (x_loop n cid).
Proof.
  revert cid. induction n as [|n IH]; intros cid; cbn [sasl_loop x_loop]; [by split|].
  apply performs_send_then, performs_recv_then. intros r.
  apply performs_if; [apply _|]. apply performs_if; [apply IH|apply _].
Qed.

Lemma x_loop_authenticate n cid i o x : x_loop n cid i o x -> x_authenticate req fm cid i o x.
Proof.
  revert cid i o. induction n as [|n IH]; intros cid i o; cbn [x_loop]; [done|].
  intros (Hf & o' & -> & r & i1 & i2 & -> & Hr & Hd). cbn zeta in Hd.
  destruct (Z.eqb_spec (SaslAuthenticateResponse.response_code r) response_code.Ok).
  - destruct Hd as (-> & -> & ->). rewrite !app_nil_r. by econstructor.
  - destruct (Z.eqb_spec (SaslAuthenticateResponse.response_code r) response_code.SaslChallenge); [|done].
    eapply x_challenge; eauto.
Qed.

Lemma x_authenticate_loop n cid i o x :
  x_authenticate req fm cid i o x -> (length i < n)%nat -> x_loop n cid i o x.
Proof.
  intros Hx. revert n. induction Hx as [cid i sa Hf Hr Hc|cid i sa i' o' cid' Hf Hr Hc _ IH];
    intros [|n] Hn; [lia| |lia|]; cbn [x_loop]; (split; [done|]).
  - exists []. rewrite app_nil_r. split; [done|]. exists sa, i, []. rewrite app_nil_r, Hc, Z.eqb_refl. done.
  - exists o'. split; [done|]. exists sa, i, i'. rewrite Hc. split; [done|]. split; [done|]. cbn zeta.
    replace (response_code.SaslChallenge =? response_code.Ok) with false by done. rewrite Z.eqb_refl.
    apply IH. destruct Hr as (f & -> & _). pose proof (enc_frame_nonempty f).
    rewrite length_app in Hn. lia.
Qed.

Lemma performs_sasl_all cid :
  performs (fun w => sasl_loop (S (in_bytes (inbox w))) req cid fm w) (x_authenticate req fm cid).
Proof.
  split.
  - intros w w' x Hok Hr. destruct (performs_sound (performs := performs_sasl_loop _ _) w w' x Hok Hr)
      as (i & o & Hx%x_loop_authenticate & ?). by exists i, o.
  - intros i o x Hi Hx w rest t Hr Hs Hready.
    assert (Hl : x_loop (S (in_bytes (inbox w))) cid i o x).
    { apply x_authenticate_loop; [done|]. pose proof (stream_in_bytes (inbox w)) as Hb.
      rewrite Hs in Hb. cbn in Hb. rewrite length_app in Hb. lia. }
    exact (performs_succeeds (performs := performs_sasl_loop _ _) i o x Hi Hl w rest t Hr Hs Hready).
Qed.
End sasl.

(** ** The whole handshake *)

Section whole.
Context `{Hplat : Platform}.

Lemma performs_sasl_authenticate cfg cid fm :
  performs (step_sasl_authenticate cfg cid fm) (x_authenticate (sasl_request cfg) fm cid).
Proof.
  eapply performs_iff.
  { apply performs_log_then. apply performs_bind; [apply performs_sasl_all|].
    intros c. apply performs_log_then, _. }
  intros i o x. split.
  - intros (c & i1 & o1 & i2 & o2 & -> & -> & Hx & -> & -> & ->). by rewrite !app_nil_r.
  - intros Hx. exists x, i, o, [], []. by rewrite !app_nil_r.
Qed.

Lemma performs_handshake cfg : performs (run_handshake cfg) (x_handshake cfg).
Proof.
  eapply performs_iff.
  { apply performs_bind; [apply performs_peer_properties|]. intros sp.
    apply performs_bind; [apply performs_sasl_handshake|]. intros u.
    apply performs_bind; [apply performs_sasl_authenticate|]. intros cid.
    apply performs_bind; [apply performs_tune|]. intros limits.
    apply performs_bind; [apply performs_open|]. intros cp. apply _. }
  intros i o r. split.
  - intros (sp & i1 & o1 & j1 & p1 & -> & -> & H1 & u & i2 & o2 & j2 & p2 & -> & -> & H2 &
      cid & i3 & o3 & j3 & p3 & -> & -> & H3 & [fm hb] & i4 & o4 & j4 & p4 & -> & -> & H4 &
      cp & i5 & o5 & j5 & p5 & -> & -> & H5 & -> & -> & ->).
    destruct u. rewrite !app_nil_r. by econstructor.
  - intros [i1 o1 sp i2 o2 i3 o3 cid i4 o4 fm hb i5 o5 cp H1 H2 H3 H4 H5].
    eexists sp, i1, o1, _, _. do 2 (split; [done|]). split; [done|].
    eexists tt, i2, o2, _, _. do 2 (split; [done|]). split; [done|].
    eexists cid, i3, o3, _, _. do 2 (split; [done|]). split; [done|].
    eexists (fm, hb), i4, o4, _, _. do 2 (split; [done|]). split; [done|].
    exists cp, i5, o5, [], []. by rewrite !app_nil_r.
Qed.
End whole.

(** ** Refusals *)

(** What the protocol's response codes mean to the caller of [connect], code by
    code. *)
Inductive refusal (code : Z) (context : std_string) : StreamError -> Prop :=
  | refusal_credentials :
      code = 8 \/ code = 11 ->
      refusal code context (mk_error Kind.AuthenticationFailed (lit "authentication failed: " ++ context))
  | refusal_mechanism :
      code = 7 ->
      refusal code context (mk_error Kind.SaslMechanismNotSupported (lit "no supported SASL mechanism: " ++ context))
  | refusal_vhost :
      code = 12 \/ code = 16 ->
      refusal code context (mk_error Kind.VirtualHostAccessDenied (lit "virtual host access denied: " ++ context))
  | refusal_other :
      code ∉ [7; 8; 11; 12; 16] ->
      refusal code context (mk_error_code Kind.ServerError (lit "server error " ++ context) code).

(** [map_response_code] computes it. *)
Lemma map_response_code_refusal code context e :
  refusal code context e <-> e = map_response_code code context.
Proof.
  unfold map_response_code, response_code.AuthenticationFailure, response_code.SaslAuthenticationFailureLoopback,
    response_code.SaslMechanismNotSupported, response_code.VirtualHostAccessFailure, response_code.AccessRefused.
  split.
  - destruct 1 as [[->| ->]| ->|[->| ->]|Hc]; try done.
    repeat (rewrite (proj2 (Z.eqb_neq _ _)); [|set_solver]). done.
  - intros ->. destruct (Z.eqb_spec code 8), (Z.eqb_spec code 11); cbn [orb]; try (apply refusal_credentials; by auto).
    destruct (Z.eqb_spec code 7); [by apply refusal_mechanism|].
    destruct (Z.eqb_spec code 12), (Z.eqb_spec code 16); cbn [orb]; try (apply refusal_vhost; by auto).
    apply refusal_other. set_solver.
Qed.

(** The challenges end with a refusal. *)
Inductive x_auth_refused (req : SaslAuthenticateRequest.t) (frame_max : Z)
  : Z -> bytes -> bytes -> StreamError -> Prop :=
  | x_refused_now cid i sa e :
      fits (request req cid) frame_max -> response cid i sa ->
      SaslAuthenticateResponse.response_code sa <> response_code.Ok ->
      SaslAuthenticateResponse.response_code sa <> response_code.SaslChallenge ->
      refusal (SaslAuthenticateResponse.response_code sa) (lit "SaslAuthenticate") e ->
      x_auth_refused req frame_max cid i (request req cid) e
  | x_refused_later cid i sa i' o' e :
      fits (request req cid) frame_max -> response cid i sa ->
      SaslAuthenticateResponse.response_code sa = response_code.SaslChallenge ->
      x_auth_refused req frame_max (next_cid cid) i' o' e ->
      x_auth_refused req frame_max cid (i ++ i') (request req cid ++ o') e.

(** The server refuses one of the steps: what it has sent, what the client has
    sent by then, and the error the handshake reports. *)
Inductive x_refused (cfg : ConnectionConfig) : bytes -> bytes -> StreamError -> Prop :=
  | refused_peer_properties i pp e :
      let req := PeerPropertiesRequest.Mk (client_properties cfg) in
      let rc := PeerPropertiesResponse.response_code pp in
      response 1 i pp -> rc <> response_code.Ok -> refusal rc (lit "PeerProperties") e ->
      x_refused cfg i (request req 1) e
  | refused_sasl_handshake i1 o1 sp i sh e :
      let rc := SaslHandshakeResponse.response_code sh in
      x_peer_properties cfg 1 0 i1 o1 sp -> response 2 i sh -> rc <> response_code.Ok ->
      refusal rc (lit "SaslHandshake") e ->
      x_refused cfg (i1 ++ i) (o1 ++ request SaslHandshakeRequest.Mk 2) e
  | refused_no_plain i1 o1 sp i sh :
      let ms := SaslHandshakeResponse.mechanisms sh in
      x_peer_properties cfg 1 0 i1 o1 sp -> response 2 i sh ->
      SaslHandshakeResponse.response_code sh = response_code.Ok -> lit "PLAIN" ∉ ms ->
      x_refused cfg (i1 ++ i) (o1 ++ request SaslHandshakeRequest.Mk 2)
        (mk_error Kind.SaslMechanismNotSupported
           (lit "server does not offer PLAIN; offered: " ++ offered ms))
  | refused_sasl_authenticate i1 o1 sp i2 o2 i3 o3 e :
      x_peer_properties cfg 1 0 i1 o1 sp -> x_sasl_handshake 2 0 i2 o2 tt ->
      x_auth_refused (sasl_request cfg) 0 3 i3 o3 e ->
      x_refused cfg (i1 ++ i2 ++ i3) (o1 ++ o2 ++ o3) e
  | refused_open i1 o1 sp i2 o2 i3 o3 cid i4 o4 fm hb i op e :
      let req := OpenRequest.Mk (virtual_host cfg) in
      let rc := OpenResponse.response_code op in
      x_peer_properties cfg 1 0 i1 o1 sp -> x_sasl_handshake 2 0 i2 o2 tt ->
      x_authenticate (sasl_request cfg) 0 3 i3 o3 cid -> x_tune cfg i4 o4 (fm, hb) ->
      fits (request req cid) fm -> response cid i op -> rc <> response_code.Ok ->
      refusal rc (lit "Open/" ++ virtual_host cfg) e ->
      x_refused cfg (i1 ++ i2 ++ i3 ++ i4 ++ i) (o1 ++ o2 ++ o3 ++ o4 ++ request req cid) e.

Section refusal.
Context `{Hplat : Platform}.

Lemma succeeds_log msg : succeeds (log msg) [] [] tt.
Proof. apply performs_succeeds; [constructor|done]. Qed.

Lemma rejects_log_then {A} msg (k : IO A) i o e :
  is_bytes i -> rejects k i o e -> rejects (_ ← log msg; k) i o e.
Proof. intros Hi Hk. apply (rejects_after (log msg) (fun _ => k) [] [] i o tt); [done|apply succeeds_log|done]. Qed.

(** A request whose response is refused. *)
Lemma rejects_exchange {A C R} `{Command C, Command R} (c : C) cid fm step (k : R -> IO A) i r i' o' e :
  is_bytes (i ++ i') -> fits (request c cid) fm -> response cid i r -> rejects (k r) i' o' e ->
  rejects (_ ← send_request c cid fm; r ← log_failure step (recv_response R cid); k r)
    (i ++ i') (request c cid ++ o') e.
Proof.
  intros Hi Hf Hr Hk. apply is_bytes_app in Hi as [Hi Hi'].
  apply (rejects_after (send_request c cid fm)
    (fun _ => r ← log_failure step (recv_response R cid); k r) [] (request c cid) (i ++ i') o' tt).
  - by apply is_bytes_app.
  - apply performs_succeeds; [constructor|done].
  - apply (rejects_after (log_failure step (recv_response R cid)) k i [] i' o' r); [done| |done].
    by apply performs_succeeds.
Qed.

Lemma rejects_exchange_now {A C R} `{Command C, Command R} (c : C) cid fm step (k : R -> IO A) i r e :
  is_bytes i -> fits (request c cid) fm -> response cid i r -> k r = io_fail e ->
  rejects (_ ← send_request c cid fm; r ← log_failure step (recv_response R cid); k r)
    i (request c cid) e.
Proof.
  intros Hi Hf Hr Hk. rewrite <- (app_nil_r i), <- (app_nil_r (request c cid)).
  eapply rejects_exchange; [by rewrite app_nil_r|done..|]. rewrite Hk. apply rejects_fail.
Qed.

Lemma rejects_sasl_loop req fm n cid i o e :
  is_bytes i -> x_auth_refused req fm cid i o e -> (length i < n)%nat ->
  rejects (sasl_loop n req cid fm) i o e.
Proof.
  intros Hi Hx. revert n. induction Hx as [cid i sa e Hf Hr H1 H2 He|cid i sa i' o' e Hf Hr Hc _ IH];
    intros [|n] Hn; [lia| |lia|]; cbn [sasl_loop].
  - apply map_response_code_refusal in He as ->. eapply rejects_exchange_now; [done..|]. cbn beta zeta.
    by rewrite (proj2 (Z.eqb_neq _ _) H1), (proj2 (Z.eqb_neq _ _) H2).
  - eapply rejects_exchange; [done..|]. cbn beta zeta. rewrite Hc.
    replace (response_code.SaslChallenge =? response_code.Ok) with false by done. rewrite Z.eqb_refl.
    apply is_bytes_app in Hi as [_ Hi']. apply IH; [done|].
    destruct Hr as (f & -> & _). pose proof (enc_frame_nonempty f). rewrite length_app in Hn. lia.
Qed.

Lemma rejects_sasl_authenticate cfg fm cid i o e :
  is_bytes i -> x_auth_refused (sasl_request cfg) fm cid i o e ->
  rejects (step_sasl_authenticate cfg cid fm) i o e.
Proof.
  intros Hi Hx. apply rejects_log_then; [done|]. apply rejects_bind.
  intros w rest t Hr Hs Hready.
  assert (Hl : (length i < S (in_bytes (inbox w)))%nat).
  { pose proof (stream_in_bytes (inbox w)) as Hb. rewrite Hs in Hb. cbn in Hb. rewrite length_app in Hb. lia. }
  exact (rejects_sasl_loop _ _ _ _ _ _ _ Hi Hx Hl w rest t Hr Hs Hready).
Qed.

(** A prefix of successful steps, then a step that is refused. *)
Lemma rejects_step {A B} (m : IO A) (k : A -> IO B) D i1 o1 x i2 o2 e :
  performs m D -> is_bytes (i1 ++ i2) -> D i1 o1 x ->
  (is_bytes i2 -> rejects (k x) i2 o2 e) -> rejects (m ≫= k) (i1 ++ i2) (o1 ++ o2) e.
Proof.
  intros Hm [Hi1 Hi2]%is_bytes_app HD Hk. eapply rejects_after; [done| |by apply Hk].
  by apply performs_succeeds.
Qed.

Lemma refused_rejects cfg i o e : x_refused cfg i o e -> is_bytes i -> rejects (run_handshake cfg) i o e.
Proof.
  assert (Hneq : forall rc : Z, rc <> response_code.Ok -> negb (rc =? response_code.Ok) = true)
    by (intros rc Hrc; by rewrite (proj2 (Z.eqb_neq _ _) Hrc)).
  intros Hx Hi. unfold run_handshake. destruct Hx as
    [i pp e req rc Hr Hrc ->%map_response_code_refusal|i1 o1 sp i sh e rc H1 Hr Hrc ->%map_response_code_refusal|i1 o1 sp i sh ms H1 Hr Hrc Hms
    |i1 o1 sp i2 o2 i3 o3 e H1 H2 H3
    |i1 o1 sp i2 o2 i3 o3 cid i4 o4 fm hb i op e req rc H1 H2 H3 H4 Hf Hr Hrc ->%map_response_code_refusal].
  - apply rejects_bind, rejects_log_then; [done|].
    eapply rejects_exchange_now; [done..|]. cbn beta. by rewrite Hneq by done.
  - eapply rejects_step; [apply performs_peer_properties|done..|]. intros Hi'.
    apply rejects_bind, rejects_log_then; [done|].
    eapply rejects_exchange_now; [done..|]. cbn beta. by rewrite Hneq by done.
  - eapply rejects_step; [apply performs_peer_properties|done..|]. intros Hi'.
    apply rejects_bind, rejects_log_then; [done|].
    eapply rejects_exchange_now; [done..|]. cbn beta. rewrite Hrc, Z.eqb_refl. cbn [negb].
    destruct (plain_supported _) eqn:Hp; [by apply plain_supported_spec in Hp|done].
  - eapply rejects_step; [apply performs_peer_properties|done..|]. intros Hi2.
    eapply rejects_step; [apply performs_sasl_handshake|done..|]. intros Hi3.
    apply rejects_bind. by apply rejects_sasl_authenticate.
  - eapply rejects_step; [apply performs_peer_properties|done..|]. intros Hi2.
    eapply rejects_step; [apply performs_sasl_handshake|done..|]. intros Hi3.
    eapply rejects_step; [apply performs_sasl_authenticate|done..|]. intros Hi4.
    eapply rejects_step; [apply performs_tune|done..|]. intros Hi5.
    apply rejects_bind, rejects_log_then; [done|].
    eapply rejects_exchange_now; [done..|]. cbn beta. by rewrite Hneq by done.
Qed.
End refusal.

(** ** The fuel of the challenge loop *)

Section fuel.
Context `{Hplat : Platform}.

Lemma read_loop_bytes n mode received q bs q' :
  read_loop n mode received q = Some (ok bs, q') ->
  (in_bytes q + length received = in_bytes q' + length bs)%nat /\ (n <= length bs)%nat.
Proof.
  revert received. induction q as [|ev q IH]; intros received; cbn [read_loop];
    destruct (Nat.leb_spec n (length received)); [by intros [= <- <-]|done|by intros [= <- <-]|].
  destruct ev as [bs'| |e].
  - destruct (Nat.leb_spec (length bs') (n - length received)).
    + intros [Hb Hl]%IH. rewrite length_app in Hb. cbn. lia.
    + intros [= <- <-]. cbn. rewrite length_app, length_take, length_drop. lia.
  - done.
  - case_bool_decide; [apply IH|]. by destruct (_ && _).
Qed.

Lemma read_exact_bytes n mode w bs w' :
  read_exact n mode w = Some (ok bs, w') ->
  (in_bytes (inbox w) = in_bytes (inbox w') + length bs)%nat /\ (Z.to_nat n <= length bs)%nat.
Proof.
  unfold read_exact. destruct (read_loop _ _ _ _) as [[r q]|] eqn:E; [|done]. cbn.
  intros [= -> <-]. apply read_loop_bytes in E as [E ?]. cbn in *. lia.
Qed.

(** Every frame costs bytes of the peer. *)
Lemma read_frame_bytes w f w' :
  read_frame w = Some (ok f, w') -> (in_bytes (inbox w') < in_bytes (inbox w))%nat.
Proof.
  unfold read_frame, mbind, io_bind.
  destruct (read_exact 4 _ w) as [[[h|e] w1]|] eqn:E1; [|done..].
  apply read_exact_bytes in E1 as [E1 E1']. destruct (_ <? 4); [done|].
  destruct (read_exact _ TreatAsError w1) as [[[b|e] w2]|] eqn:E2; [|done..].
  apply read_exact_bytes in E2 as [E2 _]. intros [= _ <-]. lia.
Qed.

Lemma send_request_inbox {C} `{Command C} (c : C) cid fm w r w' :
  send_request c cid fm w = Some (r, w') -> inbox w' = inbox w.
Proof.
  unfold send_request, mbind, io_bind, io_lift, write_all.
  destruct (check_outbound_frame_size _ _) as [u|e]; [|by intros [= _ <-]].
  destruct (write_loop _ _ _) as [[[r' s] out]|]; [|done]. cbn. by intros [= _ <-].
Qed.

Lemma recv_bytes {C} `{Command C} step cid w x w' :
  log_failure step (recv_response C cid) w = Some (ok x, w') ->
  (in_bytes (inbox w') < in_bytes (inbox w))%nat.
Proof.
  unfold log_failure, on_error, recv_response, mbind, io_bind.
  destruct (read_frame w) as [[[f|e] w1]|] eqn:E; [|done..]. apply read_frame_bytes in E.
  destruct (negb _); [done|]. destruct (_ && _); [done|]. unfold io_lift.
  destruct (decode_body _) as [[y|e] r']; cbn; [|done]. by intros [= -> <-].
Qed.

Lemma sasl_loop_enough req cid fm w n m :
  (in_bytes (inbox w) < n)%nat -> (in_bytes (inbox w) < m)%nat ->
  sasl_loop n req cid fm w = sasl_loop m req cid fm w.
Proof.
  revert cid w m. induction n as [|n IH]; intros cid w [|m] Hn Hm; [lia|lia|lia|].
  cbn [sasl_loop]. unfold mbind, io_bind.
  destruct (send_request _ _ _ w) as [[[u|e] w1]|] eqn:Es; [|done..].
  apply send_request_inbox in Es.
  destruct (log_failure _ _ w1) as [[[r|e] w2]|] eqn:Er; [|done..].
  apply recv_bytes in Er. rewrite Es in Er.
  destruct (_ =? response_code.Ok); [done|]. destruct (_ =? response_code.SaslChallenge); [|done].
  apply IH; lia.
Qed.
End fuel.

(** ** A server for the examples *)

(** The frame by which a peer answers a correlation id. *)
Definition reply {C} `{Command C} (c : C) (cid : Z) : bytes :=
  encode_request_frame (kKey C) (kVersion C) cid (body_of c).

Lemma reply_frame {C} `{CommandLaws C} (c : C) cid :
  valid c -> zlen (body_of c) < 2 ^ 32 - 8 ->
  reply c cid = enc_frame (MkFrame (kKey C) (kVersion C) (body_of c) (Some cid)).
Proof. intros Hv Hl. unfold reply. by rewrite encode_request_frame_enc. Qed.

Lemma reply_response {C} `{CommandLaws C} (c : C) cid :
  key.is_response (kKey C) = true -> valid c -> zlen (body_of c) < 2 ^ 32 - 8 -> in_u 32 cid ->
  response cid (reply c cid) c.
Proof.
  intros Hk Hv Hl Hc. exists (MkFrame (kKey C) (kVersion C) (body_of c) (Some cid)).
  split; [by apply reply_frame|]. pose proof (body_of_enc c Hv) as Hb.
  split; [split; [|split]; cbn|].
  - split; [apply kKey_range|]. split; [apply kVersion_range|by split].
  - rewrite Hb. by apply enc_body_bytes.
  - zlen.
  - split; [done|]. split; [done|]. cbn. apply decode_body_reader; [done|]. rewrite <- Hb. lia.
Qed.

Lemma oneway_frame_oneway {C} `{CommandLaws C} (c : C) :
  key.is_response (kKey C) = false -> valid c -> zlen (body_of c) < 2 ^ 32 - 8 ->
  oneway (oneway_frame c) c.
Proof.
  intros Hk Hv Hl. exists (MkFrame (kKey C) (kVersion C) (body_of c) None).
  split; [unfold oneway_frame; rewrite encode_oneway_frame_enc; [done|lia]|].
  pose proof (body_of_enc c Hv) as Hb. split; [split; [|split]; cbn|].
  - split; [apply kKey_range|]. split; [apply kVersion_range|done].
  - rewrite Hb. by apply enc_body_bytes.
  - zlen.
  - split; [done|]. cbn. apply decode_body_reader; [done|]. rewrite <- Hb. lia.
Qed.

(** A server that sends one challenge before it accepts. *)
Definition sample_pp := PeerPropertiesResponse.Mk response_code.Ok [(lit "product", lit "RabbitMQ")].
Definition sample_sh := SaslHandshakeResponse.Mk response_code.Ok [lit "AMQPLAIN"; lit "PLAIN"].
Definition sample_challenge := SaslAuthenticateResponse.Mk response_code.SaslChallenge None.
Definition sample_accepted := SaslAuthenticateResponse.Mk response_code.Ok None.
Definition sample_tune := Tune.Mk 131072 30.
Definition sample_open := OpenResponse.Mk response_code.Ok [(lit "advertised_port", lit "5552")].
Definition sample_denied := OpenResponse.Mk response_code.VirtualHostAccessFailure [].
(** A wrong password. *)
Definition sample_wrong := SaslAuthenticateResponse.Mk response_code.AuthenticationFailure None.

Definition sample_auth : bytes := reply sample_challenge 3 ++ reply sample_accepted 4.
Definition server_side : bytes :=
  reply sample_pp 1 ++ reply sample_sh 2 ++ sample_auth ++ oneway_frame sample_tune ++ reply sample_open 5.

Definition client_pp := PeerPropertiesRequest.Mk (client_properties default_config).
Definition client_auth : bytes :=
  request (sasl_request default_config) 3 ++ request (sasl_request default_config) 4.
Definition client_side : bytes :=
  request client_pp 1 ++ request SaslHandshakeRequest.Mk 2 ++ client_auth ++
  oneway_frame (Tune.Mk 131072 30) ++ request (OpenRequest.Mk (lit "/")) 5.

Definition sample_result : HandshakeResult :=
  MkHandshake 131072 30 (PeerPropertiesResponse.properties sample_pp)
    (OpenResponse.connection_properties sample_open).

(** The server's bytes in two segments; the client's writes are accepted in
    pieces of at most forty bytes. *)
Definition sample_world (bs : bytes) : World :=
  MkWorld [Data (take 33 bs); RecvFail EINTR; Data (drop 33 bs)] (repeat (Sent 40) 600) [] [].

Lemma sample_first_steps :
  x_peer_properties default_config 1 0 (reply sample_pp 1) (request client_pp 1)
    (PeerPropertiesResponse.properties sample_pp) /\
  x_sasl_handshake 2 0 (reply sample_sh 2) (request SaslHandshakeRequest.Mk 2) tt /\
  x_authenticate (sasl_request default_config) 0 3 sample_auth client_auth 5 /\
  x_tune default_config (oneway_frame sample_tune) (oneway_frame (Tune.Mk 131072 30)) (131072, 30).
Proof.
  repeat split; try reflexivity.
  - exists sample_pp. split; [apply reply_response; decided|done].
  - exists sample_sh. split; [apply reply_response; decided|]. split; [done|]. decided.
  - apply (x_challenge _ _ 3 _ sample_challenge); [reflexivity|apply reply_response; decided|done|].
    apply (x_accepted _ _ 4 _ sample_accepted); [reflexivity|apply reply_response; decided|done].
  - exists sample_tune. split; [apply oneway_frame_oneway; decided|done].
Qed.

Lemma sample_dialogue : x_handshake default_config server_side client_side sample_result.
Proof.
  destruct sample_first_steps as (H1 & H2 & H3 & H4). econstructor; [done..|].
  split; [reflexivity|]. split; [reflexivity|]. exists sample_open.
  split; [apply reply_response; decided|done].
Qed.

(** ** Properties *)

(** C1.  The handshake succeeds only after a complete, accepted dialogue.  If
    [run_handshake] returns a result, the bytes consumed from the server are
    exactly the frames of the five steps, each a response of the right kind to the
    right correlation id: peer properties accepted, PLAIN offered, authentication
    accepted (after any number of challenges), a Tune, and the virtual host opened;
    and the bytes sent are exactly the requests of those steps, in order. *)
Theorem handshake_sound {P : Platform} (cfg : ConnectionConfig) (w w' : World) (r : HandshakeResult)
  (Hw : inbox_ok w) (Hr : run_handshake cfg w = Some (ok r, w')) :
  exists i o rest t, x_handshake cfg i o r /\
    stream (inbox w) = (i ++ rest, t) /\ stream (inbox w') = (rest, t) /\ outbox w' = outbox w ++ o.
Proof.
  destruct (performs_sound (performs := performs_handshake cfg) w w' r Hw Hr)
    as (i & o & Hx & (rest & t & Hs & Hs') & Ho).
  by exists i, o, rest, t.
Qed.

Lemma handshake_sound_witness :
  inbox_ok (sample_world server_side) /\
  exists w', run_handshake (Hplat := sample_platform) default_config (sample_world server_side)
    = Some (ok sample_result, w') /\
  exists i o rest t, x_handshake default_config i o sample_result /\
    stream (inbox (sample_world server_side)) = (i ++ rest, t) /\
    stream (inbox w') = (rest, t) /\ outbox w' = [] ++ o.
Proof.
  assert (Hw : inbox_ok (sample_world server_side)) by (unfold inbox_ok; decided).
  split; [exact Hw|]. eexists. split; [vm_compute; reflexivity|].
  refine (handshake_sound (P := sample_platform) default_config (sample_world server_side) _ _ Hw _).
  vm_compute. reflexivity.
Defined.

(** C2.  The handshake succeeds whenever the server plays its part: on any inbound
    stream that starts with the server's side of the dialogue, however segmented,
    and any outbound side that accepts the client's frames in pieces, it returns the
    dialogue's result, having consumed and sent exactly the dialogue. *)
Theorem handshake_complete {P : Platform} (cfg : ConnectionConfig) (w : World)
  (i o rest : bytes) t (r : HandshakeResult)
  (Hi : is_bytes i) (Hrest : is_bytes rest) (Hx : x_handshake cfg i o r)
  (Hs : stream (inbox w) = (i ++ rest, t)) (Hready : ready w (length o)) :
  exists w', run_handshake cfg w = Some (ok r, w') /\
    stream (inbox w') = (rest, t) /\ outbox w' = outbox w ++ o.
Proof.
  destruct (performs_succeeds (performs := performs_handshake cfg) i o r Hi Hx w rest t Hrest Hs Hready)
    as (w' & Hr & Hs' & Ho & _).
  by exists w'.
Qed.

Lemma handshake_complete_witness :
  exists w', run_handshake (Hplat := sample_platform) default_config (sample_world (server_side ++ [1; 2]))
    = Some (ok sample_result, w') /\
  stream (inbox w') = ([1; 2], None) /\ outbox w' = client_side.
Proof.
  apply (handshake_complete (P := sample_platform) default_config (sample_world (server_side ++ [1; 2]))
           server_side client_side [1; 2] None sample_result).
  - decided.
  - decided.
  - exact sample_dialogue.
  - vm_compute. reflexivity.
  - decided.
Defined.

(** C27.  Refusals.  When the server refuses a step (a response code other than Ok,
    or no PLAIN among its mechanisms), the handshake fails with the error that the
    protocol's code stands for: 0x08 and 0x0B are [AuthenticationFailed], 0x07 (and
    no PLAIN) [SaslMechanismNotSupported], 0x0C and 0x10 [VirtualHostAccessDenied],
    any other a [ServerError] with that code.  Nothing is sent after the refused
    request: credentials are not sent when PLAIN is not offered, and the virtual
    host is not opened when authentication fails. *)
Theorem handshake_refused {P : Platform} (cfg : ConnectionConfig) (w : World)
  (i o rest : bytes) t (e : StreamError)
  (Hi : is_bytes i) (Hrest : is_bytes rest) (Hx : x_refused cfg i o e)
  (Hs : stream (inbox w) = (i ++ rest, t)) (Hready : ready w (length o)) :
  exists w', run_handshake cfg w = Some (err e, w') /\
    stream (inbox w') = (rest, t) /\ outbox w' = outbox w ++ o.
Proof. exact (refused_rejects cfg i o e Hx Hi w rest t Hrest Hs Hready). Qed.

(** A virtual host that is denied, and a password that is wrong. *)
Lemma handshake_refused_witness :
  (exists w', run_handshake (Hplat := sample_platform) default_config
      (sample_world (reply sample_pp 1 ++ reply sample_sh 2 ++ sample_auth ++ oneway_frame sample_tune
                     ++ reply sample_denied 5))
    = Some (err (mk_error Kind.VirtualHostAccessDenied (lit "virtual host access denied: Open//")), w') /\
  stream (inbox w') = ([], None) /\ outbox w' = client_side) /\
  (exists w', run_handshake (Hplat := sample_platform) default_config
      (sample_world (reply sample_pp 1 ++ reply sample_sh 2 ++ reply sample_wrong 3))
    = Some (err (mk_error Kind.AuthenticationFailed (lit "authentication failed: SaslAuthenticate")), w') /\
  stream (inbox w') = ([], None) /\
  outbox w' = request client_pp 1 ++ request SaslHandshakeRequest.Mk 2 ++ request (sasl_request default_config) 3).
Proof.
  destruct sample_first_steps as (H1 & H2 & H3 & H4). split.
  2: {
  apply (handshake_refused (P := sample_platform) default_config
    (sample_world (reply sample_pp 1 ++ reply sample_sh 2 ++ reply sample_wrong 3))
    (reply sample_pp 1 ++ reply sample_sh 2 ++ reply sample_wrong 3)
    (request client_pp 1 ++ request SaslHandshakeRequest.Mk 2 ++ request (sasl_request default_config) 3) [] None).
  - decided.
  - decided.
  - apply (refused_sasl_authenticate default_config _ _ _ _ _ _ _ _ H1 H2).
    apply (x_refused_now _ _ _ _ sample_wrong); [reflexivity|apply reply_response; decided|decided|decided|].
    constructor. by left.
  - vm_compute. reflexivity.
  - decided. }
  apply (handshake_refused (P := sample_platform) default_config
    (sample_world (reply sample_pp 1 ++ reply sample_sh 2 ++ sample_auth ++ oneway_frame sample_tune
                   ++ reply sample_denied 5))
    (reply sample_pp 1 ++ reply sample_sh 2 ++ sample_auth ++ oneway_frame sample_tune ++ reply sample_denied 5)
    client_side [] None).
  - decided.
  - decided.
  - apply (refused_open default_config _ _ _ _ _ _ _ 5 _ _ 131072 30 _ sample_denied _ H1 H2 H3 H4).
    + reflexivity.
    + apply reply_response; decided.
    + decided.
    + constructor. by left.
  - vm_compute. reflexivity.
  - decided.
Defined.

(** The challenge loop terminates: each turn consumes bytes of the peer, so
    any fuel above the number of bytes the peer sends gives the same result, in
    particular the fuel used. *)
Lemma sasl_loop_terminates {P : Platform} (cfg : ConnectionConfig) (cid frame_max : Z) (w : World) (n : nat)
  (Hn : (in_bytes (inbox w) < n)%nat) :
  sasl_loop n (sasl_request cfg) cid frame_max w
  = sasl_loop (S (in_bytes (inbox w))) (sasl_request cfg) cid frame_max w.
Proof. apply sasl_loop_enough; [done|lia]. Qed.

Lemma sasl_loop_terminates_witness :
  let w := sample_world sample_auth in
  (in_bytes (inbox w) < 1000)%nat /\
  (exists w', sasl_loop (Hplat := sample_platform) 1000 (sasl_request default_config) 3 0 w = Some (ok 5, w')) /\
  sasl_loop (Hplat := sample_platform) 1000 (sasl_request default_config) 3 0 w
  = sasl_loop (Hplat := sample_platform) (S (in_bytes (inbox w))) (sasl_request default_config) 3 0 w.
Proof.
  cbn zeta. assert (Hn : (in_bytes (inbox (sample_world sample_auth)) < 1000)%nat) by decided.
  split; [exact Hn|]. split; [eexists; vm_compute; reflexivity|].
  exact (sasl_loop_terminates (P := sample_platform) default_config 3 0 (sample_world sample_auth) 1000 Hn).
Defined.

(** C36.  Negotiation.  The negotiated frame size never exceeds a limit set by
    either side, and is unlimited exactly when both sides are unlimited; the
    negotiated heartbeat is the smaller of the two, except that a client that asks
    for none (zero) gets the server's. *)
Theorem negotiation_spec (server requested : Z) (Hs : in_u 32 server) (Hr : in_u 32 requested) :
  let fm := negotiate_frame_max server requested in
  let hb := negotiate_heartbeat server requested in
  in_u 32 fm /\ in_u 32 hb /\
  (server <> 0 -> 0 < fm <= server) /\ (requested <> 0 -> 0 < fm <= requested) /\
  (fm = 0 <-> server = 0 /\ requested = 0) /\
  (requested <> 0 -> hb = Z.min server requested) /\ (requested = 0 -> hb = server).
Proof.
  unfold negotiate_frame_max, negotiate_heartbeat.
  destruct (Z.eqb_spec requested 0), (Z.eqb_spec server 0); cbn [negb]; range.
Qed.

Lemma negotiation_spec_witness :
  in_u 32 1048576 /\ in_u 32 0 /\ negotiate_frame_max 1048576 0 = 1048576 /\
  negotiate_frame_max 0 1048576 = 1048576 /\ negotiate_heartbeat 60 0 = 60.
Proof.
  assert (H1 : in_u 32 1048576) by decided. assert (H0 : in_u 32 0) by decided.
  assert (H60 : in_u 32 60) by decided.
  pose proof (negotiation_spec 1048576 0 H1 H0) as A.
  pose proof (negotiation_spec 60 0 H60 H0) as B.
  split; [exact H1|]. split; [exact H0|]. split; [reflexivity|]. split; [reflexivity|].
  apply B. reflexivity.
Defined.
