(* ===== verification/Client.v ===== *)
(** * The client: [client.hpp], [client.cpp]

    The connection state machine, the lifecycle commands and the two background
    threads.  The members of [StreamClient] are the fields of [Client]; each
    operation is a function on it, with the readings of the clock and the effect
    of the other threads while it waits as arguments. *)

From coqutil Require Import Datatypes.RecordSetters.
From S2P Require Import Prelude Errors Buffer Codec Frame Command HandshakeCommands.
From S2P Require Import LifecycleCommands Config Dispatcher Socket Dialogue Handshake.
Import TriangleBracketNotations.

Local Open Scope Z_scope.

(** [enum class ConnectionState]. *)
Module ConnectionState.
Inductive t := Disconnected | Connecting | Open | Closing | Closed.
#[global] Instance eq_dec : EqDecision t.
Proof. solve_decision. Defined.
End ConnectionState.

(** [class StreamClient].  A thread is represented by whether it is joinable; the
    last fields are the environment: the connection, the open descriptors, the
    receive timeout set on the socket, the calls of the unexpected-close callback,
    and the reading of the steady clock. *)
Record Client := MkClient {
  cfg_ : ConnectionConfig;
  state_ : ConnectionState.t;
  sock_ : Socket;
  writer_ : bool;
  dispatcher_ : Dispatcher;
  io_thread_ : bool;
  stop_io_ : bool;
  last_inbound_at_ : Z;
  last_outbound_at_ : Z;
  heartbeat_thread_ : bool;
  next_app_cid_ : Z;
  negotiated_frame_max_ : Z;
  negotiated_heartbeat_ : Z;
  server_props_ : list KeyValue;
  conn_props_ : list KeyValue;
  on_unexpected_close_ : option nat;
  unexpected_fired_ : bool;
  closing_ : bool;
  net : World;
  fds : gmap Z Z;
  recv_timeout : option (Z * Z);
  fired : list (nat * UnexpectedClose);
  clock : Z
}.

#[global] Arguments apply_update : simpl never.

(** [StreamClient(ConnectionConfig)]: the member initialisers. *)
Definition new_client (cfg : ConnectionConfig) (w : World) (os : gmap Z Z) : Client :=
  MkClient cfg ConnectionState.Disconnected Sock.empty false new_dispatcher false false 0 0 false
    100 0 0 [] [] None false false w os None [] 0.

(** Clock readings are nanoseconds. *)
Definition ms (n : Z) : Z := n * 1000000.
Definition seconds (n : Z) : Z := n * 1000000000.

(** [cfg_.log(LogLevel::Info, msg)]. *)
Definition log_info (msg : std_string) (c : Client) : Client :=
  c <| net := MkWorld (inbox (net c)) (sends (net c)) (outbox (net c)) (logs (net c) ++ [(Info, msg)]) |>.

(** Run an I/O operation on the connection of the client. *)
Definition on_net {A} (m : IO A) (c : Client) : option (Result A * Client) :=
  '(r, w) ← m (net c); Some (r, c <| net := w |>).

Section client.
Context `{Hplat : Platform}.

(** [recv] and [send] on a socket that [close] has closed: [fd_] is [kInvalidFd], and
    the answer is EBADF.  One that was under way goes on: the descriptor it has
    taken is released when it is done. *)
Definition EBADF : Errno := EOther 9.
Definition recv_closed : StreamError := mk_error Kind.IoError (lit "recv: " ++ strerror EBADF).
Definition send_closed : StreamError := mk_error Kind.IoError (lit "send: " ++ strerror EBADF).

(** A part of the data has been sent before that. *)
Definition cut_after (data : bytes) (n : nat) (c : Client) : Client :=
  c <| net := MkWorld (inbox (net c)) (sends (net c)) (outbox (net c) ++ take n data) (logs (net c)) |>.

(** [sock_.set_recv_timeout(ms)] for half the heartbeat. *)
Definition set_half_heartbeat (hb : Z) (c : Client) : Client :=
  if hb >? 0 then c <| recv_timeout := Some (Sock.recv_timeval (hb * 500)) |> else c.

(** The last part of [connect], after a successful handshake: keep what was
    negotiated, become open, and start the threads. *)
Definition connection_opened (hs : HandshakeResult) (now : Z) (c : Client) : Client :=
  let c := c <| negotiated_frame_max_ := negotiated_frame_max hs |>
             <| negotiated_heartbeat_ := negotiated_heartbeat hs |>
             <| server_props_ := server_properties hs |>
             <| conn_props_ := hs_connection_properties hs |> in
  let c := set_half_heartbeat (negotiated_heartbeat_ c) c in
  let c := c <| state_ := ConnectionState.Open |> <| closing_ := false |> in
  let c := c <| last_inbound_at_ := now |> <| last_outbound_at_ := now |> in
  let c := c <| stop_io_ := false |> <| unexpected_fired_ := false |> in
  let c := c <| io_thread_ := true |> in
  let c := if negotiated_heartbeat_ c >? 0 then c <| heartbeat_thread_ := true |> else c in
  log_info (lit "connection open: frame_max=" ++ to_string_u (negotiated_frame_max_ c)
             ++ lit " heartbeat=" ++ to_string_u (negotiated_heartbeat_ c)
             ++ lit " vhost=" ++ virtual_host (cfg_ c)) c.

Definition already_open : StreamError :=
  mk_error Kind.ConnectionNotOpen (lit "already connecting or open").

(** [connect]; [None] when the handshake waits forever.  The resolver is the
    default argument of [connect_with_timeout]. *)
Definition connect (getaddrinfo : std_string -> std_string -> Z + list ResolvedAddr)
  (answers : ResolvedAddr -> Attempt) (now : Z) (c : Client) : option (Result unit * Client) :=
  match validate (cfg_ c) with
  | err e => Some (err e, c)
  | ok _ =>
      if negb (bool_decide (state_ c = ConnectionState.Disconnected)) then Some (err already_open, c)
      else
        let c := c <| state_ := ConnectionState.Connecting |> in
        let c := log_info (lit "connecting to " ++ host (cfg_ c) ++ lit ":" ++ to_string_u (port (cfg_ c))) c in
        match connect_with_timeout (host (cfg_ c)) (port (cfg_ c)) (connect_timeout (cfg_ c))
                (default_resolve_host getaddrinfo) answers (fds c) with
        | (err e, os) =>
            Some (err e, c <| fds := os |> <| state_ := ConnectionState.Closed |>)
        | (ok s, os) =>
            let '(sock, _, os) := Sock.assign (sock_ c) s os in
            let c := c <| sock_ := sock |> <| fds := os |> in
            let c := set_half_heartbeat (requested_heartbeat_seconds (cfg_ c)) c in
            let c := c <| writer_ := true |> in
            match on_net (run_handshake (cfg_ c)) c with
            | None => None
            | Some (err e, c) =>
                let '(sock, os) := Sock.close (sock_ c) (fds c) in
                Some (err e, c <| sock_ := sock |> <| fds := os |> <| state_ := ConnectionState.Closed |>)
            | Some (ok hs, c) =>
                Some (ok tt, connection_opened hs now c)
            end
        end
  end.

(** [notify_unexpected_close]: at most once, on a detached thread. *)
Definition notify_unexpected_close (evt : UnexpectedClose) (c : Client) : Client :=
  if unexpected_fired_ c then c
  else
    let c := c <| unexpected_fired_ := true |> in
    match on_unexpected_close_ c with
    | None => c
    | Some cb => c <| fired := fired c ++ [(cb, evt)] |>
    end.

(** [fail_all_pending] and [reap_expired] of the client's dispatcher. *)
Definition fail_pending (e : StreamError) (c : Client) : option Client :=
  d ← fail_all_pending e (dispatcher_ c); Some (c <| dispatcher_ := d |>).
Definition reap (now : Z) (c : Client) : option Client :=
  '(_, d) ← reap_expired now (dispatcher_ c); Some (c <| dispatcher_ := d |>).

(** [dead_interval]. *)
Definition dead_interval (c : Client) : Z :=
  if negotiated_heartbeat_ c >? 0 then seconds (negotiated_heartbeat_ c * 2)
  else seconds (24 * 365 * 3600).

Definition heartbeat_timeout : StreamError :=
  mk_error Kind.ConnectionClosed (lit "heartbeat timeout").

(** What an iteration of [io_loop] does with the result of [read_frame]; [true]
    when the loop ends. *)
Definition io_turn (frame_r : Result IncomingFrame) (now : Z) (c : Client) : option (bool * Client) :=
  match frame_r with
  | err e =>
      if bool_decide (kind e = Kind.RequestTimeout) then
        if (negotiated_heartbeat_ c >? 0) && (now - last_inbound_at_ c >? dead_interval c) then
          c ← fail_pending heartbeat_timeout c;
          Some (true, notify_unexpected_close
            (MkUnexpectedClose CloseReason.HeartbeatTimeout (lit "no data received for 2×heartbeat") false) c)
        else
          c ← reap now c;
          Some (false, c)
      else
        let is_peer_close := bool_decide (kind e = Kind.ConnectionClosed) in
        c ← fail_pending e c;
        Some (true,
          if negb (closing_ c) then
            notify_unexpected_close
              (MkUnexpectedClose (if is_peer_close then CloseReason.PeerClosedSocket else CloseReason.IoError)
                 (message e) false) c
          else c)
  | ok f =>
      let c := c <| last_inbound_at_ := now |> in
      c ← reap now c;
      '(_, d) ← dispatch f (dispatcher_ c);
      Some (false, c <| dispatcher_ := d |>)
  end.

(** An iteration of [io_loop], its [while] condition included. *)
Definition io_iteration (now : Z) (c : Client) : option (bool * Client) :=
  if stop_io_ c then Some (true, c)
  else
    '(frame_r, c) ← on_net read_frame c;
    io_turn frame_r now c.

(** The end of [io_loop]. *)
Definition io_exit (c : Client) : Client :=
  if negb (bool_decide (state_ c = ConnectionState.Closed))
     && negb (bool_decide (state_ c = ConnectionState.Closing))
  then c <| state_ := ConnectionState.Closed |> else c.

(** [io_loop], given the time of each iteration; no time is left when the loop has
    not ended. *)
Fixpoint io_loop (times : list Z) (c : Client) : option (bool * Client) :=
  match times with
  | [] => Some (false, c)
  | now :: times =>
      '(stop, c) ← io_iteration now c;
      if stop : bool then Some (true, io_exit c) else io_loop times c
  end.

(** A turn of the heartbeat thread's loop after its sleep. *)
Definition heartbeat_tick (now : Z) (c : Client) : option Client :=
  if stop_io_ c then Some c
  else if now - last_outbound_at_ c >=? seconds (negotiated_heartbeat_ c) then
    if writer_ c then
      '(_, c) ← on_net (write_all (oneway_frame Heartbeat.Mk)) c;
      Some (c <| last_outbound_at_ := now |>)
    else Some c
  else Some c.

(** ** Requests *)

(** [require_open]. *)
Definition not_open : StreamError := mk_error Kind.ConnectionNotOpen (lit "connection is not open").
Definition require_open (c : Client) : Result unit :=
  if negb (bool_decide (state_ c = ConnectionState.Open)) then err not_open else ok tt.

(** [check_reference]. *)
Definition reference_too_long : StreamError :=
  mk_error Kind.ReferenceTooLong (lit "reference exceeds 256 characters").
Definition check_reference (ref : std_string) : Result unit :=
  if zlen ref >? 256 then err reference_too_long else ok tt.

(** [next_app_cid_++]. *)
Definition take_cid (c : Client) : Z * Client :=
  (next_app_cid_ c, c <| next_app_cid_ := wrap 32 (next_app_cid_ c + 1) |>).

(** [dispatcher_.register_pending]. *)
Definition register (cid deadline : Z) (c : Client) : nat * Client :=
  let '(n, d) := register_pending cid deadline (dispatcher_ c) in (n, c <| dispatcher_ := d |>).

(** The part of [send_and_wait] before the wait: the future of the response. *)
Definition send_part (key version : Z) (body : bytes) (now : Z) (c : Client)
  : option (Result nat * Client) :=
  let '(cid, c) := take_cid c in
  let deadline := now + ms (request_timeout (cfg_ c)) in
  let '(fut, c) := register cid deadline c in
  let frame := encode_request_frame key version cid body in
  match check_outbound_frame_size (wrap 64 (zlen frame - 4)) (negotiated_frame_max_ c) with
  | err e => Some (err e, c)
  | ok _ =>
      let c := c <| last_outbound_at_ := now |> in
      '(r, c) ← on_net (write_all frame) c;
      match r with
      | err e => Some (err e, c)
      | ok _ => Some (ok fut, c)
      end
  end.

Definition wait_timed_out : StreamError := mk_error Kind.RequestTimeout (lit "request timed out").

(** [fut.wait_for] and [fut.get]: at the end of the wait the promise is not
    satisfied (timeout), holds a result, or was abandoned ([get] throws). *)
Definition wait_part (fut : nat) (c : Client) : option (Result IncomingFrame) :=
  match promises (dispatcher_ c) !! fut with
  | Some Unset => Some (err wait_timed_out)
  | Some (Satisfied r) => Some r
  | _ => None
  end.

(** What the other threads do to the client while this one waits. *)
Variable others : Client -> Client.

(** [send_and_wait]. *)
Definition send_and_wait (key version : Z) (body : bytes) (now : Z) (c : Client)
  : option (Result IncomingFrame * Client) :=
  '(r, c) ← send_part key version body now c;
  match r with
  | err e => Some (err e, c)
  | ok fut =>
      let c := others c in
      r ← wait_part fut c;
      Some (r, c)
  end.

(** Send the request, then make a result of the response frame. *)
Definition request_reply {C A} `{Command C} (req : C) (now : Z)
  (reply : IncomingFrame -> Result A) (c : Client) : option (Result A * Client) :=
  let body := body_of req in
  '(resp_r, c) ← send_and_wait (kKey C) (kVersion C) body now c;
  match resp_r with
  | err e => Some (err e, c)
  | ok f => Some (reply f, c)
  end.

(** [create_stream], from the response frame on. *)
Definition create_reply (stream : std_string) (idempotent : bool) (f : IncomingFrame) : Result unit :=
  resp ← fst (CreateResponse.decode_body (reader_of (f_body f)));
  let code := CreateResponse.response_code resp in
  if code =? response_code.Ok then ok tt
  else if code =? response_code.StreamAlreadyExists then
    if idempotent then ok tt
    else err (mk_error Kind.StreamAlreadyExists (lit "stream already exists: " ++ stream))
  else err (mk_error_code Kind.ServerError (lit "create_stream failed") code).

Definition create_stream (stream : std_string) (args : list Argument) (idempotent : bool)
  (now : Z) (c : Client) : option (Result unit * Client) :=
  match require_open c with
  | err e => Some (err e, c)
  | ok _ => request_reply (CreateRequest.Mk stream args) now (create_reply stream idempotent) c
  end.

(** [delete_stream]. *)
Definition delete_reply (stream : std_string) (idempotent : bool) (f : IncomingFrame) : Result unit :=
  resp ← fst (DeleteResponse.decode_body (reader_of (f_body f)));
  let code := DeleteResponse.response_code resp in
  if code =? response_code.Ok then ok tt
  else if code =? response_code.StreamDoesNotExist then
    if idempotent then ok tt
    else err (mk_error Kind.StreamDoesNotExist (lit "stream does not exist: " ++ stream))
  else err (mk_error_code Kind.ServerError (lit "delete_stream failed") code).

Definition delete_stream (stream : std_string) (idempotent : bool) (now : Z) (c : Client)
  : option (Result unit * Client) :=
  match require_open c with
  | err e => Some (err e, c)
  | ok _ => request_reply (DeleteRequest.Mk stream) now (delete_reply stream idempotent) c
  end.

(** [store_offset]: one-way. *)
Definition store_offset (reference stream : std_string) (offset now : Z) (c : Client)
  : option (Result unit * Client) :=
  match require_open c with
  | err e => Some (err e, c)
  | ok _ =>
      match check_reference reference with
      | err e => Some (err e, c)
      | ok _ =>
          let cmd := StoreOffset.Mk reference stream offset in
          let frame := encode_oneway_frame StoreOffset.kKey StoreOffset.kVersion (body_of cmd) in
          let c := c <| last_outbound_at_ := now |> in
          on_net (write_all frame) c
      end
  end.

(** [query_offset]. *)
Definition query_offset_reply (stream : std_string) (f : IncomingFrame) : Result (option Z) :=
  resp ← fst (QueryOffsetResponse.decode_body (reader_of (f_body f)));
  let code := QueryOffsetResponse.response_code resp in
  if code =? response_code.Ok then ok (Some (QueryOffsetResponse.offset resp))
  else if code =? response_code.NoOffset then ok None
  else if code =? response_code.StreamDoesNotExist then
    err (mk_error Kind.StreamDoesNotExist (lit "stream does not exist: " ++ stream))
  else err (mk_error_code Kind.ServerError (lit "query_offset failed") code).

Definition query_offset (reference stream : std_string) (now : Z) (c : Client)
  : option (Result (option Z) * Client) :=
  match require_open c with
  | err e => Some (err e, c)
  | ok _ => request_reply (QueryOffsetRequest.Mk reference stream) now (query_offset_reply stream) c
  end.

(** [query_publisher_sequence]. *)
Definition query_publisher_reply (stream : std_string) (f : IncomingFrame) : Result Z :=
  resp ← fst (QueryPublisherResponse.decode_body (reader_of (f_body f)));
  let code := QueryPublisherResponse.response_code resp in
  if code =? response_code.Ok then ok (QueryPublisherResponse.sequence resp)
  else if code =? response_code.StreamDoesNotExist then
    err (mk_error Kind.StreamDoesNotExist (lit "stream does not exist: " ++ stream))
  else err (mk_error_code Kind.ServerError (lit "query_publisher_sequence failed") code).

Definition query_publisher_sequence (reference stream : std_string) (now : Z) (c : Client)
  : option (Result Z * Client) :=
  match require_open c with
  | err e => Some (err e, c)
  | ok _ =>
      match check_reference reference with
      | err e => Some (err e, c)
      | ok _ =>
          request_reply (QueryPublisherRequest.Mk reference stream) now (query_publisher_reply stream) c
      end
  end.

(** ** Closing *)

Definition close_request : CloseRequest.t := CloseRequest.Mk 0x01 (lit "client requested close").
Definition connection_closed : StreamError := mk_error Kind.ConnectionClosed (lit "connection closed").

(** What the background threads do between the closing of the socket and the
    moment both have been joined. *)
Variable threads_end : Client -> Client.

(** [io_thread_.join()], [heartbeat_thread_.join()]. *)
Definition join_threads (c : Client) : Client :=
  (threads_end c) <| io_thread_ := false |> <| heartbeat_thread_ := false |>.

(** What the other threads do after the pending requests have been failed and before
    the client counts as closed: a caller that was let in before [close] began may
    still register its request. *)
Variable late : Client -> Client.

(** [close]; the result of the write and of the wait are ignored. *)
Definition close (now : Z) (c : Client) : option (Result unit * Client) :=
  if negb (bool_decide (state_ c = ConnectionState.Open)) then
    Some (err (mk_error Kind.ConnectionNotOpen (lit "not open")), c)
  else
    let c := c <| state_ := ConnectionState.Closing |> <| closing_ := true |> in
    let body := body_of close_request in
    let '(cid, c) := take_cid c in
    let '(_, c) := register cid (now + ms (request_timeout (cfg_ c))) c in
    let frame := encode_request_frame CloseRequest.kKey CloseRequest.kVersion cid body in
    '(_, c) ← (if writer_ c then on_net (write_all frame) c else Some (ok tt, c));
    let c := others c in
    let c := c <| stop_io_ := true |> in
    let '(sock, os) := Sock.close (sock_ c) (fds c) in
    let c := c <| sock_ := sock |> <| fds := os |> in
    let c := join_threads c in
    c ← fail_pending connection_closed c;
    let c := late c in
    let c := c <| state_ := ConnectionState.Closed |> in
    Some (ok tt, log_info (lit "connection closed") c).

(** [~StreamClient]. *)
Definition destroy (c : Client) : Client :=
  let c := if bool_decide (state_ c = ConnectionState.Open) then c <| closing_ := true |> else c in
  let c := c <| stop_io_ := true |> in
  let c := join_threads c in
  let '(sock, os) := Sock.close (sock_ c) (fds c) in
  c <| sock_ := sock |> <| fds := os |>.

(** [on_unexpected_close]. *)
Definition on_unexpected_close (cb : nat) (c : Client) : Client :=
  c <| on_unexpected_close_ := Some cb |>.
End client.

(** The getters [state], [server_properties], [connection_properties]. *)
Module StreamClient.
Definition state (c : Client) : ConnectionState.t := state_ c.
Definition server_properties (c : Client) : list KeyValue := server_props_ c.
Definition connection_properties (c : Client) : list KeyValue := conn_props_ c.
End StreamClient.
