(* ===== verification/ClientInvariant.v ===== *)
(** * The invariant of the client

    The state every operation of the client preserves, what each turn of the I/O
    loop and of the heartbeat thread, and each request, does to it, and the steps
    ([activity]) the other threads may take while one of them waits. *)

From coqutil Require Import Datatypes.RecordSetters.
From S2P Require Import Prelude Errors Buffer Codec Frame Command HandshakeCommands.
From S2P Require Import LifecycleCommands Config Dispatcher Socket Dialogue Handshake Client.
Import TriangleBracketNotations.

Local Open Scope Z_scope.

(** ** What the peer sends are bytes *)

Definition event_ok (ev : InEvent) : Prop :=
  match ev with Data bs => is_bytes bs | _ => True end.

#[export] Instance event_ok_dec ev : Decision (event_ok ev).
Proof. destruct ev; cbn; apply _. Defined.

Definition queue_ok (q : list InEvent) : Prop := Forall event_ok q.

Lemma queue_ok_stream q : queue_ok q -> is_bytes (stream q).1.
Proof.
  induction 1 as [|[bs| |e] q Hev _ IH]; cbn; [constructor| |constructor|].
  - destruct (stream q). cbn in *. by apply is_bytes_app.
  - case_bool_decide; [done|constructor].
Qed.

Section queue.
Context `{Hplat : Platform}.

Lemma read_loop_queue n mode received q r q' :
  queue_ok q -> read_loop n mode received q = Some (r, q') -> queue_ok q'.
Proof.
  intros Hq. revert received. induction Hq as [|ev q Hev Hq IH]; intros received; cbn [read_loop];
    (destruct (n <=? length received)%nat; [intros [= _ <-]; by constructor|]); [done|].
  destruct ev as [bs| |e].
  - destruct (length bs <=? _)%nat; [apply IH|]. intros [= _ <-].
    constructor; [|done]. by apply is_bytes_drop.
  - intros [= _ <-]. by constructor.
  - case_bool_decide; [apply IH|]. destruct (_ && _); by intros [= _ <-].
Qed.

Lemma read_exact_queue n mode w r w' :
  queue_ok (inbox w) -> read_exact n mode w = Some (r, w') -> queue_ok (inbox w').
Proof.
  intros Hq. unfold read_exact. destruct (read_loop _ _ _ _) as [[r' q]|] eqn:E; [|done].
  intros [= _ <-]. by eapply read_loop_queue.
Qed.

Lemma read_frame_queue w r w' :
  queue_ok (inbox w) -> read_frame w = Some (r, w') -> queue_ok (inbox w').
Proof.
  intros Hq. unfold read_frame, mbind, io_bind.
  destruct (read_exact 4 _ w) as [[[h|e] w1]|] eqn:E1; [| |done].
  - apply read_exact_queue in E1; [|done]. destruct (_ <? 4); [by intros [= _ <-]|].
    destruct (read_exact _ TreatAsError w1) as [[[b|e] w2]|] eqn:E2; [| |done];
      (apply read_exact_queue in E2; [|done]); by intros [= _ <-].
  - apply read_exact_queue in E1; [|done]. by intros [= _ <-].
Qed.
End queue.

(** ** The invariant of the client *)

(** The dispatcher represents a request table, the bytes of the peer are bytes, and
    the pending correlation ids were drawn from the counter, which has not wrapped. *)
Definition client_ok (c : Client) : Prop :=
  (exists l, refines (dispatcher_ c) l) /\ queue_ok (inbox (net c)) /\
  100 <= next_app_cid_ c < 2 ^ 32 /\
  forall cid, is_Some (pending_ (dispatcher_ c) !! cid) -> cid < next_app_cid_ c.

(** No promise is forgotten, and none that is resolved changes. *)
Definition results_kept (d d' : Dispatcher) : Prop :=
  (length (promises d) <= length (promises d'))%nat /\
  forall n p, p <> Unset -> promises d !! n = Some p -> promises d' !! n = Some p.

#[export] Instance results_kept_preorder : PreOrder results_kept.
Proof. split; [by split|]. intros d1 d2 d3 [L1 H1] [L2 H2]. split; [lia|]. auto. Qed.

Lemma spec_step_length op l : (length l <= length (spec_step op l))%nat.
Proof.
  destruct op; cbn; try done.
  - unfold spec_register. rewrite length_app. lia.
  - case_match; [|done]. unfold spec_respond. by rewrite length_fmap.
  - unfold spec_fail. by rewrite length_fmap.
  - unfold spec_reap. by rewrite length_fmap.
Qed.

Lemma spec_step_over op l n q :
  (forall cid d, q <> Waiting cid d) -> l !! n = Some q -> spec_step op l !! n = Some q.
Proof.
  intros Hq Hl. destruct q as [cid d|r|]; [by destruct (Hq cid d)|by apply spec_step_done|].
  destruct op; cbn; try done.
  - unfold spec_register. by apply lookup_app_l_Some.
  - case_match; [|done]. unfold spec_respond. by rewrite list_lookup_fmap, Hl.
  - unfold spec_fail. by rewrite list_lookup_fmap, Hl.
  - unfold spec_reap. by rewrite list_lookup_fmap, Hl.
Qed.

Lemma step_results_kept op st l out st' :
  refines st l -> step op st = Some (out, st') -> results_kept st st'.
Proof.
  intros Hr Hs. destruct (step_refines st l op Hr) as (out' & d & Hs' & Hr' & _).
  rewrite Hs in Hs'. injection Hs' as _ <-. split.
  - rewrite (represents_length _ _ _ Hr), (represents_length _ _ _ Hr'). apply spec_step_length.
  - intros n p Hp Hn. destruct (Forall2_lookup_l _ _ _ _ _ (proj1 Hr) Hn) as (q & Hq & Ha).
    assert (Hw : forall cid d, q <> Waiting cid d) by (by intros cid d0 ->).
    pose proof (spec_step_over op l n q Hw Hq) as Hq'.
    destruct (Forall2_lookup_r _ _ _ _ _ (proj1 Hr') Hq') as (p' & -> & Ha').
    destruct q as [cid d0|r|]; cbn in *; [by destruct (Hw cid d0)|congruence..].
Qed.

Lemma results_kept_fail e c c' :
  client_ok c -> fail_pending e c = Some c' -> results_kept (dispatcher_ c) (dispatcher_ c').
Proof.
  intros ((l & Hr) & _). unfold fail_pending. destruct (fail_all_pending e _) as [d|] eqn:E; [|done].
  intros [= <-]. apply (step_results_kept (FailAllPending e) _ l OutUnit); [done|]. cbn [step]. by rewrite E.
Qed.

Lemma results_kept_reap now c c' :
  client_ok c -> reap now c = Some c' -> results_kept (dispatcher_ c) (dispatcher_ c').
Proof.
  intros ((l & Hr) & _). unfold reap. destruct (reap_expired now _) as [[n d]|] eqn:E; [|done].
  intros [= <-]. apply (step_results_kept (ReapExpired now) _ l (OutCount n)); [done|]. cbn [step]. by rewrite E.
Qed.

Lemma results_kept_register cid deadline c :
  client_ok c -> results_kept (dispatcher_ c) (dispatcher_ (register cid deadline c).2).
Proof.
  intros ((l & Hr) & _). unfold register. destruct (register_pending cid deadline _) as [n d] eqn:E.
  apply (step_results_kept (RegisterPending cid deadline) _ l (OutFuture n)); [done|]. cbn [step]. by rewrite E.
Qed.

(** Every promise holds a result (or was abandoned). *)
Definition all_resolved (c : Client) : Prop := Forall (fun p => p <> Unset) (promises (dispatcher_ c)).

Lemma reap_pending now st n st' :
  reap_expired now st = Some (n, st') ->
  pending_ st' = filter (fun kv => is_expired now kv.2 = false) (pending_ st).
Proof. unfold reap_expired. destruct (settle_all _ _ _); by intros; simplify_eq/=. Qed.

Lemma dispatch_pending f st b st' :
  dispatch f st = Some (b, st') -> pending_ st' ⊆ pending_ st.
Proof.
  unfold dispatch. destruct (key.is_response _).
  - destruct (f_correlation_id f) as [cid|]; [|by intros [= _ <-]].
    destruct (pending_ st !! cid) as [e|]; [|by intros [= _ <-]].
    destruct (set_value _ _ _); [|done]. intros [= _ <-]. cbn. apply delete_subseteq.
  - unfold dispatch_oneway. intros [= H]. repeat case_match; by simplify_eq/=.
Qed.

Lemma fail_all_no_unset st l e st' :
  refines st l -> fail_all_pending e st = Some st' -> Forall (fun p => p <> Unset) (promises st').
Proof.
  intros Hr Hf. rewrite (fail_all_promises _ _ _ _ Hr Hf). apply Forall_fmap, Forall_true. by intros [].
Qed.

(** Changes of the dispatcher that only remove entries keep the invariant. *)
Lemma client_ok_dispatcher c d l :
  client_ok c -> refines d l -> pending_ d ⊆ pending_ (dispatcher_ c) ->
  client_ok (c <| dispatcher_ := d |>).
Proof.
  intros (_ & Hb & Hcid & Hlt) Hr Hs. split; [by exists l|]. split; [done|]. split; [done|].
  intros cid [e He]. apply Hlt. exists e. by eapply lookup_weaken.
Qed.

Lemma fail_pending_ok e c :
  client_ok c -> exists c', fail_pending e c = Some c' /\ client_ok c' /\ all_resolved c' /\
    pending_ (dispatcher_ c') = ∅ /\ c' = c <| dispatcher_ := dispatcher_ c' |>.
Proof.
  intros Hok. pose proof Hok as ((l & Hr) & _). unfold fail_pending.
  destruct (fail_all_refines _ l e Hr) as (d & Hd & Hr'). rewrite Hd. cbn.
  pose proof (fail_all_pending_map _ _ _ Hd) as Hp. eexists. split; [done|]. split.
  - eapply client_ok_dispatcher; [done|done|]. rewrite Hp. apply map_empty_subseteq.
  - split; [exact (fail_all_no_unset _ _ _ _ Hr Hd)|done].
Qed.

Lemma reap_ok now c :
  client_ok c -> exists c', reap now c = Some c' /\ client_ok c' /\
    c' = c <| dispatcher_ := dispatcher_ c' |> /\
    pending_ (dispatcher_ c') = filter (fun kv => is_expired now kv.2 = false) (pending_ (dispatcher_ c)).
Proof.
  intros Hok. pose proof Hok as ((l & Hr) & _). unfold reap.
  destruct (reap_refines _ l now Hr) as (d & Hd & Hr'). rewrite Hd. cbn.
  pose proof (reap_pending _ _ _ _ Hd) as Hp. eexists. split; [done|].
  split; [|done]. eapply client_ok_dispatcher; [done|done|]. rewrite Hp. apply map_filter_subseteq.
Qed.

(** The notification touches neither the dispatcher nor the connection. *)
Lemma notify_frame evt c :
  let c' := notify_unexpected_close evt c in
  dispatcher_ c' = dispatcher_ c /\ net c' = net c /\ next_app_cid_ c' = next_app_cid_ c.
Proof.
  cbn zeta. unfold notify_unexpected_close. destruct (unexpected_fired_ c); [done|].
  by destruct (on_unexpected_close_ _).
Qed.

Lemma notify_ok evt c : client_ok c -> client_ok (notify_unexpected_close evt c).
Proof. unfold client_ok. by destruct (notify_frame evt c) as (-> & -> & ->). Qed.

Lemma notify_resolved evt c :
  all_resolved c /\ pending_ (dispatcher_ c) = ∅ ->
  all_resolved (notify_unexpected_close evt c) /\
  pending_ (dispatcher_ (notify_unexpected_close evt c)) = ∅.
Proof. unfold all_resolved. by destruct (notify_frame evt c) as (-> & _ & _). Qed.

(** The turns of the I/O thread never let an exception escape, and keep the
    invariant. *)
Lemma io_turn_ok r now c :
  client_ok c -> exists b c', io_turn r now c = Some (b, c') /\ client_ok c' /\
    (b = true -> all_resolved c' /\ pending_ (dispatcher_ c') = ∅).
Proof.
  intros Hok. unfold io_turn. destruct r as [f|e].
  - destruct (reap_ok now (c <| last_inbound_at_ := now |>)) as (c1 & -> & Hok1 & _); [done|]. cbn.
    pose proof Hok1 as ((l & Hr) & _).
    destruct (dispatch_refines _ l f Hr) as (b & d & Hd & Hr' & _). rewrite Hd. cbn.
    do 2 eexists. split; [done|]. split; [|done].
    eapply client_ok_dispatcher; [done|done|]. by eapply dispatch_pending.
  - case_bool_decide.
    + destruct (_ && _).
      * destruct (fail_pending_ok heartbeat_timeout c Hok) as (c1 & -> & Hok1 & Hall & Hp & _). cbn.
        do 2 eexists. split; [done|]. split; [by apply notify_ok|]. intros _. by apply notify_resolved.
      * destruct (reap_ok now c Hok) as (c1 & -> & Hok1 & _). cbn. by do 2 eexists.
    + destruct (fail_pending_ok e c Hok) as (c1 & -> & Hok1 & Hall & Hp & _). cbn.
      do 2 eexists. split; [done|]. destruct (closing_ c1); cbn [negb]; [done|].
      split; [by apply notify_ok|]. intros _. by apply notify_resolved.
Qed.

(** ** The I/O loop *)

Section io_loop.
Context `{Hplat : Platform}.

Lemma on_net_eq {A} (m : IO A) c :
  on_net m c = match m (net c) with Some (r, w) => Some (r, c <| net := w |>) | None => None end.
Proof. unfold on_net. by destruct (m (net c)) as [[]|]. Qed.

Lemma io_iteration_ok now c b c' :
  client_ok c -> io_iteration now c = Some (b, c') -> client_ok c'.
Proof.
  intros Hok. unfold io_iteration. destruct (stop_io_ c); [by intros [= _ <-]|].
  rewrite on_net_eq. destruct (read_frame (net c)) as [[r w]|] eqn:E; [|done]. cbn [mbind option_bind].
  apply read_frame_queue in E; [|apply Hok].
  destruct (io_turn_ok r now (c <| net := w |>)) as (b' & c1 & Hc1 & Hok1 & _).
  { destruct Hok as (? & _ & ?). by split. }
  rewrite Hc1. by intros [= _ <-].
Qed.

(** A turn of the loop only blocks in [read_frame]. *)
Lemma io_iteration_blocks now c :
  client_ok c -> io_iteration now c = None -> read_frame (net c) = None.
Proof.
  intros Hok. unfold io_iteration. destruct (stop_io_ c); [done|].
  rewrite on_net_eq. destruct (read_frame (net c)) as [[r w]|] eqn:E; [|done]. cbn [mbind option_bind].
  apply read_frame_queue in E; [|apply Hok].
  destruct (io_turn_ok r now (c <| net := w |>)) as (b' & c1 & Hc1 & _).
  { destruct Hok as (? & _ & ?). by split. }
  by rewrite Hc1.
Qed.

(** The events a turn may add to the callback log. *)
Lemma notify_fired evt c :
  fired (notify_unexpected_close evt c)
  = fired c ++ (if unexpected_fired_ c then []
                else from_option (fun cb => [(cb, evt)]) [] (on_unexpected_close_ c)) /\
  unexpected_fired_ (notify_unexpected_close evt c) = true.
Proof.
  unfold notify_unexpected_close. destruct (unexpected_fired_ c) eqn:E; [by rewrite app_nil_r|].
  change (on_unexpected_close_ (c <| unexpected_fired_ := true |>)) with (on_unexpected_close_ c).
  destruct (on_unexpected_close_ c); cbn; [done|]. by rewrite app_nil_r.
Qed.

(** The reason reported for a failed read. *)
Definition close_event (e : StreamError) : UnexpectedClose :=
  if bool_decide (kind e = Kind.RequestTimeout) then
    MkUnexpectedClose CloseReason.HeartbeatTimeout (lit "no data received for 2×heartbeat") false
  else
    MkUnexpectedClose (if bool_decide (kind e = Kind.ConnectionClosed)
                       then CloseReason.PeerClosedSocket else CloseReason.IoError) (message e) false.

(** The members the notification reads. *)
Definition same_callback (c c' : Client) : Prop :=
  fired c' = fired c /\ unexpected_fired_ c' = unexpected_fired_ c /\
  on_unexpected_close_ c' = on_unexpected_close_ c.

(** A turn of the loop notifies only when it ends the loop: for a missed
    heartbeat, or for a failed read of a client that is not closing. *)
Lemma io_turn_events r now c b c' :
  io_turn r now c = Some (b, c') ->
  exists c1, same_callback c c1 /\
    match r with
    | ok _ => b = false /\ c' = c1
    | err e =>
        if b && (bool_decide (kind e = Kind.RequestTimeout) || negb (closing_ c))
        then c' = notify_unexpected_close (close_event e) c1
        else c' = c1
    end.
Proof.
  unfold io_turn, close_event, fail_pending, reap. destruct r as [f|e].
  - destruct (reap_expired _ _) as [[n d]|]; [|done]. cbn [mbind option_bind].
    destruct (dispatch _ _) as [[b' d']|]; [|done]. intros [= <- <-].
    eexists. split; [|by split]. done.
  - case_bool_decide; cbn [orb].
    + destruct (_ && _).
      * destruct (fail_all_pending _ _) as [d|]; [|done]. cbn [mbind option_bind]. intros [= <- <-].
        by exists (c <| dispatcher_ := d |>).
      * destruct (reap_expired _ _) as [[n d]|]; [|done]. intros [= <- <-].
        eexists. split; [|by cbn]. done.
    + destruct (fail_all_pending _ _) as [d|]; [|done]. cbn [mbind option_bind].
      change (closing_ (c <| dispatcher_ := d |>)) with (closing_ c).
      destruct (closing_ c); cbn [negb andb]; intros [= <- <-]; by exists (c <| dispatcher_ := d |>).
Qed.

(** What a run may add to the calls of the callback. *)
Definition callback_calls (c c' : Client) (ended : bool) (evs : list (nat * UnexpectedClose)) : Prop :=
  fired c' = fired c ++ evs /\ (length evs <= 1)%nat /\
  (unexpected_fired_ c = true -> evs = []) /\
  Forall (fun ev => on_unexpected_close_ c = Some ev.1 /\
            (closing_ c = true -> reason ev.2 = CloseReason.HeartbeatTimeout)) evs /\
  (ended = false -> evs = [] /\ same_callback c c').

Lemma same_callback_calls c c' ended : same_callback c c' -> callback_calls c c' ended [].
Proof. intros H. split; [rewrite app_nil_r; apply H|]. split; [cbn; lia|]. auto. Qed.

Lemma io_turn_calls r now c b c' :
  io_turn r now c = Some (b, c') -> exists evs, callback_calls c c' b evs.
Proof.
  intros (c1 & Hc1 & H)%io_turn_events. destruct r as [f|e].
  { destruct H as [-> ->]. exists []. by apply same_callback_calls. }
  destruct (b && _) eqn:Hb; [|subst; exists []; by apply same_callback_calls].
  apply andb_true_iff in Hb as [-> Hb]. subst c'. destruct Hc1 as (Hf & Hu & Hcb).
  destruct (notify_fired (close_event e) c1) as [Hn _]. rewrite Hf, Hu, Hcb in Hn.
  eexists. split; [exact Hn|]. destruct (unexpected_fired_ c); [by split; cbn; [lia|]|].
  destruct (on_unexpected_close_ c) as [cb|]; cbn [from_option]; [|by split; cbn; [lia|]].
  split; [cbn; lia|]. split; [done|]. split; [|done]. apply Forall_singleton. split; [done|].
  cbn. intros Hc. rewrite Hc, orb_false_r in Hb. unfold close_event. by rewrite Hb.
Qed.
End io_loop.

(** ** Requests keep the invariant *)

Section requests.
Context `{Hplat : Platform}.

(** Taking a correlation id and registering a request under it. *)
Lemma register_ok c deadline :
  client_ok c -> next_app_cid_ c + 1 < 2 ^ 32 ->
  let '(cid, c1) := take_cid c in
  let '(fut, c2) := register cid deadline c1 in
  cid = next_app_cid_ c /\ fut = length (promises (dispatcher_ c)) /\ client_ok c2 /\
  pending_ (dispatcher_ c) !! cid = None /\
  pending_ (dispatcher_ c2) = <[cid := MkEntry fut deadline]> (pending_ (dispatcher_ c)) /\
  promises (dispatcher_ c2) = promises (dispatcher_ c) ++ [Unset] /\
  c2 = c <| next_app_cid_ := cid + 1 |> <| dispatcher_ := dispatcher_ c2 |>.
Proof.
  intros ((l & Hr) & Hq & Hcid & Hlt) Hnw. cbn [take_cid].
  assert (Hnone : pending_ (dispatcher_ c) !! next_app_cid_ c = None).
  { apply eq_None_not_Some. intros H%Hlt. lia. }
  assert (Hw : wrap 32 (next_app_cid_ c + 1) = next_app_cid_ c + 1) by (apply wrap_small; range).
  unfold register. change (dispatcher_ (c <| next_app_cid_ := _ |>)) with (dispatcher_ c).
  destruct (register_refines _ l (next_app_cid_ c) deadline Hr) as [Hf Hr'].
  rewrite <- (represents_length _ _ _ Hr) in Hf.
  destruct (register_pending (next_app_cid_ c) deadline (dispatcher_ c)) as [n d] eqn:E.
  cbn in Hf, Hr'. unfold register_pending in E. rewrite Hnone in E. injection E as <- Hd.
  split; [done|]. split; [done|]. rewrite Hw.
  split; [|split; [done|]; subst d; by split].
  split; [by eexists|]. split; [exact Hq|].
  change (100 <= next_app_cid_ c + 1 < 2 ^ 32 /\
    forall cid, is_Some (pending_ d !! cid) -> cid < next_app_cid_ c + 1).
  split; [lia|]. intros cid. subst d. cbn. rewrite lookup_insert_is_Some.
  intros [<-|[_ H%Hlt]]; lia.
Qed.

Lemma on_net_write_ok data c r c' :
  client_ok c -> on_net (write_all data) c = Some (r, c') ->
  client_ok c' /\ c' = c <| net := net c' |> /\ inbox (net c') = inbox (net c).
Proof.
  intros Hok. rewrite on_net_eq. unfold write_all.
  destruct (write_loop _ _ _) as [[[r' s] out]|]; [|done]. cbn [mbind option_bind]. by intros [= _ <-].
Qed.

Lemma send_part_ok k v body now c r c' :
  client_ok c -> next_app_cid_ c + 1 < 2 ^ 32 -> send_part k v body now c = Some (r, c') ->
  client_ok c' /\ inbox (net c') = inbox (net c) /\ next_app_cid_ c' = next_app_cid_ c + 1 /\
  c' = c <| next_app_cid_ := next_app_cid_ c' |> <| dispatcher_ := dispatcher_ c' |>
         <| last_outbound_at_ := last_outbound_at_ c' |> <| net := net c' |>.
Proof.
  intros Hok Hnw. unfold send_part.
  pose proof (register_ok c (now + ms (request_timeout (cfg_ c))) Hok Hnw) as H.
  destruct (take_cid c) as [cid c1] eqn:Et. cbn [take_cid] in Et. injection Et as Hcid Hc1.
  assert (Hcfg : cfg_ c1 = cfg_ c) by by rewrite <- Hc1.
  rewrite Hcfg. destruct (register cid _ c1) as [fut c2].
  destruct H as (-> & -> & Hok2 & _ & _ & _ & Hc2).
  destruct (check_outbound_frame_size _ _).
  - destruct (on_net _ _) as [[r' c3]|] eqn:E; [|done]. cbn [mbind option_bind].
    apply on_net_write_ok in E as (Hok3 & Hc3 & Hi); [|done].
    intros Heq. assert (c' = c3) as -> by (by destruct r'; injection Heq).
    split; [done|]. split; [rewrite Hi, Hc2; done|]. rewrite Hc3, Hc2. done.
  - intros [= _ <-]. split; [done|]. rewrite Hc2. done.
Qed.
End requests.

(** ** The other threads *)

Section activity.
Context `{Hplat : Platform}.

(** What the other threads may do, one step at a time: a turn of the I/O loop or
    its end, a turn of the heartbeat thread, the sending part of a request or a
    one-way command of another caller; and a read, a request, a heartbeat or a
    one-way command on the socket that [close] has closed. *)
Inductive activity : Client -> Client -> Prop :=
  | act_io now b c c' : io_iteration now c = Some (b, c') -> activity c c'
  | act_io_exit c : activity c (io_exit c)
  | act_heartbeat now c c' : heartbeat_tick now c = Some c' -> activity c c'
  | act_send k v body now c r c' :
      next_app_cid_ c + 1 < 2 ^ 32 -> send_part k v body now c = Some (r, c') -> activity c c'
  | act_oneway reference stream offset now c r c' :
      store_offset reference stream offset now c = Some (r, c') -> activity c c'
  | act_io_closed now c b c' :
      Sock.valid (sock_ c) = false -> io_turn (err recv_closed) now c = Some (b, c') -> activity c c'
  | act_send_closed data deadline now n c :
      next_app_cid_ c + 1 < 2 ^ 32 -> Sock.valid (sock_ c) = false ->
      activity c (cut_after data n
        ((register (next_app_cid_ c) deadline (take_cid c).2).2 <| last_outbound_at_ := now |>))
  | act_oneway_closed data now n c :
      Sock.valid (sock_ c) = false -> activity c (cut_after data n (c <| last_outbound_at_ := now |>)).

(** The members no activity changes. *)
Definition kept (c c' : Client) : Prop :=
  cfg_ c' = cfg_ c /\ sock_ c' = sock_ c /\ fds c' = fds c /\ writer_ c' = writer_ c /\
  stop_io_ c' = stop_io_ c /\ closing_ c' = closing_ c /\
  negotiated_frame_max_ c' = negotiated_frame_max_ c /\
  io_thread_ c' = io_thread_ c /\ heartbeat_thread_ c' = heartbeat_thread_ c /\
  (state_ c' = state_ c \/ state_ c' = ConnectionState.Closed).

Lemma kept_refl c : kept c c.
Proof. unfold kept. auto 12. Qed.

Lemma kept_trans c1 c2 c3 : kept c1 c2 -> kept c2 c3 -> kept c1 c3.
Proof. unfold kept. intros H1 H2. destruct_and!. repeat split; try congruence. naive_solver congruence. Qed.

Lemma notify_kept evt c : kept c (notify_unexpected_close evt c).
Proof.
  unfold notify_unexpected_close. destruct (unexpected_fired_ c); [apply kept_refl|].
  destruct (on_unexpected_close_ _); repeat split; by left.
Qed.

Lemma io_turn_kept r now c b c' : io_turn r now c = Some (b, c') -> kept c c'.
Proof.
  unfold io_turn, fail_pending, reap. destruct r as [f|e].
  - destruct (reap_expired _ _) as [[n d]|]; [|done]. cbn [mbind option_bind].
    destruct (dispatch _ _) as [[b' d']|]; [|done]. intros [= _ <-]. repeat split; by left.
  - case_bool_decide.
    + destruct (_ && _).
      * destruct (fail_all_pending _ _) as [d|]; [|done]. cbn [mbind option_bind]. intros [= _ <-].
        eapply kept_trans; [|apply notify_kept]. repeat split; by left.
      * destruct (reap_expired _ _) as [[n d]|]; [|done]. intros [= _ <-]. repeat split; by left.
    + destruct (fail_all_pending _ _) as [d|]; [|done]. cbn [mbind option_bind].
      destruct (negb (closing_ _)); intros [= _ <-].
      * eapply kept_trans; [|apply notify_kept]. repeat split; by left.
      * repeat split; by left.
Qed.

Lemma on_net_kept {A} (m : IO A) c r c' :
  on_net m c = Some (r, c') -> kept c c'.
Proof.
  rewrite on_net_eq. destruct (m (net c)) as [[r' w]|]; [|done]. intros [= _ <-]. repeat split; by left.
Qed.

Lemma io_iteration_kept now c b c' : io_iteration now c = Some (b, c') -> kept c c'.
Proof.
  unfold io_iteration. destruct (stop_io_ c); [intros [= _ <-]; apply kept_refl|].
  destruct (on_net read_frame c) as [[r c1]|] eqn:E; [|done]. cbn [mbind option_bind].
  intros H%io_turn_kept. apply on_net_kept in E. by eapply kept_trans.
Qed.

Lemma io_exit_kept c : kept c (io_exit c).
Proof. unfold io_exit. destruct (_ && _); [repeat split; by right|apply kept_refl]. Qed.

Lemma heartbeat_tick_ok now c c' :
  client_ok c -> heartbeat_tick now c = Some c' -> client_ok c' /\ kept c c'.
Proof.
  intros Hok. unfold heartbeat_tick.
  destruct (stop_io_ c); [intros [= <-]; split; [done|apply kept_refl]|].
  destruct (_ >=? _); [|intros [= <-]; split; [done|apply kept_refl]].
  destruct (writer_ c); [|intros [= <-]; split; [done|apply kept_refl]].
  destruct (on_net _ c) as [[r c1]|] eqn:E; [|done]. cbn [mbind option_bind]. intros [= <-].
  pose proof (on_net_kept _ _ _ _ E) as Hk. apply on_net_write_ok in E as (Hok1 & _); [|done].
  split; [exact Hok1|]. exact Hk.
Qed.

Lemma store_offset_ok reference stream offset now c r c' :
  client_ok c -> store_offset reference stream offset now c = Some (r, c') -> client_ok c' /\ kept c c'.
Proof.
  intros Hok. unfold store_offset.
  destruct (require_open c); [|intros [= _ <-]; split; [done|apply kept_refl]].
  destruct (check_reference reference); [|intros [= _ <-]; split; [done|apply kept_refl]].
  intros E. pose proof (on_net_kept _ _ _ _ E) as Hk. by apply on_net_write_ok in E as (Hok1 & _).
Qed.

Lemma activity_ok c c' : activity c c' -> client_ok c -> client_ok c' /\ kept c c'.
Proof.
  intros [now b c1 c2 H|c1|now c1 c2 H|k v body now c1 r c2 Hw H|ref str off now c1 r c2 H|now c1 b c2 _ H
    |data d now n c1 Hw _|data now n c1 _] Hok.
  - split; [by eapply io_iteration_ok|by eapply io_iteration_kept].
  - split; [|apply io_exit_kept]. unfold io_exit. by destruct (_ && _).
  - by eapply heartbeat_tick_ok.
  - apply send_part_ok in H as (Hok' & _ & _ & Hc); [|done..]. split; [done|].
    rewrite Hc. repeat split; by left.
  - by eapply store_offset_ok.
  - split; [|by eapply io_turn_kept]. destruct (io_turn_ok (err recv_closed) now c1 Hok) as (b' & c3 & H' & Hok' & _).
    rewrite H in H'. by injection H' as _ ->.
  - pose proof (register_ok c1 d Hok Hw) as H. cbn [take_cid snd] in *.
    destruct (register _ _ _) as [fut c2]. destruct H as (_ & _ & Hok2 & _ & _ & _ & Hc2). split; [exact Hok2|].
    cbn [snd]. rewrite Hc2. repeat split; by left.
  - split; [exact Hok|]. repeat split; by left.
Qed.

(** No activity takes a result back. *)
Lemma io_turn_results r now c b c' :
  client_ok c -> io_turn r now c = Some (b, c') -> results_kept (dispatcher_ c) (dispatcher_ c').
Proof.
  intros Hok. unfold io_turn. destruct r as [f|e].
  - destruct (reap now _) as [c1|] eqn:E; [|done]. cbn [mbind option_bind].
    destruct (reap_ok now (c <| last_inbound_at_ := now |>)) as (c1' & E' & ((l & Hr) & _) & _); [done|].
    rewrite E in E'. injection E' as <-. apply results_kept_reap in E; [|exact Hok].
    destruct (dispatch f _) as [[b' d]|] eqn:Ed; [|done]. cbn [mbind option_bind]. intros [= _ <-].
    etransitivity; [exact E|]. apply (step_results_kept (Dispatch f) _ l (OutBool b')); [done|].
    cbn [step]. by rewrite Ed.
  - case_bool_decide; [destruct (_ && _)|].
    + destruct (fail_pending _ c) as [c1|] eqn:E; [|done]. cbn [mbind option_bind]. intros [= _ <-].
      rewrite (proj1 (notify_frame _ _)). by eapply results_kept_fail.
    + destruct (reap now c) as [c1|] eqn:E; [|done]. intros [= _ <-]. by eapply results_kept_reap.
    + destruct (fail_pending e c) as [c1|] eqn:E; [|done]. cbn [mbind option_bind]. intros [= _ <-].
      assert (Hk : results_kept (dispatcher_ c) (dispatcher_ c1)) by (by eapply results_kept_fail).
      destruct (negb _); [by rewrite (proj1 (notify_frame _ _))|done].
Qed.

Lemma on_net_dispatcher {A} (m : IO A) c r c' : on_net m c = Some (r, c') -> dispatcher_ c' = dispatcher_ c.
Proof. rewrite on_net_eq. destruct (m (net c)) as [[r' w]|]; [|done]. by intros [= _ <-]. Qed.

Lemma io_iteration_results now c b c' :
  client_ok c -> io_iteration now c = Some (b, c') -> results_kept (dispatcher_ c) (dispatcher_ c').
Proof.
  intros Hok. unfold io_iteration. destruct (stop_io_ c); [by intros [= _ <-]|].
  rewrite on_net_eq. destruct (read_frame (net c)) as [[r w]|] eqn:E; [|done]. cbn [mbind option_bind].
  apply read_frame_queue in E; [|apply Hok]. intros H%io_turn_results; [exact H|].
  destruct Hok as (? & _ & ?). by split.
Qed.

Lemma send_part_results k v body now c r c' :
  client_ok c -> send_part k v body now c = Some (r, c') -> results_kept (dispatcher_ c) (dispatcher_ c').
Proof.
  intros Hok. unfold send_part. cbn [take_cid]. set (c1 := c <| next_app_cid_ := _ |>).
  assert (Hk : forall d, results_kept (dispatcher_ c) (dispatcher_ (register (next_app_cid_ c) d c1).2)).
  { intros d. assert (Hr : dispatcher_ (register (next_app_cid_ c) d c1).2 = dispatcher_ (register (next_app_cid_ c) d c).2).
    { unfold register. change (dispatcher_ c1) with (dispatcher_ c). by destruct (register_pending _ _ _). }
    rewrite Hr. by apply results_kept_register. }
  specialize (Hk (now + ms (request_timeout (cfg_ c1)))).
  destruct (register _ _ c1) as [fut c2]. cbn [snd] in Hk.
  destruct (check_outbound_frame_size _ _); [|by intros [= _ <-]].
  destruct (on_net _ _) as [[r' c3]|] eqn:E; [|done]. cbn [mbind option_bind]. apply on_net_dispatcher in E.
  intros Heq. assert (c' = c3) as -> by (by destruct r'; injection Heq). by rewrite E.
Qed.

Lemma activity_results c c' : activity c c' -> client_ok c -> results_kept (dispatcher_ c) (dispatcher_ c').
Proof.
  intros [now b c1 c2 H|c1|now c1 c2 H|k v body now c1 r c2 Hw H|ref str off now c1 r c2 H|now c1 b c2 _ H
    |data d now n c1 Hw _|data now n c1 _] Hok.
  - by eapply io_iteration_results.
  - unfold io_exit. by destruct (_ && _).
  - revert H. unfold heartbeat_tick. destruct (stop_io_ c1); [by intros [= <-]|].
    destruct (_ >=? _); [|by intros [= <-]]. destruct (writer_ c1); [|by intros [= <-]].
    destruct (on_net _ c1) as [[r c3]|] eqn:E; [|done]. intros [= <-]. apply on_net_dispatcher in E.
    change (results_kept (dispatcher_ c1) (dispatcher_ c3)). by rewrite E.
  - by eapply send_part_results.
  - revert H. unfold store_offset. destruct (require_open c1); [|by intros [= _ <-]].
    destruct (check_reference _); [|by intros [= _ <-]]. intros E%on_net_dispatcher. by rewrite E.
  - by eapply io_turn_results.
  - assert (Hr : dispatcher_ (register (next_app_cid_ c1) d (take_cid c1).2).2
        = dispatcher_ (register (next_app_cid_ c1) d c1).2).
    { unfold register, take_cid. cbn [snd]. change (dispatcher_ (c1 <| next_app_cid_ := _ |>)) with (dispatcher_ c1).
      by destruct (register_pending _ _ _). }
    change (results_kept (dispatcher_ c1) (dispatcher_ (register (next_app_cid_ c1) d (take_cid c1).2).2)).
    rewrite Hr. by apply results_kept_register.
  - done.
Qed.

Lemma activities_results c c' : rtc activity c c' -> client_ok c -> results_kept (dispatcher_ c) (dispatcher_ c').
Proof.
  induction 1 as [|c1 c2 c3 H _ IH]; intros Hok; [done|].
  etransitivity; [by apply activity_results|]. apply IH. by apply activity_ok in H as [? _].
Qed.

Lemma activities_ok c c' : rtc activity c c' -> client_ok c -> client_ok c' /\ kept c c'.
Proof.
  induction 1 as [|c1 c2 c3 H _ IH]; intros Hok; [split; [done|apply kept_refl]|].
  apply activity_ok in H as [Hok2 Hk]; [|done]. destruct (IH Hok2) as [Hok3 Hk'].
  split; [done|by eapply kept_trans].
Qed.
End activity.
