(* ===== verification/ClientThreads.v ===== *)
(** * The threads of the client

    Callers, the I/O thread, the heartbeat thread and a thread in [close] share one
    client.  Here they interleave at the grain of the mutexes of [StreamClient]:
    each step below is what a thread does between two points where another thread
    may run.  The operations of [Dispatcher] and of [SocketWriter] count as one
    step, which [Concurrency] justifies. *)

From coqutil Require Import Datatypes.RecordSetters.
From S2P Require Import Prelude Errors Buffer Codec Frame Command HandshakeCommands.
From S2P Require Import LifecycleCommands Config Dispatcher Socket Concurrency Handshake Client.
From S2P Require Import ClientInvariant.
Import TriangleBracketNotations.

Local Open Scope Z_scope.

(** ** The threads *)

(** The arguments of [send_and_wait]. *)
Record Call := MkCall { c_key : Z; c_version : Z; c_body : bytes }.

(** A caller in a lifecycle command: about to check that the connection is open;
    open; with a correlation id; registered; with the time of the send recorded;
    waiting for its future until a time; back from the call.  Then the same for
    [store_offset], which neither registers nor waits. *)
Inductive Caller :=
  | Calling (call : Call)
  | Accepted (call : Call)
  | Numbered (call : Call) (cid : Z)
  | Enrolled (call : Call) (cid : Z) (fut : nat)
  | Stamped (call : Call) (cid : Z) (fut : nat)
  | Waits (cid : Z) (fut : nat) (until : Z)
  | Answered (cid : option Z) (r : Result IncomingFrame)
  | Storing (reference stream : std_string) (offset : Z)
  | StoreAccepted (reference stream : std_string) (offset : Z)
  | StoreStamped (frame : bytes)
  | Stored (r : Result unit).

(** The I/O thread: at the head of its loop; in [read_frame]; with its result; with
    a frame whose arrival has been recorded; after [reap_expired]; after a failed
    read has been reported to the dispatcher; about to notify; out of the loop;
    finished. *)
Inductive IoThread :=
  | IoTop
  | IoReading
  | IoRead (r : Result IncomingFrame)
  | IoFrame (f : IncomingFrame)
  | IoReaped (f : IncomingFrame)
  | IoFailed (e : StreamError)
  | IoNotify (evt : UnexpectedClose)
  | IoLeaving
  | IoDone.

(** The heartbeat thread: asleep; about to send; about to record the send. *)
Inductive HbThread := HbTop | HbDue (now : Z) | HbSent (now : Z) | HbDone.

(** A thread in [close]. *)
Inductive Closer :=
  | ClIdle
  | ClBegun
  | ClNumbered (cid : Z)
  | ClEnrolled (cid : Z) (fut : nat)
  | ClWritten (fut : nat) (until : Z)
  | ClStopped
  | ClSocketClosed
  | ClJoinedIo
  | ClJoinedBoth
  | ClFailedAll
  | ClReturned.

Record System := MkSystem {
  client : Client;
  callers : list Caller;
  io : IoThread;
  hb : HbThread;
  closer : Closer
}.

Section steps.
Context `{Hplat : Platform}.

Definition frame_of (call : Call) (cid : Z) : bytes :=
  encode_request_frame (c_key call) (c_version call) cid (c_body call).

(** The end of a wait for [request_timeout] that begins now. *)
Definition wait_end (c : Client) : Z := clock c + ms (request_timeout (cfg_ c)).

(** [wait_for] returns when the promise is satisfied or the time is up. *)
Definition wait_over (fut : nat) (until : Z) (c : Client) : Prop :=
  promises (dispatcher_ c) !! fut = Some Unset -> until <= clock c.

(** [require_open], then [send_and_wait]; [require_open], then [store_offset].  A
    caller takes an id only while the 32-bit counter has not wrapped around. *)
Inductive caller_step : Client -> Caller -> Client -> Caller -> Prop :=
  | s_refused c call e :
      require_open c = err e -> caller_step c (Calling call) c (Answered None (err e))
  | s_open c call :
      require_open c = ok tt -> caller_step c (Calling call) c (Accepted call)
  | s_cid c call cid c' :
      next_app_cid_ c + 1 < 2 ^ 32 -> take_cid c = (cid, c') ->
      caller_step c (Accepted call) c' (Numbered call cid)
  | s_register c call cid fut c' :
      register cid (wait_end c) c = (fut, c') ->
      caller_step c (Numbered call cid) c' (Enrolled call cid fut)
  | s_too_large c call cid fut e :
      check_outbound_frame_size (wrap 64 (zlen (frame_of call cid) - 4)) (negotiated_frame_max_ c) = err e ->
      caller_step c (Enrolled call cid fut) c (Answered (Some cid) (err e))
  | s_stamp c call cid fut :
      check_outbound_frame_size (wrap 64 (zlen (frame_of call cid) - 4)) (negotiated_frame_max_ c) = ok tt ->
      caller_step c (Enrolled call cid fut) (c <| last_outbound_at_ := clock c |>) (Stamped call cid fut)
  | s_write c call cid fut c' :
      on_net (write_all (frame_of call cid)) c = Some (ok tt, c') ->
      caller_step c (Stamped call cid fut) c' (Waits cid fut (wait_end c))
  | s_write_fails c call cid fut e c' :
      on_net (write_all (frame_of call cid)) c = Some (err e, c') ->
      caller_step c (Stamped call cid fut) c' (Answered (Some cid) (err e))
  | s_write_closed c call cid fut n :
      Sock.valid (sock_ c) = false -> (n < length (frame_of call cid))%nat ->
      caller_step c (Stamped call cid fut) (cut_after (frame_of call cid) n c) (Answered (Some cid) (err send_closed))
  | s_wait c cid fut until r :
      wait_over fut until c -> wait_part fut c = Some r ->
      caller_step c (Waits cid fut until) c (Answered (Some cid) r)
  | o_refused c ref str off e :
      require_open c = err e -> caller_step c (Storing ref str off) c (Stored (err e))
  | o_too_long c ref str off e :
      require_open c = ok tt -> check_reference ref = err e ->
      caller_step c (Storing ref str off) c (Stored (err e))
  | o_open c ref str off :
      require_open c = ok tt -> check_reference ref = ok tt ->
      caller_step c (Storing ref str off) c (StoreAccepted ref str off)
  | o_stamp c ref str off :
      caller_step c (StoreAccepted ref str off) (c <| last_outbound_at_ := clock c |>)
        (StoreStamped (oneway_frame (StoreOffset.Mk ref str off)))
  | o_write c frame r c' :
      on_net (write_all frame) c = Some (r, c') -> caller_step c (StoreStamped frame) c' (Stored r)
  | o_write_closed c frame n :
      Sock.valid (sock_ c) = false -> (n < length frame)%nat ->
      caller_step c (StoreStamped frame) (cut_after frame n c) (Stored (err send_closed)).

(** [io_loop]. *)
Inductive io_step : Client -> IoThread -> Client -> IoThread -> Prop :=
  | i_stop c : stop_io_ c = true -> io_step c IoTop c IoLeaving
  | i_check c : stop_io_ c = false -> io_step c IoTop c IoReading
  | i_read c r c' : on_net read_frame c = Some (r, c') -> io_step c IoReading c' (IoRead r)
  | i_read_closed c :
      Sock.valid (sock_ c) = false -> io_step c IoReading c (IoRead (err recv_closed))
  | i_inbound c f :
      io_step c (IoRead (ok f)) (c <| last_inbound_at_ := clock c |>) (IoFrame f)
  | i_reap c f c' : reap (clock c) c = Some c' -> io_step c (IoFrame f) c' (IoReaped f)
  | i_dispatch c f b d :
      dispatch f (dispatcher_ c) = Some (b, d) -> io_step c (IoReaped f) (c <| dispatcher_ := d |>) IoTop
  | i_idle c e c' :
      kind e = Kind.RequestTimeout ->
      (negotiated_heartbeat_ c >? 0) && (clock c - last_inbound_at_ c >? dead_interval c) = false ->
      reap (clock c) c = Some c' -> io_step c (IoRead (err e)) c' IoTop
  | i_dead c e c' :
      kind e = Kind.RequestTimeout ->
      (negotiated_heartbeat_ c >? 0) && (clock c - last_inbound_at_ c >? dead_interval c) = true ->
      fail_pending heartbeat_timeout c = Some c' ->
      io_step c (IoRead (err e)) c' (IoNotify (close_event e))
  | i_failed c e c' :
      kind e <> Kind.RequestTimeout -> fail_pending e c = Some c' ->
      io_step c (IoRead (err e)) c' (IoFailed e)
  | i_closing c e : closing_ c = true -> io_step c (IoFailed e) c IoLeaving
  | i_unexpected c e : closing_ c = false -> io_step c (IoFailed e) c (IoNotify (close_event e))
  | i_notify c evt : io_step c (IoNotify evt) (notify_unexpected_close evt c) IoLeaving
  | i_exit c : io_step c IoLeaving (io_exit c) IoDone.

(** The loop of the heartbeat thread. *)
Inductive hb_step : Client -> HbThread -> Client -> HbThread -> Prop :=
  | h_stop c : stop_io_ c = true -> hb_step c HbTop c HbDone
  | h_early c : stop_io_ c = false -> hb_step c HbTop c HbTop
  | h_due c :
      stop_io_ c = false -> clock c - last_outbound_at_ c >= seconds (negotiated_heartbeat_ c) ->
      writer_ c = true -> hb_step c HbTop c (HbDue (clock c))
  | h_send c now r c' :
      on_net (write_all (oneway_frame Heartbeat.Mk)) c = Some (r, c') -> hb_step c (HbDue now) c' (HbSent now)
  | h_send_closed c now n :
      Sock.valid (sock_ c) = false -> (n < length (oneway_frame Heartbeat.Mk))%nat ->
      hb_step c (HbDue now) (cut_after (oneway_frame Heartbeat.Mk) n c) (HbSent now)
  | h_stamp c now : hb_step c (HbSent now) (c <| last_outbound_at_ := now |>) HbTop.

(** [close]; the joins wait for the threads. *)
Inductive close_step (i : IoThread) (h : HbThread) : Client -> Closer -> Client -> Closer -> Prop :=
  | k_begin c :
      state_ c = ConnectionState.Open ->
      close_step i h c ClIdle (c <| state_ := ConnectionState.Closing |> <| closing_ := true |>) ClBegun
  | k_cid c cid c' :
      next_app_cid_ c + 1 < 2 ^ 32 -> take_cid c = (cid, c') -> close_step i h c ClBegun c' (ClNumbered cid)
  | k_register c cid fut c' :
      register cid (wait_end c) c = (fut, c') ->
      close_step i h c (ClNumbered cid) c' (ClEnrolled cid fut)
  | k_write c cid fut r c' :
      (if writer_ c then on_net (write_all (request close_request cid)) c else Some (ok tt, c)) = Some (r, c') ->
      close_step i h c (ClEnrolled cid fut) c' (ClWritten fut (wait_end c))
  | k_stop c fut until :
      wait_over fut until c ->
      close_step i h c (ClWritten fut until) (c <| stop_io_ := true |>) ClStopped
  | k_socket c s os :
      Sock.close (sock_ c) (fds c) = (s, os) ->
      close_step i h c ClStopped (c <| sock_ := s |> <| fds := os |>) ClSocketClosed
  | k_join_io c :
      i = IoDone -> close_step i h c ClSocketClosed (c <| io_thread_ := false |>) ClJoinedIo
  | k_join_hb c :
      h = HbDone -> close_step i h c ClJoinedIo (c <| heartbeat_thread_ := false |>) ClJoinedBoth
  | k_fail c c' :
      fail_pending connection_closed c = Some c' -> close_step i h c ClJoinedBoth c' ClFailedAll
  | k_closed c :
      close_step i h c ClFailedAll
        (log_info (lit "connection closed") (c <| state_ := ConnectionState.Closed |>)) ClReturned.

(** What arrives from the network, and how much it accepts, is not known in
    advance; and time passes. *)
Inductive net_step : Client -> Client -> Prop :=
  | n_in c q :
      queue_ok q ->
      net_step c (c <| net := MkWorld (inbox (net c) ++ q) (sends (net c)) (outbox (net c)) (logs (net c)) |>)
  | n_out c evs :
      net_step c (c <| net := MkWorld (inbox (net c)) (sends (net c) ++ evs) (outbox (net c)) (logs (net c)) |>)
  | n_tick c t : clock c <= t -> net_step c (c <| clock := t |>).

Inductive sys_step : System -> System -> Prop :=
  | sys_caller s n t c' t' :
      callers s !! n = Some t -> caller_step (client s) t c' t' ->
      sys_step s (MkSystem c' (<[n := t']> (callers s)) (io s) (hb s) (closer s))
  | sys_io s c' i' :
      io_step (client s) (io s) c' i' -> sys_step s (MkSystem c' (callers s) i' (hb s) (closer s))
  | sys_hb s c' h' :
      hb_step (client s) (hb s) c' h' -> sys_step s (MkSystem c' (callers s) (io s) h' (closer s))
  | sys_close s c' k' :
      close_step (io s) (hb s) (client s) (closer s) c' k' ->
      sys_step s (MkSystem c' (callers s) (io s) (hb s) k')
  | sys_net s c' :
      net_step (client s) c' -> sys_step s (MkSystem c' (callers s) (io s) (hb s) (closer s)).
End steps.

(** A client that has just been opened, with some calls about to be made. *)
Definition opened (c : Client) : Prop :=
  client_ok c /\ state_ c = ConnectionState.Open /\ stop_io_ c = false /\ closing_ c = false.

Definition at_start (t : Caller) : Prop :=
  match t with Calling _ | Storing _ _ _ => True | _ => False end.

Definition started (c : Client) (calls : list Caller) : System :=
  MkSystem c calls IoTop (if heartbeat_thread_ c then HbTop else HbDone) ClIdle.

(** ** Who holds which correlation id *)

Definition cid_of (t : Caller) : list Z :=
  match t with
  | Numbered _ cid | Enrolled _ cid _ | Stamped _ cid _ | Waits cid _ _ | Answered (Some cid) _ => [cid]
  | _ => []
  end.

(** The ids that are not registered yet. *)
Definition unregistered_of (t : Caller) : list Z :=
  match t with Numbered _ cid => [cid] | _ => [] end.

Definition closer_cid (k : Closer) : list Z :=
  match k with ClNumbered cid | ClEnrolled cid _ => [cid] | _ => [] end.
Definition closer_unregistered (k : Closer) : list Z :=
  match k with ClNumbered cid => [cid] | _ => [] end.

Definition cids (s : System) : list Z := concat (cid_of <$> callers s) ++ closer_cid (closer s).
Definition unregistered (s : System) : list Z :=
  concat (unregistered_of <$> callers s) ++ closer_unregistered (closer s).

(** The request of a future: still waiting under its id, or done, by an error or by a
    response to that very id. *)
Definition owed (l : list Request) (cid : Z) (fut : nat) : Prop :=
  (exists d, l !! fut = Some (Waiting cid d)) \/
  exists r, l !! fut = Some (Done r) /\ forall f, r = ok f -> response_to f = Some cid.

Definition caller_ok (l : list Request) (t : Caller) : Prop :=
  match t with
  | Enrolled _ cid fut | Stamped _ cid fut | Waits cid fut _ => owed l cid fut
  | Answered (Some cid) (ok f) => response_to f = Some cid
  | Answered None (ok _) => False
  | _ => True
  end.

Record sys_inv (s : System) (l : list Request) : Prop := {
  inv_client : client_ok (client s);
  inv_table : refines (dispatcher_ (client s)) l;
  inv_cids : NoDup (cids s);
  inv_bound : Forall (fun cid => cid < next_app_cid_ (client s)) (cids s);
  inv_unregistered : Forall (fun cid => pending_ (dispatcher_ (client s)) !! cid = None) (unregistered s);
  inv_callers : Forall (caller_ok l) (callers s)
}.

Lemma started_inv c calls : opened c -> Forall at_start calls -> exists l, sys_inv (started c calls) l.
Proof.
  intros (Hok & _) Hc. pose proof Hok as ((l & Hl) & _). exists l.
  assert (Hnil : cids (started c calls) = [] /\ unregistered (started c calls) = []).
  { unfold cids, unregistered. cbn. rewrite !app_nil_r. induction Hc as [|[] ts Ht _ IH]; cbn; done. }
  destruct Hnil as [Hn1 Hn2]. split; [done|done|..].
  - rewrite Hn1. constructor.
  - rewrite Hn1. constructor.
  - rewrite Hn2. constructor.
  - eapply Forall_impl; [exact Hc|]. by intros [].
Qed.

(** ** Steps that register nothing *)

Definition quiet (op : Op) : bool := match op with RegisterPending _ _ => false | _ => true end.

Lemma owed_step op l cid fut : quiet op = true -> owed l cid fut -> owed (spec_step op l) cid fut.
Proof.
  intros Hq [[d Hd]|(r & Hd & Hr)]; [|right; exists r; split; [by apply spec_step_done|done]].
  destruct op as [| |f|e|now|h|h]; try done; cbn [spec_step]; try (left; by exists d).
  - destruct (response_to f) as [cid'|] eqn:Hf; [|left; by exists d].
    unfold spec_respond, owed. rewrite list_lookup_fmap, Hd. cbn.
    destruct (Z.eqb_spec cid cid') as [->|]; [|left; by exists d].
    right. eexists. split; [done|]. by intros f' [= ->].
  - right. exists (err e). unfold spec_fail. rewrite list_lookup_fmap, Hd. by split.
  - unfold owed, spec_reap. rewrite list_lookup_fmap, Hd. cbn. destruct (now >=? d); [|left; by exists d].
    right. eexists. by split.
Qed.

Lemma quiet_pending op st out st' :
  quiet op = true -> step op st = Some (out, st') -> pending_ st' ⊆ pending_ st.
Proof.
  intros Hq. destruct op as [| |f|e|now|h|h]; try done; cbn [step].
  - by intros [= _ <-].
  - destruct (dispatch f st) as [[b d]|] eqn:E; [|done]. intros [= _ <-]. by eapply dispatch_pending.
  - destruct (fail_all_pending e st) as [d|] eqn:E; [|done]. intros [= _ <-].
    rewrite (fail_all_pending_map _ _ _ E). apply map_empty_subseteq.
  - destruct (reap_expired now st) as [[n d]|] eqn:E; [|done]. intros [= _ <-].
    rewrite (reap_pending _ _ _ _ E). apply map_filter_subseteq.
  - by intros [= _ <-].
  - by intros [= _ <-].
Qed.

(** A step that draws no id and registers nothing. *)
Definition quiet_step (c c' : Client) : Prop :=
  next_app_cid_ c' = next_app_cid_ c /\ queue_ok (inbox (net c')) /\
  (dispatcher_ c' = dispatcher_ c \/
   exists op out, quiet op = true /\ step op (dispatcher_ c) = Some (out, dispatcher_ c')).

Lemma quiet_step_spec c c' l :
  client_ok c -> refines (dispatcher_ c) l -> quiet_step c c' ->
  exists l', client_ok c' /\ refines (dispatcher_ c') l' /\
    (forall cid fut, owed l cid fut -> owed l' cid fut) /\
    pending_ (dispatcher_ c') ⊆ pending_ (dispatcher_ c).
Proof.
  intros (_ & _ & Hcid & Hlt) Hl (Hn & Hq & Hd).
  assert (Hend : forall l', refines (dispatcher_ c') l' -> pending_ (dispatcher_ c') ⊆ pending_ (dispatcher_ c) ->
    client_ok c').
  { intros l' Hl' Hs. split; [by exists l'|]. split; [done|]. rewrite Hn. split; [done|].
    intros cid [e He]. apply Hlt. exists e. by eapply lookup_weaken. }
  destruct Hd as [Hd|(op & out & Hop & Hs)].
  - rewrite Hd in *. exists l. split; [by apply (Hend l)|]. done.
  - destruct (step_refines _ l op Hl) as (out' & d & Hs' & Hr & _). rewrite Hs in Hs'. injection Hs' as _ <-.
    pose proof (quiet_pending _ _ _ _ Hop Hs) as Hp. exists (spec_step op l).
    split; [by apply (Hend (spec_step op l))|]. split; [done|]. split; [|done].
    intros cid fut. by apply owed_step.
Qed.

Section quiet.
Context `{Hplat : Platform}.

Lemma quiet_same c c' :
  queue_ok (inbox (net c')) -> next_app_cid_ c' = next_app_cid_ c -> dispatcher_ c' = dispatcher_ c ->
  quiet_step c c'.
Proof. intros Hq Hn Hd. split; [done|]. split; [done|]. by left. Qed.

Lemma quiet_refl c : queue_ok (inbox (net c)) -> quiet_step c c.
Proof. intros. by apply quiet_same. Qed.

Lemma quiet_fail e c c' : queue_ok (inbox (net c)) -> fail_pending e c = Some c' -> quiet_step c c'.
Proof.
  intros Hq. unfold fail_pending. destruct (fail_all_pending e _) as [d|] eqn:E; [|done]. intros [= <-].
  split; [done|]. split; [done|]. right. exists (FailAllPending e), OutUnit. split; [done|].
  cbn [step]. by rewrite E.
Qed.

Lemma quiet_reap now c c' : queue_ok (inbox (net c)) -> reap now c = Some c' -> quiet_step c c'.
Proof.
  intros Hq. unfold reap. destruct (reap_expired now _) as [[n d]|] eqn:E; [|done]. intros [= <-].
  split; [done|]. split; [done|]. right. exists (ReapExpired now), (OutCount n). split; [done|].
  cbn [step]. by rewrite E.
Qed.

Lemma quiet_write data c r c' :
  queue_ok (inbox (net c)) -> on_net (write_all data) c = Some (r, c') -> quiet_step c c'.
Proof.
  intros Hq. rewrite on_net_eq. unfold write_all.
  destruct (write_loop _ _ _) as [[[r' s] out]|]; [|done]. intros [= _ <-]. by apply quiet_same.
Qed.

Lemma quiet_read c r c' :
  queue_ok (inbox (net c)) -> on_net read_frame c = Some (r, c') -> quiet_step c c'.
Proof.
  intros Hq. rewrite on_net_eq. destruct (read_frame (net c)) as [[r' w]|] eqn:E; [|done].
  intros [= _ <-]. apply quiet_same; [|done..]. by eapply read_frame_queue.
Qed.

Lemma io_step_quiet c i c' i' : queue_ok (inbox (net c)) -> io_step c i c' i' -> quiet_step c c'.
Proof.
  intros Hq. destruct 1 as [c|c|c r c' H|c|c f|c f c' H|c f b d H|c e c' _ _ H|c e c' _ _ H
    |c e c' _ H|c e|c e|c evt|c]; eauto using quiet_refl, quiet_read, quiet_reap, quiet_fail.
  - by apply quiet_same.
  - split; [done|]. split; [done|]. right. exists (Dispatch f), (OutBool b). split; [done|].
    cbn [step]. by rewrite H.
  - destruct (notify_frame evt c) as (Hd & Hn & Hc). apply quiet_same; by rewrite ?Hd, ?Hn, ?Hc.
  - apply quiet_same; unfold io_exit; by destruct (_ && _).
Qed.

Lemma hb_step_quiet c h c' h' : queue_ok (inbox (net c)) -> hb_step c h c' h' -> quiet_step c c'.
Proof. intros Hq. destruct 1; eauto using quiet_refl, quiet_write; by apply quiet_same. Qed.

Lemma net_step_quiet c c' : queue_ok (inbox (net c)) -> net_step c c' -> quiet_step c c'.
Proof. intros Hq. destruct 1; apply quiet_same; try done. by apply Forall_app. Qed.

Lemma close_step_quiet i h c k c' k' :
  queue_ok (inbox (net c)) -> close_step i h c k c' k' ->
  match k with
  | ClBegun | ClNumbered _ => True
  | _ => quiet_step c c' /\ (closer_cid k' = closer_cid k \/ closer_cid k' = []) /\ closer_unregistered k' = []
  end.
Proof.
  intros Hq. destruct 1 as [c| | |c cid fut r c' H|c fut until|c s os H|c|c|c c' H|c]; try done;
    (split; [|by auto]); try (by apply quiet_same).
  - destruct (writer_ c); [by eapply quiet_write|]. injection H as _ <-. by apply quiet_refl.
  - by eapply quiet_fail.
Qed.

(** A caller learns the result of its own request. *)
Lemma wait_part_owed c l cid fut r :
  refines (dispatcher_ c) l -> owed l cid fut -> wait_part fut c = Some r ->
  forall f, r = ok f -> response_to f = Some cid.
Proof.
  intros [Hf _] Ho Hw. unfold wait_part in Hw. destruct Ho as [[d Hl]|(r' & Hl & Hr)].
  - destruct (Forall2_lookup_r _ _ _ _ _ Hf Hl) as (p & Hp & Ha). cbn in Ha. subst p. rewrite Hp in Hw.
    by injection Hw as <-.
  - destruct (Forall2_lookup_r _ _ _ _ _ Hf Hl) as (p & Hp & Ha). cbn in Ha. subst p. rewrite Hp in Hw.
    by injection Hw as <-.
Qed.

Lemma caller_step_quiet c t c' t' l :
  queue_ok (inbox (net c)) -> refines (dispatcher_ c) l -> caller_step c t c' t' ->
  match t with
  | Accepted _ | Numbered _ _ => True
  | _ => quiet_step c c' /\ cid_of t' = cid_of t /\ unregistered_of t' = [] /\
         (caller_ok l t -> forall l', (forall cid fut, owed l cid fut -> owed l' cid fut) -> caller_ok l' t')
  end.
Proof.
  intros Hq Hl. destruct 1 as [| | | | | | |c call cid fut e c' H| |c cid fut until r _ H| | | | |c frame r c' H|]; try done;
    (split; [eauto using quiet_refl, quiet_write|]); try (by apply quiet_same); (split; [done|]);
    (split; [done|]); cbn [caller_ok]; try (by auto).
  intros Ho l' _. destruct r as [f|]; [|done]. by eapply wait_part_owed.
Qed.

(** ** Steps that draw an id or register a request *)

Lemma register_unused c l cid deadline :
  client_ok c -> refines (dispatcher_ c) l -> cid < next_app_cid_ c ->
  pending_ (dispatcher_ c) !! cid = None ->
  let '(fut, c') := register cid deadline c in
  fut = length l /\ refines (dispatcher_ c') (l ++ [Waiting cid deadline]) /\ client_ok c' /\
  next_app_cid_ c' = next_app_cid_ c /\
  (forall cid', cid' <> cid -> pending_ (dispatcher_ c') !! cid' = pending_ (dispatcher_ c) !! cid').
Proof.
  intros (_ & Hq & Hcid & Hlt) Hl Hc Hnone. unfold register.
  destruct (register_refines _ l cid deadline Hl) as [Hf Hr].
  assert (Hspec : spec_register cid deadline l = l ++ [Waiting cid deadline]).
  { unfold spec_register. by rewrite (existsb_waits_none _ _ _ _ Hl Hnone). }
  rewrite Hspec in Hr. unfold register_pending in Hf, Hr. rewrite Hnone in Hr.
  unfold register_pending. rewrite Hnone. cbn in Hf, Hr. split; [done|]. split; [exact Hr|].
  split; [|split; [done|]; intros cid' Hne; cbn; by apply lookup_insert_ne].
  split; [by eexists|]. split; [done|]. split; [done|].
  intros cid' H. cbn [dispatcher_ pending_ with_pending] in H.
  change (is_Some (<[cid := MkEntry (length (promises (dispatcher_ c))) deadline]> (pending_ (dispatcher_ c)) !! cid')) in H.
  apply lookup_insert_is_Some' in H as [<-|H]; [done|by apply Hlt].
Qed.

Lemma take_cid_ok c cid c' :
  client_ok c -> next_app_cid_ c + 1 < 2 ^ 32 -> take_cid c = (cid, c') ->
  cid = next_app_cid_ c /\ client_ok c' /\ dispatcher_ c' = dispatcher_ c /\
  next_app_cid_ c' = next_app_cid_ c + 1.
Proof.
  intros (Hl & Hq & Hcid & Hlt) Hnw [= <- <-].
  assert (Hw : wrap 32 (next_app_cid_ c + 1) = next_app_cid_ c + 1) by (apply wrap_small; range).
  rewrite Hw. split; [done|]. split; [|done].
  split; [done|]. split; [done|].
  change (100 <= next_app_cid_ c + 1 < 2 ^ 32 /\
    forall cid, is_Some (pending_ (dispatcher_ c) !! cid) -> cid < next_app_cid_ c + 1).
  split; [lia|]. intros cid H%Hlt. lia.
Qed.
End quiet.

(** ** The invariant of the system *)

Lemma share_insert {A B} (f : A -> list B) (ts : list A) n t tail :
  ts !! n = Some t ->
  exists rest, concat (f <$> ts) ++ tail ≡ₚ f t ++ rest /\
    forall t', concat (f <$> <[n := t']> ts) ++ tail ≡ₚ f t' ++ rest.
Proof.
  intros Hn. destruct (concat_insert f ts n t Hn) as (rest & H1 & H2).
  exists (rest ++ tail). split; [by rewrite H1, app_assoc|]. intros t'. by rewrite H2, app_assoc.
Qed.

Definition owed_more (l l' : list Request) : Prop := forall cid fut, owed l cid fut -> owed l' cid fut.

Lemma caller_ok_mono l l' t : owed_more l l' -> caller_ok l t -> caller_ok l' t.
Proof. intros Hm. destruct t as [| | | | | |[cid|] []| | | |]; cbn; auto. Qed.

Lemma callers_ok_mono l l' ts : owed_more l l' -> Forall (caller_ok l) ts -> Forall (caller_ok l') ts.
Proof. intros Hm H. eapply Forall_impl; [exact H|]. intros t. by apply caller_ok_mono. Qed.

Lemma nodup_submseteq {A} (l k : list A) : l ⊆+ k -> NoDup k -> NoDup l.
Proof. intros (x & ->)%submseteq_Permutation. by intros (H & _)%NoDup_app. Qed.

Lemma forall_submseteq {A} (P : A -> Prop) l k : l ⊆+ k -> Forall P k -> Forall P l.
Proof. intros (x & ->)%submseteq_Permutation. by intros (H & _)%Forall_app. Qed.

Lemma unregistered_cids s : unregistered s ⊆+ cids s.
Proof.
  unfold unregistered, cids. apply submseteq_app; [|destruct (closer s); first [done|apply submseteq_nil_l]].
  induction (callers s) as [|t ts IH]; cbn; [done|]. apply submseteq_app; [destruct t; first [done|apply submseteq_nil_l]|done].
Qed.

Section invariant.
Context `{Hplat : Platform}.

(** A step that draws no id keeps the invariant. *)
Lemma sys_inv_quiet s l s' :
  sys_inv s l -> quiet_step (client s) (client s') ->
  cids s' ⊆+ cids s -> unregistered s' ⊆+ unregistered s ->
  (forall l', owed_more l l' -> Forall (caller_ok l') (callers s')) ->
  exists l', sys_inv s' l'.
Proof.
  intros [Hc Hl Hnd Hb Hu Hcs] Hq Hs1 Hs2 Hcs'.
  destruct (quiet_step_spec _ _ _ Hc Hl Hq) as (l' & Hc' & Hl' & Hm & Hp).
  exists l'. split; [done|done|by eapply nodup_submseteq| | |by apply Hcs'].
  - destruct Hq as (-> & _). by eapply forall_submseteq.
  - eapply forall_submseteq; [done|]. eapply Forall_impl; [exact Hu|]. intros cid Hn. cbn in *.
    by eapply lookup_weaken_None.
Qed.

(** A step that draws an id: [new] is what its thread holds afterwards. *)
Lemma sys_inv_take s l s' cid :
  sys_inv s l -> next_app_cid_ (client s) + 1 < 2 ^ 32 -> take_cid (client s) = (cid, client s') ->
  cids s' ≡ₚ cid :: cids s -> unregistered s' ≡ₚ cid :: unregistered s ->
  Forall (caller_ok l) (callers s') -> sys_inv s' l.
Proof.
  intros [Hc Hl Hnd Hb Hu Hcs] Hnw Ht Hp1 Hp2 Hcs'.
  destruct (take_cid_ok _ _ _ Hc Hnw Ht) as (-> & Hc' & Hd & Hn).
  split; rewrite ?Hd; try done.
  - rewrite Hp1. apply NoDup_cons. split; [|done]. intros Hin.
    pose proof (proj1 (Forall_forall _ _) Hb _ Hin). cbn in *. lia.
  - rewrite Hp1, Hn. constructor; [lia|]. eapply Forall_impl; [exact Hb|]. cbn. lia.
  - rewrite Hp2. constructor; [|done]. apply eq_None_not_Some. intros H.
    destruct Hc as (_ & _ & _ & Hlt). apply Hlt in H. lia.
Qed.

(** A step that registers the id [cid] of its thread. *)
Lemma sys_inv_register s l s' cid deadline fut rest :
  sys_inv s l -> register cid deadline (client s) = (fut, client s') ->
  unregistered s ≡ₚ cid :: rest -> unregistered s' ≡ₚ rest -> cids s' ≡ₚ cids s ->
  (forall l', owed_more l l' -> owed l' cid fut -> Forall (caller_ok l') (callers s')) ->
  exists l', sys_inv s' l'.
Proof.
  intros [Hc Hl Hnd Hb Hu Hcs] Hr Hp Hp' Hpc Hcs'. pose proof (unregistered_cids s) as Hs.
  assert (Hnin : cid ∉ rest).
  { apply (nodup_submseteq _ _ Hs) in Hnd. rewrite Hp in Hnd. by apply NoDup_cons in Hnd as [? _]. }
  assert (Hin : cid ∈ cids s).
  { apply (elem_of_submseteq _ _ _) with (2 := Hs). rewrite Hp. by left. }
  rewrite Hp in Hu. apply Forall_cons in Hu as [Hnone Hu].
  pose proof (proj1 (Forall_forall _ _) Hb _ Hin) as Hlt. cbn in Hlt.
  pose proof (register_unused _ l cid deadline Hc Hl Hlt Hnone) as H. rewrite Hr in H.
  destruct H as (Hfut & Hl' & Hc' & Hn & Hpend). exists (l ++ [Waiting cid deadline]).
  assert (Hm : owed_more l (l ++ [Waiting cid deadline])).
  { intros cid' fut' [[d Hd]|(r & Hd & Hr')]; [left; exists d|right; exists r; split; [|done]];
      by apply lookup_app_l_Some. }
  split; [done|done|by rewrite Hpc|by rewrite Hpc, Hn| |].
  - rewrite Hp'. apply Forall_forall. intros cid' Hin'. rewrite Hpend; [|by intros ->].
    by apply (proj1 (Forall_forall _ _) Hu).
  - apply Hcs'; [done|]. left. exists deadline. subst fut. by rewrite list_lookup_middle.
Qed.

(** The callers' steps. *)
Lemma caller_inv s l n t c' t' :
  sys_inv s l -> callers s !! n = Some t -> caller_step (client s) t c' t' ->
  exists l', sys_inv (MkSystem c' (<[n := t']> (callers s)) (io s) (hb s) (closer s)) l'.
Proof.
  intros Hinv Hn Hstep. set (s' := MkSystem _ _ _ _ _). pose proof Hinv as [Hc Hl Hnd Hb Hu Hcs].
  assert (Hq : queue_ok (inbox (net (client s)))) by apply Hc.
  destruct (share_insert cid_of (callers s) n t (closer_cid (closer s)) Hn) as (r1 & H1 & H1').
  destruct (share_insert unregistered_of (callers s) n t (closer_unregistered (closer s)) Hn) as (r2 & H2 & H2').
  specialize (H1' t'). specialize (H2' t').
  change (cids s' ≡ₚ cid_of t' ++ r1) in H1'. change (cids s ≡ₚ cid_of t ++ r1) in H1.
  change (unregistered s' ≡ₚ unregistered_of t' ++ r2) in H2'.
  change (unregistered s ≡ₚ unregistered_of t ++ r2) in H2.
  pose proof (caller_step_quiet _ _ _ _ l Hq Hl Hstep) as Hquiet.
  assert (Ht : caller_ok l t) by by eapply Forall_lookup_1.
  assert (Hgo : quiet_step (client s) c' /\ cid_of t' = cid_of t /\ unregistered_of t' = [] /\
    (caller_ok l t -> forall l', owed_more l l' -> caller_ok l' t') -> exists l', sys_inv s' l').
  { intros (Hqs & Hcid & Hun & Hok). apply (sys_inv_quiet s l s'); [done|done|..].
    - by rewrite H1, H1', Hcid.
    - rewrite H2, H2', Hun. cbn. by apply submseteq_inserts_l.
    - intros l' Hm. cbn. apply Forall_insert; [by eapply callers_ok_mono|by apply Hok]. }
  destruct t as [|call|call cid| | | | | | | |]; try (by apply Hgo); clear Hgo Hquiet.
  - inversion Hstep as [| |? ? cid ? Hnw Htake| | | | | | | | | | | | |]; subst. exists l.
    apply (sys_inv_take s l s' cid); [done|done|done| | |].
    + by rewrite H1, H1'.
    + by rewrite H2, H2'.
    + apply Forall_insert; done.
  - inversion Hstep as [| | |? ? ? fut ? Hreg| | | | | | | | | | | |]; subst.
    apply (sys_inv_register s l s' cid _ fut r2 Hinv Hreg); [by rewrite H2|by rewrite H2'|by rewrite H1, H1'|].
    intros l' Hm Ho. cbn. apply Forall_insert; [by eapply callers_ok_mono|done].
Qed.

(** The steps of the thread in [close]. *)
Lemma closer_inv s l c' k' :
  sys_inv s l -> close_step (io s) (hb s) (client s) (closer s) c' k' ->
  exists l', sys_inv (MkSystem c' (callers s) (io s) (hb s) k') l'.
Proof.
  intros Hinv Hstep. set (s' := MkSystem _ _ _ _ _). pose proof Hinv as [Hc _ _ _ _ Hcs].
  assert (Hq : queue_ok (inbox (net (client s)))) by apply Hc.
  pose proof (close_step_quiet _ _ _ _ _ _ Hq Hstep) as Hquiet.
  assert (Hgo : quiet_step (client s) c' /\ (closer_cid k' = closer_cid (closer s) \/ closer_cid k' = []) /\
    closer_unregistered k' = [] -> exists l', sys_inv s' l').
  { intros (Hqs & Hcid & Hun). apply (sys_inv_quiet s l s'); [done|done|..].
    - unfold cids. apply submseteq_app; [done|]. cbn. destruct Hcid as [->| ->]; [done|]. apply submseteq_nil_l.
    - unfold unregistered. apply submseteq_app; [done|]. cbn. rewrite Hun. apply submseteq_nil_l.
    - intros l' Hm. by eapply callers_ok_mono. }
  destruct (closer s) as [| |cid| | | | | | | |] eqn:Hk; try (by apply Hgo); clear Hgo Hquiet.
  - inversion Hstep as [|? cid ? Hnw Htake| | | | | | | |]; subst. exists l.
    apply (sys_inv_take s l s' cid); [done|done|done| | |done].
    + unfold cids. cbn. rewrite Hk. cbn. by rewrite app_nil_r, Permutation_app_comm.
    + unfold unregistered. cbn. rewrite Hk. cbn. by rewrite app_nil_r, Permutation_app_comm.
  - inversion Hstep as [| |? ? fut ? Hreg| | | | | | |]; subst.
    apply (sys_inv_register s l s' cid _ fut (concat (unregistered_of <$> callers s)) Hinv Hreg).
    + unfold unregistered. rewrite Hk. cbn. by rewrite Permutation_app_comm.
    + unfold unregistered. cbn. by rewrite app_nil_r.
    + unfold cids. cbn. by rewrite Hk.
    + intros l' Hm _. by eapply callers_ok_mono.
Qed.

Lemma sys_step_inv s l s' : sys_inv s l -> sys_step s s' -> exists l', sys_inv s' l'.
Proof.
  intros Hinv. assert (Hq : queue_ok (inbox (net (client s)))) by apply Hinv.
  assert (Hgo : forall c' i' h', quiet_step (client s) c' ->
    exists l', sys_inv (MkSystem c' (callers s) i' h' (closer s)) l').
  { intros c' i' h' Hqs. apply (sys_inv_quiet s l); [done..|]. intros l' Hm.
    eapply callers_ok_mono; [exact Hm|apply Hinv]. }
  destruct 1 as [s n t c' t' Hn H|s c' i' H|s c' h' H|s c' k' H|s c' H].
  - by eapply caller_inv.
  - apply Hgo. by eapply io_step_quiet.
  - apply Hgo. by eapply hb_step_quiet.
  - by eapply closer_inv.
  - apply Hgo. by eapply net_step_quiet.
Qed.

Lemma reachable_inv s0 l0 s : sys_inv s0 l0 -> rtc sys_step s0 s -> exists l, sys_inv s l.
Proof.
  intros Hinv Hrtc. revert l0 Hinv. induction Hrtc as [s|s1 s2 s3 H _ IH]; intros l0 Hinv; [by exists l0|].
  destruct (sys_step_inv _ _ _ Hinv H) as (l & Hl). by apply (IH l).
Qed.
End invariant.

(** ** Nothing is shared between callers *)

Lemma nodup_owner {A B} (f : A -> list B) (ts : list A) tail n m t u x :
  NoDup (concat (f <$> ts) ++ tail) -> ts !! n = Some t -> ts !! m = Some u -> x ∈ f t -> x ∈ f u -> n = m.
Proof.
  revert n m. induction ts as [|a ts IH]; intros n m Hnd Hn Hm Ht Hu; [done|].
  rewrite fmap_cons, concat_cons, <- app_assoc in Hnd. apply NoDup_app in Hnd as (_ & Hdis & Hnd).
  assert (Hin : forall k v, ts !! k = Some v -> x ∈ f v -> x ∉ f a).
  { intros k v Hk Hv Ha. apply (Hdis x Ha), elem_of_app. left. apply list_elem_of_In, in_concat.
    exists (f v). split; apply list_elem_of_In; [|done]. apply (list_elem_of_fmap_2 f).
    by eapply list_elem_of_lookup_2. }
  destruct n as [|n], m as [|m]; cbn in Hn, Hm; simplify_eq; [done|by destruct (Hin m u)|by destruct (Hin n t)|].
  f_equal. by apply IH.
Qed.

(** A future of a caller always has a state that [wait_for] and [get] accept. *)
Lemma owed_wait l c cid fut :
  refines (dispatcher_ c) l -> owed l cid fut -> is_Some (wait_part fut c).
Proof.
  intros [Hf _] Ho. unfold wait_part. destruct Ho as [[d Hl]|(r & Hl & _)];
    destruct (Forall2_lookup_r _ _ _ _ _ Hf Hl) as (p & -> & Ha); cbn in Ha; subst p; by eexists.
Qed.

(** ** The order of a shutdown *)

Section shutdown.
Context `{Hplat : Platform}.

(** The members only [close] and the end of the I/O thread change. *)
Definition same_life (c c' : Client) : Prop :=
  closing_ c' = closing_ c /\ stop_io_ c' = stop_io_ c /\ sock_ c' = sock_ c /\ fds c' = fds c /\
  writer_ c' = writer_ c /\ cfg_ c' = cfg_ c /\ clock c <= clock c'.

Lemma same_life_net {A} (m : IO A) c r c' :
  on_net m c = Some (r, c') -> same_life c c' /\ state_ c' = state_ c.
Proof. rewrite on_net_eq. destruct (m (net c)) as [[r' w]|]; [|done]. by intros [= _ <-]. Qed.

Lemma same_life_fail e c c' : fail_pending e c = Some c' -> same_life c c' /\ state_ c' = state_ c.
Proof. unfold fail_pending. destruct (fail_all_pending _ _); [|done]. by intros [= <-]. Qed.

Lemma same_life_reap now c c' : reap now c = Some c' -> same_life c c' /\ state_ c' = state_ c.
Proof. unfold reap. destruct (reap_expired _ _) as [[? ?]|]; [|done]. by intros [= <-]. Qed.

Lemma same_life_refl c : same_life c c /\ state_ c = state_ c.
Proof. done. Qed.

Hint Resolve same_life_refl same_life_net same_life_fail same_life_reap : core.

Lemma caller_step_life c t c' t' : caller_step c t c' t' -> same_life c c' /\ state_ c' = state_ c.
Proof.
  destruct 1 as [| |c call cid c' _ H|c call cid fut c' H| | | | | | | | | | | |]; eauto; try done.
  - by injection H as _ <-.
  - unfold register in H. destruct (register_pending _ _ _). by injection H as _ <-.
Qed.

Lemma hb_step_life c h c' h' : hb_step c h c' h' -> same_life c c' /\ state_ c' = state_ c.
Proof. destruct 1; eauto; done. Qed.

Lemma net_step_life c c' : net_step c c' -> same_life c c' /\ state_ c' = state_ c.
Proof. by destruct 1. Qed.

Lemma io_step_life c i c' i' :
  io_step c i c' i' ->
  same_life c c' /\ (state_ c' = state_ c /\ i' <> IoDone \/ c' = io_exit c /\ i' = IoDone).
Proof.
  intros H. assert (Hs : i' <> IoDone -> same_life c c' /\ state_ c' = state_ c ->
    same_life c c' /\ (state_ c' = state_ c /\ i' <> IoDone \/ c' = io_exit c /\ i' = IoDone)) by naive_solver.
  destruct H; try (apply Hs; [done|]; eauto; done).
  - apply Hs; [done|]. unfold notify_unexpected_close. destruct (unexpected_fired_ c); [done|].
    by destruct (on_unexpected_close_ _).
  - split; [|by right]. unfold io_exit. by destruct (_ && _).
Qed.

(** [close] has closed the socket. *)
Definition socket_closed (k : Closer) : bool :=
  match k with
  | ClSocketClosed | ClJoinedIo | ClJoinedBoth | ClFailedAll | ClReturned => true
  | _ => false
  end.

Definition io_ended (i : IoThread) : bool := match i with IoDone => true | _ => false end.

(** How far a shutdown has come, and what holds then.  [c0] is the client when its
    threads were started. *)
Definition life (c0 : Client) (s : System) : Prop :=
  let c := client s in
  let kept := sock_ c = sock_ c0 /\ fds c = fds c0 in
  let closed := Sock.close (sock_ c0) (fds c0) = (sock_ c, fds c) in
  let closing stop := state_ c = ConnectionState.Closing /\ closing_ c = true /\ stop_io_ c = stop in
  match closer s with
  | ClIdle =>
      closing_ c = false /\ stop_io_ c = false /\ kept /\
      state_ c = (if io_ended (io s) then ConnectionState.Closed else ConnectionState.Open)
  | ClBegun | ClNumbered _ | ClEnrolled _ _ | ClWritten _ _ => closing false /\ kept
  | ClStopped => closing true /\ kept
  | ClSocketClosed => closing true /\ closed
  | ClJoinedIo => closing true /\ closed /\ io s = IoDone
  | ClJoinedBoth | ClFailedAll => closing true /\ closed /\ io s = IoDone /\ hb s = HbDone
  | ClReturned =>
      state_ c = ConnectionState.Closed /\ stop_io_ c = true /\ closed /\ io s = IoDone /\ hb s = HbDone
  end.

(** Only [close] closes the socket, and it stays closed. *)
Lemma life_socket c0 s :
  life c0 s -> Sock.valid (sock_ c0) = true -> Sock.valid (sock_ (client s)) = false -> socket_closed (closer s) = true.
Proof.
  unfold life. destruct (closer s); intros Hl Hv Hs; try done; destruct_and?;
    (match goal with H : sock_ (client s) = _ |- _ => rewrite H in Hs end); congruence.
Qed.

Lemma close_step_closed i h c k c' k' :
  close_step i h c k c' k' -> socket_closed k = true -> socket_closed k' = true.
Proof. by destruct 1. Qed.

(** A step that leaves the life of the client alone, by a thread that does not end. *)
Lemma life_same c0 s c' cs' i' h' :
  life c0 s -> same_life (client s) c' -> state_ c' = state_ (client s) ->
  io_ended i' = io_ended (io s) -> (io s = IoDone -> i' = IoDone) -> (hb s = HbDone -> h' = HbDone) ->
  life c0 (MkSystem c' cs' i' h' (closer s)).
Proof.
  intros Hl (Hc & Hst & Hso & Hf & _) Hs Hi Hi' Hh. unfold life in *. cbn [client io hb closer].
  rewrite Hc, Hst, Hso, Hf, Hs, Hi. destruct (closer s); naive_solver.
Qed.

Lemma io_step_from c i c' i' : io_step c i c' i' -> i <> IoDone /\ (i' = IoDone -> i = IoLeaving).
Proof. by destruct 1. Qed.

Lemma hb_step_from c h c' h' : hb_step c h c' h' -> h <> HbDone.
Proof. by destruct 1. Qed.

Lemma same_life_cid c cid c' : take_cid c = (cid, c') -> same_life c c' /\ state_ c' = state_ c.
Proof. by intros [= _ <-]. Qed.

Lemma same_life_register cid d c fut c' :
  register cid d c = (fut, c') -> same_life c c' /\ state_ c' = state_ c.
Proof. unfold register. destruct (register_pending _ _ _). by intros [= _ <-]. Qed.

(** The steps of [close]. *)
Lemma close_step_life c0 s c' k' :
  life c0 s -> close_step (io s) (hb s) (client s) (closer s) c' k' ->
  life c0 (MkSystem c' (callers s) (io s) (hb s) k').
Proof.
  intros Hl H. unfold life in *. cbn [client io hb closer].
  assert (Hgo : forall c', same_life (client s) c' /\ state_ c' = state_ (client s) ->
    state_ c' = state_ (client s) /\ closing_ c' = closing_ (client s) /\ stop_io_ c' = stop_io_ (client s) /\
    sock_ c' = sock_ (client s) /\ fds c' = fds (client s)).
  { intros c1 [(H1 & H2 & H3 & H4 & _) H5]. done. }
  destruct H as [c Ho|c cid c' _ Hs|c cid fut c' Hs|c cid fut r c' Hs|c fut until _|c so os Hs|c Hi|c Hh|c c' Hs|c].
  - naive_solver.
  - apply same_life_cid, Hgo in Hs as (-> & -> & -> & -> & ->). done.
  - apply same_life_register, Hgo in Hs as (-> & -> & -> & -> & ->). done.
  - assert (Hs' : same_life c c' /\ state_ c' = state_ c).
    { destruct (writer_ c); [by eapply same_life_net|]. by injection Hs as _ <-. }
    apply Hgo in Hs' as (-> & -> & -> & -> & ->). done.
  - naive_solver.
  - destruct Hl as (Hc & Hso & Hf). rewrite Hso, Hf in Hs. by split.
  - naive_solver.
  - naive_solver.
  - apply same_life_fail, Hgo in Hs as (-> & -> & -> & -> & ->). done.
  - naive_solver.
Qed.

Lemma sys_step_life c0 s s' : life c0 s -> sys_step s s' -> life c0 s'.
Proof.
  intros Hl. destruct 1 as [s n t c' t' Hn H|s c' i' H|s c' h' H|s c' k' H|s c' H].
  - apply caller_step_life in H as [H1 H2]. by eapply life_same.
  - pose proof (io_step_from _ _ _ _ H) as [Hnd Hfrom].
    apply io_step_life in H as [H1 [[H2 Hi]|[H2 ->]]].
    + eapply life_same; [done..| |done|done]. by destruct i', (io s).
    + unfold life in *. cbn [client io hb closer]. unfold same_life in H1. destruct H1 as (Hc & Hst & Hso & Hf & _).
      rewrite Hc, Hst, Hso, Hf. subst c'. unfold io_exit.
      assert (Hio : io_ended (io s) = false) by (destruct (io s); done). rewrite Hio in Hl.
      destruct (closer s); destruct_and?; try done;
        (match goal with H : state_ _ = _ |- _ => rewrite H end); repeat split; done.
  - pose proof (hb_step_from _ _ _ _ H) as Hnd. apply hb_step_life in H as [H1 H2]. by eapply life_same.
  - by eapply close_step_life.
  - apply net_step_life in H as [H1 H2]. by eapply life_same.
Qed.
End shutdown.

(** ** The operations of [Client] are runs of the threads *)

Section runs.
Context `{Hplat : Platform}.

(** The steps of one caller, with nobody else running. *)
Definition caller_run (x y : Client * Caller) : Prop :=
  rtc (fun x y => caller_step x.1 x.2 y.1 y.2) x y.

#[export] Instance caller_run_trans : Transitive caller_run.
Proof. intros x y z. unfold caller_run. apply transitivity. Qed.

Lemma run_caller c t c' t' : caller_step c t c' t' -> caller_run (c, t) (c', t').
Proof. intros H. by apply rtc_once. Qed.

Lemma caller_run_pairs n x y ts i h k :
  caller_run x y -> ts !! n = Some x.2 ->
  rtc sys_step (MkSystem x.1 ts i h k) (MkSystem y.1 (<[n := y.2]> ts) i h k).
Proof.
  intros Hrun. revert ts. induction Hrun as [x|x y z H _ IH]; intros ts Hn; [by rewrite list_insert_id|].
  eapply rtc_l; [by apply (sys_caller (MkSystem x.1 ts i h k) n x.2)|].
  assert (Hlt : (n < length ts)%nat) by by eapply lookup_lt_Some.
  etransitivity; [apply IH; by apply list_lookup_insert_eq|]. by rewrite list_insert_insert_eq.
Qed.

Lemma caller_run_sys n c t c' t' ts i h k :
  caller_run (c, t) (c', t') -> ts !! n = Some t ->
  rtc sys_step (MkSystem c ts i h k) (MkSystem c' (<[n := t']> ts) i h k).
Proof. apply (caller_run_pairs n (c, t) (c', t')). Qed.

Lemma run_io c i c' i' ts h k :
  io_step c i c' i' -> rtc sys_step (MkSystem c ts i h k) (MkSystem c' ts i' h k).
Proof. intros H. apply rtc_once. by apply (sys_io (MkSystem c ts i h k)). Qed.

Lemma run_hb c h c' h' ts i k :
  hb_step c h c' h' -> rtc sys_step (MkSystem c ts i h k) (MkSystem c' ts i h' k).
Proof. intros H. apply rtc_once. by apply (sys_hb (MkSystem c ts i h k)). Qed.

(** The operations below run at one reading of the clock. *)
Lemma send_part_run call c r c' :
  next_app_cid_ c + 1 < 2 ^ 32 ->
  send_part (c_key call) (c_version call) (c_body call) (clock c) c = Some (r, c') ->
  caller_run (c, Accepted call)
    (c', match r with
         | ok fut => Waits (next_app_cid_ c) fut (wait_end c)
         | err e => Answered (Some (next_app_cid_ c)) (err e)
         end).
Proof.
  intros Hnw. unfold send_part. destruct (take_cid c) as [cid c1] eqn:Et.
  assert (Hcid : cid = next_app_cid_ c) by (by injection Et as <-). subst cid.
  assert (Hend : wait_end c1 = clock c + ms (request_timeout (cfg_ c1))) by (by injection Et as <-).
  rewrite <- Hend. assert (Hend' : wait_end c1 = wait_end c) by (by injection Et as <-).
  destruct (register _ _ c1) as [fut c2] eqn:Er. assert (Hcl : clock c2 = clock c /\ wait_end c2 = wait_end c).
  { injection Et as <-. unfold register in Er. destruct (register_pending _ _ _). by injection Er as _ <-. }
  intros Hs. etransitivity; [by eapply run_caller, s_cid|]. etransitivity; [by eapply run_caller, s_register|].
  change (encode_request_frame (c_key call) (c_version call) (next_app_cid_ c) (c_body call))
    with (frame_of call (next_app_cid_ c)) in Hs.
  destruct (check_outbound_frame_size _ _) as [[]|e] eqn:Ef.
  - destruct Hcl as [Hcl Hwe]. rewrite <- Hcl in Hs. etransitivity; [by eapply run_caller, s_stamp|].
    destruct (on_net _ _) as [[r' c3]|] eqn:Ew; [|done]. cbn [mbind option_bind] in Hs.
    destruct r' as [[]|e]; injection Hs as <- <-; apply run_caller; [|by eapply s_write_fails].
    rewrite <- Hwe. change (wait_end c2) with (wait_end (c2 <| last_outbound_at_ := clock c2 |>)). by apply s_write.
  - injection Hs as <- <-. by apply run_caller, s_too_large.
Qed.

Lemma store_offset_run ref str off c r c' :
  store_offset ref str off (clock c) c = Some (r, c') ->
  caller_run (c, Storing ref str off) (c', Stored r).
Proof.
  unfold store_offset. destruct (require_open c) as [[]|e] eqn:Eo.
  2: { intros [= <- <-]. by apply run_caller, o_refused. }
  destruct (check_reference ref) as [[]|e] eqn:Ec.
  2: { intros [= <- <-]. by apply run_caller, o_too_long. }
  intros Hw. etransitivity; [by apply run_caller, o_open|].
  etransitivity; [by apply run_caller, o_stamp|]. by apply run_caller, o_write.
Qed.

Lemma on_net_clock {A} (m : IO A) c r c' : on_net m c = Some (r, c') -> clock c' = clock c.
Proof. rewrite on_net_eq. destruct (m (net c)) as [[r' w]|]; [|done]. by intros [= _ <-]. Qed.

Lemma io_iteration_run c b c' ts h k :
  io_iteration (clock c) c = Some (b, c') ->
  rtc sys_step (MkSystem c ts IoTop h k) (MkSystem c' ts (if b then IoLeaving else IoTop) h k).
Proof.
  unfold io_iteration. destruct (stop_io_ c) eqn:Es; [intros [= <- <-]; by apply run_io, i_stop|].
  destruct (on_net read_frame c) as [[r c1]|] eqn:Er; [|done]. cbn [mbind option_bind].
  intros Ht. etransitivity; [by apply run_io, i_check|]. etransitivity; [by eapply run_io, i_read|]. revert Ht. unfold io_turn.
  rewrite <- (on_net_clock _ _ _ _ Er). destruct r as [f|e].
  - destruct (reap _ _) as [c2|] eqn:Ep; [|done]. cbn [mbind option_bind].
    destruct (dispatch f _) as [[b' d]|] eqn:Ed; [|done]. cbn [mbind option_bind]. intros [= <- <-].
    etransitivity; [by apply run_io, i_inbound|].
    etransitivity; [eapply run_io, i_reap; exact Ep|]. by eapply run_io, i_dispatch.
  - case_bool_decide as He.
    + destruct (_ && _) eqn:Eb.
      * destruct (fail_pending _ _) as [c2|] eqn:Ef; [|done]. cbn [mbind option_bind]. intros [= <- <-].
        etransitivity; [by eapply run_io, i_dead|]. unfold close_event.
        rewrite bool_decide_eq_true_2 by done. by apply run_io, i_notify.
      * destruct (reap _ c1) as [c2|] eqn:Ep; [|done]. cbn [mbind option_bind]. intros [= <- <-].
        by eapply run_io, i_idle.
    + destruct (fail_pending e c1) as [c2|] eqn:Ef; [|done]. cbn [mbind option_bind].
      intros [= <- <-]. etransitivity; [by eapply run_io, i_failed|].
      destruct (closing_ c2) eqn:Ec; cbn [negb]; [by apply run_io, i_closing|].
      etransitivity; [by apply run_io, i_unexpected|]. unfold close_event.
      rewrite bool_decide_eq_false_2 by done. by apply run_io, i_notify.
Qed.

Lemma heartbeat_tick_run c c' ts i k :
  heartbeat_tick (clock c) c = Some c' -> rtc sys_step (MkSystem c ts i HbTop k) (MkSystem c' ts i HbTop k).
Proof.
  unfold heartbeat_tick. destruct (stop_io_ c) eqn:Es; [by intros [= <-]|].
  destruct (Z.geb_spec (clock c - last_outbound_at_ c) (seconds (negotiated_heartbeat_ c))); [|by intros [= <-]].
  destruct (writer_ c) eqn:Ew; [|by intros [= <-]].
  destruct (on_net _ c) as [[r c1]|] eqn:En; [|done]. cbn [mbind option_bind]. intros [= <-].
  etransitivity; [apply run_hb, h_due; [done|lia|done]|].
  etransitivity; [by eapply run_hb, h_send|]. by apply run_hb, h_stamp.
Qed.

(** [close], when what the other threads do during its wait (which they end, or time
    does), during its joins and after it has failed the pending requests are runs of
    theirs. *)
Lemma close_run others threads_end late c r c' ts i h ts1 i1 h1 ts2 ts3 :
  state_ c = ConnectionState.Open -> next_app_cid_ c + 1 < 2 ^ 32 ->
  (forall c fut, let k := ClWritten fut (wait_end c) in
    rtc sys_step (MkSystem c ts i h k) (MkSystem (others c) ts1 i1 h1 k) /\ wait_over fut (wait_end c) (others c)) ->
  (forall c, stop_io_ c = true ->
    rtc sys_step (MkSystem c ts1 i1 h1 ClSocketClosed) (MkSystem (threads_end c) ts2 IoDone HbDone ClSocketClosed)) ->
  (forall c, rtc sys_step (MkSystem c ts2 IoDone HbDone ClFailedAll) (MkSystem (late c) ts3 IoDone HbDone ClFailedAll)) ->
  close others threads_end late (clock c) c = Some (r, c') ->
  r = ok tt /\ rtc sys_step (MkSystem c ts i h ClIdle) (MkSystem c' ts3 IoDone HbDone ClReturned).
Proof.
  intros Ho Hnw Hothers Hend Hlate. unfold close. rewrite bool_decide_eq_true_2 by done. cbn [negb].
  assert (Hk : forall c k c' k' ts i h, close_step i h c k c' k' ->
    rtc sys_step (MkSystem c ts i h k) (MkSystem c' ts i h k')).
  { intros. apply rtc_once. by apply (sys_close (MkSystem _ _ _ _ _)). }
  set (c0 := c <| state_ := ConnectionState.Closing |> <| closing_ := true |>).
  destruct (take_cid c0) as [cid c1] eqn:Et. assert (Hwe : clock c + ms (request_timeout (cfg_ c1)) = wait_end c1)
    by (injection Et as _ <-; reflexivity). rewrite Hwe.
  destruct (register cid _ c1) as [fut c2] eqn:Er.
  destruct (if writer_ c2 then _ else _) as [[r' c3]|] eqn:Ew; [|done]. cbn [mbind option_bind].
  assert (Hwe' : wait_end c2 = wait_end c3).
  { destruct (writer_ c2); [|by injection Ew as _ <-]. revert Ew. rewrite on_net_eq.
    destruct (write_all _ _) as [[x w]|]; [|done]. by intros [= _ <-]. }
  match goal with |- context [Sock.close (sock_ ?x) _] => set (c4 := x) end.
  destruct (Sock.close (sock_ c4) (fds c4)) as [so os] eqn:Es. unfold join_threads.
  match goal with |- context [threads_end ?x] => set (c5 := x) end.
  set (c6 := threads_end c5 <| io_thread_ := false |>).
  match goal with |- context [fail_pending _ ?x] => destruct (fail_pending connection_closed x) as [c7|] eqn:Ef end;
    [|done]. cbn [mbind option_bind].
  intros [= <- <-]. split; [done|].
  etransitivity; [by apply Hk, k_begin|]. fold c0.
  etransitivity; [eapply Hk, k_cid; [|exact Et]; exact Hnw|].
  etransitivity; [eapply Hk, k_register; exact Er|].
  etransitivity; [eapply Hk, k_write; exact Ew|]. rewrite Hwe'. destruct (Hothers c3 fut) as [Hrun Hover].
  etransitivity; [exact Hrun|].
  etransitivity; [by apply Hk, k_stop|]. fold c4.
  etransitivity; [apply Hk, k_socket; exact Es|]. fold c5.
  etransitivity; [apply (Hend c5); done|].
  etransitivity; [apply Hk, k_join_io; done|]. fold c6.
  etransitivity; [apply Hk, k_join_hb; done|].
  etransitivity; [apply Hk, k_fail; exact Ef|].
  etransitivity; [apply Hlate|]. apply Hk, k_closed.
Qed.
End runs.

(** ** Reachable systems *)

Section reachable.
Context `{Hplat : Platform} (c0 : Client) (calls : list Caller) (s : System).
Hypothesis Hopened : opened c0.
Hypothesis Hcalls : Forall at_start calls.
Hypothesis Hrun : rtc sys_step (started c0 calls) s.

Lemma run_inv : exists l, sys_inv s l.
Proof. destruct (started_inv c0 calls Hopened Hcalls) as (l & Hl). by eapply reachable_inv. Qed.

Lemma run_life : life c0 s.
Proof.
  assert (H0 : life c0 (started c0 calls)) by (destruct Hopened as (_ & Hs & Hst & Hc); by repeat split).
  revert H0 Hrun. generalize (started c0 calls). intros s0 H0 Hr.
  induction Hr as [|s1 s2 s3 H _ IH]; [done|]. apply IH. by eapply sys_step_life.
Qed.
End reachable.
