(* ===== verification/ClientProperties.v ===== *)
(** * The client, end to end

    A request and its response through the whole stack, the guards and the replies
    of the lifecycle commands, the I/O loop over a stream of frames, the
    unexpected-close event, connecting and closing. *)

From coqutil Require Import Datatypes.RecordSetters.
From S2P Require Import Prelude Errors Buffer Codec Frame Command HandshakeCommands.
From S2P Require Import LifecycleCommands Config Dispatcher Socket Dialogue Handshake Client.
From S2P Require Import ClientInvariant.
Import TriangleBracketNotations.

Local Open Scope Z_scope.

(** ** A request and its response *)

(** The I/O thread over some turns of its loop. *)
Definition io_thread `{Hplat : Platform} (clock : list Z) (c : Client) : Client :=
  match io_loop clock c with Some (_, c) => c | None => c end.

Section round_trip.
Context `{Hplat : Platform}.

(** The sending part of a request that fits, on a writer that is ready. *)
Lemma send_part_sent k v body now c (frame := encode_request_frame k v (next_app_cid_ c) body) :
  client_ok c -> next_app_cid_ c + 1 < 2 ^ 32 -> fits frame (negotiated_frame_max_ c) ->
  ready (net c) (length frame) ->
  exists c', send_part k v body now c = Some (ok (length (promises (dispatcher_ c))), c') /\
    client_ok c' /\ kept c c' /\ inbox (net c') = inbox (net c) /\
    outbox (net c') = outbox (net c) ++ frame /\
    pending_ (dispatcher_ c') !! next_app_cid_ c
    = Some (MkEntry (length (promises (dispatcher_ c))) (now + ms (request_timeout (cfg_ c)))).
Proof.
  intros Hok Hnw Hfit Hready.
  assert (Hsent : exists c', send_part k v body now c = Some (ok (length (promises (dispatcher_ c))), c') /\
    outbox (net c') = outbox (net c) ++ frame /\
    pending_ (dispatcher_ c') !! next_app_cid_ c
    = Some (MkEntry (length (promises (dispatcher_ c))) (now + ms (request_timeout (cfg_ c))))).
  { unfold send_part. pose proof (register_ok c (now + ms (request_timeout (cfg_ c))) Hok Hnw) as H.
    destruct (take_cid c) as [cid c1] eqn:Et. cbn [take_cid] in Et. injection Et as Hcid Hc1.
    assert (Hcfg : cfg_ c1 = cfg_ c) by by rewrite <- Hc1. rewrite Hcfg.
    destruct (register cid _ c1) as [fut c2]. destruct H as (-> & -> & Hok2 & _ & Hp & _ & Hc2).
    assert (Hfm : negotiated_frame_max_ c2 = negotiated_frame_max_ c) by by rewrite Hc2.
    assert (Hnet : net c2 = net c) by by rewrite Hc2.
    unfold fits in Hfit. fold frame. rewrite Hfm, Hfit, on_net_eq.
    change (net (c2 <| last_outbound_at_ := now |>)) with (net c2). rewrite Hnet.
    destruct (stream (inbox (net c))) as [d t] eqn:Hs.
    destruct (performs_succeeds (performs := performs_write_all frame) [] frame tt
      (is_bytes_nil) (conj eq_refl eq_refl) (net c) d t) as (w' & Hw & _ & Ho & _).
    { destruct Hok as (_ & Hq & _). pose proof (queue_ok_stream _ Hq) as Hb. by rewrite Hs in Hb. }
    { done. }
    { done. }
    rewrite Hw. cbn [mbind option_bind]. eexists. split; [done|]. split; [done|].
    change (pending_ (dispatcher_ c2) !! next_app_cid_ c
      = Some (MkEntry (length (promises (dispatcher_ c))) (now + ms (request_timeout (cfg_ c))))).
    by rewrite Hp, lookup_insert_eq. }
  destruct Hsent as (c' & Hs & Ho & Hp).
  pose proof (send_part_ok _ _ _ _ _ _ _ Hok Hnw Hs) as (Hok' & Hi & _ & Hc).
  exists c'. split; [done|]. split; [done|]. split; [rewrite Hc; repeat split; by left|]. done.
Qed.

(** A turn of the I/O loop that meets the response to a pending request, before
    its deadline. *)
Lemma io_thread_response now c f rest t cid fut deadline :
  client_ok c -> stop_io_ c = false -> frame_ok f -> is_bytes rest ->
  stream (inbox (net c)) = (enc_frame f ++ rest, t) -> response_to f = Some cid ->
  pending_ (dispatcher_ c) !! cid = Some (MkEntry fut deadline) -> now < deadline ->
  let c' := io_thread [now] c in
  client_ok c' /\ kept c c' /\ stream (inbox (net c')) = (rest, t) /\ outbox (net c') = outbox (net c) /\
  pending_ (dispatcher_ c') !! cid = None /\
  promises (dispatcher_ c') !! fut = Some (Satisfied (ok f)).
Proof.
  intros Hok Hstop Hf Hrest Hs Hresp Hm Hlt.
  destruct (read_frame_enc (net c) f rest t Hf Hrest Hs) as (w' & Hr & Hs' & Hw).
  assert (Hit : exists d, io_iteration now c
    = Some (false, c <| net := w' |> <| last_inbound_at_ := now |> <| dispatcher_ := d |>) /\
    pending_ d !! cid = None /\ promises d !! fut = Some (Satisfied (ok f))).
  { unfold io_iteration. rewrite Hstop, on_net_eq, Hr. cbn [mbind option_bind]. unfold io_turn.
    set (c1 := c <| net := w' |> <| last_inbound_at_ := now |>).
    assert (Hok1 : client_ok c1).
    { destruct Hok as (Hl & Hq & Hrem). split; [exact Hl|]. split; [|exact Hrem].
      exact (read_frame_queue _ _ _ Hq Hr). }
    destruct (reap_ok now c1 Hok1) as (c2 & -> & Hok2 & Hc2 & Hp2). cbn [mbind option_bind].
    pose proof Hok2 as ((l & Hl) & _).
    assert (Hm2 : pending_ (dispatcher_ c2) !! cid = Some (MkEntry fut deadline)).
    { rewrite Hp2. apply map_lookup_filter_Some. split; [exact Hm|]. cbn. unfold is_expired. cbn.
      rewrite Z.geb_leb. by apply Z.leb_gt. }
    destruct (dispatch_hit _ _ _ _ _ Hl Hresp Hm2) as [Hu Hd]. rewrite Hd. cbn [mbind option_bind].
    assert (Heq : forall d, c2 <| dispatcher_ := d |> = c1 <| dispatcher_ := d |>)
      by (intros d; by rewrite Hc2).
    rewrite Heq. eexists. split; [done|]. cbn. split; [apply lookup_delete_eq|].
    apply list_lookup_insert_eq. by eapply lookup_lt_Some. }
  destruct Hit as (d & Hit & Hpd & Hfd).
  assert (Hio : io_thread [now] c = c <| net := w' |> <| last_inbound_at_ := now |> <| dispatcher_ := d |>).
  { unfold io_thread. cbn [io_loop]. by rewrite Hit. }
  cbn zeta. rewrite Hio. split; [by eapply io_iteration_ok|]. split; [by eapply io_iteration_kept|].
  split; [exact Hs'|]. split; [by rewrite Hw|]. done.
Qed.
End round_trip.

(** ** The I/O loop on a stream of frames *)

Section delivery.
Context `{Hplat : Platform}.

(** What an iteration does to the request table when it reads a frame. *)
Definition turn_ops (now : Z) (f : IncomingFrame) : list Op := [ReapExpired now; Dispatch f].

Lemma io_turn_frame f now c l :
  refines (dispatcher_ c) l ->
  exists d, io_turn (ok f) now c = Some (false, c <| last_inbound_at_ := now |> <| dispatcher_ := d |>) /\
    refines d (spec_run (turn_ops now f) l).
Proof.
  intros Hr. unfold io_turn, reap.
  change (dispatcher_ (c <| last_inbound_at_ := now |>)) with (dispatcher_ c).
  destruct (reap_refines _ l now Hr) as (d & -> & Hr1). cbn [mbind option_bind].
  destruct (dispatch_refines d _ f Hr1) as (b & d' & Hd & Hr2 & _).
  change (dispatcher_ (_ <| dispatcher_ := d |>)) with d. rewrite Hd. cbn [mbind option_bind].
  exists d'. split; [done|]. exact Hr2.
Qed.

Lemma io_loop_frames fs clock c rest t l :
  length clock = length fs -> Forall frame_ok fs -> is_bytes rest -> stop_io_ c = false ->
  stream (inbox (net c)) = (concat (map enc_frame fs) ++ rest, t) -> refines (dispatcher_ c) l ->
  exists c', io_loop clock c = Some (false, c') /\ stream (inbox (net c')) = (rest, t) /\
    outbox (net c') = outbox (net c) /\
    refines (dispatcher_ c') (spec_run (concat (zip_with turn_ops clock fs)) l) /\
    c' = c <| net := net c' |> <| dispatcher_ := dispatcher_ c' |>
           <| last_inbound_at_ := default (last_inbound_at_ c) (last clock) |>.
Proof.
  revert clock c l. induction fs as [|f fs IH]; intros [|now clock] c l Hlen Hfs Hrest Hstop Hs Hr;
    [|done..|].
  - exists c. cbn. repeat (split; [done|]). by destruct c.
  - apply Forall_cons in Hfs as [Hf Hfs]. cbn [map concat] in Hs. rewrite <- app_assoc in Hs.
    assert (Hb : is_bytes (concat (map enc_frame fs) ++ rest)).
    { apply is_bytes_app. split; [|done]. by apply enc_frames_bytes. }
    destruct (read_frame_enc (net c) f _ t Hf Hb Hs) as (w & Hread & Hs' & Hw).
    set (c0 := c <| net := w |>). destruct (io_turn_frame f now c0 l Hr) as (d & Ht & Hr').
    set (c1 := c0 <| last_inbound_at_ := now |> <| dispatcher_ := d |>) in *.
    assert (Hit : io_iteration now c = Some (false, c1)).
    { unfold io_iteration. by rewrite Hstop, on_net_eq, Hread. }
    cbn [io_loop]. rewrite Hit. cbn [mbind option_bind].
    destruct (IH clock c1 (spec_run (turn_ops now f) l)) as (c' & Hloop & Hs2 & Ho & Hr2 & Heq);
      [by injection Hlen|done..|].
    exists c'. split; [exact Hloop|]. split; [done|]. split; [rewrite Ho; change (net c1) with w; by rewrite Hw|]. split.
    + cbn [zip_with concat]. unfold spec_run in *. by rewrite fold_left_app.
    + etransitivity; [exact Heq|]. rewrite last_cons. by destruct (last clock).
Qed.
End delivery.

Lemma io_thread_activity `{Hplat : Platform} clock c : rtc activity c (io_thread clock c).
Proof.
  unfold io_thread. destruct (io_loop clock c) as [[b c']|] eqn:E; [|done].
  revert c E. induction clock as [|now clock IH]; intros c; cbn [io_loop]; [by intros [= _ <-]|].
  destruct (io_iteration now c) as [[stop c1]|] eqn:E; [|done]. cbn [mbind option_bind].
  intros H. eapply rtc_l; [by eapply act_io|]. destruct stop; [|by apply IH].
  injection H as _ <-. apply rtc_once, act_io_exit.
Qed.

(** The client can send the request [req] and the server's answer is [f]. *)
Definition can_ask {C} `{Command C} (c : Client) (req : C) : Prop :=
  state_ c = ConnectionState.Open /\ next_app_cid_ c + 1 < 2 ^ 32 /\
  fits (request req (next_app_cid_ c)) (negotiated_frame_max_ c) /\
  ready (net c) (length (request req (next_app_cid_ c))).

Definition answered_by (c : Client) (f : IncomingFrame) (rest : bytes) (t : option Interruption) : Prop :=
  stop_io_ c = false /\ frame_ok f /\ is_bytes rest /\
  stream (inbox (net c)) = (enc_frame f ++ rest, t) /\ response_to f = Some (next_app_cid_ c).

(** The request has been sent, and the response consumed. *)
Definition exchange_done {C} `{Command C} (c c' : Client) (req : C) (rest : bytes) (t : option Interruption) : Prop :=
  client_ok c' /\ outbox (net c') = outbox (net c) ++ request req (next_app_cid_ c) /\
  stream (inbox (net c')) = (rest, t) /\ pending_ (dispatcher_ c') !! next_app_cid_ c = None.

Section answered.
Context `{Hplat : Platform}.

Lemma request_reply_answered {C A} `{Command C} (req : C) (reply : IncomingFrame -> Result A)
  c f rest t now now' :
  client_ok c -> can_ask c req -> answered_by c f rest t -> now' < now + ms (request_timeout (cfg_ c)) ->
  exists c', request_reply (io_thread [now']) req now reply c = Some (reply f, c') /\
    exchange_done c c' req rest t.
Proof.
  intros Hok (Hopen & Hnw & Hfit & Hready) (Hstop & Hf & Hrest & Hs & Hresp) Hlt.
  destruct (send_part_sent (kKey C) (kVersion C) (body_of req) now c Hok Hnw Hfit Hready)
    as (c1 & Hsend & Hok1 & (_ & _ & _ & _ & Hstop1 & _) & Hi1 & Ho1 & Hm1).
  rewrite <- Hi1 in Hs. rewrite <- Hstop1 in Hstop.
  destruct (io_thread_response now' c1 f rest t _ _ _ Hok1 Hstop Hf Hrest Hs Hresp Hm1 Hlt)
    as (Hok2 & _ & Hs2 & Ho2 & Hm2 & Hp2).
  unfold request_reply, send_and_wait. rewrite Hsend. cbn [mbind option_bind].
  unfold wait_part. rewrite Hp2. cbn [mbind option_bind].
  eexists. split; [done|]. split; [done|]. split; [by rewrite Ho2, Ho1|]. by split.
Qed.

Lemma require_open_ok c : state_ c = ConnectionState.Open -> require_open c = ok tt.
Proof. unfold require_open. by intros ->. Qed.

Lemma require_open_err c : state_ c <> ConnectionState.Open -> require_open c = err not_open.
Proof. unfold require_open. intros H. by rewrite bool_decide_eq_false_2. Qed.

Lemma check_reference_ok ref : zlen ref <= 256 -> check_reference ref = ok tt.
Proof. unfold check_reference. intros H. by destruct (Z.gtb_spec (zlen ref) 256); [lia|]. Qed.

Lemma check_reference_err ref : 256 < zlen ref -> check_reference ref = err reference_too_long.
Proof. unfold check_reference. intros H. by destruct (Z.gtb_spec (zlen ref) 256); [|lia]. Qed.
End answered.

(** ** Properties *)

(** C4.  The lifecycle commands, end to end.  On an open client whose writer
    accepts the request (in pieces of any size), when the server's next frame is
    the response to the request's correlation id and the I/O thread reads it
    before the deadline, each command writes exactly its request frame, consumes
    exactly the response, frees the correlation id, and returns what its reply
    makes of that response. *)
Theorem lifecycle_round_trip {P : Platform} (c : Client) (f : IncomingFrame) (rest : bytes) t (now now' : Z)
  (stream reference : std_string) (args : list Argument) (idempotent : bool)
  (Hok : client_ok c) (Hf : answered_by c f rest t) (Hin_time : now' < now + ms (request_timeout (cfg_ c))) :
  (forall req, req = CreateRequest.Mk stream args -> can_ask c req ->
     exists c', create_stream (io_thread [now']) stream args idempotent now c
       = Some (create_reply stream idempotent f, c') /\ exchange_done c c' req rest t) /\
  (forall req, req = DeleteRequest.Mk stream -> can_ask c req ->
     exists c', delete_stream (io_thread [now']) stream idempotent now c
       = Some (delete_reply stream idempotent f, c') /\ exchange_done c c' req rest t) /\
  (forall req, req = QueryOffsetRequest.Mk reference stream -> can_ask c req ->
     exists c', query_offset (io_thread [now']) reference stream now c
       = Some (query_offset_reply stream f, c') /\ exchange_done c c' req rest t) /\
  (forall req, req = QueryPublisherRequest.Mk reference stream -> can_ask c req -> zlen reference <= 256 ->
     exists c', query_publisher_sequence (io_thread [now']) reference stream now c
       = Some (query_publisher_reply stream f, c') /\ exchange_done c c' req rest t).
Proof.
  repeat split; intros req -> Hask;
    [unfold create_stream|unfold delete_stream|unfold query_offset|intros Href; unfold query_publisher_sequence];
    rewrite require_open_ok by apply Hask; rewrite ?check_reference_ok by done;
    by apply request_reply_answered.
Qed.

(** An open client with a negotiated frame limit, and the server's answer to its
    first request. *)
Definition open_client (inb : list InEvent) : Client :=
  (new_client default_config (MkWorld inb (repeat (Sent 7) 40) [] []) {[5 := 2]})
    <| sock_ := MkSocket 5 |> <| state_ := ConnectionState.Open |> <| writer_ := true |> <| negotiated_frame_max_ := 4096 |>.
Definition create_answer (rc : Z) : IncomingFrame :=
  MkFrame CreateResponse.kKey 1 (body_of (CreateResponse.Mk rc)) (Some 100).

Lemma new_client_ok cfg w os : queue_ok (inbox w) -> client_ok (new_client cfg w os).
Proof.
  intros Hq. split; [exists []; apply new_refines|]. split; [done|]. split; [cbn; lia|].
  intros cid. cbn. rewrite lookup_empty. by intros [].
Qed.

Lemma lifecycle_round_trip_witness :
  let f := create_answer response_code.StreamAlreadyExists in
  let c := open_client [Data (take 9 (enc_frame f)); Data (drop 9 (enc_frame f))] in
  let req := CreateRequest.Mk (lit "invoices") [] in
  client_ok c /\ answered_by c f [] None /\ can_ask c req /\
  exists c', create_stream (Hplat := sample_platform) (io_thread (Hplat := sample_platform) [5])
      (lit "invoices") [] true 0 c = Some (ok tt, c') /\ exchange_done c c' req [] None.
Proof.
  cbn zeta. set (f := create_answer _). set (c := open_client _).
  assert (Hok : client_ok c).
  { apply (new_client_ok default_config (net c) ∅). unfold queue_ok. decided. }
  assert (Hf : answered_by c f [] None).
  { split; [reflexivity|]. split; [decided|]. split; [decided|]. split; vm_compute; reflexivity. }
  assert (Hask : can_ask c (CreateRequest.Mk (lit "invoices") [])).
  { split; [reflexivity|]. split; [vm_compute; reflexivity|]. split; [vm_compute; reflexivity|]. decided. }
  split; [exact Hok|]. split; [exact Hf|]. split; [exact Hask|].
  exact (proj1 (lifecycle_round_trip (P := sample_platform) c f [] None 0 5 (lit "invoices") [] [] true
    Hok Hf eq_refl) _ eq_refl Hask).
Defined.

(** Close a table of results: each row is an equation or an error with its kind. *)
Ltac solve_reply := repeat split; try done; try (eexists; repeat split; done).

(** C30.  What the responses mean.  A response body with code Ok succeeds (with the
    offset or sequence it carries); an idempotent create of an existing stream and
    an idempotent delete of a missing one succeed too, with the very same result, so
    that the caller cannot tell a stream it has created from one that existed
    (against the specification); a query of a reference without offset returns
    nothing; a missing or existing stream is the error of
    that name; and every other code is a [ServerError] that carries the code. *)
Theorem lifecycle_replies (stream : std_string) (idempotent : bool) (rc off : Z) (k : IncomingFrame)
  (Hrc : in_u 16 rc) (Hoff : in_u 64 off) :
  let frame {C} `{Command C} (c : C) := MkFrame (f_key k) (f_version k) (body_of c) (f_correlation_id k) in
  let other {A} (r : Result A) := exists e, r = err e /\ kind e = Kind.ServerError /\ server_code e = Some rc in
  let create := create_reply stream idempotent (frame (CreateResponse.Mk rc)) in
  let delete := delete_reply stream idempotent (frame (DeleteResponse.Mk rc)) in
  let offset := query_offset_reply stream (frame (QueryOffsetResponse.Mk rc off)) in
  let sequence := query_publisher_reply stream (frame (QueryPublisherResponse.Mk rc off)) in
  if decide (rc = response_code.Ok) then
    create = ok tt /\ delete = ok tt /\ offset = ok (Some off) /\ sequence = ok off
  else
    (if decide (rc = response_code.StreamAlreadyExists)
     then if idempotent then create = ok tt else fails_with Kind.StreamAlreadyExists create
     else other create) /\
    (if decide (rc = response_code.StreamDoesNotExist)
     then (if idempotent then delete = ok tt else fails_with Kind.StreamDoesNotExist delete) /\
          fails_with Kind.StreamDoesNotExist offset /\ fails_with Kind.StreamDoesNotExist sequence
     else other delete /\ other sequence /\
          (if decide (rc = response_code.NoOffset) then offset = ok None else other offset)).
Proof.
  cbn zeta. unfold create_reply, delete_reply, query_offset_reply, query_publisher_reply, fails_with.
  cbn [f_body].
  pose proof (decode_body_reader (CreateResponse.Mk rc) Hrc ltac:(cbn; zlen)) as H1.
  pose proof (decode_body_reader (DeleteResponse.Mk rc) Hrc ltac:(cbn; zlen)) as H2.
  pose proof (decode_body_reader (QueryOffsetResponse.Mk rc off) (conj Hrc Hoff) ltac:(cbn; zlen)) as H3.
  pose proof (decode_body_reader (QueryPublisherResponse.Mk rc off) (conj Hrc Hoff) ltac:(cbn; zlen)) as H4.
  cbn [Command.decode_body] in H1, H2, H3, H4.
  cbn [CreateResponse.command DeleteResponse.command QueryOffsetResponse.command
       QueryPublisherResponse.command Command.decode_body] in *.
  rewrite H1, H2, H3, H4. cbn.
  destruct (Z.eqb_spec rc response_code.Ok) as [->|H1']; [by rewrite decide_True|].
  rewrite (decide_False (P := rc = response_code.Ok)) by done.
  destruct (Z.eqb_spec rc response_code.StreamAlreadyExists) as [->|H2'].
  { rewrite decide_True, !decide_False by done. cbn. destruct idempotent; solve_reply. }
  rewrite (decide_False (P := rc = response_code.StreamAlreadyExists)) by done.
  destruct (Z.eqb_spec rc response_code.StreamDoesNotExist) as [->|H3'].
  { rewrite decide_True by done. cbn. destruct idempotent; solve_reply. }
  rewrite (decide_False (P := rc = response_code.StreamDoesNotExist)) by done.
  destruct (Z.eqb_spec rc response_code.NoOffset) as [->|H4'].
  { rewrite decide_True by done. solve_reply. }
  rewrite decide_False by done. solve_reply.
Qed.

Lemma lifecycle_replies_witness :
  in_u 16 response_code.NoOffset /\ in_u 64 7 /\
  query_offset_reply (lit "s")
    (MkFrame 0x800B 1 (body_of (QueryOffsetResponse.Mk response_code.NoOffset 7)) (Some 100)) = ok None.
Proof.
  assert (H1 : in_u 16 response_code.NoOffset) by decided. assert (H2 : in_u 64 7) by decided.
  split; [exact H1|]. split; [exact H2|].
  apply (lifecycle_replies (lit "s") false response_code.NoOffset 7 (MkFrame 0x800B 1 [] (Some 100)) H1 H2).
Defined.


(** A reference that is too long, and a client that can send it. *)
Definition long_reference : std_string := repeat 65 300.
Definition wide_client : Client := (open_client []) <| net := MkWorld [] (repeat (Sent 7) 400) [] [] |>.


(** The I/O thread is safe.  Whatever [read_frame] returns, a turn of the loop
    lets no exception escape (it satisfies no promise twice) and keeps the client's
    invariant; and when it ends the loop, because of a close, an error or a missed
    heartbeat, every request that was pending has been given a result. *)
Lemma io_turn_safe (r : Result IncomingFrame) (now : Z) (c : Client) (Hok : client_ok c) :
  exists ends c', io_turn r now c = Some (ends, c') /\ client_ok c' /\
    (ends = true -> all_resolved c' /\ pending_ (dispatcher_ c') = ∅).
Proof. by apply io_turn_ok. Qed.

Lemma io_turn_safe_witness :
  let c := open_client [] in
  let c1 := snd (register 100 50 c) in
  client_ok c /\
  exists ends c', io_turn (err (mk_error Kind.ConnectionClosed [])) 9 c = Some (ends, c') /\ ends = true /\
    all_resolved c'.
Proof.
  cbn zeta. assert (Hok : client_ok (open_client [])).
  { apply (new_client_ok default_config (net (open_client [])) ∅). constructor. }
  split; [exact Hok|].
  destruct (io_turn_safe (err (mk_error Kind.ConnectionClosed [])) 9 (open_client []) Hok)
    as (ends & c' & H1 & _ & H2).
  exists ends, c'. split; [exact H1|]. assert (ends = true) as -> by (vm_compute in H1; congruence).
  split; [reflexivity|]. apply H2. reflexivity.
Defined.

(** The unexpected-close event.  Over any run of the I/O loop the callback is
    called at most once, never if it has already fired on this connection, only
    when the loop ends, and while the client is closing only for a missed
    heartbeat. *)
Lemma unexpected_close_once {P : Platform} (clock : list Z) (c c' : Client) (ended : bool)
  (Hrun : io_loop clock c = Some (ended, c')) :
  exists evs, fired c' = fired c ++ evs /\ (length evs <= 1)%nat /\
    (unexpected_fired_ c = true -> evs = []) /\
    (ended = false -> evs = []) /\
    Forall (fun ev => on_unexpected_close_ c = Some ev.1 /\
              (closing_ c = true -> reason ev.2 = CloseReason.HeartbeatTimeout)) evs.
Proof.
  revert c Hrun. induction clock as [|now clock IH]; intros c; cbn [io_loop].
  { intros [= <- <-]. exists []. rewrite app_nil_r. auto. }
  destruct (io_iteration now c) as [[stop c1]|] eqn:E; [|done]. cbn [mbind option_bind].
  pose proof (io_iteration_kept _ _ _ _ E) as (_ & _ & _ & _ & _ & Hclosing & _).
  assert (Hcalls : exists evs, callback_calls c c1 stop evs).
  { revert E. unfold io_iteration.
    destruct (stop_io_ c); [intros [= <- <-]; exists []; by apply same_callback_calls|].
    rewrite on_net_eq. destruct (read_frame (net c)) as [[r w]|]; [|done]. cbn [mbind option_bind].
    intros [evs H]%io_turn_calls. exists evs. exact H. }
  destruct Hcalls as (evs & Hf & Hl & Hu & Hev & Hs). destruct stop.
  - intros [= <- <-]. exists evs. split; [unfold io_exit; by destruct (_ && _)|].
    do 2 (split; [done|]). by split.
  - destruct (Hs eq_refl) as [-> (Hf1 & Hu1 & Hcb1)].
    intros H%IH. rewrite Hf1, Hu1, Hcb1, Hclosing in H. exact H.
Qed.

Lemma unexpected_close_once_witness :
  let c := on_unexpected_close 3 (open_client [Data [0; 0]; Eof]) in
  let evs := [(3%nat, MkUnexpectedClose CloseReason.PeerClosedSocket (lit "peer closed connection") false)] in
  exists c', io_loop (Hplat := sample_platform) [1; 2] c = Some (true, c') /\ fired c' = evs /\
    exists evs, fired c' = fired c ++ evs /\ (length evs <= 1)%nat.
Proof.
  cbn zeta. eexists. split; [vm_compute; reflexivity|]. split; [reflexivity|].
  destruct (unexpected_close_once (P := sample_platform) [1; 2]
    (on_unexpected_close 3 (open_client [Data [0; 0]; Eof])) _ true eq_refl) as (evs & H1 & H2 & _).
  exists evs. split; [exact H1|exact H2].
Defined.

(** C32.  A failed read ends the connection.  On any error other than a timeout the
    loop ends, every pending request is given that very error, every other promise
    keeps its result, and unless the client is closing (or has already fired) the
    callback is told why: the peer closed the socket, or an I/O error. *)
Theorem read_failure (c : Client) (e : StreamError) (now : Z)
  (Hok : client_ok c) (He : kind e <> Kind.RequestTimeout) :
  exists c', io_turn (err e) now c = Some (true, c') /\
    promises (dispatcher_ c')
    = (fun p => match p with Unset => Satisfied (err e) | _ => p end) <$> promises (dispatcher_ c) /\
    fired c' = fired c ++
      (if closing_ c || unexpected_fired_ c then []
       else from_option (fun cb => [(cb, MkUnexpectedClose
              (if bool_decide (kind e = Kind.ConnectionClosed) then CloseReason.PeerClosedSocket
               else CloseReason.IoError) (message e) false)]) [] (on_unexpected_close_ c)).
Proof.
  destruct (io_turn_ok (err e) now c Hok) as (b & c' & Ht & _).
  pose proof Ht as (c1 & (Hf & Hu & Hcb) & H)%io_turn_events.
  assert (Hp : b = true /\ exists d, fail_all_pending e (dispatcher_ c) = Some d /\ dispatcher_ c' = d).
  { revert Ht. unfold io_turn, fail_pending. rewrite bool_decide_eq_false_2 by done.
    destruct (fail_all_pending _ _) as [d|]; [|done]. cbn [mbind option_bind].
    intros Heq. injection Heq as <- Heq. split; [done|]. exists d. split; [done|].
    rewrite <- Heq. destruct (negb _); [by rewrite (proj1 (notify_frame _ _))|done]. }
  destruct Hp as (-> & d & Hd & <-). exists c'. split; [done|]. split.
  - destruct Hok as ((l & Hr) & _). by eapply fail_all_promises.
  - rewrite bool_decide_eq_false_2 in H by done. cbn [andb orb] in H.
    destruct (closing_ c); cbn [negb orb] in *; [subst; by rewrite app_nil_r|].
    rewrite H. destruct (notify_fired (close_event e) c1) as [Hn _]. rewrite Hn, Hf, Hu, Hcb.
    f_equal. unfold close_event. rewrite (bool_decide_eq_false_2 (kind e = Kind.RequestTimeout)) by done.
    done.
Qed.

Lemma read_failure_witness :
  let c := on_unexpected_close 3 (register 100 50 (take_cid (open_client [])).2).2 in
  let e := mk_error Kind.IoError (lit "recv: reset") in
  client_ok c /\ kind e <> Kind.RequestTimeout /\
  exists c', io_turn (err e) 9 c = Some (true, c') /\ promises (dispatcher_ c') = [Satisfied (err e)] /\
    fired c' = [(3%nat, MkUnexpectedClose CloseReason.IoError (lit "recv: reset") false)].
Proof.
  cbn zeta. set (e := mk_error _ _). set (c := on_unexpected_close 3 _).
  assert (He : kind e <> Kind.RequestTimeout) by discriminate.
  assert (Hok : client_ok (open_client [])).
  { apply (new_client_ok default_config (net (open_client [])) ∅). constructor. }
  assert (Hc : client_ok c) by exact (proj1 (proj2 (proj2 (register_ok (open_client []) 50 Hok eq_refl)))).
  split; [exact Hc|]. split; [exact He|].
  destruct (read_failure c e 9 Hc He) as (c' & H1 & H2 & H3).
  exists c'. split; [exact H1|]. split; [exact H2|exact H3].
Defined.

(** C20.  Graceful close.  Let an open client have a socket ready to take the close
    request and a counter of correlation ids that does not wrap around.  Whatever the
    other threads do while [close] waits for the response, while it joins them and
    after it has failed the pending requests, closing the client returns success and
    leaves it closed: the stop flag set, both threads joined, and the socket closed
    (its descriptor and no other).  At the moment [c1] when it fails the pending
    requests none is left in the table and every promise is resolved, and stays so:
    every request made before [close] has its result.  What the table holds in the
    end was put there later, by callers that had passed [require_open] before. *)
Theorem close_spec {P : Platform} (others threads_end late : Client -> Client) (c : Client) (now : Z)
  (Hok : client_ok c) (Hopen : state_ c = ConnectionState.Open) (Hnw : next_app_cid_ c + 1 < 2 ^ 32)
  (Hready : ready (net c) (length (request close_request (next_app_cid_ c))))
  (Hothers : forall c, rtc activity c (others c)) (Hend : forall c, rtc activity c (threads_end c))
  (Hlate : forall c, rtc activity c (late c)) :
  exists c1 c', close others threads_end late now c = Some (ok tt, c') /\
    state_ c' = ConnectionState.Closed /\ stop_io_ c' = true /\
    io_thread_ c' = false /\ heartbeat_thread_ c' = false /\
    sock_ c' = Sock.empty /\ fds c' = (Sock.close (sock_ c) (fds c)).2 /\
    pending_ (dispatcher_ c1) = ∅ /\ all_resolved c1 /\ dispatcher_ c' = dispatcher_ (late c1) /\
    (forall n, (n < length (promises (dispatcher_ c)))%nat ->
       exists p, p <> Unset /\ promises (dispatcher_ c1) !! n = Some p /\ promises (dispatcher_ c') !! n = Some p).
Proof.
  unfold close. rewrite bool_decide_eq_true_2 by done. cbn [negb].
  set (c0 := c <| state_ := ConnectionState.Closing |> <| closing_ := true |>).
  assert (Hok0 : client_ok c0) by exact Hok.
  pose proof (register_ok c0 (now + ms (request_timeout (cfg_ c0))) Hok0 Hnw) as H.
  destruct (take_cid c0) as [cid c1] eqn:Et. cbn [take_cid] in Et. injection Et as Hcid Hc1.
  assert (Hcfg : cfg_ c1 = cfg_ c0) by by rewrite <- Hc1. rewrite Hcfg.
  destruct (register cid _ c1) as [fut c2]. destruct H as (-> & -> & Hok2 & _ & _ & Hp2 & Hc2).
  assert (Hlen2 : (length (promises (dispatcher_ c)) <= length (promises (dispatcher_ c2)))%nat).
  { rewrite Hp2, length_app. apply Nat.le_add_r. }
  assert (Hwrite : exists r c3, (if writer_ c2 then on_net (write_all
      (encode_request_frame CloseRequest.kKey CloseRequest.kVersion (next_app_cid_ c0) (body_of close_request))) c2
    else Some (ok tt, c2)) = Some (r, c3) /\ client_ok c3 /\ dispatcher_ c3 = dispatcher_ c2 /\ kept c2 c3).
  { destruct (writer_ c2); [|do 2 eexists; do 3 (split; [done|]); apply kept_refl].
    destruct (on_net (write_all _) c2) as [[r c3]|] eqn:E.
    - do 2 eexists. split; [done|]. split; [by eapply on_net_write_ok|].
      split; [by eapply on_net_dispatcher|by eapply on_net_kept].
    - exfalso. revert E. rewrite on_net_eq. assert (net c2 = net c) as -> by by rewrite Hc2.
      unfold write_all. destruct Hready as [Hp Hl].
      destruct (write_loop_progress _ _ (outbox (net c)) Hp Hl) as (s & out & Hw & _).
      change (encode_request_frame _ _ _ _) with (request close_request (next_app_cid_ c)).
      by rewrite Hw. }
  destruct Hwrite as (r & c3 & -> & Hok3 & Hd3 & Hk3). cbn [mbind option_bind].
  destruct (activities_ok _ _ (Hothers c3) Hok3) as [Hok4 Hk4]. set (c4 := others c3) in *.
  assert (Hk : kept c2 c4) by by eapply kept_trans.
  destruct Hk as (_ & Hsock & Hfds & _ & _ & _ & _ & _).
  change (sock_ (c4 <| stop_io_ := true |>)) with (sock_ c4).
  change (fds (c4 <| stop_io_ := true |>)) with (fds c4).
  assert (Hs2 : sock_ c2 = sock_ c) by by rewrite Hc2. assert (Hf2 : fds c2 = fds c) by by rewrite Hc2.
  rewrite Hsock, Hfds, Hs2, Hf2. pose proof (close_socket (sock_ c) (fds c)) as Hclose.
  destruct (Sock.close (sock_ c) (fds c)) as [sock os]. cbn in Hclose. subst sock.
  set (c5 := c4 <| stop_io_ := true |> <| sock_ := Sock.empty |> <| fds := os |>).
  assert (Hok5 : client_ok c5) by exact Hok4.
  destruct (activities_ok _ _ (Hend c5) Hok5) as [Hok6 Hk6]. unfold join_threads.
  set (c6 := threads_end c5) in *. destruct Hk6 as (_ & Hsock6 & Hfds6 & _ & Hstop6 & _).
  set (c7 := c6 <| io_thread_ := false |> <| heartbeat_thread_ := false |>).
  assert (Hok7 : client_ok c7) by exact Hok6.
  destruct (fail_pending_ok connection_closed c7 Hok7) as (c8 & Hf8 & Hok8 & Hall & Hp & Hc8). rewrite Hf8.
  cbn [mbind option_bind]. exists c8. eexists. split; [done|]. split; [done|].
  destruct (activities_ok _ _ (Hlate c8) Hok8) as [Hok9 (_ & Hsock9 & Hfds9 & _ & Hstop9 & _ & _ & Hio9 & Hht9 & _)].
  set (c9 := late c8) in *. change (sock_ (log_info _ _)) with (sock_ c9). change (fds (log_info _ _)) with (fds c9).
  change (dispatcher_ (log_info _ _)) with (dispatcher_ c9). change (stop_io_ (log_info _ _)) with (stop_io_ c9).
  change (io_thread_ (log_info _ _)) with (io_thread_ c9). change (heartbeat_thread_ (log_info _ _)) with (heartbeat_thread_ c9).
  rewrite Hstop9, Hsock9, Hfds9, Hio9, Hht9. split_and!; try (by rewrite Hc8); try done.
  intros n Hn.
  assert (Hlen : (length (promises (dispatcher_ c)) <= length (promises (dispatcher_ c8)))%nat).
  { etransitivity; [exact Hlen2|]. rewrite <- Hd3. etransitivity; [apply (activities_results _ _ (Hothers c3) Hok3)|].
    etransitivity; [apply (activities_results _ _ (Hend c5) Hok5)|]. by eapply (results_kept_fail _ c7). }
  destruct (lookup_lt_is_Some_2 (promises (dispatcher_ c8)) n) as [p Hp8]; [lia|]. exists p.
  assert (Hne : p <> Unset) by exact (Forall_lookup_1 _ _ _ _ Hall Hp8).
  split; [done|]. split; [done|]. by apply (activities_results c8 c9 (Hlate c8) Hok8).
Qed.

(** A caller that was let in before [close] began, and registers its request when
    [close] has failed the others. *)
Definition late_request (c : Client) : Client :=
  if negb (Sock.valid (sock_ c)) && (next_app_cid_ c + 1 <? 2 ^ 32) then
    cut_after [] 0 ((register (next_app_cid_ c) 50 (take_cid c).2).2 <| last_outbound_at_ := 6 |>)
  else c.

Lemma late_request_activity c : rtc (activity (Hplat := sample_platform)) c (late_request c).
Proof.
  unfold late_request. destruct (Sock.valid (sock_ c)) eqn:Hs; [reflexivity|]. cbn [negb andb].
  destruct (Z.ltb_spec (next_app_cid_ c + 1) (2 ^ 32)); [|reflexivity]. apply rtc_once.
  by apply (act_send_closed (Hplat := sample_platform) [] 50 6 0 c).
Qed.

Lemma close_spec_witness :
  let c := open_client [] in
  let others := io_thread (Hplat := sample_platform) [7] in
  client_ok c /\ state_ c = ConnectionState.Open /\
  exists c', close (Hplat := sample_platform) others others late_request 5 c = Some (ok tt, c') /\
    state_ c' = ConnectionState.Closed /\
    promises (dispatcher_ c') = [Satisfied (err connection_closed); Unset].
Proof.
  cbn zeta. assert (Hok : client_ok (open_client [])).
  { apply (new_client_ok default_config (net (open_client [])) ∅). constructor. }
  split; [exact Hok|]. split; [reflexivity|].
  assert (Hready : ready (net (open_client [])) (length (request close_request 100))) by decided.
  destruct (close_spec (P := sample_platform) (io_thread (Hplat := sample_platform) [7])
    (io_thread (Hplat := sample_platform) [7]) late_request (open_client []) 5 Hok eq_refl eq_refl Hready
    (io_thread_activity (Hplat := sample_platform) [7]) (io_thread_activity (Hplat := sample_platform) [7])
    late_request_activity) as (c1 & c' & H1 & H2 & _).
  exists c'. split; [exact H1|]. split; [exact H2|]. vm_compute in H1. injection H1 as <-. reflexivity.
Defined.

Lemma set_half_heartbeat_eq hb c : exists rt, set_half_heartbeat hb c = c <| recv_timeout := rt |>.
Proof.
  unfold set_half_heartbeat. destruct (hb >? 0); [by eexists|]. exists (recv_timeout c). by destruct c.
Qed.

Lemma connection_opened_spec `{Hplat : Platform} hs now c :
  let c' := connection_opened hs now c in
  state_ c' = ConnectionState.Open /\ closing_ c' = false /\ stop_io_ c' = false /\
  sock_ c' = sock_ c /\ fds c' = fds c /\ inbox (net c') = inbox (net c) /\
  outbox (net c') = outbox (net c) /\ negotiated_frame_max_ c' = negotiated_frame_max hs /\
  negotiated_heartbeat_ c' = negotiated_heartbeat hs /\ io_thread_ c' = true /\
  heartbeat_thread_ c' = (if negotiated_heartbeat hs >? 0 then true else heartbeat_thread_ c).
Proof.
  cbn zeta. unfold connection_opened.
  destruct (set_half_heartbeat_eq (negotiated_heartbeat hs)
    (c <| negotiated_frame_max_ := negotiated_frame_max hs |>
       <| negotiated_heartbeat_ := negotiated_heartbeat hs |>
       <| server_props_ := server_properties hs |>
       <| conn_props_ := hs_connection_properties hs |>)) as [rt Hrt].
  change (negotiated_heartbeat_ (_ <| conn_props_ := _ |>)) with (negotiated_heartbeat hs).
  rewrite Hrt. clear Hrt.
  change (negotiated_heartbeat_ (_ <| io_thread_ := _ |>)) with (negotiated_heartbeat hs).
  generalize (virtual_host (cfg_ c)). intros _.
  destruct (negotiated_heartbeat hs >? 0); unfold log_info; destruct c; repeat split.
Qed.

(** Once the TCP connection is established, [connect] is the handshake on it. *)
Lemma connect_tcp `{Hplat : Platform} getaddrinfo answers now c s os :
  validate (cfg_ c) = ok tt -> state_ c = ConnectionState.Disconnected -> sock_ c = Sock.empty ->
  connect_with_timeout (host (cfg_ c)) (port (cfg_ c)) (connect_timeout (cfg_ c))
    (default_resolve_host getaddrinfo) answers (fds c) = (ok s, os) ->
  exists c2, cfg_ c2 = cfg_ c /\ heartbeat_thread_ c2 = heartbeat_thread_ c /\
    sock_ c2 = MkSocket (fd_ s) /\ fds c2 = os /\ inbox (net c2) = inbox (net c) /\
    sends (net c2) = sends (net c) /\ outbox (net c2) = outbox (net c) /\
    connect getaddrinfo answers now c =
      match run_handshake (cfg_ c) (net c2) with
      | None => None
      | Some (err e, w) =>
          let '(sock, os) := Sock.close (sock_ c2) (fds c2) in
          Some (err e, c2 <| net := w |> <| sock_ := sock |> <| fds := os |> <| state_ := ConnectionState.Closed |>)
      | Some (ok hs, w) => Some (ok tt, connection_opened hs now (c2 <| net := w |>))
      end.
Proof.
  intros Hv Hst Hsock Hc. unfold connect. rewrite Hv, bool_decide_eq_true_2 by done. cbn [negb].
  set (c1 := log_info _ _). change (cfg_ c1) with (cfg_ c). change (fds c1) with (fds c). rewrite Hc.
  change (sock_ c1) with (sock_ c). rewrite Hsock. unfold Sock.assign.
  change (Sock.close Sock.empty os) with (Sock.empty, os). cbn [Sock.release]. rewrite on_net_eq.
  destruct (set_half_heartbeat_eq (requested_heartbeat_seconds (cfg_ (c1 <| sock_ := MkSocket (fd_ s) |> <| fds := os |>)))
    (c1 <| sock_ := MkSocket (fd_ s) |> <| fds := os |>)) as [rt Hrt].
  rewrite Hrt. clear Hrt. set (c2 := _ <| writer_ := true |>). exists c2. repeat (split; [done|]).
  change (cfg_ c2) with (cfg_ c). destruct (run_handshake _ _) as [[[hs|e] w]|]; done.
Qed.

(** An attempt to connect, on a client that has not been used. *)
Lemma connect_attempted `{Hplat : Platform} getaddrinfo answers now c c' r :
  sock_ c = Sock.empty -> heartbeat_thread_ c = false -> inbox_ok (net c) ->
  (forall addr, fds c !! a_socket (answers addr) = None) ->
  validate (cfg_ c) = ok tt -> state_ c = ConnectionState.Disconnected ->
  connect getaddrinfo answers now c = Some (r, c') ->
  match r with
  | err e => state_ c' = ConnectionState.Closed /\ sock_ c' = Sock.empty /\ fds c' = fds c
  | ok _ =>
      state_ c' = ConnectionState.Open /\ closing_ c' = false /\ stop_io_ c' = false /\
      (exists flags, fds c !! fd_ (sock_ c') = None /\ fds c' = <[fd_ (sock_ c') := flags]> (fds c)) /\
      (exists i o rest t hs, x_handshake (cfg_ c) i o hs /\
         stream (inbox (net c)) = (i ++ rest, t) /\ stream (inbox (net c')) = (rest, t) /\
         outbox (net c') = outbox (net c) ++ o /\
         negotiated_frame_max_ c' = negotiated_frame_max hs /\
         negotiated_heartbeat_ c' = negotiated_heartbeat hs) /\
      io_thread_ c' = true /\ heartbeat_thread_ c' = (0 <? negotiated_heartbeat_ c') /\
      fd_ (sock_ c') <> kInvalidFd
  end.
Proof.
  intros Hsock Hthread Hin Hfresh Hv Hst Hrun.
  destruct (connect_with_timeout (host (cfg_ c)) (port (cfg_ c)) (connect_timeout (cfg_ c))
    (default_resolve_host getaddrinfo) answers (fds c)) as [[s|e] os] eqn:Ec.
  2: { pose proof Ec as Hos. apply connect_with_timeout_fds in Hos; [|done]. subst os. revert Hrun.
       unfold connect. rewrite Hv, bool_decide_eq_true_2 by done. cbn [negb].
       set (c1 := log_info _ _). change (cfg_ c1) with (cfg_ c). change (fds c1) with (fds c). rewrite Ec.
       by intros [= <- <-]. }
  destruct (connect_tcp getaddrinfo answers now c s os Hv Hst Hsock Ec)
    as (c2 & Hcfg2 & Hh2 & Hs2 & Hf2 & Hi2 & Hsd2 & Ho2 & Hc). rewrite Hc in Hrun. clear Hc.
  apply connect_with_timeout_fds in Ec; [|done]. destruct Ec as (Hnone & Hfd & flags & ->).
  destruct (run_handshake (cfg_ c) (net c2)) as [[[hs|e] w]|] eqn:Eh; [| |done].
  - assert (Hin2 : inbox_ok (net c2)) by (unfold inbox_ok; by rewrite Hi2).
    destruct (performs_sound (performs := performs_handshake (cfg_ c)) (net c2) w hs Hin2 Eh)
      as (i & o & Hx & (rest & t & Hi & Hi') & Ho). injection Hrun as <- <-.
    destruct (connection_opened_spec hs now (c2 <| net := w |>))
      as (H1 & H2 & H3 & Hs3 & Hf3 & Hi3 & Ho3 & Hfm & Hhb & H4 & H5).
    cbn in Hs3, Hf3, Hi3, Ho3. change (heartbeat_thread_ (c2 <| net := w |>)) with (heartbeat_thread_ c2) in H5.
    rewrite Hs3, Hf3, Hi3, Ho3, Hhb, H5. cbn. split; [done|]. split; [done|]. split; [done|].
    change (sock_ (c2 <| net := w |>)) with (sock_ c2). change (fds (c2 <| net := w |>)) with (fds c2).
    rewrite Hs2, Hf2, Hh2, Hthread. split; [by exists flags|]. split.
    { exists i, o, rest, t, hs. rewrite Hi2 in Hi. rewrite Ho2 in Ho. done. }
    split; [done|]. split; [rewrite Z.gtb_ltb; by destruct (0 <? negotiated_heartbeat hs)|]. clear - Hfd. unfold kInvalidFd. cbn. lia.
  - rewrite Hs2, Hf2 in Hrun. revert Hrun. unfold Sock.close. cbn [fd_].
    replace (fd_ s =? kInvalidFd) with false by (symmetry; apply Z.eqb_neq; unfold kInvalidFd; lia). cbn [negb].
    intros [= <- <-]. split; [done|]. split; [done|]. by apply delete_insert_id.
Qed.

(** C21.  Connecting.  An invalid configuration, or a client that has been used
    before, is refused without any I/O.  Otherwise a failure (resolution, TCP
    connection or handshake) leaves the client closed, with no descriptor of the
    attempt left open; and success leaves it open on one new descriptor, after a
    complete and accepted handshake whose negotiated values it keeps, with the I/O
    thread started and the heartbeat thread exactly when a heartbeat was
    negotiated. *)
Theorem connect_spec {P : Platform} (getaddrinfo : std_string -> std_string -> Z + list ResolvedAddr)
  (answers : ResolvedAddr -> Attempt) (now : Z) (c c' : Client) (r : Result unit)
  (Hsock : sock_ c = Sock.empty) (Hthread : heartbeat_thread_ c = false) (Hin : inbox_ok (net c))
  (Hfresh : forall addr, fds c !! a_socket (answers addr) = None)
  (Hrun : connect getaddrinfo answers now c = Some (r, c')) :
  match validate (cfg_ c) with
  | err e => r = err e /\ c' = c
  | ok _ =>
      if decide (state_ c = ConnectionState.Disconnected) then
        match r with
        | err e => state_ c' = ConnectionState.Closed /\ sock_ c' = Sock.empty /\ fds c' = fds c
        | ok _ =>
            state_ c' = ConnectionState.Open /\ closing_ c' = false /\ stop_io_ c' = false /\
            (exists flags, fds c !! fd_ (sock_ c') = None /\ fds c' = <[fd_ (sock_ c') := flags]> (fds c)) /\
            (exists i o rest t hs, x_handshake (cfg_ c) i o hs /\
               stream (inbox (net c)) = (i ++ rest, t) /\ stream (inbox (net c')) = (rest, t) /\
               outbox (net c') = outbox (net c) ++ o /\
               negotiated_frame_max_ c' = negotiated_frame_max hs /\
               negotiated_heartbeat_ c' = negotiated_heartbeat hs) /\
            io_thread_ c' = true /\ heartbeat_thread_ c' = (0 <? negotiated_heartbeat_ c')
        end
      else r = err already_open /\ c' = c
  end.
Proof.
  destruct (validate (cfg_ c)) as [[]|e] eqn:Hv; [|revert Hrun; unfold connect; rewrite Hv; by intros [= <- <-]].
  case_decide as Hst.
  - pose proof (connect_attempted getaddrinfo answers now c c' r Hsock Hthread Hin Hfresh Hv Hst Hrun) as H.
    destruct r; [|done]. naive_solver.
  - revert Hrun. unfold connect. rewrite Hv, bool_decide_eq_false_2 by done. by intros [= <- <-].
Qed.

(** A server for [connect]: one address, connected at once. *)
Definition local_host : std_string -> std_string -> Z + list ResolvedAddr := fun _ _ => inr [MkAddr 2 1 6 []].
Definition connected_at_once : Attempt := MkAttempt 5 2 0 0 EINTR (fun _ => 0) 0 0 0.

Lemma connect_spec_witness :
  let c := new_client default_config (sample_world server_side) ∅ in
  exists c', connect (Hplat := sample_platform) local_host (fun _ => connected_at_once) 9 c
    = Some (ok tt, c') /\ fd_ (sock_ c') = 5 /\
    state_ c' = ConnectionState.Open /\ closing_ c' = false /\ stop_io_ c' = false.
Proof.
  cbn zeta. set (c := new_client _ _ _).
  assert (Hin : inbox_ok (net c)) by (unfold inbox_ok; decided).
  assert (Hf : forall addr : ResolvedAddr, fds c !! a_socket connected_at_once = None)
    by (intros; apply lookup_empty).
  destruct (connect (Hplat := sample_platform) local_host (fun _ => connected_at_once) 9 c)
    as [[r c']|] eqn:E; [|vm_compute in E; discriminate E].
  pose proof (connect_spec (P := sample_platform) local_host (fun _ => connected_at_once) 9 c c' r
    eq_refl eq_refl Hin Hf E) as H.
  assert (Hr : r = ok tt /\ fd_ (sock_ c') = 5) by (vm_compute in E; injection E as <- <-; split; reflexivity).
  destruct Hr as [-> Hfd]. exists c'. split; [reflexivity|]. split; [exact Hfd|].
  cbn [validate] in H. destruct H as (H1 & H2 & H3 & _). split; [exact H1|]. split; [exact H2|exact H3].
Defined.

(** C37.  A request larger than the negotiated limit is refused with
    [ProtocolViolation] before a byte of it is sent; but the request has already
    been registered, and stays in the table, unresolved, until it expires or the
    connection ends. *)
Theorem oversized_request {P : Platform} {C A} `{Command C} (others : Client -> Client) (req : C)
  (reply : IncomingFrame -> Result A) (now : Z) (c : Client)
  (Hok : client_ok c) (Hnw : next_app_cid_ c + 1 < 2 ^ 32)
  (Hbig : ~ fits (request req (next_app_cid_ c)) (negotiated_frame_max_ c)) :
  exists e c', request_reply others req now reply c = Some (err e, c') /\
    kind e = Kind.ProtocolViolation /\ net c' = net c /\ client_ok c' /\
    exists entry, pending_ (dispatcher_ c') !! next_app_cid_ c = Some entry /\
      promises (dispatcher_ c') !! promise entry = Some Unset.
Proof.
  unfold request_reply, send_and_wait, send_part.
  pose proof (register_ok c (now + ms (request_timeout (cfg_ c))) Hok Hnw) as Hreg.
  destruct (take_cid c) as [cid c1] eqn:Et. cbn [take_cid] in Et. injection Et as Hcid Hc1.
  assert (Hcfg : cfg_ c1 = cfg_ c) by by rewrite <- Hc1. rewrite Hcfg.
  destruct (register cid _ c1) as [fut c2]. destruct Hreg as (-> & -> & Hok2 & _ & Hp & Hpr & Hc2).
  assert (Hfm : negotiated_frame_max_ c2 = negotiated_frame_max_ c) by by rewrite Hc2.
  unfold fits, request in Hbig. rewrite Hfm.
  destruct (check_outbound_frame_size _ _) as [[]|e] eqn:E; [done|]. cbn [mbind option_bind].
  exists e, c2. split; [done|]. split.
  { revert E. unfold check_outbound_frame_size. destruct (_ =? 0); [done|].
    destruct (_ >? _); [|done]. by intros [= <-]. }
  split; [by rewrite Hc2|]. split; [done|]. eexists. split; [rewrite Hp; apply lookup_insert_eq|].
  rewrite Hpr. cbn. by rewrite list_lookup_middle.
Qed.

Lemma oversized_request_witness :
  let c := (open_client []) <| negotiated_frame_max_ := 16 |> in
  let req := DeleteRequest.Mk (lit "a rather long stream name") in
  client_ok c /\ ~ fits (request req 100) 16 /\
  exists e c', request_reply (Hplat := sample_platform) id req 0 (delete_reply [] false) c = Some (err e, c') /\
    kind e = Kind.ProtocolViolation /\ net c' = net c.
Proof.
  cbn zeta. assert (Hok : client_ok ((open_client []) <| negotiated_frame_max_ := 16 |>)).
  { apply (new_client_ok default_config (net (open_client [])) ∅). constructor. }
  assert (Hbig : ~ fits (request (DeleteRequest.Mk (lit "a rather long stream name")) 100) 16)
    by (vm_compute; discriminate).
  split; [exact Hok|]. split; [exact Hbig|].
  destruct (oversized_request (P := sample_platform) id (DeleteRequest.Mk (lit "a rather long stream name"))
    (delete_reply [] false) 0 _ Hok eq_refl Hbig) as (e & c' & H1 & H2 & H3 & _).
  exists e, c'. split; [exact H1|]. split; [exact H2|exact H3].
Defined.

(** C33.  The heartbeat watchdog and the heartbeat sender.  When a read times out,
    the loop ends exactly if a heartbeat was negotiated and nothing has been
    received for more than twice its interval: every pending request is then given
    [ConnectionClosed]; otherwise the requests whose deadline has been reached get a
    [RequestTimeout] and leave the table, and every other promise and entry stays as
    it is.  When the stop flag is not set and nothing has been sent for the interval,
    the heartbeat thread writes the Heartbeat frame, all of it to a socket that is
    ready and otherwise as much of it as the failing write has sent, and records the
    time; in all other cases it does nothing. *)
Theorem heartbeat_timers {P : Platform} (c : Client) (e : StreamError) (now : Z)
  (Hok : client_ok c) (He : kind e = Kind.RequestTimeout) :
  (let missed := bool_decide (0 < negotiated_heartbeat_ c /\
                   now - last_inbound_at_ c > 2 * seconds (negotiated_heartbeat_ c)) in
   exists c', io_turn (err e) now c = Some (missed, c') /\
     if missed then
       promises (dispatcher_ c')
       = (fun p => match p with Unset => Satisfied (err heartbeat_timeout) | _ => p end) <$> promises (dispatcher_ c)
     else
       pending_ (dispatcher_ c')
       = filter (fun kv => is_expired now kv.2 = false) (pending_ (dispatcher_ c)) /\
       (forall cid e, pending_ (dispatcher_ c) !! cid = Some e ->
          promises (dispatcher_ c') !! promise e
          = Some (if now >=? deadline e then Satisfied (err request_timed_out) else Unset)) /\
       (forall n, (forall cid e, pending_ (dispatcher_ c) !! cid = Some e -> promise e = n -> now < deadline e) ->
          promises (dispatcher_ c') !! n = promises (dispatcher_ c) !! n)) /\
  (let beat := oneway_frame Heartbeat.Mk in
   if bool_decide (stop_io_ c = false /\ writer_ c = true /\
                   seconds (negotiated_heartbeat_ c) <= now - last_outbound_at_ c)
   then
     (ready (net c) (length beat) -> exists c', heartbeat_tick now c = Some c' /\
        outbox (net c') = outbox (net c) ++ beat /\ c' = c <| net := net c' |> <| last_outbound_at_ := now |>) /\
     (forall c', heartbeat_tick now c = Some c' ->
        c' = c <| net := net c' |> <| last_outbound_at_ := now |> /\
        exists r sent rest, write_all beat (net c) = Some (r, net c') /\
          beat = sent ++ rest /\ outbox (net c') = outbox (net c) ++ sent /\ (rest = [] <-> r = ok tt))
   else heartbeat_tick now c = Some c).
Proof.
  split.
  - cbn zeta. unfold io_turn, dead_interval. rewrite (bool_decide_eq_true_2 _ He).
    assert (Hb : (negotiated_heartbeat_ c >? 0) && (now - last_inbound_at_ c >?
        (if negotiated_heartbeat_ c >? 0 then seconds (negotiated_heartbeat_ c * 2) else seconds (24 * 365 * 3600)))
      = bool_decide (0 < negotiated_heartbeat_ c /\ now - last_inbound_at_ c > 2 * seconds (negotiated_heartbeat_ c))).
    { symmetry. unfold seconds. destruct (Z.gtb_spec (negotiated_heartbeat_ c) 0) as [Hpos|]; cbn [andb].
      - destruct (Z.gtb_spec (now - last_inbound_at_ c) (negotiated_heartbeat_ c * 2 * 1000000000));
          [apply bool_decide_eq_true_2|apply bool_decide_eq_false_2]; lia.
      - apply bool_decide_eq_false_2. lia. }
    rewrite Hb. case_bool_decide.
    + unfold fail_pending. pose proof Hok as ((l & Hr) & _).
      destruct (fail_all_refines _ l heartbeat_timeout Hr) as (d & Hd & _). rewrite Hd. cbn [mbind option_bind].
      eexists. split; [done|]. rewrite (proj1 (notify_frame _ _)). by eapply fail_all_promises.
    + pose proof Hok as ((l & Hr) & _). destruct (reap_ok now c Hok) as (c1 & Hc1 & _ & _ & Hp). rewrite Hc1.
      cbn [mbind option_bind]. exists c1. split; [done|]. split; [exact Hp|]. unfold reap in Hc1.
      destruct (reap_expired now _) as [[n d]|] eqn:E; [|done]. injection Hc1 as <-. by eapply reap_promises.
  - cbn zeta. unfold heartbeat_tick. destruct (stop_io_ c); cbn [negb].
    { by rewrite bool_decide_eq_false_2 by naive_solver. }
    destruct (Z.geb_spec (now - last_outbound_at_ c) (seconds (negotiated_heartbeat_ c))) as [Hge|Hlt].
    2: { by rewrite bool_decide_eq_false_2 by lia. }
    destruct (writer_ c).
    2: { by rewrite bool_decide_eq_false_2 by naive_solver. }
    rewrite bool_decide_eq_true_2 by done. rewrite on_net_eq. unfold write_all. split.
    + intros [Hsend Hlen]. destruct (write_loop_progress _ _ (outbox (net c)) Hsend Hlen) as (s & out & Hw & _).
      rewrite Hw. cbn [mbind option_bind]. eexists. split; [done|]. split; [|done].
      apply write_loop_spec in Hw as (sent & rest & -> & -> & ->). cbn. by rewrite app_nil_r.
    + intros c'. destruct (write_loop _ _ _) as [[[r s] out]|] eqn:Ew; [|done]. cbn [mbind option_bind].
      apply write_loop_spec in Ew as (sent & rest & Hs & -> & Hr).
      intros [= <-]. split; [done|]. exists r, sent, rest. split_and!; try done.
      destruct r as [[]|e']; [done|]. split; [by intros ->; destruct Hr|done].
Qed.

Lemma heartbeat_timers_witness :
  let c := (open_client []) <| negotiated_heartbeat_ := 30 |> in
  let e := mk_error Kind.RequestTimeout (lit "recv timeout") in
  client_ok c /\ kind e = Kind.RequestTimeout /\
  (exists c', io_turn (err e) (seconds 61) c = Some (true, c')) /\
  (exists c', io_turn (err e) (seconds 60) c = Some (false, c')) /\
  (exists c', heartbeat_tick (Hplat := sample_platform) (seconds 30) c = Some c' /\
     outbox (net c') = [0; 0; 0; 4; 0; 23; 0; 1] /\ last_outbound_at_ c' = seconds 30) /\
  heartbeat_tick (Hplat := sample_platform) (seconds 30 - 1) c = Some c.
Proof.
  cbn zeta. set (c := _ <| negotiated_heartbeat_ := 30 |>). set (e := mk_error _ _).
  assert (Hok : client_ok c).
  { apply (new_client_ok default_config (net (open_client [])) ∅). constructor. }
  split; [exact Hok|]. split; [reflexivity|]. split; [|split; [|split]].
  - destruct (proj1 (heartbeat_timers (P := sample_platform) c e (seconds 61) Hok eq_refl)) as (c' & H & _).
    exists c'. exact H.
  - destruct (proj1 (heartbeat_timers (P := sample_platform) c e (seconds 60) Hok eq_refl)) as (c' & H & _).
    exists c'. exact H.
  - pose proof (proj2 (heartbeat_timers (P := sample_platform) c e (seconds 30) Hok eq_refl)) as Hb. cbn zeta in Hb.
    rewrite bool_decide_eq_true_2 in Hb by (vm_compute; by repeat split). destruct Hb as [Hb _].
    destruct Hb as (c' & H1 & H2 & H3); [decided|]. exists c'. split; [exact H1|]. split; [rewrite H2; reflexivity|].
    rewrite H3. reflexivity.
  - pose proof (proj2 (heartbeat_timers (P := sample_platform) c e (seconds 30 - 1) Hok eq_refl)) as Hb. exact Hb.
Defined.

(** Connecting succeeds.  With a valid configuration, a new client, a TCP
    connection that is established, a server that plays its side of a handshake
    dialogue (however its bytes are segmented) and a writer that accepts the
    client's side in pieces, [connect] returns success: the client is open, it has
    sent and consumed exactly the dialogue and keeps what was negotiated. *)
Lemma connect_succeeds {P : Platform} (getaddrinfo : std_string -> std_string -> Z + list ResolvedAddr)
  (answers : ResolvedAddr -> Attempt) (now : Z) (c : Client) (s : Socket) (os : gmap Z Z)
  (i o rest : bytes) t (hs : HandshakeResult)
  (Hcfg : config_ok (cfg_ c)) (Hst : state_ c = ConnectionState.Disconnected) (Hsock : sock_ c = Sock.empty)
  (Htcp : connect_with_timeout (host (cfg_ c)) (port (cfg_ c)) (connect_timeout (cfg_ c))
            (default_resolve_host getaddrinfo) answers (fds c) = (ok s, os))
  (Hi : is_bytes i) (Hrest : is_bytes rest) (Hx : x_handshake (cfg_ c) i o hs)
  (Hs : stream (inbox (net c)) = (i ++ rest, t)) (Hready : ready (net c) (length o)) :
  exists c', connect getaddrinfo answers now c = Some (ok tt, c') /\
    state_ c' = ConnectionState.Open /\ sock_ c' = MkSocket (fd_ s) /\ fds c' = os /\
    stream (inbox (net c')) = (rest, t) /\ outbox (net c') = outbox (net c) ++ o /\
    negotiated_frame_max_ c' = negotiated_frame_max hs /\
    negotiated_heartbeat_ c' = negotiated_heartbeat hs.
Proof.
  apply validate_ok in Hcfg.
  destruct (connect_tcp getaddrinfo answers now c s os Hcfg Hst Hsock Htcp)
    as (c2 & _ & _ & Hs2 & Hf2 & Hi2 & Hsd2 & Ho2 & Hc).
  assert (Hready2 : ready (net c2) (length o)) by (unfold ready; by rewrite Hsd2).
  rewrite <- Hi2 in Hs.
  destruct (performs_succeeds (performs := performs_handshake (cfg_ c)) i o hs Hi Hx (net c2) rest t
    Hrest Hs Hready2) as (w & Hr & Hs' & Ho & _).
  rewrite Hr in Hc. eexists. split; [exact Hc|].
  destruct (connection_opened_spec hs now (c2 <| net := w |>))
    as (H1 & _ & _ & Hs3 & Hf3 & Hi3 & Ho3 & Hfm & Hhb & _).
  rewrite Hs3, Hf3, Hi3, Ho3, <- Ho2. by repeat split.
Qed.

Lemma connect_succeeds_witness :
  let c := new_client default_config (sample_world (server_side ++ [7])) ∅ in
  exists c', connect (Hplat := sample_platform) local_host (fun _ => connected_at_once) 9 c
    = Some (ok tt, c') /\ state_ c' = ConnectionState.Open /\
    stream (inbox (net c')) = ([7], None) /\ outbox (net c') = client_side /\
    negotiated_heartbeat_ c' = 30.
Proof.
  cbn zeta. set (c := new_client _ _ _).
  assert (Hcfg : config_ok (cfg_ c)) by (apply validate_ok; reflexivity).
  assert (Htcp : connect_with_timeout (Hplat := sample_platform) (host (cfg_ c)) (port (cfg_ c))
    (connect_timeout (cfg_ c)) (default_resolve_host (Hplat := sample_platform) local_host)
    (fun _ => connected_at_once) (fds c) = (ok (MkSocket 5), {[5 := 2]})) by (vm_compute; reflexivity).
  assert (Hi : is_bytes server_side) by decided.
  assert (Hrest : is_bytes [7]) by decided.
  assert (Hs : stream (inbox (net c)) = (server_side ++ [7], None)) by (vm_compute; reflexivity).
  assert (Hready : ready (net c) (length client_side)) by decided.
  destruct (connect_succeeds (P := sample_platform) local_host (fun _ => connected_at_once) 9 c _ _
    server_side client_side [7] None sample_result Hcfg eq_refl eq_refl Htcp Hi Hrest sample_dialogue Hs Hready)
    as (c' & H1 & H2 & _ & _ & H3 & H4 & _ & H5).
  exists c'. split; [exact H1|]. split; [exact H2|]. split; [exact H3|]. split; [exact H4|exact H5].
Defined.

(** C15.  The I/O loop processes the whole stream.  When the peer sends a sequence
    of frames, however segmented, as many turns of the loop read exactly those
    frames and change the request table as reaping the expired requests and
    dispatching, frame by frame and in order, would: no frame is lost, repeated or
    reordered, and the loop sends nothing. *)
Theorem io_loop_delivers {P : Platform} (fs : list IncomingFrame) (clock : list Z) (c : Client)
  (rest : bytes) t (l : list Request)
  (Hlen : length clock = length fs) (Hfs : Forall frame_ok fs) (Hrest : is_bytes rest)
  (Hstop : stop_io_ c = false)
  (Hs : stream (inbox (net c)) = (concat (map enc_frame fs) ++ rest, t))
  (Hr : refines (dispatcher_ c) l) :
  exists c', io_loop clock c = Some (false, c') /\ stream (inbox (net c')) = (rest, t) /\
    outbox (net c') = outbox (net c) /\
    refines (dispatcher_ c') (spec_run (concat (zip_with turn_ops clock fs)) l) /\
    c' = c <| net := net c' |> <| dispatcher_ := dispatcher_ c' |>
           <| last_inbound_at_ := default (last_inbound_at_ c) (last clock) |>.
Proof. by apply io_loop_frames. Qed.

(** Two requests, answered in the reverse order by three segments. *)
Definition answer_to (cid : Z) : IncomingFrame := MkFrame 0x800D 1 [0; 1] (Some cid).

Lemma io_loop_delivers_witness :
  let bs := enc_frame (answer_to 101) ++ enc_frame (answer_to 100) in
  let c := (open_client [Data (take 5 bs); Data (take 15 (drop 5 bs)); Data (drop 20 bs)])
             <| dispatcher_ := two_pending |> in
  exists c', io_loop (Hplat := sample_platform) [10; 20] c = Some (false, c') /\
    last_inbound_at_ c' = 20 /\
    refines (dispatcher_ c') [Done (ok (answer_to 100)); Done (ok (answer_to 101))].
Proof.
  cbn zeta. set (c := _ <| dispatcher_ := two_pending |>).
  assert (Hfs : Forall frame_ok [answer_to 101; answer_to 100]) by decided.
  assert (Hs : stream (inbox (net c)) = (concat (map enc_frame [answer_to 101; answer_to 100]) ++ [], None))
    by (vm_compute; reflexivity).
  assert (Hr : refines (dispatcher_ c) [Waiting 100 40; Waiting 101 50]).
  { destruct (run_refines [RegisterPending 100 40; RegisterPending 101 50] _ _ new_refines)
      as (outs & st & Hrun & Hst). vm_compute in Hrun. injection Hrun as _ <-. exact Hst. }
  destruct (io_loop_delivers (P := sample_platform) [answer_to 101; answer_to 100] [10; 20] c [] None _
    eq_refl Hfs is_bytes_nil eq_refl Hs Hr) as (c' & H1 & _ & _ & H2 & H3).
  exists c'. split; [exact H1|]. split; [rewrite H3; reflexivity|exact H2].
Defined.
