(* ===== verification/ClientTypes.v ===== *)
(** * The client: types

    Every member of the client stays within its C++ type, whatever the server
    sends: counters and limits within 32 bits, decoded properties and the frames
    held by promises well formed; and what the commands return fits its type. *)

From coqutil Require Import Datatypes.RecordSetters.
From S2P Require Import Prelude Errors Buffer Codec Frame Command HandshakeCommands.
From S2P Require Import LifecycleCommands Config Dispatcher Socket Dialogue Handshake Client.
From S2P Require Import ClientInvariant ClientProperties.
Import TriangleBracketNotations.

Local Open Scope Z_scope.

(** ** Operations that leave bytes in the queue *)

(** Whatever its result, the operation leaves an inbound queue of bytes. *)
Class keeps_queue {A} (m : IO A) : Prop :=
  queue_kept w r w' : queue_ok (inbox w) -> m w = Some (r, w') -> queue_ok (inbox w').

#[export] Instance keeps_ret {A} (x : A) : keeps_queue (mret x).
Proof. by intros w r w' Hq [= _ <-]. Qed.

#[export] Instance keeps_fail {A} e : keeps_queue (@io_fail A e).
Proof. by intros w r w' Hq [= _ <-]. Qed.

#[export] Instance keeps_lift {A} (r : Result A) : keeps_queue (io_lift r).
Proof. by intros w r' w' Hq [= _ <-]. Qed.

#[export] Instance keeps_log ev : keeps_queue (io_log ev).
Proof. by intros w r' w' Hq [= _ <-]. Qed.

#[export] Instance keeps_bind {A B} (m : IO A) (k : A -> IO B) :
  keeps_queue m -> (forall x, keeps_queue (k x)) -> keeps_queue (m ≫= k).
Proof.
  intros Hm Hk w r w' Hq. unfold mbind, io_bind. destruct (m w) as [[[x|e] w1]|] eqn:E; [| |done].
  - intros H. eapply Hk; [|exact H]. by eapply Hm.
  - intros [= _ <-]. by eapply Hm.
Qed.

#[export] Instance keeps_if {A} (b : bool) (m1 m2 : IO A) :
  keeps_queue m1 -> keeps_queue m2 -> keeps_queue (if b then m1 else m2).
Proof. by destruct b. Qed.

#[export] Instance keeps_on_error {A} (m : IO A) h :
  keeps_queue m -> (forall e, keeps_queue (h e)) -> keeps_queue (on_error m h).
Proof.
  intros Hm Hh w r w' Hq. unfold on_error. destruct (m w) as [[[x|e] w1]|] eqn:E; [| |done].
  - intros [= _ <-]. by eapply Hm.
  - destruct (h e w1) as [[r1 w2]|] eqn:E2; [|done]. intros [= _ <-]. eapply Hh; [|exact E2]. by eapply Hm.
Qed.

Section io.
Context `{Hplat : Platform}.

#[export] Instance keeps_write data : keeps_queue (write_all data).
Proof.
  intros w r w' Hq. unfold write_all. destruct (write_loop _ _ _) as [[[r' s] out]|]; [|done].
  by intros [= _ <-].
Qed.

#[export] Instance keeps_read : keeps_queue read_frame.
Proof. intros w r w'. apply read_frame_queue. Qed.

Lemma keeps_sasl_loop fuel req cid fm : keeps_queue (sasl_loop fuel req cid fm).
Proof.
  revert cid. induction fuel as [|fuel IH]; intros cid; cbn [sasl_loop]; [by intros w r w' _|].
  unfold send_request, log_failure, log, recv_response. apply _.
Qed.

#[export] Instance keeps_handshake cfg : keeps_queue (run_handshake cfg).
Proof.
  assert (H : forall cid fm, keeps_queue (step_sasl_authenticate cfg cid fm)).
  { intros cid fm. unfold step_sasl_authenticate, log. apply keeps_bind; [apply _|]. intros _.
    apply keeps_bind; [|intros; apply _]. intros w. apply keeps_sasl_loop. }
  unfold run_handshake, step_peer_properties, step_sasl_handshake, step_tune, step_open.
  unfold send_request, send_oneway, log_failure, log, recv_response, recv_oneway. apply _.
Qed.
End io.

(** ** What the handshake negotiates *)

Definition config_typed (cfg : ConnectionConfig) : Prop :=
  in_u 16 (port cfg) /\ in_u 32 (requested_heartbeat_seconds cfg) /\ in_u 32 (requested_frame_max_bytes cfg).

Lemma body_valid {C} `{CommandLaws C} f (c : C) :
  frame_ok f -> fst (decode_body (reader_of (f_body f))) = ok c -> valid c.
Proof.
  intros (_ & Hb & Hl) Hd. assert (Hs : in_u 64 (zlen (f_body f))).
  { rewrite zlen_app in Hl. pose proof (zlen_nonneg (f_body f)).
    pose proof (zlen_nonneg (enc_header (f_key f) (f_version f) (f_correlation_id f))). range. }
  destruct (decode_body_spec _ (reader_of_wf _ Hb Hs)) as [_ H']. rewrite Hd in H'. apply H'.
Qed.

Definition handshake_typed (hs : HandshakeResult) : Prop :=
  in_u 32 (negotiated_frame_max hs) /\ in_u 32 (negotiated_heartbeat hs) /\
  array_ok kv_ok (server_properties hs) /\ array_ok kv_ok (hs_connection_properties hs).

Lemma dialogue_typed cfg i o hs : config_typed cfg -> x_handshake cfg i o hs -> handshake_typed hs.
Proof.
  intros (_ & Hhb & Hfm).
  destruct 1 as [i1 o1 sp i2 o2 i3 o3 cid i4 o4 fm hb i5 o5 cp
    (_ & _ & pp & (f1 & _ & Hf1 & _ & _ & Hd1) & _ & ->) _ _
    (tune & (f4 & _ & Hf4 & _ & Hd4) & Hl & _) (_ & _ & op & (f5 & _ & Hf5 & _ & _ & Hd5) & _ & ->)].
  injection Hl as -> ->. apply body_valid in Hd1 as [_ H1]; [|done]. apply body_valid in Hd4 as [H4 H4']; [|done].
  apply body_valid in Hd5 as [_ H5]; [|done].
  split; [|split; [|by split]]; cbn; [unfold negotiate_frame_max|unfold negotiate_heartbeat];
    repeat case_match; try done; range.
Qed.

(** ** The types of the members *)

(** What a promise holds came from [read_frame]. *)
Definition promise_typed (p : PromiseState) : Prop :=
  match p with Satisfied (ok f) => frame_ok f | _ => True end.

Definition dispatcher_typed (d : Dispatcher) : Prop :=
  (forall cid, is_Some (pending_ d !! cid) -> in_u 32 cid) /\ Forall promise_typed (promises d).

Record client_typed (c : Client) : Prop := {
  t_config : config_typed (cfg_ c);
  t_cid : in_u 32 (next_app_cid_ c);
  t_frame_max : in_u 32 (negotiated_frame_max_ c);
  t_heartbeat : in_u 32 (negotiated_heartbeat_ c);
  t_server_props : array_ok kv_ok (server_props_ c);
  t_conn_props : array_ok kv_ok (conn_props_ c);
  t_dispatcher : dispatcher_typed (dispatcher_ c);
  t_inbox : queue_ok (inbox (net c))
}.

(** A change of other members. *)
Lemma typed_same c c' :
  client_typed c -> cfg_ c' = cfg_ c -> next_app_cid_ c' = next_app_cid_ c ->
  negotiated_frame_max_ c' = negotiated_frame_max_ c -> negotiated_heartbeat_ c' = negotiated_heartbeat_ c ->
  server_props_ c' = server_props_ c -> conn_props_ c' = conn_props_ c ->
  dispatcher_typed (dispatcher_ c') -> queue_ok (inbox (net c')) -> client_typed c'.
Proof. intros [] E1 E2 E3 E4 E5 E6 ? ?. split; rewrite ?E1, ?E2, ?E3, ?E4, ?E5, ?E6; done. Qed.

Ltac same_typed H := apply (typed_same _ _ H); try done; try apply H.

(** ** The dispatcher *)

Lemma set_value_typed n r ps ps' :
  promise_typed (Satisfied r) -> Forall promise_typed ps -> set_value n r ps = Some ps' -> Forall promise_typed ps'.
Proof.
  intros Hr Hps. unfold set_value. destruct (ps !! n) as [[]|]; intros [= <-]. by apply Forall_insert.
Qed.

Lemma settle_all_typed es r ps ps' :
  promise_typed (Satisfied r) -> Forall promise_typed ps -> settle_all es r ps = Some ps' ->
  Forall promise_typed ps'.
Proof.
  intros Hr. revert ps. induction es as [|e es IH]; intros ps Hps; cbn; [by intros [= <-]|].
  destruct (set_value _ _ _) as [ps1|] eqn:E; [|done]. cbn. apply IH. eapply set_value_typed; [|done|exact E]; done.
Qed.

Lemma register_typed cid d st : in_u 32 cid -> dispatcher_typed st -> dispatcher_typed (register_pending cid d st).2.
Proof.
  intros Hc [Hp Hps]. unfold register_pending. cbn [snd].
  destruct (pending_ st !! cid) eqn:E; split; cbn; try (apply Forall_app; split; [done|by repeat constructor]);
    [done|]. intros cid'. destruct (decide (cid = cid')) as [<-|]; [done|]. rewrite lookup_insert_ne by done. apply Hp.
Qed.

Lemma dispatch_typed f st b st' :
  frame_ok f -> dispatcher_typed st -> dispatch f st = Some (b, st') -> dispatcher_typed st'.
Proof.
  intros Hf [Hp Hps] Hd. split.
  - intros cid [e He]. apply Hp. exists e. eapply lookup_weaken; [exact He|by eapply dispatch_pending].
  - revert Hd. unfold dispatch. destruct (key.is_response _).
    + destruct (f_correlation_id f) as [cid|]; [|by intros [= _ <-]].
      destruct (pending_ st !! cid) as [e|]; [|by intros [= _ <-]].
      destruct (set_value _ _ _) as [ps|] eqn:E; [|done]. intros [= _ <-]. eapply set_value_typed; [|done|exact E]; done.
    + unfold dispatch_oneway. intros [= H]. repeat case_match; by simplify_eq/=.
Qed.

Lemma fail_all_typed e st st' : dispatcher_typed st -> fail_all_pending e st = Some st' -> dispatcher_typed st'.
Proof.
  intros [Hp Hps] H. split.
  - intros cid. rewrite (fail_all_pending_map _ _ _ H), lookup_empty. by intros [].
  - revert H. unfold fail_all_pending. destruct (settle_all _ _ _) as [ps|] eqn:E; [|done].
    intros [= <-]. eapply settle_all_typed; [|done|exact E]; done.
Qed.

Lemma reap_typed now st n st' : dispatcher_typed st -> reap_expired now st = Some (n, st') -> dispatcher_typed st'.
Proof.
  intros [Hp Hps] H. split.
  - intros cid [e He]. rewrite (reap_pending _ _ _ _ H) in He. apply map_lookup_filter_Some in He as [He _].
    apply Hp. by exists e.
  - revert H. unfold reap_expired. destruct (settle_all _ _ _) as [ps|] eqn:E; [|done].
    intros [= _ <-]. eapply settle_all_typed; [|done|exact E]; done.
Qed.

(** ** The operations *)

Section operations.
Context `{Hplat : Platform}.

Lemma fail_pending_typed e c c' : client_typed c -> fail_pending e c = Some c' -> client_typed c'.
Proof.
  intros Hc. unfold fail_pending. destruct (fail_all_pending _ _) as [d|] eqn:E; [|done]. intros [= <-].
  same_typed Hc. eapply fail_all_typed; [apply Hc|exact E].
Qed.

Lemma reap_client_typed now c c' : client_typed c -> reap now c = Some c' -> client_typed c'.
Proof.
  intros Hc. unfold reap. destruct (reap_expired _ _) as [[n d]|] eqn:E; [|done]. intros [= <-].
  same_typed Hc. eapply reap_typed; [apply Hc|exact E].
Qed.

Lemma on_net_typed {A} (m : IO A) `{!keeps_queue m} c r c' :
  client_typed c -> on_net m c = Some (r, c') -> client_typed c'.
Proof.
  intros Hc. rewrite on_net_eq. destruct (m (net c)) as [[r' w]|] eqn:E; [|done]. intros [= _ <-].
  same_typed Hc. eapply queue_kept; [apply Hc|exact E].
Qed.

Lemma notify_typed evt c : client_typed c -> client_typed (notify_unexpected_close evt c).
Proof.
  intros Hc. unfold notify_unexpected_close. destruct (unexpected_fired_ c); [done|].
  destruct (on_unexpected_close_ _); same_typed Hc.
Qed.

Lemma read_frame_ok w f w' : queue_ok (inbox w) -> read_frame w = Some (ok f, w') -> frame_ok f.
Proof.
  intros Hq Hr. apply queue_ok_stream in Hq. destruct (read_frame_sound w f w' Hq Hr) as (? & ? & _ & _ & H). done.
Qed.

Lemma io_turn_typed r now c b c' :
  (forall f, r = ok f -> frame_ok f) -> client_typed c -> io_turn r now c = Some (b, c') -> client_typed c'.
Proof.
  intros Hr Hc. unfold io_turn. destruct r as [f|e].
  - destruct (reap now _) as [c1|] eqn:E; [|done]. apply reap_client_typed in E; [|same_typed Hc].
    cbn [mbind option_bind]. destruct (dispatch f _) as [[b' d]|] eqn:Ed; [|done]. intros [= _ <-].
    same_typed E. eapply dispatch_typed; [by apply Hr|apply E|exact Ed].
  - case_bool_decide.
    + destruct (_ && _).
      * destruct (fail_pending _ _) as [c1|] eqn:E; [|done]. apply fail_pending_typed in E; [|done].
        intros [= _ <-]. by apply notify_typed.
      * destruct (reap now c) as [c1|] eqn:E; [|done]. apply reap_client_typed in E; [|done]. by intros [= _ <-].
    + destruct (fail_pending _ _) as [c1|] eqn:E; [|done]. apply fail_pending_typed in E; [|done].
      intros [= _ <-]. destruct (negb _); [by apply notify_typed|done].
Qed.

Lemma io_iteration_typed now c b c' : client_typed c -> io_iteration now c = Some (b, c') -> client_typed c'.
Proof.
  intros Hc. unfold io_iteration. destruct (stop_io_ c); [by intros [= _ <-]|].
  destruct (on_net read_frame c) as [[r c1]|] eqn:E; [|done]. cbn [mbind option_bind].
  pose proof (on_net_typed _ _ _ _ Hc E) as Hc1. intros H. eapply io_turn_typed; [|exact Hc1|exact H].
  intros f ->. rewrite on_net_eq in E. destruct (read_frame (net c)) as [[r w]|] eqn:Er; [|done].
  injection E as -> _. eapply read_frame_ok; [apply Hc|exact Er].
Qed.

Lemma heartbeat_typed now c c' : client_typed c -> heartbeat_tick now c = Some c' -> client_typed c'.
Proof.
  intros Hc. unfold heartbeat_tick. destruct (stop_io_ c); [by intros [= <-]|].
  destruct (_ >=? _); [|by intros [= <-]]. destruct (writer_ c); [|by intros [= <-]].
  destruct (on_net _ c) as [[r c1]|] eqn:E; [|done]. apply on_net_typed in E; [|apply _|done].
  intros [= <-]. same_typed E.
Qed.

Lemma take_register_typed d c cid c1 fut c2 :
  client_typed c -> take_cid c = (cid, c1) -> register cid d c1 = (fut, c2) -> client_typed c2.
Proof.
  intros Hc [= <- <-]. unfold register.
  pose proof (register_typed (next_app_cid_ c) d (dispatcher_ c) (t_cid _ Hc) (t_dispatcher _ Hc)) as Hd.
  change (dispatcher_ (c <| next_app_cid_ := _ |>)) with (dispatcher_ c).
  destruct (register_pending _ _ _) as [n st]. intros [= _ <-]. destruct Hc. split; try done. apply wrap_range. lia.
Qed.

Lemma send_part_typed k v body now c r c' :
  client_typed c -> send_part k v body now c = Some (r, c') -> client_typed c'.
Proof.
  intros Hc. unfold send_part. destruct (take_cid c) as [cid c1] eqn:Et.
  destruct (register cid _ c1) as [fut c2] eqn:Er. pose proof (take_register_typed _ _ _ _ _ _ Hc Et Er) as H2.
  destruct (check_outbound_frame_size _ _) as [u|e]; [|by intros [= _ <-]].
  destruct (on_net _ _) as [[r' c3]|] eqn:E; [|done]. cbn [mbind option_bind].
  apply on_net_typed in E; [|apply _|same_typed H2]. destruct r'; by intros [= _ <-].
Qed.

(** Other threads keep the types. *)
Variable others : Client -> Client.
Hypothesis Hothers : forall c, client_typed c -> client_typed (others c).

Lemma send_and_wait_typed k v body now c r c' :
  client_typed c -> send_and_wait others k v body now c = Some (r, c') ->
  client_typed c' /\ forall f, r = ok f -> frame_ok f.
Proof.
  intros Hc. unfold send_and_wait. destruct (send_part _ _ _ _ _) as [[r1 c1]|] eqn:E; [|done].
  apply send_part_typed in E; [|done]. cbn [mbind option_bind]. destruct r1 as [fut|e]; [|by intros [= <- <-]].
  apply Hothers in E. destruct (wait_part _ _) as [r2|] eqn:Ew; [|done]. cbn [mbind option_bind].
  intros [= <- <-]. split; [done|]. intros f ->. revert Ew. unfold wait_part.
  pose proof (t_dispatcher _ E) as [_ Hps]. rewrite Forall_lookup in Hps.
  destruct (promises _ !! fut) as [[]|] eqn:Ep; try done. intros [= ->]. exact (Hps _ _ Ep).
Qed.

(** A lifecycle request whose reply makes typed results of well-formed responses. *)
Lemma request_reply_typed {C A} `{Command C} (req : C) (reply : IncomingFrame -> Result A) (Q : A -> Prop) now c r c' :
  (forall f x, frame_ok f -> reply f = ok x -> Q x) ->
  client_typed c -> request_reply others req now reply c = Some (r, c') ->
  client_typed c' /\ forall x, r = ok x -> Q x.
Proof.
  intros Hreply Hc. unfold request_reply. destruct (send_and_wait _ _ _ _ _ _) as [[r1 c1]|] eqn:E; [|done].
  apply send_and_wait_typed in E as [Hc1 Hf]; [|done]. cbn [mbind option_bind].
  destruct r1 as [f|e]; intros [= <- <-]; [|done]. split; [done|]. intros x. by apply Hreply, Hf.
Qed.

Lemma query_offset_typed f stream x :
  frame_ok f -> query_offset_reply stream f = ok x -> from_option (in_u 64) True x.
Proof.
  intros Hf. unfold query_offset_reply. destruct (fst _) as [resp|e] eqn:E; [|done].
  pose proof (body_valid (C := QueryOffsetResponse.t) f resp Hf) as Hv. destruct (Hv E) as [_ Ho]. cbn. repeat case_match; intros; by simplify_eq/=.
Qed.

Lemma query_publisher_typed f stream x :
  frame_ok f -> query_publisher_reply stream f = ok x -> in_u 64 x.
Proof.
  intros Hf. unfold query_publisher_reply. destruct (fst _) as [resp|e] eqn:E; [|done].
  pose proof (body_valid (C := QueryPublisherResponse.t) f resp Hf) as Hv. destruct (Hv E) as [_ Ho]. cbn. repeat case_match; intros; by simplify_eq/=.
Qed.

Lemma store_offset_typed ref str off now c r c' :
  client_typed c -> store_offset ref str off now c = Some (r, c') -> client_typed c'.
Proof.
  intros Hc. unfold store_offset. destruct (require_open c); [|by intros [= _ <-]].
  destruct (check_reference ref); [|by intros [= _ <-]]. apply on_net_typed; [apply _|same_typed Hc].
Qed.

Variable threads_end : Client -> Client.
Hypothesis Hthreads : forall c, client_typed c -> client_typed (threads_end c).
Variable late : Client -> Client.
Hypothesis Hlate : forall c, client_typed c -> client_typed (late c).

Lemma close_typed now c r c' : client_typed c -> close others threads_end late now c = Some (r, c') -> client_typed c'.
Proof.
  intros Hc. unfold close. destruct (negb _); [by intros [= _ <-]|].
  match goal with |- context [take_cid ?x] => set (c0 := x) end.
  assert (H0 : client_typed c0) by same_typed Hc.
  destruct (take_cid c0) as [cid c1] eqn:Et. destruct (register cid _ c1) as [fut c2] eqn:Er.
  pose proof (take_register_typed _ _ _ _ _ _ H0 Et Er) as H2.
  destruct (if writer_ c2 then _ else _) as [[r' c3]|] eqn:Ew; [|done]. cbn [mbind option_bind].
  assert (H3 : client_typed c3).
  { destruct (writer_ c2); [eapply on_net_typed; [|exact H2|exact Ew]; apply _|]. by injection Ew as _ <-. }
  destruct (Sock.close _ _) as [so os]. unfold join_threads.
  match goal with |- context [threads_end ?x] => set (c5 := x) end.
  assert (H5 : client_typed (threads_end c5)) by (apply Hthreads; same_typed (Hothers _ H3)).
  destruct (fail_pending _ _) as [c7|] eqn:Ef; [|done]. apply fail_pending_typed in Ef; [|same_typed H5].
  intros [= _ <-]. same_typed (Hlate _ Ef).
Qed.

Lemma destroy_typed c : client_typed c -> client_typed (destroy threads_end c).
Proof.
  intros Hc. unfold destroy, join_threads.
  match goal with |- context [threads_end ?x] => set (c0 := x) end.
  assert (H0 : client_typed (threads_end c0)).
  { apply Hthreads. subst c0. case_bool_decide; same_typed Hc. }
  destruct (Sock.close _ _) as [so os]. same_typed H0.
Qed.

Lemma connection_opened_typed hs now c : handshake_typed hs -> client_typed c -> client_typed (connection_opened hs now c).
Proof.
  intros (H1 & H2 & H3 & H4) Hc. unfold connection_opened.
  match goal with |- context [set_half_heartbeat ?n ?x] => set (c0 := x) end.
  assert (H0 : client_typed c0) by (destruct Hc; split; done).
  destruct (set_half_heartbeat_eq (negotiated_heartbeat_ c0) c0) as [rt ->].
  match goal with |- client_typed (log_info _ ?x) => assert (Hx : client_typed x) end.
  { destruct (_ >? 0); same_typed H0. }
  same_typed Hx.
Qed.

Lemma connect_typed getaddrinfo answers now c r c' :
  client_typed c -> connect getaddrinfo answers now c = Some (r, c') -> client_typed c'.
Proof.
  intros Hc. unfold connect. destruct (validate _); [|by intros [= _ <-]].
  destruct (negb _); [by intros [= _ <-]|].
  match goal with |- context [log_info ?m ?x] => set (c0 := log_info m x) end.
  assert (H0 : client_typed c0) by same_typed Hc.
  destruct (connect_with_timeout _ _ _ _ _ _) as [[s|e] os]; [|intros [= _ <-]; same_typed H0].
  destruct (Sock.assign _ _ _) as [[so s'] os'].
  match goal with |- context [set_half_heartbeat ?n ?x] => destruct (set_half_heartbeat_eq n x) as [rt ->] end.
  match goal with |- context [on_net _ ?x] => set (c2 := x) end.
  assert (H2 : client_typed c2) by same_typed H0.
  destruct (on_net _ c2) as [[[hs|e] c3]|] eqn:E; [| |done]; pose proof (on_net_typed _ _ _ _ H2 E) as H3.
  - intros [= _ <-]. apply connection_opened_typed; [|done]. rewrite on_net_eq in E.
    destruct (run_handshake _ _) as [[r1 w]|] eqn:Er; [|done]. injection E as -> _.
    destruct (performs_sound (performs := performs_handshake (cfg_ c2)) (net c2) w hs) as (i & o & Hx & _);
      [apply queue_ok_stream, H2|done|]. eapply dialogue_typed; [apply H2|exact Hx].
  - destruct (Sock.close _ _). intros [= _ <-]. same_typed H3.
Qed.
End operations.

(** ** Properties *)

(** Type soundness.  Whatever the server sends and whatever the system calls
    answer, every operation of the client keeps its members within their types:
    the correlation counter and the negotiated limits are 32-bit integers, the
    properties are arrays of strings, the table is keyed by 32-bit ids, and every
    promise that holds a frame holds a well-formed one.  What the queries return
    fits in 64 bits. *)
Lemma client_typed_preserved {P : Platform} (others threads_end late : Client -> Client) (c : Client)
  (Hc : client_typed c) (Hothers : forall c, client_typed c -> client_typed (others c))
  (Hthreads : forall c, client_typed c -> client_typed (threads_end c))
  (Hlate : forall c, client_typed c -> client_typed (late c)) :
  let keeps {A} (op : option (Result A * Client)) (Q : A -> Prop) :=
    forall r c', op = Some (r, c') -> client_typed c' /\ forall x, r = ok x -> Q x in
  let anything {A} (_ : A) := True in
  (forall getaddrinfo answers now, keeps (connect getaddrinfo answers now c) anything) /\
  (forall stream args idempotent now, keeps (create_stream others stream args idempotent now c) anything) /\
  (forall stream idempotent now, keeps (delete_stream others stream idempotent now c) anything) /\
  (forall reference stream offset now, keeps (store_offset reference stream offset now c) anything) /\
  (forall reference stream now, keeps (query_offset others reference stream now c) (from_option (in_u 64) True)) /\
  (forall reference stream now, keeps (query_publisher_sequence others reference stream now c) (in_u 64)) /\
  (forall now b c', io_iteration now c = Some (b, c') -> client_typed c') /\
  (forall now c', heartbeat_tick now c = Some c' -> client_typed c') /\
  (forall now, keeps (close others threads_end late now c) anything) /\
  client_typed (destroy threads_end c).
Proof.
  cbn zeta. split_and!.
  - intros ? ? ? r c' H. split; [by eapply connect_typed|done].
  - intros ? ? ? ? r c'. unfold create_stream. destruct (require_open c); [|by intros [= <- <-]].
    by apply (request_reply_typed others Hothers _ _ (fun _ => True)).
  - intros ? ? ? r c'. unfold delete_stream. destruct (require_open c); [|by intros [= <- <-]].
    by apply (request_reply_typed others Hothers _ _ (fun _ => True)).
  - intros ? ? ? ? r c' H. split; [by eapply store_offset_typed|done].
  - intros ? ? ? r c'. unfold query_offset. destruct (require_open c); [|by intros [= <- <-]].
    apply request_reply_typed; [done| |done]. intros f x. apply query_offset_typed.
  - intros ? ? ? r c'. unfold query_publisher_sequence. destruct (require_open c); [|by intros [= <- <-]].
    destruct (check_reference _); [|by intros [= <- <-]].
    apply request_reply_typed; [done| |done]. intros f x. apply query_publisher_typed.
  - intros now b c'. by apply io_iteration_typed.
  - intros now c'. by apply heartbeat_typed.
  - intros now r c' H. split; [by eapply (close_typed others Hothers threads_end Hthreads late Hlate)|done].
  - by apply destroy_typed.
Qed.

Lemma new_client_typed cfg w os : config_typed cfg -> queue_ok (inbox w) -> client_typed (new_client cfg w os).
Proof.
  intros Hc Hq. split; try done; try (cbn; range); try (split; [constructor|cbn; lia]).
  split; [|constructor]. intros cid. cbn. rewrite lookup_empty. by intros [].
Qed.

Lemma client_typed_preserved_witness :
  let c := new_client default_config (sample_world (server_side ++ [7])) ∅ in
  client_typed c /\
  exists c', connect (Hplat := sample_platform) local_host (fun _ => connected_at_once) 9 c = Some (ok tt, c') /\
    client_typed c' /\ negotiated_heartbeat_ c' = 30.
Proof.
  cbn zeta. set (c := new_client _ _ _).
  assert (Hc : client_typed c) by (apply new_client_typed; [repeat split; decided|unfold queue_ok; decided]).
  split; [exact Hc|].
  destruct (client_typed_preserved (P := sample_platform) id id id c Hc (fun _ H => H) (fun _ H => H) (fun _ H => H)) as [H _].
  destruct (connect (Hplat := sample_platform) local_host (fun _ => connected_at_once) 9 c) as [[r c']|] eqn:E;
    [|vm_compute in E; discriminate E].
  exists c'. pose proof (H _ _ _ _ _ E) as [Ht _]. vm_compute in E. injection E as <- <-.
  split; [reflexivity|]. split; [exact Ht|reflexivity].
Defined.
