(* ===== verification/ClientEnd.v ===== *)
(** * The client: how it ends

    The loop of the I/O thread ends once the peer has closed the connection, within
    a number of turns bounded by what the peer sent; and what the destructor of the
    client leaves behind. *)

From coqutil Require Import Datatypes.RecordSetters.
From S2P Require Import Prelude Errors Buffer Codec Frame Command HandshakeCommands.
From S2P Require Import LifecycleCommands Config Dispatcher Socket Dialogue Handshake Client.
From S2P Require Import ClientInvariant ClientProperties.
Import TriangleBracketNotations.

Local Open Scope Z_scope.

(** ** Reading uses up the inbox *)

(** Bytes and events the peer has sent and the client has not consumed. *)
Definition weight (q : list InEvent) : nat := in_bytes q + length q.

Section consume.
Context `{Hplat : Platform}.

Lemma read_loop_consumes n mode received q r q' :
  read_loop n mode received q = Some (r, q') ->
  (in_bytes q' <= in_bytes q)%nat /\ (length q' <= length q)%nat /\ (Eof ∈ q -> Eof ∈ q') /\
  (forall e, r = err e -> kind e = Kind.RequestTimeout -> (length q' < length q)%nat).
Proof.
  revert received. induction q as [|ev q IH]; intros received; cbn [read_loop];
    (destruct (n <=? length received)%nat; [intros [= <- <-]; by split_and!|]); [done|].
  destruct ev as [bs| |e].
  - destruct (length bs <=? _)%nat.
    + intros (H1 & H2 & H3 & H4)%IH. cbn. split_and!; [lia|lia| |].
      * intros [?|?]%elem_of_cons; [done|auto].
      * intros e He Hk. specialize (H4 e He Hk). lia.
    + intros [= <- <-]. cbn. rewrite length_drop. split_and!; [lia|lia| |done].
      intros [?|?]%elem_of_cons; [done|]. apply elem_of_cons. by right.
  - intros [= <- <-]. split_and!; [done|done|done|]. by intros e [= <-].
  - case_bool_decide.
    + intros (H1 & H2 & H3 & H4)%IH. cbn. split_and!; [lia|lia| |].
      * intros [?|?]%elem_of_cons; [done|auto].
      * intros e' He Hk. specialize (H4 e' He Hk). lia.
    + destruct (_ && _); intros [= <- <-]; cbn; (split_and!; [lia|lia| |]);
        try (intros [?|?]%elem_of_cons; done); intros; lia.
Qed.

Lemma read_loop_total n mode received q : Eof ∈ q -> is_Some (read_loop n mode received q).
Proof.
  revert received. induction q as [|ev q IH]; intros received Hq; [by apply not_elem_of_nil in Hq|].
  cbn [read_loop]. destruct (n <=? length received)%nat; [by eexists|]. destruct ev as [bs| |e].
  - apply elem_of_cons in Hq as [?|Hq]; [done|]. destruct (length bs <=? _)%nat; [auto|by eexists].
  - by eexists.
  - apply elem_of_cons in Hq as [?|Hq]; [done|]. case_bool_decide; [auto|]. destruct (_ && _); by eexists.
Qed.

Lemma read_exact_consumes n mode w r w' :
  read_exact n mode w = Some (r, w') ->
  (in_bytes (inbox w') <= in_bytes (inbox w))%nat /\ (length (inbox w') <= length (inbox w))%nat /\
  (Eof ∈ inbox w -> Eof ∈ inbox w') /\
  (forall e, r = err e -> kind e = Kind.RequestTimeout -> (length (inbox w') < length (inbox w))%nat).
Proof.
  unfold read_exact. destruct (read_loop _ _ _ _) as [[r' q]|] eqn:E; [|done]. intros [= <- <-].
  by apply read_loop_consumes in E.
Qed.

Lemma read_exact_total n mode w : Eof ∈ inbox w -> is_Some (read_exact n mode w).
Proof.
  intros Hq. unfold read_exact. destruct (read_loop_total (Z.to_nat n) mode [] _ Hq) as [[r q] ->]. by eexists.
Qed.

(** After the peer's close, [read_frame] returns; it consumes something or fails
    for good. *)
Lemma read_frame_consumes w :
  Eof ∈ inbox w -> exists r w', read_frame w = Some (r, w') /\ Eof ∈ inbox w' /\
    ((weight (inbox w') < weight (inbox w))%nat \/ exists e, r = err e /\ kind e <> Kind.RequestTimeout).
Proof.
  intros Hq. unfold read_frame, mbind, io_bind, weight.
  destruct (read_exact_total 4 ReturnTimeout w Hq) as [[r1 w1] E1]. rewrite E1.
  pose proof (read_exact_consumes _ _ _ _ _ E1) as (Hb1 & Hl1 & Hq1 & He1). specialize (Hq1 Hq).
  destruct r1 as [h|e].
  - apply read_exact_bytes in E1 as [Hh Hn]. destruct (_ <? 4).
    { do 2 eexists. split; [done|]. split; [done|]. left. lia. }
    match goal with |- context [read_exact ?n TreatAsError w1] =>
      destruct (read_exact_total n TreatAsError w1 Hq1) as [[r2 w2] E2]; rewrite E2 end.
    apply read_exact_consumes in E2 as (Hb2 & Hl2 & Hq2 & _). specialize (Hq2 Hq1).
    destruct r2 as [body|e]; (do 2 eexists; split; [done|]; split; [done|]); left; lia.
  - do 2 eexists. split; [done|]. split; [done|].
    destruct (decide (kind e = Kind.RequestTimeout)) as [Hk|Hk]; [left|right; by exists e].
    specialize (He1 e eq_refl Hk). lia.
Qed.

(** A turn of the I/O loop ends it, or leaves less to read. *)
Lemma io_iteration_consumes now c :
  client_ok c -> stop_io_ c = false -> Eof ∈ inbox (net c) ->
  exists b c', io_iteration now c = Some (b, c') /\
    (b = true -> all_resolved c' /\ pending_ (dispatcher_ c') = ∅) /\
    (b = false -> Eof ∈ inbox (net c') /\ (weight (inbox (net c')) < weight (inbox (net c)))%nat).
Proof.
  intros Hok Hstop Hq. destruct (read_frame_consumes (net c) Hq) as (r & w & Hr & Hq' & Hw).
  unfold io_iteration. rewrite Hstop, on_net_eq, Hr. cbn [mbind option_bind].
  set (c1 := c <| net := w |>). assert (Hok1 : client_ok c1).
  { destruct Hok as (Hl & Hqu & Hrem). split; [done|]. split; [by eapply read_frame_queue|done]. }
  destruct (io_turn_ok r now c1 Hok1) as (b & c' & Ht & _ & Hend). exists b, c'. split; [done|]. split; [done|].
  intros ->. assert (Hnet : net c' = w).
  { revert Ht. unfold io_turn, reap, fail_pending. destruct r as [f|e].
    - destruct (reap_expired _ _) as [[n d]|]; [|done]. cbn [mbind option_bind].
      destruct (dispatch _ _) as [[b' d']|]; [|done]. by intros [= <-].
    - case_bool_decide; [|by destruct (fail_all_pending _ _)].
      destruct (_ && _); [by destruct (fail_all_pending _ _)|].
      destruct (reap_expired _ _) as [[n d]|]; [|done]. by intros [= <-]. }
  rewrite Hnet. split; [done|]. destruct Hw as [Hw|(e & -> & He)]; [done|].
  exfalso. revert Ht. unfold io_turn, fail_pending. rewrite bool_decide_eq_false_2 by done.
  by destruct (fail_all_pending _ _).
Qed.
End consume.

Lemma io_exit_frame c :
  dispatcher_ (io_exit c) = dispatcher_ c /\ net (io_exit c) = net c /\ next_app_cid_ (io_exit c) = next_app_cid_ c /\
  state_ (io_exit c) <> ConnectionState.Open.
Proof.
  unfold io_exit. destruct (negb _ && negb _) eqn:E; split_and!; try done. intros Ho. by rewrite Ho in E.
Qed.

(** ** Properties *)

(** The I/O loop ends.  When the peer closes the connection at some point of
    what it sends, the loop ends within as many turns as there are bytes and events
    before, whatever frames, garbage, timeouts and signals come first; by then
    every request has been given a result and an open client is closed. *)
Lemma io_loop_ends {P : Platform} (clock : list Z) (c : Client)
  (Hok : client_ok c) (Hstop : stop_io_ c = false) (Heof : Eof ∈ inbox (net c))
  (Hlong : (weight (inbox (net c)) < length clock)%nat) :
  exists c', io_loop clock c = Some (true, c') /\ all_resolved c' /\ pending_ (dispatcher_ c') = ∅ /\
    client_ok c' /\ state_ c' <> ConnectionState.Open.
Proof.
  revert c Hok Hstop Heof Hlong. induction clock as [|now clock IH]; intros c Hok Hstop Heof Hlong; [cbn in Hlong; lia|].
  destruct (io_iteration_consumes now c Hok Hstop Heof) as (b & c1 & Hit & Hend & Hgo). cbn [io_loop].
  rewrite Hit. cbn [mbind option_bind]. pose proof (io_iteration_ok _ _ _ _ Hok Hit) as Hok1. destruct b.
  - exists (io_exit c1). split; [done|]. destruct (Hend eq_refl) as [Hr Hp].
    destruct (io_exit_frame c1) as (Hd & Hn & Hc & Hs). unfold all_resolved, client_ok in *. by rewrite Hd, Hn, Hc.
  - destruct (Hgo eq_refl) as [Hq Hw]. pose proof (io_iteration_kept _ _ _ _ Hit) as (_ & _ & _ & _ & Hs & _).
    apply IH; [done|by rewrite Hs|done|cbn in Hlong; lia].
Qed.

Lemma io_loop_ends_witness :
  let q := [Data [0; 0; 0]; RecvFail EAGAIN; Data (9 :: repeat 1 12); Eof] in
  let c := snd (register 100 50 (snd (take_cid (open_client q)))) in
  client_ok c /\
  exists c', io_loop (Hplat := sample_platform) (repeat 7 40) c = Some (true, c') /\ all_resolved c' /\
    state_ c' <> ConnectionState.Open.
Proof.
  cbn zeta. set (q := [_; _; _; _]). set (c := snd (register 100 50 _)).
  assert (Hok : client_ok (open_client q)).
  { apply (new_client_ok default_config (net (open_client q)) ∅). unfold queue_ok. decided. }
  assert (Hc : client_ok c) by exact (proj1 (proj2 (proj2 (register_ok (open_client q) 50 Hok eq_refl)))).
  split; [exact Hc|].
  assert (Heof : Eof ∈ inbox (net c)) by (do 3 right; left).
  assert (Hlong : (weight (inbox (net c)) < length (repeat 7 40))%nat) by (vm_compute; lia).
  destruct (io_loop_ends (P := sample_platform) (repeat 7 40) c Hc eq_refl Heof Hlong) as (c' & H1 & H2 & _ & _ & H3).
  exists c'. split; [exact H1|]. split; [exact H2|exact H3].
Defined.

(** The destructor.  Whatever the threads do before they are joined, when the
    destructor returns both threads are joined, the stop flag is set and the socket
    is closed: its descriptor, and no other, has been released, whether the
    connection was open, failed or never made; an open client counts as closing. *)
Lemma destroy_spec {P : Platform} (threads_end : Client -> Client) (c : Client)
  (Hok : client_ok c) (Hend : forall c, rtc activity c (threads_end c)) :
  let c' := destroy threads_end c in
  sock_ c' = Sock.empty /\ fds c' = (Sock.close (sock_ c) (fds c)).2 /\
  io_thread_ c' = false /\ heartbeat_thread_ c' = false /\ stop_io_ c' = true /\
  (state_ c = ConnectionState.Open -> closing_ c' = true) /\
  (state_ c' = state_ c \/ state_ c' = ConnectionState.Closed) /\ client_ok c'.
Proof.
  cbn zeta. unfold destroy, join_threads.
  match goal with |- context [threads_end ?x] => set (c0 := x) end.
  assert (Hc0 : client_ok c0 /\ sock_ c0 = sock_ c /\ fds c0 = fds c /\ stop_io_ c0 = true /\ state_ c0 = state_ c /\
    (state_ c = ConnectionState.Open -> closing_ c0 = true)).
  { subst c0. case_bool_decide; (split; [exact Hok|by repeat split]). }
  destruct Hc0 as (Hok0 & Hs0 & Hf0 & Hst0 & Hstate0 & Hcl0).
  destruct (activities_ok _ _ (Hend c0) Hok0) as [Hok1 (_ & Hs & Hf & _ & Hst & Hcl & _ & _ & _ & Hstate)].
  set (c1 := threads_end c0) in *.
  change (sock_ (c1 <| io_thread_ := false |> <| heartbeat_thread_ := false |>)) with (sock_ c1).
  change (fds (c1 <| io_thread_ := false |> <| heartbeat_thread_ := false |>)) with (fds c1).
  rewrite Hs, Hf, Hs0, Hf0. pose proof (close_socket (sock_ c) (fds c)) as Hclose.
  destruct (Sock.close (sock_ c) (fds c)) as [so os]. cbn in Hclose. subst so.
  rewrite Hstate0 in Hstate. split_and!; try done.
  intros Ho. change (closing_ c1 = true). rewrite Hcl. auto.
Qed.

Lemma destroy_spec_witness :
  let c := open_client [Eof] in
  let threads_end := io_thread (Hplat := sample_platform) [7] in
  client_ok c /\
  sock_ (destroy threads_end c) = Sock.empty /\ fired (destroy threads_end (on_unexpected_close 1 c)) = [].
Proof.
  cbn zeta. assert (Hok : client_ok (open_client [Eof])).
  { apply (new_client_ok default_config (net (open_client [Eof])) ∅). unfold queue_ok. decided. }
  split; [exact Hok|].
  destruct (destroy_spec (P := sample_platform) (io_thread (Hplat := sample_platform) [7]) (open_client [Eof]) Hok
    (io_thread_activity (Hplat := sample_platform) [7])) as (H & _).
  split; [exact H|vm_compute; reflexivity].
Defined.
