(* ===== verification/ThreadProperties.v ===== *)
(** * The threads of the client: properties

    What holds of every interleaving of the threads of an open client: callers get
    their own responses, a shutdown goes through its phases in order, no thread
    waits for another except in the joins of [close], what is left to do decreases
    once the stop flag is set, and the unexpected-close callback runs at most once;
    and how [connect] leads there. *)

From coqutil Require Import Datatypes.RecordSetters.
From S2P Require Import Prelude Errors Buffer Codec Frame Command HandshakeCommands.
From S2P Require Import LifecycleCommands Config Dispatcher Socket Concurrency Dialogue Handshake.
From S2P Require Import Client ClientInvariant ClientThreads ClientProperties ClientTypes.
Import TriangleBracketNotations.

Local Open Scope Z_scope.

(** ** Progress of each thread *)

Section progress.
Context `{Hplat : Platform}.

Definition caller_moves (c : Client) (t : Caller) : Prop := exists c' t', caller_step c t c' t'.
Definition io_moves (c : Client) (i : IoThread) : Prop := exists c' i', io_step c i c' i'.
Definition hb_moves (c : Client) (h : HbThread) : Prop := exists c' h', hb_step c h c' h'.
Definition close_moves (s : System) : Prop :=
  exists c' k', close_step (io s) (hb s) (client s) (closer s) c' k'.

(** [send] blocks. *)
Definition send_blocks (data : bytes) (c : Client) : Prop := write_all data (net c) = None.

Lemma on_net_moves {A} (m : IO A) c :
  m (net c) = None \/ exists r c', on_net m c = Some (r, c').
Proof. rewrite on_net_eq. destruct (m (net c)) as [[r w]|]; [right; by do 2 eexists|by left]. Qed.

(** What a caller that cannot move waits for. *)
Definition caller_progress (c : Client) (t : Caller) : Prop :=
  match t with
  | Answered _ _ | Stored _ => True
  | Accepted _ => next_app_cid_ c + 1 < 2 ^ 32 -> caller_moves c t
  | Waits _ fut until => promises (dispatcher_ c) !! fut <> Some Unset \/ until <= clock c -> caller_moves c t
  | Stamped call cid _ => caller_moves c t \/ send_blocks (frame_of call cid) c
  | StoreStamped frame => caller_moves c t \/ send_blocks frame c
  | _ => caller_moves c t
  end.

Lemma caller_progress_ok c l t : refines (dispatcher_ c) l -> caller_ok l t -> caller_progress c t.
Proof.
  intros Hl Ht. destruct t as [call|call|call cid|call cid fut|call cid fut|cid fut until|o r|ref str off|ref str off|frame|r];
    cbn [caller_progress]; try done.
  - destruct (require_open c) as [[]|e] eqn:E; do 2 eexists; [by apply s_open|by apply s_refused].
  - intros Hnw. destruct (take_cid c) as [cid c'] eqn:E. do 2 eexists. by apply (s_cid _ _ cid).
  - destruct (register cid (wait_end c) c) as [fut c'] eqn:E.
    do 2 eexists. by eapply s_register.
  - destruct (check_outbound_frame_size (wrap 64 (zlen (frame_of call cid) - 4)) (negotiated_frame_max_ c))
      as [[]|e] eqn:E; do 2 eexists; [by apply s_stamp|by apply s_too_large].
  - destruct (on_net_moves (write_all (frame_of call cid)) c) as [H|([[]|e] & c' & H)]; [by right|left..];
      do 2 eexists; [by apply s_write|by eapply s_write_fails].
  - intros Hw. destruct (owed_wait l c cid fut Hl Ht) as [r Hr]. do 2 eexists. apply s_wait; [|done].
    intros Hp. by destruct Hw.
  - destruct (require_open c) as [[]|e] eqn:E; [|do 2 eexists; by apply o_refused].
    destruct (check_reference ref) as [[]|e] eqn:E'; do 2 eexists; [by apply o_open|by apply o_too_long].
  - do 2 eexists. by apply o_stamp.
  - destruct (on_net_moves (write_all frame) c) as [H|(r & c' & H)]; [by right|left].
    do 2 eexists. by apply o_write.
Qed.

Definition io_progress (c : Client) (i : IoThread) : Prop :=
  i = IoDone \/ io_moves c i \/ i = IoReading /\ read_frame (net c) = None.

Lemma io_progress_ok c i : client_ok c -> io_progress c i.
Proof.
  intros Hok. unfold io_progress, io_moves. destruct i as [| |[f|e]|f|f|e|evt| |]; [right; left|right|right; left..|by left].
  - destruct (stop_io_ c) eqn:Es; do 2 eexists; [by apply i_stop|by apply i_check].
  - destruct (on_net_moves read_frame c) as [H|(r & c' & H)]; [by right|].
    left. do 2 eexists. by apply (i_read _ r).
  - do 2 eexists. by apply i_inbound.
  - destruct (decide (kind e = Kind.RequestTimeout)) as [He|He].
    + destruct ((negotiated_heartbeat_ c >? 0) && (clock c - last_inbound_at_ c >? dead_interval c)) eqn:Eb.
      * destruct (fail_pending_ok heartbeat_timeout c Hok) as (c' & H & _). do 2 eexists. by apply i_dead.
      * destruct (reap_ok (clock c) c Hok) as (c' & H & _). do 2 eexists. by eapply i_idle.
    + destruct (fail_pending_ok e c Hok) as (c' & H & _). do 2 eexists. by apply i_failed.
  - destruct (reap_ok (clock c) c Hok) as (c' & H & _). do 2 eexists. by apply i_reap.
  - pose proof Hok as ((l & Hl) & _). destruct (dispatch_refines _ l f Hl) as (b & d & H & _).
    do 2 eexists. by eapply i_dispatch.
  - destruct (closing_ c) eqn:Ec; do 2 eexists; [by apply i_closing|by apply i_unexpected].
  - do 2 eexists. by apply i_notify.
  - do 2 eexists. by apply i_exit.
Qed.

Definition hb_progress (c : Client) (h : HbThread) : Prop :=
  h = HbDone \/ hb_moves c h \/ (exists now, h = HbDue now) /\ send_blocks (oneway_frame Heartbeat.Mk) c.

Lemma hb_progress_ok c h : hb_progress c h.
Proof.
  destruct h as [|now|now|]; [| | |by left]; right.
  - left. destruct (stop_io_ c) eqn:Es; do 2 eexists; [by apply h_stop|by apply h_early].
  - destruct (on_net_moves (write_all (oneway_frame Heartbeat.Mk)) c) as [H|(r & c' & H)].
    + right. split; [by eexists|done].
    + left. do 2 eexists. by eapply h_send.
  - left. do 2 eexists. by apply h_stamp.
Qed.

(** What a thread in [close] that cannot move waits for. *)
Definition close_progress (s : System) : Prop :=
  match closer s with
  | ClIdle => state_ (client s) = ConnectionState.Open -> close_moves s
  | ClBegun => next_app_cid_ (client s) + 1 < 2 ^ 32 -> close_moves s
  | ClEnrolled cid _ => close_moves s \/ send_blocks (request close_request cid) (client s)
  | ClWritten fut until =>
      promises (dispatcher_ (client s)) !! fut <> Some Unset \/ until <= clock (client s) -> close_moves s
  | ClSocketClosed => io s = IoDone -> close_moves s
  | ClJoinedIo => hb s = HbDone -> close_moves s
  | ClReturned => True
  | _ => close_moves s
  end.

Lemma close_progress_ok s : client_ok (client s) -> close_progress s.
Proof.
  intros Hok. unfold close_progress, close_moves. destruct (closer s) as [| |cid|cid fut|fut until| | | | | |]; try done.
  - intros Ho. do 2 eexists. by apply k_begin.
  - intros Hnw. destruct (take_cid (client s)) as [cid c'] eqn:E. do 2 eexists. by apply (k_cid _ _ _ cid).
  - destruct (register cid (wait_end (client s)) (client s)) as [fut c'] eqn:E.
    do 2 eexists. by eapply k_register.
  - destruct (writer_ (client s)) eqn:Ew.
    + destruct (on_net_moves (write_all (request close_request cid)) (client s)) as [H|(r & c' & H)]; [by right|left].
      do 2 eexists. eapply (k_write _ _ _ _ _ r). by rewrite Ew.
    + left. do 2 eexists. eapply (k_write _ _ _ _ _ (ok tt)). by rewrite Ew.
  - intros Hw. do 2 eexists. apply k_stop. intros Hp. by destruct Hw.
  - destruct (Sock.close (sock_ (client s)) (fds (client s))) as [so os] eqn:E. do 2 eexists. by apply (k_socket _ _ _ so os).
  - intros Hi. do 2 eexists. by apply k_join_io.
  - intros Hh. do 2 eexists. by apply k_join_hb.
  - destruct (fail_pending_ok connection_closed (client s) Hok) as (c' & H & _). do 2 eexists. by apply k_fail.
  - do 2 eexists. by apply k_closed.
Qed.

(** ** The callback *)

Definition notified (c0 c : Client) : Prop :=
  exists evs, fired c = fired c0 ++ evs /\ (length evs <= 1)%nat /\
    (evs <> [] -> unexpected_fired_ c = true) /\ (unexpected_fired_ c0 = true -> evs = [] /\ unexpected_fired_ c = true).

Lemma notified_refl c : notified c c.
Proof. exists []. rewrite app_nil_r. split; [done|]. split; [cbn; lia|]. by split. Qed.

Lemma notified_same c0 c c' :
  notified c0 c -> fired c' = fired c -> unexpected_fired_ c' = unexpected_fired_ c -> notified c0 c'.
Proof. intros (evs & H) Hf Hu. exists evs. by rewrite Hf, Hu. Qed.

Lemma notified_notify c0 c evt : notified c0 c -> notified c0 (notify_unexpected_close evt c).
Proof.
  intros (evs & Hf & Hl & Hu & H0). destruct (notify_fired evt c) as [Hn Hn']. unfold notified. rewrite Hn, Hn', Hf.
  destruct (unexpected_fired_ c) eqn:E.
  - exists evs. rewrite app_nil_r. split; [done|]. split; [done|]. split; [done|]. intros H. split; [|done]. by apply H0.
  - assert (evs = []) as -> by (destruct evs; [done|]; by discriminate Hu).
    assert (unexpected_fired_ c0 <> true) by (intros H; by destruct (H0 H)).
    destruct (on_unexpected_close_ c); eexists; rewrite <- app_assoc; (split; [done|]); (split; [cbn; lia|]); by split.
Qed.

Lemma fail_pending_same e c c' : fail_pending e c = Some c' -> fired c' = fired c /\ unexpected_fired_ c' = unexpected_fired_ c.
Proof. unfold fail_pending. destruct (fail_all_pending _ _); [|done]. by intros [= <-]. Qed.

Lemma reap_same now c c' : reap now c = Some c' -> fired c' = fired c /\ unexpected_fired_ c' = unexpected_fired_ c.
Proof. unfold reap. destruct (reap_expired _ _) as [[? ?]|]; [|done]. by intros [= <-]. Qed.

Lemma on_net_same {A} (m : IO A) c r c' :
  on_net m c = Some (r, c') -> fired c' = fired c /\ unexpected_fired_ c' = unexpected_fired_ c.
Proof. rewrite on_net_eq. destruct (m (net c)) as [[r' w]|]; [|done]. by intros [= _ <-]. Qed.

Hint Resolve fail_pending_same reap_same on_net_same conj : core.

Lemma register_same cid d c fut c' :
  register cid d c = (fut, c') -> fired c' = fired c /\ unexpected_fired_ c' = unexpected_fired_ c.
Proof. unfold register. destruct (register_pending _ _ _). by intros [= _ <-]. Qed.

(** Only the I/O thread notifies, on its way out. *)
Definition io_over (i : IoThread) : bool := match i with IoLeaving | IoDone => true | _ => false end.

Definition notified_by (c0 : Client) (s : System) : Prop :=
  notified c0 (client s) /\ (fired (client s) = fired c0 \/ io_over (io s) = true).

Lemma notified_by_same c0 s c' cs' i' h' k' :
  notified_by c0 s -> fired c' = fired (client s) /\ unexpected_fired_ c' = unexpected_fired_ (client s) ->
  (io_over (io s) = true -> io_over i' = true) -> notified_by c0 (MkSystem c' cs' i' h' k').
Proof.
  intros [H1 H2] [Hf Hu] Hi. split; [by eapply notified_same|]. cbn. rewrite Hf.
  destruct H2 as [H2|H2]; [by left|right; auto].
Qed.

Lemma sys_step_notified c0 s s' : notified_by c0 s -> sys_step s s' -> notified_by c0 s'.
Proof.
  intros Hn. destruct 1 as [s n t c' t' _ H|s c' i' H|s c' h' H|s c' k' H|s c' H].
  - apply (notified_by_same _ s); [done| |done].
    destruct H as [| |c call cid c' _ H|c call cid fut c' H| | | | | | | | | | | |]; eauto; try done.
    + by injection H as _ <-.
    + by eapply register_same.
  - destruct s as [c cs i h k]. cbn [client io hb callers closer] in *.
    destruct H; try (eapply notified_by_same; [exact Hn|cbn; by eauto|done]).
    + split; [by apply notified_notify, Hn|by right].
    + eapply notified_by_same; [exact Hn|cbn; unfold io_exit; by destruct (_ && _)|done].
  - apply (notified_by_same _ s); [done| |done]. destruct H; eauto; done.
  - apply (notified_by_same _ s); [done| |done].
    destruct H as [c|c cid c' _ H|c cid fut c' H|c cid fut r c' H| | | | | |]; eauto; try done.
    + by injection H as _ <-.
    + by eapply register_same.
    + destruct (writer_ c); [by eapply on_net_same|]. by injection H as _ <-.
  - apply (notified_by_same _ s); [done| |done]. by destruct H.
Qed.
End progress.

(** ** What is left to do *)

(** How many steps each thread still takes once the stop flag is set. *)
Definition caller_work (t : Caller) : nat :=
  match t with
  | Calling _ => 6 | Accepted _ => 5 | Numbered _ _ => 4 | Enrolled _ _ _ => 3 | Stamped _ _ _ => 2
  | Waits _ _ _ => 1 | Storing _ _ _ => 3 | StoreAccepted _ _ _ => 2 | StoreStamped _ => 1
  | Answered _ _ | Stored _ => 0
  end.
Definition io_work (i : IoThread) : nat :=
  match i with
  | IoReading => 7 | IoRead _ => 6 | IoFrame _ => 5 | IoReaped _ => 4 | IoFailed _ => 4 | IoNotify _ => 3
  | IoTop => 2 | IoLeaving => 1 | IoDone => 0
  end.
Definition hb_work (h : HbThread) : nat :=
  match h with HbDue _ => 3 | HbSent _ => 2 | HbTop => 1 | HbDone => 0 end.
Definition close_work (k : Closer) : nat :=
  match k with
  | ClIdle => 10 | ClBegun => 9 | ClNumbered _ => 8 | ClEnrolled _ _ => 7 | ClWritten _ _ => 6 | ClStopped => 5
  | ClSocketClosed => 4 | ClJoinedIo => 3 | ClJoinedBoth => 2 | ClFailedAll => 1 | ClReturned => 0
  end.
Definition work (s : System) : nat :=
  sum_list_with caller_work (callers s) + io_work (io s) + hb_work (hb s) + close_work (closer s).

Lemma work_caller ts n t t' :
  ts !! n = Some t ->
  (sum_list_with caller_work (<[n := t']> ts) + caller_work t = sum_list_with caller_work ts + caller_work t')%nat.
Proof.
  revert n. induction ts as [|u ts IH]; intros [|n] H; cbn in *; simplify_eq; [lia|].
  rewrite <- !Nat.add_assoc. f_equal. exact (IH n H).
Qed.

Section work.
Context `{Hplat : Platform}.

Lemma caller_step_work c t c' t' : caller_step c t c' t' -> (caller_work t' < caller_work t)%nat.
Proof. destruct 1; cbn; lia. Qed.

Lemma io_step_work c i c' i' : stop_io_ c = true -> io_step c i c' i' -> (io_work i' < io_work i)%nat.
Proof. intros Hs. destruct 1; cbn; first [lia|congruence]. Qed.

Lemma hb_step_work c h c' h' : stop_io_ c = true -> hb_step c h c' h' -> (hb_work h' < hb_work h)%nat.
Proof. intros Hs. destruct 1; cbn; first [lia|congruence]. Qed.

Lemma close_step_work i h c k c' k' : close_step i h c k c' k' -> (close_work k' < close_work k)%nat.
Proof. destruct 1; cbn; lia. Qed.

(** The flag is never cleared. *)
Lemma close_step_stop i h c k c' k' : close_step i h c k c' k' -> stop_io_ c = true -> stop_io_ c' = true.
Proof.
  destruct 1 as [c|c cid c' _ H|c cid fut c' H|c cid fut r c' H|c|c s os H|c|c|c c' H|c]; try done; intros Hs.
  - apply same_life_cid in H as [(_ & H & _) _]. by rewrite H.
  - apply same_life_register in H as [(_ & H & _) _]. by rewrite H.
  - destruct (writer_ c); [apply same_life_net in H as [(_ & H & _) _]; by rewrite H|by injection H as _ <-].
  - apply same_life_fail in H as [(_ & H & _) _]. by rewrite H.
Qed.

(** A step, once the flag is set. *)
Definition winds_down (s s' : System) : Prop :=
  stop_io_ (client s') = true /\
  ((work s' < work s)%nat \/ work s' = work s /\ callers s' = callers s /\ net_step (client s) (client s')).

Lemma sys_step_work s s' : stop_io_ (client s) = true -> sys_step s s' -> winds_down s s'.
Proof.
  intros Hs. unfold winds_down, work.
  destruct 1 as [s n t c' t' Hn H|s c' i' H|s c' h' H|s c' k' H|s c' H]; cbn [client callers io hb closer].
  - pose proof (caller_step_life _ _ _ _ H) as [(_ & -> & _) _]. pose proof (work_caller _ _ _ t' Hn).
    apply caller_step_work in H. split; [done|left; lia].
  - pose proof (io_step_life _ _ _ _ H) as [(_ & -> & _) _]. apply io_step_work in H; [|done].
    split; [done|left; lia].
  - pose proof (hb_step_life _ _ _ _ H) as [(_ & -> & _) _]. apply hb_step_work in H; [|done].
    split; [done|left; lia].
  - split; [by eapply close_step_stop|]. apply close_step_work in H. left; lia.
  - pose proof (net_step_life _ _ H) as [(_ & -> & _) _]. split; [done|]. by right.
Qed.

(** Some thread can take a step (what a thread does leaves less work). *)
Definition can_move (s : System) : Prop := exists s', sys_step s s' /\ (work s' < work s)%nat.

Lemma caller_can_move s n t :
  stop_io_ (client s) = true -> callers s !! n = Some t -> caller_moves (client s) t -> can_move s.
Proof.
  intros Hs Hn (c' & t' & H). eexists. split; [by eapply sys_caller|]. unfold work; cbn [client callers io hb closer].
  pose proof (work_caller _ _ _ t' Hn). apply caller_step_work in H. lia.
Qed.

Lemma io_can_move s : stop_io_ (client s) = true -> io_moves (client s) (io s) -> can_move s.
Proof.
  intros Hs (c' & i' & H). eexists. split; [by apply sys_io|]. unfold work; cbn [client callers io hb closer].
  apply io_step_work in H; [lia|done].
Qed.

Lemma hb_can_move s : stop_io_ (client s) = true -> hb_moves (client s) (hb s) -> can_move s.
Proof.
  intros Hs (c' & h' & H). eexists. split; [by apply sys_hb|]. unfold work; cbn [client callers io hb closer].
  apply hb_step_work in H; [lia|done].
Qed.

Lemma close_can_move s : close_moves s -> can_move s.
Proof.
  intros (c' & k' & H). eexists. split; [by apply sys_close|]. unfold work; cbn [client callers io hb closer].
  apply close_step_work in H. lia.
Qed.

(** A thread is in a system call that does not return. *)
Definition blocked (s : System) : Prop :=
  io s = IoReading /\ read_frame (net (client s)) = None \/
  (exists now, hb s = HbDue now) /\ send_blocks (oneway_frame Heartbeat.Mk) (client s) \/
  (exists call cid fut, Stamped call cid fut ∈ callers s /\ send_blocks (frame_of call cid) (client s)) \/
  exists frame, StoreStamped frame ∈ callers s /\ send_blocks frame (client s).

(** A caller waits for its response, and its time is not up. *)
Definition waiting (s : System) : Prop :=
  exists cid fut until, Waits cid fut until ∈ callers s /\ clock (client s) < until.

(** Some caller has not returned. *)
Lemma callers_work ts :
  (sum_list_with caller_work ts = 0)%nat \/ exists n t, ts !! n = Some t /\ caller_work t <> 0%nat.
Proof.
  induction ts as [|t ts [IH|(n & u & H)]]; [by left| |right; by exists (S n), u].
  destruct (caller_work t) eqn:E; [left; cbn; by rewrite E|]. right. exists 0%nat, t. cbn. by rewrite E.
Qed.

Lemma caller_moves_or_blocked s n t :
  callers s !! n = Some t -> caller_progress (client s) t -> caller_work t <> 0%nat ->
  next_app_cid_ (client s) + 1 < 2 ^ 32 -> caller_moves (client s) t \/ blocked s \/ waiting s.
Proof.
  intros Hn Hp Hw Hc. assert (Hin : t ∈ callers s) by by eapply list_elem_of_lookup_2.
  unfold blocked. destruct t as [| | | | |cid fut until| | | | |]; cbn in *; try done; try naive_solver.
  destruct (Z.le_gt_cases until (clock (client s))) as [H|H]; [auto|].
  right; right. by exists cid, fut, until.
Qed.

(** Everybody has finished. *)
Definition returned (t : Caller) : Prop := match t with Answered _ _ | Stored _ => True | _ => False end.
Definition finished (s : System) : Prop :=
  Forall returned (callers s) /\ io s = IoDone /\ hb s = HbDone /\ closer s = ClReturned.

Lemma work_finished s : work s = 0%nat -> finished s.
Proof.
  unfold work, finished. intros Hw.
  assert (H : sum_list_with caller_work (callers s) = 0%nat /\ io_work (io s) = 0%nat /\ hb_work (hb s) = 0%nat /\
    close_work (closer s) = 0%nat) by lia.
  destruct H as (Hc & Hi & Hh & Hk). split_and!; [|by destruct (io s)|by destruct (hb s)|by destruct (closer s)].
  clear - Hc. induction (callers s) as [|t ts IH]; [constructor|].
  change (caller_work t + sum_list_with caller_work ts = 0)%nat in Hc.
  apply Nat.eq_add_0 in Hc as [Ht Hts]. constructor; [by destruct t|by apply IH].
Qed.

Lemma moves_or_blocked s :
  stop_io_ (client s) = true ->
  Forall (caller_progress (client s)) (callers s) -> io_progress (client s) (io s) ->
  hb_progress (client s) (hb s) -> close_progress s -> closer s <> ClIdle ->
  (forall cid fut, closer s <> ClEnrolled cid fut) -> (forall fut until, closer s <> ClWritten fut until) ->
  next_app_cid_ (client s) + 1 < 2 ^ 32 ->
  work s = 0%nat \/ (blocked s \/ waiting s) \/ can_move s.
Proof.
  intros Hs Hcs Hi Hh Hk Hidle Henr Hwr Hc.
  destruct Hi as [Hi|[Hi|Hi]]; [|right; right; by apply io_can_move|by right; left; left; left].
  destruct Hh as [Hh|[Hh|Hh]]; [|right; right; by apply hb_can_move|by right; left; left; right; left].
  destruct (callers_work (callers s)) as [Hw|(n & t & Hn & Hw)].
  - unfold work. rewrite Hi, Hh, Hw. unfold close_progress in Hk.
    assert (Hm : close_moves s \/ close_work (closer s) = 0%nat).
    { destruct (closer s); try (left; auto; done); [by destruct (Henr cid fut)|by destruct (Hwr fut until)|by right]. }
    destruct Hm as [Hm|Hm]; [right; right; by apply close_can_move|by left; rewrite Hm].
  - rewrite Forall_forall in Hcs. assert (Hin : t ∈ callers s) by by eapply list_elem_of_lookup_2.
    destruct (caller_moves_or_blocked s n t Hn (Hcs t Hin) Hw Hc) as [H|H]; [|by right; left].
    right; right. by eapply caller_can_move.
Qed.
End work.

(** ** Properties *)

(** C3.  No crosstalk.  Any number of threads make requests of an open client, in
    any interleaving with each other, the I/O thread, the heartbeat thread and a
    thread that closes the client.  A caller is only ever handed a frame that
    answers its own correlation id, no two callers have the same id, a caller that
    waits always has a future that can be read, and the client's invariant holds
    throughout. *)
Theorem no_crosstalk {P : Platform} (c0 : Client) (calls : list Caller) (s : System)
  (Hopened : opened c0) (Hcalls : Forall at_start calls) (Hrun : rtc sys_step (started c0 calls) s) :
  (forall n o f, callers s !! n = Some (Answered o (ok f)) -> exists cid, o = Some cid /\ response_to f = Some cid) /\
  (forall n m t u cid, callers s !! n = Some t -> callers s !! m = Some u ->
     cid ∈ cid_of t -> cid ∈ cid_of u -> n = m) /\
  (forall n cid fut until, callers s !! n = Some (Waits cid fut until) -> is_Some (wait_part fut (client s))) /\
  client_ok (client s).
Proof.
  destruct (run_inv c0 calls s Hopened Hcalls Hrun) as (l & Hinv).
  pose proof (inv_callers _ _ Hinv) as Hcs. rewrite Forall_lookup in Hcs. split_and!.
  - intros n [cid|] f Hn; specialize (Hcs n _ Hn); [by exists cid|done].
  - intros n m t u cid. eapply nodup_owner. apply (inv_cids _ _ Hinv).
  - intros n cid fut until Hn. eapply owed_wait; [apply Hinv|exact (Hcs n _ Hn)].
  - apply Hinv.
Qed.

(** A sample client just opened, and two requests of it. *)
Definition two_answers : list InEvent := [Data (enc_frame (answer_to 101) ++ enc_frame (answer_to 100))].
Definition two_calls : list Caller := [Calling (MkCall 13 1 []); Calling (MkCall 14 1 [])].

(** The end of a wait that begins at once. *)
Definition one_end : Z := wait_end (open_client []).

Lemma open_client_opened inb : queue_ok inb -> opened (open_client inb).
Proof. intros Hq. split; [|done]. exact (new_client_ok default_config (net (open_client inb)) ∅ Hq). Qed.

(** A request from its start to its wait. *)
Lemma call_run `{Hplat : Platform} call c r c' n ts i h k :
  ts !! n = Some (Calling call) -> require_open c = ok tt -> next_app_cid_ c + 1 < 2 ^ 32 ->
  send_part (c_key call) (c_version call) (c_body call) (clock c) c = Some (ok r, c') ->
  rtc sys_step (MkSystem c ts i h k) (MkSystem c' (<[n := Waits (next_app_cid_ c) r (wait_end c)]> ts) i h k).
Proof.
  intros Hn Ho Hnw Hs. apply (caller_run_sys _ _ (Calling call)); [|done].
  etransitivity; [by apply run_caller, s_open|]. exact (send_part_run call c (ok r) c' Hnw Hs).
Qed.

Lemma wait_run `{Hplat : Platform} c cid fut until r n ts i h k :
  ts !! n = Some (Waits cid fut until) -> promises (dispatcher_ c) !! fut = Some (Satisfied r) ->
  rtc sys_step (MkSystem c ts i h k) (MkSystem c (<[n := Answered (Some cid) r]> ts) i h k).
Proof.
  intros Hn Hw. apply (caller_run_sys _ _ (Waits cid fut until)); [|done].
  apply run_caller, s_wait; [|unfold wait_part; by rewrite Hw]. intros H. by rewrite Hw in H.
Qed.

(** Chain runs whose end states are computed. *)
Tactic Notation "run_next" uconstr(lem) := etransitivity; [eapply lem; vm_compute; reflexivity|cbn [callers]].

Lemma two_calls_run :
  exists c, rtc (sys_step (Hplat := sample_platform)) (started (open_client two_answers) two_calls)
    (MkSystem c [Answered (Some 100) (ok (answer_to 100)); Answered (Some 101) (ok (answer_to 101))] IoTop HbDone ClIdle).
Proof.
  eexists. unfold started, two_calls. change (heartbeat_thread_ _) with false. cbn [cid_of].
  run_next (call_run (Hplat := sample_platform) (MkCall 13 1 []) _ _ _ 0).
  run_next (call_run (Hplat := sample_platform) (MkCall 14 1 []) _ _ _ 1).
  run_next (io_iteration_run (Hplat := sample_platform)).
  run_next (io_iteration_run (Hplat := sample_platform)).
  run_next (wait_run (Hplat := sample_platform) _ _ _ _ _ 0).
  run_next (wait_run (Hplat := sample_platform) _ _ _ _ _ 1).
  reflexivity.
Qed.

Lemma no_crosstalk_witness :
  opened (open_client two_answers) /\
  exists s, rtc (sys_step (Hplat := sample_platform)) (started (open_client two_answers) two_calls) s /\
    callers s = [Answered (Some 100) (ok (answer_to 100)); Answered (Some 101) (ok (answer_to 101))] /\
    client_ok (client s).
Proof.
  assert (Ho : opened (open_client two_answers)) by (apply open_client_opened; unfold queue_ok; decided).
  split; [exact Ho|]. destruct two_calls_run as [c Hrun].
  assert (Hcalls : Forall at_start two_calls) by (repeat constructor).
  pose proof (no_crosstalk (P := sample_platform) _ _ _ Ho Hcalls Hrun) as (_ & _ & _ & Hc).
  eexists. split; [exact Hrun|]. split; [reflexivity|exact Hc].
Defined.

(** What [life] says of the phases of a shutdown. *)
Lemma life_phases c0 s :
  life c0 s ->
  (state_ (client s) = ConnectionState.Open -> closer s = ClIdle /\ io s <> IoDone) /\
  (state_ (client s) = ConnectionState.Closing -> closer s <> ClIdle /\ closing_ (client s) = true) /\
  (state_ (client s) = ConnectionState.Closed -> io s = IoDone /\ (closer s = ClIdle \/ closer s = ClReturned)) /\
  (stop_io_ (client s) = false -> sock_ (client s) = sock_ c0 /\ fds (client s) = fds c0) /\
  (closer s = ClReturned ->
     state_ (client s) = ConnectionState.Closed /\ io s = IoDone /\ hb s = HbDone /\ stop_io_ (client s) = true /\
     Sock.close (sock_ c0) (fds c0) = (sock_ (client s), fds (client s))).
Proof.
  intros Hl. unfold life in Hl.
  destruct (closer s) eqn:Ek; destruct_and?; [destruct (io s) eqn:Ei; cbn [io_ended] in *|..];
    repeat split; intros; try congruence; auto.
Qed.

(** C8.  The order of a shutdown.  In every interleaving, the client is open until
    the I/O thread has ended or a thread is in [close]; it is never closed while the
    I/O thread runs, unless [close] is past its joins; the socket is only closed
    once the stop flag is set; and when [close] has returned the client is closed,
    both threads have finished, and exactly the connection's descriptor has been
    closed. *)
Theorem shutdown_protocol {P : Platform} (c0 : Client) (calls : list Caller) (s : System)
  (Hopened : opened c0) (Hcalls : Forall at_start calls) (Hrun : rtc sys_step (started c0 calls) s) :
  (state_ (client s) = ConnectionState.Open -> closer s = ClIdle /\ io s <> IoDone) /\
  (state_ (client s) = ConnectionState.Closing -> closer s <> ClIdle /\ closing_ (client s) = true) /\
  (state_ (client s) = ConnectionState.Closed -> io s = IoDone /\ (closer s = ClIdle \/ closer s = ClReturned)) /\
  (stop_io_ (client s) = false -> sock_ (client s) = sock_ c0 /\ fds (client s) = fds c0) /\
  (closer s = ClReturned ->
     state_ (client s) = ConnectionState.Closed /\ io s = IoDone /\ hb s = HbDone /\ stop_io_ (client s) = true /\
     Sock.close (sock_ c0) (fds c0) = (sock_ (client s), fds (client s))).
Proof. by apply life_phases, (run_life c0 calls). Qed.

(** A client when its [request_timeout] has passed. *)
Definition later (c : Client) : Client := c <| clock := clock c `max` wait_end c |>.

Lemma later_run `{Hplat : Platform} c ts i h k :
  rtc sys_step (MkSystem c ts i h k) (MkSystem (later c) ts i h k).
Proof. apply rtc_once, (sys_net (MkSystem c ts i h k)), n_tick. cbn. lia. Qed.

Lemma later_over c fut : wait_over fut (wait_end c) (later c).
Proof. intros _. change (wait_end c <= clock c `max` wait_end c). lia. Qed.

(** The client is closed by another thread while a caller is about to register. *)
Lemma closed_run :
  exists c, rtc (sys_step (Hplat := sample_platform)) (started (open_client []) two_calls)
    (MkSystem c two_calls IoDone HbDone ClReturned) /\ stop_io_ c = true /\ next_app_cid_ c = 101.
Proof.
  eexists. split.
  - unfold started. change (heartbeat_thread_ _) with false. cbn [cid_of].
    eapply (close_run later io_exit id); [vm_compute; reflexivity..| | | |vm_compute; reflexivity].
    + intros c fut. split; [apply later_run|apply later_over].
    + intros c Hs. etransitivity; [by apply run_io, i_stop|]. apply run_io, i_exit.
    + intros c. reflexivity.
  - split; reflexivity.
Qed.

Lemma shutdown_protocol_witness :
  opened (open_client []) /\
  exists s, rtc (sys_step (Hplat := sample_platform)) (started (open_client []) two_calls) s /\
    closer s = ClReturned /\ stop_io_ (client s) = true.
Proof.
  assert (Ho : opened (open_client [])) by (apply open_client_opened; constructor).
  split; [exact Ho|]. destruct closed_run as (c & Hrun & _).
  assert (Hcalls : Forall at_start two_calls) by (repeat constructor).
  pose proof (shutdown_protocol (P := sample_platform) _ _ _ Ho Hcalls Hrun) as (_ & _ & _ & _ & H).
  eexists. split; [exact Hrun|]. split; [reflexivity|exact (proj1 (proj2 (proj2 (proj2 (H eq_refl)))))].
Defined.

(** C18.  No deadlock.  In every interleaving, each caller can take its next step or
    has returned, except inside a [send] that blocks and while it waits with its
    promise open and its time not up; so can the I/O thread, except
    inside a [recv], and the heartbeat thread; and [close] waits for nothing else
    than a [send], the response or [request_timeout], and its two joins.  (A caller that draws a correlation id is
    assumed not to wrap the counter around.) *)
Theorem threads_progress {P : Platform} (c0 : Client) (calls : list Caller) (s : System)
  (Hopened : opened c0) (Hcalls : Forall at_start calls) (Hrun : rtc sys_step (started c0 calls) s) :
  Forall (caller_progress (client s)) (callers s) /\ io_progress (client s) (io s) /\
  hb_progress (client s) (hb s) /\ close_progress s.
Proof.
  destruct (run_inv c0 calls s Hopened Hcalls Hrun) as (l & Hinv). split_and!.
  - eapply Forall_impl; [exact (inv_callers _ _ Hinv)|]. intros t. apply caller_progress_ok, Hinv.
  - apply io_progress_ok, Hinv.
  - apply hb_progress_ok.
  - apply close_progress_ok, Hinv.
Qed.

Lemma threads_progress_witness :
  opened (open_client two_answers) /\
  Forall (caller_progress (Hplat := sample_platform) (open_client two_answers)) two_calls /\
  io_progress (Hplat := sample_platform) (open_client two_answers) IoTop.
Proof.
  assert (Ho : opened (open_client two_answers)) by (apply open_client_opened; unfold queue_ok; decided).
  split; [exact Ho|].
  assert (Hcalls : Forall at_start two_calls) by (repeat constructor).
  pose proof (threads_progress (P := sample_platform) _ _ _ Ho Hcalls (rtc_refl _ _)) as (H1 & H2 & _).
  split; [exact H1|exact H2].
Defined.

(** Once the stop flag is set: every step of a thread leaves less work, and until no
    work is left a thread can move or is blocked. *)
Lemma stopped_moves `{Hplat : Platform} c0 l s :
  life c0 s -> sys_inv s l -> stop_io_ (client s) = true ->
  (forall s', sys_step s s' -> winds_down s s') /\
  (next_app_cid_ (client s) + 1 < 2 ^ 32 -> work s = 0%nat \/ (blocked s \/ waiting s) \/ can_move s).
Proof.
  intros Hl Hinv Hstop. split; [intros s'; by apply sys_step_work|].
  intros Hc. apply moves_or_blocked; try done.
  - eapply Forall_impl; [exact (inv_callers _ _ Hinv)|]. intros t. apply caller_progress_ok, Hinv.
  - apply io_progress_ok, Hinv.
  - apply hb_progress_ok.
  - apply close_progress_ok, Hinv.
  - intros Hk. unfold life in Hl. rewrite Hk in Hl. destruct Hl as (_ & Hl & _). congruence.
  - intros cid fut Hk. unfold life in Hl. rewrite Hk in Hl. destruct Hl as ((_ & _ & Hl) & _). congruence.
  - intros fut until Hk. unfold life in Hl. rewrite Hk in Hl. destruct Hl as ((_ & _ & Hl) & _). congruence.
Qed.

(** Time never goes back. *)
Lemma sys_step_clock `{Hplat : Platform} s s' : sys_step s s' -> clock (client s) <= clock (client s').
Proof.
  destruct 1 as [s n t c' t' Hn H|s c' i' H|s c' h' H|s c' k' H|s c' H]; cbn [client].
  - by apply caller_step_life in H as [(_ & _ & _ & _ & _ & _ & H) _].
  - by apply io_step_life in H as [(_ & _ & _ & _ & _ & _ & H) _].
  - by apply hb_step_life in H as [(_ & _ & _ & _ & _ & _ & H) _].
  - destruct H as [c|c cid c' _ H|c cid fut c' H|c cid fut r c' H|c|c so os H|c|c|c c' H|c]; try apply Z.le_refl.
    + by apply same_life_cid in H as [(_ & _ & _ & _ & _ & _ & H) _].
    + by apply same_life_register in H as [(_ & _ & _ & _ & _ & _ & H) _].
    + destruct (writer_ c); [by apply same_life_net in H as [(_ & _ & _ & _ & _ & _ & H) _]|].
      by injection H as _ <-.
    + by apply same_life_fail in H as [(_ & _ & _ & _ & _ & _ & H) _].
  - by apply net_step_life in H as [(_ & _ & _ & _ & _ & _ & H) _].
Qed.

(** C19.  The unexpected-close callback, in every interleaving: since the connection
    was opened it has been started at most once, never if it had fired before, and
    by an I/O thread that does nothing afterwards but end. *)
Theorem callback_once {P : Platform} (c0 : Client) (calls : list Caller) (s : System)
  (Hrun : rtc sys_step (started c0 calls) s) :
  exists evs, fired (client s) = fired c0 ++ evs /\ (length evs <= 1)%nat /\
    (unexpected_fired_ c0 = true -> evs = []) /\ (evs <> [] -> io s = IoLeaving \/ io s = IoDone).
Proof.
  assert (H : notified_by c0 s).
  { assert (H0 : notified_by c0 (started c0 calls)) by (split; [apply notified_refl|by left]).
    revert H0. induction Hrun as [|s1 s2 s3 H _ IH]; [done|]. intros H0. by apply IH, (sys_step_notified _ s1). }
  destruct H as [(evs & Hf & Hl & _ & Hu) Hover]. exists evs. split_and!; [done|done|by intros [? _]%Hu|].
  intros Hne. destruct Hover as [Heq|Hover]; [|by destruct (io s); auto].
  rewrite Hf in Heq. apply (f_equal length) in Heq. rewrite length_app in Heq. destruct evs; [done|cbn in Heq; lia].
Qed.

Lemma callback_once_witness :
  let c0 := on_unexpected_close 3 (open_client [Eof]) in
  exists s, rtc (sys_step (Hplat := sample_platform)) (started c0 []) s /\
    fired (client s) = [(3%nat, MkUnexpectedClose CloseReason.PeerClosedSocket (lit "peer closed connection") false)] /\
    exists evs, fired (client s) = fired c0 ++ evs /\ (length evs <= 1)%nat.
Proof.
  cbn zeta. set (c0 := on_unexpected_close 3 (open_client [Eof])).
  assert (Hrun : exists c, rtc (sys_step (Hplat := sample_platform)) (started c0 []) (MkSystem c [] IoLeaving HbDone ClIdle) /\
    fired c = [(3%nat, MkUnexpectedClose CloseReason.PeerClosedSocket (lit "peer closed connection") false)]).
  { eexists. split.
    - unfold started. change (heartbeat_thread_ c0) with false. cbn match.
      eapply (io_iteration_run (Hplat := sample_platform) c0 true). vm_compute. reflexivity.
    - reflexivity. }
  destruct Hrun as (c & Hrun & Hf). eexists. split; [exact Hrun|]. split; [exact Hf|].
  destruct (callback_once (P := sample_platform) _ _ _ Hrun) as (evs & H1 & H2 & _).
  exists evs. split; [exact H1|exact H2].
Defined.

(** ** From [connect] to the threads *)

Lemma connection_opened_frame `{Hplat : Platform} hs now c :
  let c' := connection_opened hs now c in
  dispatcher_ c' = dispatcher_ c /\ next_app_cid_ c' = next_app_cid_ c /\ unexpected_fired_ c' = false.
Proof.
  cbn zeta. unfold connection_opened.
  match goal with |- context [set_half_heartbeat ?n ?x] => destruct (set_half_heartbeat_eq n x) as [rt ->] end.
  change (negotiated_heartbeat_ (_ <| io_thread_ := _ |>)) with (negotiated_heartbeat hs).
  generalize (virtual_host (cfg_ c)). intros _. destruct (negotiated_heartbeat hs >? 0); unfold log_info; destruct c; done.
Qed.

(** Connecting starts the threads on a good client.  Whatever the server sends
    and the system calls answer, when [connect] returns success the client
    satisfies its invariant and is open, the I/O thread runs, the heartbeat thread
    runs exactly when a heartbeat was negotiated, and no unexpected close counts as
    reported: every property of the interleaved threads holds from there. *)
Lemma connect_opens {P : Platform} (getaddrinfo : std_string -> std_string -> Z + list ResolvedAddr)
  (answers : ResolvedAddr -> Attempt) (now : Z) (c c' : Client)
  (Hok : client_ok c) (Hhb : heartbeat_thread_ c = false)
  (Hrun : connect getaddrinfo answers now c = Some (ok tt, c')) :
  opened c' /\ io_thread_ c' = true /\ heartbeat_thread_ c' = (negotiated_heartbeat_ c' >? 0) /\
  unexpected_fired_ c' = false /\
  started c' [] = MkSystem c' [] IoTop (if negotiated_heartbeat_ c' >? 0 then HbTop else HbDone) ClIdle.
Proof.
  revert Hrun. unfold connect. destruct (validate _); [|done]. destruct (negb _); [done|].
  match goal with |- context [log_info ?m ?x] => set (c0 := log_info m x) end.
  destruct (connect_with_timeout _ _ _ _ _ _) as [[s|e] os]; [|done].
  destruct (Sock.assign _ _ _) as [[so s'] os'].
  match goal with |- context [set_half_heartbeat ?n ?x] => destruct (set_half_heartbeat_eq n x) as [rt ->] end.
  match goal with |- context [on_net _ ?x] => set (c2 := x) end.
  assert (Hok2 : client_ok c2) by exact Hok. assert (Hhb2 : heartbeat_thread_ c2 = false) by exact Hhb.
  rewrite on_net_eq. destruct (run_handshake _ _) as [[[hs|e] w]|] eqn:E; [|by destruct (Sock.close _ _)|done].
  set (c3 := c2 <| net := w |>). intros [= <-].
  destruct (connection_opened_spec hs now c3) as (Hs & Hcl & Hst & _ & _ & Hi & _ & _ & Hnh & Hio & Hht).
  destruct (connection_opened_frame hs now c3) as (Hd & Hcid & Huf).
  assert (Hok3 : client_ok (connection_opened hs now c3)).
  { unfold client_ok. rewrite Hd, Hcid, Hi. destruct Hok2 as (Hl & Hq & Hrem).
    split; [exact Hl|]. split; [|exact Hrem]. eapply queue_kept; [exact Hq|exact E]. }
  assert (Hht' : heartbeat_thread_ (connection_opened hs now c3) = (negotiated_heartbeat hs >? 0)).
  { rewrite Hht. change (heartbeat_thread_ c3) with (heartbeat_thread_ c2). rewrite Hhb2.
    by destruct (_ >? 0). }
  unfold started. rewrite Hnh, Hht'. split; [|done]. by do 3 (split; [done|]).
Qed.

Lemma connect_opens_witness :
  let c := new_client default_config (sample_world (server_side ++ [7])) ∅ in
  client_ok c /\
  exists c', connect (Hplat := sample_platform) local_host (fun _ => connected_at_once) 9 c = Some (ok tt, c') /\
    opened c' /\ heartbeat_thread_ c' = true.
Proof.
  cbn zeta. set (c := new_client _ _ _).
  assert (Hok : client_ok c) by (apply new_client_ok; unfold queue_ok; decided).
  split; [exact Hok|].
  destruct (connect (Hplat := sample_platform) local_host (fun _ => connected_at_once) 9 c) as [[r c']|] eqn:E;
    [|vm_compute in E; discriminate E].
  assert (r = ok tt) as -> by (vm_compute in E; congruence).
  destruct (connect_opens (P := sample_platform) local_host (fun _ => connected_at_once) 9 c c' Hok eq_refl E)
    as (Ho & _ & Hh & _).
  exists c'. split; [reflexivity|]. split; [exact Ho|]. rewrite Hh. vm_compute in E. injection E as <-. reflexivity.
Defined.
