(* ===== verification/Liveness.v ===== *)
(** * The threads of the client over time

    Infinite runs of the threads, and what must happen in them: a shutdown completes
    under a fair scheduler, and a response that has been dispatched is what its
    caller returns. *)

From coqutil Require Import Datatypes.RecordSetters.
From S2P Require Import Prelude Fairness Errors Buffer Codec Frame Command HandshakeCommands.
From S2P Require Import LifecycleCommands Config Dispatcher Socket Concurrency Dialogue Handshake.
From S2P Require Import Client ClientInvariant ClientThreads ClientProperties ThreadProperties.
Import TriangleBracketNotations.

Local Open Scope Z_scope.

(** ** Shutting down *)

Section stopping.
Context `{Hplat : Platform}.

(** The invariants of the threads, once the stop flag has been set; and what can hold
    the threads up: a system call, a wait, or the end of the correlation ids. *)
Definition stopping (c0 : Client) (s : System) : Prop :=
  life c0 s /\ (exists l, sys_inv s l) /\ stop_io_ (client s) = true.
Definition held_up (s : System) : Prop := (blocked s \/ waiting s) \/ ~ next_app_cid_ (client s) + 1 < 2 ^ 32.

Lemma stopping_step c0 s s' :
  stopping c0 s -> sys_step s s' -> stopping c0 s' /\ (work s' <= work s)%nat.
Proof.
  intros (Hl & (l & Hinv) & Hstop) Hstep.
  destruct (stopped_moves c0 l s Hl Hinv Hstop) as [H _]. destruct (H _ Hstep) as [Hs Hw].
  split; [split_and!; [by eapply sys_step_life|by eapply sys_step_inv|done]|]. destruct Hw as [Hw|[Hw _]]; lia.
Qed.

(** Time passes: the clock reaches every value, again and again. *)
Definition time_passes (run : nat -> System) : Prop :=
  forall t i, exists j, (i <= j)%nat /\ t <= clock (client (run j)).

Lemma run_clock run i j :
  infinite_run sys_step run -> (i <= j)%nat -> clock (client (run i)) <= clock (client (run j)).
Proof.
  intros Hrun. induction 1 as [|j _ IH]; [done|]. etransitivity; [exact IH|]. apply sys_step_clock, Hrun.
Qed.

(** While no work is done the callers stay where they are. *)
Lemma idle_callers c0 run i j :
  stopping c0 (run 0%nat) -> infinite_run sys_step run -> (i <= j)%nat -> work (run j) = work (run i) ->
  callers (run j) = callers (run i).
Proof.
  intros Hstart Hrun Hij. induction Hij as [|j Hij IH]; [done|]. intros Hw.
  assert (Hinv : forall k, stopping c0 (run k)).
  { apply (run_invariant sys_step work); [|done..]. intros s s'. by apply stopping_step. }
  assert (Hle : (work (run j) <= work (run i))%nat).
  { apply (run_work sys_step work (stopping c0)); [|done..]. intros s s'. by apply stopping_step. }
  destruct (Hinv j) as (_ & _ & Hs). destruct (sys_step_work _ _ Hs (Hrun j)) as [_ [H|(H & -> & _)]]; [lia|].
  apply IH. lia.
Qed.

(** Every wait is over in the end. *)
Lemma waits_end c0 run i :
  stopping c0 (run 0%nat) -> infinite_run sys_step run -> time_passes run ->
  exists K, forall j, (K <= j)%nat -> (i <= j)%nat -> work (run j) = work (run i) -> ~ waiting (run j).
Proof.
  intros Hstart Hrun Htime.
  assert (Hmax : exists t, forall cid fut until, Waits cid fut until ∈ callers (run i) -> until <= t).
  { induction (callers (run i)) as [|u ts [t IH]]; [exists 0; intros ??? H; by apply not_elem_of_nil in H|].
    exists (match u with Waits _ _ until => t `max` until | _ => t end).
    intros cid fut until [<-|H]%elem_of_cons; [lia|]. specialize (IH _ _ _ H). destruct u; lia. }
  destruct Hmax as [t Ht]. destruct (Htime t i) as (K & _ & HK). exists K.
  intros j Hj Hij Hw (cid & fut & until & Hin & Hlt).
  rewrite (idle_callers c0 run i j Hstart Hrun Hij Hw) in Hin. apply Ht in Hin.
  pose proof (run_clock run K j Hrun Hj). lia.
Qed.

Lemma stopping_progress c0 s :
  stopping c0 s -> work s = 0%nat \/ held_up s \/ can_progress sys_step work s.
Proof.
  intros (Hl & (l & Hinv) & Hstop). destruct (stopped_moves c0 l s Hl Hinv Hstop) as [_ H].
  destruct (decide (next_app_cid_ (client s) + 1 < 2 ^ 32)) as [Hc|Hc]; [|right; left; by right].
  destruct (H Hc) as [Hz|[Hb|Hm]]; [by left|right; left; by left|by right; right].
Qed.

(** From such a point on, a fair run that nothing holds up for ever finishes. *)
Lemma stopping_finishes c0 run M :
  stopping c0 (run 0%nat) -> infinite_run sys_step run -> fair sys_step work run -> time_passes run ->
  (forall i, (M <= i)%nat -> ~ blocked (run i)) -> (forall i, next_app_cid_ (client (run i)) + 1 < 2 ^ 32) ->
  exists N, forall i, (N <= i)%nat ->
    finished (run i) /\ state_ (client (run i)) = ConnectionState.Closed /\
    Sock.close (sock_ c0) (fds c0) = (sock_ (client (run i)), fds (client (run i))).
Proof.
  intros Hstart Hrun Hfair Htime Hreturns Hcid.
  destruct (fair_run_ends sys_step work (stopping c0) held_up run) as [N HN]; try done.
  - intros s s'. by apply stopping_step.
  - intros s. by apply stopping_progress.
  - intros i. destruct (waits_end c0 run i Hstart Hrun Htime) as [K HK]. exists (K `max` M)%nat.
    intros j Hj Hij Hw [[Hb|Hb]|Hb]; [|by apply (HK j ltac:(lia) Hij Hw)|by destruct (Hb (Hcid j))].
    by apply (Hreturns j); [lia|].
  - exists N. intros i Hi. assert (Hf : finished (run i)) by (by apply work_finished, HN). split; [done|].
    destruct (run_invariant sys_step work (stopping c0) run) with (i := i) as [Hl _]; try done.
    { intros s s'. by apply stopping_step. }
    destruct Hf as (_ & _ & _ & Hk). unfold life in Hl. rewrite Hk in Hl. tauto.
Qed.
End stopping.

(** ** A response that has been dispatched *)

Section delivery.
Context `{Hplat : Platform}.

Lemma run_reachable c0 calls run :
  infinite_run sys_step run -> rtc sys_step (started c0 calls) (run 0%nat) ->
  forall i, rtc sys_step (started c0 calls) (run i).
Proof. intros Hrun Hstart i. etransitivity; [exact Hstart|]. apply run_reaches; [done|lia]. Qed.

(** A step is an operation of the dispatcher, or leaves it alone. *)
Lemma quiet_dispatcher c c' :
  quiet_step c c' ->
  dispatcher_ c' = dispatcher_ c \/ exists op out, step op (dispatcher_ c) = Some (out, dispatcher_ c').
Proof. intros (_ & _ & [H|(op & out & _ & H)]); [by left|right; by exists op, out]. Qed.

Lemma register_dispatcher cid d c fut c' :
  register cid d c = (fut, c') ->
  exists op out, step op (dispatcher_ c) = Some (out, dispatcher_ c').
Proof.
  unfold register. destruct (register_pending cid d (dispatcher_ c)) as [n st] eqn:E. intros [= _ <-].
  exists (RegisterPending cid d), (OutFuture n). cbn [step]. by rewrite E.
Qed.

Lemma sys_step_dispatcher s l s' :
  sys_inv s l -> sys_step s s' ->
  dispatcher_ (client s') = dispatcher_ (client s) \/
  exists op out, step op (dispatcher_ (client s)) = Some (out, dispatcher_ (client s')).
Proof.
  intros Hinv Hstep. assert (Hq : queue_ok (inbox (net (client s)))) by apply Hinv.
  destruct Hstep as [s n t c' t' Hn H|s c' i' H|s c' h' H|s c' k' H|s c' H].
  - pose proof (caller_step_quiet _ _ _ _ l Hq (inv_table _ _ Hinv) H) as Hquiet.
    destruct t; try apply quiet_dispatcher, Hquiet.
    + inversion H as [| |? ? cid ? _ Ht| | | | | | | | | | | | |]; subst. injection Ht as _ <-. by left.
    + inversion H as [| | |? ? ? fut ? Ht| | | | | | | | | | | |]; subst. right. by eapply register_dispatcher.
  - by eapply quiet_dispatcher, io_step_quiet.
  - by eapply quiet_dispatcher, hb_step_quiet.
  - pose proof (close_step_quiet _ _ _ _ _ _ Hq H) as Hquiet.
    destruct (closer s); try apply quiet_dispatcher, Hquiet.
    + inversion H as [|? cid ? _ Ht| | | | | | | |]; subst. injection Ht as _ <-. by left.
    + inversion H as [| |? ? fut ? Ht| | | | | | |]; subst. right. by eapply register_dispatcher.
  - by eapply quiet_dispatcher, net_step_quiet.
Qed.

(** A satisfied promise keeps its value. *)
Lemma promise_kept s l s' fut r :
  sys_inv s l -> sys_step s s' ->
  promises (dispatcher_ (client s)) !! fut = Some (Satisfied r) ->
  promises (dispatcher_ (client s')) !! fut = Some (Satisfied r).
Proof.
  intros Hinv Hstep Hp. destruct (sys_step_dispatcher s l s' Hinv Hstep) as [->|(op & out & Hs)]; [done|].
  pose proof (inv_table _ _ Hinv) as Hl. destruct (step_refines _ l op Hl) as (out' & d & Hs' & Hr & _).
  rewrite Hs in Hs'. injection Hs' as _ <-. rewrite (refines_satisfied _ _ _ _ Hr). apply spec_step_done.
  by rewrite <- (refines_satisfied _ _ _ _ Hl).
Qed.

(** The result of a caller's request is there, and the caller waits for it or has
    returned it. *)
Definition delivered (n : nat) (cid : Z) (fut : nat) (until : Z) (r : Result IncomingFrame) (s : System) : Prop :=
  promises (dispatcher_ (client s)) !! fut = Some (Satisfied r) /\
  (callers s !! n = Some (Waits cid fut until) \/ callers s !! n = Some (Answered (Some cid) r)).

Lemma delivered_step s l s' n cid fut until r :
  sys_inv s l -> sys_step s s' -> delivered n cid fut until r s -> delivered n cid fut until r s'.
Proof.
  intros Hinv Hstep [Hp Hn]. split; [by eapply promise_kept|].
  destruct Hstep as [s m t c' t' Hm H|s c' i' _|s c' h' _|s c' k' _|s c' _]; try exact Hn. cbn [callers].
  destruct (decide (m = n)) as [->|Hne]; [|by rewrite list_lookup_insert_ne].
  rewrite list_lookup_insert_eq by (by eapply lookup_lt_Some).
  destruct Hn as [Hn|Hn]; rewrite Hm in Hn; injection Hn as ->;
    inversion H as [| | | | | | | | |? ? ? ? r' _ Hw| | | | | |]; subst.
  right. unfold wait_part in Hw. rewrite Hp in Hw. by injection Hw as <-.
Qed.

(** The step in which the I/O thread hands a response to the dispatcher. *)
Lemma dispatched_delivered s l s' n cid fut until f :
  sys_inv s l -> sys_step s s' -> io s = IoReaped f -> io s' = IoTop -> response_to f = Some cid ->
  callers s !! n = Some (Waits cid fut until) -> promises (dispatcher_ (client s)) !! fut = Some Unset ->
  delivered n cid fut until (ok f) s'.
Proof.
  intros Hinv Hstep Hi Hi' Hf Hn Hp. pose proof (inv_table _ _ Hinv) as Hl.
  assert (Ho : owed l cid fut) by exact (Forall_lookup_1 _ _ _ _ (inv_callers _ _ Hinv) Hn).
  destruct Hstep as [s m t c' t' _ _|s c' i' H|s c' h' _|s c' k' _|s c' _]; cbn [io] in Hi'; try congruence.
  rewrite Hi in H. inversion H as [| | | | | |? ? b d Hd| | | | | | |]; subst. split; [|by left].
  destruct (dispatch_refines _ l f Hl) as (b' & d' & Hd' & Hr & _).
  rewrite Hd in Hd'. injection Hd' as _ <-. cbn [client dispatcher_].
  destruct Ho as [[dl Hw]|(r & Hw & _)].
  - apply (refines_satisfied _ _ _ _ Hr). cbn [spec_step]. rewrite Hf. unfold spec_respond.
    rewrite list_lookup_fmap, Hw. cbn. by rewrite Z.eqb_refl.
  - apply (refines_satisfied _ _ _ _ Hl) in Hw. congruence.
Qed.

(** The scheduler is fair to the [n]-th caller. *)
Definition fair_to (n : nat) (run : nat -> System) : Prop := forall i, exists j, (i <= j)%nat /\
  (callers (run (S j)) !! n <> callers (run j) !! n \/
   ~ exists t, callers (run j) !! n = Some t /\ caller_moves (client (run j)) t).

(** A call that has returned stays so. *)
Lemma answered_stays run n o r i j :
  infinite_run sys_step run -> (i <= j)%nat -> callers (run i) !! n = Some (Answered o r) ->
  callers (run j) !! n = Some (Answered o r).
Proof.
  intros Hrun Hij Ha. induction Hij as [|j _ IH]; [done|].
  pose proof (Hrun j) as Hstep. destruct Hstep as [s m t c' t' Hm H|s c' i' _|s c' h' _|s c' k' _|s c' _]; try exact IH.
  cbn [callers]. destruct (decide (m = n)) as [->|Hne]; [|by rewrite list_lookup_insert_ne].
  rewrite IH in Hm. injection Hm as <-. inversion H.
Qed.

Lemma delivered_returns c0 calls run n cid fut until r i :
  opened c0 -> Forall at_start calls -> rtc sys_step (started c0 calls) (run 0%nat) -> infinite_run sys_step run ->
  fair_to n run -> delivered n cid fut until r (run i) ->
  exists N, forall j, (N <= j)%nat -> callers (run j) !! n = Some (Answered (Some cid) r).
Proof.
  intros Ho Hcalls Hstart Hrun Hfair Hi.
  assert (Hd : forall j, (i <= j)%nat -> delivered n cid fut until r (run j)).
  { induction 1 as [|j _ IH]; [done|].
    destruct (run_inv c0 calls (run j) Ho Hcalls (run_reachable c0 calls run Hrun Hstart j)) as (l & Hinv).
    by eapply delivered_step. }
  destruct (Hfair i) as (j & Hj & Hm). destruct (Hd j Hj) as [Hp [Hw|Ha]].
  2: { exists j. intros k Hk. by apply (answered_stays run n _ _ j k). }
  exists (S j). intros k Hk. apply (answered_stays run n _ _ (S j) k Hrun Hk). destruct Hm as [Hm|Hm].
  - rewrite Hw in Hm. destruct (Hd (S j) ltac:(lia)) as [_ [H|H]]; [congruence|done].
  - destruct Hm. exists (Waits cid fut until). split; [done|]. do 2 eexists.
    apply s_wait; [intros H; by rewrite Hp in H|]. unfold wait_part. by rewrite Hp.
Qed.
End delivery.

(** ** Properties *)

(** C7.  A shutdown completes.  In every infinite run of the threads in which the
    stop flag has been set, if the scheduler is fair, time passes and from some point
    on no system call blocks, then from some point on everybody has finished: every
    caller has returned, both threads have ended, [close] has returned, the client
    is closed and its descriptor released. *)
Theorem shutdown_completes {P : Platform} (c0 : Client) (calls : list Caller) (run : nat -> System) (M : nat)
  (Hopened : opened c0) (Hcalls : Forall at_start calls) (Hstart : rtc sys_step (started c0 calls) (run 0%nat))
  (Hrun : infinite_run sys_step run) (Hstop : stop_io_ (client (run 0%nat)) = true) (Hfair : fair sys_step work run)
  (Htime : time_passes run) (Hreturns : forall i, (M <= i)%nat -> ~ blocked (run i))
  (Hcid : forall i, next_app_cid_ (client (run i)) + 1 < 2 ^ 32) :
  exists N, forall i, (N <= i)%nat ->
    finished (run i) /\ state_ (client (run i)) = ConnectionState.Closed /\
    Sock.close (sock_ c0) (fds c0) = (sock_ (client (run i)), fds (client (run i))).
Proof.
  apply (stopping_finishes c0 run M); try done.
  split_and!; [by apply (run_life c0 calls)|by apply (run_inv c0 calls)|done].
Qed.

(** Nothing new on the network. *)
Lemma net_idle c : net_step c c.
Proof.
  assert (Hn : MkWorld (inbox (net c) ++ []) (sends (net c)) (outbox (net c)) (logs (net c)) = net c)
    by (rewrite app_nil_r; by destruct (net c)).
  pose proof (n_in c [] (Forall_nil_2 _)) as H. rewrite Hn in H. by destruct c.
Qed.

(** Time goes on. *)
Definition ticking (c : Client) (i : nat) : Client :=
  match i with O => c | S _ => c <| clock := clock c + Z.of_nat i |> end.

Lemma ticking_clock c i : clock (ticking c i) = clock c + Z.of_nat i.
Proof. destruct i; [cbn; lia|done]. Qed.

Lemma ticking_cid c i : next_app_cid_ (ticking c i) = next_app_cid_ c.
Proof. by destruct i. Qed.

Lemma ticking_step c i : net_step (ticking c i) (ticking c (S i)).
Proof.
  assert (H : clock (ticking c i) <= clock c + Z.of_nat (S i)) by (rewrite ticking_clock; lia).
  apply n_tick in H. by destruct i.
Qed.

Lemma ticking_passes c n (run : nat -> System) :
  (forall i, (n <= i)%nat -> client (run i) = ticking c (i - n)) -> time_passes run.
Proof.
  intros H t i. exists (n + i + Z.to_nat (t - clock c))%nat. split; [lia|]. rewrite H, ticking_clock by lia. lia.
Qed.

(** Two callers that start after the client has been closed: each is refused, then
    nothing happens but that time passes. *)
Definition late_run (c : Client) (i : nat) : System :=
  MkSystem (ticking c (i - 2)) (match i with
              | 0%nat => two_calls
              | 1%nat => [Answered None (err not_open); Calling (MkCall 14 1 [])]
              | _ => [Answered None (err not_open); Answered None (err not_open)]
              end) IoDone HbDone ClReturned.

Lemma late_run_steps c :
  state_ c = ConnectionState.Closed -> infinite_run (sys_step (Hplat := sample_platform)) (late_run c).
Proof.
  intros Hc. assert (Hr : require_open c = err not_open) by (apply require_open_err; rewrite Hc; discriminate).
  intros [|[|i]].
  - apply (sys_caller (late_run c 0) 0 (Calling (MkCall 13 1 []))); [done|].
    apply s_refused. by rewrite <- Hr.
  - apply (sys_caller (late_run c 1) 1 (Calling (MkCall 14 1 []))); [done|].
    apply s_refused. by rewrite <- Hr.
  - apply (sys_net (late_run c (S (S i)))). cbn. rewrite Nat.sub_0_r. apply ticking_step.
Qed.

Lemma late_run_fair c : fair (sys_step (Hplat := sample_platform)) work (late_run c).
Proof.
  intros i. exists (S (S i)). split; [lia|]. right. intros (s' & _ & Hw). change (work s' < 0)%nat in Hw. lia.
Qed.

Lemma late_run_free c i : ~ blocked (Hplat := sample_platform) (late_run c i).
Proof.
  intros [[H _]|[[[? H] _]|[(call & cid & fut & H & _)|(frame & H & _)]]]; [done|done|..];
    destruct i as [|[|i]]; unfold late_run, two_calls in H; cbn in H; set_solver.
Qed.

Lemma shutdown_completes_witness :
  exists run, infinite_run (sys_step (Hplat := sample_platform)) run /\ work (run 0%nat) = 12%nat /\
    exists N, forall i, (N <= i)%nat -> finished (run i).
Proof.
  assert (Ho : opened (open_client [])) by (apply open_client_opened; constructor).
  assert (Hcalls : Forall at_start two_calls) by (repeat constructor).
  destruct closed_run as (c & Hstart & Hs & Hc). exists (late_run c).
  pose proof (run_life _ _ _ Ho Hstart) as (Hst & _).
  assert (Hcid : forall i, next_app_cid_ (client (late_run c i)) + 1 < 2 ^ 32).
  { intros i. change (next_app_cid_ (ticking c (i - 2)) + 1 < 2 ^ 32). rewrite ticking_cid, Hc. reflexivity. }
  destruct (shutdown_completes (P := sample_platform) (open_client []) two_calls (late_run c) 0 Ho Hcalls Hstart
    (late_run_steps c Hst) Hs (late_run_fair c) (ticking_passes c 2 (late_run c) (fun i _ => eq_refl))
    (fun i _ => late_run_free c i) Hcid) as (N & HN).
  split; [exact (late_run_steps c Hst)|]. split; [reflexivity|].
  exists N. intros i Hi. exact (proj1 (HN i Hi)).
Defined.

(** A response that was dispatched is what its caller returns.  In every
    infinite run, when a caller waits for the response to its correlation id, its
    promise has not been resolved yet, and the I/O thread hands a response with
    that id to the dispatcher, then a scheduler that is fair to this caller lets it
    return exactly that frame: no other thread (a reap, a shutdown, another
    response with the same id) can replace it or take it away. *)
Lemma dispatched_response_returned {P : Platform} (c0 : Client) (calls : list Caller) (run : nat -> System)
  (i n : nat) (cid : Z) (fut : nat) (until : Z) (f : IncomingFrame)
  (Hopened : opened c0) (Hcalls : Forall at_start calls) (Hstart : rtc sys_step (started c0 calls) (run 0%nat))
  (Hrun : infinite_run sys_step run) (Hfair : fair_to n run)
  (Hwaits : callers (run i) !! n = Some (Waits cid fut until))
  (Hunset : promises (dispatcher_ (client (run i))) !! fut = Some Unset)
  (Hframe : response_to f = Some cid) (Hbefore : io (run i) = IoReaped f) (Hafter : io (run (S i)) = IoTop) :
  exists N, forall j, (N <= j)%nat -> callers (run j) !! n = Some (Answered (Some cid) (ok f)).
Proof.
  destruct (run_inv c0 calls (run i) Hopened Hcalls (run_reachable c0 calls run Hrun Hstart i)) as (l & Hinv).
  pose proof (dispatched_delivered _ _ _ _ _ _ _ _ Hinv (Hrun i) Hbefore Hafter Hframe Hwaits Hunset) as Hd.
  by apply (delivered_returns c0 calls run n cid fut until (ok f) (S i)).
Qed.

(** The response arrives, is dispatched, and the caller wakes up. *)
Definition one_call : list Caller := [Calling (MkCall 13 1 [])].

Lemma one_call_run :
  exists c d, rtc (sys_step (Hplat := sample_platform)) (started (open_client [Data (enc_frame (answer_to 100))]) one_call)
      (MkSystem c [Waits 100 0 one_end] (IoReaped (answer_to 100)) HbDone ClIdle) /\
    dispatch (answer_to 100) (dispatcher_ c) = Some (true, d) /\
    promises (dispatcher_ c) = [Unset] /\ promises d = [Satisfied (ok (answer_to 100))].
Proof.
  eexists _, _. split.
  - unfold started, one_call. change (heartbeat_thread_ _) with false. cbn [cid_of].
    run_next (call_run (Hplat := sample_platform) (MkCall 13 1 []) _ _ _ 0).
    etransitivity; [apply (run_io (Hplat := sample_platform)), i_check; vm_compute; reflexivity|].
    etransitivity; [eapply (run_io (Hplat := sample_platform)), i_read; vm_compute; reflexivity|].
    etransitivity; [apply (run_io (Hplat := sample_platform)), i_inbound|].
    etransitivity; [eapply (run_io (Hplat := sample_platform)), i_reap; vm_compute; reflexivity|].
    reflexivity.
  - split; [vm_compute; reflexivity|]. split; vm_compute; reflexivity.
Qed.

Definition answered_run (c : Client) (d : Dispatcher) (i : nat) : System :=
  match i with
  | 0%nat => MkSystem c [Waits 100 0 one_end] (IoReaped (answer_to 100)) HbDone ClIdle
  | 1%nat => MkSystem (c <| dispatcher_ := d |>) [Waits 100 0 one_end] IoTop HbDone ClIdle
  | _ => MkSystem (c <| dispatcher_ := d |>) [Answered (Some 100) (ok (answer_to 100))] IoTop HbDone ClIdle
  end.

Lemma answered_run_steps c d b :
  dispatch (answer_to 100) (dispatcher_ c) = Some (b, d) -> promises d = [Satisfied (ok (answer_to 100))] ->
  infinite_run (sys_step (Hplat := sample_platform)) (answered_run c d).
Proof.
  intros Hd Hp [|[|i]].
  - by apply (sys_io (answered_run c d 0)), (i_dispatch _ _ b).
  - apply (sys_caller (answered_run c d 1) 0 (Waits 100 0 one_end)); [done|].
    apply s_wait; unfold wait_over, wait_part; change (dispatcher_ _) with d; by rewrite Hp.
  - apply (sys_net (answered_run c d (S (S i)))), net_idle.
Qed.

Lemma answered_run_fair c d : fair_to (Hplat := sample_platform) 0 (answered_run c d).
Proof.
  intros i. exists (S (S i)). split; [lia|]. right. intros (t & Ht & c' & t' & Hs).
  injection Ht as <-. inversion Hs.
Qed.

Lemma dispatched_response_returned_witness :
  exists run, infinite_run (sys_step (Hplat := sample_platform)) run /\ callers (run 0%nat) = [Waits 100 0 one_end] /\
    exists N, forall j, (N <= j)%nat -> callers (run j) !! 0%nat = Some (Answered (Some 100) (ok (answer_to 100))).
Proof.
  destruct one_call_run as (c & d & Hstart & Hd & Hp & Hp'). exists (answered_run c d).
  assert (Ho : opened (open_client [Data (enc_frame (answer_to 100))])) by (apply open_client_opened; unfold queue_ok; decided).
  assert (Hcalls : Forall at_start one_call) by (repeat constructor).
  pose proof (answered_run_steps c d true Hd Hp') as Hrun.
  split; [exact Hrun|]. split; [reflexivity|].
  apply (dispatched_response_returned (P := sample_platform) _ one_call (answered_run c d) 0 0 100 0 one_end (answer_to 100)
    Ho Hcalls Hstart Hrun (answered_run_fair c d)); try reflexivity.
  change (promises (dispatcher_ c) !! 0%nat = Some Unset). rewrite Hp. reflexivity.
Defined.
