(* ===== verification/Delivery.v ===== *)
(** * From the arrival of a response to the return of its caller

    A response that has arrived is read, survives or loses the race with the
    deadline of its request, is dispatched, and wakes its caller: one argument of
    liveness over the I/O thread and the caller's thread. *)

From coqutil Require Import Datatypes.RecordSetters.
From S2P Require Import Prelude Fairness Errors Buffer Codec Frame Command HandshakeCommands.
From S2P Require Import LifecycleCommands Config Dispatcher Socket Concurrency Dialogue Handshake.
From S2P Require Import Client ClientInvariant ClientThreads ClientProperties ThreadProperties Liveness.
Import TriangleBracketNotations.

Local Open Scope Z_scope.

Section delivery.
Context `{Hplat : Platform}.

(** ** Steps of the other threads *)

(** No promise changes, and what has arrived is still there. *)
Definition undisturbed (c c' : Client) : Prop :=
  (forall fut p, promises (dispatcher_ c) !! fut = Some p -> promises (dispatcher_ c') !! fut = Some p) /\
  exists more, inbox (net c') = inbox (net c) ++ more.

Lemma undisturbed_same c c' :
  dispatcher_ c' = dispatcher_ c -> inbox (net c') = inbox (net c) -> undisturbed c c'.
Proof. intros Hd Hi. split; [by rewrite Hd|]. exists []. by rewrite app_nil_r. Qed.

Lemma undisturbed_write data c r c' : on_net (write_all data) c = Some (r, c') -> undisturbed c c'.
Proof.
  rewrite on_net_eq. unfold write_all. destruct (write_loop _ _ _) as [[[r' q] out]|]; [|done].
  intros [= _ <-]. by apply undisturbed_same.
Qed.

Lemma undisturbed_cut data k c : undisturbed c (cut_after data k c).
Proof. by apply undisturbed_same. Qed.

Lemma undisturbed_register cid d c fut c' : register cid d c = (fut, c') -> undisturbed c c'.
Proof.
  unfold register, register_pending. intros [= _ <-]. split; [|exists []; by rewrite app_nil_r].
  intros n p Hp. destruct (pending_ (dispatcher_ c) !! cid); cbn; by apply lookup_app_l_Some.
Qed.

Lemma undisturbed_take c cid c' : take_cid c = (cid, c') -> undisturbed c c'.
Proof. intros [= _ <-]. by apply undisturbed_same. Qed.

Hint Resolve undisturbed_same undisturbed_write undisturbed_cut undisturbed_register undisturbed_take : core.

Lemma caller_step_undisturbed c t c' t' : caller_step c t c' t' -> undisturbed c c'.
Proof. destruct 1; eauto. Qed.

Lemma hb_step_undisturbed c h c' h' : hb_step c h c' h' -> undisturbed c c'.
Proof. destruct 1; eauto. Qed.

Lemma net_step_undisturbed c c' : net_step c c' -> undisturbed c c'.
Proof. destruct 1; [split; [done|]; by eexists|by apply undisturbed_same..]. Qed.

Lemma close_step_undisturbed i h c k c' k' :
  close_step i h c k c' k' -> k <> ClJoinedBoth -> undisturbed c c'.
Proof.
  destruct 1 as [c|c cid c' _ H|c cid fut c' H|c cid fut r c' H|c|c s os|c|c|c c' H|c]; intros Hk; eauto; [|done].
  destruct (writer_ c); [by eapply undisturbed_write|]. injection H as _ <-. eauto.
Qed.

(** The entry of a request stays in the table while its promise is open. *)
Lemma spec_step_waiting op l n cid d :
  l !! n = Some (Waiting cid d) ->
  spec_step op l !! n = Some (Waiting cid d) \/ exists r, spec_step op l !! n = Some (Done r).
Proof.
  intros Hl. destruct op; cbn; try (by left).
  - left. by apply lookup_app_l_Some.
  - case_match; [|by left]. unfold spec_respond. rewrite list_lookup_fmap, Hl. cbn. destruct (_ =? _); eauto.
  - unfold spec_fail. rewrite list_lookup_fmap, Hl. eauto.
  - unfold spec_reap. rewrite list_lookup_fmap, Hl. cbn. destruct (_ >=? _); eauto.
Qed.

Lemma entry_kept s l s' cid fut d :
  sys_inv s l -> sys_step s s' -> pending_ (dispatcher_ (client s)) !! cid = Some (MkEntry fut d) ->
  promises (dispatcher_ (client s')) !! fut = Some Unset ->
  pending_ (dispatcher_ (client s')) !! cid = Some (MkEntry fut d).
Proof.
  intros Hinv Hstep He Hp. destruct (sys_step_dispatcher s l s' Hinv Hstep) as [->|(op & out & Hs)]; [done|].
  pose proof (inv_table _ _ Hinv) as Hl. destruct (step_refines _ l op Hl) as (out' & st & Hs' & Hr & _).
  rewrite Hs in Hs'. injection Hs' as _ <-. apply (proj2 Hl) in He. apply (proj2 Hr).
  destruct (spec_step_waiting op l fut cid d He) as [H|[r H]]; [done|].
  apply (refines_satisfied _ _ _ _ Hr) in H. congruence.
Qed.

(** ** The way of a response *)

(** The response is about to be read; has been read; is about to be dispatched.  Or
    the read was cut short when [close] closed the socket. *)
Inductive arriving (f : IncomingFrame) (c : Client) (q : Closer) : IoThread -> nat -> Prop :=
  | a_reading w : read_frame (net c) = Some (ok f, w) -> arriving f c q IoReading 4
  | a_read : arriving f c q (IoRead (ok f)) 3
  | a_frame : arriving f c q (IoFrame f) 2
  | a_reaped : arriving f c q (IoReaped f) 1
  | a_cut : socket_closed q = true -> arriving f c q (IoRead (err recv_closed)) 1.

Lemma arriving_undisturbed f c c' q q' i k :
  undisturbed c c' -> (socket_closed q = true -> socket_closed q' = true) ->
  arriving f c q i k -> arriving f c' q' i k.
Proof.
  intros [_ [more Hq]] Hc. destruct 1 as [w H| | | |H]; try (by constructor); [|constructor; by apply Hc].
  destruct (read_frame_more _ _ _ _ _ H Hq) as (w' & H' & _). by eapply a_reading.
Qed.

Variables (n : nat) (cid : Z) (fut : nat) (until due : Z) (f : IncomingFrame) (c0 : Client).
Hypothesis Hf : response_to f = Some cid.
Hypothesis Hvalid : Sock.valid (sock_ c0) = true.

(** The caller waits, its request is in the table, its promise is open, and the
    response is on its way. *)
Definition awaited (k : nat) (s : System) : Prop :=
  callers s !! n = Some (Waits cid fut until) /\
  pending_ (dispatcher_ (client s)) !! cid = Some (MkEntry fut due) /\
  promises (dispatcher_ (client s)) !! fut = Some Unset /\
  arriving f (client s) (closer s) (io s) k.

(** How the race may end: with the response; with a timeout, once a deadline of the
    request has been reached; with the error of a read on the closed socket. *)
Definition decided_for (s : System) (r : Result IncomingFrame) : Prop :=
  r = ok f \/
  (exists e, r = err e /\ kind e = Kind.RequestTimeout) /\ due `min` until <= clock (client s) \/
  r = err recv_closed /\ socket_closed (closer s) = true.
Definition race_over (s : System) : Prop :=
  exists r, decided_for s r /\ (callers s !! n = Some (Answered (Some cid) r) \/ delivered n cid fut until r s).

(** A step of another thread. *)
Lemma awaited_other k s l s' :
  sys_inv s l -> sys_step s s' -> awaited k s -> undisturbed (client s) (client s') ->
  callers s' !! n = callers s !! n -> io s' = io s ->
  (socket_closed (closer s) = true -> socket_closed (closer s') = true) -> awaited k s'.
Proof.
  intros Hinv Hstep (Hn & He & Hp & Ha) Hu Ht Hi Hk.
  assert (Hp' : promises (dispatcher_ (client s')) !! fut = Some Unset) by by apply Hu.
  split; [by rewrite Ht|]. split; [by eapply entry_kept|]. split; [done|]. rewrite Hi. by eapply arriving_undisturbed.
Qed.

(** The I/O thread takes the response one step further. *)
Lemma awaited_io k s l c' i' :
  sys_inv s l -> life c0 s -> awaited k s -> io_step (client s) (io s) c' i' ->
  let s' := MkSystem c' (callers s) i' (hb s) (closer s) in
  race_over s' \/ exists k', (k' < k)%nat /\ awaited k' s'.
Proof.
  intros Hinv Hlife (Hn & He & Hp & Ha) Hstep. cbn zeta. pose proof (inv_table _ _ Hinv) as Hl.
  pose proof Hstep as Hsys%(sys_io s).
  pose proof (fun H => entry_kept s l _ cid fut due Hinv Hsys He H) as He'. cbn [client] in He'.
  pose proof He as Hw%(proj2 Hl).
  remember (io s) as i eqn:Hi. destruct Ha as [w Hr| | | |Hk].
  - right. inversion Hstep as [| |? r ? Hnet|? Hs| | | | | | | | | |]; subst.
    + exists 3%nat. split; [lia|]. rewrite on_net_eq, Hr in Hnet. injection Hnet as <- <-.
      split; [done|]. split; [done|]. split; [done|]. constructor.
    + exists 1%nat. split; [lia|]. split; [done|]. split; [done|]. split; [done|]. constructor. exact (life_socket c0 s Hlife Hvalid Hs).
  - right. exists 2%nat. split; [lia|]. inversion Hstep; subst.
    split; [done|]. split; [done|]. split; [done|]. constructor.
  - inversion Hstep as [| | | | |? ? ? Hreap| | | | | | | |]; subst. unfold reap in Hreap.
    destruct (reap_expired _ _) as [[m st]|] eqn:E; [|done]. injection Hreap as <-.
    destruct (reap_promises _ _ _ _ _ Hl E) as [Hres _]. specialize (Hres cid _ He). cbn [promise deadline] in Hres.
    destruct (Z.geb_spec (clock (client s)) due) as [Hge|_].
    + left. exists (err request_timed_out). split; [|right; split; [exact Hres|by left]].
      right; left. split; [by eexists|]. cbn [client]. change (due `min` until <= clock (client s)). lia.
    + right. exists 1%nat. split; [lia|]. split; [done|]. split; [by apply He'|]. split; [exact Hres|constructor].
  - left. exists (ok f). split; [by left|]. right.
    assert (Htop : i' = IoTop) by (by inversion Hstep). subst i'.
    by apply (dispatched_delivered s l).
  - left. exists (err recv_closed). split; [right; right; by split|]. right. split; [|by left].
    inversion Hstep as [| | | | | | |? ? ? Hk'|? ? ? Hk'|? ? ? _ Hfail| | | |]; subst; [discriminate Hk'..|].
    unfold fail_pending in Hfail. destruct (fail_all_pending _ _) as [st|] eqn:E; [|done]. injection Hfail as <-.
    cbn [client]. change (promises st !! fut = Some (Satisfied (err recv_closed))).
    rewrite (fail_all_promises _ _ _ _ Hl E), list_lookup_fmap, Hp. done.
Qed.

Lemma awaited_step k s l s' :
  sys_inv s l -> life c0 s -> awaited k s -> sys_step s s' ->
  race_over s' \/ exists k', (k' <= k)%nat /\ (io s' <> io s -> (k' < k)%nat) /\ awaited k' s'.
Proof.
  intros Hinv Hlife Ha Hstep. pose proof Ha as (Hn & He & Hp & Har).
  assert (Hstay : undisturbed (client s) (client s') -> callers s' !! n = callers s !! n -> io s' = io s ->
    (socket_closed (closer s) = true -> socket_closed (closer s') = true) ->
    race_over s' \/ exists k', (k' <= k)%nat /\ (io s' <> io s -> (k' < k)%nat) /\ awaited k' s').
  { intros Hu Ht Hio Hk. right. exists k. split; [done|]. split; [by intros []|].
    by apply (awaited_other k s l s'). }
  destruct Hstep as [s m t c' t' Hm H|s c' i' H|s c' h' H|s c' k' H|s c' H].
  - destruct (decide (m = n)) as [->|Hne].
    + rewrite Hn in Hm. injection Hm as <-. left. exists (err wait_timed_out).
      inversion H as [| | | | | | | | |? ? ? ? r Hover Hw| | | | | |]; subst. unfold wait_part in Hw. rewrite Hp in Hw.
      injection Hw as <-. specialize (Hover Hp). split; [|left; apply list_lookup_insert_eq; by eapply lookup_lt_Some].
      right; left. split; [by eexists|]. cbn [client]. lia.
    + apply Hstay; [by eapply caller_step_undisturbed|by apply list_lookup_insert_ne|done|done].
  - destruct (awaited_io k s l c' i' Hinv Hlife Ha H) as [Hover|(k' & Hk & Ha')]; [by left|].
    right. exists k'. split; [lia|]. by split.
  - apply Hstay; [by eapply hb_step_undisturbed|done..].
  - apply Hstay; [|done|done|by eapply close_step_closed]. eapply close_step_undisturbed; [exact H|].
    intros Hk. unfold life in Hlife. rewrite Hk in Hlife. destruct Hlife as (_ & _ & Hio & _). rewrite Hio in Har.
    inversion Har.
  - apply Hstay; [by apply net_step_undisturbed|done..].
Qed.

(** ** Under a fair scheduler *)

(** The scheduler is fair to the I/O thread. *)
Definition fair_to_io (run : nat -> System) : Prop := forall i, exists j, (i <= j)%nat /\
  (io (run (S j)) <> io (run j) \/ ~ io_moves (client (run j)) (io (run j))).

Lemma arriving_moves s k :
  client_ok (client s) -> arriving f (client s) (closer s) (io s) k -> io_moves (client s) (io s).
Proof.
  intros Hok Ha. destruct (io_progress_ok (client s) (io s) Hok) as [H|[H|[H Hr]]]; [|done|].
  - rewrite H in Ha. inversion Ha.
  - rewrite H in Ha. inversion Ha as [w Hw| | | |]; subst. congruence.
Qed.

Section running.
Context (calls : list Caller) (run : nat -> System).
Hypothesis Hopened : opened c0.
Hypothesis Hcalls : Forall at_start calls.
Hypothesis Hstart : rtc sys_step (started c0 calls) (run 0%nat).
Hypothesis Hrun : infinite_run sys_step run.

(** The step in which the race ends. *)
Definition race_ends_at (m : nat) : Prop :=
  callers (run m) !! n = Some (Waits cid fut until) /\ race_over (run (S m)).

Lemma awaited_until i j k :
  awaited k (run i) -> (i <= j)%nat ->
  (exists m, race_ends_at m) \/ exists k', (k' <= k)%nat /\ awaited k' (run j).
Proof.
  intros Ha. induction 1 as [|j _ [IH|(k1 & Hk1 & IH)]]; [right; by exists k|by left|].
  pose proof (run_reachable c0 calls run Hrun Hstart j) as Hreach.
  destruct (run_inv c0 calls _ Hopened Hcalls Hreach) as (l & Hinv).
  destruct (awaited_step k1 _ l _ Hinv (run_life c0 calls _ Hopened Hreach) IH (Hrun j)) as [H|(k2 & Hk2 & _ & H)].
  - left. exists j. split; [apply IH|done].
  - right. exists k2. split; [lia|done].
Qed.

Lemma race_ends k i : fair_to_io run -> awaited k (run i) -> exists m, race_ends_at m.
Proof.
  intros Hfair. revert i. induction (lt_wf k) as [k _ IH]. intros i Ha.
  destruct (Hfair i) as (j & Hj & Hm). destruct (awaited_until i j k Ha Hj) as [H|(k1 & Hk1 & H)]; [done|].
  pose proof (run_reachable c0 calls run Hrun Hstart j) as Hreach.
  destruct (run_inv c0 calls _ Hopened Hcalls Hreach) as (l & Hinv).
  destruct Hm as [Hm|Hm]; [|destruct Hm; eapply arriving_moves; [apply Hinv|apply H]].
  destruct (awaited_step k1 _ l _ Hinv (run_life c0 calls _ Hopened Hreach) H (Hrun j)) as [Ho|(k2 & _ & Hlt & Ha2)].
  - exists j. split; [apply H|done].
  - apply (IH k2 ltac:(specialize (Hlt Hm); lia) (S j) Ha2).
Qed.

(** What decided the race still holds whenever the caller has returned. *)
Lemma decided_stays m r j :
  race_ends_at m -> decided_for (run (S m)) r -> callers (run j) !! n = Some (Answered (Some cid) r) ->
  decided_for (run j) r.
Proof.
  intros [Hn _] Hr Hj. assert (Hle : (S m <= j)%nat).
  { destruct (decide (S m <= j)%nat) as [|Hlt]; [done|].
    pose proof (answered_stays run n _ _ j m Hrun ltac:(lia) Hj). congruence. }
  destruct Hr as [H|[[H Ht]|[H Hk]]]; [by left|right; left|right; right]; (split; [done|]).
  - pose proof (run_clock run (S m) j Hrun Hle). lia.
  - clear - Hrun Hle Hk. induction Hle as [|j _ IH]; [done|].
    destruct (Hrun j) as [s x t c' t' _ _|s c' i' _|s c' h' _|s c' k' H|s c' _]; try done. by eapply close_step_closed.
Qed.
End running.
End delivery.

(** ** Properties *)

(** C6.  A response that has arrived is returned, unless a deadline or [close] comes
    first.  In every infinite run of the threads on a valid socket, when a caller
    waits with its promise open and the I/O thread, in its [recv], has a complete
    frame with the caller's correlation id to read, then a scheduler that is fair to
    the I/O thread and to this caller lets it return: that frame; or an error of kind
    [RequestTimeout], and then, whenever it has returned, the clock has reached the
    deadline of its entry in the table or the end of its own wait; or the error of a
    [recv] on a closed descriptor, and then [close] has closed the socket.  No other
    caller, no other frame and nothing else on the network can prevent it. *)
Theorem arrived_response_returned {P : Platform} (c0 : Client) (calls : list Caller) (run : nat -> System)
  (i n : nat) (cid : Z) (fut : nat) (until due : Z) (f : IncomingFrame) (w : World)
  (Hopened : opened c0) (Hvalid : Sock.valid (sock_ c0) = true)
  (Hcalls : Forall at_start calls) (Hstart : rtc sys_step (started c0 calls) (run 0%nat))
  (Hrun : infinite_run sys_step run) (Hfair : fair_to n run) (Hfair_io : fair_to_io run)
  (Hwaits : callers (run i) !! n = Some (Waits cid fut until))
  (Hentry : pending_ (dispatcher_ (client (run i))) !! cid = Some (MkEntry fut due))
  (Hunset : promises (dispatcher_ (client (run i))) !! fut = Some Unset)
  (Hframe : response_to f = Some cid) (Hio : io (run i) = IoReading)
  (Harrived : read_frame (net (client (run i))) = Some (ok f, w)) :
  exists r N, (forall j, (N <= j)%nat -> callers (run j) !! n = Some (Answered (Some cid) r)) /\
    (r = ok f \/
     (exists e, r = err e /\ kind e = Kind.RequestTimeout) /\
       (forall j, callers (run j) !! n = Some (Answered (Some cid) r) -> due `min` until <= clock (client (run j))) \/
     r = err recv_closed /\
       (forall j, callers (run j) !! n = Some (Answered (Some cid) r) -> socket_closed (closer (run j)) = true)).
Proof.
  assert (Ha : awaited n cid fut until due f 4 (run i)).
  { split; [done|]. split; [done|]. split; [done|]. rewrite Hio. by eapply a_reading. }
  destruct (race_ends n cid fut until due f c0 Hframe Hvalid calls run Hopened Hcalls Hstart Hrun 4 i Hfair_io Ha)
    as (m & Hm). pose proof Hm as (Hw & r & Hr & Hover).
  assert (HN : exists N, forall j, (N <= j)%nat -> callers (run j) !! n = Some (Answered (Some cid) r)).
  { destruct Hover as [H|H]; [exists (S m); intros j Hj; by apply (answered_stays run n _ _ (S m) j)|].
    by apply (delivered_returns c0 calls run n cid fut until r (S m)). }
  destruct HN as [N HN]. exists r, N. split; [exact HN|].
  assert (Hstays : forall j, callers (run j) !! n = Some (Answered (Some cid) r) -> decided_for until due f (run j) r)
    by (intros j; by eapply decided_stays).
  destruct Hr as [->|[[He _]|[He _]]]; [by left|right; left|right; right]; (split; [exact He|]);
    intros j Hj; destruct (Hstays j Hj) as [H|[[H' H]|[H' H]]]; try done.
  - destruct He as (e & He & _). congruence.
  - destruct He as (e & He & Hk). rewrite He in H'. injection H' as ->. discriminate Hk.
  - congruence.
  - destruct H' as (e & H' & Hk). rewrite He in H'. injection H' as <-. discriminate Hk.
Qed.

(** The whole way of one response, far from its deadline. *)
Lemma response_way :
  exists c c1 c3 d, rtc (sys_step (Hplat := sample_platform)) (started (open_client [Data (enc_frame (answer_to 100))]) one_call)
      (MkSystem c [Waits 100 0 one_end] IoReading HbDone ClIdle) /\
    on_net (read_frame (Hplat := sample_platform)) c = Some (ok (answer_to 100), c1) /\
    reap (clock c1) (c1 <| last_inbound_at_ := clock c1 |>) = Some c3 /\
    dispatch (answer_to 100) (dispatcher_ c3) = Some (true, d) /\
    dispatcher_ c = MkDispatcher 1 {[100 := MkEntry 0 one_end]} None None [Unset] [] /\
    promises d = [Satisfied (ok (answer_to 100))] /\
    stop_io_ c3 = false /\ read_frame (Hplat := sample_platform) (net c3) = None /\
    Sock.valid (sock_ c3) = true /\ clock c3 = 0.
Proof.
  eexists _, _, _, _. split.
  { unfold started, one_call. change (heartbeat_thread_ _) with false. cbn [cid_of].
    run_next (call_run (Hplat := sample_platform) (MkCall 13 1 []) _ _ _ 0).
    etransitivity; [apply (run_io (Hplat := sample_platform)), i_check; vm_compute; reflexivity|]. reflexivity. }
  split; [vm_compute; reflexivity|]. split; [vm_compute; reflexivity|].
  do 6 (split; [vm_compute; reflexivity|]). split; vm_compute; reflexivity.
Qed.

(** Afterwards the I/O thread is back in its [recv], with nothing to read. *)
Definition arriving_run (c c1 c3 : Client) (d : Dispatcher) (i : nat) : System :=
  let c4 := c3 <| dispatcher_ := d |> in
  let waits := [Waits 100 0 one_end] in
  let answered := [Answered (Some 100) (ok (answer_to 100))] in
  match i with
  | 0%nat => MkSystem c waits IoReading HbDone ClIdle
  | 1%nat => MkSystem c1 waits (IoRead (ok (answer_to 100))) HbDone ClIdle
  | 2%nat => MkSystem (c1 <| last_inbound_at_ := clock c1 |>) waits (IoFrame (answer_to 100)) HbDone ClIdle
  | 3%nat => MkSystem c3 waits (IoReaped (answer_to 100)) HbDone ClIdle
  | 4%nat => MkSystem c4 waits IoTop HbDone ClIdle
  | 5%nat => MkSystem c4 answered IoTop HbDone ClIdle
  | _ => MkSystem c4 answered IoReading HbDone ClIdle
  end.

Lemma arriving_run_steps c c1 c3 d :
  on_net (read_frame (Hplat := sample_platform)) c = Some (ok (answer_to 100), c1) ->
  reap (clock c1) (c1 <| last_inbound_at_ := clock c1 |>) = Some c3 ->
  dispatch (answer_to 100) (dispatcher_ c3) = Some (true, d) -> promises d = [Satisfied (ok (answer_to 100))] ->
  stop_io_ c3 = false ->
  infinite_run (sys_step (Hplat := sample_platform)) (arriving_run c c1 c3 d).
Proof.
  intros H1 H3 Hd Hp Hs [|[|[|[|[|[|i]]]]]].
  - by apply (sys_io (arriving_run c c1 c3 d 0)), i_read.
  - apply (sys_io (arriving_run c c1 c3 d 1)), i_inbound.
  - by apply (sys_io (arriving_run c c1 c3 d 2)), i_reap.
  - by apply (sys_io (arriving_run c c1 c3 d 3)), (i_dispatch _ _ true).
  - apply (sys_caller (arriving_run c c1 c3 d 4) 0 (Waits 100 0 one_end)); [done|].
    apply s_wait; unfold wait_over, wait_part; change (dispatcher_ _) with d; by rewrite Hp.
  - by apply (sys_io (arriving_run c c1 c3 d 5)), i_check.
  - apply (sys_net (arriving_run c c1 c3 d (6 + i))), net_idle.
Qed.

Lemma arriving_run_fair c c1 c3 d : fair_to (Hplat := sample_platform) 0 (arriving_run c c1 c3 d).
Proof.
  intros i. exists (6 + i)%nat. split; [lia|]. right. intros (t & Ht & c' & t' & Hs).
  injection Ht as <-. inversion Hs.
Qed.

Lemma arriving_run_fair_io c c1 c3 d :
  read_frame (Hplat := sample_platform) (net c3) = None -> Sock.valid (sock_ c3) = true ->
  fair_to_io (Hplat := sample_platform) (arriving_run c c1 c3 d).
Proof.
  intros Hnone Hv i. exists (6 + i)%nat. split; [lia|]. right. intros (c' & i' & Hs).
  change (io_step (Hplat := sample_platform) (c3 <| dispatcher_ := d |>) IoReading c' i') in Hs.
  inversion Hs as [| |? r ? Hn|? Hi| | | | | | | | | |]; subst.
  - rewrite on_net_eq in Hn. change (net (c3 <| dispatcher_ := d |>)) with (net c3) in Hn.
    rewrite Hnone in Hn. discriminate Hn.
  - change (Sock.valid (sock_ c3) = false) in Hi. congruence.
Qed.

Lemma arrived_response_returned_witness :
  exists run, infinite_run (sys_step (Hplat := sample_platform)) run /\
    callers (run 0%nat) = [Waits 100 0 one_end] /\ io (run 0%nat) = IoReading /\
    exists N, forall j, (N <= j)%nat -> callers (run j) !! 0%nat = Some (Answered (Some 100) (ok (answer_to 100))).
Proof.
  destruct response_way as (c & c1 & c3 & d & Hstart & H1 & H3 & Hd & Hp & Hp' & Hs & Hnone & Hv & Hclock).
  pose proof (arriving_run_steps c c1 c3 d H1 H3 Hd Hp' Hs) as Hrun. exists (arriving_run c c1 c3 d).
  assert (Ho : opened (open_client [Data (enc_frame (answer_to 100))])) by (apply open_client_opened; unfold queue_ok; decided).
  assert (Hcalls : Forall at_start one_call) by (repeat constructor).
  split; [exact Hrun|]. split; [reflexivity|]. split; [reflexivity|].
  assert (Hentry : pending_ (dispatcher_ c) !! 100 = Some (MkEntry 0 one_end)) by (by rewrite Hp).
  assert (Hunset : promises (dispatcher_ c) !! 0%nat = Some Unset) by (by rewrite Hp).
  destruct (read_frame (Hplat := sample_platform) (net c)) as [[r w]|] eqn:Hw;
    [|rewrite on_net_eq, Hw in H1; discriminate H1].
  assert (r = ok (answer_to 100)) as -> by (rewrite on_net_eq, Hw in H1; by injection H1).
  destruct (arrived_response_returned (P := sample_platform) _ one_call (arriving_run c c1 c3 d) 0 0 100 0 one_end one_end
    (answer_to 100) w Ho eq_refl Hcalls Hstart Hrun (arriving_run_fair c c1 c3 d)
    (arriving_run_fair_io c c1 c3 d Hnone Hv) eq_refl Hentry Hunset eq_refl eq_refl Hw)
    as (r & N & HN & [Hr|[[_ Ht]|[_ Hk]]]).
  - exists N. rewrite <- Hr. exact HN.
  - exfalso. specialize (Ht (6 + N)%nat (HN (6 + N)%nat ltac:(lia))).
    change (one_end `min` one_end <= clock c3) in Ht. rewrite Hclock in Ht. by apply Ht.
  - exfalso. by specialize (Hk (6 + N)%nat (HN (6 + N)%nat ltac:(lia))).
Defined.
