(* ===== verification/LostConnection.v ===== *)
(** * A connection that is lost

    The peer closes the connection, or the network cuts it, while nobody is in
    [close].  The I/O thread reads what has arrived before, notices, reports it once
    and ends; what becomes of the requests that come too late to be told. *)

From coqutil Require Import Datatypes.RecordSetters.
From S2P Require Import Prelude Fairness Errors Buffer Codec Frame Command HandshakeCommands.
From S2P Require Import LifecycleCommands Config Dispatcher Socket Concurrency Dialogue Handshake.
From S2P Require Import Client ClientInvariant ClientThreads ClientProperties ClientEnd ThreadProperties Liveness Delivery.
Import TriangleBracketNotations.

Local Open Scope Z_scope.

(** ** What is left to read *)

(** The bytes and events before the end of the stream. *)
Fixpoint before_eof (q : list InEvent) : nat :=
  match q with
  | [] => 0
  | Eof :: _ => 0
  | Data bs :: q => S (length bs + before_eof q)
  | RecvFail _ :: q => S (before_eof q)
  end.

Lemma before_eof_more q more : Eof ∈ q -> before_eof (q ++ more) = before_eof q.
Proof.
  induction q as [|ev q IH]; intros H; [by apply not_elem_of_nil in H|].
  apply elem_of_cons in H as [<-|H]; [done|]. destruct ev; cbn; by rewrite ?IH.
Qed.

Lemma before_eof_weight q : Eof ∈ q -> (before_eof q < weight q)%nat.
Proof.
  unfold weight. induction q as [|ev q IH]; intros H; [by apply not_elem_of_nil in H|].
  apply elem_of_cons in H as [<-|H]; [cbn; lia|]. specialize (IH H). destruct ev; cbn; lia.
Qed.

(** Everything up to the first end of the stream. *)
Lemma split_at_eof q : Eof ∈ q -> exists p more, q = p ++ more /\ Eof ∈ p /\ weight p = S (before_eof q).
Proof.
  unfold weight. induction q as [|ev q IH]; intros H; [by apply not_elem_of_nil in H|].
  destruct ev as [bs| |e].
  - apply elem_of_cons in H as [?|H]; [done|]. destruct (IH H) as (p & more & -> & Hp & Hw).
    exists (Data bs :: p), more. split; [done|]. split; [by apply elem_of_cons; right|]. cbn in *. lia.
  - exists [Eof], q. split; [done|]. split; [by left|]. done.
  - apply elem_of_cons in H as [?|H]; [done|]. destruct (IH H) as (p & more & -> & Hp & Hw).
    exists (RecvFail e :: p), more. split; [done|]. split; [by apply elem_of_cons; right|]. cbn in *. lia.
Qed.

Section loss.
Context `{Hplat : Platform}.

(** A read leaves less before the end of the stream, or fails for good. *)
Lemma read_before_eof w :
  Eof ∈ inbox w -> exists r w', read_frame w = Some (r, w') /\ Eof ∈ inbox w' /\
    ((before_eof (inbox w') < before_eof (inbox w))%nat \/ exists e, r = err e /\ kind e <> Kind.RequestTimeout).
Proof.
  intros Hq. destruct (split_at_eof (inbox w) Hq) as (p & more & Hp & Hin & Hw).
  destruct (read_frame_consumes (with_inbox p w) Hin) as (r & w1 & Hr & Hin1 & Hless).
  destruct (read_frame_more _ w _ _ more Hr Hp) as (w' & Hr' & Hw').
  exists r, w'. rewrite Hw'. split; [done|]. split; [apply elem_of_app; by left|].
  destruct Hless as [Hless|He]; [left|by right].
  rewrite before_eof_more by done. pose proof (before_eof_weight _ Hin1). cbn [with_inbox inbox] in Hless. lia.
Qed.

(** ** The way of the I/O thread *)

(** What the I/O thread has left to do when the stream ends. *)
Definition loss_work (s : System) : nat :=
  let left := (12 * before_eof (inbox (net (client s))))%nat in
  match io s with
  | IoRead (err e) => if bool_decide (kind e = Kind.RequestTimeout) then left + 11 else 4
  | IoRead (ok _) => left + 11
  | IoFrame _ => left + 10
  | IoReaped _ => left + 9
  | IoTop => left + 6
  | IoReading => left + 5
  | IoFailed _ => 3
  | IoNotify _ => 2
  | IoLeaving => 1
  | IoDone => 0
  end.

Lemma reap_inbox now c c' : reap now c = Some c' -> inbox (net c') = inbox (net c).
Proof. unfold reap. destruct (reap_expired _ _) as [[? ?]|]; [|done]. by intros [= <-]. Qed.

Lemma fail_inbox e c c' : fail_pending e c = Some c' -> inbox (net c') = inbox (net c).
Proof. unfold fail_pending. destruct (fail_all_pending _ _); [|done]. by intros [= <-]. Qed.

(** Each of its steps leaves less, and the end of the stream stays in sight. *)
Lemma io_step_loss c i c' i' ts h k ts' h' k' :
  Eof ∈ inbox (net c) -> io_step c i c' i' ->
  Eof ∈ inbox (net c') /\ (loss_work (MkSystem c' ts' i' h' k') < loss_work (MkSystem c ts i h k))%nat.
Proof.
  intros Hq Hstep. unfold loss_work. cbn [client io].
  destruct Hstep as [c Hs|c Hs|c r c' H|c _|c f|c f c' H|c f b d H|c e c' He _ H|c e c' He _ H
    |c e c' He H|c e|c e|c evt|c]; rewrite ?bool_decide_eq_true_2, ?bool_decide_eq_false_2 by done;
    try (by split; [done|cbn; lia]).
  - destruct (read_before_eof (net c) Hq) as (r' & w & Hr & Hin & Hless). rewrite on_net_eq, Hr in H.
    injection H as <- <-. change (net (c <| net := w |>)) with w. split; [exact Hin|].
    destruct Hless as [Hless|(e & -> & He)]; [|rewrite bool_decide_eq_false_2 by done; lia].
    destruct r' as [f|e]; [lia|]. case_bool_decide; lia.
  - change (inbox (net (c <| last_inbound_at_ := clock c |>))) with (inbox (net c)). split; [done|lia].
  - rewrite (reap_inbox _ _ _ H). split; [done|lia].
  - change (inbox (net (c <| dispatcher_ := d |>))) with (inbox (net c)). split; [done|lia].
  - rewrite (reap_inbox _ _ _ H). split; [done|lia].
  - rewrite (fail_inbox _ _ _ H). split; [done|lia].
  - rewrite (fail_inbox _ _ _ H). split; [done|lia].
  - destruct (notify_frame evt c) as (_ & -> & _). split; [done|lia].
  - destruct (io_exit_frame c) as (_ & -> & _). split; [done|lia].
Qed.

(** Nobody else delays it. *)
Lemma sys_step_loss c0 s s' :
  life c0 s -> Eof ∈ inbox (net (client s)) -> sys_step s s' ->
  Eof ∈ inbox (net (client s')) /\
  (io s' = io s /\ loss_work s' = loss_work s \/ (loss_work s' < loss_work s)%nat).
Proof.
  intros Hlife Hq Hstep.
  assert (Hsame : forall c' ts' h' k', (exists more, inbox (net c') = inbox (net (client s)) ++ more) ->
    Eof ∈ inbox (net c') /\ (io s = io s /\ loss_work (MkSystem c' ts' (io s) h' k') = loss_work s \/
      (loss_work (MkSystem c' ts' (io s) h' k') < loss_work s)%nat)).
  { intros c' ts' h' k' [more Hm]. rewrite Hm. split; [apply elem_of_app; by left|]. left. split; [done|].
    unfold loss_work. cbn [client io]. by rewrite Hm, before_eof_more. }
  destruct Hstep as [s m t c' t' Hm H|s c' i' H|s c' h' H|s c' k' H|s c' H]; cbn [client io].
  - exact (Hsame _ _ _ _ (proj2 (caller_step_undisturbed _ _ _ _ H))).
  - destruct (io_step_loss _ _ _ _ (callers s) (hb s) (closer s) (callers s) (hb s) (closer s) Hq H) as [H1 H2].
    split; [done|]. right. by destruct s.
  - exact (Hsame _ _ _ _ (proj2 (hb_step_undisturbed _ _ _ _ H))).
  - assert (Hk : closer s = ClJoinedBoth \/ closer s <> ClJoinedBoth) by (destruct (closer s); auto).
    destruct Hk as [Hk|Hk]; [|exact (Hsame _ _ _ _ (proj2 (close_step_undisturbed _ _ _ _ _ _ H Hk)))].
    rewrite Hk in H. inversion H as [| | | | | | | |? c2 Hfail|]; subst. apply Hsame. exists [].
    by rewrite (fail_inbox _ _ _ Hfail), app_nil_r.
  - exact (Hsame _ _ _ _ (proj2 (net_step_undisturbed _ _ H))).
Qed.
(** Under a fair scheduler it ends. *)
Lemma io_thread_ends c0 calls run :
  opened c0 -> Forall at_start calls -> rtc sys_step (started c0 calls) (run 0%nat) -> infinite_run sys_step run ->
  fair_to_io run -> forall k i, (loss_work (run i) <= k)%nat -> Eof ∈ inbox (net (client (run i))) ->
  exists j, (i <= j)%nat /\ io (run j) = IoDone.
Proof.
  intros Ho Hcalls Hstart Hrun Hfair. pose proof (run_reachable c0 calls run Hrun Hstart) as Hreach.
  assert (Hstays : forall i j, (i <= j)%nat -> Eof ∈ inbox (net (client (run i))) ->
    Eof ∈ inbox (net (client (run j))) /\ (loss_work (run j) <= loss_work (run i))%nat).
  { intros i j Hij Hq. induction Hij as [|j _ [IH1 IH2]]; [done|].
    destruct (sys_step_loss c0 _ _ (run_life c0 calls _ Ho (Hreach j)) IH1 (Hrun j)) as [H1 H2].
    split; [done|]. lia. }
  induction k as [k IH] using lt_wf_ind. intros i Hk Hq. destruct (Hfair i) as (j & Hj & Hm).
  destruct (Hstays i j Hj Hq) as [Hq' Hle]. destruct Hm as [Hm|Hm].
  - destruct (sys_step_loss c0 _ _ (run_life c0 calls _ Ho (Hreach j)) Hq' (Hrun j)) as [Hq'' [[H _]|H]]; [done|].
    destruct (IH (loss_work (run (S j))) ltac:(lia) (S j) (le_n _) Hq'') as (n & Hn & Hd). exists n. split; [lia|done].
  - destruct (run_inv c0 calls _ Ho Hcalls (Hreach j)) as (l & Hinv).
    destruct (io_progress_ok (client (run j)) (io (run j)) (inv_client _ _ Hinv)) as [H|[H|[_ H]]]; [by exists j|done|].
    destruct (read_before_eof _ Hq') as (r & w & Hr & _). congruence.
Qed.

Lemma ended_stays run i j :
  infinite_run sys_step run -> (i <= j)%nat -> io (run i) = IoDone -> io (run j) = IoDone.
Proof.
  intros Hrun Hij Hi. induction Hij as [|j _ IH]; [done|].
  destruct (Hrun j) as [s n t c' t' _ _|s c' i' H|s c' h' _|s c' k' _|s c' _]; try done.
  rewrite IH in H. inversion H.
Qed.

(** ** The report *)

(** The members behind the callback. *)
Definition same_report (c c' : Client) : Prop :=
  fired c' = fired c /\ unexpected_fired_ c' = unexpected_fired_ c /\ on_unexpected_close_ c' = on_unexpected_close_ c.

Lemma report_net {A} (m : IO A) c r c' : on_net m c = Some (r, c') -> same_report c c'.
Proof. rewrite on_net_eq. destruct (m (net c)) as [[r' w]|]; [|done]. by intros [= _ <-]. Qed.

Lemma report_fail e c c' : fail_pending e c = Some c' -> same_report c c'.
Proof. unfold fail_pending. destruct (fail_all_pending _ _); [|done]. by intros [= <-]. Qed.

Lemma report_reap now c c' : reap now c = Some c' -> same_report c c'.
Proof. unfold reap. destruct (reap_expired _ _) as [[? ?]|]; [|done]. by intros [= <-]. Qed.

Lemma report_register cid d c fut c' : register cid d c = (fut, c') -> same_report c c'.
Proof. unfold register. destruct (register_pending _ _ _). by intros [= _ <-]. Qed.

Lemma report_take c cid c' : take_cid c = (cid, c') -> same_report c c'.
Proof. by intros [= _ <-]. Qed.

Hint Resolve report_net report_fail report_reap report_register report_take : core.

Lemma caller_step_report c t c' t' : caller_step c t c' t' -> same_report c c'.
Proof. destruct 1; eauto; done. Qed.

Lemma hb_step_report c h c' h' : hb_step c h c' h' -> same_report c c'.
Proof. destruct 1; eauto; done. Qed.

Lemma net_step_report c c' : net_step c c' -> same_report c c'.
Proof. by destruct 1. Qed.

(** Nothing has been reported yet, or one event has, by an I/O thread on its way out. *)
Definition reported (cb : nat) (before : list (nat * UnexpectedClose)) (s : System) : Prop :=
  on_unexpected_close_ (client s) = Some cb /\
  match io s with
  | IoLeaving | IoDone => exists e, fired (client s) = before ++ [(cb, close_event e)]
  | IoNotify evt => fired (client s) = before /\ unexpected_fired_ (client s) = false /\ exists e, evt = close_event e
  | _ => fired (client s) = before /\ unexpected_fired_ (client s) = false
  end.

Lemma reported_same cb before s c' ts' h' k' :
  reported cb before s -> same_report (client s) c' -> reported cb before (MkSystem c' ts' (io s) h' k').
Proof. unfold reported. intros Hr (Hf & Hu & Hc). cbn [client io]. by rewrite Hf, Hu, Hc. Qed.

Lemma io_step_reported cb before s c' i' :
  closing_ (client s) = false -> stop_io_ (client s) = false -> reported cb before s ->
  io_step (client s) (io s) c' i' -> reported cb before (MkSystem c' (callers s) i' (hb s) (closer s)).
Proof.
  destruct s as [c ts i h k]. unfold reported. cbn [client io callers hb closer].
  intros Hcl Hst [Hcb Hr] Hstep.
  assert (Hgo : same_report c c' -> on_unexpected_close_ c' = Some cb /\ unexpected_fired_ c' = unexpected_fired_ c /\
    fired c' = fired c) by (intros (-> & -> & ->); done).
  destruct Hstep as [c Hs|c Hs|c r c' H|c _|c f|c f c' H|c f b d H|c e c' He _ H|c e c' He _ H
    |c e c' He H|c e Hc|c e Hc|c evt|c]; try congruence; try done.
  - destruct (Hgo (report_net _ _ _ _ H)) as (-> & -> & ->). done.
  - destruct (Hgo (report_reap _ _ _ H)) as (-> & -> & ->). done.
  - destruct (Hgo (report_reap _ _ _ H)) as (-> & -> & ->). done.
  - destruct (Hgo (report_fail _ _ _ H)) as (-> & -> & ->). split; [done|]. destruct Hr as [Hf Hu].
    split; [done|]. split; [done|]. by exists e.
  - destruct (Hgo (report_fail _ _ _ H)) as (-> & -> & ->). done.
  - split; [done|]. destruct Hr as [Hf Hu]. split; [done|]. split; [done|]. by exists e.
  - destruct Hr as (Hf & Hu & e & ->). destruct (notify_fired (close_event e) c) as [Hn _].
    rewrite Hn, Hu, Hcb, Hf. split; [|by exists e]. unfold notify_unexpected_close. rewrite Hu.
    change (on_unexpected_close_ (c <| unexpected_fired_ := true |>)) with (on_unexpected_close_ c). by rewrite Hcb.
  - unfold io_exit. by destruct (_ && _).
Qed.

Lemma sys_step_reported c0 cb before s s' :
  life c0 s -> closer s = ClIdle -> closer s' = ClIdle -> reported cb before s -> sys_step s s' ->
  reported cb before s'.
Proof.
  intros Hl Hk Hk' Hr Hstep. unfold life in Hl. rewrite Hk in Hl. destruct Hl as (Hc & Hs & _).
  destruct Hstep as [s m t c' t' Hm H|s c' i' H|s c' h' H|s c' k' H|s c' H].
  - by eapply reported_same, caller_step_report.
  - by apply io_step_reported.
  - by eapply reported_same, hb_step_report.
  - cbn in Hk'. subst k'. inversion H.
  - by apply reported_same; [|apply net_step_report].
Qed.

(** After that, nothing is reported any more. *)
Lemma ended_report run i j :
  infinite_run sys_step run -> (forall i, closer (run i) = ClIdle) -> io (run i) = IoDone -> (i <= j)%nat ->
  fired (client (run j)) = fired (client (run i)).
Proof.
  intros Hrun Hk Hi Hij. induction Hij as [|j Hij IH]; [done|]. rewrite <- IH.
  pose proof (ended_stays run i j Hrun Hij Hi) as Hd. pose proof (Hk j) as Hkj. pose proof (Hk (S j)) as Hkj'.
  destruct (Hrun j) as [s m t c' t' Hm H|s c' i' H|s c' h' H|s c' k' H|s c' H].
  - by destruct (caller_step_report _ _ _ _ H).
  - rewrite Hd in H. inversion H.
  - by destruct (hb_step_report _ _ _ _ H).
  - cbn in Hkj'. subst k'. inversion H.
  - by destruct (net_step_report _ _ H).
Qed.

(** ** Requests that come too late *)

(** A request registered after the I/O thread has failed the pending ones. *)
Definition stranded (n : nat) (cid : Z) (fut : nat) (until : Z) (s : System) : Prop :=
  io s = IoDone /\ closer s = ClIdle /\ state_ (client s) = ConnectionState.Closed /\
  promises (dispatcher_ (client s)) !! fut = Some Unset /\
  (callers s !! n = Some (Waits cid fut until) \/
   callers s !! n = Some (Answered (Some cid) (err wait_timed_out)) /\ until <= clock (client s)).

Lemma stranded_step n cid fut until s s' :
  stranded n cid fut until s -> sys_step s s' -> stranded n cid fut until s'.
Proof.
  intros (Hi & Hk & Hs & Hp & Hn) Hstep. pose proof (sys_step_clock _ _ Hstep) as Hclock.
  assert (Hother : forall c' ts' h', s' = MkSystem c' ts' (io s) h' (closer s) -> undisturbed (client s) c' ->
    state_ c' = state_ (client s) -> ts' !! n = callers s !! n -> stranded n cid fut until s').
  { intros c' ts' h' -> [Hu _] Hst Ht. unfold stranded. cbn in *. rewrite Hst, Ht. split_and!; try done; [by apply Hu|].
    destruct Hn as [Hn|[Hn Hu']]; [by left|right]. split; [done|lia]. }
  destruct Hstep as [s m t c' t' Hm H|s c' i' H|s c' h' H|s c' k' H|s c' H].
  - destruct (decide (m = n)) as [->|Hne].
    + rewrite Hm in Hn. destruct Hn as [[= ->]|[[= ->] _]];
        inversion H as [| | | | | | | | |? ? ? ? r Hover Hw| | | | | |]; subst.
      unfold wait_part in Hw. rewrite Hp in Hw. injection Hw as <-.
      split_and!; try done. right. split; [|by apply Hover]. cbn. apply list_lookup_insert_eq. by eapply lookup_lt_Some.
    + eapply Hother; [done|by eapply caller_step_undisturbed|by apply caller_step_life in H as [_ H]|].
      by apply list_lookup_insert_ne.
  - rewrite Hi in H. inversion H.
  - eapply Hother; [done|by eapply hb_step_undisturbed|by apply hb_step_life in H as [_ H]|done].
  - rewrite Hk in H. inversion H. congruence.
  - eapply Hother; [done|by apply net_step_undisturbed|by apply net_step_life in H as [_ H]|done].
Qed.

Lemma stranded_stays run n cid fut until i j :
  infinite_run sys_step run -> (i <= j)%nat -> stranded n cid fut until (run i) -> stranded n cid fut until (run j).
Proof. intros Hrun Hij Hi. induction Hij as [|j _ IH]; [done|]. by eapply stranded_step. Qed.
End loss.

(** ** Properties *)

(** C11.  A lost connection.  In every infinite run in which nobody closes the client,
    once the peer has closed the connection, a scheduler that is fair to the I/O
    thread lets it end, whatever has arrived before: from then on the client is
    closed, the callback has been started exactly once more, and the descriptor of
    the connection is still open (only the destructor releases it).  A request that
    is registered after the pending ones have been failed is told nothing: whoever
    waits for it then can only time out, when the time of its wait is up. *)
Theorem lost_connection {P : Platform} (c0 : Client) (calls : list Caller) (run : nat -> System) (cb : nat)
  (Hopened : opened c0) (Hcalls : Forall at_start calls) (Hstart : rtc sys_step (started c0 calls) (run 0%nat))
  (Hrun : infinite_run sys_step run) (Hfair : fair_to_io run) (Hnobody : forall i, closer (run i) = ClIdle)
  (Heof : Eof ∈ inbox (net (client (run 0%nat)))) (Hreading : io (run 0%nat) = IoTop \/ io (run 0%nat) = IoReading)
  (Hcb : on_unexpected_close_ (client (run 0%nat)) = Some cb)
  (Hfirst : unexpected_fired_ (client (run 0%nat)) = false) :
  exists N e, forall i, (N <= i)%nat ->
    io (run i) = IoDone /\ state_ (client (run i)) = ConnectionState.Closed /\
    fired (client (run i)) = fired (client (run 0%nat)) ++ [(cb, close_event e)] /\
    sock_ (client (run i)) = sock_ c0 /\ fds (client (run i)) = fds c0 /\
    (forall n cid fut until j, callers (run i) !! n = Some (Waits cid fut until) ->
       promises (dispatcher_ (client (run i))) !! fut = Some Unset -> (i <= j)%nat ->
       callers (run j) !! n = Some (Waits cid fut until) \/
       callers (run j) !! n = Some (Answered (Some cid) (err wait_timed_out)) /\ until <= clock (client (run j))).
Proof.
  pose proof (run_reachable c0 calls run Hrun Hstart) as Hreach.
  assert (Hlife : forall i, life c0 (run i)) by (intros i; apply (run_life c0 calls); done).
  assert (Hrep : forall i, reported cb (fired (client (run 0%nat))) (run i)).
  { intros i. induction i as [|i IH]; [|by apply (sys_step_reported c0 _ _ (run i))].
    split; [done|]. by destruct Hreading as [-> | ->]. }
  destruct (io_thread_ends c0 calls run Hopened Hcalls Hstart Hrun Hfair _ 0%nat (le_n _) Heof) as (N & _ & HN).
  pose proof (Hrep N) as [_ HrN]. rewrite HN in HrN. destruct HrN as [e HeN]. exists N, e. intros i Hi.
  pose proof (ended_stays run N i Hrun Hi HN) as Hio. pose proof (Hlife i) as Hl. unfold life in Hl.
  rewrite (Hnobody i), Hio in Hl. destruct Hl as (_ & _ & (Hso & Hf) & Hst). split_and!; try done.
  - by rewrite (ended_report run N i Hrun Hnobody HN Hi).
  - intros n cid fut until j Hn Hp Hij. apply (stranded_stays run n cid fut until i j Hrun Hij). by split_and!; [..|left].
Qed.

(** The peer closes the connection; a caller that was let in before registers its
    request after the pending ones have been failed, and is never answered. *)
Definition lost_client : Client := on_unexpected_close 3 (open_client [Eof]).
Definition late_call : Call := MkCall 13 1 [].

Lemma late_request_run :
  exists c, rtc (sys_step (Hplat := sample_platform)) (started lost_client one_call)
    (MkSystem c [Waits 100 0 one_end] IoDone HbDone ClIdle) /\
  promises (dispatcher_ c) !! 0%nat = Some Unset.
Proof.
  eexists. split.
  - unfold started, one_call. change (heartbeat_thread_ _) with false. cbn match.
    etransitivity; [apply (caller_run_sys (Hplat := sample_platform) 0 lost_client (Calling late_call));
      [apply run_caller, s_open; reflexivity|reflexivity]|]. cbn [insert list_insert].
    etransitivity; [apply (run_io (Hplat := sample_platform)), i_check; reflexivity|].
    etransitivity; [eapply (run_io (Hplat := sample_platform)), i_read; vm_compute; reflexivity|].
    etransitivity; [eapply (run_io (Hplat := sample_platform)), i_failed; [discriminate|vm_compute; reflexivity]|].
    etransitivity.
    { eapply (caller_run_sys (Hplat := sample_platform) 0 _ (Accepted late_call)); [|reflexivity].
      eapply (send_part_run late_call); [vm_compute; reflexivity|vm_compute; reflexivity]. }
    etransitivity; [apply (run_io (Hplat := sample_platform)), i_unexpected; reflexivity|].
    etransitivity; [apply (run_io (Hplat := sample_platform)), i_notify|].
    etransitivity; [apply (run_io (Hplat := sample_platform)), i_exit|]. reflexivity.
  - vm_compute. reflexivity.
Qed.

(** Whoever is in [close] stays there. *)
Lemma closing_stays `{Hplat : Platform} s s' : rtc sys_step s s' -> closer s <> ClIdle -> closer s' <> ClIdle.
Proof.
  induction 1 as [|s1 s2 s3 H _ IH]; [done|]. intros Hk. apply IH.
  destruct H as [s n t c' t' _ _|s c' i' _|s c' h' _|s c' k' H|s c' _]; try done. cbn. by destruct H.
Qed.

Lemma lost_connection_witness :
  exists run, infinite_run (sys_step (Hplat := sample_platform)) run /\ run 0%nat = started lost_client one_call /\
    exists N e, forall i, (N <= i)%nat ->
      fired (client (run i)) = [(3%nat, close_event e)] /\ state_ (client (run i)) = ConnectionState.Closed /\
      callers (run i) !! 0%nat = Some (Waits 100 0 one_end).
Proof.
  destruct late_request_run as (c & Hlost & Hp). pose proof (sys_net (Hplat := sample_platform)) as Hidle.
  destruct (rtc_infinite _ _ _ Hlost (Hidle (MkSystem c [Waits 100 0 one_end] IoDone HbDone ClIdle) c (net_idle c)))
    as (run & Hrun & H0 & N & HN).
  assert (Ho : opened lost_client) by exact (open_client_opened [Eof] ltac:(unfold queue_ok; decided)).
  assert (Hcalls : Forall at_start one_call) by (repeat constructor).
  assert (Hfair : fair_to_io (Hplat := sample_platform) run).
  { intros i. exists (N + i)%nat. split; [lia|]. right. rewrite HN by lia. intros (c' & i' & H). inversion H. }
  assert (Hnobody : forall i, closer (run i) = ClIdle).
  { intros i. assert (Hr : rtc (sys_step (Hplat := sample_platform)) (run i) (run (N + i)%nat))
      by (apply run_reaches; [exact Hrun|lia]).
    pose proof (closing_stays _ _ Hr) as Hk. rewrite (HN (N + i)%nat) in Hk by lia.
    destruct (closer (run i)); [reflexivity|destruct Hk; [discriminate|reflexivity]..]. }
  assert (Hstart : rtc (sys_step (Hplat := sample_platform)) (started lost_client one_call) (run 0%nat))
    by (rewrite H0; reflexivity).
  destruct (lost_connection (P := sample_platform) lost_client one_call run 3 Ho Hcalls Hstart Hrun Hfair Hnobody)
    as (M & e & HM); try (rewrite H0; reflexivity).
  { rewrite H0. by left. }
  { rewrite H0. by left. }
  exists run. split; [exact Hrun|]. split; [exact H0|]. exists (N + M)%nat, e. intros i Hi.
  destruct (HM i ltac:(lia)) as (_ & Hst & Hf & _). rewrite H0 in Hf. split; [exact Hf|]. split; [exact Hst|].
  rewrite HN by lia. reflexivity.
Defined.
