(* ===== verification/Wire.v ===== *)
(** * What the threads put on the wire

    The callers, the heartbeat thread and the thread in [close] write through the
    same [SocketWriter].  Here every frame they hand to it is accounted for: the
    bytes sent are the frames of the writers one after the other, each frame at most
    once, whole unless its writer got an error. *)

From coqutil Require Import Datatypes.RecordSetters.
From S2P Require Import Prelude Errors Buffer Codec Frame Command HandshakeCommands.
From S2P Require Import LifecycleCommands Config Dispatcher Socket Concurrency Dialogue Handshake.
From S2P Require Import Client ClientInvariant ClientThreads ClientProperties ThreadProperties.
Import TriangleBracketNotations.

Local Open Scope Z_scope.

(** ** The account of the writes *)

(** Who writes, and what. *)
Inductive Sender := FromCaller (n : nat) | FromHeartbeat | FromClose.

#[export] Instance Sender_eq_dec : EqDecision Sender.
Proof. solve_decision. Defined.

Inductive Item :=
  | Requested (call : Call) (cid : Z)
  | Offset (reference stream : std_string) (offset : Z)
  | Beat
  | Goodbye (cid : Z).

Definition item_frame (i : Item) : bytes :=
  match i with
  | Requested call cid => frame_of call cid
  | Offset ref str off => oneway_frame (StoreOffset.Mk ref str off)
  | Beat => oneway_frame Heartbeat.Mk
  | Goodbye cid => request close_request cid
  end.

(** A call of [write_all]: its result, and the bytes it has sent. *)
Record Piece := MkPiece {
  p_from : Sender;
  p_item : Item;
  p_result : Result unit;
  p_bytes : bytes
}.

(** The whole frame when the call succeeded, less than that when it failed. *)
Definition piece_ok (p : Piece) : Prop :=
  exists rest, item_frame (p_item p) = p_bytes p ++ rest /\
    match p_result p with
    | ok _ => rest = []
    | err e => rest <> [] /\ (kind e = Kind.IoError \/ kind e = Kind.ConnectionClosed)
    end.

Definition from (x : Sender) (log : list Piece) : list Piece := filter (fun p => p_from p = x) log.

Lemma from_other x p log : p_from p <> x -> from x (log ++ [p]) = from x log.
Proof. intros Hne. unfold from. rewrite filter_app, filter_cons_False by done. by rewrite app_nil_r. Qed.

Lemma from_same p log : from (p_from p) (log ++ [p]) = from (p_from p) log ++ [p].
Proof. unfold from. rewrite filter_app. by rewrite filter_cons_True by done. Qed.

Lemma sent_app log p : concat (p_bytes <$> log ++ [p]) = concat (p_bytes <$> log) ++ p_bytes p.
Proof. rewrite fmap_app, concat_app. cbn. by rewrite app_nil_r. Qed.

(** What a caller that began as [start] has written by now. *)
Definition caller_wrote (start t : Caller) (mine : list Piece) : Prop :=
  match t with
  | Calling call | Accepted call | Numbered call _ | Enrolled call _ _ | Stamped call _ _ =>
      start = Calling call /\ mine = []
  | Waits cid _ _ =>
      exists call p, start = Calling call /\ mine = [p] /\ p_item p = Requested call cid /\ p_result p = ok tt
  | Answered o r =>
      exists call, start = Calling call /\
        ((mine = [] /\ exists e, r = err e) \/
         exists cid p, o = Some cid /\ mine = [p] /\ p_item p = Requested call cid /\
           (forall e, p_result p = err e -> r = err e))
  | Storing _ _ _ => start = t /\ mine = []
  | StoreAccepted ref str off => start = Storing ref str off /\ mine = []
  | StoreStamped frame =>
      exists ref str off, start = Storing ref str off /\ frame = item_frame (Offset ref str off) /\ mine = []
  | Stored r =>
      exists ref str off, start = Storing ref str off /\
        ((mine = [] /\ exists e, r = err e) \/
         exists p, mine = [p] /\ p_item p = Offset ref str off /\ p_result p = r)
  end.

(** The same for the thread in [close]. *)
Definition closer_wrote (k : Closer) (mine : list Piece) : Prop :=
  match k with
  | ClIdle | ClBegun | ClNumbered _ | ClEnrolled _ _ => mine = []
  | _ => mine = [] \/ exists cid p, mine = [p] /\ p_item p = Goodbye cid
  end.

(** Everything sent since [c0] is accounted for by [log]. *)
Record accounted (c0 : Client) (calls : list Caller) (s : System) (log : list Piece) : Prop := {
  acc_wire : outbox (net (client s)) = outbox (net c0) ++ concat (p_bytes <$> log);
  acc_pieces : Forall piece_ok log;
  acc_length : length (callers s) = length calls;
  acc_callers : forall n start t, calls !! n = Some start -> callers s !! n = Some t ->
    caller_wrote start t (from (FromCaller n) log);
  acc_strangers : forall p n, p ∈ log -> p_from p = FromCaller n -> (n < length calls)%nat;
  acc_heartbeat : Forall (fun p => p_item p = Beat) (from FromHeartbeat log);
  acc_closer : closer_wrote (closer s) (from FromClose log)
}.

Lemma started_accounted c0 calls : Forall at_start calls -> accounted c0 calls (started c0 calls) [].
Proof.
  intros Hc. split; try done.
  - cbn. by rewrite app_nil_r.
  - intros n start t Hn Ht. cbn in Ht. rewrite Hn in Ht. injection Ht as <-.
    pose proof (Forall_lookup_1 _ _ _ _ Hc Hn) as H. by destruct start.
  - intros p n H. by apply not_elem_of_nil in H.
Qed.

Section account.
Context `{Hplat : Platform}.

(** ** Steps that write nothing, and steps that write one frame *)

Definition wrote_nothing (c c' : Client) : Prop := outbox (net c') = outbox (net c).

Lemma write_piece x item c r c' :
  on_net (write_all (item_frame item)) c = Some (r, c') ->
  exists p, p_from p = x /\ p_item p = item /\ p_result p = r /\ piece_ok p /\
    outbox (net c') = outbox (net c) ++ p_bytes p.
Proof.
  rewrite on_net_eq. unfold write_all. destruct (write_loop _ _ _) as [[[r' q] out]|] eqn:E; [|done].
  intros [= -> <-]. apply write_loop_spec in E as (sent & rest & Heq & -> & Hr).
  exists (MkPiece x item r sent). split_and!; try done. by exists rest.
Qed.

(** One that the closing of the socket has cut. *)
Lemma cut_piece x item n c :
  (n < length (item_frame item))%nat ->
  exists p, p_from p = x /\ p_item p = item /\ p_result p = err send_closed /\ piece_ok p /\
    outbox (net (cut_after (item_frame item) n c)) = outbox (net c) ++ p_bytes p.
Proof.
  intros Hn. exists (MkPiece x item (err send_closed) (take n (item_frame item))). split_and!; try done.
  exists (drop n (item_frame item)). split; [symmetry; apply take_drop|]. split; [|by left].
  intros H%(f_equal length). rewrite length_drop in H. cbn in H. lia.
Qed.

Lemma read_silent c r c' : on_net read_frame c = Some (r, c') -> wrote_nothing c c'.
Proof.
  rewrite on_net_eq. destruct (read_frame (net c)) as [[r' w]|] eqn:E; [|done]. intros [= _ <-].
  apply read_frame_frame in E. unfold wrote_nothing. cbn [net]. by rewrite E.
Qed.

Lemma fail_silent e c c' : fail_pending e c = Some c' -> wrote_nothing c c'.
Proof. unfold fail_pending. destruct (fail_all_pending _ _); [|done]. by intros [= <-]. Qed.

Lemma reap_silent now c c' : reap now c = Some c' -> wrote_nothing c c'.
Proof. unfold reap. destruct (reap_expired _ _) as [[? ?]|]; [|done]. by intros [= <-]. Qed.

Lemma register_silent cid d c fut c' : register cid d c = (fut, c') -> wrote_nothing c c'.
Proof. unfold register. destruct (register_pending _ _ _). by intros [= _ <-]. Qed.

Lemma take_silent c cid c' : take_cid c = (cid, c') -> wrote_nothing c c'.
Proof. by intros [= _ <-]. Qed.

Hint Resolve read_silent fail_silent reap_silent register_silent take_silent : core.

Lemma io_step_silent c i c' i' : io_step c i c' i' -> wrote_nothing c c'.
Proof.
  destruct 1; eauto; try done.
  - unfold wrote_nothing. by destruct (notify_frame evt c) as (_ & -> & _).
  - unfold wrote_nothing, io_exit. by destruct (_ && _).
Qed.

Lemma net_step_silent c c' : net_step c c' -> wrote_nothing c c'.
Proof. by destruct 1. Qed.

(** A step of a thread that writes: nothing, or one frame of its own. *)
Definition writes (x : Sender) (c c' : Client) (mine : list Piece) (Q : list Piece -> Prop) : Prop :=
  (wrote_nothing c c' /\ Q mine) \/
  exists p, p_from p = x /\ piece_ok p /\ outbox (net c') = outbox (net c) ++ p_bytes p /\ Q (mine ++ [p]).

Lemma caller_step_writes n start c t c' t' mine :
  caller_step c t c' t' -> caller_wrote start t mine ->
  writes (FromCaller n) c c' mine (caller_wrote start t').
Proof.
  intros Hstep Hw. assert (Hgo : wrote_nothing c c' -> caller_wrote start t' mine ->
    writes (FromCaller n) c c' mine (caller_wrote start t')) by (intros; by left).
  destruct Hstep as [c call e|c call|c call cid c'|c call cid fut c'|c call cid fut e|c call cid fut
    |c call cid fut c' H|c call cid fut e c' H|c call cid fut k _ H|c cid fut until r _ H|c ref str off e|c ref str off e
    |c ref str off|c ref str off|c frame r c' H|c frame k _ H]; cbn [caller_wrote] in Hw.
  - destruct Hw as [-> ->]. apply Hgo; [done|]. exists call. split; [done|]. left. split; [done|]. by exists e.
  - by apply Hgo.
  - apply Hgo; eauto.
  - apply Hgo; eauto.
  - destruct Hw as [-> ->]. apply Hgo; [done|]. exists call. split; [done|]. left. split; [done|]. by exists e.
  - by apply Hgo.
  - destruct Hw as [-> ->]. right. apply (write_piece (FromCaller n) (Requested call cid)) in H as (p & Hf & Hi & Hr & Ho & Hb).
    exists p. split_and!; try done. by exists call, p.
  - destruct Hw as [-> ->]. right. apply (write_piece (FromCaller n) (Requested call cid)) in H as (p & Hf & Hi & Hr & Ho & Hb).
    exists p. split_and!; try done. exists call. split; [done|]. right. exists cid, p. split_and!; try done. congruence.
  - destruct Hw as [-> ->]. right.
    apply (cut_piece (FromCaller n) (Requested call cid) _ c) in H as (p & Hf & Hi & Hr & Ho & Hb).
    exists p. split_and!; try done. exists call. split; [done|]. right. exists cid, p. split_and!; try done. congruence.
  - destruct Hw as (call & p & -> & -> & Hi & Hr). apply Hgo; [done|]. exists call. split; [done|]. right.
    exists cid, p. split_and!; try done. congruence.
  - destruct Hw as [-> ->]. apply Hgo; [done|]. exists ref, str, off. split; [done|]. left. split; [done|]. by exists e.
  - destruct Hw as [-> ->]. apply Hgo; [done|]. exists ref, str, off. split; [done|]. left. split; [done|]. by exists e.
  - by apply Hgo.
  - destruct Hw as [-> ->]. apply Hgo; [done|]. by exists ref, str, off.
  - destruct Hw as (ref & str & off & -> & -> & ->). right.
    apply (write_piece (FromCaller n) (Offset ref str off)) in H as (p & Hf & Hi & Hr & Ho & Hb).
    exists p. split_and!; try done. exists ref, str, off. split; [done|]. right. by exists p.
  - destruct Hw as (ref & str & off & -> & -> & ->). right.
    apply (cut_piece (FromCaller n) (Offset ref str off) _ c) in H as (p & Hf & Hi & Hr & Ho & Hb).
    exists p. split_and!; try done. exists ref, str, off. split; [done|]. right. by exists p.
Qed.

Lemma hb_step_writes c h c' h' mine :
  hb_step c h c' h' -> Forall (fun p => p_item p = Beat) mine ->
  writes FromHeartbeat c c' mine (Forall (fun p => p_item p = Beat)).
Proof.
  intros Hstep Hm. destruct Hstep as [| | |c now r c' H|c now k _ H|]; try (by left); right.
  - apply (write_piece FromHeartbeat Beat) in H as (p & Hf & Hi & Hr & Ho & Hb).
    exists p. split_and!; try done. apply Forall_app. split; [done|]. by constructor.
  - apply (cut_piece FromHeartbeat Beat _ c) in H as (p & Hf & Hi & Hr & Ho & Hb).
    exists p. split_and!; try done. apply Forall_app. split; [done|]. by constructor.
Qed.

Lemma close_step_writes i h c k c' k' mine :
  close_step i h c k c' k' -> closer_wrote k mine -> writes FromClose c c' mine (closer_wrote k').
Proof.
  intros Hstep Hm. destruct Hstep as [c|c cid c' _ H|c cid fut c' H|c cid fut r c' H|c|c s os|c|c|c c' H|c];
    try (by left); try (left; split; by eauto).
  cbn in Hm. subst mine. destruct (writer_ c).
  - right. apply (write_piece FromClose (Goodbye cid)) in H as (p & Hf & Hi & Hr & Ho & Hb).
    exists p. split_and!; try done. right. by exists cid, p.
  - left. injection H as _ <-. split; [done|by left].
Qed.

(** ** The account is kept *)

Lemma callers_update c0 calls s log n t :
  accounted c0 calls s log -> callers s !! n = Some t ->
  exists start, calls !! n = Some start /\ caller_wrote start t (from (FromCaller n) log).
Proof.
  intros Ha Hn. destruct (lookup_lt_is_Some_2 calls n) as [start Hs].
  { rewrite <- (acc_length _ _ _ _ Ha). by eapply lookup_lt_Some. }
  exists start. split; [done|]. by eapply acc_callers.
Qed.

Lemma accounted_io c0 calls s log c' i' :
  accounted c0 calls s log -> wrote_nothing (client s) c' ->
  accounted c0 calls (MkSystem c' (callers s) i' (hb s) (closer s)) log.
Proof. intros [] Hw. split; cbn; try done. by rewrite Hw. Qed.

Lemma accounted_caller c0 calls s log n t c' t' :
  accounted c0 calls s log -> callers s !! n = Some t -> caller_step (client s) t c' t' ->
  exists log', accounted c0 calls (MkSystem c' (<[n := t']> (callers s)) (io s) (hb s) (closer s)) log'.
Proof.
  intros Ha Hn Hstep. destruct (callers_update _ _ _ _ _ _ Ha Hn) as (start & Hs & Hw).
  assert (Hothers : forall log', (forall m, m <> n -> from (FromCaller m) log' = from (FromCaller m) log) ->
    caller_wrote start t' (from (FromCaller n) log') ->
    forall m st u, calls !! m = Some st -> <[n := t']> (callers s) !! m = Some u ->
    caller_wrote st u (from (FromCaller m) log')).
  { intros log' Hsame Hmine m st u Hm Hu. destruct (decide (m = n)) as [->|Hne].
    - rewrite list_lookup_insert_eq in Hu by (by eapply lookup_lt_Some). congruence.
    - rewrite list_lookup_insert_ne in Hu by done. rewrite Hsame by done. by eapply acc_callers. }
  destruct (caller_step_writes n start _ _ _ _ _ Hstep Hw) as [[Hq Hc]|(p & Hf & Hp & Ho & Hc)]; destruct Ha.
  - exists log. split; cbn; try done; [by rewrite Hq|by rewrite length_insert|]. by apply Hothers.
  - exists (log ++ [p]). split; cbn [client callers closer].
    + by rewrite sent_app, app_assoc, <- acc_wire0, Ho.
    + apply Forall_app. by repeat constructor.
    + by rewrite length_insert.
    + apply Hothers; [|rewrite <- Hf, from_same; by rewrite Hf].
      intros m Hm. apply from_other. rewrite Hf. congruence.
    + intros q m [H|H]%elem_of_app Hq; [by eapply acc_strangers0|]. apply list_elem_of_singleton in H as ->.
      rewrite Hf in Hq. injection Hq as <-. by eapply lookup_lt_Some.
    + by rewrite from_other by (by rewrite Hf).
    + by rewrite from_other by (by rewrite Hf).
Qed.

(** A frame of another thread. *)
Lemma accounted_other c0 calls s log p c' h' k' :
  accounted c0 calls s log -> (forall n, p_from p <> FromCaller n) -> piece_ok p ->
  outbox (net c') = outbox (net (client s)) ++ p_bytes p ->
  Forall (fun p => p_item p = Beat) (from FromHeartbeat (log ++ [p])) ->
  closer_wrote k' (from FromClose (log ++ [p])) ->
  accounted c0 calls (MkSystem c' (callers s) (io s) h' k') (log ++ [p]).
Proof.
  intros [] Hf Hp Ho Hb Hk. split; cbn [client callers closer]; try done.
  - by rewrite sent_app, app_assoc, <- acc_wire0, Ho.
  - apply Forall_app. by repeat constructor.
  - intros n start t Hs Ht. rewrite from_other by done. by apply acc_callers0.
  - intros q n [H|H]%elem_of_app Hq; [by eapply acc_strangers0|]. apply list_elem_of_singleton in H as ->.
    by destruct (Hf n).
Qed.

Lemma sys_step_accounted c0 calls s log s' :
  accounted c0 calls s log -> sys_step s s' -> exists log', accounted c0 calls s' log'.
Proof.
  intros Ha Hstep. destruct Hstep as [s n t c' t' Hn H|s c' i' H|s c' h' H|s c' k' H|s c' H].
  - by eapply accounted_caller.
  - exists log. by eapply accounted_io, io_step_silent.
  - destruct (hb_step_writes _ _ _ _ _ H (acc_heartbeat _ _ _ _ Ha)) as [[Hq Hb]|(p & Hf & Hp & Ho & Hb)].
    + exists log. destruct Ha. split; cbn; try done. by rewrite Hq.
    + exists (log ++ [p]). apply accounted_other; try done; [by rewrite Hf|rewrite <- Hf, from_same; by rewrite Hf|].
      rewrite from_other by (by rewrite Hf). apply Ha.
  - destruct (close_step_writes _ _ _ _ _ _ _ H (acc_closer _ _ _ _ Ha)) as [[Hq Hb]|(p & Hf & Hp & Ho & Hb)].
    + exists log. destruct Ha. split; cbn; try done. by rewrite Hq.
    + exists (log ++ [p]). apply accounted_other; try done; [by rewrite Hf| |rewrite <- Hf, from_same; by rewrite Hf].
      rewrite from_other by (by rewrite Hf). apply Ha.
  - exists log. by apply accounted_io; [|apply net_step_silent].
Qed.

Lemma run_accounted c0 calls s :
  Forall at_start calls -> rtc sys_step (started c0 calls) s -> exists log, accounted c0 calls s log.
Proof.
  intros Hc%(started_accounted c0) Hrun. revert Hc. generalize (@nil Piece).
  induction Hrun as [s|s1 s2 s3 H _ IH]; intros log Ha; [by exists log|].
  destruct (sys_step_accounted _ _ _ _ _ Ha H) as (log' & Ha'). by apply (IH log').
Qed.
End account.

(** ** Properties *)

(** A request in a caller's account bears the caller's id, and is all of it. *)
Lemma caller_wrote_request start t mine p call cid :
  caller_wrote start t mine -> p ∈ mine -> p_item p = Requested call cid -> cid ∈ cid_of t /\ mine = [p].
Proof.
  assert (Hnil : forall Q : Prop, mine = [] -> p ∈ mine -> Q) by (intros Q -> H; by apply not_elem_of_nil in H).
  assert (Hone : forall q, mine = [q] -> p ∈ mine -> p = q) by (intros q -> H; by apply list_elem_of_singleton in H).
  destruct t; cbn [caller_wrote cid_of]; intros Hw Hp Hi; try (destruct Hw as [_ Hw]; by apply Hnil).
  - destruct Hw as (call' & q & _ & Hm & Hq & _). pose proof (Hone q Hm Hp) as ->.
    split; [|done]. rewrite Hi in Hq. injection Hq as _ ->. by left.
  - destruct Hw as (call' & _ & [[Hm _]|(cid' & q & -> & Hm & Hq & _)]); [by apply Hnil|].
    pose proof (Hone q Hm Hp) as ->. split; [|done]. rewrite Hi in Hq. injection Hq as _ ->. by left.
  - destruct Hw as (ref & str & off & _ & _ & Hm). by apply Hnil.
  - destruct Hw as (ref & str & off & _ & [[Hm _]|(q & Hm & Hq & _)]); [by apply Hnil|].
    pose proof (Hone q Hm Hp) as ->. congruence.
Qed.

(** A request on the wire belongs to the caller that has its correlation id. *)
Lemma request_owner c0 calls s log p call cid :
  accounted c0 calls s log -> p ∈ log -> p_item p = Requested call cid ->
  exists n t, p_from p = FromCaller n /\ callers s !! n = Some t /\ cid ∈ cid_of t /\
    from (FromCaller n) log = [p].
Proof.
  intros Ha Hp Hi. assert (Hin : p ∈ from (p_from p) log) by (by apply list_elem_of_filter).
  destruct (p_from p) as [n| |] eqn:Hf.
  - destruct (lookup_lt_is_Some_2 calls n) as [start Hs]; [by eapply acc_strangers|].
    destruct (lookup_lt_is_Some_2 (callers s) n) as [t Ht].
    { rewrite (acc_length _ _ _ _ Ha). by eapply lookup_lt_Some. }
    pose proof (acc_callers _ _ _ _ Ha n start t Hs Ht) as Hw. exists n, t.
    by destruct (caller_wrote_request _ _ _ _ _ _ Hw Hin Hi).
  - pose proof (proj1 (Forall_forall _ _) (acc_heartbeat _ _ _ _ Ha) p Hin) as H. cbn in H. congruence.
  - pose proof (acc_closer _ _ _ _ Ha) as H.
    assert (Hc : from FromClose log = [] \/ exists cid q, from FromClose log = [q] /\ p_item q = Goodbye cid)
      by (destruct (closer s); cbn in H; auto).
    destruct Hc as [Hc|(cid' & q & Hc & Hq)]; rewrite Hc in Hin; [by apply not_elem_of_nil in Hin|].
    apply list_elem_of_singleton in Hin as ->. congruence.
Qed.

Lemma whole_pieces log :
  Forall piece_ok log -> Forall (fun p => p_result p = ok tt) log ->
  p_bytes <$> log = (fun p => item_frame (p_item p)) <$> log.
Proof.
  intros H1 H2. induction log as [|p log IH]; [done|].
  apply Forall_cons in H1 as [(rest & Hp & Hr) H1]. apply Forall_cons in H2 as [H2 H2'].
  rewrite H2 in Hr. subst rest. rewrite app_nil_r in Hp. cbn. rewrite Hp. f_equal. by apply IH.
Qed.

(** C5.  What is on the wire.  In every interleaving of the threads, the bytes the
    client has sent since it was opened are the concatenation of the frames its
    threads wrote, never interleaved: each caller has sent its own frame at most
    once (none before its write; the whole request, under its own correlation id,
    when it waits for the answer), the heartbeat thread has sent heartbeats, the
    thread in [close] at most one close request, and no two requests have the same
    id.  Each is whole unless its write returned an error; so if no write failed
    the wire carries exactly the frames. *)
Theorem wire_is_frames {P : Platform} (c0 : Client) (calls : list Caller) (s : System)
  (Hopened : opened c0) (Hcalls : Forall at_start calls) (Hrun : rtc sys_step (started c0 calls) s) :
  exists log, accounted c0 calls s log /\
    outbox (net (client s)) = outbox (net c0) ++ concat (p_bytes <$> log) /\
    (Forall (fun p => p_result p = ok tt) log ->
       outbox (net (client s)) = outbox (net c0) ++ concat ((fun p => item_frame (p_item p)) <$> log)) /\
    (forall p q call call' cid, p ∈ log -> q ∈ log -> p_item p = Requested call cid ->
       p_item q = Requested call' cid -> p = q).
Proof.
  destruct (run_accounted c0 calls s Hcalls Hrun) as (log & Ha). exists log.
  split; [done|]. split; [apply Ha|]. split.
  - intros Hok. rewrite (acc_wire _ _ _ _ Ha), whole_pieces; [done|apply Ha|done].
  - intros p q call call' cid Hp Hq Hpi Hqi.
    destruct (request_owner _ _ _ _ _ _ _ Ha Hp Hpi) as (n & t & _ & Hn & Ht & Hfp).
    destruct (request_owner _ _ _ _ _ _ _ Ha Hq Hqi) as (m & u & _ & Hm & Hu & Hfq).
    destruct (run_inv c0 calls s Hopened Hcalls Hrun) as (l & Hinv).
    assert (n = m) as <- by exact (nodup_owner _ _ _ _ _ _ _ _ (inv_cids _ _ Hinv) Hn Hm Ht Hu).
    rewrite Hfp in Hfq. by injection Hfq.
Qed.

(** A write that fails in the middle of a frame: its caller gets the error, the
    client stays open, and the next request follows the five bytes. *)
Definition broken_pipe : Errno := EOther 32.
Definition cut_client : Client :=
  (open_client []) <| net := MkWorld [] (Sent 5 :: SendFail broken_pipe :: repeat (Sent 50) 4) [] [] |>.

Lemma cut_run :
  exists c e, rtc (sys_step (Hplat := sample_platform)) (started cut_client two_calls)
    (MkSystem c [Answered (Some 100) (err e); Waits 101 1 one_end] IoTop HbDone ClIdle) /\
  state_ c = ConnectionState.Open /\
  outbox (net c) = take 5 (frame_of (MkCall 13 1 []) 100) ++ frame_of (MkCall 14 1 []) 101.
Proof.
  eexists _, _. split.
  { unfold started, two_calls. change (heartbeat_thread_ _) with false. cbn match.
  etransitivity.
  { apply (caller_run_sys (Hplat := sample_platform) 0 _ (Calling (MkCall 13 1 []))); [|reflexivity].
    etransitivity; [apply run_caller, s_open; reflexivity|].
    eapply (send_part_run (MkCall 13 1 []) cut_client (err _)); [reflexivity|vm_compute; reflexivity]. }
  change (callers _) with two_calls.
  run_next (call_run (Hplat := sample_platform) (MkCall 14 1 []) _ _ _ 1).
  apply reflexive_eq. f_equal. }
  split; vm_compute; reflexivity.
Qed.

Lemma wire_is_frames_witness :
  opened cut_client /\
  exists s log, rtc (sys_step (Hplat := sample_platform)) (started cut_client two_calls) s /\
    accounted cut_client two_calls s log /\ state_ (client s) = ConnectionState.Open /\
    concat (p_bytes <$> log) = take 5 (frame_of (MkCall 13 1 []) 100) ++ frame_of (MkCall 14 1 []) 101.
Proof.
  assert (Ho : opened cut_client).
  { split; [|done]. exact (new_client_ok default_config (net cut_client) ∅ (Forall_nil_2 _)). }
  split; [exact Ho|]. destruct cut_run as (c & e & Hrun & Hs & Hout).
  assert (Hcalls : Forall at_start two_calls) by (repeat constructor).
  destruct (wire_is_frames (P := sample_platform) cut_client two_calls _ Ho Hcalls Hrun) as (log & Ha & Hw & _).
  eexists _, log. split; [exact Hrun|]. split; [exact Ha|]. split; [exact Hs|].
  cbn [client] in Hw. rewrite Hout in Hw. symmetry. exact Hw.
Defined.
