(* ===== verification/RelaxedFlag.v ===== *)
(** * The stop flag under relaxed memory

    [stop_io_] is loaded and stored with [memory_order_relaxed].  A store to it may
    therefore become visible to the other threads later than it is made, and in any
    order with what else the storing thread does.  The threads of [ClientThreads]
    read the last value; here they may also read the one before.  What holds of the
    interleaved threads still does, and a shutdown completes once the store is
    visible, which C++ promises to be in finite time. *)

From coqutil Require Import Datatypes.RecordSetters.
From S2P Require Import Prelude Fairness Errors Buffer Codec Frame Command HandshakeCommands.
From S2P Require Import LifecycleCommands Config Dispatcher Socket Concurrency Dialogue Handshake.
From S2P Require Import Client ClientInvariant ClientThreads ClientProperties ThreadProperties Liveness Wire.
Import TriangleBracketNotations.

Local Open Scope Z_scope.

Section relaxed.
Context `{Hplat : Platform}.

(** A load of the flag that returns the value it had when the threads were started:
    the head of [io_loop], and that of the heartbeat loop, for which the store of
    [close] has not happened yet.  The other shared members are read under their
    mutexes. *)
Inductive stale_step : System -> System -> Prop :=
  | stale_io s i' :
      io s = IoTop -> io_step ((client s) <| stop_io_ := false |>) IoTop ((client s) <| stop_io_ := false |>) i' ->
      stale_step s (MkSystem (client s) (callers s) i' (hb s) (closer s))
  | stale_hb s h' :
      hb s = HbTop -> hb_step ((client s) <| stop_io_ := false |>) HbTop ((client s) <| stop_io_ := false |>) h' ->
      stale_step s (MkSystem (client s) (callers s) (io s) h' (closer s)).

Definition relaxed_step (s s' : System) : Prop := sys_step s s' \/ stale_step s s'.

(** Such a load lets the I/O thread into [read_frame] again, and the heartbeat thread
    around its loop or to a heartbeat. *)
Lemma stale_io_reads c i' :
  io_step (c <| stop_io_ := false |>) IoTop (c <| stop_io_ := false |>) i' -> i' = IoReading.
Proof. by inversion 1. Qed.

Lemma stale_hb_runs c h' :
  hb_step (c <| stop_io_ := false |>) HbTop (c <| stop_io_ := false |>) h' -> h' = HbTop \/ exists now, h' = HbDue now.
Proof. inversion 1; eauto; try done. Qed.

Lemma stale_step_client s s' :
  stale_step s s' ->
  client s' = client s /\ callers s' = callers s /\ closer s' = closer s /\
  io_ended (io s') = io_ended (io s) /\ (io s = IoDone -> io s' = IoDone) /\ (hb s = HbDone -> hb s' = HbDone).
Proof.
  destruct 1 as [s i' Hi H|s h' Hh H]; cbn [client callers io hb closer].
  - apply stale_io_reads in H as ->. by rewrite Hi.
  - by rewrite Hh.
Qed.

(** ** The invariants *)

Lemma stale_step_inv s l s' : sys_inv s l -> stale_step s s' -> sys_inv s' l.
Proof.
  intros [H1 H2 H3 H4 H5 H6] (Hc & Hcs & Hk & _)%stale_step_client.
  by split; unfold cids, unregistered in *; rewrite ?Hc, ?Hcs, ?Hk.
Qed.

Lemma stale_step_life c0 s s' : life c0 s -> stale_step s s' -> life c0 s'.
Proof.
  intros Hl (Hc & Hcs & Hk & Hi & Hi' & Hh)%stale_step_client. unfold life in *. rewrite Hc, Hk, Hi.
  destruct (closer s); destruct_and?; split_and?; auto.
Qed.

Lemma relaxed_invariants c0 calls s :
  opened c0 -> Forall at_start calls -> rtc relaxed_step (started c0 calls) s ->
  life c0 s /\ exists l, sys_inv s l.
Proof.
  intros Ho Hcalls Hrun.
  assert (H0 : life c0 (started c0 calls) /\ exists l, sys_inv (started c0 calls) l).
  { split; [by apply (run_life c0 calls)|by apply started_inv]. }
  revert H0. induction Hrun as [|s1 s2 s3 H _ IH]; [done|]. intros (Hl & l & Hinv). apply IH. destruct H as [H|H].
  - split; [by eapply sys_step_life|by eapply sys_step_inv].
  - split; [by eapply stale_step_life|exists l; by eapply stale_step_inv].
Qed.
(** The callback and the bytes on the wire. *)
Lemma stale_step_notified c0 s s' : notified_by c0 s -> stale_step s s' -> notified_by c0 s'.
Proof.
  intros Hn. destruct 1 as [s i' Hi H|s h' Hh H]; [|exact Hn].
  apply (notified_by_same c0 s); [exact Hn|done|]. by rewrite Hi.
Qed.

Lemma stale_step_accounted c0 calls s log s' : accounted c0 calls s log -> stale_step s s' -> accounted c0 calls s' log.
Proof. intros [] (Hc & Hcs & Hk & _)%stale_step_client. by split; rewrite ?Hc, ?Hcs, ?Hk. Qed.

Lemma relaxed_effects c0 calls s :
  Forall at_start calls -> rtc relaxed_step (started c0 calls) s ->
  notified_by c0 s /\ exists log, accounted c0 calls s log.
Proof.
  intros Hcalls Hrun.
  assert (H0 : notified_by c0 (started c0 calls) /\ exists log, accounted c0 calls (started c0 calls) log).
  { split; [split; [apply notified_refl|by left]|by exists []; apply started_accounted]. }
  revert H0. induction Hrun as [|s1 s2 s3 H _ IH]; [done|]. intros (Hn & log & Ha). apply IH. destruct H as [H|H].
  - split; [by eapply sys_step_notified|by eapply sys_step_accounted].
  - split; [by eapply stale_step_notified|exists log; by eapply stale_step_accounted].
Qed.

(** The flag is never cleared. *)
Lemma flag_stays run :
  infinite_run relaxed_step run -> stop_io_ (client (run 0%nat)) = true -> forall i, stop_io_ (client (run i)) = true.
Proof.
  intros Hrun H0 i. induction i as [|i IH]; [done|]. destruct (Hrun i) as [H|H].
  - by destruct (sys_step_work _ _ IH H).
  - apply stale_step_client in H as [-> _]. done.
Qed.
End relaxed.

(** ** Properties *)

(** C13.  Relaxed loads of the stop flag are safe.  Let the two background threads read
    the flag late, any number of times.  In every interleaving a caller is still
    only handed a frame that answers its own correlation id, the client is never
    closed while the I/O thread runs unless [close] is past its joins, when [close]
    has returned both threads have finished and exactly the connection's descriptor
    has been closed, the callback is started at most once, and the bytes sent are the
    frames of the threads one after the other.  And a shutdown completes: in every
    infinite run in which the flag has been set and from some point on the store is
    visible, under a fair scheduler, when time passes and with no system call that
    blocks for ever, everybody finishes. *)
Theorem relaxed_flag_safe {P : Platform} (c0 : Client) (calls : list Caller) (s : System)
  (Hopened : opened c0) (Hcalls : Forall at_start calls) (Hrun : rtc relaxed_step (started c0 calls) s) :
  (forall n o f, callers s !! n = Some (Answered o (ok f)) -> exists cid, o = Some cid /\ response_to f = Some cid) /\
  (state_ (client s) = ConnectionState.Closed -> io s = IoDone /\ (closer s = ClIdle \/ closer s = ClReturned)) /\
  (closer s = ClReturned ->
     state_ (client s) = ConnectionState.Closed /\ io s = IoDone /\ hb s = HbDone /\
     Sock.close (sock_ c0) (fds c0) = (sock_ (client s), fds (client s))) /\
  client_ok (client s) /\
  (exists evs, fired (client s) = fired c0 ++ evs /\ (length evs <= 1)%nat) /\
  (exists log, accounted c0 calls s log) /\
  (forall (run : nat -> System) (V M : nat),
     run 0%nat = s -> infinite_run relaxed_step run -> stop_io_ (client s) = true ->
     (forall i, (V <= i)%nat -> sys_step (run i) (run (S i))) -> fair sys_step work run -> time_passes run ->
     (forall i, (M <= i)%nat -> ~ blocked (run i)) -> (forall i, next_app_cid_ (client (run i)) + 1 < 2 ^ 32) ->
     exists N, forall i, (N <= i)%nat ->
       finished (run i) /\ state_ (client (run i)) = ConnectionState.Closed /\
       Sock.close (sock_ c0) (fds c0) = (sock_ (client (run i)), fds (client (run i)))).
Proof.
  destruct (relaxed_invariants c0 calls s Hopened Hcalls Hrun) as (Hl & l & Hinv).
  destruct (life_phases c0 s Hl) as (_ & _ & Hclosed & _ & Hreturned).
  pose proof (inv_callers _ _ Hinv) as Hcs. rewrite Forall_lookup in Hcs. split_and!.
  - intros n [cid|] f Hn; specialize (Hcs n _ Hn); [by exists cid|done].
  - exact Hclosed.
  - intros Hk. destruct (Hreturned Hk) as (H1 & H2 & H3 & _ & H4). done.
  - apply Hinv.
  - destruct (relaxed_effects c0 calls s Hcalls Hrun) as [[(evs & Hf & Hlen & _) _] _]. by exists evs.
  - by apply relaxed_effects.
  - intros run V M <- Hinf Hstop Hvis Hfair Htime Hfree Hcid.
    assert (HV : rtc relaxed_step (started c0 calls) (run V)).
    { etransitivity; [exact Hrun|]. apply run_reaches; [done|lia]. }
    destruct (stopping_finishes c0 (after V run) M) as [N HN]; [|by apply after_run|by apply after_fair|..].
    + unfold after. rewrite Nat.add_0_r. destruct (relaxed_invariants c0 calls _ Hopened Hcalls HV).
      split_and!; [done..|]. by apply (flag_stays run).
    + intros t i. destruct (Htime t (V + i)%nat) as (j & Hj & Ht). exists (j - V)%nat. split; [lia|].
      unfold after. by replace (V + (j - V))%nat with j by lia.
    + intros i Hi. apply Hfree. lia.
    + intros i. apply Hcid.
    + exists (V + N)%nat. intros i Hi. specialize (HN (i - V)%nat ltac:(lia)). unfold after in HN.
      by replace (V + (i - V))%nat with i in HN by lia.
Qed.

(** [close] has set the flag while the peer closes the connection, and the I/O thread
    does not see the flag: it enters [read_frame] once more before it ends. *)
Section stale.
Context (c c1 c2 c3 : Client) (e : StreamError) (so : Socket) (os : gmap Z Z).

Definition closed_socket : Client := (io_exit c2) <| sock_ := so |> <| fds := os |>.
Definition joined_both : Client := closed_socket <| io_thread_ := false |> <| heartbeat_thread_ := false |>.

Definition final_client : Client := log_info (lit "connection closed") (c3 <| state_ := ConnectionState.Closed |>).

Definition stale_run (i : nat) : System :=
  match i with
  | 0%nat => MkSystem c [] IoTop HbDone ClStopped
  | 1%nat => MkSystem c [] IoReading HbDone ClStopped
  | 2%nat => MkSystem c1 [] (IoRead (err e)) HbDone ClStopped
  | 3%nat => MkSystem c2 [] (IoFailed e) HbDone ClStopped
  | 4%nat => MkSystem c2 [] IoLeaving HbDone ClStopped
  | 5%nat => MkSystem (io_exit c2) [] IoDone HbDone ClStopped
  | 6%nat => MkSystem closed_socket [] IoDone HbDone ClSocketClosed
  | 7%nat => MkSystem (closed_socket <| io_thread_ := false |>) [] IoDone HbDone ClJoinedIo
  | 8%nat => MkSystem joined_both [] IoDone HbDone ClJoinedBoth
  | 9%nat => MkSystem c3 [] IoDone HbDone ClFailedAll
  | S (S (S (S (S (S (S (S (S (S i))))))))) => MkSystem (ticking final_client i) [] IoDone HbDone ClReturned
  end.

Context `{Hplat : Platform}.
Hypothesis Hread : on_net read_frame c = Some (err e, c1).
Hypothesis Hkind : kind e <> Kind.RequestTimeout.
Hypothesis Hfail : fail_pending e c1 = Some c2.
Hypothesis Hclosing : closing_ c2 = true.
Hypothesis Hsocket : Sock.close (sock_ (io_exit c2)) (fds (io_exit c2)) = (so, os).
Hypothesis Hrest : fail_pending connection_closed joined_both = Some c3.

Lemma stale_run_visible i : (1 <= i)%nat -> sys_step (stale_run i) (stale_run (S i)).
Proof.
  intros Hi. destruct i as [|[|[|[|[|[|[|[|[|[|i]]]]]]]]]]; [lia|..].
  - by apply (sys_io (stale_run 1)), i_read.
  - by apply (sys_io (stale_run 2)), i_failed.
  - by apply (sys_io (stale_run 3)), i_closing.
  - apply (sys_io (stale_run 4)), i_exit.
  - by apply (sys_close (stale_run 5)), k_socket.
  - by apply (sys_close (stale_run 6)), k_join_io.
  - by apply (sys_close (stale_run 7)), k_join_hb.
  - by apply (sys_close (stale_run 8)), k_fail.
  - apply (sys_close (stale_run 9)), k_closed.
  - apply (sys_net (stale_run (10 + i))), (ticking_step final_client i).
Qed.

Lemma stale_run_steps : infinite_run relaxed_step stale_run.
Proof.
  intros [|i]; [|left; apply stale_run_visible; lia].
  right. apply (stale_io (stale_run 0)); [reflexivity|]. by apply i_check.
Qed.

Lemma stale_run_fair : fair sys_step work stale_run.
Proof.
  intros i. exists (10 + i)%nat. split; [lia|]. right. intros (s' & _ & Hw).
  change (work s' < 0)%nat in Hw. lia.
Qed.

Lemma stale_run_free i : (10 <= i)%nat -> ~ blocked (stale_run i).
Proof.
  intros Hi. replace i with (10 + (i - 10))%nat by lia. generalize (i - 10)%nat. clear. intros i.
  intros [[H _]|[[[? H] _]|[(call & cid & fut & H & _)|(frame & H & _)]]]; [discriminate H..| |];
    by apply not_elem_of_nil in H.
Qed.

Lemma stale_run_cids : next_app_cid_ c3 + 1 < 2 ^ 32 -> forall i, next_app_cid_ (client (stale_run i)) + 1 < 2 ^ 32.
Proof.
  assert (Hf : forall e c c', fail_pending e c = Some c' -> next_app_cid_ c' = next_app_cid_ c).
  { intros e' d d'. unfold fail_pending. destruct (fail_all_pending _ _); [|done]. by intros [= <-]. }
  assert (Hc : next_app_cid_ c1 = next_app_cid_ c).
  { revert Hread. rewrite on_net_eq. destruct (read_frame (net c)) as [[r w]|]; [|done]. by intros [= _ <-]. }
  assert (Hx : next_app_cid_ (io_exit c2) = next_app_cid_ c2) by (unfold io_exit; by destruct (_ && _)).
  pose proof (Hf _ _ _ Hrest) as H3. change (next_app_cid_ joined_both) with (next_app_cid_ (io_exit c2)) in H3.
  pose proof (Hf _ _ _ Hfail) as H2. intros H.
  assert (Hb : next_app_cid_ c + 1 < 2 ^ 32) by congruence. assert (Hb1 : next_app_cid_ c1 + 1 < 2 ^ 32) by congruence.
  assert (Hb2 : next_app_cid_ c2 + 1 < 2 ^ 32) by congruence.
  assert (Hb3 : next_app_cid_ (io_exit c2) + 1 < 2 ^ 32) by congruence.
  intros [|[|[|[|[|[|[|[|[|[|i]]]]]]]]]]; try first [exact H|exact Hb|exact Hb1|exact Hb2|exact Hb3].
  change (next_app_cid_ (ticking final_client i) + 1 < 2 ^ 32). rewrite ticking_cid. exact H.
Qed.

Lemma stale_run_time : time_passes stale_run.
Proof.
  apply (ticking_passes final_client 10). intros i Hi.
  replace i with (10 + (i - 10))%nat by lia. generalize (i - 10)%nat. intros j.
  change (ticking final_client j = ticking final_client (10 + j - 10)). f_equal. lia.
Qed.
End stale.

Lemma stale_run_exists :
  exists c c1 c2 c3 e so os,
    rtc (relaxed_step (Hplat := sample_platform)) (started (open_client [Eof]) []) (stale_run c c1 c2 c3 e so os 0) /\
    on_net (read_frame (Hplat := sample_platform)) c = Some (err e, c1) /\ kind e <> Kind.RequestTimeout /\
    fail_pending e c1 = Some c2 /\ closing_ c2 = true /\
    Sock.close (sock_ (io_exit c2)) (fds (io_exit c2)) = (so, os) /\
    fail_pending connection_closed (joined_both c2 so os) = Some c3 /\
    stop_io_ c = true /\ next_app_cid_ c3 + 1 < 2 ^ 32.
Proof.
  assert (Hk : forall c k c' k', close_step (Hplat := sample_platform) IoTop HbDone c k c' k' ->
    rtc (relaxed_step (Hplat := sample_platform)) (MkSystem c [] IoTop HbDone k) (MkSystem c' [] IoTop HbDone k')).
  { intros. apply rtc_once. left. by apply (sys_close (MkSystem _ _ _ _ _)). }
  do 7 eexists. split.
  - unfold started. change (heartbeat_thread_ _) with false.
    etransitivity; [apply Hk, k_begin; reflexivity|].
    etransitivity; [eapply Hk, k_cid; [vm_compute; reflexivity|reflexivity]|].
    etransitivity; [eapply Hk, k_register; reflexivity|].
    etransitivity; [eapply Hk, k_write; vm_compute; reflexivity|].
    etransitivity; [apply rtc_once; left; apply (sys_net (MkSystem _ _ _ _ _)), (n_tick _ one_end); vm_compute; discriminate|].
    apply Hk, (k_stop (Hplat := sample_platform)). intros _. vm_compute. discriminate.
  - split; [vm_compute; reflexivity|]. split; [discriminate|].
    split; [vm_compute; reflexivity|]. split; [reflexivity|]. split; [vm_compute; reflexivity|].
    split; [vm_compute; reflexivity|]. split; reflexivity.
Qed.

Lemma relaxed_flag_safe_witness :
  exists run, infinite_run (relaxed_step (Hplat := sample_platform)) run /\
    rtc (relaxed_step (Hplat := sample_platform)) (started (open_client [Eof]) []) (run 0%nat) /\
    stop_io_ (client (run 0%nat)) = true /\ io (run 0%nat) = IoTop /\ io (run 1%nat) = IoReading /\
    exists N, forall i, (N <= i)%nat -> finished (run i).
Proof.
  assert (Ho : opened (open_client [Eof])) by (apply open_client_opened; unfold queue_ok; decided).
  destruct stale_run_exists as (c & c1 & c2 & c3 & e & so & os & Hstart & Hr & Hk & Hf & Hc & Hs & Hr' & Hstop & Hcid).
  set (run := stale_run c c1 c2 c3 e so os) in *. exists run.
  assert (Hsteps : infinite_run (relaxed_step (Hplat := sample_platform)) run) by (by apply stale_run_steps).
  split; [exact Hsteps|]. split; [exact Hstart|]. split; [exact Hstop|]. split; [reflexivity|]. split; [reflexivity|].
  destruct (relaxed_flag_safe (P := sample_platform) _ _ _ Ho (Forall_nil_2 _) Hstart) as (_ & _ & _ & _ & _ & _ & H).
  destruct (H run 1%nat 10%nat eq_refl Hsteps Hstop) as (N & HN).
  - by apply stale_run_visible.
  - by apply stale_run_fair.
  - by apply stale_run_time.
  - intros i. by apply stale_run_free.
  - by apply (stale_run_cids c c1 c2 c3 e so os (Hplat := sample_platform)).
  - exists N. intros i Hi. exact (proj1 (HN i Hi)).
Defined.
