(* ===== verification/Peer.v ===== *)
(** * What the server reads

    The other end of the wire.  The server takes the client's bytes apart with the
    framing the client itself uses to read: as long as no write has failed it finds
    the frames of the client's threads, one by one and in the order in which they
    were written, however the network has cut the bytes. *)

From coqutil Require Import Datatypes.RecordSetters.
From S2P Require Import Prelude Errors Buffer Codec Frame Command HandshakeCommands.
From S2P Require Import LifecycleCommands Config Dispatcher Socket Concurrency Dialogue Handshake.
From S2P Require Import Client ClientInvariant ClientThreads ClientProperties ThreadProperties Wire.
Import TriangleBracketNotations.

Local Open Scope Z_scope.

(** ** A frame as the server sees it *)

(** The key of a request has no response bit: its correlation id is the head of what
    follows the version. *)
Definition peer_frame (i : Item) : IncomingFrame :=
  match i with
  | Requested call cid => MkFrame (c_key call) (c_version call) (be_encode 4 cid ++ c_body call) None
  | Offset ref str off => MkFrame StoreOffset.kKey StoreOffset.kVersion (body_of (StoreOffset.Mk ref str off)) None
  | Beat => MkFrame Heartbeat.kKey Heartbeat.kVersion [] None
  | Goodbye cid => MkFrame CloseRequest.kKey CloseRequest.kVersion (be_encode 4 cid ++ body_of close_request) None
  end.

(** A call whose frame can be described by its 32-bit size. *)
Definition call_fits (t : Caller) : Prop :=
  match t with
  | Calling call =>
      in_u 16 (c_key call) /\ key.is_response (c_key call) = false /\ in_u 16 (c_version call) /\
      is_bytes (c_body call) /\ zlen (c_body call) < 2 ^ 32 - 8
  | Storing ref str off => valid (StoreOffset.Mk ref str off)
  | _ => True
  end.

Definition item_fits (i : Item) : Prop :=
  match i with
  | Requested call _ => call_fits (Calling call)
  | Offset ref str off => call_fits (Storing ref str off)
  | _ => True
  end.

(** The calls that the lifecycle commands make. *)
Lemma command_fits {C} `{CommandLaws C} (c : C) :
  valid c -> key.is_response (kKey C) = false -> zlen (body_of c) < 2 ^ 32 - 8 ->
  call_fits (Calling (MkCall (kKey C) (kVersion C) (body_of c))).
Proof.
  intros Hv Hk Hl. split_and!; cbn; [apply kKey_range|done|apply kVersion_range| |done].
  rewrite body_of_enc by done. by apply enc_body_bytes.
Qed.

Lemma item_frame_read i : item_fits i -> item_frame i = enc_frame (peer_frame i) /\ frame_ok (peer_frame i).
Proof.
  destruct i as [call cid|ref str off| |cid]; cbn [item_fits call_fits item_frame peer_frame].
  - intros (Hk & Hr & Hv & Hb & Hl). unfold frame_of. rewrite encode_request_frame_enc, request_frame_read by done.
    split; [done|by apply request_frame_ok].
  - intros Hv. pose proof Hv as ((_ & Hl1 & _) & (_ & Hl2 & _) & _). cbn in Hl1, Hl2.
    assert (Hl : zlen (body_of (StoreOffset.Mk ref str off)) < 2 ^ 32 - 8).
    { rewrite body_of_enc by done. cbn [enc_body StoreOffset.wire StoreOffset.reference StoreOffset.stream StoreOffset.offset]. unfold enc_string, INT16_MAX in *. zlen. }
    unfold oneway_frame. rewrite encode_oneway_frame_enc by (change (zlen (body_of (StoreOffset.Mk ref str off)) < 2 ^ 32 - 4); lia).
    split; [done|]. split; [by split_and!|].
    split; cbn [f_key f_version f_body f_correlation_id]; [rewrite body_of_enc by done; by apply enc_body_bytes|zlen].
  - intros _. split; [vm_compute; reflexivity|decided].
  - intros _. unfold request. rewrite encode_request_frame_enc, request_frame_read by (vm_compute; reflexivity).
    split; [done|]. apply request_frame_ok; decided.
Qed.

(** ** The frames of a log *)

Lemma caller_wrote_item start t mine p :
  caller_wrote start t mine -> call_fits start -> p ∈ mine -> item_fits (p_item p).
Proof.
  assert (Hnil : forall Q : Prop, mine = [] -> p ∈ mine -> Q) by (intros Q -> H; by apply not_elem_of_nil in H).
  assert (Hone : forall q, mine = [q] -> p ∈ mine -> p = q) by (intros q -> H; by apply list_elem_of_singleton in H).
  destruct t; cbn [caller_wrote]; intros Hw Hf Hp; try (destruct Hw as [_ Hw]; by apply Hnil).
  - destruct Hw as (call' & q & -> & Hm & Hq & _). rewrite (Hone q Hm Hp), Hq. exact Hf.
  - destruct Hw as (call' & -> & [[Hm _]|(cid' & q & _ & Hm & Hq & _)]); [by apply Hnil|].
    rewrite (Hone q Hm Hp), Hq. exact Hf.
  - destruct Hw as (ref & str & off & _ & _ & Hm). by apply Hnil.
  - destruct Hw as (ref & str & off & -> & [[Hm _]|(q & Hm & Hq & _)]); [by apply Hnil|].
    rewrite (Hone q Hm Hp), Hq. exact Hf.
Qed.

Lemma log_fits c0 calls s log :
  accounted c0 calls s log -> Forall call_fits calls -> Forall (fun p => item_fits (p_item p)) log.
Proof.
  intros Ha Hf. apply Forall_forall. intros p Hp.
  assert (Hin : p ∈ from (p_from p) log) by (by apply list_elem_of_filter).
  destruct (p_from p) as [n| |] eqn:Hfrom.
  - destruct (lookup_lt_is_Some_2 calls n) as [start Hs]; [by eapply acc_strangers|].
    destruct (lookup_lt_is_Some_2 (callers s) n) as [t Ht].
    { rewrite (acc_length _ _ _ _ Ha). by eapply lookup_lt_Some. }
    eapply caller_wrote_item; [by eapply acc_callers| |exact Hin]. exact (Forall_lookup_1 _ _ _ _ Hf Hs).
  - pose proof (proj1 (Forall_forall _ _) (acc_heartbeat _ _ _ _ Ha) p Hin) as H. cbn in H. by rewrite H.
  - pose proof (acc_closer _ _ _ _ Ha) as H.
    assert (Hc : from FromClose log = [] \/ exists cid q, from FromClose log = [q] /\ p_item q = Goodbye cid)
      by (destruct (closer s); cbn in H; auto).
    destruct Hc as [Hc|(cid' & q & Hc & Hq)]; rewrite Hc in Hin; [by apply not_elem_of_nil in Hin|].
    apply list_elem_of_singleton in Hin as ->. by rewrite Hq.
Qed.

(** Whole pieces are frames; any piece is bytes. *)
Lemma whole_frames log :
  Forall piece_ok log -> Forall (fun p => p_result p = ok tt) log -> Forall (fun p => item_fits (p_item p)) log ->
  concat (p_bytes <$> log) = concat (map enc_frame (peer_frame ∘ p_item <$> log)) /\
  Forall frame_ok (peer_frame ∘ p_item <$> log).
Proof.
  intros Hp Hr Hf. rewrite (whole_pieces _ Hp Hr). clear Hp Hr.
  induction Hf as [|p log Hp _ [IH1 IH2]]; [by split|]. destruct (item_frame_read _ Hp) as [Hi Hok].
  split; [cbn; rewrite Hi; by f_equal|by constructor].
Qed.

Lemma pieces_bytes log :
  Forall piece_ok log -> Forall (fun p => item_fits (p_item p)) log -> is_bytes (concat (p_bytes <$> log)).
Proof.
  intros Hp Hf. induction Hp as [|p log (rest & Hi & _) _ IH]; [constructor|].
  apply Forall_cons in Hf as [Hf Hfs]. destruct (item_frame_read _ Hf) as [Hr Hok].
  cbn. apply is_bytes_app. split; [|by apply IH].
  apply enc_frame_bytes in Hok. rewrite <- Hr, Hi in Hok. by apply is_bytes_app in Hok as [Hok _].
Qed.

(** ** Properties *)

(** C14.  What the server reads.  Let every call about to be made have a key without
    the response bit and a frame that a 32-bit size can describe ([call_fits], true of
    the lifecycle commands).  In every interleaving of the threads, let [sent] be the
    bytes the client has sent since it was opened, and let the server read them
    with [read_frame], cut into any segments.  It finds the frames the threads have
    written, in the order in which they wrote them, up to the first write that
    failed; a caller that waits for its response has its request among them, under
    its correlation id, and so has an offset that was stored without an error. *)
Theorem server_reads_frames {P : Platform} (c0 : Client) (calls : list Caller) (s : System)
  (Hcalls : Forall at_start calls) (Hfits : Forall call_fits calls) (Hrun : rtc sys_step (started c0 calls) s) :
  exists log, accounted c0 calls s log /\
    (forall sent peer more t whole cut,
       outbox (net (client s)) = outbox (net c0) ++ sent ->
       stream (inbox peer) = (sent ++ more, t) -> is_bytes more ->
       log = whole ++ cut -> Forall (fun p => p_result p = ok tt) whole ->
       exists peer', read_frames (length whole) peer = Some (ok (peer_frame ∘ p_item <$> whole), peer') /\
         stream (inbox peer') = (concat (p_bytes <$> cut) ++ more, t)) /\
    (forall n cid fut until, callers s !! n = Some (Waits cid fut until) ->
       exists call p, calls !! n = Some (Calling call) /\ p ∈ log /\ p_result p = ok tt /\
         peer_frame (p_item p) = MkFrame (c_key call) (c_version call) (be_encode 4 cid ++ c_body call) None) /\
    (forall n, callers s !! n = Some (Stored (ok tt)) ->
       exists ref str off p, calls !! n = Some (Storing ref str off) /\ p ∈ log /\ p_result p = ok tt /\
         fst (StoreOffset.decode_body (reader_of (f_body (peer_frame (p_item p))))) = ok (StoreOffset.Mk ref str off)).
Proof.
  destruct (run_accounted c0 calls s Hcalls Hrun) as (log & Ha). exists log. split; [done|].
  pose proof (log_fits _ _ _ _ Ha Hfits) as Hf. pose proof (acc_pieces _ _ _ _ Ha) as Hp. split_and!.
  - intros sent peer more t whole cut Hsent Hs Hmore -> Hok.
    rewrite (acc_wire _ _ _ _ Ha) in Hsent. apply app_inv_head in Hsent as <-.
    apply Forall_app in Hf as [Hf Hf']. apply Forall_app in Hp as [Hp Hp'].
    destruct (whole_frames whole Hp Hok Hf) as [Hw Hframes].
    rewrite fmap_app, concat_app, Hw, <- app_assoc in Hs.
    apply frames_delivered in Hs; [by rewrite length_fmap in Hs|done|].
    apply is_bytes_app. split; [by apply pieces_bytes|done].
  - intros n cid fut until Hn. destruct (callers_update _ _ _ _ _ _ Ha Hn) as (start & Hs & Hw).
    destruct Hw as (call & p & -> & Hm & Hi & Hr). exists call, p. split_and!; [done| |done|by rewrite Hi].
    assert (Hin : p ∈ from (FromCaller n) log) by (rewrite Hm; by left). by apply list_elem_of_filter in Hin as [_ Hin].
  - intros n Hn. destruct (callers_update _ _ _ _ _ _ Ha Hn) as (start & Hs & Hw).
    destruct Hw as (ref & str & off & -> & [[_ [e He]]|(p & Hm & Hi & Hr)]); [done|].
    exists ref, str, off, p. split_and!; [done| |by rewrite Hr|].
    + assert (Hin : p ∈ from (FromCaller n) log) by (rewrite Hm; by left).
      by apply list_elem_of_filter in Hin as [_ Hin].
    + rewrite Hi. pose proof (Forall_lookup_1 _ _ _ _ Hfits Hs) as Hv.
      pose proof Hv as ((_ & Hl1 & _) & (_ & Hl2 & _) & _). cbn in Hl1, Hl2.
      change (fst (decode_body (reader_of (body_of (StoreOffset.Mk ref str off)))) = ok (StoreOffset.Mk ref str off)).
      apply decode_body_reader; [done|].
      cbn [enc_body StoreOffset.wire StoreOffset.reference StoreOffset.stream StoreOffset.offset].
      unfold enc_string, INT16_MAX in *. zlen.
Qed.

(** A request and an offset, written by two callers. *)
Definition two_writers : list Caller := [Calling (MkCall 13 1 []); Storing (lit "r") (lit "s") 258].

Lemma two_writers_run :
  exists c, rtc (sys_step (Hplat := sample_platform)) (started (open_client []) two_writers)
    (MkSystem c [Waits 100 0 one_end; Stored (ok tt)] IoTop HbDone ClIdle) /\
  outbox (net c) = frame_of (MkCall 13 1 []) 100 ++ oneway_frame (StoreOffset.Mk (lit "r") (lit "s") 258).
Proof.
  eexists. split.
  - unfold started, two_writers. change (heartbeat_thread_ _) with false. cbn match.
    run_next (call_run (Hplat := sample_platform) (MkCall 13 1 []) _ _ _ 0).
    etransitivity.
    { apply (caller_run_sys (Hplat := sample_platform) 1 _ (Storing (lit "r") (lit "s") 258)); [|reflexivity].
      eapply (store_offset_run (Hplat := sample_platform) (lit "r") (lit "s") 258). vm_compute. reflexivity. }
    reflexivity.
  - vm_compute. reflexivity.
Qed.

(** The server receives their frames in segments of nine bytes and the rest. *)
Lemma server_reads_frames_witness :
  exists s log, rtc (sys_step (Hplat := sample_platform)) (started (open_client []) two_writers) s /\
    accounted (open_client []) two_writers s log /\
    (exists p, p ∈ log /\ peer_frame (p_item p) = MkFrame 13 1 [0; 0; 0; 100] None) /\
    (exists p, p ∈ log /\ fst (StoreOffset.decode_body (reader_of (f_body (peer_frame (p_item p)))))
       = ok (StoreOffset.Mk (lit "r") (lit "s") 258)) /\
    (Forall (fun p => p_result p = ok tt) log ->
       let sent := outbox (net (client s)) in
       exists peer', read_frames (Hplat := sample_platform) (length log)
           (MkWorld [Data (take 9 sent); Data (drop 9 sent); Eof] [] [] []) = Some (ok (peer_frame ∘ p_item <$> log), peer') /\
         stream (inbox peer') = ([], Some (Closed []))).
Proof.
  destruct two_writers_run as (c & Hrun & Hout).
  assert (Hcalls : Forall at_start two_writers) by (repeat constructor).
  assert (Hfits : Forall call_fits two_writers) by (repeat constructor; decided).
  destruct (server_reads_frames (P := sample_platform) _ _ _ Hcalls Hfits Hrun) as (log & Ha & Hread & Hwait & Hstored).
  eexists _, log. split; [exact Hrun|]. split; [exact Ha|]. split; [|split].
  - destruct (Hwait 0%nat 100 0%nat one_end eq_refl) as (call & p & Hs & Hp & _ & Hf). exists p. split; [exact Hp|].
    injection Hs as <-. exact Hf.
  - destruct (Hstored 1%nat eq_refl) as (ref & str & off & p & Hs & Hp & _ & Hd). exists p. split; [exact Hp|].
    injection Hs as <- <- <-. exact Hd.
  - intros Hok. cbn zeta. cbn [client].
    apply (Hread (outbox (net c)) _ [] (Some (Closed [])) log []); [reflexivity| |constructor|by rewrite app_nil_r|exact Hok].
    rewrite Hout. vm_compute. reflexivity.
Defined.
