(* ===== verification/Destructor.v ===== *)
(** * The destructor and the threads

    [~StreamClient] runs next to the I/O thread and the heartbeat thread until it
    has joined them.  Its steps interleave with theirs: the descriptor stays open
    until both have ended, and the destructor returns unless one of them is held up
    in a system call. *)

From coqutil Require Import Datatypes.RecordSetters.
From S2P Require Import Prelude Fairness Errors Buffer Codec Frame Command HandshakeCommands.
From S2P Require Import LifecycleCommands Config Dispatcher Socket Concurrency Dialogue Handshake.
From S2P Require Import Client ClientInvariant ClientThreads ClientProperties ThreadProperties Liveness.
Import TriangleBracketNotations.

Local Open Scope Z_scope.

(** ** The steps *)

(** Entered; an open client marked as closing; the stop flag set; the I/O thread
    joined; the heartbeat thread joined; the socket closed. *)
Inductive Destructor := DtEntered | DtMarked | DtStopped | DtJoinedIo | DtJoinedBoth | DtDone.

Record Ending := MkEnding {
  e_client : Client;
  e_io : IoThread;
  e_hb : HbThread;
  e_dtor : Destructor
}.

Inductive destructor_step (i : IoThread) (h : HbThread) : Client -> Destructor -> Client -> Destructor -> Prop :=
  | d_mark c :
      destructor_step i h c DtEntered
        (if bool_decide (state_ c = ConnectionState.Open) then c <| closing_ := true |> else c) DtMarked
  | d_stop c : destructor_step i h c DtMarked (c <| stop_io_ := true |>) DtStopped
  | d_join_io c :
      i = IoDone -> destructor_step i h c DtStopped (c <| io_thread_ := false |>) DtJoinedIo
  | d_join_hb c :
      h = HbDone -> destructor_step i h c DtJoinedIo (c <| heartbeat_thread_ := false |>) DtJoinedBoth
  | d_socket c s os :
      Sock.close (sock_ c) (fds c) = (s, os) ->
      destructor_step i h c DtJoinedBoth (c <| sock_ := s |> <| fds := os |>) DtDone.

Section steps.
Context `{Hplat : Platform}.

Inductive ending_step : Ending -> Ending -> Prop :=
  | e_io_step e c' i' :
      io_step (e_client e) (e_io e) c' i' -> ending_step e (MkEnding c' i' (e_hb e) (e_dtor e))
  | e_hb_step e c' h' :
      hb_step (e_client e) (e_hb e) c' h' -> ending_step e (MkEnding c' (e_io e) h' (e_dtor e))
  | e_destructor e c' d' :
      destructor_step (e_io e) (e_hb e) (e_client e) (e_dtor e) c' d' ->
      ending_step e (MkEnding c' (e_io e) (e_hb e) d')
  | e_net e c' :
      net_step (e_client e) c' -> ending_step e (MkEnding c' (e_io e) (e_hb e) (e_dtor e)).

(** The destructor may run once every call has returned. *)
Definition destructible (s : System) : Prop :=
  Forall returned (callers s) /\ (closer s = ClIdle \/ closer s = ClReturned).
Definition entered (s : System) : Ending := MkEnding (client s) (io s) (hb s) DtEntered.

(** ** Invariant *)

(** How far the destruction of [c0] has come. *)
Definition ending_life (c0 : Client) (e : Ending) : Prop :=
  let c := e_client e in
  let kept := sock_ c = sock_ c0 /\ fds c = fds c0 in
  (e_io e = IoDone ->
     state_ c = if decide (state_ c0 = ConnectionState.Open) then ConnectionState.Closed else state_ c0) /\
  (e_io e <> IoDone -> state_ c = ConnectionState.Open /\ state_ c0 = ConnectionState.Open) /\
  match e_dtor e with
  | DtEntered => kept
  | DtMarked => kept /\ (e_io e <> IoDone -> closing_ c = true)
  | DtStopped => kept /\ stop_io_ c = true /\ (e_io e <> IoDone -> closing_ c = true)
  | DtJoinedIo => kept /\ stop_io_ c = true /\ e_io e = IoDone /\ io_thread_ c = false
  | DtJoinedBoth =>
      kept /\ stop_io_ c = true /\ e_io e = IoDone /\ e_hb e = HbDone /\ io_thread_ c = false /\ heartbeat_thread_ c = false
  | DtDone =>
      Sock.close (sock_ c0) (fds c0) = (sock_ c, fds c) /\ stop_io_ c = true /\
      e_io e = IoDone /\ e_hb e = HbDone /\ io_thread_ c = false /\ heartbeat_thread_ c = false
  end.

(** The members that say which threads can be joined. *)
Definition same_joinable (c c' : Client) : Prop :=
  io_thread_ c' = io_thread_ c /\ heartbeat_thread_ c' = heartbeat_thread_ c.

Lemma same_joinable_net {A} (m : IO A) c r c' : on_net m c = Some (r, c') -> same_joinable c c'.
Proof. rewrite on_net_eq. destruct (m (net c)) as [[r' w]|]; [|done]. by intros [= _ <-]. Qed.

Lemma same_joinable_fail e c c' : fail_pending e c = Some c' -> same_joinable c c'.
Proof. unfold fail_pending. destruct (fail_all_pending _ _); [|done]. by intros [= <-]. Qed.

Lemma same_joinable_reap now c c' : reap now c = Some c' -> same_joinable c c'.
Proof. unfold reap. destruct (reap_expired _ _) as [[? ?]|]; [|done]. by intros [= <-]. Qed.

Hint Resolve same_joinable_net same_joinable_fail same_joinable_reap : core.

Lemma io_step_joinable c i c' i' : io_step c i c' i' -> same_joinable c c'.
Proof.
  destruct 1; eauto; try done.
  - unfold notify_unexpected_close. destruct (unexpected_fired_ c); [done|]. by destruct (on_unexpected_close_ _).
  - unfold io_exit. by destruct (_ && _).
Qed.

Lemma hb_step_joinable c h c' h' : hb_step c h c' h' -> same_joinable c c'.
Proof. destruct 1; eauto; done. Qed.

Lemma net_step_joinable c c' : net_step c c' -> same_joinable c c'.
Proof. by destruct 1. Qed.

(** A step of another thread that does not end. *)
Lemma ending_life_same c0 e c' i' h' :
  ending_life c0 e -> same_life (e_client e) c' -> same_joinable (e_client e) c' -> state_ c' = state_ (e_client e) ->
  (i' = IoDone <-> e_io e = IoDone) -> (e_hb e = HbDone -> h' = HbDone) ->
  ending_life c0 (MkEnding c' i' h' (e_dtor e)).
Proof.
  intros Hl (Hc & Hst & Hso & Hf & _) [Hi Hh] Hs Hio Hhb. unfold ending_life in *. cbn [e_client e_io e_hb e_dtor].
  rewrite Hc, Hst, Hso, Hf, Hi, Hh, Hs. destruct (e_dtor e); naive_solver.
Qed.

Lemma io_exit_state c : state_ c = ConnectionState.Open -> state_ (io_exit c) = ConnectionState.Closed.
Proof. intros H. unfold io_exit. by rewrite !bool_decide_eq_false_2 by (by rewrite H). Qed.

Lemma destructor_step_life c0 e c' d' :
  ending_life c0 e -> destructor_step (e_io e) (e_hb e) (e_client e) (e_dtor e) c' d' ->
  ending_life c0 (MkEnding c' (e_io e) (e_hb e) d').
Proof.
  intros Hl H. unfold ending_life in *. cbn [e_client e_io e_hb e_dtor].
  destruct H as [c|c|c Hi|c Hh|c so os Hs]; destruct Hl as (H1 & H2 & Hl).
  - case_bool_decide as Ho; naive_solver.
  - naive_solver.
  - naive_solver.
  - naive_solver.
  - destruct Hl as ((Hso & Hf) & Hl). rewrite Hso, Hf in Hs. naive_solver.
Qed.

Lemma ending_step_life c0 e e' : ending_life c0 e -> ending_step e e' -> ending_life c0 e'.
Proof.
  intros Hl. destruct 1 as [e c' i' H|e c' h' H|e c' d' H|e c' H].
  - pose proof (io_step_from _ _ _ _ H) as [Hnd Hfrom]. pose proof (io_step_joinable _ _ _ _ H) as Hj.
    apply io_step_life in H as [H1 [[H2 Hi]|[H2 ->]]]; [by eapply ending_life_same|].
    unfold ending_life in *. cbn [e_client e_io e_hb e_dtor]. destruct H1 as (Hc & Hst & Hso & Hf & _), Hj as [Hj1 Hj2].
    rewrite Hc, Hst, Hso, Hf, Hj1, Hj2. destruct Hl as (_ & Hopen & Hl).
    destruct (Hopen Hnd) as [Ho Ho0]. subst c'. rewrite io_exit_state by done. rewrite decide_True by done.
    destruct (e_dtor e); naive_solver.
  - pose proof (hb_step_from _ _ _ _ H) as Hnd. pose proof (hb_step_joinable _ _ _ _ H) as Hj.
    apply hb_step_life in H as [H1 H2]. by eapply ending_life_same.
  - by eapply destructor_step_life.
  - pose proof (net_step_joinable _ _ H) as Hj. apply net_step_life in H as [H1 H2]. by eapply ending_life_same.
Qed.
End steps.

(** ** The start *)

Section ending.
Context `{Hplat : Platform}.

Lemma life_entered c0 s : life c0 s -> destructible s -> ending_life (client s) (entered s).
Proof.
  intros Hl [_ Hk]. unfold life, ending_life, entered in *.
  cbn [e_client e_io e_hb e_dtor]. destruct Hk as [Hk|Hk]; rewrite Hk in Hl.
  - destruct Hl as (_ & _ & _ & Hs). rewrite Hs. by destruct (io s).
  - destruct Hl as (Hs & _ & _ & Hi & _). rewrite Hs, Hi. split_and!; done.
Qed.

Lemma ending_steps_life c e e' : ending_life c e -> rtc ending_step e e' -> ending_life c e'.
Proof. intros Hl He. revert Hl. induction He as [|e1 e2 e3 H _ IH]; [done|]. intros Hl. by eapply IH, ending_step_life. Qed.

(** Whoever enters the destructor is open or closed. *)
Lemma life_state c0 s :
  life c0 s -> destructible s ->
  state_ (client s) = if io_ended (io s) then ConnectionState.Closed else ConnectionState.Open.
Proof.
  intros Hl [_ Hk]. unfold life in Hl. destruct Hk as [Hk|Hk]; rewrite Hk in Hl; [tauto|].
  destruct Hl as (Hs & _ & _ & Hi & _). by rewrite Hs, Hi.
Qed.

Lemma run_ending_life c0 calls s e :
  opened c0 -> rtc sys_step (started c0 calls) s -> destructible s -> rtc ending_step (entered s) e ->
  ending_life (client s) e /\ (e_io e = IoDone -> state_ (e_client e) = ConnectionState.Closed).
Proof.
  intros Ho Hrun Hd He. pose proof (run_life c0 calls s Ho Hrun) as Hl. pose proof (life_state c0 s Hl Hd) as Hs.
  assert (He' : ending_life (client s) e) by (eapply ending_steps_life; [by eapply life_entered|done]).
  split; [done|]. intros Hi. destruct He' as (H1 & _). rewrite (H1 Hi), Hs. by destruct (io_ended (io s)).
Qed.

Lemma quiet_ok c c' : client_ok c -> quiet_step c c' -> client_ok c'.
Proof. intros Hok. pose proof Hok as ((l & Hl) & _). intros (l' & H & _)%(quiet_step_spec _ _ l Hok Hl). exact H. Qed.

Lemma destructor_step_quiet i h c d c' d' :
  queue_ok (inbox (net c)) -> destructor_step i h c d c' d' -> quiet_step c c'.
Proof. intros Hq. destruct 1; try (by apply quiet_same). case_bool_decide; by apply quiet_same. Qed.

Lemma ending_step_ok e e' : client_ok (e_client e) -> ending_step e e' -> client_ok (e_client e').
Proof.
  intros Hok Hstep. assert (Hq : queue_ok (inbox (net (e_client e)))) by apply Hok.
  apply (quiet_ok _ _ Hok). destruct Hstep as [e c' i' H|e c' h' H|e c' d' H|e c' H]; cbn [e_client].
  - by eapply io_step_quiet.
  - by eapply hb_step_quiet.
  - by eapply destructor_step_quiet.
  - by eapply net_step_quiet.
Qed.

Lemma run_ending_ok c0 calls s e :
  opened c0 -> Forall at_start calls -> rtc sys_step (started c0 calls) s -> rtc ending_step (entered s) e ->
  client_ok (e_client e).
Proof.
  intros Ho Hc Hrun He. destruct (run_inv c0 calls s Ho Hc Hrun) as (l & Hinv).
  assert (Hok : client_ok (e_client (entered s))) by apply Hinv. revert Hok.
  induction He as [|e1 e2 e3 H _ IH]; [done|]. intros Hok. by eapply IH, ending_step_ok.
Qed.

(** ** Progress *)

Definition destructor_work (d : Destructor) : nat :=
  match d with DtEntered => 5 | DtMarked => 4 | DtStopped => 3 | DtJoinedIo => 2 | DtJoinedBoth => 1 | DtDone => 0 end.
Definition ending_work (e : Ending) : nat := io_work (e_io e) + hb_work (e_hb e) + destructor_work (e_dtor e).

Lemma destructor_step_work i h c d c' d' :
  destructor_step i h c d c' d' -> (destructor_work d' < destructor_work d)%nat.
Proof. destruct 1; cbn; lia. Qed.

Lemma destructor_step_stop i h c d c' d' :
  destructor_step i h c d c' d' -> stop_io_ c = true -> stop_io_ c' = true.
Proof. destruct 1; try done. by case_bool_decide. Qed.

Lemma ending_step_work e e' :
  stop_io_ (e_client e) = true -> ending_step e e' ->
  stop_io_ (e_client e') = true /\ (ending_work e' <= ending_work e)%nat.
Proof.
  intros Hs. unfold ending_work. destruct 1 as [e c' i' H|e c' h' H|e c' d' H|e c' H]; cbn [e_client e_io e_hb e_dtor].
  - pose proof (io_step_life _ _ _ _ H) as [(_ & -> & _) _]. apply io_step_work in H; [|done]. split; [done|lia].
  - pose proof (hb_step_life _ _ _ _ H) as [(_ & -> & _) _]. apply hb_step_work in H; [|done]. split; [done|lia].
  - split; [by eapply destructor_step_stop|]. apply destructor_step_work in H. lia.
  - pose proof (net_step_life _ _ H) as [(_ & -> & _) _]. split; [done|lia].
Qed.

(** A thread is in a system call that does not return. *)
Definition ending_blocked (e : Ending) : Prop :=
  e_io e = IoReading /\ read_frame (net (e_client e)) = None \/
  (exists now, e_hb e = HbDue now) /\ send_blocks (oneway_frame Heartbeat.Mk) (e_client e).

Lemma ending_progress e :
  client_ok (e_client e) -> stop_io_ (e_client e) = true ->
  ending_work e = 0%nat \/ ending_blocked e \/ can_progress ending_step ending_work e.
Proof.
  intros Hok Hs. unfold can_progress, ending_work.
  destruct (io_progress_ok (e_client e) (e_io e) Hok) as [Hi|[(c' & i' & H)|H]]; [| |by right; left; left].
  2: { right; right. eexists. split; [by eapply e_io_step|]. cbn. apply io_step_work in H; [lia|done]. }
  destruct (hb_progress_ok (e_client e) (e_hb e)) as [Hh|[(c' & h' & H)|H]]; [| |by right; left; right].
  2: { right; right. eexists. split; [by eapply e_hb_step|]. cbn. apply hb_step_work in H; [lia|done]. }
  assert (Hd : e_dtor e = DtDone \/ exists c' d', destructor_step (e_io e) (e_hb e) (e_client e) (e_dtor e) c' d').
  { destruct (e_dtor e); [right..|by left]; [..|destruct (Sock.close (sock_ (e_client e)) (fds (e_client e))) as [so os] eqn:E];
      do 2 eexists; by econstructor. }
  destruct Hd as [Hd|(c' & d' & H)]; [left; by rewrite Hi, Hh, Hd|].
  right; right. eexists. split; [by eapply e_destructor|]. cbn. apply destructor_step_work in H. lia.
Qed.
End ending.

(** ** What is still reported *)

Section reports.
Context `{Hplat : Platform}.

(** Since the events [before], only missed heartbeats have been reported, and nothing
    else is about to be; the client counts as closing. *)
Definition only_heartbeats (before : list (nat * UnexpectedClose)) (e : Ending) : Prop :=
  (exists evs, fired (e_client e) = before ++ evs /\
     Forall (fun ev => reason ev.2 = CloseReason.HeartbeatTimeout) evs) /\
  (forall evt, e_io e = IoNotify evt -> reason evt = CloseReason.HeartbeatTimeout) /\
  (e_io e <> IoDone -> closing_ (e_client e) = true).

Lemma only_heartbeats_same before e c' h' d' :
  only_heartbeats before e -> fired c' = fired (e_client e) ->
  (closing_ (e_client e) = true -> closing_ c' = true) ->
  only_heartbeats before (MkEnding c' (e_io e) h' d').
Proof. intros (H1 & H2 & H3) Hf Hc. unfold only_heartbeats. cbn. rewrite Hf. auto. Qed.

Lemma io_step_only_heartbeats before e c' i' :
  only_heartbeats before e -> io_step (e_client e) (e_io e) c' i' ->
  only_heartbeats before (MkEnding c' i' (e_hb e) (e_dtor e)).
Proof.
  intros (Hf & Hn & Hc) Hstep. pose proof (io_step_from _ _ _ _ Hstep) as [Hnd _]. specialize (Hc Hnd).
  pose proof (io_step_life _ _ _ _ Hstep) as [(Hcl & _) _]. rewrite Hc in Hcl.
  destruct e as [c i h d]. cbn [e_client e_io e_hb e_dtor] in *.
  assert (Hgo : fired c' = fired c -> (forall evt, i' = IoNotify evt -> reason evt = CloseReason.HeartbeatTimeout) ->
    only_heartbeats before (MkEnding c' i' h d)).
  { intros Hf' Hn'. split; [cbn; by rewrite Hf'|]. split; [done|]. by intros _. }
  destruct Hstep as [c Hs|c Hs|c r c' H|c _|c f|c f c' H|c f b st H|c e c' He _ H|c e c' He _ H
    |c e c' He H|c e Hk|c e Hk|c evt|c]; try (by apply Hgo).
  - apply Hgo; [by eapply on_net_same|done].
  - apply Hgo; [by eapply reap_same|done].
  - apply Hgo; [by eapply reap_same|done].
  - apply Hgo; [by eapply fail_pending_same|]. intros evt [= <-]. unfold close_event. by rewrite bool_decide_eq_true_2.
  - apply Hgo; [by eapply fail_pending_same|done].
  - congruence.
  - split; [|by split]. destruct Hf as (evs & Hf & Hev). specialize (Hn evt eq_refl). cbn [e_client].
    destruct (notify_fired evt c) as [Hfired _]. rewrite Hfired, Hf, <- app_assoc. eexists. split; [done|].
    apply Forall_app. split; [done|]. destruct (unexpected_fired_ c); [constructor|].
    destruct (on_unexpected_close_ c); cbn; by repeat constructor.
  - apply Hgo; [|done]. unfold io_exit. by destruct (_ && _).
Qed.

Lemma ending_step_only_heartbeats before e e' :
  only_heartbeats before e -> ending_step e e' -> only_heartbeats before e'.
Proof.
  intros Ho Hstep. destruct Hstep as [e c' i' H|e c' h' H|e c' d' H|e c' H].
  - by apply io_step_only_heartbeats.
  - apply only_heartbeats_same; [done|destruct H; try done; by apply on_net_same in H as [-> _]|].
    apply hb_step_life in H as [(-> & _) _]. done.
  - apply only_heartbeats_same; [done|destruct H; try done; by case_bool_decide|].
    destruct H; try done. by case_bool_decide.
  - apply only_heartbeats_same; [done|by destruct H|]. by apply net_step_life in H as [(-> & _) _].
Qed.

Lemma ending_only_heartbeats before e e' :
  only_heartbeats before e -> rtc ending_step e e' -> only_heartbeats before e'.
Proof. intros Ho He. revert Ho. induction He as [|e1 e2 e3 H _ IH]; [done|]. eauto using ending_step_only_heartbeats. Qed.
End reports.

(** [destroy] is a run of the destructor, when what the threads do before they are
    joined is a run of theirs. *)
Lemma destroy_run `{Hplat : Platform} threads_end c i h :
  (forall c, stop_io_ c = true ->
     rtc ending_step (MkEnding c i h DtStopped) (MkEnding (threads_end c) IoDone HbDone DtStopped)) ->
  rtc ending_step (MkEnding c i h DtEntered) (MkEnding (destroy threads_end c) IoDone HbDone DtDone).
Proof.
  intros Hend. assert (Hd : forall c d c' d' i h, destructor_step i h c d c' d' ->
    rtc ending_step (MkEnding c i h d) (MkEnding c' i h d')).
  { intros. apply rtc_once. by apply (e_destructor (MkEnding _ _ _ _)). }
  unfold destroy, join_threads.
  match goal with |- context [threads_end ?x] => set (c1 := x) end.
  set (c2 := (threads_end c1) <| io_thread_ := false |>).
  set (c3 := c2 <| heartbeat_thread_ := false |>). destruct (Sock.close (sock_ c3) (fds c3)) as [so os] eqn:Es.
  etransitivity; [apply Hd, d_mark|]. etransitivity; [apply Hd, d_stop|]. fold c1.
  etransitivity; [by apply Hend|]. etransitivity; [by apply Hd, d_join_io|]. fold c2.
  etransitivity; [by apply Hd, d_join_hb|]. fold c3. by apply Hd, d_socket.
Qed.

(** ** Properties *)

(** C9.  The destructor and the threads.  A client whose calls have all returned is
    destroyed while its threads still run.  In every interleaving the descriptor
    stays open until both threads have ended; while the I/O thread runs, a client
    counts as closing from the first step on, and from then on, unless that thread
    was already about to report something, only missed heartbeats are reported; when
    the destructor has returned both threads have ended, nothing is left to join, the
    client is closed and exactly the connection's descriptor has been released; and
    while the I/O thread is in a [recv] on a valid socket with nothing to read the
    destructor waits in its join, since it closes the socket only afterwards. *)
Theorem destructor_protocol {P : Platform} (c0 : Client) (calls : list Caller) (s : System) (e : Ending)
  (Hopened : opened c0) (Hcalls : Forall at_start calls) (Hrun : rtc sys_step (started c0 calls) s)
  (Hreturned : destructible s) (Hdestroy : rtc ending_step (entered s) e) :
  client_ok (e_client e) /\
  (e_dtor e <> DtDone -> sock_ (e_client e) = sock_ (client s) /\ fds (e_client e) = fds (client s)) /\
  (e_dtor e <> DtEntered -> e_io e <> IoDone -> closing_ (e_client e) = true) /\
  (e_dtor e <> DtEntered -> (forall evt, e_io e <> IoNotify evt) -> forall e', rtc ending_step e e' ->
     exists evs, fired (e_client e') = fired (e_client e) ++ evs /\
       Forall (fun ev => reason ev.2 = CloseReason.HeartbeatTimeout) evs) /\
  (e_dtor e = DtDone ->
     e_io e = IoDone /\ e_hb e = HbDone /\ io_thread_ (e_client e) = false /\ heartbeat_thread_ (e_client e) = false /\
     state_ (e_client e) = ConnectionState.Closed /\
     Sock.close (sock_ (client s)) (fds (client s)) = (sock_ (e_client e), fds (e_client e))) /\
  (e_dtor e = DtStopped -> e_io e = IoReading -> Sock.valid (sock_ (client s)) = true ->
     read_frame (net (e_client e)) = None -> forall e', ending_step e e' -> e_dtor e' = DtStopped /\ e_io e' = IoReading).
Proof.
  pose proof (run_ending_life c0 calls s e Hopened Hrun Hreturned Hdestroy) as [(_ & H2 & Hl) H1].
  split; [by eapply run_ending_ok|]. split_and!.
  - intros Hd. destruct (e_dtor e); tauto.
  - intros Hd Hi. destruct (e_dtor e); tauto.
  - intros Hd Hn e' He. apply (ending_only_heartbeats (fired (e_client e)) e e'); [|done].
    split; [exists []; by rewrite app_nil_r|]. split; [by intros evt H; destruct (Hn evt)|].
    intros Hi. destruct (e_dtor e); tauto.
  - intros Hd. rewrite Hd in Hl. destruct Hl as (Hc & _ & Hi & Hh & Hj & Hj'). split_and!; auto.
  - intros Hd Hi Hv Hr e' Hstep. assert (Hv' : Sock.valid (sock_ (e_client e)) = true).
    { rewrite Hd in Hl. by destruct Hl as ((-> & _) & _). }
    clear - Hd Hi Hv' Hr Hstep.
    destruct Hstep as [e c' i' H|e c' h' H|e c' d' H|e c' H]; cbn [e_dtor e_io]; try done.
    + rewrite Hi in H. inversion H as [| |? r ? Hn|? Hs| | | | | | | | | |]; subst; [|congruence].
      rewrite on_net_eq, Hr in Hn. discriminate Hn.
    + rewrite Hd, Hi in H. inversion H. discriminate.
Qed.

(** A client that is destroyed while it is connected: the peer closes the
    connection, so that the I/O thread ends, and the destructor returns. *)
Definition connected_client (inb : list InEvent) : Client :=
  (open_client inb) <| sock_ := MkSocket 5 |> <| fds := {[5 := 2; 7 := 0]} |> <| io_thread_ := true |>.

Lemma connected_opened inb : queue_ok inb -> opened (connected_client inb).
Proof. intros Hq. destruct (open_client_opened inb Hq) as [Hok _]. by split. Qed.

Lemma destructor_protocol_witness :
  let c0 := connected_client [Eof] in
  exists e, rtc (ending_step (Hplat := sample_platform)) (entered (started c0 [])) e /\
    fds (e_client e) = {[7 := 0]} /\ state_ (e_client e) = ConnectionState.Closed /\ fired (e_client e) = [].
Proof.
  cbn zeta. set (c0 := connected_client [Eof]).
  assert (Ho : opened c0) by (apply connected_opened; unfold queue_ok; decided).
  assert (Hrun : rtc (ending_step (Hplat := sample_platform)) (entered (started c0 []))
    (MkEnding (destroy io_exit c0) IoDone HbDone DtDone)).
  { apply destroy_run. intros c Hs. etransitivity.
    - apply rtc_once, (e_io_step (MkEnding c IoTop HbDone DtStopped)), i_stop. exact Hs.
    - apply rtc_once, (e_io_step (MkEnding c IoLeaving HbDone DtStopped)), i_exit. }
  assert (Hd : destructible (started c0 [])) by (split; [constructor|by left]).
  destruct (destructor_protocol (P := sample_platform) c0 [] (started c0 []) _ Ho (Forall_nil_2 _) (rtc_refl _ _) Hd Hrun)
    as (_ & _ & _ & _ & Hdone & _).
  destruct (Hdone eq_refl) as (_ & _ & _ & _ & Hst & Hclose).
  eexists. split; [exact Hrun|]. split; [|split; [exact Hst|vm_compute; reflexivity]].
  apply (f_equal snd) in Hclose. etransitivity; [symmetry; exact Hclose|]. vm_compute. reflexivity.
Defined.

(** An I/O thread that has looked at [closing_] before the destructor sets it reports
    the close of the connection while the client is destroyed. *)
Definition noticed_client : Client := on_unexpected_close 3 (connected_client [Eof]).

Lemma late_report :
  exists s e, rtc (sys_step (Hplat := sample_platform)) (started noticed_client []) s /\ destructible s /\
    fired (client s) = [] /\ rtc (ending_step (Hplat := sample_platform)) (entered s) e /\ e_dtor e <> DtEntered /\
    fired (e_client e) = [(3%nat, MkUnexpectedClose CloseReason.PeerClosedSocket (lit "peer closed connection") false)].
Proof.
  do 2 eexists. split.
  - unfold started. change (heartbeat_thread_ _) with false. cbn match.
    etransitivity; [apply (run_io (Hplat := sample_platform)), i_check; reflexivity|].
    etransitivity; [eapply (run_io (Hplat := sample_platform)), i_read; vm_compute; reflexivity|].
    etransitivity; [eapply (run_io (Hplat := sample_platform)), i_failed; [discriminate|vm_compute; reflexivity]|].
    etransitivity; [apply (run_io (Hplat := sample_platform)), i_unexpected; reflexivity|]. reflexivity.
  - split; [split; [constructor|by left]|]. split; [reflexivity|]. split.
    + unfold entered. cbn [client io hb].
      etransitivity; [apply rtc_once, (e_destructor (MkEnding _ _ _ _)), d_mark|].
      apply rtc_once, (e_io_step (MkEnding _ _ _ _)), i_notify.
    + split; [discriminate|]. vm_compute. reflexivity.
Qed.

(** C10.  The destructor returns.  In every infinite run of the destructor and the
    threads in which the stop flag has been set, if the scheduler is fair and from
    some point on no system call blocks, then from some point on the destructor has
    returned, both threads have ended and the descriptor has been released. *)
Theorem destructor_returns {P : Platform} (c0 : Client) (calls : list Caller) (s : System)
  (run : nat -> Ending) (M : nat)
  (Hopened : opened c0) (Hcalls : Forall at_start calls) (Hreach : rtc sys_step (started c0 calls) s)
  (Hreturned : destructible s) (Hstart : rtc ending_step (entered s) (run 0%nat))
  (Hrun : infinite_run ending_step run) (Hstop : stop_io_ (e_client (run 0%nat)) = true)
  (Hfair : fair ending_step ending_work run)
  (Hreturns : forall i, (M <= i)%nat -> ~ ending_blocked (run i)) :
  exists N, forall i, (N <= i)%nat ->
    e_dtor (run i) = DtDone /\ e_io (run i) = IoDone /\ e_hb (run i) = HbDone /\
    Sock.close (sock_ (client s)) (fds (client s)) = (sock_ (e_client (run i)), fds (e_client (run i))).
Proof.
  destruct (fair_run_ends ending_step ending_work (fun e => client_ok (e_client e) /\ stop_io_ (e_client e) = true)
    ending_blocked run) as [N HN]; try done.
  - intros e e' [Hok Hs] Hstep. pose proof (ending_step_ok _ _ Hok Hstep).
    by destruct (ending_step_work _ _ Hs Hstep).
  - intros e [Hok Hs]. by apply ending_progress.
  - split; [|done]. by eapply run_ending_ok.
  - intros i. exists M. auto.
  - exists N. intros i Hi. specialize (HN i Hi). unfold ending_work in HN.
    assert (Hd : e_dtor (run i) = DtDone /\ e_io (run i) = IoDone /\ e_hb (run i) = HbDone).
    { split_and!; [destruct (e_dtor (run i))|destruct (e_io (run i))|destruct (e_hb (run i))]; cbn in HN; first [done|lia]. }
    assert (He : rtc ending_step (entered s) (run i)).
    { etransitivity; [exact Hstart|]. apply run_reaches; [done|lia]. }
    pose proof (run_ending_life c0 calls s _ Hopened Hreach Hreturned He) as [(_ & _ & Hl) _].
    destruct Hd as (Hd & Hi' & Hh). rewrite Hd in Hl. split_and!; try done. apply Hl.
Qed.

(** The rest of such a destruction, step by step; then nothing happens but the
    network. *)
Definition ending_run (i : nat) : Ending :=
  let c := (connected_client [Eof]) <| closing_ := true |> <| stop_io_ := true |> in
  let joined := (io_exit c) <| io_thread_ := false |> in
  let both := joined <| heartbeat_thread_ := false |> in
  match i with
  | 0%nat => MkEnding c IoTop HbDone DtStopped
  | 1%nat => MkEnding c IoLeaving HbDone DtStopped
  | 2%nat => MkEnding (io_exit c) IoDone HbDone DtStopped
  | 3%nat => MkEnding joined IoDone HbDone DtJoinedIo
  | 4%nat => MkEnding both IoDone HbDone DtJoinedBoth
  | _ => MkEnding (both <| sock_ := Sock.empty |> <| fds := (Sock.close (sock_ both) (fds both)).2 |>) IoDone HbDone DtDone
  end.

Lemma ending_run_steps : infinite_run (ending_step (Hplat := sample_platform)) ending_run.
Proof.
  intros [|[|[|[|[|i]]]]].
  - by apply (e_io_step (ending_run 0)), i_stop.
  - by apply (e_io_step (ending_run 1)), i_exit.
  - by apply (e_destructor (ending_run 2)), d_join_io.
  - by apply (e_destructor (ending_run 3)), d_join_hb.
  - by apply (e_destructor (ending_run 4)), d_socket.
  - apply (e_net (ending_run (5 + i))), net_idle.
Qed.

Lemma destructor_returns_witness :
  exists run, infinite_run (ending_step (Hplat := sample_platform)) run /\ e_dtor (run 0%nat) = DtStopped /\
    exists N, forall i, (N <= i)%nat -> e_dtor (run i) = DtDone.
Proof.
  exists ending_run. split; [exact ending_run_steps|]. split; [reflexivity|].
  assert (Ho : opened (connected_client [Eof])) by (apply connected_opened; unfold queue_ok; decided).
  assert (Hd : destructible (started (connected_client [Eof]) [])) by (split; [constructor|by left]).
  assert (Hstart : rtc (ending_step (Hplat := sample_platform)) (entered (started (connected_client [Eof]) [])) (ending_run 0)).
  { etransitivity; [apply rtc_once, (e_destructor (entered (started (connected_client [Eof]) []))), d_mark|].
    apply rtc_once, (e_destructor (MkEnding _ _ _ _)), d_stop. }
  assert (Hfair : fair (ending_step (Hplat := sample_platform)) ending_work ending_run).
  { intros i. exists (5 + i)%nat. split; [lia|]. right. intros (e' & _ & Hw).
    change (ending_work e' < 0)%nat in Hw. lia. }
  assert (Hfree : forall i, ~ ending_blocked (Hplat := sample_platform) (ending_run i)).
  { intros i [[H _]|[[now H] _]]; by destruct i as [|[|[|[|[|i]]]]]. }
  destruct (destructor_returns (P := sample_platform) _ [] (started (connected_client [Eof]) []) ending_run 0 Ho
    (Forall_nil_2 _) (rtc_refl _ _) Hd Hstart ending_run_steps eq_refl Hfair (fun i _ => Hfree i)) as (N & HN).
  exists N. intros i Hi. exact (proj1 (HN i Hi)).
Defined.
