(* ===== verification/Lifetime.v ===== *)
(** * The life of a client, from its construction to its destruction

    The parts of the model put together: a client is constructed, connected, shared
    by the threads and destroyed.  [ConnectionState] only ever moves along the state
    machine that [client.hpp] documents for [connect] and [close], but for the one
    transition that the I/O thread makes when the connection is lost; and whatever
    happens in between, a destroyed client leaves the descriptors of the process as
    they were before it connected.

    [client.hpp] asks for [connect] and [close] to be called from one thread, and
    makes the other operations safe once the connection is open.  So the calls of
    [connect] and [close] follow one another here, and [connect] is one step: the
    other threads are there when it has returned.  What a call of another thread
    meets between the assignment of [Open] and the start of the two threads is not
    modelled. *)

From coqutil Require Import Datatypes.RecordSetters.
From S2P Require Import Prelude Errors Buffer Codec Frame Command HandshakeCommands.
From S2P Require Import LifecycleCommands Config Dispatcher Socket Concurrency Dialogue Handshake.
From S2P Require Import Client ClientInvariant ClientThreads ClientProperties ClientTypes ThreadProperties Destructor.
Import TriangleBracketNotations.

Local Open Scope Z_scope.

(** ** The state machine *)

(** What [client.hpp] documents.  [connect]: Disconnected, Connecting, Open, or Closed
    after a failure.  [close]: Open, Closing, Closed. *)
Inductive documented : ConnectionState.t -> ConnectionState.t -> Prop :=
  | to_connecting : documented ConnectionState.Disconnected ConnectionState.Connecting
  | to_open : documented ConnectionState.Connecting ConnectionState.Open
  | to_failed : documented ConnectionState.Connecting ConnectionState.Closed
  | to_closing : documented ConnectionState.Open ConnectionState.Closing
  | to_closed : documented ConnectionState.Closing ConnectionState.Closed.

(** What the end of [io_loop] adds: an open connection that is lost. *)
Inductive lost : ConnectionState.t -> ConnectionState.t -> Prop :=
  | to_lost : lost ConnectionState.Open ConnectionState.Closed.

Definition lifecycle (st st' : ConnectionState.t) : Prop := documented st st' \/ lost st st'.

(** At most one transition, which is the undocumented one only if [gone]. *)
Definition moves (gone : Prop) (st st' : ConnectionState.t) : Prop :=
  st' = st \/ documented st st' \/ lost st st' /\ gone.

(** Nothing leaves [Closed]. *)
Lemma closed_final st : rtc lifecycle ConnectionState.Closed st -> st = ConnectionState.Closed.
Proof. inversion 1 as [|? ? ? [H'|H']]; [done| |]; inversion H'. Qed.

(** ** The steps of a life *)

(** A client before its connection is open, a client shared by threads, and a client
    in its destructor. *)
Inductive Lifetime :=
  | Constructed (c : Client)
  | Running (s : System)
  | Destroying (e : Ending).

Definition client_of (L : Lifetime) : Client :=
  match L with Constructed c => c | Running s => client s | Destroying e => e_client e end.

(** The I/O thread has ended. *)
Definition io_gone (L : Lifetime) : Prop :=
  match L with Constructed _ => False | Running s => io s = IoDone | Destroying e => e_io e = IoDone end.

(** The thread that connects and closes is not inside [close]. *)
Definition owner_free (s : System) : Prop := closer s = ClIdle \/ closer s = ClReturned.

(** The same system with another client. *)
Definition with_client (c : Client) (s : System) : System :=
  MkSystem c (callers s) (io s) (hb s) (closer s).

Section lifetime.
Context `{Hplat : Platform}.

(** [socket()] answers with a descriptor that is not in use. *)
Definition fresh_sockets (answers : ResolvedAddr -> Attempt) (c : Client) : Prop :=
  forall addr, fds c !! a_socket (answers addr) = None.

(** The thread that owns the connection may call [connect] too late or again, and
    [close] too early or again: on an open client this is the [close] of [sys_step],
    else (after it, or when the connection is lost) it finds the client not open.
    The callback may be set at any time.  The destructor may run once every call has
    returned.  Time passes before [connect] too. *)
Inductive lifetime_step : Lifetime -> Lifetime -> Prop :=
  | lf_callback cb c : lifetime_step (Constructed c) (Constructed (on_unexpected_close cb c))
  | lf_time c t : clock c <= t -> lifetime_step (Constructed c) (Constructed (c <| clock := t |>))
  | lf_refused getaddrinfo answers c e c' :
      fresh_sockets answers c -> connect getaddrinfo answers (clock c) c = Some (err e, c') ->
      lifetime_step (Constructed c) (Constructed c')
  | lf_connected getaddrinfo answers c c' calls :
      fresh_sockets answers c -> connect getaddrinfo answers (clock c) c = Some (ok tt, c') ->
      Forall at_start calls -> lifetime_step (Constructed c) (Running (started c' calls))
  | lf_close_early others threads_end late c r c' :
      close others threads_end late (clock c) c = Some (r, c') -> lifetime_step (Constructed c) (Constructed c')
  | lf_unused c : lifetime_step (Constructed c) (Destroying (MkEnding c IoDone HbDone DtEntered))
  | lf_run s s' : sys_step s s' -> lifetime_step (Running s) (Running s')
  | lf_callback_late cb s :
      lifetime_step (Running s) (Running (with_client (on_unexpected_close cb (client s)) s))
  | lf_connect_again getaddrinfo answers s r c' :
      owner_free s -> connect getaddrinfo answers (clock (client s)) (client s) = Some (r, c') ->
      lifetime_step (Running s) (Running (with_client c' s))
  | lf_close_again others threads_end late s r c' :
      owner_free s -> state_ (client s) <> ConnectionState.Open ->
      close others threads_end late (clock (client s)) (client s) = Some (r, c') ->
      lifetime_step (Running s) (Running (with_client c' s))
  | lf_destroyed s : destructible s -> lifetime_step (Running s) (Destroying (entered s))
  | lf_end e e' : ending_step e e' -> lifetime_step (Destroying e) (Destroying e').

(** ** What [connect] and [close] do to a client that is not fit for them *)

Lemma connect_used getaddrinfo answers now c r c' :
  state_ c <> ConnectionState.Disconnected -> connect getaddrinfo answers now c = Some (r, c') -> c' = c /\ is_err r.
Proof.
  intros Hs. unfold connect. destruct (validate (cfg_ c)); [|by intros [= <- <-]].
  rewrite bool_decide_eq_false_2 by done. by intros [= <- <-].
Qed.

Lemma close_unopened others threads_end late now c r c' :
  state_ c <> ConnectionState.Open -> close others threads_end late now c = Some (r, c') -> c' = c /\ is_err r.
Proof. intros Hs. unfold close. rewrite bool_decide_eq_false_2 by done. by intros [= <- <-]. Qed.

(** A failed [connect] registers nothing and starts no thread. *)
Lemma connect_failed_frame getaddrinfo answers now c e c' :
  client_ok c -> connect getaddrinfo answers now c = Some (err e, c') ->
  client_ok c' /\ io_thread_ c' = io_thread_ c /\ heartbeat_thread_ c' = heartbeat_thread_ c.
Proof.
  intros Hok. unfold connect. destruct (validate _); [|by intros [= _ <-]]. destruct (negb _); [by intros [= _ <-]|].
  match goal with |- context [log_info ?m ?x] => set (c0 := log_info m x) end.
  destruct (connect_with_timeout _ _ _ _ _ _) as [[s|e'] os]; [|by intros [= _ <-]].
  destruct (Sock.assign _ _ _) as [[so s'] os'].
  match goal with |- context [set_half_heartbeat ?n ?x] => destruct (set_half_heartbeat_eq n x) as [rt ->] end.
  match goal with |- context [on_net _ ?x] => set (c2 := x) end.
  assert (Hok2 : client_ok c2) by exact Hok.
  rewrite on_net_eq. destruct (run_handshake _ _) as [[[hs|e'] w]|] eqn:E; [done| |done].
  destruct (Sock.close _ _) as [so' os'']. intros [= _ <-]. split; [|done].
  destruct Hok2 as (Hl & Hq & Hrem). split; [exact Hl|]. split; [|exact Hrem].
  eapply queue_kept; [exact Hq|exact E].
Qed.

(** ** Invariant *)

(** A client without a connection. *)
Definition unconnected (c : Client) : Prop :=
  sock_ c = Sock.empty /\ io_thread_ c = false /\ heartbeat_thread_ c = false /\
  (state_ c = ConnectionState.Disconnected \/ state_ c = ConnectionState.Closed).

(** A client on one descriptor of its own, next to those of the rest of the
    process. *)
Definition holds (os : gmap Z Z) (c : Client) : Prop :=
  exists flags, fd_ (sock_ c) <> kInvalidFd /\ os !! fd_ (sock_ c) = None /\ fds c = <[fd_ (sock_ c) := flags]> os.

(** A socket whose closing gives back the descriptors [os]. *)
Definition gives_back (os : gmap Z Z) (c : Client) : Prop :=
  Sock.close (sock_ c) (fds c) = (Sock.empty, os).

Definition lifetime_inv (os : gmap Z Z) (L : Lifetime) : Prop :=
  match L with
  | Constructed c => client_ok c /\ unconnected c /\ fds c = os
  | Running s => exists c0 l, holds os c0 /\ life c0 s /\ sys_inv s l
  | Destroying e => client_ok (e_client e) /\ exists c1, gives_back os c1 /\ ending_life c1 e
  end.

Lemma holds_gives_back os c : holds os c -> gives_back os c.
Proof.
  intros (flags & Hne & Hnone & Hf). unfold gives_back, Sock.close. rewrite Hf.
  rewrite (proj2 (Z.eqb_neq _ _)) by done. cbn [negb]. by rewrite delete_insert_id.
Qed.

Lemma empty_gives_back c : sock_ c = Sock.empty -> gives_back (fds c) c.
Proof. intros Hs. unfold gives_back. by rewrite Hs. Qed.

Lemma connect_opened_holds getaddrinfo answers now c c' :
  client_ok c -> unconnected c -> fresh_sockets answers c ->
  connect getaddrinfo answers now c = Some (ok tt, c') -> opened c' /\ holds (fds c) c'.
Proof.
  intros Hok (Hsock & _ & Hhb & _) Hf Hc.
  pose proof (connect_opens getaddrinfo answers now c c' Hok Hhb Hc) as [Ho _]. split; [exact Ho|].
  destruct (decide (state_ c = ConnectionState.Disconnected)) as [Hst|Hst].
  2: { by apply connect_used in Hc as [_ H]. }
  destruct (validate (cfg_ c)) as [[]|e] eqn:Hv; [|revert Hc; unfold connect; by rewrite Hv].
  assert (Hin : inbox_ok (net c)) by apply queue_ok_stream, Hok.
  destruct (connect_attempted _ _ _ _ _ _ Hsock Hhb Hin Hf Hv Hst Hc) as (_ & _ & _ & (flags & Hn & Hi) & _ & _ & _ & Hne).
  by exists flags.
Qed.

Lemma connect_refused_inv os getaddrinfo answers now c e c' :
  lifetime_inv os (Constructed c) -> fresh_sockets answers c ->
  connect getaddrinfo answers now c = Some (err e, c') ->
  lifetime_inv os (Constructed c') /\ rtc lifecycle (state_ c) (state_ c').
Proof.
  intros (Hok & Hun & Hos) Hf Hc. pose proof (connect_failed_frame _ _ _ _ _ _ Hok Hc) as (Hok' & Hio & Hhb).
  destruct (decide (state_ c = ConnectionState.Disconnected)) as [Hst|Hst].
  2: { apply connect_used in Hc as [-> _]; [|done]. by split. }
  destruct (validate (cfg_ c)) as [[]|e'] eqn:Hv.
  2: { revert Hc. unfold connect. rewrite Hv. intros [= _ <-]. by split. }
  assert (Hin : inbox_ok (net c)) by apply queue_ok_stream, Hok. destruct Hun as (Hso & Hi0 & Hh0 & _).
  destruct (connect_attempted _ _ _ _ _ _ Hso Hh0 Hin Hf Hv Hst Hc) as (Hcl & Hso' & Hfd).
  split; [|rewrite Hst, Hcl; eapply rtc_l; [left; constructor|apply rtc_once; left; constructor]].
  split; [done|]. split; [|by rewrite Hfd]. unfold unconnected. rewrite Hio, Hhb. by auto.
Qed.

(** Setting the callback changes nothing the invariants speak of. *)
Lemma callback_inv c0 l s cb :
  life c0 s -> sys_inv s l ->
  life c0 (with_client (on_unexpected_close cb (client s)) s) /\
  sys_inv (with_client (on_unexpected_close cb (client s)) s) l.
Proof. intros Hl [H1 H2 H3 H4 H5 H6]. split; [exact Hl|]. by split. Qed.

Lemma with_same_client s : with_client (client s) s = s.
Proof. by destruct s. Qed.

(** ** The state of the connection along the steps *)

(** The I/O thread ends an open connection. *)
Lemma io_step_moves c i c' i' :
  (i' = IoDone -> state_ c <> ConnectionState.Disconnected /\ state_ c <> ConnectionState.Connecting) ->
  io_step c i c' i' -> moves (i' = IoDone) (state_ c) (state_ c').
Proof.
  intros Hs H. apply io_step_life in H as [_ [[-> _]|[-> Hd]]]; [by left|]. destruct (Hs Hd).
  unfold io_exit. destruct (state_ c) eqn:E; try done; cbn; rewrite ?E; first [by left|by right; right].
Qed.

Lemma life_connected c0 s :
  life c0 s -> state_ (client s) <> ConnectionState.Disconnected /\ state_ (client s) <> ConnectionState.Connecting.
Proof.
  unfold life. destruct (closer s); intros Hl; destruct_and?;
    try (match goal with H : state_ _ = _ |- _ => rewrite H end); try done.
  by destruct (io_ended (io s)).
Qed.

Lemma close_step_moves c0 s c' k' :
  life c0 s -> close_step (io s) (hb s) (client s) (closer s) c' k' ->
  moves False (state_ (client s)) (state_ c').
Proof.
  intros Hl H. pose proof (close_step_life c0 s c' k' Hl H) as Hl'. unfold life in Hl, Hl'. cbn [client closer] in Hl'.
  destruct H; destruct_and?; first
    [ match goal with H1 : state_ ?c = _, H2 : state_ ?c' = _ |- moves _ (state_ ?c) (state_ ?c') => rewrite H1, H2 end;
      first [by left|right; left; constructor]
    | idtac ].
Qed.

Lemma sys_step_moves c0 s s' :
  life c0 s -> sys_step s s' -> moves (io s' = IoDone) (state_ (client s)) (state_ (client s')).
Proof.
  intros Hl. destruct 1 as [s n t c' t' Hn H|s c' i' H|s c' h' H|s c' k' H|s c' H]; cbn [client].
  - apply caller_step_life in H as [_ ->]. by left.
  - eapply io_step_moves; [|exact H]. intros _. by eapply life_connected.
  - apply hb_step_life in H as [_ ->]. by left.
  - destruct (close_step_moves _ _ _ _ Hl H) as [?|[?|[_ []]]]; [by left|by right; left].
  - apply net_step_life in H as [_ ->]. by left.
Qed.

Lemma ending_step_moves c1 e e' :
  ending_life c1 e -> ending_step e e' -> moves (e_io e' = IoDone) (state_ (e_client e)) (state_ (e_client e')).
Proof.
  intros (_ & Hopen & _). destruct 1 as [e c' i' H|e c' h' H|e c' d' H|e c' H]; cbn [e_client].
  - eapply io_step_moves; [|exact H]. intros _. destruct (Hopen (proj1 (io_step_from _ _ _ _ H))) as [-> _]. done.
  - apply hb_step_life in H as [_ ->]. by left.
  - destruct H; try by left. case_bool_decide; by left.
  - apply net_step_life in H as [_ ->]. by left.
Qed.

(** ** The invariant is kept *)

Lemma destroyed_gives_back os c0 s :
  holds os c0 -> life c0 s -> gives_back os (client s).
Proof.
  intros Hh%holds_gives_back Hl. unfold gives_back in *. unfold life in Hl.
  assert (Hk : sock_ (client s) = sock_ c0 /\ fds (client s) = fds c0 \/
    Sock.close (sock_ c0) (fds c0) = (sock_ (client s), fds (client s))) by (destruct (closer s); tauto).
  destruct Hk as [[-> ->]|Hk]; [done|]. rewrite Hh in Hk. injection Hk as <- <-. done.
Qed.

Lemma moves_rtc gone st st' : moves gone st st' -> rtc lifecycle st st'.
Proof. intros [->|[H|[H _]]]; [done|apply rtc_once; by left|apply rtc_once; by right]. Qed.

Lemma lifetime_step_inv os L L' :
  lifetime_inv os L -> lifetime_step L L' ->
  lifetime_inv os L' /\ rtc lifecycle (state_ (client_of L)) (state_ (client_of L')).
Proof.
  intros Hinv. destruct 1 as [cb c|c t Ht|g a c e c' Hf Hc|g a c c' calls Hf Hc Hcalls|o te lt c r c' Hc|c|s s' H
    |cb s|g a s r c' _ Hc|o te lt s r c' _ Hk Hc|s Hd|e e' H]; cbn [client_of].
  - by split.
  - by split.
  - by eapply connect_refused_inv.
  - destruct Hinv as (Hok & Hun & <-). destruct (connect_opened_holds _ _ _ _ _ Hok Hun Hf Hc) as [Ho Hh].
    destruct (started_inv c' calls Ho Hcalls) as (l & Hl). pose proof Ho as (_ & Hst & Hso & Hcl).
    split; [exists c', l; by split_and!|]. cbn. rewrite Hst.
    destruct (decide (state_ c = ConnectionState.Disconnected)) as [->|Hne].
    + eapply rtc_l; [left; constructor|apply rtc_once; left; constructor].
    + by apply connect_used in Hc as [_ H].
  - destruct Hinv as (Hok & Hun & Hos). apply close_unopened in Hc as [-> _]; [by split|].
    destruct Hun as (_ & _ & _ & [->| ->]); done.
  - destruct Hinv as (Hok & (Hso & Hi & Hh & Hst) & <-). split; [|done]. split; [done|].
    exists c. split; [by apply empty_gives_back|]. split_and!; try done. cbn. intros _.
    destruct Hst as [->| ->]; done.
  - destruct Hinv as (c0 & l & Hh & Hl & Hinv). destruct (sys_step_inv _ _ _ Hinv H) as (l' & Hinv').
    split; [exists c0, l'; split_and!; [done|by eapply sys_step_life|done]|]. by eapply moves_rtc, sys_step_moves.
  - destruct Hinv as (c0 & l & Hh & Hl & Hinv). destruct (callback_inv c0 l s cb Hl Hinv). split; [|done]. by exists c0, l.
  - destruct Hinv as (c0 & l & Hh & Hl & Hinv). apply connect_used in Hc as [-> _]; [|by eapply life_connected].
    rewrite with_same_client. split; [|done]. by exists c0, l.
  - destruct Hinv as (c0 & l & Hh & Hl & Hinv). apply close_unopened in Hc as [-> _]; [|done].
    rewrite with_same_client. split; [|done]. by exists c0, l.
  - destruct Hinv as (c0 & l & Hh & Hl & Hinv). split; [|done]. split; [apply Hinv|].
    exists (client s). split; [by eapply destroyed_gives_back|by eapply life_entered].
  - destruct Hinv as (Hok & c1 & Hg & Hl). split; [|by eapply moves_rtc, ending_step_moves].
    split; [by eapply ending_step_ok|]. exists c1. split; [done|by eapply ending_step_life].
Qed.

Lemma lifetime_steps_inv os L L' :
  lifetime_inv os L -> rtc lifetime_step L L' ->
  lifetime_inv os L' /\ rtc lifecycle (state_ (client_of L)) (state_ (client_of L')).
Proof.
  intros Hinv H. revert Hinv. induction H as [L|L1 L2 L3 H _ IH]; [done|]. intros Hinv.
  destruct (lifetime_step_inv _ _ _ Hinv H) as [H2 Hs]. destruct (IH H2) as [H3 Hs']. split; [done|]. by etransitivity.
Qed.

Lemma new_lifetime_inv cfg w os : queue_ok (inbox w) -> lifetime_inv os (Constructed (new_client cfg w os)).
Proof. intros Hq. split; [by apply new_client_ok|]. split; [|done]. by repeat split; try left. Qed.
End lifetime.

(** ** Properties *)

(** C12.  The life of a client.  A client is constructed, connected (perhaps in vain),
    shared by its threads, closed or lost, and destroyed; one thread calls [connect]
    and [close], as [client.hpp] asks, perhaps too early, too late or again, and
    [connect] is one step.  In every such life each step of a connected client leaves
    the state of the connection as it is, or moves it along one transition that
    [client.hpp] documents, or (undocumented) takes an open connection to closed as
    the I/O thread ends; so a closed client never opens again.  A client that is not
    connected has no descriptor; as long as nobody has closed it, it owns exactly
    one, also after the connection has been lost; and when the destructor has
    returned, no thread is left and the descriptors are those the process had before. *)
Theorem lifetime_safe {P : Platform} (cfg : ConnectionConfig) (w : World) (os : gmap Z Z) (L L' : Lifetime)
  (Hin : queue_ok (inbox w)) (Hlife : rtc lifetime_step (Constructed (new_client cfg w os)) L)
  (Hlater : rtc lifetime_step L L') :
  client_ok (client_of L) /\
  rtc lifecycle (state_ (client_of L)) (state_ (client_of L')) /\
  (forall L1, lifetime_step L L1 ->
     (exists c, L = Constructed c) \/ moves (io_gone L1) (state_ (client_of L)) (state_ (client_of L1))) /\
  (state_ (client_of L) = ConnectionState.Closed -> state_ (client_of L') = ConnectionState.Closed) /\
  match L with
  | Constructed c => sock_ c = Sock.empty /\ fds c = os
  | Running s => gives_back os (client s) /\ (closer s = ClIdle -> holds os (client s))
  | Destroying e =>
      match e_dtor e with
      | DtDone =>
          sock_ (e_client e) = Sock.empty /\ fds (e_client e) = os /\
          e_io e = IoDone /\ e_hb e = HbDone /\ io_thread_ (e_client e) = false /\ heartbeat_thread_ (e_client e) = false
      | _ => gives_back os (e_client e)
      end
  end.
Proof.
  destruct (lifetime_steps_inv os _ _ (new_lifetime_inv cfg w os Hin) Hlife) as [Hinv _].
  destruct (lifetime_steps_inv os _ _ Hinv Hlater) as [_ Hst].
  split; [|split; [exact Hst|]].
  { destruct L as [c|s|e]; [apply Hinv|destruct Hinv as (c0 & l & _ & _ & H); apply H|apply Hinv]. }
  split; [|split; [intros Hc; rewrite Hc in Hst; by apply closed_final|]].
  - clear L' Hlater Hst. intros L1. destruct 1 as [| | | | | |s s' H|cb s|g a s r c' _ Hc|o te lt s r c' _ Hk Hc|s Hd|e e' H];
      try (by left; eexists); right; cbn [client_of]; try (by left).
    + destruct Hinv as (c0 & l & _ & Hl & _). by eapply sys_step_moves.
    + destruct Hinv as (c0 & l & _ & Hl & _). apply connect_used in Hc as [-> _]; [|by eapply life_connected].
      by left.
    + destruct Hinv as (c0 & l & _ & Hl & _). apply close_unopened in Hc as [-> _]; [by left|done].
    + destruct Hinv as (_ & c1 & _ & Hl). by eapply ending_step_moves.
  - destruct L as [c|s|e].
    + destruct Hinv as (_ & (Hso & _) & Hos). done.
    + destruct Hinv as (c0 & l & Hh & Hl & _). split; [by eapply destroyed_gives_back|]. intros Hk.
      unfold life in Hl. rewrite Hk in Hl. destruct Hl as (_ & _ & (Hso & Hf) & _). unfold holds. by rewrite Hso, Hf.
    + destruct Hinv as (_ & c1 & Hg & (_ & _ & Hl)). unfold gives_back in *.
      destruct (e_dtor e); destruct_and?; try done;
        try (match goal with H1 : sock_ _ = sock_ c1, H2 : fds _ = fds c1 |- _ => by rewrite H1, H2 end).
      rewrite Hg in *. naive_solver.
Qed.

(** A client that connects and is destroyed while it is open, in a process with one
    descriptor. *)
Lemma lifetime_safe_witness :
  exists e, rtc (lifetime_step (Hplat := sample_platform))
      (Constructed (new_client default_config (sample_world (server_side ++ [7])) {[7 := 0]})) (Destroying e) /\
    e_dtor e = DtDone /\ fds (e_client e) = {[7 := 0]} /\
    rtc lifecycle ConnectionState.Disconnected (state_ (e_client e)).
Proof.
  set (c := new_client default_config (sample_world (server_side ++ [7])) {[7 := 0]}).
  assert (Hq : queue_ok (inbox (sample_world (server_side ++ [7])))) by (unfold queue_ok; decided).
  destruct (connect (Hplat := sample_platform) local_host (fun _ => connected_at_once) 0 c) as [[r c']|] eqn:E;
    [|vm_compute in E; discriminate E].
  assert (r = ok tt) as -> by (vm_compute in E; congruence).
  assert (Hhb : heartbeat_thread_ c' = true) by (vm_compute in E; injection E as <-; reflexivity).
  set (e := MkEnding (destroy io_exit c') IoDone HbDone DtDone).
  assert (Hd : rtc (ending_step (Hplat := sample_platform)) (MkEnding c' IoTop HbTop DtEntered) e).
  { apply destroy_run. intros c1 Hs.
    etransitivity; [apply rtc_once, (e_io_step (MkEnding c1 IoTop HbTop DtStopped)), i_stop; exact Hs|].
    etransitivity; [apply rtc_once, (e_hb_step (MkEnding c1 IoLeaving HbTop DtStopped)), h_stop; exact Hs|].
    apply rtc_once, (e_io_step (MkEnding c1 IoLeaving HbDone DtStopped)), i_exit. }
  assert (Hlife : rtc (lifetime_step (Hplat := sample_platform)) (Constructed c) (Destroying e)).
  { eapply rtc_l; [eapply (lf_connected _ _ _ _ []); [|exact E|constructor]; intros addr; vm_compute; reflexivity|].
    eapply rtc_l; [apply lf_destroyed; split; [constructor|by left]|].
    unfold entered, started. rewrite Hhb. cbn [client io hb].
    clear - Hd. induction Hd as [|e1 e2 e3 H _ IH]; [done|]. eapply rtc_l; [by apply lf_end|exact IH]. }
  exists e. split; [exact Hlife|]. split; [reflexivity|].
  destruct (lifetime_safe (P := sample_platform) _ _ _ _ _ Hq Hlife (rtc_refl _ _)) as (_ & _ & _ & _ & _ & Hos & _).
  destruct (lifetime_safe (P := sample_platform) _ _ _ _ _ Hq (rtc_refl _ _) Hlife) as (_ & Hst & _).
  split; [exact Hos|exact Hst].
Defined.
