(* ===== verification/GettingStarted.v ===== *)
(** * The example program: [docs/examples/getting_started/getting_started.cpp]

    The program of the repository that uses the client from end to end: it connects,
    creates a stream, stores and queries an offset, queries a publisher sequence,
    deletes the stream and closes.  Its standard output and error are lists of
    bytes; [std::exit] is an ending of its own, since it does not destroy the
    client.  The callback for a lost connection writes to the standard error from a
    thread of its own, so [main] yields the part that the main thread writes, and
    [standard_error] says what the process may have written in all. *)

From S2P Require Import Prelude Errors Buffer Codec Frame Command HandshakeCommands.
From S2P Require Import LifecycleCommands Config Dispatcher Socket Dialogue Handshake Client.
From S2P Require Import ClientInvariant ClientProperties.

Local Open Scope Z_scope.

(** ** The state and effects of [main] *)

(** The client and what the main thread has written. *)
Record Main := MkMain { the_client : Client; cout : bytes; cerr : bytes }.

(** Code of [main]: it blocks, calls [std::exit] with a code, or goes on. *)
Definition Program (A : Type) : Type := Main -> option ((Z + A) * Main).

#[export] Instance program_ret : MRet Program := fun A x m => Some (inr x, m).
#[export] Instance program_bind : MBind Program := fun A B k p m =>
  match p m with
  | None => None
  | Some (inl code, m) => Some (inl code, m)
  | Some (inr x, m) => k x m
  end.

Definition print (s : bytes) : Program unit := fun m =>
  Some (inr tt, MkMain (the_client m) (cout m ++ s) (cerr m)).
Definition eprint (s : bytes) : Program unit := fun m =>
  Some (inr tt, MkMain (the_client m) (cout m) (cerr m ++ s)).
Definition exit {A} (code : Z) : Program A := fun m => Some (inl code, m).

(** A newline of the source's string literals, and a double quote. *)
Definition nl : bytes := [10].
Definition quote : bytes := [34].

(** [must]. *)
Definition must (r : Result unit) (context : std_string) : Program unit :=
  match r with
  | ok _ => mret tt
  | err e =>
      _ ← eprint (lit "[ERROR] " ++ context ++ lit ": " ++ message e ++ nl);
      exit 1
  end.

(** The sink of [make_logger]: what it prints for an event. *)
Definition make_logger (ev : LogEvent) : bytes :=
  let tag := match ev.1 with
             | Error => lit "ERROR" | Warn => lit "WARN " | Info => lit "INFO " | Debug => lit "DEBUG"
             end in
  lit "[" ++ tag ++ lit "] " ++ ev.2 ++ nl.

(** What the unexpected-close callback prints on [std::cerr], on its own thread. *)
Definition connection_lost (evt : UnexpectedClose) : bytes :=
  lit "[WARN ] connection lost unexpectedly: " ++ close_message evt
  ++ lit " (during_handshake=" ++ (if during_handshake evt then lit "1" else lit "0") ++ lit ")" ++ nl.

(** Call the client.  Operations print nothing but through the sink, so the events
    of a call are printed, in order, by the time it returns. *)
Definition call {A} (op : Client -> option (A * Client)) : Program A := fun m =>
  match op (the_client m) with
  | None => None
  | Some (r, c) =>
      let events := drop (length (logs (net (the_client m)))) (logs (net c)) in
      Some (inr r, MkMain c (cout m ++ concat (map make_logger events)) (cerr m))
  end.

(** ** [main] *)

Definition cfg : ConnectionConfig :=
  MkConfig (lit "localhost") 5552 (lit "/") (lit "guest") (lit "guest") (lit "getting-started-example") false
    60 1048576 10000 10000.

Definition stream : std_string := lit "gs.getting-started".
Definition consumer_ref : std_string := lit "example-consumer".
Definition stored_offset : Z := 42.
Definition publisher_ref : std_string := lit "example-publisher".
Definition retention : list Argument :=
  [(lit "max-length-bytes", lit "500000000"); (lit "max-age", lit "1h")].

(** The two server properties that are shown. *)
Definition print_property (kv : KeyValue) : Program unit :=
  if bool_decide (kv.1 = lit "version") || bool_decide (kv.1 = lit "cluster_name") then
    print (lit "  server." ++ kv.1 ++ lit " = " ++ kv.2 ++ nl)
  else mret tt.

Fixpoint print_properties (kvs : list KeyValue) : Program unit :=
  match kvs with
  | [] => mret tt
  | kv :: kvs => _ ← print_property kv; print_properties kvs
  end.

Definition print_offset (off_r : Result (option Z)) : Program unit :=
  match off_r with
  | err e => eprint (lit "[ERROR] query_offset: " ++ message e ++ nl)
  | ok None => print (lit "No offset stored yet for this reference." ++ nl)
  | ok (Some off) => print (lit "Stored offset = " ++ to_string_u off ++ nl)
  end.

Definition print_sequence (seq_r : Result Z) : Program unit :=
  match seq_r with
  | err e => eprint (lit "[ERROR] query_publisher_sequence: " ++ message e ++ nl)
  | ok seq => print (lit "Publisher sequence = " ++ to_string_u seq ++ lit " (0 means never published)" ++ nl)
  end.

Section main.
Context `{Hplat : Platform}.

(** The resolver and the connection attempts; what the other threads do while a
    call waits, before they are joined, and before [close] closes the state; the
    clock at each call. *)
Variables (getaddrinfo : std_string -> std_string -> Z + list ResolvedAddr) (answers : ResolvedAddr -> Attempt).
Variables (others threads_end late : Client -> Client) (times : nat -> Z).

(** From the connected client to the end of [main]. *)
Definition session : Program Z :=
  _ ← print (nl ++ lit "Creating stream " ++ quote ++ stream ++ quote ++ lit " ..." ++ nl);
  r ← call (create_stream others stream retention true (times 1));
  _ ← must r (lit "create_stream");
  _ ← print (lit "Stream created (or already existed)." ++ nl);
  _ ← print (nl ++ lit "Storing offset " ++ to_string_u stored_offset
             ++ lit " for reference " ++ quote ++ consumer_ref ++ quote ++ lit " ..." ++ nl);
  r ← call (store_offset consumer_ref stream stored_offset (times 2));
  _ ← must r (lit "store_offset");
  _ ← print (lit "Offset stored." ++ nl);
  _ ← print (nl ++ lit "Querying offset for reference " ++ quote ++ consumer_ref ++ quote ++ lit " ..." ++ nl);
  off_r ← call (query_offset others consumer_ref stream (times 3));
  _ ← print_offset off_r;
  _ ← print (nl ++ lit "Querying publisher sequence for " ++ quote ++ publisher_ref ++ quote ++ lit " ..." ++ nl);
  seq_r ← call (query_publisher_sequence others publisher_ref stream (times 4));
  _ ← print_sequence seq_r;
  _ ← print (nl ++ lit "Deleting stream " ++ quote ++ stream ++ quote ++ lit " ..." ++ nl);
  r ← call (delete_stream others stream true (times 5));
  _ ← must r (lit "delete_stream");
  _ ← print (lit "Stream deleted." ++ nl);
  _ ← print (nl ++ lit "Closing connection ..." ++ nl);
  r ← call (close others threads_end late (times 6));
  _ ← must r (lit "close");
  _ ← print (lit "Done." ++ nl);
  mret 0.

(** The body of [main], with the value it returns. *)
Definition main_body : Program Z :=
  _ ← call (fun c => Some (tt, on_unexpected_close 0 c));
  _ ← print (lit "Connecting to " ++ host cfg ++ lit ":" ++ to_string_u (port cfg)
             ++ lit " vhost=" ++ virtual_host cfg ++ lit " ..." ++ nl);
  r ← call (connect getaddrinfo answers (times 0));
  match r with
  | err e =>
      _ ← eprint (lit "[ERROR] connect failed: " ++ message e ++ nl);
      mret 1
  | ok _ =>
      _ ← print (lit "Connected. State = Open" ++ nl);
      props ← (fun m => Some (inr (StreamClient.server_properties (the_client m)), m));
      _ ← print_properties props;
      session
  end.

Inductive Ending := Returned (code : Z) | Exited (code : Z).

(** The program: a client on a connection yet to be made; a [return] of [main]
    destroys it, [std::exit] does not. *)
Definition main (w : World) (os : gmap Z Z) : option (Ending * Main) :=
  match main_body (MkMain (new_client cfg w os) [] []) with
  | None => None
  | Some (inl code, m) => Some (Exited code, m)
  | Some (inr code, m) => Some (Returned code, MkMain (destroy threads_end (the_client m)) (cout m) (cerr m))
  end.
End main.

(** ** The standard error of the process *)

(** The lists that merge two lists, each in its order. *)
Inductive merged {A} : list A -> list A -> list A -> Prop :=
  | merged_nil : merged [] [] []
  | merged_left x l r o : merged l r o -> merged (x :: l) r (x :: o)
  | merged_right y l r o : merged l r o -> merged l (y :: r) (y :: o).

(** What the callback has to say about the events it was invoked with. *)
Definition callback_lines (m : Main) : bytes :=
  concat (map (fun event => connection_lost event.2) (fired (the_client m))).

(** [operator<<] is called for each piece of a line, so the bytes of the main thread
    and of the callback may mix; and the process may end before the detached thread
    has written its line, or all of it. *)
Definition standard_error (m : Main) (out : bytes) : Prop :=
  exists printed, printed `prefix_of` callback_lines m /\ merged (cerr m) printed out.

Lemma merged_left_only {A} (l o : list A) : merged l [] o -> o = l.
Proof. remember [] as r eqn:Hr. induction 1; [done| |done]. f_equal. by apply IHmerged. Qed.

Lemma merged_sublist {A} (l r o : list A) : merged l r o -> l `sublist_of` o.
Proof. induction 1; by constructor. Qed.

Lemma merged_refl {A} (l : list A) : merged l [] l.
Proof. induction l; by constructor. Qed.

Lemma merged_prepend {A} (l r : list A) : merged l r (r ++ l).
Proof. induction r; [apply merged_refl|by constructor]. Qed.

Lemma merged_append {A} (l r : list A) : merged l r (l ++ r).
Proof.
  induction l as [|x l IH]; cbn [app]; [|by constructor].
  rewrite <- (app_nil_r r) at 2. apply merged_prepend.
Qed.

(** Nothing the main thread wrote is lost, and nothing else is written unless the
    callback was invoked. *)
Lemma standard_error_quiet m out :
  standard_error m out -> cerr m `sublist_of` out /\ (fired (the_client m) = [] -> out = cerr m).
Proof.
  intros (printed & Hp & Hm). split; [by eapply merged_sublist|]. intros Hf.
  unfold callback_lines in Hp. rewrite Hf in Hp. apply prefix_nil_inv in Hp as ->. by apply merged_left_only.
Qed.

(** ** Weakest preconditions of programs *)

Definition wp {A} (p : Program A) (Q : A -> Main -> Prop) (E : Z -> Main -> Prop) (m : Main) : Prop :=
  match p m with
  | None => True
  | Some (inl code, m') => E code m'
  | Some (inr x, m') => Q x m'
  end.

Lemma wp_bind {A B} (p : Program A) (k : A -> Program B) Q E m :
  wp p (fun x => wp (k x) Q E) E m -> wp (p ≫= k) Q E m.
Proof. unfold wp, mbind, program_bind. by destruct (p m) as [[[code|x] m']|]. Qed.

Lemma wp_mono {A} (p : Program A) (Q Q' : A -> Main -> Prop) E m :
  wp p Q E m -> (forall x m', Q x m' -> Q' x m') -> wp p Q' E m.
Proof. unfold wp. destruct (p m) as [[[code|x] m']|]; auto. Qed.

Lemma wp_call {A} (op : Client -> option (A * Client)) (Q : A -> Main -> Prop) E m :
  (forall r c out, op (the_client m) = Some (r, c) -> Q r (MkMain c out (cerr m))) -> wp (call op) Q E m.
Proof. intros HQ. unfold wp, call. destruct (op _) as [[r c]|] eqn:Eo; [|done]. by apply HQ. Qed.

(** How [must] ends the program: the last line of the main thread. *)
Definition must_failed (code : Z) (m : Main) : Prop :=
  code = 1 /\ exists before context e,
    context ∈ [lit "create_stream"; lit "store_offset"; lit "delete_stream"; lit "close"] /\
    cerr m = before ++ lit "[ERROR] " ++ context ++ lit ": " ++ message e ++ nl.

Lemma wp_must r context (Q : unit -> Main -> Prop) m :
  context ∈ [lit "create_stream"; lit "store_offset"; lit "delete_stream"; lit "close"] ->
  (r = ok tt -> Q tt m) -> wp (must r context) Q must_failed m.
Proof.
  intros Hc HQ. destruct r as [[]|e]; [by apply HQ|]. split; [done|]. by exists (cerr m), context, e.
Qed.

(** What only prints leaves the client alone. *)
Lemma wp_print s (Q : unit -> Main -> Prop) E m :
  (forall out, Q tt (MkMain (the_client m) out (cerr m))) -> wp (print s) Q E m.
Proof. intros HQ. apply HQ. Qed.

Lemma wp_eprint s (Q : unit -> Main -> Prop) E m :
  Q tt (MkMain (the_client m) (cout m) (cerr m ++ s)) -> wp (eprint s) Q E m.
Proof. done. Qed.

Lemma wp_print_offset r (Q : unit -> Main -> Prop) E m :
  (forall m', Q tt m') -> wp (print_offset r) Q E m.
Proof. intros HQ. destruct r as [[off|]|e]; apply HQ. Qed.

Lemma wp_print_sequence r (Q : unit -> Main -> Prop) E m :
  (forall m', Q tt m') -> wp (print_sequence r) Q E m.
Proof. intros HQ. destruct r; apply HQ. Qed.

Lemma wp_print_properties kvs (Q : unit -> Main -> Prop) E m :
  (forall out, Q tt (MkMain (the_client m) out (cerr m))) -> wp (print_properties kvs) Q E m.
Proof.
  revert m. induction kvs as [|kv kvs IH]; intros m HQ.
  - specialize (HQ (cout m)). by destruct m.
  - cbn [print_properties]. apply wp_bind. unfold print_property. destruct (_ || _).
    + apply wp_print. intros out. by apply IH.
    + by apply IH.
Qed.

(** Step through a program. *)
Ltac wp_step :=
  apply wp_bind;
  first [ apply wp_print; intros ? | apply wp_must; [set_solver|intros ?] | apply wp_call; intros ? ? ? ?
        | apply wp_print_offset; intros ? | apply wp_print_sequence; intros ? ].

Section outcome.
Context `{Hplat : Platform}.
Variables (getaddrinfo : std_string -> std_string -> Z + list ResolvedAddr) (answers : ResolvedAddr -> Attempt).
Variables (others threads_end late : Client -> Client) (times : nat -> Z).

Lemma close_closed now c r c' :
  close others threads_end late now c = Some (r, c') -> r = ok tt -> state_ c' = ConnectionState.Closed.
Proof.
  unfold close. destruct (negb _); [by intros [= <- _]|]. destruct (take_cid _) as [cid c1].
  destruct (register _ _ _) as [fut c2]. destruct (if writer_ c2 then _ else _) as [[r' c3]|]; [|done].
  cbn [mbind option_bind]. destruct (Sock.close _ _) as [so os].
  destruct (fail_pending _ _) as [c7|]; [|done]. by intros [= _ <-].
Qed.

Lemma session_wp m :
  wp (session others threads_end late times)
    (fun code m => code = 0 /\ state_ (the_client m) = ConnectionState.Closed) must_failed m.
Proof.
  unfold session. repeat wp_step. split; [done|]. cbn [the_client]. by eapply close_closed.
Qed.

(** How [main] can end before its client is destroyed. *)
Definition body_outcome (c0 : Client) (code : Z) (m : Main) : Prop :=
  code = 0 /\ state_ (the_client m) = ConnectionState.Closed \/
  code = 1 /\ exists e, connect getaddrinfo answers (times 0) (on_unexpected_close 0 c0) = Some (err e, the_client m) /\
    cerr m = lit "[ERROR] connect failed: " ++ message e ++ nl.

Lemma main_body_wp c0 :
  wp (main_body getaddrinfo answers others threads_end late times) (body_outcome c0) must_failed (MkMain c0 [] []).
Proof.
  unfold main_body. apply wp_bind, wp_call. cbn [the_client cerr]. intros [] c out [= <-].
  wp_step. apply wp_bind, wp_call. cbn [the_client cerr]. intros r c out' Hr. destruct r as [u|e].
  - wp_step. apply wp_bind. cbn. apply wp_bind, wp_print_properties. intros out''.
    eapply wp_mono; [apply session_wp|]. intros code m H. by left.
  - apply wp_bind, wp_eprint. right. split; [done|]. by exists e.
Qed.

Lemma destroy_socket c :
  let c' := destroy threads_end c in
  sock_ c' = Sock.empty /\ io_thread_ c' = false /\ heartbeat_thread_ c' = false /\
  exists c1, state_ c1 = state_ c /\ state_ c' = state_ (threads_end c1).
Proof.
  cbn zeta. unfold destroy, join_threads.
  match goal with |- context [threads_end ?x] => set (c1 := x) end.
  pose proof (fun s os => close_socket s os) as Hclose.
  match goal with |- context [Sock.close ?s ?os] => specialize (Hclose s os); destruct (Sock.close s os) as [so os'] end.
  cbn in Hclose. subst so. split; [done|]. split; [done|]. split; [done|]. exists c1. split; [|done].
  subst c1. by case_bool_decide.
Qed.
End outcome.

(** ** A session *)

(** A broker that accepts everything, and has offset 42 and sequence 7 to report. *)
Definition broker : bytes :=
  server_side ++ reply (CreateResponse.Mk response_code.Ok) 100
  ++ reply (QueryOffsetResponse.Mk response_code.Ok 42) 101
  ++ reply (QueryPublisherResponse.Mk response_code.Ok 7) 102
  ++ reply (DeleteResponse.Mk response_code.Ok) 103 ++ reply (CloseResponse.Mk response_code.Ok) 104.

Abbreviation run_against bs :=
  (main (Hplat := sample_platform) local_host (fun _ => connected_at_once)
    (io_thread (Hplat := sample_platform) [5]) id id (fun _ => 0) (sample_world bs) ∅) (only parsing).

(** ** Properties *)

(** C22.  How the program ends.  If [main] returns, its client has been destroyed:
    the threads are joined and the socket is closed; it returns 0 only after a
    graceful close, and 1 only because connecting failed, with the reason as all
    that the main thread wrote on the standard error.  If it leaves through
    [std::exit], the code is 1 and the last line that the main thread wrote on the
    standard error names the command that failed and why.  The standard error [out]
    of the process has all the main thread wrote, in order; it is just that unless
    the callback was invoked, whose line may be mixed in or follow. *)
Theorem main_outcome {P : Platform} getaddrinfo answers (others threads_end late : Client -> Client)
  (times : nat -> Z) (w : World) (os : gmap Z Z) (ending : Ending) (m : Main)
  (out : bytes)
  (Hthreads : forall c, state_ c = ConnectionState.Closed -> state_ (threads_end c) = ConnectionState.Closed)
  (Hrun : main getaddrinfo answers others threads_end late times w os = Some (ending, m))
  (Hout : standard_error m out) :
  (cerr m `sublist_of` out /\ (fired (the_client m) = [] -> out = cerr m)) /\
  match ending with
  | Returned code =>
      sock_ (the_client m) = Sock.empty /\ io_thread_ (the_client m) = false /\
      heartbeat_thread_ (the_client m) = false /\
      (code = 0 /\ state_ (the_client m) = ConnectionState.Closed \/
       code = 1 /\ exists e c,
         connect getaddrinfo answers (times 0%nat) (on_unexpected_close 0 (new_client cfg w os)) = Some (err e, c) /\
         the_client m = destroy threads_end c /\
         cerr m = lit "[ERROR] connect failed: " ++ message e ++ nl)
  | Exited code => must_failed code m
  end.
Proof.
  split; [by apply standard_error_quiet|]. clear out Hout. revert Hrun. unfold main. pose proof (main_body_wp getaddrinfo answers others threads_end late times (new_client cfg w os)) as Hb.
  unfold wp in Hb. destruct (main_body _ _ _ _ _ _) as [[[code|code] m1]|]; [by intros [= <- <-]| |done].
  intros [= <- <-]. cbn [the_client cerr].
  destruct (destroy_socket threads_end (the_client m1)) as (H1 & H2 & H3 & c1 & Hc1 & Hs).
  split; [done|]. split; [done|]. split; [done|]. destruct Hb as [[-> Hb]|(-> & e & He & Hm)].
  - left. split; [done|]. rewrite Hs. apply Hthreads. by rewrite Hc1.
  - right. split; [done|]. by exists e, (the_client m1).
Qed.

(** The requests of a whole session, in the order of their correlation ids. *)
Definition session_requests : bytes :=
  request (CreateRequest.Mk stream retention) 100
  ++ oneway_frame (StoreOffset.Mk consumer_ref stream stored_offset)
  ++ request (QueryOffsetRequest.Mk consumer_ref stream) 101
  ++ request (QueryPublisherRequest.Mk publisher_ref stream) 102
  ++ request (DeleteRequest.Mk stream) 103 ++ request close_request 104.

Lemma main_outcome_witness :
  exists m, run_against broker = Some (Returned 0, m) /\ state_ (the_client m) = ConnectionState.Closed /\
    cerr m = [] /\ fds (the_client m) = ∅ /\
    drop (length (outbox (net (the_client m))) - length session_requests) (outbox (net (the_client m)))
    = session_requests.
Proof.
  destruct (run_against broker) as [[ending m]|] eqn:E; [|vm_compute in E; discriminate E].
  assert (Hq : cerr m = [] /\ fired (the_client m) = []) by (vm_compute in E; injection E as _ <-; by split).
  assert (Hout : standard_error m []).
  { exists []. split; [apply prefix_nil|]. rewrite (proj1 Hq). constructor. }
  pose proof (main_outcome (P := sample_platform) local_host (fun _ => connected_at_once)
    (io_thread (Hplat := sample_platform) [5]) id id (fun _ => 0) (sample_world broker) ∅ ending m []
    (fun _ H => H) E Hout) as [_ H].
  vm_compute in E. injection E as <- <-. eexists. split; [reflexivity|].
  destruct H as (_ & _ & _ & [[_ H]|[H _]]); [|discriminate H].
  split; [exact H|]. split; [reflexivity|]. split; [reflexivity|]. vm_compute. reflexivity.
Defined.

(** A broker that does not authorise the creation of the stream: [std::exit] leaves
    the connection open. *)
Example create_denied :
  let bs := server_side ++ reply (CreateResponse.Mk response_code.AccessRefused) 100 in
  exists m, run_against bs = Some (Exited 1, m) /\ state_ (the_client m) = ConnectionState.Open /\
    cerr m = lit "[ERROR] create_stream: create_stream failed" ++ nl /\ fds (the_client m) = {[5 := 2]}.
Proof. eexists. split; [vm_compute; reflexivity|]. split; [reflexivity|]. split; reflexivity. Qed.

(** A broker that drops the connection instead: the call fails and the callback is
    invoked, and its line may come after the one of the main thread. *)
Definition dropped : World :=
  MkWorld [Data server_side; Eof] (repeat (Sent 40) 600) [] [].

Example connection_dropped :
  exists m, main (Hplat := sample_platform) local_host (fun _ => connected_at_once)
    (io_thread (Hplat := sample_platform) [5]) id id (fun _ => 0) dropped ∅ = Some (Exited 1, m) /\
  cerr m = lit "[ERROR] create_stream: peer closed connection" ++ nl /\
  standard_error m (cerr m ++ lit "[WARN ] connection lost unexpectedly: peer closed connection (during_handshake=0)" ++ nl).
Proof.
  eexists. split; [vm_compute; reflexivity|]. split; [reflexivity|].
  eexists. split; [reflexivity|]. apply merged_append.
Qed.
