(* ===== verification/UnitTests.v ===== *)
(** * The unit tests, on the model

    The tests of [tests/unit/*.cpp], under their names.  They are evaluated, not
    proved: they show that the definitions compute what the authors of the code
    expect of the code.  Where a test uses a pair of connected sockets, the bytes
    that one end sends are the segments the other end receives; where it starts
    threads, a schedule of their steps is given. *)

From coqutil Require Import Datatypes.RecordSetters.
From S2P Require Import Prelude Errors Buffer Codec Frame Command HandshakeCommands.
From S2P Require Import LifecycleCommands Config Dispatcher Socket Concurrency Dialogue Handshake.
From S2P Require Import Client ClientProperties.
Import TriangleBracketNotations.

Local Open Scope Z_scope.

Ltac run := vm_compute; repeat split; reflexivity.

(** [BufferReader r(v); d(r)], and the reader afterwards. *)
Definition read_with {A} (d : Decoder A) (v : bytes) : Result A * BufferReader := d (reader_of v).

(** ** [test_buffer.cpp] *)

Example reports_remaining_and_advances :
  let v := [1; 2; 3; 4] in
  let '(b, r) := read_with Reader.read_byte v in
  Reader.remaining (reader_of v) = 4 /\ Reader.pos (reader_of v) = 0 /\ b = ok 1 /\
  Reader.pos r = 1 /\ Reader.remaining r = 3.
Proof. run. Qed.

Example rejects_truncated_input :
  let '(rr, r) := read_with (Reader.read_raw 2) [0xAA] in is_err rr = true /\ Reader.pos r = 0.
Proof. run. Qed.

Example borrow_returns_pointer :
  let '(p, r) := read_with (Reader.borrow 4) [0xDE; 0xAD; 0xBE; 0xEF] in
  p = ok [0xDE; 0xAD; 0xBE; 0xEF] /\ Reader.remaining r = 0.
Proof. run. Qed.

Example appends_raw_bytes :
  Writer.take_data (Writer.write_byte (Writer.write_raw Writer.empty [1; 2; 3] 3) 4) = [1; 2; 3; 4].
Proof. run. Qed.

(** ** [test_codec.cpp] *)

Example u32_cafebabe :
  let w := write_u32 Writer.empty 0xCAFEBABE in
  w = [0xCA; 0xFE; 0xBA; 0xBE] /\ fst (read_with read_u32 w) = ok 0xCAFEBABE.
Proof. run. Qed.

Example i64_negative_one :
  let w := write_i64 Writer.empty (-1) in
  w = [0xFF; 0xFF; 0xFF; 0xFF; 0xFF; 0xFF; 0xFF; 0xFF] /\ fst (read_with read_i64 w) = ok (-1).
Proof. run. Qed.

Example all_primitives_round_trip :
  let w := write_u8 Writer.empty 0xAB in
  let w := write_i8 w (-42) in
  let w := write_u16 w 0x1234 in
  let w := write_i16 w (-123) in
  let w := write_u32 w 0xDEADBEEF in
  let w := write_i32 w (-1000000) in
  let w := write_u64 w 0x0102030405060708 in
  let w := write_i64 w (- 2 ^ 63) in
  let all := a ← read_u8; b ← read_i8; c ← read_u16; d ← read_i16; e ← read_u32; f ← read_i32;
             g ← read_u64; h ← read_i64; mret [a; b; c; d; e; f; g; h] in
  let '(v, r) := read_with all w in
  v = ok [0xAB; -42; 0x1234; -123; 0xDEADBEEF; -1000000; 0x0102030405060708; - 2 ^ 63] /\ Reader.remaining r = 0.
Proof. run. Qed.

Example u32_rejects_truncated :
  let '(u, r) := read_with read_u32 [1; 2; 3] in is_err u = true /\ Reader.pos r = 0.
Proof. run. Qed.

Example string_guest :
  let w := write_string Writer.empty (lit "guest") in
  w = [0; 5] ++ lit "guest" /\ fst (read_with read_string w) = ok (Some (lit "guest")).
Proof. run. Qed.

Example string_null :
  let w := write_string_opt Writer.empty None in
  let '(s, r) := read_with read_string w in
  w = [0xFF; 0xFF] /\ s = ok None /\ Reader.remaining r = 0.
Proof. run. Qed.

Example string_empty :
  let w := write_string Writer.empty [] in w = [0; 0] /\ fst (read_with read_string w) = ok (Some []).
Proof. run. Qed.

Example string_rejects_invalid_utf8 : is_err (fst (read_with read_string [0; 2; 0xC0; 0xC0])) = true.
Proof. run. Qed.

Example bytes_three :
  let w := write_bytes Writer.empty (Some [1; 2; 3]) in
  w = [0; 0; 0; 3; 1; 2; 3] /\ fst (read_with read_bytes w) = ok (Some [1; 2; 3]).
Proof. run. Qed.

Example bytes_null :
  let '(b, r) := read_with read_bytes [0xFF; 0xFF; 0xFF; 0xFF] in b = ok None /\ Reader.remaining r = 0.
Proof. run. Qed.

Example array_of_two_strings :
  write_string (write_string (write_array_prefix Writer.empty 2) (lit "a")) (lit "bc")
  = [0; 0; 0; 2; 0; 1; 0x61; 0; 2; 0x62; 0x63].
Proof. run. Qed.

Example empty_array :
  let '(n, r) := read_with read_array_prefix [0; 0; 0; 0] in n = ok 0 /\ Reader.remaining r = 0.
Proof. run. Qed.

Example negative_array_count : is_err (fst (read_with read_array_prefix (write_i32 Writer.empty (-1)))) = true.
Proof. run. Qed.

(** ** [test_frame.cpp] *)

Example encode_request_empty_body :
  encode_request_frame 0x0012 1 42 [] = [0; 0; 0; 8; 0; 0x12; 0; 1; 0; 0; 0; 0x2A].
Proof. run. Qed.

Example encode_oneway_heartbeat : encode_oneway_frame 0x0017 1 [] = [0; 0; 0; 4; 0; 0x17; 0; 1].
Proof. run. Qed.

Example read_request_frame :
  fst (read_with read_frame_auto (encode_request_frame 0x000D 1 7 [0xAA; 0xBB]))
  = ok (MkFrame 0x000D 1 [0; 0; 0; 7; 0xAA; 0xBB] None).
Proof. run. Qed.

Example read_response_frame :
  let inner := write_u16 (write_u32 (write_u16 (write_u16 Writer.empty 0x800D) 1) 0xCAFEBABE) 0x0001 in
  let w := Writer.write_raw (write_u32 Writer.empty (zlen inner)) inner (zlen inner) in
  fst (read_with read_frame_auto w) = ok (MkFrame 0x800D 1 [0; 1] (Some 0xCAFEBABE)).
Proof. run. Qed.

Example rejects_truncated_header : is_err (fst (read_with read_frame_auto [0; 0])) = true.
Proof. run. Qed.

Example rejects_size_too_small :
  match fst (read_with read_frame_auto [0; 0; 0; 1; 0xAA]) with err e => kind e = Kind.ProtocolViolation | ok _ => False end.
Proof. run. Qed.

Example rejects_size_beyond_available :
  is_err (fst (read_with read_frame_auto [0; 0; 0; 0x10; 0; 0x12; 0; 1])) = true.
Proof. run. Qed.

Example key_helpers :
  key.is_response 0x800D = true /\ key.is_response 0x000D = false /\ key.response_of 0x000D = 0x800D /\
  key.request_of 0x800D = 0x000D /\ key.request_of 0x000D = 0x000D.
Proof. run. Qed.

Example frame_size_unlimited_at_zero : is_ok (check_outbound_frame_size (1024 * 1024 * 32) 0) = true.
Proof. run. Qed.

Example frame_size_over_limit :
  match check_outbound_frame_size 2048 1024 with err e => kind e = Kind.ProtocolViolation | ok _ => False end.
Proof. run. Qed.

(** ** [test_dispatcher.cpp] *)

(** [make_response_frame]. *)
Definition make_response_frame (k cid : Z) : IncomingFrame :=
  MkFrame (Z.lor k key.kResponseBit) 1 [] (Some cid).

Example correlation_ids_unique : bool_decide (NoDup (draw_ids 100 new_dispatcher)) = true.
Proof. run. Qed.

Example resolves_pending_request :
  let '(id, d) := next_correlation_id new_dispatcher in
  let '(fut, d) := register_pending id 5000 d in
  match dispatch (make_response_frame 0x000D id) d with
  | Some (true, d) => promises d !! fut = Some (Satisfied (ok (make_response_frame 0x000D id)))
  | _ => False
  end.
Proof. run. Qed.

Example unknown_response_not_matched :
  dispatch (make_response_frame 0x000D 999) new_dispatcher = Some (false, new_dispatcher).
Proof. run. Qed.

Example fail_all_pending_resolves :
  let '(a, d) := next_correlation_id new_dispatcher in
  let '(b, d) := next_correlation_id d in
  let '(fa, d) := register_pending a 5000 d in
  let '(fb, d) := register_pending b 5000 d in
  let bye := mk_error Kind.ConnectionClosed (lit "bye") in
  match fail_all_pending bye d with
  | Some d => promises d !! fa = Some (Satisfied (err bye)) /\ promises d !! fb = Some (Satisfied (err bye))
  | None => False
  end.
Proof. run. Qed.

(** [ReapExpiredResolvesWithRequestTimeout] and [ResponseAfterReapIsIgnored]. *)
Example reap_expired_then_response :
  let '(id, d) := next_correlation_id new_dispatcher in
  let '(fut, d) := register_pending id 99 d in
  match reap_expired 100 d with
  | Some (reaped, d) =>
      reaped = 1 /\ dispatch (make_response_frame 0x000D id) d = Some (false, d) /\
      match promises d !! fut with
      | Some (Satisfied (err e)) => kind e = Kind.RequestTimeout
      | _ => False
      end
  | None => False
  end.
Proof. run. Qed.

Example oneway_handler_for_heartbeat :
  let f := MkFrame key.Heartbeat 1 [] None in
  match dispatch f (on_heartbeat 7 new_dispatcher) with
  | Some (b, d) => b = true /\ calls d = [(7%nat, f)]
  | None => False
  end.
Proof. run. Qed.

(** ** [test_commands.cpp] *)

Example command_keys :
  [kKey PeerPropertiesRequest.t; kKey PeerPropertiesResponse.t; kKey SaslHandshakeRequest.t; kKey SaslHandshakeResponse.t;
   kKey SaslAuthenticateRequest.t; kKey SaslAuthenticateResponse.t; kKey Tune.t; kKey OpenRequest.t; kKey OpenResponse.t;
   kKey CloseRequest.t; kKey CloseResponse.t; kKey Heartbeat.t; kKey CreateRequest.t; kKey CreateResponse.t;
   kKey DeleteRequest.t; kKey DeleteResponse.t; kKey StoreOffset.t; kKey QueryOffsetRequest.t; kKey QueryOffsetResponse.t;
   kKey QueryPublisherRequest.t; kKey QueryPublisherResponse.t]
  = [0x0011; 0x8011; 0x0012; 0x8012; 0x0013; 0x8013; 0x0014; 0x0015; 0x8015; 0x0016; 0x8016; 0x0017; 0x000D; 0x800D;
     0x000E; 0x800E; 0x000A; 0x000B; 0x800B; 0x0005; 0x8005].
Proof. run. Qed.

(** [roundtrip(original)], with the number of bytes it takes. *)
Definition roundtrip {C} `{Command C} (c : C) : Result C * Z :=
  (fst (read_with decode_body (body_of c)), zlen (body_of c)).

Example peer_properties_roundtrip :
  let req := PeerPropertiesRequest.Mk [(lit "product", lit "test"); (lit "version", lit "0.1")] in
  let resp := PeerPropertiesResponse.Mk 0x01 [(lit "version", lit "4.0")] in
  (roundtrip req).1 = ok req /\ (roundtrip resp).1 = ok resp.
Proof. run. Qed.

Example sasl_roundtrips :
  let plain := [0] ++ lit "guest" ++ [0] ++ lit "guest" in
  let offer := SaslHandshakeResponse.Mk 0x01 [lit "PLAIN"; lit "EXTERNAL"] in
  let auth := SaslAuthenticateRequest.Mk (lit "PLAIN") plain in
  let challenge := SaslAuthenticateResponse.Mk 0x0A (Some [0xDE; 0xAD]) in
  body_of SaslHandshakeRequest.Mk = [] /\ (roundtrip offer).1 = ok offer /\
  roundtrip auth = (ok auth, 7 + 16) /\ take 3 (body_of auth) = [0; 5; 0x50] /\
  (roundtrip challenge).1 = ok challenge.
Proof. run. Qed.

Example tune_wire_vector :
  let t := Tune.Mk 1048576 60 in
  body_of t = [0; 0x10; 0; 0; 0; 0; 0; 0x3C] /\ (roundtrip t).1 = ok t.
Proof. run. Qed.

Example open_close_heartbeat :
  let req := OpenRequest.Mk (lit "/") in
  let resp := OpenResponse.Mk 0x01 [] in
  let bye := CloseRequest.Mk 0x01 (lit "user requested") in
  let done := CloseResponse.Mk 0x01 in
  (roundtrip req).1 = ok req /\ (roundtrip resp).1 = ok resp /\ (roundtrip bye).1 = ok bye /\
  (roundtrip done).1 = ok done /\ body_of Heartbeat.Mk = [].
Proof. run. Qed.

Example create_delete_roundtrips :
  let create := CreateRequest.Mk (lit "logs") [(lit "max-length-bytes", lit "1000000000"); (lit "max-age", lit "12h")] in
  let delete := DeleteRequest.Mk (lit "invoices") in
  (roundtrip create).1 = ok create /\ (roundtrip (CreateResponse.Mk 0x05)).1 = ok (CreateResponse.Mk 0x05) /\
  (roundtrip delete).1 = ok delete /\ (roundtrip (DeleteResponse.Mk 0x02)).1 = ok (DeleteResponse.Mk 0x02).
Proof. run. Qed.

Example offset_roundtrips :
  let store := StoreOffset.Mk (lit "consumer-1") (lit "invoices") 12345 in
  let query := QueryOffsetRequest.Mk (lit "consumer-1") (lit "invoices") in
  let found := QueryOffsetResponse.Mk 0x01 42 in
  let publisher := QueryPublisherRequest.Mk (lit "publisher-A") (lit "invoices") in
  let sequence := QueryPublisherResponse.Mk 0x01 999 in
  (roundtrip store).1 = ok store /\ (roundtrip query).1 = ok query /\ (roundtrip found).1 = ok found /\
  (roundtrip publisher).1 = ok publisher /\ (roundtrip sequence).1 = ok sequence.
Proof. run. Qed.

(** ** [test_client.cpp] *)

Example config_defaults :
  let cfg := default_config in
  host cfg = lit "localhost" /\ port cfg = 5552 /\ virtual_host cfg = lit "/" /\ username cfg = lit "guest" /\
  password cfg = lit "guest" /\ requested_heartbeat_seconds cfg = 60 /\ requested_frame_max_bytes cfg = 1048576.
Proof. run. Qed.

(** A result that is an error of a kind. *)
Definition error_kind {A} (r : Result A) : option Kind.t :=
  match r with ok _ => None | err e => Some (kind e) end.

Example config_rejected :
  let cfg h p v := MkConfig h p v [] [] [] false 60 1048576 30000 10000 in
  error_kind (validate (cfg [] 5552 (lit "/"))) = Some Kind.ConfigurationError /\
  error_kind (validate (cfg (lit "localhost") 0 (lit "/"))) = Some Kind.ConfigurationError /\
  error_kind (validate (cfg (lit "localhost") 5552 [])) = Some Kind.ConfigurationError.
Proof. run. Qed.

Definition fresh_client : Client := new_client default_config (MkWorld [] [] [] []) ∅.

Example initial_state : StreamClient.state fresh_client = ConnectionState.Disconnected.
Proof. run. Qed.

Example operations_before_connect :
  let failed {A} (r : option (Result A * Client)) := r ≫= fun x => error_kind x.1 in
  let P := sample_platform in
  failed (create_stream id (lit "x") [] false 0 fresh_client) = Some Kind.ConnectionNotOpen /\
  failed (delete_stream id (lit "x") false 0 fresh_client) = Some Kind.ConnectionNotOpen /\
  failed (store_offset (lit "ref") (lit "stream") 0 0 fresh_client) = Some Kind.ConnectionNotOpen /\
  failed (query_offset id (lit "ref") (lit "stream") 0 fresh_client) = Some Kind.ConnectionNotOpen /\
  failed (query_publisher_sequence id (lit "ref") (lit "stream") 0 fresh_client) = Some Kind.ConnectionNotOpen.
Proof. run. Qed.

(** The connection is refused. *)
Example connect_unreachable :
  let P := sample_platform in
  let cfg := MkConfig (lit "127.0.0.1") 1 (lit "/") (lit "guest") (lit "guest") [] false 60 1048576 500 10000 in
  match connect (fun _ _ => inr [MkAddr 2 1 6 []]) (fun _ => refused) 0 (new_client cfg (MkWorld [] [] [] []) ∅) with
  | Some (r, c) => error_kind r = Some Kind.ConnectFailed /\ StreamClient.state c = ConnectionState.Closed
  | None => False
  end.
Proof. run. Qed.

(** A sink that drops everything, and one that counts: what the client logs does not
    depend on the sink. *)
Example null_logger_does_not_crash :
  let c := log_info (lit "error") (log_info (lit "test") fresh_client) in
  StreamClient.state c = StreamClient.state fresh_client /\ cfg_ c = cfg_ fresh_client.
Proof. run. Qed.

Example custom_logger_receives_events : logs (net (log_info (lit "hello") fresh_client)) = [(Info, lit "hello")].
Proof. run. Qed.

(** ** [test_socket.cpp] *)

Example write_all_loopback :
  write_all (Hplat := sample_platform) [1; 2; 3; 4; 5] (MkWorld [] [Sent 5] [] []) = Some (ok tt, MkWorld [] [] [1; 2; 3; 4; 5] []).
Proof. run. Qed.

(** Four threads write fifty packets of eight bytes each, through [send]s that take
    three and five bytes; the threads take turns with whole calls. *)
Definition packets : list (list bytes) := (fun t => repeat (repeat (Z.of_nat t) 8) 50) <$> seq 0 4.
Definition turns : list nat := concat (repeat (concat ((fun t => repeat t 4) <$> seq 0 4)) 50).
Definition small_sends : World := MkWorld [] (concat (repeat [Sent 3; Sent 5] 200)) [] [].

(** The packets of a stream. *)
Fixpoint chunks (n : nat) (bs : bytes) : list bytes :=
  match n with O => [] | S n => take 8 bs :: chunks n (drop 8 bs) end.

Example concurrent_writes_are_serialized :
  match run_schedule (writer_step (Hplat := sample_platform)) turns (start_writers packets small_sends) with
  | Some cfg =>
      let all := outbox (conn cfg) in
      length all = 1600%nat /\
      forallb (fun chunk => existsb (fun t => bool_decide (chunk = repeat (Z.of_nat t) 8)) (seq 0 4)) (chunks 200 all) = true
  | None => False
  end.
Proof. run. Qed.

(** The same threads, each of which is interrupted by the others between its two
    [send]s: the others cannot take the mutex. *)
Example interrupted_writer_keeps_the_mutex :
  run_schedule (writer_step (Hplat := sample_platform)) [0; 0; 1]%nat (start_writers packets small_sends) = None.
Proof. run. Qed.

Example read_exact_loopback :
  read_exact (Hplat := sample_platform) 4 TreatAsError (MkWorld [Data [0xDE; 0xAD; 0xBE; 0xEF]; Eof] [] [] [])
  = Some (ok [0xDE; 0xAD; 0xBE; 0xEF], MkWorld [Eof] [] [] []).
Proof. run. Qed.

Example peer_close_detected :
  match read_exact (Hplat := sample_platform) 4 TreatAsError (MkWorld [Eof] [] [] []) with
  | Some (r, _) => error_kind r = Some Kind.ConnectionClosed
  | None => False
  end.
Proof. run. Qed.

Example rejects_unreachable_port :
  error_kind (connect_with_timeout (Hplat := sample_platform) (lit "127.0.0.1") 1 500
    (default_resolve_host (Hplat := sample_platform) (fun _ _ => inr [MkAddr 2 1 6 []])) (fun _ => refused) ∅).1
  = Some Kind.ConnectFailed.
Proof. run. Qed.

Example tls_scaffold_fails :
  error_kind (TlsSocket.connect TlsSocket.empty (lit "localhost") 5551 100).1 = Some Kind.ConnectFailed.
Proof. run. Qed.
