(* ===== verification/IntegrationTests.v ===== *)
(** * The integration tests, against canned answers of a broker

    The tests of [tests/integration/test_lifecycle_e2e.cpp], under their names.  Where
    the source talks to a live broker, the bytes such a broker answers are given, and
    the client of the model runs against them from [connect] to [close]. *)

From coqutil Require Import Datatypes.RecordSetters.
From S2P Require Import Prelude Errors Buffer Codec Frame Command HandshakeCommands.
From S2P Require Import LifecycleCommands Config Dispatcher Socket Concurrency Dialogue Handshake.
From S2P Require Import Client ClientProperties UnitTests.
Import TriangleBracketNotations.

Local Open Scope Z_scope.

(** ** The fixture *)

(** [default_cfg]. *)
Definition default_cfg (vhost pass : std_string) : ConnectionConfig :=
  MkConfig (lit "localhost") 5552 vhost (lit "guest") pass [] false 60 1048576 5000 10000.
Definition cfg : ConnectionConfig := default_cfg (lit "/") (lit "guest").

(** The broker's part of a handshake. *)
Definition product : list KeyValue := [(lit "product", lit "RabbitMQ"); (lit "version", lit "3.13.1")].
Definition greeting : bytes :=
  reply (PeerPropertiesResponse.Mk response_code.Ok product) 1
  ++ reply (SaslHandshakeResponse.Mk response_code.Ok [lit "PLAIN"; lit "AMQPLAIN"]) 2.
Definition authenticated : bytes :=
  greeting ++ reply (SaslAuthenticateResponse.Mk response_code.Ok None) 3 ++ oneway_frame (Tune.Mk 1048576 60).
Definition handshake : bytes := authenticated ++ reply (OpenResponse.Mk response_code.Ok []) 4.

(** What a test does: operations on the client, each with a result. *)
Definition connecting (config : ConnectionConfig) (bs : bytes) : option (Result unit * Client) :=
  connect (Hplat := sample_platform) local_host (fun _ => connected_at_once) 0 (new_client config (sample_world bs) ∅).

(** [SetUp]. *)
Definition set_up (answers : bytes) : option Client :=
  '(r, c) ← connecting cfg (handshake ++ answers);
  match r with ok _ => Some c | err _ => None end.

(** The I/O thread handles one frame while a call waits, and ends with [close]. *)
Definition answered : Client -> Client := io_thread (Hplat := sample_platform) [1].
Definition ended : Client -> Client := io_thread (Hplat := sample_platform) [2].

#[local] Existing Instance sample_platform.
Definition create (args : list Argument) (idempotent : bool) (c : Client) := create_stream answered (lit "s") args idempotent 0 c.
Definition remove (idempotent : bool) (c : Client) := delete_stream answered (lit "s") idempotent 0 c.
Definition store (ref : std_string) (offset : Z) (c : Client) := store_offset ref (lit "s") offset 0 c.
Definition offset_of (ref : std_string) (c : Client) := query_offset answered ref (lit "s") 0 c.
Definition sequence_of (ref : std_string) (c : Client) := query_publisher_sequence answered ref (lit "s") 0 c.
Definition finish (c : Client) := close answered ended id 0 c.

(** [TearDown]. *)
Definition tear_down (c : Client) : option Client :=
  '(_, c) ← remove true c;
  if bool_decide (StreamClient.state c = ConnectionState.Open) then '(_, c) ← finish c; Some c else Some c.

(** [std::string long_ref(257, 'a')]. *)
Definition long_ref : std_string := repeat 97 257.

Definition ok_create (cid : Z) : bytes := reply (CreateResponse.Mk response_code.Ok) cid.
Definition ok_delete (cid : Z) : bytes := reply (DeleteResponse.Mk response_code.Ok) cid.
Definition ok_close (cid : Z) : bytes := reply (CloseResponse.Mk response_code.Ok) cid.

(** ** Handshake and connection *)

Example happy_path_opens_connection :
  match set_up (ok_close 100) with
  | Some c =>
      StreamClient.state c = ConnectionState.Open /\
      existsb (fun kv => bool_decide (kv.1 = lit "version")) (StreamClient.server_properties c) = true /\
      exists c', finish c = Some (ok tt, c')
  | None => False
  end.
Proof. vm_compute. split; [reflexivity|]. split; [reflexivity|]. eexists. reflexivity. Qed.

Example wrong_password :
  match connecting (default_cfg (lit "/") (lit "definitely-wrong"))
          (greeting ++ reply (SaslAuthenticateResponse.Mk response_code.AuthenticationFailure None) 3) with
  | Some (r, c) => error_kind r = Some Kind.AuthenticationFailed /\ StreamClient.state c = ConnectionState.Closed
  | None => False
  end.
Proof. run. Qed.

Example wrong_vhost :
  match connecting (default_cfg (lit "/does-not-exist-xyz") (lit "guest"))
          (authenticated ++ reply (OpenResponse.Mk response_code.VirtualHostAccessFailure []) 4) with
  | Some (r, c) => error_kind r = Some Kind.VirtualHostAccessDenied
  | None => False
  end.
Proof. run. Qed.

(** ** Lifecycle *)

(** Create, store, query, delete and close; the callback does not fire. *)
Definition happy_path : option (list bool * Z * Client) :=
  c ← set_up (ok_create 100 ++ reply (QueryOffsetResponse.Mk response_code.Ok 42) 101
              ++ reply (QueryPublisherResponse.Mk response_code.Ok 0) 102 ++ ok_delete 103 ++ ok_close 104);
  let c := on_unexpected_close 1 c in
  '(r1, c) ← create [] false c;
  '(r2, c) ← store (lit "consumer-1") 42 c;
  '(off, c) ← offset_of (lit "consumer-1") c;
  '(seq, c) ← sequence_of (lit "publisher-A") c;
  '(r3, c) ← remove false c;
  '(r4, c) ← finish c;
  Some ([is_ok r1; is_ok r2; bool_decide (off = ok (Some 42)); is_ok r3; is_ok r4],
        match seq with ok n => n | err _ => -1 end, c).

Example happy_path_create_store_query_delete :
  match happy_path with
  | Some (oks, seq, c) => forallb id oks = true /\ seq = 0 /\ fired c = [] /\ StreamClient.state c = ConnectionState.Closed
  | None => False
  end.
Proof. run. Qed.

(** Two calls, one after the other: their results. *)
Definition both {A B} (p : Client -> option (Result A * Client)) (q : Client -> option (Result B * Client)) (c : Client)
  : option (Result A * Result B) :=
  '(r1, c) ← p c; '(r2, _) ← q c; Some (r1, r2).

Example idempotent_create :
  set_up (ok_create 100 ++ reply (CreateResponse.Mk response_code.StreamAlreadyExists) 101)
    ≫= both (create [] false) (create [] true) = Some (ok tt, ok tt).
Proof. run. Qed.

Example idempotent_delete :
  set_up (ok_delete 100 ++ reply (DeleteResponse.Mk response_code.StreamDoesNotExist) 101)
    ≫= both (remove false) (remove true) = Some (ok tt, ok tt).
Proof. run. Qed.

Example query_offset_never_stored :
  set_up (ok_create 100 ++ reply (QueryOffsetResponse.Mk response_code.NoOffset 0) 101)
    ≫= both (create [] false) (offset_of (lit "never-stored-ref")) = Some (ok tt, ok None).
Proof. run. Qed.

Example query_offset_stored :
  set_up (reply (QueryOffsetResponse.Mk response_code.Ok 100) 100)
    ≫= both (store (lit "consumer-1") 100) (offset_of (lit "consumer-1")) = Some (ok tt, ok (Some 100)).
Proof. run. Qed.

Example create_with_retention_arguments :
  let args := [(lit "max-length-bytes", lit "100000000")] in
  set_up (ok_create 100 ++ reply (CreateResponse.Mk response_code.StreamAlreadyExists) 101)
    ≫= both (create args false) (create args true) = Some (ok tt, ok tt).
Proof. run. Qed.

Example create_existing :
  match set_up (ok_create 100 ++ reply (CreateResponse.Mk response_code.StreamAlreadyExists) 101)
          ≫= both (create [] false) (create [] false) with
  | Some (r1, r2) => is_ok r1 = true /\ error_kind r2 = Some Kind.StreamAlreadyExists
  | None => False
  end.
Proof. run. Qed.

Example delete_missing :
  match set_up (reply (DeleteResponse.Mk response_code.StreamDoesNotExist) 100) ≫= remove false with
  | Some (r, _) => error_kind r = Some Kind.StreamDoesNotExist
  | None => False
  end.
Proof. run. Qed.

Example graceful_close_fires_nothing :
  match c ← set_up (ok_create 100 ++ ok_close 101);
        '(_, c) ← create [] false (on_unexpected_close 1 c);
        finish c with
  | Some (r, c) => r = ok tt /\ fired c = [] /\ StreamClient.state c = ConnectionState.Closed
  | None => False
  end.
Proof. run. Qed.

(** A reference of 257 characters is rejected, and nothing is sent. *)
Example reference_too_long_rejected :
  match c ← set_up (ok_create 100);
        '(_, c) ← create [] false c;
        '(r1, c1) ← store long_ref 0 c;
        '(r2, c2) ← sequence_of long_ref c1;
        Some (r1, r2, outbox (net c), outbox (net c2)) with
  | Some (r1, r2, before, after) =>
      error_kind r1 = Some Kind.ReferenceTooLong /\ error_kind r2 = Some Kind.ReferenceTooLong /\ after = before
  | None => False
  end.
Proof. run. Qed.

(** After a test that has closed the client, and after one that has not. *)
Example tear_down_closed :
  match c ← set_up (ok_close 100); '(_, c) ← finish c; tear_down c with
  | Some c => StreamClient.state c = ConnectionState.Closed /\ fds c = ∅
  | None => False
  end.
Proof. run. Qed.

Example tear_down_open :
  match set_up (ok_delete 100 ++ ok_close 101) ≫= tear_down with
  | Some c => StreamClient.state c = ConnectionState.Closed /\ fds c = ∅
  | None => False
  end.
Proof. run. Qed.
